(* ===== verification/_CoqProject ===== *)
-Q . S2P
Prelude.v
Types.v
Sync.v
RingMem.v
RingCells.v
RingBytes.v
RingProps.v
RingConc.v
RingInv.v
RingConcProps.v
Threads.v
ThreadsEnd.v
ThreadsProps.v
Sha256.v
Security.v
Lifecycle.v
Registry.v
RegistryCrash.v
RegistryProps.v
Layout.v
Manager.v
ManagerInv.v
Janitor.v
ManagerOps.v
ManagerSteps.v
ManagerProps.v
Grants.v
SegmentRace.v
SegmentRaceProps.v
Contents.v
SegmentRing.v
Logger.v
LogCenter.v
LoggingProps.v
System.v
SystemInv.v
SystemProps.v
Examples.v
ExamplesProps.v
Benchmark.v
