(* ===== verification/Prelude.v ===== *)
(** * shmfx: a verified model of the shared-memory framework

    shmfx lets processes on one machine create named POSIX shared-memory segments, find them
    through a registry segment, reclaim the ones whose owners died, and pass records through
    lock-free rings inside them; a logging application sits on top. This library translates the
    C++ sources under src/ into executable definitions and proves what makes them correct.

    ** The parts of the program and how they interact

    - [ShmManager] (src/src/shm_manager.cpp) creates, attaches and destroys segments. It asks the
      name and quota checks of src/src/shm_security.cpp for permission, signs the header, starts
      the heartbeat of src/src/shm_lifecycle.cpp and registers the segment.
    - [Registry] (src/src/shm_registry.cpp) is itself a segment: a bitmap, a count and 1024
      seqlocked slots under one robust mutex. Its janitor pass [gc] runs at every attach.
    - [MpscRing] (src/src/shm_ring.cpp) is a bounded ring of records in the payload of a segment,
      for many producers and one consumer.
    - [Logger] and [LogCenter] (src/apps/logging) publish into and drain such rings: a logger
      creates a segment of its own, a center discovers it by its name prefix in the registry.

    ** Files

    Prelude: machine integers, bytes, strings, the tactics and hint databases. Types: shm_types.h,
    shm_error.h, shm_header.h. Sync: shm_sync.h and .cpp.

    Ring. RingMem: [try_push], [try_pop], [drain_batch] over the interface [RingMem] of memory
    accesses, each of which fails when it would leave the span. RingCells: the instance on
    structured slots and its refinement of a FIFO queue. RingBytes: the instance on the bytes of a
    payload, [initialize], [bind] and the simulation between the two. RingProps: theorems of one
    thread. RingConc, RingInv, RingConcProps: the machine in which producers and a consumer
    interleave access by access, its invariant, its theorems. Threads, ThreadsEnd, ThreadsProps:
    the loops of ring clients on that machine, worker threads with jobs and a consumer.

    Security. Sha256: the streaming SHA-256 and HMAC and their references. Security: names, quotas,
    keys, signatures.

    Lifecycle: the mutex guard, the liveness test with its reader of /proc, the heartbeat worker.

    Registry, RegistryCrash, RegistryProps: the payload of the registry and its operations under
    the mutex, as a finite map; the repair; the death of a lock holder at each store of an operation
    or of the repair, byte by byte inside the structure assignments.

    Layout: the structs of the shared memory laid out by the rules of the ABI, and the static
    assertions.

    Manager: the world of names, objects, descriptors, mappings and heartbeats; every operation of
    shm_manager.cpp, the bootstrap of the registry and [Registry::gc], call by call. ManagerInv:
    [world_ok] and what keeps it. Janitor: one turn of [gc] and the whole pass. ManagerOps: each
    operation, case by case. ManagerSteps: runs of many processes. ManagerProps: the theorems.
    Grants: when [create] succeeds. Contents: what stays of the bytes after the headers,
    and what a new segment holds.
    SegmentRace, SegmentRaceProps: [attach], the end of handles and the janitor on one segment,
    access by access, with crashes.

    SegmentRing: a ring as the code has it, a reference to a metadata block and a span of a mapped
    segment. Logger, LogCenter: logger.cpp and log_center.cpp. LoggingProps: their theorems. System:
    loggers, a center and every other user of shared memory as one system whose operations any
    process may run, and its specification, in which rings are queues with a history and the sink
    has been handed a list of events. SystemInv: the simulation between the two. SystemProps: the
    theorems on runs of the system.

    Examples, ExamplesProps: the programs of src/examples and src/apps/logging/examples, each
    [main] with its threads and the destructors of its locals. Benchmark: src/benchmark.

    A C++ structure is a record with the same fields, an enumeration an inductive type with its
    numeric values, [Result<T>] the type [Result]. Definitions keep the names of the source;
    [option] around a result is [None] where the C++ would access memory outside the span or
    overflow a signed integer.

    ** What the theorems show

    - Ring. Any sequence of calls on an initialized ring behaves as a bounded FIFO queue
      ([RingProps.ring_implements_fifo]); with any number of producers in any interleaving the
      [k]-th pop returns the [k]-th claimed message whole, no two accesses to a record race, every
      access is inside the span, every loss is counted, every call ends ([RingConcProps]).
      Producers that repeat failed pushes and a consumer that counts to the end pass every record
      exactly once and in order, and can always be brought to their end; producers that go on end
      within a bounded number of steps and lose nothing while the records fit ([ThreadsProps]).
    - Security. The streaming hash is the padded hash, HMAC is RFC 2104, accepted names and create
      requests are characterized exactly, and a header that verifies carries the HMAC of its
      immutable block.
    - Lifecycle. The guard follows the protocol of a robust mutex, an owner that runs and beats is
      never taken for dead, the reader of /proc returns field 22 whatever the command name holds,
      and the heartbeat worker is alive whenever there is an owner to beat for.
    - Registry. Its operations refine a finite map with exact errors, the repair restores the
      invariant, and a death at any store damages at most the slot being written, which can be left
      under a beginning of its name ([RegistryProps.registry_crash_safe]). Bits, names, sequences
      and count agree between any two operations ([RegistryProps.registry_always_sound]).
    - Manager. [create] and [attach] on every branch, cleanup of failed calls, the invariant of all
      reachable worlds, the exact agreement of registry and names when no call fails, the states
      of a segment only moving forward, what [gc] keeps and what it reclaims, and when exactly
      [create] succeeds ([Grants]).
    - Layout. The assertions on the structs hold exactly for a 40-byte mutex ([Layout]).
    - Races on one segment. Under any interleaving of attaches, detaches, janitors and crashes the
      count is exact and the mutex excludes; an attach after Dead is refused, and a reclaim that no
      attach overtakes is safe ([SegmentRaceProps]). A thread that is not interrupted computes what
      the manager's functions compute, the whole turn of a janitor on an entry included.
    - Logging. Initialization on success and on error, calls as pushes on the queue, discovery,
      draining, and the delivery of records from a logger in one process to the sink of a center
      in another ([LoggingProps.log_delivery]).
    - System. Every run of loggers, center, manager and janitor, in any order and with any failing
      calls, is a run of the specification ([SystemProps.system_refines]), no operation of it is
      undefined, every accepted record is handed over once and in order or still queued, and polls
      hand over what is queued ([SystemProps]).
    - Programs. The examples, the demos and the benchmark, whatever the schedule, run to an end, print
      what they should and give back what they took ([ExamplesProps], [Benchmark]).

    Some theorems state where the code departs from its contract: a one-record ring loses
    records, strides and sizes wrap near the top of their types, the seqlock accepts an entry
    that a preempted writer has half copied, a death inside the copy of a name can leave two entries
    of one name ([RegistryProps.crash_duplicates_name]), a center does not attach a ring created
    again under a name it reads ([LoggingProps.recreated_ring_skipped]), a janitor reclaims a segment under an attach that
    overtakes it ([SegmentRaceProps.reclaim_race], [SegmentRaceProps.zombie_race]), and repeated
    pushes count as losses.

    ** Bounds and fuel

    The retry budget of [try_push] (64) and the 100 retries of [snapshot_slot] are the constants of
    the code, used as structural fuel. Loops over slots run over the 1024 slots. Draining recurses
    on the batch size. Decimal printing has fuel 10 for 32-bit and 20 for 64-bit integers,
    their largest numbers of digits. SHA-256 recurses on the message. Ring positions are 64-bit and
    the theorems assume fewer than [2 ^ 63] claims less the capacity, where the signed difference of
    the claim loop would overflow; at a claim per nanosecond this is 292 years; runs of the system
    have at most [2 ^ 62] operations for the same reason. The concurrent machine has no fuel:
    termination is a bound on the number of steps of a call.

    ** Arguments of the model

    Clocks, [kill], /proc, the environment and the key file are arguments ([Os], [KeyEnv]); which
    POSIX calls fail is the argument [Sys] of every operation, so that each error branch is
    reached by some argument. The pthread robust mutex is the class [RobustMutex] with its
    documented laws, and its size in the header a parameter of the layout. A log sink is a function
    on a state of its own, and what a format string renders to is an argument of the formatted
    logging calls. Threads run by a schedule; the allocator, the elapsed time and the rendering of
    floating-point numbers are arguments of the benchmark.

    ** Not modelled

    Weak memory: interleavings are sequentially consistent, so the release and acquire orders of
    the source are taken to be sufficient. Operations of the manager are steps of their own; their
    system calls do not interleave with those of another process, except for the crash points of
    the registry (a death at one of them is studied on the payload, runs of the manager have none), the seqlock reader and the accesses to one segment in SegmentRace. In System an
    operation of a logger or of the center is a step; pushes and pops on one ring that interleave
    access by access are the machine of RingConc. The clocks are read once per operation. A cache
    line has 64 bytes, the value of x86-64. In runs of the manager and of the system all processes
    have the same registry object mapped: a process left without a registry by a failed bootstrap
    and one with a second registry, after the first was unlinked, are not in them. The test drivers of src/tests.

    ** Beyond this development

    A memory model with release and acquire accesses for the ring and the seqlock, and system calls
    of different processes interleaved in [create], are what the definitions leave open; both need
    another machine under the same theorems. *)

From stdpp Require Export prelude strings list list_numbers numbers gmap.
From Stdlib Require Export Lia.

(** ** Notation scope and hint databases of the development *)

Declare Scope shm_scope.
Delimit Scope shm_scope with shm.

Create HintDb shm discriminated.
Create Rewrite HintDb shm_len.

Open Scope Z_scope.

(** ** Machine-width integers

    A w-bit unsigned integer is a [Z]; [u8] .. [u64] are the conversions C++ applies on
    assignment and after arithmetic, [s64] is [static_cast<std::int64_t>] of a 64-bit value. *)

Definition u8 (z : Z) : Z := z mod 2 ^ 8.
Definition u16 (z : Z) : Z := z mod 2 ^ 16.
Definition u32 (z : Z) : Z := z mod 2 ^ 32.
Definition u64 (z : Z) : Z := z mod 2 ^ 64.
Definition s64 (z : Z) : Z := if z <? 2 ^ 63 then z else z - 2 ^ 64.

(** A signed 64-bit subtraction; [None] is the undefined behaviour of signed overflow. *)
Definition s64_sub (a b : Z) : option Z :=
  if bool_decide (- 2 ^ 63 ≤ a - b < 2 ^ 63) then Some (a - b) else None.

(** ** Bytes and strings

    A byte is a [Z] in [0, 256); [char] data, [std::string] and [std::string_view] are lists
    of bytes. *)

Abbreviation byte := Z (only parsing).
Abbreviation bytes := (list Z) (only parsing).

Definition is_byte (b : Z) : Prop := 0 ≤ b < 2 ^ 8.
Definition is_bytes (l : bytes) : Prop := Forall is_byte l.

Fixpoint str (s : string) : bytes :=
  match s with
  | EmptyString => []
  | String a s' => Z.of_N (Ascii.N_of_ascii a) :: str s'
  end.

(** Little-endian encoding of [n] bytes (the target is Linux on x86-64 or AArch64). *)
Fixpoint le_bytes (n : nat) (z : Z) : bytes :=
  match n with
  | O => []
  | S n' => z mod 2 ^ 8 :: le_bytes n' (z / 2 ^ 8)
  end.

Fixpoint le_int (l : bytes) : Z :=
  match l with
  | [] => 0
  | b :: l' => b + 2 ^ 8 * le_int l'
  end.

(** ** Byte memory

    [None] is an access that leaves the span, which is undefined behaviour in the source. *)

Definition load_bytes (off n : Z) (m : bytes) : option bytes :=
  if bool_decide (0 ≤ off ∧ 0 ≤ n ∧ off + n ≤ Z.of_nat (length m))
  then Some (take (Z.to_nat n) (drop (Z.to_nat off) m)) else None.

Definition store_bytes (off : Z) (bs m : bytes) : option bytes :=
  if bool_decide (0 ≤ off ∧ off + Z.of_nat (length bs) ≤ Z.of_nat (length m))
  then Some (take (Z.to_nat off) m ++ bs ++ drop (Z.to_nat off + length bs) m) else None.

Definition load_le (n : nat) (off : Z) (m : bytes) : option Z :=
  le_int <$> load_bytes off (Z.of_nat n) m.

Definition store_le (n : nat) (off v : Z) (m : bytes) : option bytes :=
  store_bytes off (le_bytes n v) m.

(** ** Tactics *)

(** Linear arithmetic with division and modulo by literals. *)
Ltac zlia := Z.div_mod_to_equations; lia.

(** Destruct the boolean or decision a goal or hypothesis branches on. *)
Ltac case_bool :=
  match goal with
  | |- context [if ?b then _ else _] => destruct b eqn:?
  | H : context [if ?b then _ else _] |- _ => destruct b eqn:?
  end.

(** Turn boolean comparisons in the context into propositions. *)
Ltac bool_prop :=
  repeat match goal with
  | H : (_ && _)%bool = true |- _ => apply andb_true_iff in H as [? ?]
  | H : (_ || _)%bool = false |- _ => apply orb_false_iff in H as [? ?]
  | H : negb _ = true |- _ => apply negb_true_iff in H
  | H : negb _ = false |- _ => apply negb_false_iff in H
  | H : (_ =? _) = true |- _ => apply Z.eqb_eq in H
  | H : (_ =? _) = false |- _ => apply Z.eqb_neq in H
  | H : (_ <? _) = true |- _ => apply Z.ltb_lt in H
  | H : (_ <? _) = false |- _ => apply Z.ltb_ge in H
  | H : (_ <=? _) = true |- _ => apply Z.leb_le in H
  | H : (_ <=? _) = false |- _ => apply Z.leb_gt in H
  | H : bool_decide _ = true |- _ => apply bool_decide_eq_true in H
  | H : bool_decide _ = false |- _ => apply bool_decide_eq_false in H
  end.

(** Prove that a concrete list holds bytes. *)
Ltac solve_bytes :=
  repeat first [apply Forall_nil_2 | apply Forall_cons_2 | apply Forall_replicate];
  unfold is_byte; lia.

(** ** Lemmas on machine integers *)

Lemma u8_range z : 0 ≤ u8 z < 2 ^ 8.
Proof. apply Z.mod_pos_bound; lia. Qed.

Lemma u16_range z : 0 ≤ u16 z < 2 ^ 16.
Proof. apply Z.mod_pos_bound; lia. Qed.

Lemma u32_range z : 0 ≤ u32 z < 2 ^ 32.
Proof. apply Z.mod_pos_bound; lia. Qed.

Lemma u64_range z : 0 ≤ u64 z < 2 ^ 64.
Proof. apply Z.mod_pos_bound; lia. Qed.

Lemma u8_small z : 0 ≤ z < 2 ^ 8 → u8 z = z.
Proof. apply Z.mod_small. Qed.

Lemma u16_small z : 0 ≤ z < 2 ^ 16 → u16 z = z.
Proof. apply Z.mod_small. Qed.

Lemma u32_small z : 0 ≤ z < 2 ^ 32 → u32 z = z.
Proof. apply Z.mod_small. Qed.

Lemma u64_small z : 0 ≤ z < 2 ^ 64 → u64 z = z.
Proof. apply Z.mod_small. Qed.

Lemma u32_add_l a b : u32 (u32 a + b) = u32 (a + b).
Proof. apply Zplus_mod_idemp_l. Qed.

Lemma s64_small z : z < 2 ^ 63 → s64 z = z.
Proof. intros. unfold s64. destruct (Z.ltb_spec z (2 ^ 63)); lia. Qed.

Lemma s64_sub_small a b : 0 ≤ a < 2 ^ 63 → 0 ≤ b < 2 ^ 63 → s64_sub a b = Some (a - b).
Proof. intros. unfold s64_sub. rewrite bool_decide_true; [done | lia]. Qed.

#[export] Hint Resolve u8_range u16_range u32_range u64_range : shm.

(** ** Lemmas on little-endian encodings *)

Lemma length_le_bytes n z : length (le_bytes n z) = n.
Proof. revert z. induction n; simpl; auto. Qed.

#[export] Hint Rewrite length_le_bytes : shm_len.

Lemma le_bytes_is_bytes n z : is_bytes (le_bytes n z).
Proof.
  revert z. induction n as [|n IH]; intros z; simpl; constructor; [|apply IH].
  apply Z.mod_pos_bound; lia.
Qed.

Lemma le_int_le_bytes n z : le_int (le_bytes n z) = z mod 2 ^ (8 * Z.of_nat n).
Proof.
  revert z. induction n as [|n IH]; intros z; simpl le_bytes; simpl le_int.
  - by rewrite Z.mod_1_r.
  - rewrite IH. replace (8 * Z.of_nat (S n)) with (8 + 8 * Z.of_nat n) by lia.
    rewrite (Z.pow_add_r 2 8) by lia. rewrite Z.rem_mul_r by lia. done.
Qed.

Lemma le_int_range l : is_bytes l → 0 ≤ le_int l < 2 ^ (8 * Z.of_nat (length l)).
Proof.
  induction 1 as [|b l Hb _ IH]; simpl le_int; simpl length; [lia|].
  replace (8 * Z.of_nat (S (length l))) with (8 + 8 * Z.of_nat (length l)) by lia.
  rewrite (Z.pow_add_r 2 8) by lia. unfold is_byte in Hb. lia.
Qed.

Lemma le_bytes_le_int l : is_bytes l → le_bytes (length l) (le_int l) = l.
Proof.
  induction 1 as [|b l Hb _ IH]; cbn [length le_int le_bytes]; [done|]. unfold is_byte in Hb.
  f_equal; [zlia|]. by replace ((b + 2 ^ 8 * le_int l) / 2 ^ 8) with (le_int l) by zlia.
Qed.

Lemma le_bytes_inj n a b :
  0 ≤ a < 2 ^ (8 * Z.of_nat n) → 0 ≤ b < 2 ^ (8 * Z.of_nat n) →
  le_bytes n a = le_bytes n b → a = b.
Proof.
  intros Ha Hb H. apply (f_equal le_int) in H.
  rewrite !le_int_le_bytes, !Z.mod_small in H by done. done.
Qed.

(** ** Lemmas on byte memory *)

Lemma load_bytes_Some off n m bs :
  load_bytes off n m = Some bs ↔
  0 ≤ off ∧ 0 ≤ n ∧ off + n ≤ Z.of_nat (length m) ∧
  bs = take (Z.to_nat n) (drop (Z.to_nat off) m).
Proof.
  unfold load_bytes. case_bool_decide; split; [intros [= <-]|intros (?&?&?&->)|done|]; tauto.
Qed.

Lemma load_bytes_is_Some off n m :
  0 ≤ off → 0 ≤ n → off + n ≤ Z.of_nat (length m) → is_Some (load_bytes off n m).
Proof. intros. eexists. apply load_bytes_Some. split_and!; eauto. Qed.

Lemma load_bytes_length off n m bs : load_bytes off n m = Some bs → Z.of_nat (length bs) = n.
Proof. intros (?&?&?&->)%load_bytes_Some. rewrite length_take, length_drop. lia. Qed.

Lemma load_bytes_is_bytes off n m bs : is_bytes m → load_bytes off n m = Some bs → is_bytes bs.
Proof. intros ? (_&_&_&->)%load_bytes_Some. by apply Forall_take, Forall_drop. Qed.

Lemma store_bytes_Some off bs m m' :
  store_bytes off bs m = Some m' ↔
  0 ≤ off ∧ off + Z.of_nat (length bs) ≤ Z.of_nat (length m) ∧
  m' = take (Z.to_nat off) m ++ bs ++ drop (Z.to_nat off + length bs) m.
Proof.
  unfold store_bytes. case_bool_decide; split; [intros [= <-]|intros (?&?&->)|done|]; tauto.
Qed.

Lemma store_bytes_is_Some off bs m :
  0 ≤ off → off + Z.of_nat (length bs) ≤ Z.of_nat (length m) → is_Some (store_bytes off bs m).
Proof. intros. eexists. apply store_bytes_Some. split_and!; eauto. Qed.

Lemma store_bytes_length off bs m m' : store_bytes off bs m = Some m' → length m' = length m.
Proof.
  intros (?&?&->)%store_bytes_Some. rewrite !length_app, length_take, length_drop. lia.
Qed.

Lemma store_bytes_is_bytes off bs m m' :
  is_bytes bs → is_bytes m → store_bytes off bs m = Some m' → is_bytes m'.
Proof.
  intros ?? (_&_&->)%store_bytes_Some.
  repeat apply Forall_app_2; auto using Forall_take, Forall_drop.
Qed.

Lemma load_store_bytes_same off bs m m' n :
  store_bytes off bs m = Some m' → n = Z.of_nat (length bs) → load_bytes off n m' = Some bs.
Proof.
  intros Hs ->. pose proof (store_bytes_length _ _ _ _ Hs) as Hl.
  apply store_bytes_Some in Hs as (?&?&->). apply load_bytes_Some.
  split_and!; [lia | lia | lia |]. rewrite Nat2Z.id.
  rewrite drop_app_length' by (rewrite length_take; lia).
  by rewrite take_app_length.
Qed.

Lemma load_store_bytes_disjoint off bs m m' off' n :
  store_bytes off bs m = Some m' → 0 ≤ n →
  off' + n ≤ off ∨ off + Z.of_nat (length bs) ≤ off' →
  load_bytes off' n m' = load_bytes off' n m.
Proof.
  intros Hs Hn Hd. pose proof (store_bytes_length _ _ _ _ Hs) as Hl.
  apply store_bytes_Some in Hs as (?&?&->).
  unfold load_bytes. rewrite Hl. case_bool_decide as Hb; [|done]. f_equal.
  apply list_eq. intros i. rewrite !lookup_take. case_decide; [|done].
  rewrite !lookup_drop. destruct Hd.
  - rewrite lookup_app_l by (rewrite length_take; lia). by apply lookup_take_lt; lia.
  - rewrite lookup_app_r by (rewrite length_take; lia).
    rewrite length_take, Nat.min_l by lia.
    rewrite lookup_app_r by lia. rewrite lookup_drop. f_equal. lia.
Qed.

Lemma load_le_range n off m v :
  is_bytes m → load_le n off m = Some v → 0 ≤ v < 2 ^ (8 * Z.of_nat n).
Proof.
  unfold load_le. intros Hm. destruct (load_bytes off (Z.of_nat n) m) as [bs|] eqn:E; [|done].
  intros [= <-]. pose proof (load_bytes_length _ _ _ _ E) as <-.
  apply le_int_range. by eapply load_bytes_is_bytes.
Qed.

Lemma load_le_is_Some n off m :
  0 ≤ off → off + Z.of_nat n ≤ Z.of_nat (length m) → is_Some (load_le n off m).
Proof. intros. unfold load_le. apply fmap_is_Some, load_bytes_is_Some; lia. Qed.

Lemma store_le_is_Some n off v m :
  0 ≤ off → off + Z.of_nat n ≤ Z.of_nat (length m) → is_Some (store_le n off v m).
Proof. intros. apply store_bytes_is_Some; rewrite ?length_le_bytes; lia. Qed.

Lemma load_store_le_same n off v m m' :
  store_le n off v m = Some m' → load_le n off m' = Some (v mod 2 ^ (8 * Z.of_nat n)).
Proof.
  intros H. unfold load_le.
  rewrite (load_store_bytes_same _ _ _ _ _ H) by (by rewrite length_le_bytes).
  simpl. by rewrite le_int_le_bytes.
Qed.

Lemma load_store_le_disjoint n off v m m' n' off' :
  store_le n off v m = Some m' →
  off' + Z.of_nat n' ≤ off ∨ off + Z.of_nat n ≤ off' →
  load_le n' off' m' = load_le n' off' m.
Proof.
  intros H Hd. unfold load_le.
  erewrite load_store_bytes_disjoint; [done | done | lia |]. rewrite length_le_bytes. lia.
Qed.

(** ** Modular positions

    Two positions less than one lap apart that fall on the same slot are equal. *)
Lemma mod_inj_window n a b : 0 < n → a mod n = b mod n → - n < a - b < n → a = b.
Proof.
  intros Hn Hm Hw. pose proof (Z.div_mod a n ltac:(lia)) as Ha.
  pose proof (Z.div_mod b n ltac:(lia)) as Hb. rewrite Hm in Ha.
  assert (a - b = n * (a / n - b / n)) as E by lia.
  assert (a / n - b / n = 0) by nia. lia.
Qed.

Lemma mod_add_lap n a : 0 < n → (a + n) mod n = a mod n.
Proof. intros. rewrite <-(Z.mul_1_l n) at 1. by apply Z.mod_add; lia. Qed.

(** ** Bit operations stay within a width *)

Lemma pow2_range_bits n z :
  0 ≤ n → (0 ≤ z < 2 ^ n ↔ 0 ≤ z ∧ ∀ i, n ≤ i → Z.testbit z i = false).
Proof.
  intros Hn. split.
  - intros H. split; [lia|]. intros i Hi. rewrite <-(Z.mod_small z (2 ^ n)) by done.
    by apply Z.mod_pow2_bits_high.
  - intros [H0 H]. split; [done|].
    assert (z = z mod 2 ^ n) as ->; [|apply Z.mod_pos_bound; lia].
    apply Z.bits_inj'. intros i Hi. destruct (decide (i < n)).
    + by rewrite Z.mod_pow2_bits_low.
    + rewrite Z.mod_pow2_bits_high by lia. apply H. lia.
Qed.

Lemma lor_range n a b : 0 ≤ n → 0 ≤ a < 2 ^ n → 0 ≤ b < 2 ^ n → 0 ≤ Z.lor a b < 2 ^ n.
Proof.
  intros Hn [? Ha]%(pow2_range_bits n _ Hn) [? Hb]%(pow2_range_bits n _ Hn).
  apply pow2_range_bits; [done|]. rewrite Z.lor_nonneg. split; [done|].
  intros i Hi. by rewrite Z.lor_spec, Ha, Hb.
Qed.

Lemma lxor_range n a b : 0 ≤ n → 0 ≤ a < 2 ^ n → 0 ≤ b < 2 ^ n → 0 ≤ Z.lxor a b < 2 ^ n.
Proof.
  intros Hn [? Ha]%(pow2_range_bits n _ Hn) [? Hb]%(pow2_range_bits n _ Hn).
  apply pow2_range_bits; [done|]. rewrite Z.lxor_nonneg. split; [tauto|].
  intros i Hi. by rewrite Z.lxor_spec, Ha, Hb.
Qed.

Lemma land_range_r n a b : 0 ≤ n → 0 ≤ b < 2 ^ n → 0 ≤ Z.land a b < 2 ^ n.
Proof.
  intros Hn [? Hb]%(pow2_range_bits n _ Hn). apply pow2_range_bits; [done|].
  rewrite Z.land_nonneg. split; [tauto|].
  intros i Hi. by rewrite Z.land_spec, Hb, andb_false_r.
Qed.

#[export] Hint Resolve lor_range lxor_range land_range_r : shm.

(** Reading a region whose beginning was overwritten. *)
Lemma load_bytes_overwrite off bs m m' n :
  store_bytes off bs m = Some m' → Z.of_nat (length bs) ≤ n →
  off + n ≤ Z.of_nat (length m) →
  default [] (load_bytes off n m') = bs ++ drop (length bs) (default [] (load_bytes off n m)).
Proof.
  intros Hs Hn Hb. pose proof (store_bytes_length _ _ _ _ Hs) as Hl.
  pose proof Hs as (?&?&Em)%store_bytes_Some.
  destruct (load_bytes_is_Some off n m) as [x Ex]; [lia|lia|lia|].
  destruct (load_bytes_is_Some off n m') as [y Ey]; [lia|lia|lia|].
  rewrite Ex, Ey. simpl. apply load_bytes_Some in Ex as (_&_&_&->), Ey as (_&_&_&->).
  subst m'. rewrite drop_app_length' by (rewrite length_take; lia).
  rewrite take_app_ge by lia. f_equal. rewrite skipn_firstn_comm, drop_drop. by f_equal; lia.
Qed.

(** A boolean property of all bytes, by enumeration. *)
Lemma byte_check (P : Z → bool) :
  forallb (λ n, P (Z.of_nat n)) (seq 0 256) = true → ∀ b, is_byte b → P b = true.
Proof.
  intros H b Hb. unfold is_byte in Hb. rewrite forallb_forall in H.
  rewrite <-(Z2Nat.id b) by lia. apply H. apply in_seq. lia.
Qed.

Lemma list_alter_insert {A} (f : A → A) (l : list A) i x :
  l !! i = Some x → alter f i l = <[i := f x]> l.
Proof.
  revert i. induction l as [|y l IH]; intros [|i] H; try done; cbn in *; [by injection H as ->|].
  f_equal. by apply IH.
Qed.
