(* ===== verification/Types.v ===== *)
(** * Framework types: [shm_types.h], [shm_error.h], [shm_header.h]

    The constants, enumerations, POD records and the [Result] type every other component
    uses, with the byte encoding of the immutable header block, and the properties of
    [align_up] and of the encodings. *)

From S2P Require Import Prelude.

(** ** Constants of [shm_types.h] *)

Definition SHMFX_MAGIC : Z := 0x53484D46.
Definition SHMFX_VERSION_MAJOR : Z := 1.
Definition SHMFX_VERSION_MINOR : Z := 0.
Definition SHMFX_HEADER_SIZE : Z := 256.
Definition SHMFX_IMMUTABLE_BYTES : Z := 128.
Definition SHMFX_HMAC_BYTES : Z := 32.
Definition SHMFX_NAME_BYTES : Z := 64.

(** [std::hardware_destructive_interference_size] is 64 on x86-64, the fallback is 64 too. *)
Definition SHMFX_CACHE_LINE_BYTES : Z := 64.
Definition MAX_SEGMENT_SIZE : Z := 2 ^ 30.
Definition TOTAL_QUOTA_BYTES : Z := 4 * 2 ^ 30.
Definition MAX_REGISTRY_ENTRIES : Z := 1024.
Definition REGISTRY_BITMAP_BYTES : Z := MAX_REGISTRY_ENTRIES / 8.
Definition HEARTBEAT_TICK_MS : Z := 100.
Definition MPSC_CAS_RETRY_BUDGET : nat := 64.
Definition HEARTBEAT_DEAD_NS : Z := 3 * 1000 * 1000 * 1000.
Definition SEGMENT_ZOMBIE_NS : Z := 60 * 60 * 1000 * 1000 * 1000.
Definition REGISTRY_NAME : bytes := str "/shmfx.registry".
Definition REGISTRY_LOCK_NAME : bytes := str "/shmfx.registry.lock".

(** ** Enumerations *)

Inductive ErrorCode :=
  | Ok | InvalidName | CorruptedHeader | NotFound | AlreadyExists | PermissionDenied
  | QuotaExceeded | PriorOwnerDead | RingFull | VersionMismatch | SegmentDead.

#[export] Instance ErrorCode_eq_dec : EqDecision ErrorCode.
Proof. solve_decision. Defined.

Definition ErrorCode_value (c : ErrorCode) : Z :=
  match c with
  | Ok => 0 | InvalidName => -1 | CorruptedHeader => -2 | NotFound => -3 | AlreadyExists => -4
  | PermissionDenied => -5 | QuotaExceeded => -6 | PriorOwnerDead => -7 | RingFull => -8
  | VersionMismatch => -9 | SegmentDead => -10
  end.

Definition is_ok (c : ErrorCode) : bool := bool_decide (c = Ok).

Definition to_string (c : ErrorCode) : string :=
  match c with
  | Ok => "Ok"
  | InvalidName => "ErrInvalidName"
  | CorruptedHeader => "ErrCorruptedHeader"
  | NotFound => "ErrNotFound"
  | AlreadyExists => "ErrAlreadyExists"
  | PermissionDenied => "ErrPermissionDenied"
  | QuotaExceeded => "ErrQuotaExceeded"
  | PriorOwnerDead => "ErrPriorOwnerDead"
  | RingFull => "ErrRingFull"
  | VersionMismatch => "ErrVersionMismatch"
  | SegmentDead => "ErrSegmentDead"
  end.

(** [Result<T>]: a value or an error code. [Result<void>] is [Result unit]: its success is the
    code [Ok]. *)
Inductive Result (T : Type) := Value (v : T) | Error (e : ErrorCode).
Arguments Value {_} _.
Arguments Error {_} _.

Definition has_value {T} (r : Result T) : bool :=
  match r with Value _ => true | Error _ => false end.

Definition error {T} (r : Result T) : ErrorCode :=
  match r with Value _ => Ok | Error e => e end.

#[export] Instance Result_eq_dec `{EqDecision T} : EqDecision (Result T).
Proof. solve_decision. Defined.

Inductive SegmentType := Raw | RecordRing | Kv | RegistryType.

#[export] Instance SegmentType_eq_dec : EqDecision SegmentType.
Proof. solve_decision. Defined.

Definition SegmentType_value (t : SegmentType) : Z :=
  match t with Raw => 1 | RecordRing => 2 | Kv => 3 | RegistryType => 4 end.

Inductive SegmentState := Init | Active | Draining | Dead.

#[export] Instance SegmentState_eq_dec : EqDecision SegmentState.
Proof. solve_decision. Defined.

Definition SegmentState_value (s : SegmentState) : Z :=
  match s with Init => 0 | Active => 1 | Draining => 2 | Dead => 3 end.

Inductive AttachMode := ReadOnly | ReadWrite.

#[export] Instance AttachMode_eq_dec : EqDecision AttachMode.
Proof. solve_decision. Defined.

(** [SegmentFlags] bits. *)
Definition HmacEnabled : Z := Z.shiftl 1 0.
Definition RobustMutex : Z := Z.shiftl 1 1.
Definition LockfreeRing : Z := Z.shiftl 1 2.
Definition ReadonlyPayload : Z := Z.shiftl 1 3.

(** ** Records *)

Record CreateOptions := mkCreateOptions {
  co_name : bytes;
  co_type : SegmentType;
  co_total_size : Z;
  co_meta_size : Z;
  co_perm : Z;
  co_flags : Z;
}.

(** [ShmHeader] without its control mutex, which the robust-mutex interface models. The
    integer fields are [uint16_t]/[uint32_t]/[uint64_t] values, [name] is the 64-byte buffer and
    [hmac] the 32-byte buffer. *)
Record ShmHeader := mkShmHeader {
  magic : Z;
  version_major : Z;
  version_minor : Z;
  segment_type : Z;
  flags : Z;
  total_size : Z;
  payload_size : Z;
  meta_offset : Z;
  meta_size : Z;
  payload_offset : Z;
  creator_pid : Z;
  created_at_ns : Z;
  creator_start_time : Z;
  name : bytes;
  hmac : bytes;
  owner_pid : Z;
  owner_start_time : Z;
  ref_count : Z;
  state : Z;
  heartbeat_counter : Z;
  heartbeat_last_ns : Z;
}.

(** [RecordRingMeta]; its reserved bytes are always zero and are left out. *)
Record RecordRingMeta := mkRecordRingMeta {
  record_max : Z;
  record_stride : Z;
  producer_mode : Z;
  consumer_mode : Z;
  lost_count : Z;
}.

(** [RegistryEntry]; the paddings and the reserved bytes are left out. *)
Record RegistryEntry := mkRegistryEntry {
  seq_storage : Z;
  e_name : bytes;
  e_total_size : Z;
  e_segment_type : Z;
  e_owner_pid : Z;
  e_owner_start_time : Z;
  e_flags : Z;
  e_created_at_ns : Z;
  e_last_seen_ns : Z;
}.

#[export] Instance RecordRingMeta_eq_dec : EqDecision RecordRingMeta.
Proof. solve_decision. Defined.

#[export] Instance RegistryEntry_eq_dec : EqDecision RegistryEntry.
Proof. solve_decision. Defined.

#[export] Instance ShmHeader_eq_dec : EqDecision ShmHeader.
Proof. solve_decision. Defined.

(** [static_cast<SegmentState>] of the stored [uint32_t]; [None] is a value outside the
    enumerators, which compares unequal to all of them. *)
Definition decode_state (z : Z) : option SegmentState :=
  if z =? 0 then Some Init else if z =? 1 then Some Active
  else if z =? 2 then Some Draining else if z =? 3 then Some Dead else None.

(** ** [align_up] *)

(** [(value + alignment - 1u) & ~(alignment - 1u)] in 64-bit arithmetic. *)
Definition align_up (value alignment : Z) : Z :=
  Z.land (u64 (u64 (value + alignment) - 1)) (u64 (Z.lnot (u64 (alignment - 1)))).

(** ** Fixed name buffers

    [copy_name] zeroes the 64-byte buffer and copies at most 63 bytes; [fixed_name_view] reads
    the buffer back up to its first NUL ([strnlen]). *)

Fixpoint strnlen (l : bytes) (n : nat) : nat :=
  match n, l with
  | S n', c :: l' => if c =? 0 then 0%nat else S (strnlen l' n')
  | _, _ => 0%nat
  end.

Definition copy_name (nm : bytes) : bytes :=
  let n := Nat.min (length nm) (Z.to_nat SHMFX_NAME_BYTES - 1) in
  take n nm ++ replicate (Z.to_nat SHMFX_NAME_BYTES - n) 0.

Definition fixed_name_view (buf : bytes) : bytes :=
  take (strnlen buf (Z.to_nat SHMFX_NAME_BYTES)) buf.

(** ** Byte encoding of the immutable header block [0, 128) *)

Definition immutable_bytes (h : ShmHeader) : bytes :=
  le_bytes 4 (magic h) ++ le_bytes 2 (version_major h) ++ le_bytes 2 (version_minor h) ++
  le_bytes 4 (segment_type h) ++ le_bytes 4 (flags h) ++ le_bytes 8 (total_size h) ++
  le_bytes 8 (payload_size h) ++ le_bytes 4 (meta_offset h) ++ le_bytes 4 (meta_size h) ++
  le_bytes 4 (payload_offset h) ++ le_bytes 4 (creator_pid h) ++ le_bytes 8 (created_at_ns h) ++
  le_bytes 8 (creator_start_time h) ++ name h.

(** The fields of a header are values of their declared C++ types. *)
Record header_typed (h : ShmHeader) : Prop := {
  ht_magic : 0 ≤ magic h < 2 ^ 32;
  ht_major : 0 ≤ version_major h < 2 ^ 16;
  ht_minor : 0 ≤ version_minor h < 2 ^ 16;
  ht_type : 0 ≤ segment_type h < 2 ^ 32;
  ht_flags : 0 ≤ flags h < 2 ^ 32;
  ht_total : 0 ≤ total_size h < 2 ^ 64;
  ht_payload : 0 ≤ payload_size h < 2 ^ 64;
  ht_meta_offset : 0 ≤ meta_offset h < 2 ^ 32;
  ht_meta_size : 0 ≤ meta_size h < 2 ^ 32;
  ht_payload_offset : 0 ≤ payload_offset h < 2 ^ 32;
  ht_creator_pid : 0 ≤ creator_pid h < 2 ^ 32;
  ht_created : 0 ≤ created_at_ns h < 2 ^ 64;
  ht_start : 0 ≤ creator_start_time h < 2 ^ 64;
  ht_name : length (name h) = Z.to_nat SHMFX_NAME_BYTES;
}.

(** The fields the optional HMAC covers, as a tuple. *)
Definition immutable_fields (h : ShmHeader) :=
  (magic h, version_major h, version_minor h, segment_type h, flags h, total_size h,
   payload_size h, meta_offset h, meta_size h, payload_offset h, creator_pid h,
   created_at_ns h, creator_start_time h, name h).

(** ** Lemmas *)

Lemma decode_state_value s : decode_state (SegmentState_value s) = Some s.
Proof. by destruct s. Qed.

Lemma land_lnot_ones z n : 0 ≤ n → Z.land z (Z.lnot (Z.ones n)) = z / 2 ^ n * 2 ^ n.
Proof.
  intros. rewrite <-Z.ldiff_land, Z.ldiff_ones_r by done.
  by rewrite Z.shiftl_mul_pow2, Z.shiftr_div_pow2 by done.
Qed.

Lemma land_u64_r a b : 0 ≤ a < 2 ^ 64 → Z.land a (u64 b) = Z.land a b.
Proof.
  intros. unfold u64. rewrite <-Z.land_ones by lia.
  rewrite (Z.land_comm b), Z.land_assoc, Z.land_ones, Z.mod_small by lia. done.
Qed.

(** The bit trick is rounding up to a multiple, as long as it does not wrap. *)
Lemma align_up_eq v n :
  0 ≤ n < 64 → 0 ≤ v → v + 2 ^ n ≤ 2 ^ 64 - 1 →
  align_up v (2 ^ n) = (v + 2 ^ n - 1) / 2 ^ n * 2 ^ n.
Proof.
  intros Hn Hv Hb. unfold align_up.
  assert (0 < 2 ^ n) by (apply Z.pow_pos_nonneg; lia).
  rewrite (u64_small (v + 2 ^ n)), (u64_small (v + 2 ^ n - 1)), (u64_small (2 ^ n - 1)) by lia.
  rewrite land_u64_r by lia. replace (2 ^ n - 1) with (Z.ones n) by (rewrite Z.ones_equiv; lia).
  apply land_lnot_ones. lia.
Qed.

(** [align_up] to 64 and to 8, the two alignments the source uses. *)
Lemma align_up_64 v :
  0 ≤ v ≤ 2 ^ 64 - 65 →
  align_up v 64 mod 64 = 0 ∧ v ≤ align_up v 64 < v + 64.
Proof.
  intros. pose proof (align_up_eq v 6 ltac:(lia) ltac:(lia) ltac:(lia)) as E.
  change (2 ^ 6) with 64 in E. rewrite E. split; [apply Z.mod_mul; lia | zlia].
Qed.

Lemma align_up_64_eq v : 0 ≤ v ≤ 2 ^ 64 - 65 → align_up v 64 = (v + 63) / 64 * 64.
Proof.
  intros. pose proof (align_up_eq v 6 ltac:(lia) ltac:(lia) ltac:(lia)) as E.
  change (2 ^ 6) with 64 in E. rewrite E. do 2 f_equal. lia.
Qed.

Lemma align_up_8_id v : 0 ≤ v ≤ 2 ^ 64 - 9 → v mod 8 = 0 → align_up v 8 = v.
Proof.
  intros. pose proof (align_up_eq v 3 ltac:(lia) ltac:(lia) ltac:(lia)) as E.
  change (2 ^ 3) with 8 in E. rewrite E. zlia.
Qed.

Lemma length_copy_name nm : length (copy_name nm) = Z.to_nat SHMFX_NAME_BYTES.
Proof.
  unfold copy_name. rewrite length_app, length_take, length_replicate.
  change (Z.to_nat SHMFX_NAME_BYTES) with 64%nat. lia.
Qed.

Lemma strnlen_app_zero l k n :
  Forall (λ c, c ≠ 0) l → (length l < n)%nat → strnlen (l ++ 0 :: k) n = length l.
Proof.
  intros Hl. revert n. induction Hl as [|c l Hc _ IH]; intros [|n] Hn; simpl in *; try lia.
  destruct (Z.eqb_spec c 0); [done|]. f_equal. apply IH. lia.
Qed.

(** A name shorter than the buffer and free of NUL bytes reads back as it was written. *)
Lemma fixed_name_copy_name nm :
  Forall (λ c, c ≠ 0) nm → (length nm < 64)%nat → fixed_name_view (copy_name nm) = nm.
Proof.
  intros Hz Hl. unfold fixed_name_view, copy_name.
  change (Z.to_nat SHMFX_NAME_BYTES) with 64%nat.
  rewrite Nat.min_l by lia. rewrite firstn_all.
  replace (64 - length nm)%nat with (S (63 - length nm)) by lia. cbn [replicate].
  rewrite strnlen_app_zero by (done || lia). by rewrite take_app_length.
Qed.

Lemma length_immutable_bytes h :
  length (name h) = Z.to_nat SHMFX_NAME_BYTES →
  length (immutable_bytes h) = Z.to_nat SHMFX_IMMUTABLE_BYTES.
Proof.
  intros E. unfold immutable_bytes. rewrite !length_app, !length_le_bytes, E. reflexivity.
Qed.

(** The encoding of the immutable block determines every field it covers. *)
Lemma immutable_bytes_inj h1 h2 :
  header_typed h1 → header_typed h2 → immutable_bytes h1 = immutable_bytes h2 →
  immutable_fields h1 = immutable_fields h2.
Proof.
  intros [] []. unfold immutable_bytes, immutable_fields. intros E.
  repeat match goal with
  | E : le_bytes ?n ?a ++ _ = le_bytes ?n ?b ++ _ |- _ =>
      let H := fresh in
      apply app_inj_1 in E as [H E]; [|by rewrite !length_le_bytes];
      apply le_bytes_inj in H; [|done..]
  end.
  congruence.
Qed.
