(* ===== verification/Sync.v ===== *)
(** * Synchronisation helpers: [shm_sync.h], [shm_sync.cpp]

    The 64-bit atomic operations on a shared field, as functions from the stored value to the
    value observed and the value left behind, and the adaptive idle backoff. A weak
    compare-and-swap may fail although the values agree: the [spurious] argument says whether
    this attempt does. *)

From S2P Require Import Prelude Types.

(** ** Atomic operations *)

Definition atomic_load_u64 (storage : Z) : Z := storage.

Definition atomic_store_u64 (storage value : Z) : Z := u64 value.

(** (value observed, new storage) *)
Definition atomic_fetch_add_u64 (storage value : Z) : Z * Z := (storage, u64 (storage + value)).

(** (swapped, new storage, new [expected]) *)
Definition atomic_compare_exchange_weak_u64
    (spurious : bool) (storage expected desired : Z) : bool * Z * Z :=
  if (negb spurious && (storage =? expected))%bool
  then (true, desired, expected) else (false, storage, storage).

(** ** [AdaptiveBackoff] *)

Module AdaptiveBackoff.

Inductive action := CpuRelax | Yield | SleepMicros (us : Z).

Record t := mk { spin_count_ : Z }.

Definition fresh : t := mk 0.

Definition reset (b : t) : t := mk 0.

(** One idle iteration: the pause it takes and the counter after it. *)
Definition idle (b : t) : action * t :=
  let c := u32 (spin_count_ b + 1) in
  (if c <? 64 then CpuRelax else if c <? 512 then Yield else SleepMicros 200, mk c).

Definition count (b : t) : Z := spin_count_ b.

(** The counter after [n] idle iterations. *)
Fixpoint idle_n (n : nat) (b : t) : t :=
  match n with O => b | S n' => (idle (idle_n n' b)).2 end.

Lemma count_idle_n n b :
  0 ≤ spin_count_ b < 2 ^ 32 → count (idle_n n b) = u32 (spin_count_ b + Z.of_nat n).
Proof.
  intros Hb. induction n as [|n IH]; cbn [idle_n].
  - unfold count. rewrite Z.add_0_r. by rewrite u32_small.
  - unfold count, idle in *. cbn [snd spin_count_]. rewrite IH. unfold u32.
    rewrite Zplus_mod_idemp_l. f_equal. lia.
Qed.

(** The pause of the [n]-th idle iteration after a reset ([n] counted from 1). *)
Lemma idle_action b n :
  Z.of_nat (S n) < 2 ^ 32 →
  (idle (idle_n n (reset b))).1 =
  if Z.of_nat (S n) <? 64 then CpuRelax
  else if Z.of_nat (S n) <? 512 then Yield else SleepMicros 200.
Proof.
  intros H. unfold idle. cbn [fst].
  pose proof (count_idle_n n (reset b)) as E. unfold count in E. simpl in E.
  rewrite E by lia. replace (u32 (u32 (0 + Z.of_nat n) + 1)) with (Z.of_nat (S n)); [done|].
  rewrite (u32_small (0 + _)), u32_small by lia. lia.
Qed.

End AdaptiveBackoff.

(** ** Lemmas *)

Lemma cas_success storage desired :
  atomic_compare_exchange_weak_u64 false storage storage desired = (true, desired, storage).
Proof. unfold atomic_compare_exchange_weak_u64. by rewrite Z.eqb_refl. Qed.

Lemma cas_inv spurious storage expected desired b s' e' :
  atomic_compare_exchange_weak_u64 spurious storage expected desired = (b, s', e') →
  (b = true ∧ storage = expected ∧ s' = desired ∧ e' = expected) ∨
  (b = false ∧ s' = storage ∧ e' = storage).
Proof.
  unfold atomic_compare_exchange_weak_u64. case_bool; intros [= <- <- <-]; bool_prop; auto.
Qed.
