(* ===== verification/RingMem.v ===== *)
(** * The record ring: [shm_ring.h], [shm_ring.cpp] over an abstract memory

    [RingMem] is what the ring operations need from the shared memory they are bound to:
    loads and stores of the two cursors, of the slot sequences, of the four record header
    fields and of the record bodies, each of which fails ([None]) when it would leave the
    span. [try_push], [try_pop] and [drain_batch] are written once against this interface;
    [RingCells] and [RingBytes] give its two instances and [RingConc] runs the same accesses
    interleaved. [RingMemSim] is a simulation between two instances, which every operation
    preserves. *)

From S2P Require Import Prelude Types Sync.

(** ** Constants and records of [shm_ring.h] *)

Definition RING_PRODUCER_MPSC : Z := 2.
Definition RING_CONSUMER_SINGLE : Z := 1.
Definition RECORD_FLAG_TRUNCATED : Z := Z.shiftl 1 0.

(** [sizeof(RingRecordHeader)] *)
Definition RECORD_HEADER_SIZE : Z := 16.

(** The fields of [RingRecordHeader]. *)
Inductive RecField := FLen | FType | FFlags | FUser.

#[export] Instance RecField_eq_dec : EqDecision RecField.
Proof. solve_decision. Defined.

Record PoppedRecord := mkPoppedRecord {
  p_type : Z;
  p_flags : Z;
  p_user : Z;
  p_payload_size : Z;
  p_copied_size : Z;
}.

#[export] Instance PoppedRecord_eq_dec : EqDecision PoppedRecord.
Proof. solve_decision. Defined.

(** ** The memory interface *)

Class RingMem (M : Type) := {
  rd_meta : M → RecordRingMeta;
  wr_lost : Z → M → M;
  ld_head : M → option Z;
  st_head : Z → M → option M;
  ld_tail : M → option Z;
  st_tail : Z → M → option M;
  ld_seq : Z → M → option Z;
  st_seq : Z → Z → M → option M;
  ld_field : RecField → Z → M → option Z;
  st_field : RecField → Z → Z → M → option M;
  ld_body : Z → Z → M → option bytes;
  st_body : Z → bytes → M → option M;
}.

(** ** Ring operations *)

Definition valid_meta (meta : RecordRingMeta) : bool :=
  (negb (record_max meta =? 0) && (RECORD_HEADER_SIZE <=? record_stride meta) &&
   (producer_mode meta =? RING_PRODUCER_MPSC) && (consumer_mode meta =? RING_CONSUMER_SINGLE))%bool.

Section operations.
Context {M : Type} `{!RingMem M}.

(** [pos % meta_->record_max] *)
Definition slot_index (pos : Z) (m : M) : Z := pos mod record_max (rd_meta m).

(** [meta_->record_stride - sizeof(RingRecordHeader)] as [uint32_t] *)
Definition max_payload (m : M) : Z := u32 (record_stride (rd_meta m) - RECORD_HEADER_SIZE).

(** [atomic_fetch_add_u64(meta_->lost_count, 1)] *)
Definition bump_lost (m : M) : M :=
  wr_lost (atomic_fetch_add_u64 (lost_count (rd_meta m)) 1).2 m.

(** The compare-and-swap on the tail cursor. *)
Definition cas_tail (spurious : bool) (expected desired : Z) (m : M) : option (bool * Z * M) :=
  t ← ld_tail m;
  match atomic_compare_exchange_weak_u64 spurious t expected desired with
  | (true, t', e') => m' ← st_tail t' m; Some (true, e', m')
  | (false, _, e') => Some (false, e', m)
  end.

(** How the claim loop of [try_push] ends: a slot claimed at a position, a full slot seen
    (the early return), or the retry budget used up. *)
Inductive claim := Claimed (pos : Z) | SlotFull | BudgetExhausted.

(** The claim loop, [budget] retries left; [spurious n] says whether the [n]-th retry's weak
    compare-and-swap fails spuriously. *)
Fixpoint claim_loop (spurious : nat → bool) (budget retry : nat) (pos : Z) (m : M)
    : option (claim * M) :=
  match budget with
  | O => Some (BudgetExhausted, m)
  | S budget' =>
      seq ← ld_seq (slot_index pos m) m;
      diff ← s64_sub (s64 seq) (s64 pos);
      if diff =? 0 then
        r ← cas_tail (spurious retry) pos (u64 (pos + 1)) m;
        match r with
        | (true, _, m') => Some (Claimed pos, m')
        | (false, expected, m') => claim_loop spurious budget' (S retry) expected m'
        end
      else if diff <? 0 then Some (SlotFull, bump_lost m)
      else
        pos' ← ld_tail m;
        claim_loop spurious budget' (S retry) pos' m
  end.

(** The payload bytes that fit in the slot and the flags stored with them. *)
Definition written_size (payload : bytes) (m : M) : Z :=
  u32 (Z.min (Z.of_nat (length payload)) (max_payload m)).

Definition stored_flags (flags : Z) (payload : bytes) (m : M) : Z :=
  if max_payload m <? Z.of_nat (length payload)
  then u16 (Z.lor flags RECORD_FLAG_TRUNCATED) else flags.

(** Fill the claimed slot and publish it. *)
Definition write_record (type flags user : Z) (payload : bytes) (pos : Z) (m : M) : option M :=
  let i := slot_index pos m in
  let written := written_size payload m in
  let sflags := stored_flags flags payload m in
  m1 ← st_field FLen i written m;
  m2 ← st_field FType i type m1;
  m3 ← st_field FFlags i sflags m2;
  m4 ← st_field FUser i user m3;
  m5 ← st_body i (take (Z.to_nat written) payload) m4;
  st_seq i (u64 (pos + 1)) m5.

(** [MpscRing::try_push]. [meta_] is never null: the only constructor takes a reference. *)
Definition try_push (spurious : nat → bool) (type flags user : Z) (payload : bytes) (m : M)
    : option (Result unit * M) :=
  if negb (valid_meta (rd_meta m)) then Some (Error CorruptedHeader, m)
  else
    pos ← ld_tail m;
    r ← claim_loop spurious MPSC_CAS_RETRY_BUDGET 0 pos m;
    match r with
    | (Claimed p, m') => m'' ← write_record type flags user payload p m'; Some (Value tt, m'')
    | (SlotFull, m') => Some (Error RingFull, m')
    | (BudgetExhausted, m') => Some (Error RingFull, bump_lost m')
    end.

(** [MpscRing::try_pop]: [None] inside the result is the empty ring ([false]); otherwise the
    record and the caller's buffer after the copy. *)
Definition try_pop (out_payload : bytes) (m : M)
    : option (option (PoppedRecord * bytes) * M) :=
  if negb (valid_meta (rd_meta m)) then Some (None, m)
  else
    pos ← ld_head m;
    let i := slot_index pos m in
    seq ← ld_seq i m;
    if negb (seq =? u64 (pos + 1)) then Some (None, m)
    else
      len ← ld_field FLen i m;
      let payload_size := Z.min len (max_payload m) in
      let copied := u32 (Z.min (Z.of_nat (length out_payload)) payload_size) in
      body ← ld_body i copied m;
      type ← ld_field FType i m;
      flags ← ld_field FFlags i m;
      user ← ld_field FUser i m;
      let record := mkPoppedRecord type flags user payload_size copied in
      m1 ← st_seq i (u64 (pos + record_max (rd_meta m))) m;
      m2 ← st_head (u64 (pos + 1)) m1;
      Some (Some (record, body ++ drop (Z.to_nat copied) out_payload), m2).

(** [MpscRing::drain_batch]: the callback's own state is threaded, its boolean is what it
    returns. The result is the number of records popped. *)
Fixpoint drain_batch {S : Type} (callback : S → PoppedRecord → bytes → bool * S)
    (max_records : nat) (scratch : bytes) (s : S) (m : M) : option (Z * S * bytes * M) :=
  match max_records with
  | O => Some (0, s, scratch, m)
  | Datatypes.S n =>
      r ← try_pop scratch m;
      match r with
      | (None, m') => Some (0, s, scratch, m')
      | (Some (record, scratch'), m') =>
          let '(continue, s') :=
            callback s record (take (Z.to_nat (p_copied_size record)) scratch') in
          if continue then
            q ← drain_batch callback n scratch' s' m';
            match q with (drained, s'', scratch'', m'') => Some (1 + drained, s'', scratch'', m'') end
          else Some (1, s', scratch', m')
      end
  end.

(** [MpscRing::lost_count] *)
Definition ring_lost_count (m : M) : Z := atomic_load_u64 (lost_count (rd_meta m)).

End operations.

(** ** Simulation between two memories

    [R a b] relates a memory to a more abstract one: related memories have the same metadata,
    every in-range load gives the same value, and every in-range store either fails in both or
    leads to related memories. *)

Class RingMemSim {M1 M2 : Type} `{!RingMem M1, !RingMem M2} (R : M1 → M2 → Prop) := {
  sim_meta a b : R a b → rd_meta a = rd_meta b;
  sim_lost v a b : R a b → R (wr_lost v a) (wr_lost v b);
  sim_ld_head a b : R a b → ld_head a = ld_head b;
  sim_st_head v a b : R a b → option_Forall2 R (st_head v a) (st_head v b);
  sim_ld_tail a b : R a b → ld_tail a = ld_tail b;
  sim_st_tail v a b : R a b → option_Forall2 R (st_tail v a) (st_tail v b);
  sim_ld_seq i a b : R a b → 0 ≤ i < record_max (rd_meta b) → ld_seq i a = ld_seq i b;
  sim_st_seq i v a b :
    R a b → 0 ≤ i < record_max (rd_meta b) → option_Forall2 R (st_seq i v a) (st_seq i v b);
  sim_ld_field f i a b :
    R a b → 0 ≤ i < record_max (rd_meta b) → ld_field f i a = ld_field f i b;
  sim_st_field f i v a b :
    R a b → 0 ≤ i < record_max (rd_meta b) →
    option_Forall2 R (st_field f i v a) (st_field f i v b);
  sim_ld_body i n a b :
    R a b → 0 ≤ i < record_max (rd_meta b) →
    0 ≤ n ≤ record_stride (rd_meta b) - RECORD_HEADER_SIZE →
    ld_body i n a = ld_body i n b;
  sim_st_body i bs a b :
    R a b → is_bytes bs → 0 ≤ i < record_max (rd_meta b) →
    Z.of_nat (length bs) ≤ record_stride (rd_meta b) - RECORD_HEADER_SIZE →
    option_Forall2 R (st_body i bs a) (st_body i bs b);
  sim_meta_typed a b :
    R a b → 0 ≤ record_max (rd_meta b) < 2 ^ 32 ∧ 0 ≤ record_stride (rd_meta b) < 2 ^ 32;
  sim_field_nonneg f i v a b : R a b → ld_field f i b = Some v → 0 ≤ v;
}.

(** Stores leave the geometry of the ring alone. *)
Class RingMemGeom (M : Type) `{!RingMem M} := {
  geom_lost v m : rd_meta (wr_lost v m) =
    mkRecordRingMeta (record_max (rd_meta m)) (record_stride (rd_meta m))
      (producer_mode (rd_meta m)) (consumer_mode (rd_meta m)) v;
  geom_head v m m' : st_head v m = Some m' → rd_meta m' = rd_meta m;
  geom_tail v m m' : st_tail v m = Some m' → rd_meta m' = rd_meta m;
  geom_seq i v m m' : st_seq i v m = Some m' → rd_meta m' = rd_meta m;
  geom_field f i v m m' : st_field f i v m = Some m' → rd_meta m' = rd_meta m;
  geom_body i bs m m' : st_body i bs m = Some m' → rd_meta m' = rd_meta m;
}.

Section simulation.
Context {M1 M2 : Type} `{!RingMem M1, !RingMem M2} {R : M1 → M2 → Prop} `{!RingMemSim R}.
Context `{!RingMemGeom M2}.

(** Bind in related ways. *)
Lemma option_Forall2_bind {A1 A2 B1 B2} (RA : A1 → A2 → Prop) (RB : B1 → B2 → Prop)
    (x : option A1) (y : option A2) (f : A1 → option B1) (g : A2 → option B2) :
  option_Forall2 RA x y →
  (∀ a b, x = Some a → y = Some b → RA a b → option_Forall2 RB (f a) (g b)) →
  option_Forall2 RB (x ≫= f) (y ≫= g).
Proof. intros [a b Hab|] Hfg; simpl; [by apply Hfg | constructor]. Qed.

Lemma option_Forall2_weaken {A B} (P Q : A → B → Prop) (x : option A) (y : option B) :
  option_Forall2 P x y → (∀ a b, P a b → Q a b) → option_Forall2 Q x y.
Proof. intros [a b Hab|] H; constructor; auto. Qed.

Lemma slot_index_range pos (m : M2) :
  0 < record_max (rd_meta m) → 0 ≤ slot_index pos m < record_max (rd_meta m).
Proof. intros. by apply Z.mod_pos_bound. Qed.

Lemma sim_slot_index pos a b : R a b → slot_index pos a = slot_index pos b.
Proof. intros HR. unfold slot_index. by rewrite (sim_meta _ _ HR). Qed.

Lemma sim_max_payload a b : R a b → max_payload a = max_payload b.
Proof. intros HR. unfold max_payload. by rewrite (sim_meta _ _ HR). Qed.

Lemma sim_written_size p a b : R a b → written_size p a = written_size p b.
Proof. intros HR. unfold written_size. by rewrite (sim_max_payload _ _ HR). Qed.

Lemma sim_stored_flags fl p a b : R a b → stored_flags fl p a = stored_flags fl p b.
Proof. intros HR. unfold stored_flags. by rewrite (sim_max_payload _ _ HR). Qed.

Lemma sim_bump_lost a b : R a b → R (bump_lost a) (bump_lost b).
Proof. intros HR. unfold bump_lost. rewrite (sim_meta _ _ HR). by apply sim_lost. Qed.

Lemma sim_cas_tail s e d a b :
  R a b →
  option_Forall2 (λ x y, x.1 = y.1 ∧ R x.2 y.2 ∧ rd_meta y.2 = rd_meta b)
    (cas_tail s e d a) (cas_tail s e d b).
Proof.
  intros HR. unfold cas_tail. rewrite (sim_ld_tail _ _ HR).
  destruct (ld_tail b) as [t|]; simpl; [|constructor].
  destruct (atomic_compare_exchange_weak_u64 s t e d) as [[[] t'] e']; [|by constructor].
  eapply option_Forall2_bind; [by apply sim_st_tail|].
  intros a' b' _ Hb HR'. constructor. simpl. eauto using geom_tail.
Qed.

Lemma sim_claim_loop spurious budget retry pos a b :
  R a b → 0 < record_max (rd_meta b) →
  option_Forall2 (λ x y, x.1 = y.1 ∧ R x.2 y.2 ∧
      record_max (rd_meta y.2) = record_max (rd_meta b) ∧
      record_stride (rd_meta y.2) = record_stride (rd_meta b))
    (claim_loop spurious budget retry pos a) (claim_loop spurious budget retry pos b).
Proof.
  revert retry pos a b. induction budget as [|n IH]; intros retry pos a b HR Hm;
    cbn [claim_loop]; [by constructor|].
  rewrite (sim_slot_index pos _ _ HR), (sim_ld_seq _ _ _ HR) by by apply slot_index_range.
  destruct (ld_seq _ b) as [sq|]; cbn [mbind option_bind]; [|constructor].
  destruct (s64_sub _ _) as [d|]; cbn [mbind option_bind]; [|constructor].
  destruct (d =? 0).
  - eapply option_Forall2_bind; [by apply sim_cas_tail|].
    intros [[[] e1] a'] [[[] e2] b'] _ _ ([= <-]&HR'&E); simpl in *; try discriminate.
    + constructor. simpl. by rewrite E.
    + eapply option_Forall2_weaken; [apply IH; [done|by rewrite E]|]. simpl. by rewrite E.
  - destruct (d <? 0).
    + constructor. simpl. unfold bump_lost. rewrite geom_lost. split_and!; try done.
      by apply sim_bump_lost.
    + rewrite (sim_ld_tail _ _ HR).
      destruct (ld_tail b) as [t|]; cbn [mbind option_bind]; [by apply IH|constructor].
Qed.

(** One step of a chain of stores. *)
Ltac sim_store HR E :=
  eapply option_Forall2_bind;
  [first [eapply sim_st_field | eapply sim_st_body];
   [exact HR | ..]; rewrite ?E; try done
  |let a := fresh "a" in let b := fresh "b" in let Hb := fresh "Hb" in
   let HR' := fresh "HR" in intros a b _ Hb HR';
   let E' := fresh "E" in
   assert (E' : rd_meta b = rd_meta _)
     by (etrans; [first [exact (geom_field _ _ _ _ _ Hb) | exact (geom_body _ _ _ _ Hb)]
                 |exact E])].

Lemma written_size_bound (p : bytes) (m : M2) :
  0 ≤ record_stride (rd_meta m) < 2 ^ 32 → RECORD_HEADER_SIZE ≤ record_stride (rd_meta m) →
  0 ≤ written_size p m ≤ record_stride (rd_meta m) - RECORD_HEADER_SIZE.
Proof.
  intros H1 H2. unfold written_size, max_payload. unfold RECORD_HEADER_SIZE in *.
  rewrite (u32_small (_ - 16)) by lia. rewrite u32_small by lia. lia.
Qed.

Lemma copied_bound (out : bytes) len (m : M2) :
  0 ≤ record_stride (rd_meta m) < 2 ^ 32 → RECORD_HEADER_SIZE ≤ record_stride (rd_meta m) →
  0 ≤ len →
  0 ≤ u32 (Z.min (Z.of_nat (length out)) (Z.min len (max_payload m)))
    ≤ record_stride (rd_meta m) - RECORD_HEADER_SIZE.
Proof.
  intros H1 H2 H3. unfold max_payload, RECORD_HEADER_SIZE in *.
  rewrite (u32_small (_ - 16)) by lia. rewrite u32_small by lia. lia.
Qed.

Lemma sim_write_record ty fl us p pos a b :
  R a b → is_bytes p → 0 < record_max (rd_meta b) →
  RECORD_HEADER_SIZE ≤ record_stride (rd_meta b) →
  option_Forall2 R (write_record ty fl us p pos a) (write_record ty fl us p pos b).
Proof.
  intros HR Hp Hm Hs. unfold write_record.
  rewrite (sim_slot_index _ _ _ HR), (sim_written_size _ _ _ HR), (sim_stored_flags _ _ _ _ HR).
  pose proof (slot_index_range pos b Hm) as Hi.
  pose proof (written_size_bound p b (proj2 (sim_meta_typed _ _ HR)) Hs) as Hw.
  set (i := slot_index pos b) in *. set (w := written_size p b) in *.
  assert (E0 : rd_meta b = rd_meta b) by done.
  sim_store HR E0. sim_store HR0 E. sim_store HR1 E1. sim_store HR2 E2. sim_store HR3 E3.
  { by apply Forall_take. }
  { rewrite length_take. lia. }
  apply sim_st_seq; [done|]. by rewrite E4.
Qed.

(** [try_push] preserves the simulation, result included. *)
Lemma sim_try_push spurious ty fl us p a b :
  R a b → is_bytes p →
  option_Forall2 (λ x y, x.1 = y.1 ∧ R x.2 y.2)
    (try_push spurious ty fl us p a) (try_push spurious ty fl us p b).
Proof.
  intros HR Hp. unfold try_push. generalize MPSC_CAS_RETRY_BUDGET as budget. intros budget.
  rewrite (sim_meta _ _ HR).
  destruct (valid_meta (rd_meta b)) eqn:Hv; cbn [negb]; [|by constructor].
  unfold valid_meta in Hv. bool_prop. pose proof (sim_meta_typed _ _ HR).
  rewrite (sim_ld_tail _ _ HR).
  destruct (ld_tail b) as [t|]; cbn [mbind option_bind]; [|constructor].
  eapply option_Forall2_bind; [apply sim_claim_loop; [done|lia]|].
  intros [c1 a'] [c2 b'] _ _ ([= <-]&HR'&E1&E2); simpl in *. destruct c1.
  - eapply option_Forall2_bind; [apply sim_write_record; [done|done|lia|lia]|].
    intros. by constructor.
  - by constructor.
  - constructor. split; [done|]. by apply sim_bump_lost.
Qed.

(** [try_pop] preserves the simulation, result included. *)
Lemma sim_try_pop out a b :
  R a b →
  option_Forall2 (λ x y, x.1 = y.1 ∧ R x.2 y.2) (try_pop out a) (try_pop out b).
Proof.
  intros HR. unfold try_pop. rewrite (sim_meta _ _ HR).
  destruct (valid_meta (rd_meta b)) eqn:Hv; cbn [negb]; [|by constructor].
  unfold valid_meta in Hv. bool_prop. pose proof (sim_meta_typed _ _ HR) as [Hm Hst].
  rewrite (sim_ld_head _ _ HR).
  destruct (ld_head b) as [h|]; cbn [mbind option_bind]; [|constructor].
  rewrite (sim_slot_index _ _ _ HR), (sim_max_payload _ _ HR).
  pose proof (slot_index_range h b ltac:(lia)) as Hi. set (i := slot_index h b) in *.
  rewrite (sim_ld_seq _ _ _ HR) by done.
  destruct (ld_seq i b) as [sq|]; cbn [mbind option_bind]; [|constructor].
  destruct (sq =? u64 (h + 1)); simpl; [|by constructor].
  rewrite !(sim_ld_field _ _ _ _ HR) by done.
  destruct (ld_field FLen i b) as [len|] eqn:El; cbn [mbind option_bind]; [|constructor].
  pose proof (sim_field_nonneg _ _ _ _ _ HR El).
  rewrite (sim_ld_body _ _ _ _ HR); [|done|by apply copied_bound].
  destruct (ld_body _ _ b) as [body|]; cbn [mbind option_bind]; [|constructor].
  destruct (ld_field FType i b) as [ty|]; cbn [mbind option_bind]; [|constructor].
  destruct (ld_field FFlags i b) as [fl|]; cbn [mbind option_bind]; [|constructor].
  destruct (ld_field FUser i b) as [us|]; cbn [mbind option_bind]; [|constructor].
  eapply option_Forall2_bind; [by apply sim_st_seq|]. intros a1 b1 _ _ HR1.
  eapply option_Forall2_bind; [by apply sim_st_head|]. intros a2 b2 _ _ HR2.
  by constructor.
Qed.

(** [drain_batch] preserves the simulation, the callback's state included. *)
Lemma sim_drain_batch {S} (cb : S → PoppedRecord → bytes → bool * S) n scratch s a b :
  R a b →
  option_Forall2 (λ x y, x.1 = y.1 ∧ R x.2 y.2)
    (drain_batch cb n scratch s a) (drain_batch cb n scratch s b).
Proof.
  revert scratch s a b. induction n as [|n IH]; intros scratch s a b HR; cbn [drain_batch];
    [by constructor|].
  eapply option_Forall2_bind; [by apply sim_try_pop|].
  intros [o1 a'] [o2 b'] _ _ [[= <-] HR']; simpl in *.
  destruct o1 as [[rec scratch']|]; [|by constructor].
  destruct (cb s rec _) as [[] s']; [|by constructor].
  eapply option_Forall2_bind; [by apply IH|].
  intros [[[d1 s1] t1] a1] [[[d2 s2] t2] b1] _ _ [[= <- <- <-] HR1]; simpl in *.
  by constructor.
Qed.
End simulation.

(** ** Sequences of operations *)

Inductive ring_op := OpPush (ty fl us : Z) (p : bytes) | OpPop (out : bytes).
Inductive ring_out := OutPush (r : Result unit) | OutPop (r : option (PoppedRecord * bytes)).

Section runs.
Context {M : Type} `{!RingMem M} (spurious : nat → bool).

Definition run_op (o : ring_op) (m : M) : option (ring_out * M) :=
  match o with
  | OpPush ty fl us p => r ← try_push spurious ty fl us p m; Some (OutPush r.1, r.2)
  | OpPop out => r ← try_pop out m; Some (OutPop r.1, r.2)
  end.

Fixpoint run_ops (os : list ring_op) (m : M) : option (list ring_out * M) :=
  match os with
  | [] => Some ([], m)
  | o :: os' =>
      r ← run_op o m;
      q ← run_ops os' r.2;
      Some (r.1 :: q.1, q.2)
  end.

End runs.

(** The payload a push is given is a span of bytes. *)
Definition op_bytes (o : ring_op) : Prop :=
  match o with OpPush _ _ _ p => is_bytes p | OpPop _ => True end.

Lemma sim_run_ops {M1 M2} `{!RingMem M1, !RingMem M2} {R : M1 → M2 → Prop} `{!RingMemSim R}
    `{!RingMemGeom M2} spurious os a b :
  R a b → Forall op_bytes os →
  option_Forall2 (λ x y, x.1 = y.1 ∧ R x.2 y.2) (run_ops spurious os a) (run_ops spurious os b).
Proof.
  intros HR Hos. revert a b HR. induction Hos as [|o os Ho _ IH]; intros a b HR; cbn [run_ops];
    [by constructor|].
  eapply (option_Forall2_bind (λ x y, x.1 = y.1 ∧ R x.2 y.2)).
  - destruct o; cbn [run_op]; (eapply option_Forall2_bind;
      [first [by apply sim_try_push | by apply sim_try_pop]|]);
      intros [r1 a1] [r2 b1] _ _ [[= <-] ?]; by constructor.
  - intros [r1 a1] [r2 b1] _ _ [[= <-] HR1]; simpl in *.
    eapply option_Forall2_bind; [by apply IH|].
    intros [q1 a2] [q2 b2] _ _ [[= <-] HR2]. by constructor.
Qed.
