(* ===== verification/RingCells.v ===== *)
(** * The record ring over structured cells, and its FIFO specification

    [Cells] is the ring memory seen as data: two cursors and a list of slots. It is the second
    instance of [RingMem]; the byte memory of [RingBytes] simulates it. The file proves that
    the ring operations on cells implement a bounded FIFO queue: a push appends or reports
    [RingFull] and counts the loss, a pop returns the oldest record. *)

From S2P Require Import Prelude Types Sync RingMem.

(** ** Cells *)

Record Slot := mkSlot {
  sl_seq : Z;
  sl_len : Z;
  sl_type : Z;
  sl_flags : Z;
  sl_user : Z;
  sl_body : bytes;
}.

Record Cells := mkCells {
  c_meta : RecordRingMeta;
  c_head : Z;
  c_tail : Z;
  c_slots : list Slot;
}.

Definition set_seq (v : Z) (s : Slot) : Slot :=
  mkSlot (u64 v) (sl_len s) (sl_type s) (sl_flags s) (sl_user s) (sl_body s).

Definition get_field (f : RecField) (s : Slot) : Z :=
  match f with FLen => sl_len s | FType => sl_type s | FFlags => sl_flags s | FUser => sl_user s end.

Definition set_field (f : RecField) (v : Z) (s : Slot) : Slot :=
  match f with
  | FLen => mkSlot (sl_seq s) (u32 v) (sl_type s) (sl_flags s) (sl_user s) (sl_body s)
  | FType => mkSlot (sl_seq s) (sl_len s) (u16 v) (sl_flags s) (sl_user s) (sl_body s)
  | FFlags => mkSlot (sl_seq s) (sl_len s) (sl_type s) (u16 v) (sl_user s) (sl_body s)
  | FUser => mkSlot (sl_seq s) (sl_len s) (sl_type s) (sl_flags s) (u64 v) (sl_body s)
  end.

Definition set_body (bs : bytes) (s : Slot) : Slot :=
  mkSlot (sl_seq s) (sl_len s) (sl_type s) (sl_flags s) (sl_user s)
    (bs ++ drop (length bs) (sl_body s)).

Definition set_lost (v : Z) (meta : RecordRingMeta) : RecordRingMeta :=
  mkRecordRingMeta (record_max meta) (record_stride meta) (producer_mode meta)
    (consumer_mode meta) v.

Definition slot_at (i : Z) (c : Cells) : option Slot :=
  if bool_decide (0 ≤ i) then c_slots c !! Z.to_nat i else None.

Definition put_slot (i : Z) (s : Slot) (c : Cells) : Cells :=
  mkCells (c_meta c) (c_head c) (c_tail c) (<[Z.to_nat i := s]> (c_slots c)).

Definition upd_slot (i : Z) (f : Slot → Slot) (c : Cells) : option Cells :=
  s ← slot_at i c; Some (put_slot i (f s) c).

#[export] Instance RingMem_Cells : RingMem Cells := {
  rd_meta := c_meta;
  wr_lost v c := mkCells (set_lost v (c_meta c)) (c_head c) (c_tail c) (c_slots c);
  ld_head c := Some (c_head c);
  st_head v c := Some (mkCells (c_meta c) (u64 v) (c_tail c) (c_slots c));
  ld_tail c := Some (c_tail c);
  st_tail v c := Some (mkCells (c_meta c) (c_head c) (u64 v) (c_slots c));
  ld_seq i c := sl_seq <$> slot_at i c;
  st_seq i v := upd_slot i (set_seq v);
  ld_field f i c := get_field f <$> slot_at i c;
  st_field f i v := upd_slot i (set_field f v);
  ld_body i n c :=
    s ← slot_at i c;
    if bool_decide (0 ≤ n ≤ Z.of_nat (length (sl_body s)))
    then Some (take (Z.to_nat n) (sl_body s)) else None;
  st_body i bs c :=
    s ← slot_at i c;
    if bool_decide (length bs ≤ length (sl_body s))%nat then upd_slot i (set_body bs) c else None;
}.

(** The state [MpscRing::initialize] leaves: cursors at 0, slot [i] with sequence [i]. *)
Definition init_slot (stride : Z) (i : nat) : Slot :=
  mkSlot (Z.of_nat i) 0 0 0 0 (replicate (Z.to_nat (stride - RECORD_HEADER_SIZE)) 0).

Definition init_meta (rmax stride : Z) : RecordRingMeta :=
  mkRecordRingMeta rmax stride RING_PRODUCER_MPSC RING_CONSUMER_SINGLE 0.

Definition init_cells (rmax stride : Z) : Cells :=
  mkCells (init_meta rmax stride) 0 0 (init_slot stride <$> seq 0 (Z.to_nat rmax)).

(** ** The FIFO specification *)

(** What a slot holds once it is published. *)
Record Msg := mkMsg { m_type : Z; m_flags : Z; m_user : Z; m_data : bytes }.

#[export] Instance Msg_eq_dec : EqDecision Msg.
Proof. solve_decision. Defined.

(** The record a push of the given arguments stores in a slot of the given stride. *)
Definition stored_msg (stride ty fl us : Z) (p : bytes) : Msg :=
  if bool_decide (stride - RECORD_HEADER_SIZE < Z.of_nat (length p))
  then mkMsg ty (Z.lor fl RECORD_FLAG_TRUNCATED) us
         (take (Z.to_nat (stride - RECORD_HEADER_SIZE)) p)
  else mkMsg ty fl us p.

(** What a pop of the record into the given buffer returns. *)
Definition popped (msg : Msg) (out : bytes) : PoppedRecord * bytes :=
  let n := Nat.min (length out) (length (m_data msg)) in
  (mkPoppedRecord (m_type msg) (m_flags msg) (m_user msg)
     (Z.of_nat (length (m_data msg))) (Z.of_nat n),
   take n (m_data msg) ++ drop n out).

Record Fifo := mkFifo { f_queue : list Msg; f_lost : Z }.

Definition fifo_push (cap : Z) (msg : Msg) (q : Fifo) : Result unit * Fifo :=
  if bool_decide (Z.of_nat (length (f_queue q)) < cap)
  then (Value tt, mkFifo (f_queue q ++ [msg]) (f_lost q))
  else (Error RingFull, mkFifo (f_queue q) (u64 (f_lost q + 1))).

Definition fifo_pop (out : bytes) (q : Fifo) : option (PoppedRecord * bytes) * Fifo :=
  match f_queue q with
  | [] => (None, q)
  | msg :: ms => (Some (popped msg out), mkFifo ms (f_lost q))
  end.

(** A slot that holds a message: its header and the first [len] bytes of its body. *)
Definition holds (s : Slot) (msg : Msg) : Prop :=
  sl_len s = Z.of_nat (length (m_data msg)) ∧ sl_type s = m_type msg ∧
  sl_flags s = m_flags msg ∧ sl_user s = m_user msg ∧
  take (length (m_data msg)) (sl_body s) = m_data msg.

(** Geometry of a ring in memory: what [initialize] sets up and no operation changes. *)
Record cells_geom (c : Cells) : Prop := {
  cg_valid : valid_meta (c_meta c) = true;
  cg_max : 2 ≤ record_max (c_meta c) < 2 ^ 32;
  cg_stride : RECORD_HEADER_SIZE ≤ record_stride (c_meta c) < 2 ^ 32;
  cg_slots : Z.of_nat (length (c_slots c)) = record_max (c_meta c);
  cg_body : Forall (λ s, Z.of_nat (length (sl_body s)) =
                         record_stride (c_meta c) - RECORD_HEADER_SIZE) (c_slots c);
}.

(** The ring represents a queue: positions [head, tail) hold the queued records with sequence
    [p + 1], positions [tail, head + record_max) are free with sequence [p]. *)
Record ring_rep (c : Cells) (q : Fifo) : Prop := {
  rr_geom : cells_geom c;
  rr_lost : lost_count (c_meta c) = f_lost q;
  rr_head : 0 ≤ c_head c;
  rr_tail : c_tail c = c_head c + Z.of_nat (length (f_queue q));
  rr_cap : Z.of_nat (length (f_queue q)) ≤ record_max (c_meta c);
  rr_full k msg :
    f_queue q !! k = Some msg →
    ∃ s, slot_at ((c_head c + Z.of_nat k) mod record_max (c_meta c)) c = Some s ∧
         sl_seq s = c_head c + Z.of_nat k + 1 ∧ holds s msg;
  rr_free p :
    c_tail c ≤ p < c_head c + record_max (c_meta c) →
    ∃ s, slot_at (p mod record_max (c_meta c)) c = Some s ∧ sl_seq s = p;
}.

(** The cursors stay below 2^63, where the signed difference of the claim loop is exact. *)
Definition ring_bounded (c : Cells) : Prop := c_tail c + record_max (c_meta c) < 2 ^ 63.

(** Arguments of a push are values of their C++ types. *)
Definition push_typed (ty fl us : Z) : Prop :=
  0 ≤ ty < 2 ^ 16 ∧ 0 ≤ fl < 2 ^ 16 ∧ 0 ≤ us < 2 ^ 64.

(** ** Lemmas on cells *)

Lemma slot_at_Some i c s :
  slot_at i c = Some s ↔ 0 ≤ i ∧ c_slots c !! Z.to_nat i = Some s.
Proof. unfold slot_at. case_bool_decide; intuition congruence. Qed.

Lemma slot_at_is_Some i c :
  cells_geom c → 0 ≤ i < record_max (c_meta c) → is_Some (slot_at i c).
Proof.
  intros [_ _ _ Hl _] Hi. unfold slot_at. rewrite bool_decide_true by lia.
  apply lookup_lt_is_Some. lia.
Qed.

Lemma slot_at_body i c s :
  cells_geom c → slot_at i c = Some s →
  Z.of_nat (length (sl_body s)) = record_stride (c_meta c) - RECORD_HEADER_SIZE.
Proof.
  intros [_ _ _ _ Hb] [_ Hs]%slot_at_Some. by eapply (Forall_lookup_1 _ _ _ _ Hb).
Qed.

Lemma upd_slot_Some i f c c' :
  upd_slot i f c = Some c' ↔ ∃ s, slot_at i c = Some s ∧ c' = put_slot i (f s) c.
Proof.
  unfold upd_slot. destruct (slot_at i c) as [s|]; simpl; split.
  - intros [= <-]. eauto.
  - by intros (s'&[= <-]&->).
  - done.
  - by intros (s'&?&_).
Qed.

Lemma upd_slot_ok i f c s :
  slot_at i c = Some s → upd_slot i f c = Some (put_slot i (f s) c).
Proof. intros H. unfold upd_slot. by rewrite H. Qed.

Lemma slot_at_put i s c j :
  is_Some (slot_at i c) →
  slot_at j (put_slot i s c) = if decide (i = j) then Some s else slot_at j c.
Proof.
  intros [s0 [Hi Hs]%slot_at_Some]. unfold slot_at, put_slot. cbn [c_slots].
  apply lookup_lt_Some in Hs. case_decide as Hij.
  - subst j. rewrite bool_decide_true by done. by rewrite list_lookup_insert_eq.
  - case_bool_decide; [|done]. by rewrite list_lookup_insert_ne by lia.
Qed.

Lemma slot_at_put_eq i s c : is_Some (slot_at i c) → slot_at i (put_slot i s c) = Some s.
Proof. intros. by rewrite slot_at_put, decide_True. Qed.

Lemma slot_at_put_ne i s c j :
  is_Some (slot_at i c) → i ≠ j → slot_at j (put_slot i s c) = slot_at j c.
Proof. intros. by rewrite slot_at_put, decide_False. Qed.

Lemma put_slot_put_slot i s s' c : put_slot i s (put_slot i s' c) = put_slot i s c.
Proof. unfold put_slot. simpl. by rewrite list_insert_insert_eq. Qed.

#[export] Instance RingMemGeom_Cells : RingMemGeom Cells.
Proof.
  split; try done.
  - by intros ?? m' [= <-].
  - by intros ?? m' [= <-].
  - by intros ??? m' (?&_&->)%upd_slot_Some.
  - by intros ???? m' (?&_&->)%upd_slot_Some.
  - intros i bs m m'. cbn [st_body RingMem_Cells]. destruct (slot_at i m); simpl; [|done].
    case_bool_decide; [|done]. by intros (?&_&->)%upd_slot_Some.
Qed.

Lemma cells_geom_put i s c :
  Z.of_nat (length (sl_body s)) = record_stride (c_meta c) - RECORD_HEADER_SIZE →
  cells_geom c → cells_geom (put_slot i s c).
Proof.
  intros Hs [Hv Hm Hst Hl Hb]. split; try done; cbn [c_meta c_slots put_slot].
  - by rewrite length_insert.
  - by apply Forall_insert.
Qed.

Lemma max_payload_cells c :
  cells_geom c → max_payload c = record_stride (c_meta c) - RECORD_HEADER_SIZE.
Proof.
  intros [_ _ Hs _ _]. unfold max_payload. cbn [rd_meta RingMem_Cells].
  rewrite u32_small; [done|]. unfold RECORD_HEADER_SIZE in *. lia.
Qed.

Lemma written_size_cells p c :
  cells_geom c →
  written_size p c =
  Z.min (Z.of_nat (length p)) (record_stride (c_meta c) - RECORD_HEADER_SIZE).
Proof.
  intros Hg. unfold written_size. rewrite (max_payload_cells _ Hg).
  destruct Hg as [_ _ Hs _ _]. unfold RECORD_HEADER_SIZE in *. rewrite u32_small; lia.
Qed.

(** ** The fill of a claimed slot *)

(** The slot after [write_record]: header, body and the published sequence. *)
Definition filled (s : Slot) (pos : Z) (msg : Msg) : Slot :=
  mkSlot (u64 (pos + 1)) (u32 (Z.of_nat (length (m_data msg)))) (u16 (m_type msg))
    (u16 (m_flags msg)) (u64 (m_user msg))
    (m_data msg ++ drop (length (m_data msg)) (sl_body s)).

Lemma filled_holds s pos stride ty fl us p :
  push_typed ty fl us → RECORD_HEADER_SIZE ≤ stride < 2 ^ 32 →
  holds (filled s pos (stored_msg stride ty fl us p)) (stored_msg stride ty fl us p).
Proof.
  intros (Ht&Hf&Hu) Hs. unfold holds, filled, stored_msg, RECORD_HEADER_SIZE in *.
  assert (0 ≤ Z.lor fl RECORD_FLAG_TRUNCATED < 2 ^ 16).
  { by apply lor_range. }
  case_bool_decide; cbn [sl_len sl_type sl_flags sl_user sl_body m_data m_type m_flags m_user];
    rewrite !u16_small, u64_small by done; rewrite u32_small by (rewrite ?length_take; lia);
    split_and!; try done; by rewrite take_app_length.
Qed.

Lemma filled_body s pos msg stride :
  Z.of_nat (length (m_data msg)) ≤ stride - RECORD_HEADER_SIZE →
  Z.of_nat (length (sl_body s)) = stride - RECORD_HEADER_SIZE →
  Z.of_nat (length (sl_body (filled s pos msg))) = stride - RECORD_HEADER_SIZE.
Proof. intros. simpl. rewrite length_app, length_drop. lia. Qed.

Lemma stored_msg_data_length stride ty fl us p :
  RECORD_HEADER_SIZE ≤ stride →
  Z.of_nat (length (m_data (stored_msg stride ty fl us p))) =
  Z.min (Z.of_nat (length p)) (stride - RECORD_HEADER_SIZE).
Proof.
  intros. unfold stored_msg. case_bool_decide; simpl; rewrite ?length_take; lia.
Qed.

Lemma stored_flags_cells stride ty fl us p c :
  cells_geom c → 0 ≤ fl < 2 ^ 16 → stride = record_stride (c_meta c) →
  stored_flags fl p c = m_flags (stored_msg stride ty fl us p).
Proof.
  intros Hg Hf ->. unfold stored_flags, stored_msg. rewrite (max_payload_cells _ Hg).
  destruct (Z.ltb_spec (record_stride (c_meta c) - RECORD_HEADER_SIZE) (Z.of_nat (length p)));
    [rewrite bool_decide_true by done|by rewrite bool_decide_false by lia].
  apply u16_small. by apply lor_range.
Qed.

Lemma stored_msg_data stride ty fl us p :
  RECORD_HEADER_SIZE ≤ stride →
  m_data (stored_msg stride ty fl us p) =
  take (Z.to_nat (Z.min (Z.of_nat (length p)) (stride - RECORD_HEADER_SIZE))) p.
Proof.
  intros. unfold stored_msg. case_bool_decide; simpl.
  - f_equal. lia.
  - rewrite Z.min_l by lia. by rewrite Nat2Z.id, firstn_all.
Qed.

Lemma stored_msg_type_user stride ty fl us p :
  m_type (stored_msg stride ty fl us p) = ty ∧ m_user (stored_msg stride ty fl us p) = us.
Proof. unfold stored_msg. by case_bool_decide. Qed.

(** [write_record] puts the filled slot and changes nothing else. *)
Lemma write_record_cells ty fl us p pos c s :
  cells_geom c → 0 ≤ fl < 2 ^ 16 → slot_at (slot_index pos c) c = Some s →
  write_record ty fl us p pos c =
  Some (put_slot (slot_index pos c)
          (filled s pos (stored_msg (record_stride (c_meta c)) ty fl us p)) c).
Proof.
  intros Hg Hfl Hs. unfold write_record. cbv zeta.
  pose proof (slot_at_body _ _ _ Hg Hs) as Hb.
  rewrite (stored_flags_cells _ ty fl us p c Hg Hfl eq_refl), (written_size_cells _ _ Hg).
  pose proof (stored_msg_data (record_stride (c_meta c)) ty fl us p) as Hd.
  pose proof (stored_msg_data_length (record_stride (c_meta c)) ty fl us p) as Hl.
  destruct (stored_msg_type_user (record_stride (c_meta c)) ty fl us p) as [Hty Hus].
  destruct Hg as [_ _ Hst _ _].
  set (msg := stored_msg _ ty fl us p) in *. rewrite <-Hd, <-Hl by lia.
  set (i := slot_index pos c) in *.
  cbn [st_field st_seq st_body RingMem_Cells]. rewrite (upd_slot_ok _ _ _ _ Hs).
  cbn [mbind option_bind].
  do 3 (erewrite upd_slot_ok by (apply slot_at_put_eq; eauto);
        cbn [mbind option_bind]; rewrite put_slot_put_slot).
  rewrite slot_at_put_eq by eauto. cbn [mbind option_bind].
  rewrite bool_decide_true by (simpl; lia).
  do 2 (erewrite upd_slot_ok by (apply slot_at_put_eq; eauto);
        cbn [mbind option_bind]; rewrite put_slot_put_slot). do 2 f_equal.
  unfold filled, set_seq, set_body, set_field. simpl. rewrite Hty, Hus. f_equal.
  unfold u64. by rewrite Z.mod_mod.
Qed.

(** ** The claim loop *)

(** On a free tail slot the loop claims it, as soon as a weak CAS does not fail spuriously. *)
Lemma claim_loop_free spurious budget retry c s :
  0 ≤ c_tail c < 2 ^ 63 →
  slot_at (slot_index (c_tail c) c) c = Some s → sl_seq s = c_tail c →
  (∃ n, (retry ≤ n < retry + budget)%nat ∧ spurious n = false) →
  claim_loop spurious budget retry (c_tail c) c =
  Some (Claimed (c_tail c), mkCells (c_meta c) (c_head c) (c_tail c + 1) (c_slots c)).
Proof.
  intros Ht Hs Hq. revert retry. induction budget as [|b IH]; intros retry (n&Hn&Hsp); [lia|].
  cbn [claim_loop]. cbn [ld_seq RingMem_Cells]. rewrite Hs. cbn [mbind option_bind fmap option_fmap option_map].
  rewrite Hq, s64_small, s64_sub_small by lia. cbn [mbind option_bind].
  rewrite Z.sub_diag, Z.eqb_refl. unfold cas_tail. cbn [ld_tail RingMem_Cells mbind option_bind].
  destruct (spurious retry) eqn:Er.
  - unfold atomic_compare_exchange_weak_u64. cbn [negb andb mbind option_bind].
    apply IH. exists n. split; [|done]. assert (n ≠ retry) by congruence. lia.
  - rewrite cas_success. cbn [st_tail RingMem_Cells mbind option_bind].
    rewrite (u64_small (c_tail c + 1)), (u64_small (c_tail c + 1)) by lia. done.
Qed.

(** On a slot that is one lap behind the loop reports a full ring and counts the loss. *)
Lemma claim_loop_full spurious budget retry c s :
  0 ≤ c_tail c < 2 ^ 63 → 0 ≤ sl_seq s < c_tail c →
  slot_at (slot_index (c_tail c) c) c = Some s →
  claim_loop spurious (S budget) retry (c_tail c) c = Some (SlotFull, bump_lost c).
Proof.
  intros Ht Hq Hs. cbn [claim_loop]. cbn [ld_seq RingMem_Cells]. rewrite Hs.
  cbn [mbind option_bind fmap option_fmap option_map].
  rewrite !s64_small, s64_sub_small by lia. cbn [mbind option_bind].
  destruct (Z.eqb_spec (sl_seq s - c_tail c) 0); [lia|].
  destruct (Z.ltb_spec (sl_seq s - c_tail c) 0); [done|lia].
Qed.

(** ** Refinement of the FIFO queue *)

Lemma slot_index_cells pos c : slot_index pos c = pos mod record_max (c_meta c).
Proof. done. Qed.

(** The position a slot index of the live window belongs to is unique. *)
Lemma window_ne c p p' :
  cells_geom c → p ≠ p' → c_head c ≤ p < c_head c + record_max (c_meta c) →
  c_head c ≤ p' < c_head c + record_max (c_meta c) →
  p mod record_max (c_meta c) ≠ p' mod record_max (c_meta c).
Proof.
  intros [_ Hm _ _ _] Hne Hp Hp' E. apply Hne.
  eapply (mod_inj_window (record_max (c_meta c))); [lia|done|lia].
Qed.

(** A claimed and filled tail slot extends the represented queue by its record. *)
Lemma ring_rep_push c q s msg :
  ring_rep c q → ring_bounded c →
  Z.of_nat (length (f_queue q)) < record_max (c_meta c) →
  slot_at (slot_index (c_tail c) c) c = Some s →
  Z.of_nat (length (m_data msg)) ≤ record_stride (c_meta c) - RECORD_HEADER_SIZE →
  holds (filled s (c_tail c) msg) msg →
  ring_rep (put_slot (slot_index (c_tail c) c) (filled s (c_tail c) msg)
              (mkCells (c_meta c) (c_head c) (c_tail c + 1) (c_slots c)))
    (mkFifo (f_queue q ++ [msg]) (f_lost q)).
Proof.
  intros [Hg Hlost Hh Ht Hc Hfull Hfree] Hbd Hroom Hs Hlen Hholds. unfold ring_bounded in Hbd.
  set (c0 := mkCells _ _ _ (c_slots c)).
  assert (Hg0 : cells_geom c0) by (destruct Hg; by split).
  assert (Hs0 : slot_at (slot_index (c_tail c) c) c0 = Some s) by done.
  assert (Hisx : is_Some (slot_at (slot_index (c_tail c) c) c0)) by eauto.
  pose proof (cg_max _ Hg) as Hmx.
  split; cbn [f_queue f_lost put_slot c_meta c_head c_tail c0]; rewrite ?length_app; simpl length;
    try done; try lia.
  - apply (cells_geom_put _ _ c0); [|done]. cbn [c_meta c0].
    apply filled_body; [done|]. by eapply slot_at_body.
  - intros k m Hk. destruct (decide (k = length (f_queue q))) as [->|Hne].
    + rewrite list_lookup_middle in Hk by done. injection Hk as <-.
      exists (filled s (c_tail c) msg). split_and!; [|simpl; rewrite u64_small; lia|done].
      rewrite slot_index_cells, Ht. apply (slot_at_put_eq _ _ c0).
      by rewrite <-Ht, <-slot_index_cells.
    + apply lookup_lt_Some in Hk as Hlt. rewrite length_app in Hlt. simpl in Hlt.
      rewrite lookup_app_l in Hk by lia.
      destruct (Hfull k m Hk) as (s'&Hs'&Hq'&Hh'). exists s'. split_and!; [|done|done].
      rewrite <-Hs'. apply (slot_at_put_ne _ _ c0); [done|]. rewrite slot_index_cells.
      apply window_ne; [done|lia|lia|lia].
  - intros p Hp. destruct (Hfree p) as (s'&Hs'&Hq'); [lia|]. exists s'. split; [|done].
    rewrite <-Hs'. apply (slot_at_put_ne _ _ c0); [done|]. rewrite slot_index_cells.
    apply window_ne; [done|lia|lia|lia].
Qed.

Lemma ring_rep_bump_lost c q :
  ring_rep c q → ring_rep (bump_lost c) (mkFifo (f_queue q) (u64 (f_lost q + 1))).
Proof.
  intros [Hg Hlost Hh Ht Hc Hfull Hfree]. split; try done.
  - destruct Hg; by split.
  - simpl. by rewrite Hlost.
Qed.

(** [try_push] implements the queue's push. *)
Lemma try_push_fifo spurious ty fl us p c q :
  ring_rep c q → ring_bounded c → push_typed ty fl us →
  (∃ n, (n < MPSC_CAS_RETRY_BUDGET)%nat ∧ spurious n = false) →
  let msg := stored_msg (record_stride (c_meta c)) ty fl us p in
  ∃ c', try_push spurious ty fl us p c =
          Some ((fifo_push (record_max (c_meta c)) msg q).1, c') ∧
        ring_rep c' (fifo_push (record_max (c_meta c)) msg q).2 ∧
        c_tail c' ≤ c_tail c + 1 ∧ record_max (c_meta c') = record_max (c_meta c) ∧
        record_stride (c_meta c') = record_stride (c_meta c).
Proof.
  intros Hr Hbd Hty Hsp msg. pose proof Hr as [Hg Hlost Hh Ht Hc Hfull Hfree].
  unfold ring_bounded in Hbd. pose proof (cg_max _ Hg) as Hmx.
  unfold try_push. assert (Hb : MPSC_CAS_RETRY_BUDGET = S 63) by done. revert Hsp Hb.
  generalize MPSC_CAS_RETRY_BUDGET as budget. intros budget Hsp Hb.
  change (rd_meta c) with (c_meta c). rewrite (cg_valid _ Hg).
  cbn [negb ld_tail RingMem_Cells mbind option_bind]. unfold fifo_push.
  case_bool_decide as Hroom.
  - destruct (Hfree (c_tail c)) as (s&Hs&Hq); [lia|]. rewrite <-slot_index_cells in Hs.
    rewrite (claim_loop_free _ _ _ _ s) by (try done; destruct Hsp as (n&?&?); eauto with lia || lia).
    cbn [mbind option_bind].
    rewrite (write_record_cells _ _ _ _ _ _ s); [|destruct Hg; by split|apply Hty|done].
    cbn [mbind option_bind c_meta]. eexists. split_and!; [done| |simpl; lia|done|done].
    refine (ring_rep_push c q s msg Hr Hbd Hroom Hs _ _).
    + unfold msg. rewrite stored_msg_data_length by (destruct Hg; lia). lia.
    + apply filled_holds; [done|]. by destruct Hg.
  - assert (Hhd : is_Some (f_queue q !! 0%nat)) by (apply lookup_lt_is_Some; lia).
    destruct Hhd as [m0 Hm0]. destruct (Hfull 0%nat m0 Hm0) as (s&Hs&Hq&_).
    destruct budget as [|b]; [done|]. rewrite (claim_loop_full _ _ _ _ s); [|lia|lia|].
    2:{ rewrite slot_index_cells, <-Hs. f_equal. rewrite Ht.
        replace (Z.of_nat (length (f_queue q))) with (record_max (c_meta c)) by lia.
        rewrite mod_add_lap by lia. f_equal. lia. }
    cbn [mbind option_bind]. eexists. split_and!; [done| |simpl; lia|done|done].
    by apply ring_rep_bump_lost.
Qed.

(** A popped head slot is free for the next lap. *)
Lemma ring_rep_pop c msg ms lost s :
  ring_rep c (mkFifo (msg :: ms) lost) → ring_bounded c →
  slot_at (slot_index (c_head c) c) c = Some s →
  ring_rep
    (mkCells (c_meta c) (c_head c + 1) (c_tail c)
       (c_slots (put_slot (slot_index (c_head c) c)
          (set_seq (c_head c + record_max (c_meta c)) s) c)))
    (mkFifo ms lost).
Proof.
  intros [Hg Hlost Hh Ht Hc Hfull Hfree] Hbd Hs. unfold ring_bounded in Hbd.
  cbn [f_queue f_lost length] in *.
  set (s' := set_seq _ s). set (c' := put_slot _ s' c).
  assert (Hisx : is_Some (slot_at (slot_index (c_head c) c) c)) by eauto.
  assert (Hg' : cells_geom c').
  { apply cells_geom_put; [|done]. by eapply (slot_at_body _ _ s). }
  assert (Hat : ∀ j, slot_at j (mkCells (c_meta c) (c_head c + 1) (c_tail c) (c_slots c')) =
                     slot_at j c') by done.
  pose proof (cg_max _ Hg) as Hmx.
  split; cbn [f_queue f_lost c_meta c_head c_tail]; try done; try lia.
  - destruct Hg'. by split.
  - intros k m Hk. apply lookup_lt_Some in Hk as Hlt.
    destruct (Hfull (S k) m Hk) as (sk&Hsk&Hqk&Hhk). exists sk. rewrite Hat. split_and!; [|lia|done].
    replace (c_head c + 1 + Z.of_nat k) with (c_head c + Z.of_nat (S k)) by lia. rewrite <-Hsk.
    apply slot_at_put_ne; [done|]. rewrite slot_index_cells. apply window_ne; [done|lia|lia|lia].
  - intros p Hp. rewrite Hat. destruct (decide (p = c_head c + record_max (c_meta c))) as [->|Hne].
    + exists s'. split; [|simpl; rewrite u64_small; lia].
      rewrite mod_add_lap by lia. rewrite <-slot_index_cells. by apply slot_at_put_eq.
    + destruct (Hfree p) as (sk&Hsk&Hqk); [lia|]. exists sk. split; [|done]. rewrite <-Hsk.
      apply slot_at_put_ne; [done|]. rewrite slot_index_cells. apply window_ne; [done|lia|lia|lia].
Qed.

Lemma holds_len s msg : holds s msg → 0 ≤ sl_len s ≤ Z.of_nat (length (sl_body s)).
Proof.
  intros (Hl&_&_&_&Hb). rewrite Hl. apply (f_equal length) in Hb. rewrite length_take in Hb. lia.
Qed.

(** What [try_pop] reads from a slot that holds a record. *)
Lemma popped_holds s msg (out : bytes) :
  holds s msg →
  (mkPoppedRecord (sl_type s) (sl_flags s) (sl_user s) (sl_len s)
     (Z.min (Z.of_nat (length out)) (sl_len s)),
   take (Z.to_nat (Z.min (Z.of_nat (length out)) (sl_len s))) (sl_body s) ++
   drop (Z.to_nat (Z.min (Z.of_nat (length out)) (sl_len s))) out) = popped msg out.
Proof.
  intros (Hl&Hty&Hfl&Hus&Hbody). unfold popped. rewrite Hl, Hty, Hfl, Hus.
  replace (Z.min (Z.of_nat (length out)) (Z.of_nat (length (m_data msg))))
    with (Z.of_nat (Nat.min (length out) (length (m_data msg)))) by lia.
  rewrite Nat2Z.id. do 2 f_equal.
  transitivity (take (length out `min` length (m_data msg))
                  (take (length (m_data msg)) (sl_body s))); [|by rewrite Hbody].
  rewrite take_take. f_equal. lia.
Qed.

(** [try_pop] implements the queue's pop. *)
Lemma try_pop_fifo out c q :
  ring_rep c q → ring_bounded c → Z.of_nat (length out) < 2 ^ 32 →
  ∃ c', try_pop out c = Some ((fifo_pop out q).1, c') ∧ ring_rep c' (fifo_pop out q).2 ∧
        c_tail c' = c_tail c ∧ record_max (c_meta c') = record_max (c_meta c) ∧
        record_stride (c_meta c') = record_stride (c_meta c).
Proof.
  intros Hr Hbd Hout. pose proof Hr as [Hg Hlost Hh Ht Hc Hfull Hfree].
  unfold ring_bounded in Hbd. pose proof (cg_max _ Hg) as Hmx.
  unfold try_pop, fifo_pop. change (rd_meta c) with (c_meta c). rewrite (cg_valid _ Hg).
  cbn [negb ld_head RingMem_Cells mbind option_bind]. rewrite slot_index_cells.
  destruct q as [[|msg ms] lost]; cbn [f_queue f_lost length fst snd] in *.
  - destruct (Hfree (c_head c)) as (s&Hs&Hq); [lia|].
    cbn [ld_seq RingMem_Cells]. rewrite Hs. cbn [mbind option_bind fmap option_fmap option_map].
    rewrite u64_small by lia. destruct (Z.eqb_spec (sl_seq s) (c_head c + 1)); [lia|].
    cbn [negb]. eauto 10.
  - destruct (Hfull 0%nat msg eq_refl) as (s&Hs&Hq&Hm). rewrite Z.add_0_r in *.
    pose proof (slot_at_body _ _ _ Hg Hs) as Hbl. pose proof (holds_len _ _ Hm) as Hlen.
    cbn [ld_seq ld_field ld_body st_seq st_head RingMem_Cells]. rewrite !Hs.
    cbn [mbind option_bind fmap option_fmap option_map get_field].
    rewrite (u64_small (c_head c + 1)), Hq, Z.eqb_refl by lia. cbn [negb].
    pose proof (cg_stride _ Hg) as Hst. unfold RECORD_HEADER_SIZE in *.
    rewrite (max_payload_cells _ Hg). unfold RECORD_HEADER_SIZE.
    rewrite (Z.min_l (sl_len s)) by lia. rewrite u32_small, bool_decide_true by lia.
    cbn [mbind option_bind]. rewrite (popped_holds _ _ _ Hm), (upd_slot_ok _ _ _ _ Hs).
    cbn [mbind option_bind]. eexists. split_and!; [done| |done|done|done].
    rewrite (u64_small (c_head c + 1)), (u64_small (c_head c + record_max (c_meta c))) by lia.
    by apply (ring_rep_pop c msg ms lost s).
Qed.

(** ** Runs *)

Definition fifo_op (cap stride : Z) (o : ring_op) (q : Fifo) : ring_out * Fifo :=
  match o with
  | OpPush ty fl us p =>
      let r := fifo_push cap (stored_msg stride ty fl us p) q in (OutPush r.1, r.2)
  | OpPop out => let r := fifo_pop out q in (OutPop r.1, r.2)
  end.

Fixpoint fifo_run (cap stride : Z) (os : list ring_op) (q : Fifo) : list ring_out * Fifo :=
  match os with
  | [] => ([], q)
  | o :: os' =>
      let r := fifo_op cap stride o q in
      let s := fifo_run cap stride os' r.2 in (r.1 :: s.1, s.2)
  end.

(** An operation whose arguments are values of their C++ types. *)
Definition op_typed (o : ring_op) : Prop :=
  match o with
  | OpPush ty fl us _ => push_typed ty fl us
  | OpPop out => Z.of_nat (length out) < 2 ^ 32
  end.

Lemma run_op_fifo spurious o c q :
  (∃ n, (n < MPSC_CAS_RETRY_BUDGET)%nat ∧ spurious n = false) →
  ring_rep c q → ring_bounded c → op_typed o →
  let r := fifo_op (record_max (c_meta c)) (record_stride (c_meta c)) o q in
  ∃ c', run_op spurious o c = Some (r.1, c') ∧ ring_rep c' r.2 ∧
        c_tail c' ≤ c_tail c + 1 ∧ record_max (c_meta c') = record_max (c_meta c) ∧
        record_stride (c_meta c') = record_stride (c_meta c).
Proof.
  intros Hsp Hr Hb Ho. destruct o as [ty fl us p|out]; simpl in Ho; cbn [run_op fifo_op fst snd].
  - destruct (try_push_fifo spurious ty fl us p c q Hr Hb Ho Hsp) as (c'&E&?&?&?&?).
    rewrite E. cbn [mbind option_bind fst snd]. eauto 10.
  - destruct (try_pop_fifo out c q Hr Hb Ho) as (c'&E&?&?&?&?).
    rewrite E. cbn [mbind option_bind fst snd]. eexists. split_and!; [done|done|lia|done|done].
Qed.

Lemma run_ops_fifo spurious os c q :
  (∃ n, (n < MPSC_CAS_RETRY_BUDGET)%nat ∧ spurious n = false) →
  ring_rep c q → Forall op_typed os →
  c_tail c + Z.of_nat (length os) + record_max (c_meta c) < 2 ^ 63 →
  let r := fifo_run (record_max (c_meta c)) (record_stride (c_meta c)) os q in
  ∃ c', run_ops spurious os c = Some (r.1, c') ∧ ring_rep c' r.2.
Proof.
  intros Hsp Hr Hos. revert c q Hr. induction Hos as [|o os Ho _ IH]; intros c q Hr Hb;
    cbn [run_ops fifo_run fst snd]; [eauto|]. simpl length in Hb.
  destruct (run_op_fifo spurious o c q Hsp Hr) as (c1&E1&Hr1&Ht1&Hm1&Hs1);
    [unfold ring_bounded; lia|done|].
  rewrite E1. cbn [mbind option_bind fst snd].
  destruct (IH c1 _ Hr1) as (c2&E2&Hr2); [lia|]. rewrite Hm1, Hs1 in E2, Hr2.
  rewrite E2. cbn [mbind option_bind fst snd]. eauto.
Qed.

(** The ring [initialize] sets up represents the empty queue. *)
Lemma init_cells_rep rmax stride :
  2 ≤ rmax < 2 ^ 32 → RECORD_HEADER_SIZE ≤ stride < 2 ^ 32 →
  ring_rep (init_cells rmax stride) (mkFifo [] 0).
Proof.
  intros Hm Hs. split; simpl; try done; try lia.
  - split; simpl; try done.
    + unfold valid_meta. simpl. unfold RECORD_HEADER_SIZE in *.
      rewrite andb_true_iff, andb_true_iff, andb_true_iff, negb_true_iff, Z.eqb_neq, Z.leb_le.
      split_and!; [lia|lia|done|done].
    + rewrite length_fmap, length_seq. lia.
    + apply Forall_forall. intros s (i&->&_)%list_elem_of_fmap. simpl.
      rewrite length_replicate. lia.
  - intros p Hp. exists (init_slot stride (Z.to_nat p)). split; [|simpl; lia].
    rewrite Z.mod_small by lia. apply slot_at_Some. split; [lia|]. simpl.
    rewrite list_lookup_fmap, lookup_seq_lt by lia. done.
Qed.
