(* ===== verification/RingBytes.v ===== *)
(** * The record ring in bytes: layout, [initialize] and [bind]

    The payload span as the source lays it out: two 64-byte cursors, [record_max] 8-byte slot
    sequences, [record_max] records of [record_stride] bytes. [RingMem_Bytes] implements the
    ring's memory interface with the offsets the source computes and [RingMemSim_abs] shows
    that it simulates the cells. *)

From S2P Require Import Prelude Types Sync RingMem RingCells.

(** ** Layout functions of [shm_ring.cpp] *)

(** [sizeof(RingCursor)] and [sizeof(RingSlotHeader)] *)
Definition CACHE_LINE_SIZE : Z := SHMFX_CACHE_LINE_BYTES.
Definition SLOT_HEADER_SIZE : Z := 8.
Definition kRecordAreaAlign : Z := 8.

(** [payload.data() % alignof(RingCursor) == 0], for a span that starts at address [data] *)
Definition payload_aligned (data : Z) : bool := data mod CACHE_LINE_SIZE =? 0.

Definition slot_meta_offset : Z := CACHE_LINE_SIZE * 2.

Definition record_area_offset (record_max : Z) : Z :=
  align_up (u64 (slot_meta_offset + u64 (SLOT_HEADER_SIZE * record_max))) kRecordAreaAlign.

(** Offsets of the cursors in the span. *)
Definition head_cursor : Z := 0.
Definition tail_cursor : Z := CACHE_LINE_SIZE.

Definition record_stride_for (max_payload : Z) : Z :=
  u32 (align_up (u64 (RECORD_HEADER_SIZE + max_payload)) CACHE_LINE_SIZE).

Definition payload_size_for (record_max record_stride : Z) : Z :=
  if ((record_max =? 0) || (record_stride <? RECORD_HEADER_SIZE))%bool then 0
  else u64 (record_area_offset record_max + u64 (record_max * record_stride)).

(** [slot_header(index)] and [record_bytes(index)] as offsets from the start of the span. *)
Definition slot_header (index : Z) : Z := slot_meta_offset + SLOT_HEADER_SIZE * index.

Definition record_bytes (meta : RecordRingMeta) (index : Z) : Z :=
  record_area_offset (record_max meta) + u64 (index * record_stride meta).

(** ** The ring view: metadata and the first [required] bytes of the payload span *)

Record MpscRing := mkMpscRing { meta_ : RecordRingMeta; payload_ : bytes }.

Definition with_payload (r : MpscRing) (o : option bytes) : option MpscRing :=
  mkMpscRing (meta_ r) <$> o.

(** Offset and width of the record header fields. *)
Definition field_off (f : RecField) : Z :=
  match f with FLen => 0 | FType => 4 | FFlags => 6 | FUser => 8 end.

Definition field_width (f : RecField) : nat :=
  match f with FLen => 4 | FType => 2 | FFlags => 2 | FUser => 8 end.

#[export] Instance RingMem_Bytes : RingMem MpscRing := {
  rd_meta := meta_;
  wr_lost v r := mkMpscRing (set_lost v (meta_ r)) (payload_ r);
  ld_head r := load_le 8 head_cursor (payload_ r);
  st_head v r := with_payload r (store_le 8 head_cursor v (payload_ r));
  ld_tail r := load_le 8 tail_cursor (payload_ r);
  st_tail v r := with_payload r (store_le 8 tail_cursor v (payload_ r));
  ld_seq i r := load_le 8 (slot_header i) (payload_ r);
  st_seq i v r := with_payload r (store_le 8 (slot_header i) v (payload_ r));
  ld_field f i r :=
    load_le (field_width f) (record_bytes (meta_ r) i + field_off f) (payload_ r);
  st_field f i v r :=
    with_payload r
      (store_le (field_width f) (record_bytes (meta_ r) i + field_off f) v (payload_ r));
  ld_body i n r := load_bytes (record_bytes (meta_ r) i + RECORD_HEADER_SIZE) n (payload_ r);
  st_body i bs r :=
    with_payload r
      (store_bytes (record_bytes (meta_ r) i + RECORD_HEADER_SIZE) bs (payload_ r));
}.

(** ** [MpscRing::initialize] and [MpscRing::bind]

    A span is its start address [data] and its bytes. *)

(** The loop that numbers the slots, from slot [i], [n] slots left. *)
Fixpoint init_slot_seqs (n : nat) (i : Z) (p : bytes) : option bytes :=
  match n with
  | O => Some p
  | S n' => p' ← store_le 8 (slot_header i) i p; init_slot_seqs n' (i + 1) p'
  end.

(** The result, and the metadata and payload left in memory. *)
Definition initialize (meta : RecordRingMeta) (data : Z) (payload : bytes)
    (record_max max_payload : Z) : option (Result MpscRing * RecordRingMeta * bytes) :=
  let stride := record_stride_for max_payload in
  let required := payload_size_for record_max stride in
  if ((required =? 0) || (Z.of_nat (length payload) <? required) ||
      negb (payload_aligned data))%bool
  then Some (Error CorruptedHeader, meta, payload)
  else
    let meta' :=
      mkRecordRingMeta record_max stride RING_PRODUCER_MPSC RING_CONSUMER_SINGLE 0 in
    let p0 := replicate (Z.to_nat required) 0 ++ drop (Z.to_nat required) payload in
    p1 ← store_le 8 head_cursor 0 p0;
    p2 ← store_le 8 tail_cursor 0 p1;
    p3 ← init_slot_seqs (Z.to_nat record_max) 0 p2;
    Some (Value (mkMpscRing meta' (take (Z.to_nat required) p3)), meta', p3).

Definition bind (meta : RecordRingMeta) (data : Z) (payload : bytes) : Result MpscRing :=
  if (negb (valid_meta meta) || negb (payload_aligned data))%bool then Error CorruptedHeader
  else
    let required := payload_size_for (record_max meta) (record_stride meta) in
    if ((required =? 0) || (Z.of_nat (length payload) <? required))%bool
    then Error CorruptedHeader
    else Value (mkMpscRing meta (take (Z.to_nat required) payload)).

(** ** Well-formed ring views *)

(** The exact size of a ring, before any wrap-around. *)
Definition ring_size (rmax stride : Z) : Z := 128 + 8 * rmax + rmax * stride.

Record ring_geom (r : MpscRing) : Prop := {
  rg_valid : valid_meta (meta_ r) = true;
  rg_max : 0 < record_max (meta_ r) < 2 ^ 32;
  rg_stride : RECORD_HEADER_SIZE ≤ record_stride (meta_ r) < 2 ^ 32;
  rg_size : Z.of_nat (length (payload_ r)) =
            ring_size (record_max (meta_ r)) (record_stride (meta_ r));
  rg_nowrap : ring_size (record_max (meta_ r)) (record_stride (meta_ r)) < 2 ^ 64;
  rg_bytes : is_bytes (payload_ r);
}.

(** ** Abstraction to cells *)

Definition abs_slot (r : MpscRing) (i : Z) : Slot :=
  let rd n off := default 0 (load_le n off (payload_ r)) in
  let base := record_bytes (meta_ r) i in
  mkSlot (rd 8%nat (slot_header i)) (rd 4%nat (base + 0)) (rd 2%nat (base + 4))
    (rd 2%nat (base + 6)) (rd 8%nat (base + 8))
    (default [] (load_bytes (base + RECORD_HEADER_SIZE)
                   (record_stride (meta_ r) - RECORD_HEADER_SIZE) (payload_ r))).

Definition abs_cells (r : MpscRing) : Cells :=
  mkCells (meta_ r) (default 0 (load_le 8 head_cursor (payload_ r)))
    (default 0 (load_le 8 tail_cursor (payload_ r)))
    ((λ i, abs_slot r (Z.of_nat i)) <$> seq 0 (Z.to_nat (record_max (meta_ r)))).

Definition ring_abs (r : MpscRing) (c : Cells) : Prop := ring_geom r ∧ c = abs_cells r.

(** Stores to the payload leave the metadata alone. *)
#[export] Instance RingMemGeom_Bytes : RingMemGeom MpscRing.
Proof.
  assert (H : ∀ r o r', with_payload r o = Some r' → meta_ r' = meta_ r)
    by by intros r [p|] r' [= <-].
  split; [done|..]; cbn [st_head st_tail st_seq st_field st_body rd_meta RingMem_Bytes]; eauto.
Qed.

(** ** Layout lemmas *)

Lemma record_area_offset_eq rmax :
  0 ≤ rmax < 2 ^ 32 → record_area_offset rmax = 128 + 8 * rmax.
Proof.
  intros. unfold record_area_offset, slot_meta_offset, CACHE_LINE_SIZE, SLOT_HEADER_SIZE,
    SHMFX_CACHE_LINE_BYTES, kRecordAreaAlign.
  rewrite (u64_small (8 * rmax)), u64_small by lia. rewrite align_up_8_id; [lia|lia|zlia].
Qed.

Lemma slot_header_eq i : slot_header i = 128 + 8 * i.
Proof. done. Qed.

Lemma record_bytes_eq meta i :
  0 < record_max meta < 2 ^ 32 → 0 ≤ i < record_max meta → 0 ≤ record_stride meta →
  ring_size (record_max meta) (record_stride meta) < 2 ^ 64 →
  record_bytes meta i = 128 + 8 * record_max meta + i * record_stride meta.
Proof.
  intros Hm Hi Hs Hn. unfold record_bytes, ring_size in *.
  rewrite record_area_offset_eq by lia. rewrite u64_small; [done|nia].
Qed.

Lemma payload_size_for_eq rmax stride :
  0 < rmax < 2 ^ 32 → RECORD_HEADER_SIZE ≤ stride < 2 ^ 32 →
  ring_size rmax stride < 2 ^ 64 →
  payload_size_for rmax stride = ring_size rmax stride.
Proof.
  intros Hm Hs Hn. unfold payload_size_for, ring_size, RECORD_HEADER_SIZE in *.
  destruct (Z.eqb_spec rmax 0); [lia|]. destruct (Z.ltb_spec stride 16); [lia|]. simpl.
  rewrite record_area_offset_eq by lia. rewrite (u64_small (rmax * stride)) by nia.
  rewrite u64_small; [done|nia].
Qed.

(** The slot regions of a well-formed ring: in bounds, records disjoint. *)
Lemma ring_regions r i :
  ring_geom r → 0 ≤ i < record_max (meta_ r) →
  128 ≤ slot_header i ∧ slot_header i + 8 ≤ 128 + 8 * record_max (meta_ r) ∧
  128 + 8 * record_max (meta_ r) ≤ record_bytes (meta_ r) i ∧
  record_bytes (meta_ r) i + record_stride (meta_ r) ≤ Z.of_nat (length (payload_ r)).
Proof.
  intros [_ Hm Hs Hsz Hn _] Hi. unfold RECORD_HEADER_SIZE in *.
  rewrite slot_header_eq, record_bytes_eq, Hsz by lia. unfold ring_size. split_and!; nia.
Qed.

Lemma record_bytes_disjoint r i j :
  ring_geom r → 0 ≤ i < record_max (meta_ r) → 0 ≤ j < record_max (meta_ r) → i ≠ j →
  record_bytes (meta_ r) i + record_stride (meta_ r) ≤ record_bytes (meta_ r) j ∨
  record_bytes (meta_ r) j + record_stride (meta_ r) ≤ record_bytes (meta_ r) i.
Proof.
  intros [_ Hm Hs Hsz Hn _] Hi Hj Hne. unfold RECORD_HEADER_SIZE in *.
  rewrite !record_bytes_eq by lia. destruct (decide (i < j)); [left|right]; nia.
Qed.

Lemma slot_header_disjoint i j : i ≠ j → slot_header i + 8 ≤ slot_header j ∨ slot_header j + 8 ≤ slot_header i.
Proof. rewrite !slot_header_eq. lia. Qed.

(** ** Stores and the abstraction *)

Lemma ring_geom_store r off bs p' :
  ring_geom r → is_bytes bs → store_bytes off bs (payload_ r) = Some p' →
  ring_geom (mkMpscRing (meta_ r) p').
Proof.
  intros [Hv Hm Hs Hsz Hn Hb] Hbs Hst. split; try done; simpl.
  - by rewrite (store_bytes_length _ _ _ _ Hst).
  - exact (store_bytes_is_bytes _ _ _ _ Hbs Hb Hst).
Qed.

(** A load outside the stored region is unchanged. *)
Lemma load_le_frame off bs p p' n off' :
  store_bytes off bs p = Some p' →
  off' + Z.of_nat n ≤ off ∨ off + Z.of_nat (length bs) ≤ off' →
  load_le n off' p' = load_le n off' p.
Proof.
  intros H Hd. unfold load_le. by rewrite (load_store_bytes_disjoint _ _ _ _ off' _ H) by lia.
Qed.

(** Rewrite every load of a payload after a store that does not touch it. *)
Ltac frame_loads H :=
  repeat first
    [ rewrite (load_le_frame _ _ _ _ _ _ H) by (rewrite ?length_le_bytes; lia)
    | rewrite (load_store_bytes_disjoint _ _ _ _ _ _ H) by (rewrite ?length_le_bytes; lia) ].

Lemma abs_slot_frame r off bs p' j :
  ring_geom r → 0 ≤ j < record_max (meta_ r) →
  store_bytes off bs (payload_ r) = Some p' →
  (off + Z.of_nat (length bs) ≤ slot_header j ∨ slot_header j + 8 ≤ off) →
  (off + Z.of_nat (length bs) ≤ record_bytes (meta_ r) j ∨
   record_bytes (meta_ r) j + record_stride (meta_ r) ≤ off) →
  abs_slot (mkMpscRing (meta_ r) p') j = abs_slot r j.
Proof.
  intros Hg Hj Hst Hh Hr. pose proof (rg_stride _ Hg) as Hs. unfold RECORD_HEADER_SIZE in Hs.
  unfold abs_slot. cbn [payload_ meta_]. unfold RECORD_HEADER_SIZE.
  frame_loads Hst. done.
Qed.

(** A store that changes slot [i] only is a [put_slot] on the cells. *)
Lemma abs_cells_put r p' i s :
  0 ≤ i < record_max (meta_ r) →
  load_le 8 head_cursor p' = load_le 8 head_cursor (payload_ r) →
  load_le 8 tail_cursor p' = load_le 8 tail_cursor (payload_ r) →
  (∀ j, 0 ≤ j < record_max (meta_ r) → j ≠ i →
        abs_slot (mkMpscRing (meta_ r) p') j = abs_slot r j) →
  abs_slot (mkMpscRing (meta_ r) p') i = s →
  abs_cells (mkMpscRing (meta_ r) p') = put_slot i s (abs_cells r).
Proof.
  intros Hi Hh Ht Hj Hs. unfold abs_cells, put_slot. cbn [payload_ meta_ c_meta c_head c_tail c_slots].
  rewrite Hh, Ht. f_equal. apply list_eq. intros k.
  destruct (decide (k < Z.to_nat (record_max (meta_ r)))%nat) as [Hk|Hk].
  - rewrite list_lookup_fmap, lookup_seq_lt by done. simpl.
    destruct (decide (Z.to_nat i = k)) as [<-|Hne].
    + rewrite list_lookup_insert_eq by (rewrite length_fmap, length_seq; lia).
      by rewrite Z2Nat.id by lia; rewrite Hs.
    + rewrite list_lookup_insert_ne by done. rewrite list_lookup_fmap, lookup_seq_lt by done.
      simpl. f_equal. apply Hj; lia.
  - rewrite !lookup_ge_None_2; [done| |]; rewrite ?length_insert, ?length_fmap, length_seq; lia.
Qed.

Lemma slot_at_abs r i :
  0 ≤ i < record_max (meta_ r) → slot_at i (abs_cells r) = Some (abs_slot r i).
Proof.
  intros Hi. apply slot_at_Some. split; [lia|]. simpl.
  rewrite list_lookup_fmap, lookup_seq_lt by lia. simpl. by rewrite Z2Nat.id by lia.
Qed.

Lemma load_le_default n off m :
  0 ≤ off → off + Z.of_nat n ≤ Z.of_nat (length m) →
  load_le n off m = Some (default 0 (load_le n off m)).
Proof. intros H1 H2. by destruct (load_le_is_Some n off m H1 H2) as [v ->]. Qed.

Lemma abs_slot_body_length r i :
  ring_geom r → 0 ≤ i < record_max (meta_ r) →
  Z.of_nat (length (sl_body (abs_slot r i))) = record_stride (meta_ r) - RECORD_HEADER_SIZE.
Proof.
  intros Hg Hi. pose proof (ring_regions _ _ Hg Hi) as (?&?&?&?). pose proof (rg_stride _ Hg) as Hs.
  pose proof (rg_max _ Hg). unfold abs_slot. cbn [sl_body]. unfold RECORD_HEADER_SIZE in *.
  destruct (load_bytes_is_Some (record_bytes (meta_ r) i + 16) (record_stride (meta_ r) - 16)
    (payload_ r)) as [bs E]; [lia|lia|lia|]. rewrite E. simpl. by apply load_bytes_length in E.
Qed.

(** Conversion compares slots field by field before it looks inside a load. *)
#[local] Strategy opaque [load_le load_bytes slot_header record_bytes].

(** Facts about slot [i] that every access needs. *)
Ltac slot_facts r i Hg Hi :=
  let H1 := fresh "Hreg" in let H2 := fresh "Hst" in let H3 := fresh "Hmx" in
  pose proof (ring_regions r i Hg Hi) as H1;
  pose proof (rg_stride r Hg) as H2; pose proof (rg_max r Hg) as H3;
  unfold RECORD_HEADER_SIZE in H2; destruct H1 as (?&?&?&?).

Lemma abs_st_seq r i v p' :
  ring_geom r → 0 ≤ i < record_max (meta_ r) →
  store_le 8 (slot_header i) v (payload_ r) = Some p' →
  abs_cells (mkMpscRing (meta_ r) p') = put_slot i (set_seq v (abs_slot r i)) (abs_cells r).
Proof.
  intros Hg Hi Hst. slot_facts r i Hg Hi. unfold store_le in Hst.
  apply abs_cells_put; [done| | | |].
  - unfold head_cursor. by frame_loads Hst.
  - unfold tail_cursor, CACHE_LINE_SIZE, SHMFX_CACHE_LINE_BYTES. by frame_loads Hst.
  - intros j Hj Hne. slot_facts r j Hg Hj. pose proof (slot_header_disjoint i j).
    eapply abs_slot_frame; [done|done|exact Hst| |]; rewrite length_le_bytes; lia.
  - unfold abs_slot, set_seq. cbn [payload_ meta_ sl_seq sl_len sl_type sl_flags sl_user sl_body].
    rewrite (load_store_le_same 8 _ _ _ _ Hst). unfold RECORD_HEADER_SIZE.
    frame_loads Hst. done.
Qed.

(** The value a field keeps of what is stored into it. *)
Definition field_wrap (f : RecField) (v : Z) : Z :=
  match f with FLen => u32 v | FType => u16 v | FFlags => u16 v | FUser => u64 v end.

Lemma field_wrap_eq f v : v mod 2 ^ (8 * Z.of_nat (field_width f)) = field_wrap f v.
Proof. by destruct f. Qed.

Lemma abs_st_field r f i v p' :
  ring_geom r → 0 ≤ i < record_max (meta_ r) →
  store_le (field_width f) (record_bytes (meta_ r) i + field_off f) v (payload_ r) = Some p' →
  abs_cells (mkMpscRing (meta_ r) p') = put_slot i (set_field f v (abs_slot r i)) (abs_cells r).
Proof.
  intros Hg Hi Hst. slot_facts r i Hg Hi. unfold store_le in Hst.
  assert (Hf : 0 ≤ field_off f ∧ field_off f + Z.of_nat (field_width f) ≤ 16) by (destruct f; simpl; lia).
  apply abs_cells_put; [done| | | |].
  - unfold head_cursor. by frame_loads Hst.
  - unfold tail_cursor, CACHE_LINE_SIZE, SHMFX_CACHE_LINE_BYTES. by frame_loads Hst.
  - intros j Hj Hne. slot_facts r j Hg Hj. pose proof (record_bytes_disjoint r i j Hg Hi Hj).
    eapply abs_slot_frame; [done|done|exact Hst| |]; rewrite length_le_bytes; lia.
  - unfold abs_slot. cbn [payload_ meta_]. pose proof (load_store_le_same _ _ _ _ _ Hst) as Hsame. rewrite field_wrap_eq in Hsame.
    destruct f; cbn [field_off field_width field_wrap set_field sl_seq sl_len sl_type sl_flags sl_user sl_body] in *;
      rewrite Hsame; unfold RECORD_HEADER_SIZE; frame_loads Hst; done.
Qed.

Lemma abs_st_body r i bs p' :
  ring_geom r → 0 ≤ i < record_max (meta_ r) →
  Z.of_nat (length bs) ≤ record_stride (meta_ r) - RECORD_HEADER_SIZE →
  store_bytes (record_bytes (meta_ r) i + RECORD_HEADER_SIZE) bs (payload_ r) = Some p' →
  abs_cells (mkMpscRing (meta_ r) p') = put_slot i (set_body bs (abs_slot r i)) (abs_cells r).
Proof.
  intros Hg Hi Hlen Hst. slot_facts r i Hg Hi. unfold RECORD_HEADER_SIZE in *.
  apply abs_cells_put; [done| | | |].
  - unfold head_cursor. by frame_loads Hst.
  - unfold tail_cursor, CACHE_LINE_SIZE, SHMFX_CACHE_LINE_BYTES. by frame_loads Hst.
  - intros j Hj Hne. slot_facts r j Hg Hj. pose proof (record_bytes_disjoint r i j Hg Hi Hj).
    eapply abs_slot_frame; [done|done|exact Hst| |]; lia.
  - unfold abs_slot, set_body. cbn [payload_ meta_ sl_seq sl_len sl_type sl_flags sl_user sl_body].
    unfold RECORD_HEADER_SIZE. frame_loads Hst. f_equal.
    apply (load_bytes_overwrite _ _ _ _ _ Hst); lia.
Qed.

(** ** The simulation *)

Lemma abs_st_head r v p' :
  ring_geom r → store_le 8 head_cursor v (payload_ r) = Some p' →
  abs_cells (mkMpscRing (meta_ r) p') =
  mkCells (meta_ r) (u64 v) (c_tail (abs_cells r)) (c_slots (abs_cells r)).
Proof.
  intros Hg Hst. unfold abs_cells. cbn [payload_ meta_ c_tail c_slots].
  rewrite (load_store_le_same _ _ _ _ _ Hst). unfold store_le, head_cursor in Hst.
  unfold tail_cursor, CACHE_LINE_SIZE, SHMFX_CACHE_LINE_BYTES. frame_loads Hst. f_equal.
  apply list_fmap_ext. intros k j Hj%lookup_seq. pose proof (rg_max _ Hg).
  assert (Hjr : 0 ≤ Z.of_nat j < record_max (meta_ r)) by lia. slot_facts r (Z.of_nat j) Hg Hjr.
  eapply abs_slot_frame; [done|lia|exact Hst| |]; rewrite length_le_bytes; lia.
Qed.

Lemma abs_st_tail r v p' :
  ring_geom r → store_le 8 tail_cursor v (payload_ r) = Some p' →
  abs_cells (mkMpscRing (meta_ r) p') =
  mkCells (meta_ r) (c_head (abs_cells r)) (u64 v) (c_slots (abs_cells r)).
Proof.
  intros Hg Hst. unfold abs_cells. cbn [payload_ meta_ c_head c_slots].
  rewrite (load_store_le_same _ _ _ _ _ Hst).
  unfold store_le, tail_cursor, CACHE_LINE_SIZE, SHMFX_CACHE_LINE_BYTES in Hst.
  unfold head_cursor. frame_loads Hst. f_equal.
  apply list_fmap_ext. intros k j Hj%lookup_seq. pose proof (rg_max _ Hg).
  assert (Hjr : 0 ≤ Z.of_nat j < record_max (meta_ r)) by lia. slot_facts r (Z.of_nat j) Hg Hjr.
  eapply abs_slot_frame; [done|lia|exact Hst| |]; rewrite length_le_bytes; lia.
Qed.

Lemma ring_len r : ring_geom r → 128 ≤ Z.of_nat (length (payload_ r)).
Proof.
  intros [_ Hm Hs Hsz _ _]. rewrite Hsz. unfold ring_size, RECORD_HEADER_SIZE in *. nia.
Qed.

(** A store of the bytes and its counterpart on the cells lead to related memories. *)
Lemma sim_store r off bs c' :
  ring_geom r → is_bytes bs → 0 ≤ off →
  off + Z.of_nat (length bs) ≤ Z.of_nat (length (payload_ r)) →
  (∀ p', store_bytes off bs (payload_ r) = Some p' → c' = abs_cells (mkMpscRing (meta_ r) p')) →
  option_Forall2 ring_abs (with_payload r (store_bytes off bs (payload_ r))) (Some c').
Proof.
  intros Hg Hbs H0 Hl Habs. destruct (store_bytes_is_Some off bs (payload_ r) H0 Hl) as [p' E].
  rewrite E. constructor. split; [by eapply ring_geom_store|]. by apply Habs.
Qed.

Lemma sim_ld_body_abs i n r :
  ring_geom r → 0 ≤ i < record_max (meta_ r) →
  0 ≤ n ≤ record_stride (meta_ r) - RECORD_HEADER_SIZE →
  ld_body i n r = ld_body i n (abs_cells r).
Proof.
  intros Hg Hi Hn. cbn [ld_body RingMem_Bytes RingMem_Cells]. rewrite slot_at_abs by done.
  cbn [mbind option_bind]. rewrite (abs_slot_body_length _ _ Hg Hi), bool_decide_true by done.
  slot_facts r i Hg Hi. unfold abs_slot. cbn [sl_body]. unfold RECORD_HEADER_SIZE in *.
  set (off := record_bytes (meta_ r) i + 16).
  destruct (load_bytes_is_Some off (record_stride (meta_ r) - 16) (payload_ r)) as [x Ex];
    [unfold off; lia..|].
  destruct (load_bytes_is_Some off n (payload_ r)) as [y Ey]; [unfold off; lia..|].
  rewrite Ex, Ey. simpl. apply load_bytes_Some in Ex as (_&_&_&->), Ey as (_&_&_&->).
  f_equal. rewrite take_take. f_equal. lia.
Qed.

Lemma ld_field_abs f i r :
  ring_geom r → 0 ≤ i < record_max (meta_ r) → ld_field f i r = ld_field f i (abs_cells r).
Proof.
  intros Hg Hi. cbn [ld_field RingMem_Bytes RingMem_Cells]. rewrite slot_at_abs by done.
  slot_facts r i Hg Hi. cbn [fmap option_fmap option_map].
  destruct f; cbn [field_off field_width get_field abs_slot sl_len sl_type sl_flags sl_user];
    apply load_le_default; lia.
Qed.

Lemma abs_slot_typed r i f : ring_geom r → 0 ≤ get_field f (abs_slot r i).
Proof.
  intros Hg. assert (∀ n off, 0 ≤ default 0 (load_le n off (payload_ r))) as H.
  { intros n off. destruct (load_le n off (payload_ r)) as [v|] eqn:E; [|done].
    apply (load_le_range _ _ _ _ (rg_bytes _ Hg) E). }
  destruct f; apply H.
Qed.

#[export] Instance RingMemSim_abs : RingMemSim ring_abs.
Proof.
  split.
  - by intros r c [_ ->].
  - intros v r c [Hg ->]. split; [destruct Hg; by split|]. done.
  - intros r c [Hg ->]. pose proof (ring_len _ Hg). apply load_le_default; unfold head_cursor; lia.
  - intros v r c [Hg ->]. pose proof (ring_len _ Hg).
    apply sim_store; [done|apply le_bytes_is_bytes|done|rewrite length_le_bytes; unfold head_cursor; lia|].
    intros p' E. symmetry. by apply abs_st_head.
  - intros r c [Hg ->]. pose proof (ring_len _ Hg). unfold tail_cursor, CACHE_LINE_SIZE, SHMFX_CACHE_LINE_BYTES in *.
    cbn [ld_tail RingMem_Bytes]. apply load_le_default; unfold tail_cursor, CACHE_LINE_SIZE, SHMFX_CACHE_LINE_BYTES; lia.
  - intros v r c [Hg ->]. pose proof (ring_len _ Hg).
    apply sim_store; [done|apply le_bytes_is_bytes|done|rewrite length_le_bytes; unfold tail_cursor, CACHE_LINE_SIZE, SHMFX_CACHE_LINE_BYTES; lia|].
    intros p' E. symmetry. by apply abs_st_tail.
  - intros i r c [Hg ->] Hi. cbn [ld_seq RingMem_Bytes RingMem_Cells]. slot_facts r i Hg Hi.
    rewrite slot_at_abs by done. apply load_le_default; lia.
  - intros i v r c [Hg ->] Hi. slot_facts r i Hg Hi. cbn [st_seq RingMem_Bytes RingMem_Cells].
    rewrite (upd_slot_ok _ _ _ _ (slot_at_abs _ _ Hi)).
    apply sim_store; [done|apply le_bytes_is_bytes|lia|rewrite length_le_bytes; lia|].
    intros p' E. symmetry. by apply abs_st_seq.
  - intros f i r c [Hg ->] Hi. by apply ld_field_abs.
  - intros f i v r c [Hg ->] Hi. slot_facts r i Hg Hi. cbn [st_field RingMem_Bytes RingMem_Cells].
    rewrite (upd_slot_ok _ _ _ _ (slot_at_abs _ _ Hi)).
    assert (0 ≤ field_off f ∧ field_off f + Z.of_nat (field_width f) ≤ 16) by (destruct f; simpl; lia).
    apply sim_store; [done|apply le_bytes_is_bytes|lia|rewrite length_le_bytes; lia|].
    intros p' E. symmetry. by apply abs_st_field.
  - intros i n r c [Hg ->] Hi Hn. by apply sim_ld_body_abs.
  - intros i bs r c [Hg ->] Hbs Hi Hn. slot_facts r i Hg Hi. cbn [rd_meta RingMem_Cells abs_cells c_meta] in *.
    cbn [st_body RingMem_Bytes RingMem_Cells]. rewrite slot_at_abs by done. cbn [mbind option_bind].
    pose proof (abs_slot_body_length _ _ Hg Hi). unfold RECORD_HEADER_SIZE in *.
    rewrite bool_decide_true by lia. rewrite (upd_slot_ok _ _ _ _ (slot_at_abs _ _ Hi)).
    apply sim_store; [done|done|lia|lia|].
    intros p' E. symmetry. by apply abs_st_body.
  - intros r c [Hg ->]. destruct Hg. unfold RECORD_HEADER_SIZE in *. simpl. lia.
  - intros f i v r c [Hg ->] E. cbn [ld_field RingMem_Cells] in E.
    destruct (slot_at i (abs_cells r)) as [s|] eqn:Es; [|done]. injection E as <-.
    apply slot_at_Some in Es as [_ Es]. apply list_lookup_fmap_Some in Es as (j&->&_).
    by apply abs_slot_typed.
Qed.

#[local] Strategy transparent [load_le load_bytes slot_header record_bytes].

(** ** [initialize] *)

Lemma record_stride_for_eq mp :
  0 ≤ mp ≤ 2 ^ 32 - 80 →
  record_stride_for mp = (mp + 79) / 64 * 64 ∧
  RECORD_HEADER_SIZE + mp ≤ record_stride_for mp ≤ 2 ^ 32 - 64.
Proof.
  intros Hm. unfold record_stride_for, CACHE_LINE_SIZE, SHMFX_CACHE_LINE_BYTES, RECORD_HEADER_SIZE.
  rewrite (u64_small (16 + mp)), align_up_64_eq by lia.
  assert (0 ≤ (16 + mp + 63) / 64 * 64 ≤ 2 ^ 32 - 64) by zlia.
  rewrite u32_small by lia. split; [f_equal; f_equal; lia|]. zlia.
Qed.

Lemma record_stride_for_range mp :
  0 ≤ mp < 2 ^ 32 → 0 ≤ record_stride_for mp ≤ 2 ^ 32 - 64 ∧ record_stride_for mp mod 64 = 0.
Proof.
  intros Hm. unfold record_stride_for, CACHE_LINE_SIZE, SHMFX_CACHE_LINE_BYTES, RECORD_HEADER_SIZE.
  rewrite (u64_small (16 + mp)), align_up_64_eq by lia. unfold u32. zlia.
Qed.

(** The size of a ring with an aligned stride never wraps. *)
Lemma aligned_size_nowrap rmax stride :
  0 ≤ rmax < 2 ^ 32 → 0 ≤ stride ≤ 2 ^ 32 - 64 → ring_size rmax stride < 2 ^ 64.
Proof. intros. unfold ring_size. nia. Qed.

Lemma init_slot_seqs_ok n i p :
  0 ≤ i → i + Z.of_nat n < 2 ^ 64 → slot_header (i + Z.of_nat n) ≤ Z.of_nat (length p) →
  ∃ p', init_slot_seqs n i p = Some p' ∧ length p' = length p ∧ (is_bytes p → is_bytes p') ∧
    (∀ k off, 0 ≤ k → off + k ≤ slot_header i ∨ slot_header (i + Z.of_nat n) ≤ off →
              load_bytes off k p' = load_bytes off k p) ∧
    (∀ j, i ≤ j < i + Z.of_nat n → load_le 8 (slot_header j) p' = Some j).
Proof.
  setoid_rewrite slot_header_eq. revert i p.
  induction n as [|n IH]; intros i p Hi Hb Hl; cbn [init_slot_seqs].
  { exists p. split_and!; [done..|]. lia. }
  destruct (store_le_is_Some 8 (slot_header i) i p) as [p1 E1]; [rewrite slot_header_eq; lia..|].
  rewrite E1. cbn [mbind option_bind]. pose proof (store_bytes_length _ _ _ _ E1) as Hl1.
  destruct (IH (i + 1) p1) as (p'&E'&Hl'&Hby&Hfr&Hsq); [lia|lia|lia|].
  rewrite slot_header_eq in E1.
  exists p'. split_and!; [done|lia| | |].
  - intros H. apply Hby. exact (store_bytes_is_bytes _ _ _ _ (le_bytes_is_bytes _ _) H E1).
  - intros k off Hk Hd. rewrite Hfr by lia.
    apply (load_store_bytes_disjoint _ _ _ _ _ _ E1); [done|]. rewrite length_le_bytes. lia.
  - intros j Hj. destruct (decide (j = i)) as [->|]; [|apply Hsq; lia].
    unfold load_le. rewrite Hfr by lia.
    change (load_le 8 (128 + 8 * i) p1 = Some i). rewrite (load_store_le_same _ _ _ _ _ E1).
    f_equal. apply Z.mod_small. lia.
Qed.

Lemma init_slot_seqs_length n i p p' :
  init_slot_seqs n i p = Some p' → length p' = length p.
Proof.
  revert i p. induction n as [|n IH]; intros i p; cbn [init_slot_seqs]; [by intros [= ->]|].
  destruct (store_le 8 (slot_header i) i p) as [p1|] eqn:E; [|done]. cbn [mbind option_bind].
  intros ->%IH. exact (store_bytes_length _ _ _ _ E).
Qed.

Lemma le_int_zeros n : le_int (replicate n 0) = 0.
Proof. induction n as [|n IH]; simpl; [done|]. by rewrite IH. Qed.

Lemma load_zeros k (rest : bytes) off n :
  0 ≤ off → 0 ≤ n → off + n ≤ Z.of_nat k →
  load_bytes off n (replicate k 0 ++ rest) = Some (replicate (Z.to_nat n) 0).
Proof.
  intros. apply load_bytes_Some. rewrite length_app, length_replicate. split_and!; [lia..|].
  rewrite drop_app_le by (rewrite length_replicate; lia). rewrite drop_replicate.
  rewrite take_app_le by (rewrite length_replicate; lia). rewrite take_replicate. f_equal. lia.
Qed.

Lemma load_bytes_take off n k m :
  off + n ≤ Z.of_nat k → (k ≤ length m)%nat → load_bytes off n (take k m) = load_bytes off n m.
Proof.
  intros Hk Hm. unfold load_bytes. rewrite length_take, Nat.min_l by lia.
  destruct (decide (0 ≤ off ∧ 0 ≤ n)); [|by rewrite !bool_decide_false by lia].
  rewrite !bool_decide_true by lia. f_equal. apply list_eq. intros i. rewrite !lookup_take.
  case_decide; [|done]. rewrite !lookup_drop. apply lookup_take_lt. lia.
Qed.

(** What the stores of [initialize] leave behind, starting from a zeroed span. *)
Record initialized (rmax required : Z) (p3 : bytes) : Prop := {
  in_length : required ≤ Z.of_nat (length p3);
  in_bytes : is_bytes p3;
  in_head : load_le 8 head_cursor p3 = Some 0;
  in_tail : load_le 8 tail_cursor p3 = Some 0;
  in_seq j : 0 ≤ j < rmax → load_le 8 (slot_header j) p3 = Some j;
  in_zero off k : 128 + 8 * rmax ≤ off → 0 ≤ k → off + k ≤ required →
    load_bytes off k p3 = Some (replicate (Z.to_nat k) 0);
}.

Lemma initialize_stores rmax required (rest : bytes) :
  0 < rmax < 2 ^ 32 → 128 + 8 * rmax ≤ required → is_bytes rest →
  ∃ p1 p2 p3,
    store_le 8 head_cursor 0 (replicate (Z.to_nat required) 0 ++ rest) = Some p1 ∧
    store_le 8 tail_cursor 0 p1 = Some p2 ∧
    init_slot_seqs (Z.to_nat rmax) 0 p2 = Some p3 ∧
    length p3 = length (replicate (Z.to_nat required) 0 ++ rest) ∧ initialized rmax required p3.
Proof.
  intros Hm Hr Hrest. set (p0 := replicate (Z.to_nat required) 0 ++ rest).
  assert (Hl0 : required ≤ Z.of_nat (length p0))
    by (unfold p0; rewrite length_app, length_replicate; lia).
  assert (Hb0 : is_bytes p0)
    by (apply Forall_app_2; [by apply Forall_replicate|done]).
  destruct (store_le_is_Some 8 head_cursor 0 p0) as [p1 E1]; [unfold head_cursor; lia..|].
  pose proof (store_bytes_length _ _ _ _ E1) as Hl1.
  destruct (store_le_is_Some 8 tail_cursor 0 p1) as [p2 E2];
    [unfold tail_cursor, CACHE_LINE_SIZE, SHMFX_CACHE_LINE_BYTES; lia..|].
  pose proof (store_bytes_length _ _ _ _ E2) as Hl2.
  destruct (init_slot_seqs_ok (Z.to_nat rmax) 0 p2) as (p3&E3&Hl3&Hb3&Hfr&Hsq);
    [lia|lia|rewrite slot_header_eq; lia|].
  pose proof (store_bytes_is_bytes _ _ _ _ (le_bytes_is_bytes _ _) Hb0 E1) as Hb1.
  pose proof (store_bytes_is_bytes _ _ _ _ (le_bytes_is_bytes _ _) Hb1 E2) as Hb2.
  rewrite !slot_header_eq in Hfr. unfold store_le, head_cursor in E1.
  unfold store_le, tail_cursor, CACHE_LINE_SIZE, SHMFX_CACHE_LINE_BYTES in E2.
  exists p1, p2, p3. split_and!; [done..|congruence|]. split; [lia|auto| | | |].
  - unfold load_le, head_cursor. rewrite Hfr by lia.
    rewrite (load_store_bytes_disjoint _ _ _ _ _ _ E2) by (rewrite ?length_le_bytes; lia).
    by rewrite (load_store_bytes_same _ _ _ _ _ E1) by (by rewrite length_le_bytes).
  - unfold load_le, tail_cursor, CACHE_LINE_SIZE, SHMFX_CACHE_LINE_BYTES. rewrite Hfr by lia.
    by rewrite (load_store_bytes_same _ _ _ _ _ E2) by (by rewrite length_le_bytes).
  - intros j Hj. apply Hsq. lia.
  - intros off k Ho Hk Hok. rewrite Hfr by lia.
    rewrite (load_store_bytes_disjoint _ _ _ _ _ _ E2) by (rewrite ?length_le_bytes; lia).
    rewrite (load_store_bytes_disjoint _ _ _ _ _ _ E1) by (rewrite ?length_le_bytes; lia).
    apply load_zeros; lia.
Qed.

(** Such memory abstracts to the initial cells. *)
Lemma initialized_abs rmax stride p3 :
  0 < rmax < 2 ^ 32 → RECORD_HEADER_SIZE ≤ stride < 2 ^ 32 → ring_size rmax stride < 2 ^ 64 →
  initialized rmax (ring_size rmax stride) p3 →
  ring_abs (mkMpscRing (init_meta rmax stride) (take (Z.to_nat (ring_size rmax stride)) p3))
    (init_cells rmax stride).
Proof.
  intros Hm Hs Hn [Hl Hb Hh Ht Hsq Hz].
  assert (Hr : 128 + 8 * rmax ≤ ring_size rmax stride)
    by (unfold ring_size, RECORD_HEADER_SIZE in *; nia).
  set (req := ring_size rmax stride) in *.
  assert (Htk : ∀ off n, off + n ≤ req → load_bytes off n (take (Z.to_nat req) p3) = load_bytes off n p3).
  { intros. apply load_bytes_take; lia. }
  assert (Hg : ring_geom (mkMpscRing (init_meta rmax stride) (take (Z.to_nat req) p3))).
  { split; simpl; try done.
    - unfold valid_meta, RECORD_HEADER_SIZE in *. simpl.
      destruct (Z.eqb_spec rmax 0); [lia|]. destruct (Z.leb_spec 16 stride); [done|lia].
    - rewrite length_take. fold req. lia.
    - by apply Forall_take. }
  split; [done|]. unfold init_cells, abs_cells. cbn [meta_ payload_ init_meta record_max].
  unfold load_le, head_cursor, tail_cursor, CACHE_LINE_SIZE, SHMFX_CACHE_LINE_BYTES in *.
  rewrite !Htk, Hh, Ht by lia. simpl default. f_equal.
  apply list_fmap_ext. intros k j Hj%lookup_seq.
  assert (Hjr : 0 ≤ Z.of_nat j < rmax) by lia.
  destruct (ring_regions _ (Z.of_nat j) Hg Hjr) as (_&H1&H2&H3). cbn [meta_ payload_ init_meta record_max record_stride] in *.
  rewrite length_take in H3. unfold abs_slot, init_slot. cbn [meta_ payload_].
  unfold load_le, RECORD_HEADER_SIZE in *. cbn [record_stride init_meta].
  rewrite !Htk by lia. rewrite Hsq by lia. rewrite !Hz by lia.
  cbn [fmap option_fmap option_map default from_option]. by rewrite !le_int_zeros.
Qed.

(** ** Properties of the byte ring *)

Lemma initialize_success meta data payload rmax mp :
  0 < rmax < 2 ^ 32 → 0 ≤ mp < 2 ^ 32 → is_bytes payload → payload_aligned data = true →
  record_stride_for mp ≠ 0 →
  payload_size_for rmax (record_stride_for mp) ≤ Z.of_nat (length payload) →
  ∃ r p', initialize meta data payload rmax mp =
            Some (Value r, init_meta rmax (record_stride_for mp), p') ∧
          ring_abs r (init_cells rmax (record_stride_for mp)) ∧ length p' = length payload.
Proof.
  intros Hm Hp Hb Ha Hs Hl. pose proof (record_stride_for_range mp Hp) as [Hsr Hs64].
  assert (Hs16 : RECORD_HEADER_SIZE ≤ record_stride_for mp < 2 ^ 32)
    by (unfold RECORD_HEADER_SIZE; zlia).
  pose proof (aligned_size_nowrap rmax (record_stride_for mp) ltac:(lia) ltac:(lia)) as Hn.
  unfold initialize. cbv zeta.
  rewrite (payload_size_for_eq rmax (record_stride_for mp)) in * by done.
  assert (Hr : 128 + 8 * rmax ≤ ring_size rmax (record_stride_for mp))
    by (unfold ring_size, RECORD_HEADER_SIZE in *; nia).
  set (stride := record_stride_for mp) in *. set (req := ring_size rmax stride) in *.
  destruct (Z.eqb_spec req 0); [lia|]. destruct (Z.ltb_spec (Z.of_nat (length payload)) req); [lia|].
  rewrite Ha. cbn [orb negb].
  destruct (initialize_stores rmax req (drop (Z.to_nat req) payload)) as (p1&p2&p3&E1&E2&E3&Hl3&Hin);
    [done|done|by apply Forall_drop|].
  rewrite E1. cbn [mbind option_bind]. rewrite E2. cbn [mbind option_bind]. rewrite E3.
  cbn [mbind option_bind]. do 2 eexists. split_and!; [done| |].
  - by apply initialized_abs.
  - rewrite Hl3, length_app, length_replicate, length_drop. lia.
Qed.
