(* ===== verification/RingProps.v ===== *)
(** * Properties of the record ring

    The theorems about the ring as a client sees it: what [initialize] and [bind] accept, that
    any sequence of pushes and pops on an initialized ring behaves as a bounded FIFO queue, what
    [drain_batch] delivers, and the corners where the code does not keep its contract (a
    one-record ring, the wrap-around of the stride and of the required size). *)

From S2P Require Import Prelude Types Sync RingMem RingCells RingBytes.

(** ** The drain specification *)

(** Pop at most [n] records and hand each to the callback until it says stop. *)
Fixpoint fifo_drain {S : Type} (callback : S → PoppedRecord → bytes → bool * S)
    (n : nat) (scratch : bytes) (s : S) (q : Fifo) : Z * S * bytes * Fifo :=
  match n, f_queue q with
  | Datatypes.S n', msg :: ms =>
      let '(record, scratch') := popped msg scratch in
      let '(continue, s') :=
        callback s record (take (Z.to_nat (p_copied_size record)) scratch') in
      let q' := mkFifo ms (f_lost q) in
      if continue then
        let '(drained, s'', scratch'', q'') := fifo_drain callback n' scratch' s' q' in
        (1 + drained, s'', scratch'', q'')
      else (1, s', scratch', q')
  | _, _ => (0, s, scratch, q)
  end.

Lemma length_popped msg out : length (popped msg out).2 = length out.
Proof. simpl. rewrite length_app, length_take, length_drop. lia. Qed.

Lemma drain_batch_fifo {S} (cb : S → PoppedRecord → bytes → bool * S) n scratch s c q :
  ring_rep c q → ring_bounded c → Z.of_nat (length scratch) < 2 ^ 32 →
  let r := fifo_drain cb n scratch s q in
  ∃ c', drain_batch cb n scratch s c = Some (r.1, c') ∧ ring_rep c' r.2.
Proof.
  revert scratch s c q. induction n as [|n IH]; intros scratch s c q Hr Hb Hl;
    cbn [drain_batch fifo_drain fst snd]; [eauto|].
  destruct (try_pop_fifo scratch c q Hr Hb Hl) as (c1&E1&Hr1&Ht1&Hm1&_).
  rewrite E1. cbn [mbind option_bind]. unfold fifo_pop in *.
  destruct q as [[|msg ms] lost]; cbn [f_queue f_lost fst snd] in *; [eauto|].
  destruct (popped msg scratch) as [record scratch'] eqn:Ep.
  assert (Hl' : Z.of_nat (length scratch') < 2 ^ 32)
    by (rewrite <-(length_popped msg scratch), Ep in Hl; exact Hl).
  destruct (cb s record _) as [[] s'] eqn:Ecb; cbn [fst snd]; [|eauto].
  destruct (IH scratch' s' c1 (mkFifo ms lost) Hr1) as (c2&E2&Hr2);
    [unfold ring_bounded in *; lia|done|].
  rewrite E2. cbn [mbind option_bind].
  destruct (fifo_drain cb n scratch' s' (mkFifo ms lost)) as [[[d s''] scratch''] q''].
  cbn [fst snd] in *. eauto.
Qed.

(** ** A ring that has been initialized and used *)

(** The memory of a ring that represents a queue, with room before the positions overflow. *)
Definition ring_queue (r : MpscRing) (q : Fifo) : Prop :=
  ring_geom r ∧ ring_rep (abs_cells r) q.

Lemma ring_queue_abs r q : ring_queue r q → ring_abs r (abs_cells r).
Proof. by intros [Hg _]. Qed.

Lemma initialize_queue meta data payload rmax mp :
  2 ≤ rmax < 2 ^ 32 → 0 ≤ mp < 2 ^ 32 → is_bytes payload → payload_aligned data = true →
  record_stride_for mp ≠ 0 →
  payload_size_for rmax (record_stride_for mp) ≤ Z.of_nat (length payload) →
  ∃ r p', initialize meta data payload rmax mp =
            Some (Value r, init_meta rmax (record_stride_for mp), p') ∧
          ring_queue r (mkFifo [] 0) ∧ c_tail (abs_cells r) = 0 ∧
          meta_ r = init_meta rmax (record_stride_for mp).
Proof.
  intros Hm Hp Hb Ha Hs Hl.
  destruct (initialize_success meta data payload rmax mp) as (r&p'&E&[Hg Habs]&_); try done; [lia|].
  exists r, p'. pose proof (record_stride_for_range mp Hp).
  assert (meta_ r = init_meta rmax (record_stride_for mp))
    by exact (eq_sym (f_equal c_meta Habs)).
  split_and!; [done| |by rewrite <-Habs|done]. split; [done|]. rewrite <-Habs.
  apply init_cells_rep; [done|]. unfold RECORD_HEADER_SIZE. zlia.
Qed.

Lemma run_ops_queue spurious os r q :
  (∃ n, (n < MPSC_CAS_RETRY_BUDGET)%nat ∧ spurious n = false) →
  ring_queue r q → Forall op_typed os → Forall op_bytes os →
  c_tail (abs_cells r) + Z.of_nat (length os) + record_max (meta_ r) < 2 ^ 63 →
  let spec := fifo_run (record_max (meta_ r)) (record_stride (meta_ r)) os q in
  ∃ r', run_ops spurious os r = Some (spec.1, r') ∧ ring_queue r' spec.2.
Proof.
  intros Hsp [Hg Hrep] Hty Hby Hlen spec.
  destruct (run_ops_fifo spurious os _ _ Hsp Hrep Hty Hlen) as (c'&Ec&Hrep').
  pose proof (sim_run_ops spurious os r (abs_cells r) (conj Hg eq_refl) Hby) as Hsim.
  rewrite Ec in Hsim. inversion Hsim as [[o r'] [o' c''] [Eo [Hg' Habs]] Er|]; subst.
  cbn [fst snd] in *. subst. eexists. split; [done|]. by split.
Qed.

(** One push and one pop on a ring that represents a queue. *)
Lemma try_push_queue spurious ty fl us p r q :
  (∃ n, (n < MPSC_CAS_RETRY_BUDGET)%nat ∧ spurious n = false) →
  ring_queue r q → push_typed ty fl us → is_bytes p → ring_bounded (abs_cells r) →
  let spec := fifo_push (record_max (meta_ r)) (stored_msg (record_stride (meta_ r)) ty fl us p) q in
  ∃ r', try_push spurious ty fl us p r = Some (spec.1, r') ∧ ring_queue r' spec.2 ∧
        c_tail (abs_cells r') ≤ c_tail (abs_cells r) + 1 ∧
        record_max (meta_ r') = record_max (meta_ r) ∧ record_stride (meta_ r') = record_stride (meta_ r).
Proof.
  intros Hsp [Hg Hrep] Hty Hb Hbd spec.
  destruct (try_push_fifo spurious ty fl us p _ _ Hrep Hbd Hty Hsp) as (c'&Ec&Hrep'&Ht&Hm&Hs).
  pose proof (sim_try_push spurious ty fl us p r (abs_cells r) (conj Hg eq_refl) Hb) as Hsim.
  rewrite Ec in Hsim. inversion Hsim as [[o r'] [o' c''] [Eo [Hg' Habs]] Er|]; subst.
  cbn [fst snd] in *. subst. exists r'. by split_and!.
Qed.

Lemma try_pop_queue out r q :
  ring_queue r q → ring_bounded (abs_cells r) → Z.of_nat (length out) < 2 ^ 32 →
  ∃ r', try_pop out r = Some ((fifo_pop out q).1, r') ∧ ring_queue r' (fifo_pop out q).2 ∧
        c_tail (abs_cells r') = c_tail (abs_cells r) ∧
        record_max (meta_ r') = record_max (meta_ r) ∧ record_stride (meta_ r') = record_stride (meta_ r).
Proof.
  intros [Hg Hrep] Hbd Hl.
  destruct (try_pop_fifo out _ _ Hrep Hbd Hl) as (c'&Ec&Hrep'&Ht&Hm&Hs).
  pose proof (sim_try_pop out r (abs_cells r) (conj Hg eq_refl)) as Hsim.
  rewrite Ec in Hsim. inversion Hsim as [[o r'] [o' c''] [Eo [Hg' Habs]] Er|]; subst.
  cbn [fst snd] in *. subst. exists r'. by split_and!.
Qed.

(** The ring [initialize] returns is the beginning of the span it was given. *)
Lemma initialize_span meta data span rmax mp r meta' span' :
  initialize meta data span rmax mp = Some (Value r, meta', span') →
  r = mkMpscRing meta' (take (Z.to_nat (payload_size_for rmax (record_stride_for mp))) span') ∧
  length span' = length span.
Proof.
  unfold initialize. cbv zeta. set (P := payload_size_for rmax (record_stride_for mp)).
  destruct (_ || _)%bool eqn:Ec; [done|]. bool_prop.
  destruct (store_le 8 head_cursor 0 _) as [p1|] eqn:E1; [|done]. cbn [mbind option_bind].
  destruct (store_le 8 tail_cursor 0 p1) as [p2|] eqn:E2; [|done]. cbn [mbind option_bind].
  destruct (init_slot_seqs _ 0 p2) as [p3|] eqn:E3; [|done]. cbn [mbind option_bind].
  intros [= <- <- <-]. split; [done|].
  rewrite (init_slot_seqs_length _ _ _ _ E3), (store_bytes_length _ _ _ _ E2),
    (store_bytes_length _ _ _ _ E1), length_app, length_replicate, length_drop. lia.
Qed.

(** The hypothesis that some retry does not fail spuriously, for a run without failures. *)
Lemma no_spurious : ∃ n, (n < MPSC_CAS_RETRY_BUDGET)%nat ∧ (λ _ : nat, false) n = false.
Proof. exists 0%nat. split; [apply Nat.lt_0_succ|done]. Qed.

(** A small ring with two records in it. *)
Definition demo_ops : list ring_op := [OpPush 1 0 7 [1;2;3]; OpPush 2 0 8 [4;5]].

Definition demo_ring : MpscRing :=
  match initialize (init_meta 0 0) 4096 (replicate 464 0) 4 8 with
  | Some (Value r, _, _) =>
      match run_ops (λ _, false) demo_ops r with Some (_, r') => r' | None => r end
  | _ => mkMpscRing (init_meta 0 0) []
  end.

Lemma demo_ring_queue :
  ring_queue demo_ring (mkFifo [mkMsg 1 0 7 [1;2;3]; mkMsg 2 0 8 [4;5]] 0).
Proof.
  destruct (initialize_queue (init_meta 0 0) 4096 (replicate 464 0) 4 8)
    as (r&p'&E&Hq&Ht&Hm); [lia|lia|by apply Forall_replicate|done|by vm_compute|by vm_compute|].
  destruct (run_ops_queue (λ _, false) demo_ops r _ no_spurious Hq) as (r'&Er&Hq').
  - by repeat constructor.
  - repeat first [apply Forall_nil_2 | apply Forall_cons_2]; cbn [op_bytes]; solve_bytes.
  - by rewrite Ht, Hm.
  - unfold demo_ring. rewrite E, Er. rewrite Hm in Hq'. exact Hq'.
Qed.

(** ** Theorems *)

(** C2: on a ring set up by [initialize] with at least two records, any sequence of
    [try_push] and [try_pop] calls on the bytes of the segment behaves as a bounded FIFO queue:
    no call leaves the span, every result (records, flags, sizes, buffers, [RingFull]) is the
    queue's, and afterwards the bytes still represent the queue, loss counter included. *)
Theorem ring_implements_fifo spurious meta data payload rmax mp os :
  2 ≤ rmax < 2 ^ 32 → 0 ≤ mp < 2 ^ 32 → is_bytes payload → payload_aligned data = true →
  record_stride_for mp ≠ 0 →
  payload_size_for rmax (record_stride_for mp) ≤ Z.of_nat (length payload) →
  (∃ n, (n < MPSC_CAS_RETRY_BUDGET)%nat ∧ spurious n = false) →
  Forall op_typed os → Forall op_bytes os → Z.of_nat (length os) + rmax < 2 ^ 63 →
  let spec := fifo_run rmax (record_stride_for mp) os (mkFifo [] 0) in
  ∃ r meta' payload' r',
    initialize meta data payload rmax mp = Some (Value r, meta', payload') ∧
    run_ops spurious os r = Some (spec.1, r') ∧ ring_queue r' spec.2.
Proof.
  intros Hm Hp Hb Ha Hs Hl Hsp Hty Hby Hlen spec.
  destruct (initialize_queue meta data payload rmax mp) as (r&p'&E&Hq&Ht&Hmeta); try done.
  destruct (run_ops_queue spurious os r _ Hsp Hq Hty Hby) as (r'&Er&Hq');
    [rewrite Ht, Hmeta; simpl; lia|]. rewrite Hmeta in Er, Hq'. eauto 10.
Qed.

Lemma ring_implements_fifo_witness :
  let os := [OpPush 1 0 7 [1;2;3]; OpPush 2 0 8 (replicate 50 9); OpPush 3 0 9 []; OpPop [0;0]] in
  let spec := fifo_run 2 (record_stride_for 8) os (mkFifo [] 0) in
  ∃ r meta' payload' r',
    initialize (init_meta 0 0) 4096 (replicate 272 0) 2 8 = Some (Value r, meta', payload') ∧
    run_ops (λ _, false) os r = Some (spec.1, r') ∧ ring_queue r' spec.2.
Proof.
  apply ring_implements_fifo; [lia|lia| |done|by vm_compute|by vm_compute| | | |by vm_compute].
  - by apply Forall_replicate.
  - apply no_spurious.
  - by repeat constructor.
  - repeat first [apply Forall_nil_2 | apply Forall_cons_2]; cbn [op_bytes]; try done; solve_bytes.
Defined.

(** [drain_batch] on a ring that represents a queue hands the callback the oldest records
    in order, each with the bytes that fit the scratch buffer, at most [n] of them and none after
    the callback says stop; it returns how many it popped and the queue loses exactly those. *)
Theorem drain_batch_spec {S} (cb : S → PoppedRecord → bytes → bool * S) n scratch s r q :
  ring_queue r q → ring_bounded (abs_cells r) → Z.of_nat (length scratch) < 2 ^ 32 →
  let spec := fifo_drain cb n scratch s q in
  ∃ r', drain_batch cb n scratch s r = Some (spec.1, r') ∧ ring_queue r' spec.2.
Proof.
  intros [Hg Hrep] Hb Hl spec.
  destruct (drain_batch_fifo cb n scratch s _ _ Hrep Hb Hl) as (c'&Ec&Hrep').
  pose proof (sim_drain_batch cb n scratch s r (abs_cells r) (conj Hg eq_refl)) as Hsim.
  rewrite Ec in Hsim. inversion Hsim as [[o r'] [o' c''] [Eo [Hg' Habs]] Er|]; subst.
  cbn [fst snd] in *. subst. eexists. split; [done|]. by split.
Qed.


Lemma drain_batch_spec_witness :
  let cb := λ (s : list bytes) (_ : PoppedRecord) (b : bytes), (true, s ++ [b]) in
  let spec := fifo_drain cb 256 (replicate 8 0) [] (mkFifo [mkMsg 1 0 7 [1;2;3]; mkMsg 2 0 8 [4;5]] 0) in
  spec.1 = (2, [[1;2;3]; [4;5]], [4;5;3;0;0;0;0;0]) ∧
  ∃ r', drain_batch cb 256 (replicate 8 0) [] demo_ring = Some (spec.1, r') ∧ ring_queue r' spec.2.
Proof.
  split; [by vm_compute|].
  apply drain_batch_spec; [apply demo_ring_queue|by vm_compute|by vm_compute].
Defined.

(** [initialize] never leaves the span it is given. It succeeds exactly when the record
    count and the stride are nonzero, the span is 64-byte aligned and holds the required size;
    then the ring it returns is the empty ring of the requested geometry. Otherwise it reports
    [CorruptedHeader] and writes nothing. *)
Theorem initialize_result meta data payload rmax mp :
  0 ≤ rmax < 2 ^ 32 → 0 ≤ mp < 2 ^ 32 → is_bytes payload →
  let stride := record_stride_for mp in
  let accepts := rmax ≠ 0 ∧ stride ≠ 0 ∧ payload_aligned data = true ∧
                 payload_size_for rmax stride ≤ Z.of_nat (length payload) in
  (accepts ∧ ∃ r p', initialize meta data payload rmax mp =
                       Some (Value r, init_meta rmax stride, p') ∧
                     ring_abs r (init_cells rmax stride) ∧ length p' = length payload) ∨
  (¬ accepts ∧ initialize meta data payload rmax mp = Some (Error CorruptedHeader, meta, payload)).
Proof.
  intros Hm Hp Hb stride accepts. destruct (decide accepts) as [Hacc|Hacc]; [left|right].
  - split; [done|]. destruct Hacc as (H1&H2&H3&H4). apply initialize_success; try done. lia.
  - split; [done|]. unfold initialize. fold stride. cbv zeta.
    destruct (Z.eqb_spec (payload_size_for rmax stride) 0) as [|Hreq]; [done|].
    destruct (Z.ltb_spec (Z.of_nat (length payload)) (payload_size_for rmax stride)); [done|].
    destruct (payload_aligned data) eqn:Ha; [|done]. destruct Hacc. split_and!; try done.
    + intros ->. by apply Hreq.
    + intros E. apply Hreq. unfold payload_size_for. rewrite E. by destruct (rmax =? 0).
Qed.

Lemma initialize_result_witness :
  initialize (init_meta 0 0) 4096 (replicate 272 1) 2 (2 ^ 32 - 16) =
  Some (Error CorruptedHeader, init_meta 0 0, replicate 272 1).
Proof.
  destruct (initialize_result (init_meta 0 0) 4096 (replicate 272 1) 2 (2 ^ 32 - 16))
    as [[(_&H&_) _]|[_ H]]; [lia|lia|solve_bytes|by destruct H|done].
Defined.

(** The required size is the exact size of the layout. *)
Lemma bind_Value meta data payload r :
  bind meta data payload = Value r ↔
  valid_meta meta = true ∧ payload_aligned data = true ∧
  payload_size_for (record_max meta) (record_stride meta) ≠ 0 ∧
  payload_size_for (record_max meta) (record_stride meta) ≤ Z.of_nat (length payload) ∧
  r = mkMpscRing meta
        (take (Z.to_nat (payload_size_for (record_max meta) (record_stride meta))) payload).
Proof.
  unfold bind. cbv zeta. set (req := payload_size_for _ _).
  destruct (valid_meta meta); [|split; [done|by intros [? _]]].
  destruct (payload_aligned data); [|split; [done|by intros (_&?&_)]].
  cbn [negb orb]. destruct (Z.eqb_spec req 0); [split; [done|by intros (_&_&?&_)]|].
  destruct (Z.ltb_spec (Z.of_nat (length payload)) req); cbn [orb];
    [split; [done|intros (_&_&_&?&_); lia]|].
  split; [intros [= <-]; split_and!; done|by intros (_&_&_&_&->)].
Qed.

Definition meta_typed (meta : RecordRingMeta) : Prop :=
  0 ≤ record_max meta < 2 ^ 32 ∧ 0 ≤ record_stride meta < 2 ^ 32.

Lemma bind_geom meta data payload r :
  meta_typed meta → is_bytes payload →
  ring_size (record_max meta) (record_stride meta) < 2 ^ 64 →
  bind meta data payload = Value r → ring_geom r ∧ meta_ r = meta.
Proof.
  intros [Hm Hs] Hb Hn (Hv&Ha&Hne&Hle&->)%bind_Value. split; [|done].
  pose proof Hv as Hv'. unfold valid_meta in Hv'. bool_prop.
  rewrite payload_size_for_eq in * by lia.
  split; simpl; try done; [lia|lia| |by apply Forall_take].
  rewrite length_take. unfold ring_size, RECORD_HEADER_SIZE in *. lia.
Qed.

(** When the size of the layout the metadata describes does not overflow 64 bits, a ring
    that [bind] accepts is safe to index: every slot header lies between the cursors and the
    record area, every record lies in the span, and the headers and records of different slots do
    not overlap. *)
Theorem bind_layout meta data payload r i j :
  meta_typed meta → is_bytes payload →
  ring_size (record_max meta) (record_stride meta) < 2 ^ 64 →
  bind meta data payload = Value r →
  0 ≤ i < record_max meta → 0 ≤ j < record_max meta → i ≠ j →
  tail_cursor + CACHE_LINE_SIZE ≤ slot_header i ∧
  slot_header i + SLOT_HEADER_SIZE ≤ record_bytes meta j ∧
  record_bytes meta i + record_stride meta ≤ Z.of_nat (length (payload_ r)) ∧
  Z.of_nat (length (payload_ r)) ≤ Z.of_nat (length payload) ∧
  (slot_header i + SLOT_HEADER_SIZE ≤ slot_header j ∨
   slot_header j + SLOT_HEADER_SIZE ≤ slot_header i) ∧
  (record_bytes meta i + record_stride meta ≤ record_bytes meta j ∨
   record_bytes meta j + record_stride meta ≤ record_bytes meta i).
Proof.
  intros Ht Hb Hn Hbind Hi Hj Hne. destruct (bind_geom _ _ _ _ Ht Hb Hn Hbind) as [Hg Hmeta].
  apply bind_Value in Hbind as (_&_&_&_&Er). rewrite <-Hmeta in *.
  pose proof (ring_regions r i Hg Hi) as (?&?&?&?). pose proof (ring_regions r j Hg Hj) as (?&?&?&?).
  pose proof (record_bytes_disjoint r i j Hg Hi Hj Hne). pose proof (slot_header_disjoint i j Hne).
  assert (length (payload_ r) ≤ length payload)%nat
    by (rewrite Er; simpl; rewrite length_take; lia).
  unfold tail_cursor, CACHE_LINE_SIZE, SHMFX_CACHE_LINE_BYTES, SLOT_HEADER_SIZE in *.
  split_and!; first [done | lia].
Qed.

Lemma bind_layout_witness :
  ∃ r, bind (init_meta 4 64) 4096 (replicate 500 0) = Value r ∧
       record_bytes (init_meta 4 64) 3 + 64 ≤ Z.of_nat (length (payload_ r)).
Proof.
  eexists. split; [by vm_compute|].
  apply (bind_layout (init_meta 4 64) 4096 (replicate 500 0) _ 3 0);
    [done|solve_bytes|by vm_compute|by vm_compute|done|done|done].
Defined.

(** A ring that [initialize] set up binds, from the metadata and the bytes it left in
    memory, to the very ring [initialize] returned. *)
Theorem bind_initialize meta data payload rmax mp r meta' payload' :
  initialize meta data payload rmax mp = Some (Value r, meta', payload') →
  bind meta' data payload' = Value r.
Proof.
  intros E. destruct (initialize_span _ _ _ _ _ _ _ _ E) as [-> Hl]. unfold initialize in E. cbv zeta in E.
  set (stride := record_stride_for mp) in *. set (req := payload_size_for rmax stride) in *.
  destruct (Z.eqb_spec req 0) as [|Hreq]; [done|].
  destruct (Z.ltb_spec (Z.of_nat (length payload)) req); [done|].
  destruct (payload_aligned data) eqn:Ha; [|done].
  assert (Hmeta : meta' = init_meta rmax stride).
  { cbn [orb negb] in E. destruct (store_le 8 head_cursor 0 _) as [p1|]; [|done]. cbn [mbind option_bind] in E.
    destruct (store_le 8 tail_cursor 0 p1) as [p2|]; [|done]. cbn [mbind option_bind] in E.
    destruct (init_slot_seqs _ 0 p2); [|done]. injection E. intros _ <- _. reflexivity. }
  apply bind_Value. rewrite Hmeta. cbn [record_max record_stride init_meta]. fold req. rewrite Hl.
  split_and!; try done. unfold valid_meta. cbn. unfold req, payload_size_for in Hreq.
  destruct (rmax =? 0); [done|]. destruct (Z.ltb_spec stride RECORD_HEADER_SIZE); [done|].
  cbn [negb andb]. by destruct (Z.leb_spec RECORD_HEADER_SIZE stride); [|lia].
Qed.

Lemma bind_initialize_witness :
  ∃ r meta' payload', initialize (init_meta 0 0) 4096 (replicate 272 1) 2 8 =
    Some (Value r, meta', payload') ∧ bind meta' 4096 payload' = Value r.
Proof.
  do 3 eexists. split; [by vm_compute|].
  apply (bind_initialize (init_meta 0 0) 4096 (replicate 272 1) 2 8). by vm_compute.
Defined.

(** The 64-bit product in [payload_size_for] wraps for some metadata: [bind] accepts a
    124-byte span for a ring of 2^32 - 2 records, and the first push then leaves the span. *)
Theorem bind_size_overflow :
  let meta := mkRecordRingMeta (2 ^ 32 - 2) (2 ^ 32 - 6) RING_PRODUCER_MPSC RING_CONSUMER_SINGLE 0 in
  2 ^ 64 ≤ ring_size (record_max meta) (record_stride meta) ∧
  ∃ r, bind meta 4096 (replicate 124 0) = Value r ∧ try_push (λ _, false) 0 0 0 [] r = None.
Proof.
  split; [by vm_compute|]. eexists. split; [vm_compute; reflexivity|]. by vm_compute.
Qed.

(** The stride of a record holds the header and the requested payload exactly up to
    [max_payload = 2^32 - 80]; above it the 32-bit conversion wraps to a stride of 0 or 64. *)
Theorem record_stride_for_exact mp :
  0 ≤ mp < 2 ^ 32 →
  (mp ≤ 2 ^ 32 - 80 → record_stride_for mp mod CACHE_LINE_SIZE = 0 ∧
     RECORD_HEADER_SIZE + mp ≤ record_stride_for mp < RECORD_HEADER_SIZE + mp + CACHE_LINE_SIZE) ∧
  (2 ^ 32 - 80 < mp → record_stride_for mp = if mp <=? 2 ^ 32 - 16 then 0 else 64).
Proof.
  intros Hm. split; intros H.
  - destruct (record_stride_for_eq mp) as [E _]; [lia|]. rewrite E.
    unfold CACHE_LINE_SIZE, SHMFX_CACHE_LINE_BYTES, RECORD_HEADER_SIZE. zlia.
  - unfold record_stride_for, CACHE_LINE_SIZE, SHMFX_CACHE_LINE_BYTES, RECORD_HEADER_SIZE.
    rewrite (u64_small (16 + mp)), align_up_64_eq by lia. unfold u32.
    destruct (Z.leb_spec mp (2 ^ 32 - 16)); zlia.
Qed.

Lemma record_stride_for_exact_witness :
  record_stride_for (2 ^ 32 - 1) = 64 ∧ record_stride_for (2 ^ 32 - 16) = 0.
Proof.
  split; [apply (record_stride_for_exact (2 ^ 32 - 1)); lia|
          apply (record_stride_for_exact (2 ^ 32 - 16)); lia].
Defined.

(** A ring of one record does not keep the queue's contract: the sequence that marks its
    slot as published is also the one that marks it as free for the next lap, so every push
    succeeds, each overwrites the record before it, and no pop ever returns a record. *)
Theorem one_record_ring_loses :
  ∃ r meta' payload' r',
    initialize (init_meta 0 0) 4096 (replicate 200 0) 1 8 = Some (Value r, meta', payload') ∧
    run_ops (λ _, false)
      [OpPush 1 0 0 [1]; OpPush 2 0 0 [2]; OpPop (replicate 8 0); OpPush 3 0 0 [3]; OpPop []] r =
    Some ([OutPush (Value tt); OutPush (Value tt); OutPop None; OutPush (Value tt); OutPop None], r') ∧
    ring_lost_count r' = 0.
Proof.
  do 4 eexists. split; [vm_compute; reflexivity|]. split; [vm_compute; reflexivity|]. by vm_compute.
Qed.
