(* ===== verification/RingConc.v ===== *)
(** * The record ring under concurrency

    Any number of producers run [try_push] and one consumer runs [try_pop] on the same memory,
    interleaved access by access: every atomic load, store, fetch-add and compare-and-swap is a
    step, and so is every plain access to a record (each header field store, the body copy, the
    length read, the body read, the header read). The memory is the [RingMem] interface of
    [RingMem.v] and the accesses are the ones [try_push] and [try_pop] make there: a thread that
    runs alone computes exactly those functions ([try_push_solo], [try_pop_solo]). Interleavings
    are sequentially consistent; the release/acquire pairs of the source are not weakened.

    Ghost state records the messages in the order their positions were claimed, the pops in
    order, and the number of pushes that reported a full ring. *)

From S2P Require Import Prelude Types Sync RingMem RingCells RingBytes.

(** ** Threads *)

Record Args := mkArgs { a_type : Z; a_flags : Z; a_user : Z; a_payload : bytes }.

(** The plain stores of [write_record] in order, then the publishing store. *)
Inductive WStage := WLen | WType | WFlags | WUser | WBody | WPublish.

(** Program counters of a producer in [try_push]; the [nat] is the retries left. *)
Inductive PPc :=
  | PIdle
  | PStart (a : Args)
  | PLoadSeq (a : Args) (budget : nat) (pos : Z)
  | PCas (a : Args) (budget : nat) (pos : Z)
  | PReload (a : Args) (budget : nat)
  | PBump
  | PWrite (a : Args) (pos : Z) (st : WStage)
  | PRet (r : Result unit).

(** Program counters of the consumer in [try_pop]. *)
Inductive CPc :=
  | CIdle
  | CStart (out : bytes)
  | CLoadSeq (out : bytes) (pos : Z)
  | CReadLen (out : bytes) (pos : Z)
  | CReadBody (out : bytes) (pos size copied : Z)
  | CReadHdr (out : bytes) (pos size copied : Z) (body : bytes)
  | CFree (out : bytes) (pos : Z) (res : PoppedRecord * bytes)
  | CStoreHead (out : bytes) (pos : Z) (res : PoppedRecord * bytes)
  | CRet (r : option (PoppedRecord * bytes)).

Section machine.
Context {M : Type} `{!RingMem M}.

(** One access of a producer; [None] is undefined behaviour. *)
Definition prod_step (spurious : bool) (pc : PPc) (m : M) : option (PPc * M) :=
  match pc with
  | PIdle => Some (PIdle, m)
  | PStart a =>
      if negb (valid_meta (rd_meta m)) then Some (PRet (Error CorruptedHeader), m)
      else t ← ld_tail m; Some (PLoadSeq a MPSC_CAS_RETRY_BUDGET t, m)
  | PLoadSeq a O pos => Some (PBump, m)
  | PLoadSeq a (S b) pos =>
      seq ← ld_seq (slot_index pos m) m;
      diff ← s64_sub (s64 seq) (s64 pos);
      Some (if diff =? 0 then PCas a b pos else if diff <? 0 then PBump else PReload a b, m)
  | PCas a b pos =>
      r ← cas_tail spurious pos (u64 (pos + 1)) m;
      match r with
      | (true, _, m') => Some (PWrite a pos WLen, m')
      | (false, expected, m') => Some (PLoadSeq a b expected, m')
      end
  | PReload a b => t ← ld_tail m; Some (PLoadSeq a b t, m)
  | PBump => Some (PRet (Error RingFull), bump_lost m)
  | PWrite a pos WLen =>
      m' ← st_field FLen (slot_index pos m) (written_size (a_payload a) m) m;
      Some (PWrite a pos WType, m')
  | PWrite a pos WType =>
      m' ← st_field FType (slot_index pos m) (a_type a) m; Some (PWrite a pos WFlags, m')
  | PWrite a pos WFlags =>
      m' ← st_field FFlags (slot_index pos m) (stored_flags (a_flags a) (a_payload a) m) m;
      Some (PWrite a pos WUser, m')
  | PWrite a pos WUser =>
      m' ← st_field FUser (slot_index pos m) (a_user a) m; Some (PWrite a pos WBody, m')
  | PWrite a pos WBody =>
      m' ← st_body (slot_index pos m)
             (take (Z.to_nat (written_size (a_payload a) m)) (a_payload a)) m;
      Some (PWrite a pos WPublish, m')
  | PWrite a pos WPublish =>
      m' ← st_seq (slot_index pos m) (u64 (pos + 1)) m; Some (PRet (Value tt), m')
  | PRet _ => Some (PIdle, m)
  end.

(** One access of the consumer. *)
Definition cons_step (pc : CPc) (m : M) : option (CPc * M) :=
  match pc with
  | CIdle => Some (CIdle, m)
  | CStart out =>
      if negb (valid_meta (rd_meta m)) then Some (CRet None, m)
      else h ← ld_head m; Some (CLoadSeq out h, m)
  | CLoadSeq out pos =>
      seq ← ld_seq (slot_index pos m) m;
      Some (if negb (seq =? u64 (pos + 1)) then CRet None else CReadLen out pos, m)
  | CReadLen out pos =>
      len ← ld_field FLen (slot_index pos m) m;
      let size := Z.min len (max_payload m) in
      Some (CReadBody out pos size (u32 (Z.min (Z.of_nat (length out)) size)), m)
  | CReadBody out pos size copied =>
      body ← ld_body (slot_index pos m) copied m; Some (CReadHdr out pos size copied body, m)
  | CReadHdr out pos size copied body =>
      type ← ld_field FType (slot_index pos m) m;
      flags ← ld_field FFlags (slot_index pos m) m;
      user ← ld_field FUser (slot_index pos m) m;
      Some (CFree out pos (mkPoppedRecord type flags user size copied,
                           body ++ drop (Z.to_nat copied) out), m)
  | CFree out pos res =>
      m' ← st_seq (slot_index pos m) (u64 (pos + record_max (rd_meta m))) m;
      Some (CStoreHead out pos res, m')
  | CStoreHead out pos res => m' ← st_head (u64 (pos + 1)) m; Some (CRet (Some res), m')
  | CRet _ => Some (CIdle, m)
  end.

(** ** A thread alone computes [try_push] and [try_pop] *)

Definition prod_rel (x y : PPc * M) : Prop := ∃ sp, prod_step sp x.1 x.2 = Some y.
Definition cons_rel (x y : CPc * M) : Prop := cons_step x.1 x.2 = Some y.

Lemma prod_once sp pc m pc' m' y :
  prod_step sp pc m = Some (pc', m') → rtc prod_rel (pc', m') y → rtc prod_rel (pc, m) y.
Proof. intros E H. eapply rtc_l; [by exists sp|done]. Qed.

Lemma claim_loop_solo spurious budget retry a pos m c m' :
  claim_loop spurious budget retry pos m = Some (c, m') →
  match c with
  | Claimed p => rtc prod_rel (PLoadSeq a budget pos, m) (PWrite a p WLen, m')
  | SlotFull => rtc prod_rel (PLoadSeq a budget pos, m) (PRet (Error RingFull), m')
  | BudgetExhausted =>
      rtc prod_rel (PLoadSeq a budget pos, m) (PRet (Error RingFull), bump_lost m')
  end.
Proof.
  revert retry pos m. induction budget as [|b IH]; intros retry pos m; cbn [claim_loop].
  { intros [= <- <-]. apply (prod_once false _ _ PBump m); [done|].
    by apply (prod_once false _ _ (PRet (Error RingFull)) (bump_lost m)). }
  destruct (ld_seq _ m) as [sq|] eqn:Es; [|done]. cbn [mbind option_bind].
  destruct (s64_sub _ _) as [d|] eqn:Ed; [|done]. cbn [mbind option_bind]. intros H.
  assert (Hstep : ∀ y, rtc prod_rel
      (if d =? 0 then PCas a b pos else if d <? 0 then PBump else PReload a b, m) y →
      rtc prod_rel (PLoadSeq a (S b) pos, m) y).
  { intros y Hy. eapply (prod_once false); [|exact Hy]. cbn [prod_step]. rewrite Es.
    cbn [mbind option_bind]. by rewrite Ed. }
  destruct (d =? 0).
  - destruct (cas_tail _ _ _ m) as [[[[] e] m1]|] eqn:Ec; [| |done];
      cbn [mbind option_bind] in H.
    + injection H as <- <-. apply Hstep. eapply (prod_once (spurious retry)); [|done].
      cbn [prod_step]. by rewrite Ec.
    + specialize (IH _ _ _ H). destruct c; apply Hstep; (eapply (prod_once (spurious retry));
        [cbn [prod_step]; by rewrite Ec|done]).
  - destruct (d <? 0).
    + injection H as <- <-. apply Hstep. by eapply (prod_once false).
    + destruct (ld_tail m) as [t|] eqn:Et; [|done]. cbn [mbind option_bind] in H.
      specialize (IH _ _ _ H). destruct c; apply Hstep; (eapply (prod_once false);
        [cbn [prod_step]; by rewrite Et|done]).
Qed.

Context `{!RingMemGeom M}.

Lemma same_meta (m m' : M) :
  rd_meta m' = rd_meta m →
  (∀ pos, slot_index pos m' = slot_index pos m) ∧ (∀ p, written_size p m' = written_size p m) ∧
  (∀ fl p, stored_flags fl p m' = stored_flags fl p m).
Proof. intros E. unfold slot_index, written_size, stored_flags, max_payload. by rewrite E. Qed.

Lemma write_record_solo a pos m m' :
  write_record (a_type a) (a_flags a) (a_user a) (a_payload a) pos m = Some m' →
  rtc prod_rel (PWrite a pos WLen, m) (PRet (Value tt), m').
Proof.
  unfold write_record. cbv zeta. intros H.
  destruct (st_field FLen _ _ m) as [m1|] eqn:E1; [|done]. cbn [mbind option_bind] in H.
  destruct (st_field FType _ _ m1) as [m2|] eqn:E2; [|done]. cbn [mbind option_bind] in H.
  destruct (st_field FFlags _ _ m2) as [m3|] eqn:E3; [|done]. cbn [mbind option_bind] in H.
  destruct (st_field FUser _ _ m3) as [m4|] eqn:E4; [|done]. cbn [mbind option_bind] in H.
  destruct (st_body _ _ m4) as [m5|] eqn:E5; [|done]. cbn [mbind option_bind] in H.
  assert (G1 : rd_meta m1 = rd_meta m) by eauto using geom_field.
  assert (G2 : rd_meta m2 = rd_meta m) by by rewrite (geom_field _ _ _ _ _ E2).
  assert (G3 : rd_meta m3 = rd_meta m) by by rewrite (geom_field _ _ _ _ _ E3).
  assert (G4 : rd_meta m4 = rd_meta m) by by rewrite (geom_field _ _ _ _ _ E4).
  assert (G5 : rd_meta m5 = rd_meta m) by by rewrite (geom_body _ _ _ _ E5).
  eapply (prod_once false); [cbn [prod_step]; by rewrite E1|].
  destruct (same_meta m m1 G1) as (S1&_&_). destruct (same_meta m m2 G2) as (S2&_&F2).
  destruct (same_meta m m3 G3) as (S3&_&_). destruct (same_meta m m4 G4) as (S4&W4&_).
  destruct (same_meta m m5 G5) as (S5&_&_).
  eapply (prod_once false); [cbn [prod_step]; by rewrite S1, E2|].
  eapply (prod_once false); [cbn [prod_step]; by rewrite S2, F2, E3|].
  eapply (prod_once false); [cbn [prod_step]; by rewrite S3, E4|].
  eapply (prod_once false); [cbn [prod_step]; by rewrite S4, W4, E5|].
  eapply (prod_once false); [cbn [prod_step]; by rewrite S5, H|done].
Qed.

Lemma push_solo spurious a m r m' :
  try_push spurious (a_type a) (a_flags a) (a_user a) (a_payload a) m = Some (r, m') →
  rtc prod_rel (PStart a, m) (PRet r, m').
Proof.
  intros H.
  destruct (valid_meta (rd_meta m)) eqn:Hv.
  - assert (Hfirst : ∀ t y, ld_tail m = Some t →
      rtc prod_rel (PLoadSeq a MPSC_CAS_RETRY_BUDGET t, m) y → rtc prod_rel (PStart a, m) y).
    { intros t y Ht Hy. eapply (prod_once false); [|exact Hy]. cbn [prod_step].
      by rewrite Hv, Ht. }
    revert Hfirst H. unfold try_push. rewrite Hv. cbn [negb].
    generalize MPSC_CAS_RETRY_BUDGET as budget. intros budget Hfirst.
    destruct (ld_tail m) as [t|]; [|done]. cbn [mbind option_bind].
    destruct (claim_loop spurious budget 0 t m) as [[c m1]|] eqn:Ec; [|done].
    cbn [mbind option_bind]. apply (claim_loop_solo _ _ _ a) in Ec. intros H.
    eapply Hfirst; [done|]. destruct c; [|by injection H as <- <-..].
    destruct (write_record _ _ _ _ pos m1) as [m2|] eqn:Ew; [|done]. cbn [mbind option_bind] in H.
    injection H as <- <-. etrans; [exact Ec|]. by apply write_record_solo.
  - unfold try_push in H. rewrite Hv in H. cbn [negb] in H. injection H as <- <-.
    eapply (prod_once false); [cbn [prod_step]; by rewrite Hv|done].
Qed.

Lemma cons_once pc m pc' m' y :
  cons_step pc m = Some (pc', m') → rtc cons_rel (pc', m') y → rtc cons_rel (pc, m) y.
Proof. intros E H. eapply rtc_l; [exact E|done]. Qed.

Lemma pop_solo out m r m' :
  try_pop out m = Some (r, m') → rtc cons_rel (CStart out, m) (CRet r, m').
Proof.
  unfold try_pop. destruct (valid_meta (rd_meta m)) eqn:Hv; cbn [negb].
  2:{ intros [= <- <-]. eapply cons_once; [cbn [cons_step]; by rewrite Hv|done]. }
  destruct (ld_head m) as [h|] eqn:Eh; [|done]. cbn [mbind option_bind].
  destruct (ld_seq _ m) as [sq|] eqn:Es; [|done]. cbn [mbind option_bind]. intros H.
  eapply cons_once; [cbn [cons_step]; by rewrite Hv, Eh|].
  eapply cons_once; [cbn [cons_step]; by rewrite Es|].
  destruct (negb (sq =? u64 (h + 1))); [by injection H as <- <-|].
  destruct (ld_field FLen _ m) as [len|] eqn:El; [|done]. cbn [mbind option_bind] in H.
  destruct (ld_body _ _ m) as [body|] eqn:Eb; [|done]. cbn [mbind option_bind] in H.
  destruct (ld_field FType _ m) as [ty|] eqn:Ety; [|done]. cbn [mbind option_bind] in H.
  destruct (ld_field FFlags _ m) as [fl|] eqn:Efl; [|done]. cbn [mbind option_bind] in H.
  destruct (ld_field FUser _ m) as [us|] eqn:Eus; [|done]. cbn [mbind option_bind] in H.
  destruct (st_seq _ _ m) as [m1|] eqn:E1; [|done]. cbn [mbind option_bind] in H.
  destruct (st_head _ m1) as [m2|] eqn:E2; [|done]. cbn [mbind option_bind] in H.
  injection H as <- <-.
  eapply cons_once; [cbn [cons_step]; by rewrite El|].
  eapply cons_once; [cbn [cons_step]; by rewrite Eb|].
  eapply cons_once; [cbn [cons_step]; by rewrite Ety, Efl, Eus|].
  eapply cons_once; [cbn [cons_step]; by rewrite E1|].
  eapply cons_once; [cbn [cons_step]; by rewrite E2|done].
Qed.

(** ** The system *)

Record conc := mkConc {
  g_mem : M;
  g_prods : list PPc;
  g_cons : CPc;
  g_log : list Msg;
  g_pops : list (bytes * (PoppedRecord * bytes));
  g_full : Z;
}.

(** Ghost updates of a producer step: the message claimed, the full ring reported. *)
Definition ghost_claim (stride : Z) (pc pc' : PPc) : list Msg :=
  match pc, pc' with
  | PCas a _ _, PWrite _ _ _ =>
      [stored_msg stride (a_type a) (a_flags a) (a_user a) (a_payload a)]
  | _, _ => []
  end.

Definition ghost_full (pc : PPc) : Z := match pc with PBump => 1 | _ => 0 end.

(** Ghost update of a consumer step: the finished pop, with the buffer it was given. *)
Definition ghost_pop (pc : CPc) : list (bytes * (PoppedRecord * bytes)) :=
  match pc with CStoreHead out _ res => [(out, res)] | _ => [] end.

Definition args_typed (a : Args) : Prop :=
  push_typed (a_type a) (a_flags a) (a_user a) ∧ is_bytes (a_payload a).

Inductive cstep : conc → conc → Prop :=
  | step_push g i a :
      g_prods g !! i = Some PIdle → args_typed a →
      cstep g (mkConc (g_mem g) (<[i := PStart a]> (g_prods g)) (g_cons g) (g_log g)
                 (g_pops g) (g_full g))
  | step_prod g i sp pc pc' m' :
      g_prods g !! i = Some pc → prod_step sp pc (g_mem g) = Some (pc', m') →
      cstep g (mkConc m' (<[i := pc']> (g_prods g)) (g_cons g)
                 (g_log g ++ ghost_claim (record_stride (rd_meta (g_mem g))) pc pc')
                 (g_pops g) (g_full g + ghost_full pc))
  | step_pop g out :
      g_cons g = CIdle → Z.of_nat (length out) < 2 ^ 32 →
      cstep g (mkConc (g_mem g) (g_prods g) (CStart out) (g_log g) (g_pops g) (g_full g))
  | step_cons g pc' m' :
      cons_step (g_cons g) (g_mem g) = Some (pc', m') →
      cstep g (mkConc m' (g_prods g) pc' (g_log g) (g_pops g ++ ghost_pop (g_cons g)) (g_full g)).

(** [n] producers and the consumer, all idle, on a freshly initialized memory. *)
Definition conc_init (n : nat) (m : M) : conc := mkConc m (replicate n PIdle) CIdle [] [] 0.

Definition reachable (n : nat) (m : M) (g : conc) : Prop := rtc cstep (conc_init n m) g.

(** ** An executable scheduler

    An action that is not enabled leaves the system as it is. *)

Inductive action := APush (i : nat) (a : Args) | AProd (i : nat) (spurious : bool)
  | APop (out : bytes) | ACons.

Definition args_typedb (a : Args) : bool :=
  (bool_decide (0 ≤ a_type a < 2 ^ 16) && bool_decide (0 ≤ a_flags a < 2 ^ 16) &&
   bool_decide (0 ≤ a_user a < 2 ^ 64) && forallb (λ b, bool_decide (0 ≤ b < 2 ^ 8)) (a_payload a))%bool.

Definition do_action (act : action) (g : conc) : conc :=
  match act with
  | APush i a =>
      match g_prods g !! i with
      | Some PIdle =>
          if args_typedb a
          then mkConc (g_mem g) (<[i := PStart a]> (g_prods g)) (g_cons g) (g_log g) (g_pops g) (g_full g)
          else g
      | _ => g
      end
  | AProd i sp =>
      match g_prods g !! i with
      | Some pc =>
          match prod_step sp pc (g_mem g) with
          | Some (pc', m') =>
              mkConc m' (<[i := pc']> (g_prods g)) (g_cons g)
                (g_log g ++ ghost_claim (record_stride (rd_meta (g_mem g))) pc pc')
                (g_pops g) (g_full g + ghost_full pc)
          | None => g
          end
      | None => g
      end
  | APop out =>
      match g_cons g with
      | CIdle =>
          if bool_decide (Z.of_nat (length out) < 2 ^ 32)
          then mkConc (g_mem g) (g_prods g) (CStart out) (g_log g) (g_pops g) (g_full g) else g
      | _ => g
      end
  | ACons =>
      match cons_step (g_cons g) (g_mem g) with
      | Some (pc', m') =>
          mkConc m' (g_prods g) pc' (g_log g) (g_pops g ++ ghost_pop (g_cons g)) (g_full g)
      | None => g
      end
  end.

Definition run_actions (acts : list action) (g : conc) : conc := fold_left (λ g act, do_action act g) acts g.

Lemma args_typedb_spec a : args_typedb a = true → args_typed a.
Proof.
  unfold args_typedb, args_typed, push_typed. intros H. bool_prop. split; [done|].
  apply Forall_forall. intros b Hb.
  match goal with H : forallb _ _ = true |- _ => rewrite forallb_forall in H; specialize (H b) end.
  apply list_elem_of_In in Hb. eapply bool_decide_eq_true_1. eauto.
Qed.

Lemma do_action_cstep act g : rtc cstep g (do_action act g).
Proof.
  destruct act as [i a|i sp|out|]; cbn [do_action].
  - destruct (g_prods g !! i) as [[]|] eqn:Hi; try done.
    destruct (args_typedb a) eqn:Ha; [|done]. apply rtc_once, step_push; [done|by apply args_typedb_spec].
  - destruct (g_prods g !! i) as [pc|] eqn:Hi; [|done].
    destruct (prod_step sp pc (g_mem g)) as [[pc' m']|] eqn:Hs; [|done].
    apply rtc_once. by eapply step_prod.
  - destruct (g_cons g) eqn:Hc; try done. case_bool_decide; [|done]. by apply rtc_once, step_pop.
  - destruct (cons_step _ _) as [[pc' m']|] eqn:Hs; [|done]. by apply rtc_once, step_cons.
Qed.

Lemma run_actions_reachable n m acts : reachable n m (run_actions acts (conc_init n m)).
Proof.
  unfold reachable. generalize (conc_init n m) as g. induction acts as [|act acts IH]; intros g; [done|].
  cbn [run_actions fold_left]. etrans; [apply do_action_cstep|apply IH].
Qed.

End machine.
Arguments conc M : clear implicits.
