(* ===== verification/RingInv.v ===== *)
(** * The invariant of the concurrent ring

    The invariant of the machine of [RingConc] on cells, its preservation by every step, and
    the lemmas the concurrency theorems of [RingConcProps] use. A position is a message's index in
    the claim log; the slots of the positions [head, head + record_max) are free, being written
    by exactly one producer, or published. *)

From S2P Require Import Prelude Types Sync RingMem RingCells RingBytes RingConc.

(** ** Definitions *)

(** The slot after the stores before stage [st], starting from slot [s]. *)
Definition wslot (st : WStage) (msg : Msg) (s : Slot) : Slot :=
  let s1 := set_field FLen (Z.of_nat (length (m_data msg))) s in
  let s2 := set_field FType (m_type msg) s1 in
  let s3 := set_field FFlags (m_flags msg) s2 in
  let s4 := set_field FUser (m_user msg) s3 in
  match st with
  | WLen => s | WType => s1 | WFlags => s2 | WUser => s3 | WBody => s4
  | WPublish => set_body (m_data msg) s4
  end.

(** The message a push stores. *)
Definition amsg (c : Cells) (a : Args) : Msg :=
  stored_msg (record_stride (c_meta c)) (a_type a) (a_flags a) (a_user a) (a_payload a).

(** The position a producer is writing. *)
Definition writing (pc : PPc) : option Z :=
  match pc with PWrite _ pos _ => Some pos | _ => None end.

(** The consumer is reading the record at the head. *)
Definition reading (pc : CPc) : bool :=
  match pc with
  | CReadLen _ _ | CReadBody _ _ _ _ | CReadHdr _ _ _ _ _ | CFree _ _ _ => true
  | _ => false
  end.

(** The first position the consumer has not released. *)
Definition eff_head (g : conc Cells) : Z :=
  Z.of_nat (length (g_pops g)) + match g_cons g with CStoreHead _ _ _ => 1 | _ => 0 end.

Definition pslot (p : Z) (c : Cells) : option Slot := slot_at (p mod record_max (c_meta c)) c.

(** Position [p] is published with message [msg]. *)
Definition pub (c : Cells) (log : list Msg) (p : Z) (msg : Msg) : Prop :=
  log !! Z.to_nat p = Some msg ∧ ∃ s, pslot p c = Some s ∧ sl_seq s = p + 1 ∧ holds s msg.

Definition prod_ok (c : Cells) (log : list Msg) (H : Z) (pc : PPc) : Prop :=
  match pc with
  | PIdle | PBump | PRet _ => True
  | PStart a | PReload a _ => args_typed a
  | PLoadSeq a _ pos => args_typed a ∧ 0 ≤ pos ≤ Z.of_nat (length log)
  | PCas a _ pos =>
      args_typed a ∧ 0 ≤ pos ≤ Z.of_nat (length log) ∧
      (pos = Z.of_nat (length log) → pos < H + record_max (c_meta c))
  | PWrite a pos st =>
      args_typed a ∧ H ≤ pos < Z.of_nat (length log) ∧
      log !! Z.to_nat pos = Some (amsg c a) ∧
      ∃ s0, pslot pos c = Some (wslot st (amsg c a) s0) ∧ sl_seq s0 = pos
  end.

Definition small (out : bytes) : Prop := Z.of_nat (length out) < 2 ^ 32.

Definition cons_ok (c : Cells) (log : list Msg) (h : Z) (pc : CPc) : Prop :=
  match pc with
  | CIdle | CRet _ => True
  | CStart out => small out
  | CLoadSeq out pos => small out ∧ pos = h
  | CReadLen out pos => small out ∧ pos = h ∧ ∃ msg, pub c log h msg
  | CReadBody out pos size copied =>
      small out ∧ pos = h ∧ ∃ msg, pub c log h msg ∧ size = Z.of_nat (length (m_data msg)) ∧
      copied = Z.min (Z.of_nat (length out)) size
  | CReadHdr out pos size copied body =>
      small out ∧ pos = h ∧ ∃ msg, pub c log h msg ∧ size = Z.of_nat (length (m_data msg)) ∧
      copied = Z.min (Z.of_nat (length out)) size ∧ body = take (Z.to_nat copied) (m_data msg)
  | CFree out pos res => pos = h ∧ ∃ msg, pub c log h msg ∧ res = popped msg out
  | CStoreHead out pos res =>
      pos = h ∧ ∃ msg, log !! Z.to_nat h = Some msg ∧ res = popped msg out
  end.

(** The state of the slot of position [p]: free, being written, or published. *)
Definition slot_state (prods : list PPc) (log : list Msg) (p : Z) (s : Slot) : Prop :=
  (Z.of_nat (length log) ≤ p ∧ sl_seq s = p) ∨
  (p < Z.of_nat (length log) ∧ sl_seq s = p ∧
   ∃ i pc, prods !! i = Some pc ∧ writing pc = Some p) ∨
  (p < Z.of_nat (length log) ∧ sl_seq s = p + 1 ∧
   ∃ msg, log !! Z.to_nat p = Some msg ∧ holds s msg).

Record conc_inv (N stride : Z) (g : conc Cells) : Prop := {
  iv_geom : cells_geom (g_mem g);
  iv_max : record_max (c_meta (g_mem g)) = N;
  iv_stride : record_stride (c_meta (g_mem g)) = stride;
  iv_tail : c_tail (g_mem g) = Z.of_nat (length (g_log g));
  iv_head : c_head (g_mem g) = Z.of_nat (length (g_pops g));
  iv_win : eff_head g ≤ Z.of_nat (length (g_log g)) ≤ eff_head g + N;
  iv_slot p : eff_head g ≤ p < eff_head g + N →
    ∃ s, pslot p (g_mem g) = Some s ∧ slot_state (g_prods g) (g_log g) p s;
  iv_prod i pc : g_prods g !! i = Some pc → prod_ok (g_mem g) (g_log g) (eff_head g) pc;
  iv_uniq i j pc pc' p : g_prods g !! i = Some pc → g_prods g !! j = Some pc' →
    writing pc = Some p → writing pc' = Some p → i = j;
  iv_cons : cons_ok (g_mem g) (g_log g) (c_head (g_mem g)) (g_cons g);
  iv_pops k out res : g_pops g !! k = Some (out, res) →
    ∃ msg, g_log g !! k = Some msg ∧ res = popped msg out;
  iv_lost : lost_count (c_meta (g_mem g)) = u64 (g_full g);
}.

(** ** Frame lemmas *)

Lemma sl_seq_wslot st msg s : sl_seq (wslot st msg s) = sl_seq s.
Proof. by destruct st. Qed.

Lemma wslot_publish msg s pos :
  set_seq (u64 (pos + 1)) (wslot WPublish msg s) = filled s pos msg.
Proof. unfold wslot, filled, set_seq, set_body, set_field. simpl. f_equal. unfold u64. by rewrite Z.mod_mod. Qed.

Lemma prefix_lookup_Z (log log' : list Msg) k msg :
  log `prefix_of` log' → log !! k = Some msg → log' !! k = Some msg.
Proof. intros Hp H. by eapply prefix_lookup_Some. Qed.

Lemma amsg_same c c' a : record_stride (c_meta c') = record_stride (c_meta c) → amsg c' a = amsg c a.
Proof. intros E. unfold amsg. by rewrite E. Qed.

(** A producer's assertion survives what the other threads do. *)
Lemma prod_ok_frame c log H c' log' H' pc :
  prod_ok c log H pc →
  record_max (c_meta c') = record_max (c_meta c) →
  record_stride (c_meta c') = record_stride (c_meta c) →
  H ≤ H' → log `prefix_of` log' →
  (∀ p, writing pc = Some p → H' ≤ p ∧ pslot p c' = pslot p c) →
  prod_ok c' log' H' pc.
Proof.
  intros Hok Em Es HH Hpre Hw. pose proof (prefix_length _ _ Hpre) as Hl.
  destruct pc; cbn [prod_ok] in *; try done; rewrite ?Em.
  - split; [tauto|lia].
  - split; [tauto|lia].
  - destruct Hok as (Ha&Hp&Hlog&s0&Hs&Hq). destruct (Hw pos eq_refl) as [H1 H2].
    rewrite (amsg_same _ _ _ Es), H2. split_and!; [done|lia|lia|by eapply prefix_lookup_Z|eauto].
Qed.

Lemma pub_frame c log c' log' p msg :
  pub c log p msg → log `prefix_of` log' → pslot p c' = pslot p c → pub c' log' p msg.
Proof. intros [Hl Hs] Hp E. split; [by eapply prefix_lookup_Z|]. by rewrite E. Qed.

(** The consumer's assertion survives what the producers do. *)
Lemma cons_ok_frame c log c' log' h pc :
  cons_ok c log h pc → log `prefix_of` log' →
  (reading pc = true → pslot h c' = pslot h c) → cons_ok c' log' h pc.
Proof.
  intros Hok Hp Hs. destruct pc; cbn [cons_ok] in *; try done.
  - destruct Hok as (?&?&msg&Hm). eauto 10 using pub_frame.
  - destruct Hok as (?&?&msg&Hm&?&?). eauto 10 using pub_frame.
  - destruct Hok as (?&?&msg&Hm&?&?&?). split_and!; [done..|]. exists msg.
    split_and!; eauto using pub_frame.
  - destruct Hok as (?&msg&Hm&?). eauto 10 using pub_frame.
  - destruct Hok as (?&msg&Hm&?). eauto 10 using prefix_lookup_Z.
Qed.

Lemma slot_state_log prods log log' p s :
  slot_state prods log p s → log `prefix_of` log' →
  Z.of_nat (length log') ≤ p ∨ p < Z.of_nat (length log) → slot_state prods log' p s.
Proof.
  intros Hs Hp Hd. pose proof (prefix_length _ _ Hp) as Hl.
  destruct Hs as [[? ?]|[(?&?&?)|(?&?&msg&?&?)]].
  - left. split; [lia|done].
  - right. left. split_and!; [lia|done|done].
  - right. right. split_and!; [lia|done|]. eauto using prefix_lookup_Z.
Qed.

(** Updating a producer that keeps writing the same position, or none. *)
Lemma slot_state_prods prods i pc pc' log p s :
  slot_state prods log p s → prods !! i = Some pc →
  (writing pc = Some p → writing pc' = Some p) →
  slot_state (<[i := pc']> prods) log p s.
Proof.
  intros Hs Hi Hw. destruct Hs as [?|[(?&?&j&pcj&Hj&Hpj)|?]]; [by left| |by right; right].
  right. left. split_and!; [done..|]. destruct (decide (j = i)) as [->|Hne].
  - simplify_eq. exists i, pc'. split; [|auto]. apply list_lookup_insert_eq. by eapply lookup_lt_Some.
  - exists j, pcj. by rewrite list_lookup_insert_ne.
Qed.

Lemma uniq_set (prods : list PPc) i pc pc' :
  (∀ i j pc pc' p, prods !! i = Some pc → prods !! j = Some pc' →
     writing pc = Some p → writing pc' = Some p → i = j) →
  prods !! i = Some pc →
  (∀ p, writing pc' = Some p →
     writing pc = Some p ∨ ∀ j pcj, prods !! j = Some pcj → writing pcj ≠ Some p) →
  ∀ k j pck pcj p, <[i := pc']> prods !! k = Some pck → <[i := pc']> prods !! j = Some pcj →
     writing pck = Some p → writing pcj = Some p → k = j.
Proof.
  intros Hu Hi Hw k j pck pcj p Hk Hj Hpk Hpj.
  destruct (decide (k = i)) as [->|Hk']; destruct (decide (j = i)) as [->|Hj']; [done| | |].
  - rewrite list_lookup_insert_eq in Hk by (by eapply lookup_lt_Some). simplify_eq.
    rewrite list_lookup_insert_ne in Hj by done. destruct (Hw p Hpk) as [H|H]; [by eapply Hu|].
    by destruct (H j pcj Hj).
  - rewrite list_lookup_insert_eq in Hj by (by eapply lookup_lt_Some). simplify_eq.
    rewrite list_lookup_insert_ne in Hk by done. destruct (Hw p Hpj) as [H|H]; [by eapply Hu|].
    by destruct (H k pck Hk).
  - rewrite list_lookup_insert_ne in Hk, Hj by done. by eapply Hu.
Qed.

(** A property of all producers after one of them moved. *)
Lemma lookup_set_prod {P : PPc → Prop} (prods : list PPc) i pc' :
  P pc' → (∀ j pc, j ≠ i → prods !! j = Some pc → P pc) →
  ∀ j pc, <[i := pc']> prods !! j = Some pc → P pc.
Proof. intros Hn Ho j pc [(->&->&_)|[? ?]]%list_lookup_insert_Some; eauto. Qed.

(** ** Preservation *)

Section preservation.
Context (N stride : Z).

Lemma eff_head_reading g : reading (g_cons g) = true → eff_head g = Z.of_nat (length (g_pops g)).
Proof. unfold eff_head. destruct (g_cons g); simpl; try done; lia. Qed.

Lemma eff_head_bounds g :
  Z.of_nat (length (g_pops g)) ≤ eff_head g ≤ Z.of_nat (length (g_pops g)) + 1.
Proof. unfold eff_head. destruct (g_cons g); lia. Qed.

Lemma cons_ok_pub c log h pc : cons_ok c log h pc → reading pc = true → ∃ msg, pub c log h msg.
Proof.
  destruct pc; cbn [cons_ok reading]; try done; intros Hok _.
  - by destruct Hok as (_&_&?).
  - destruct Hok as (_&_&msg&?&_). eauto.
  - destruct Hok as (_&_&msg&?&_). eauto.
  - destruct Hok as (_&msg&?&_). eauto.
Qed.

Lemma pslot_put_ne c H p p' s :
  cells_geom c → H ≤ p < H + record_max (c_meta c) → H ≤ p' < H + record_max (c_meta c) →
  p ≠ p' → pslot p' (put_slot (p mod record_max (c_meta c)) s c) = pslot p' c.
Proof.
  intros Hg Hp Hp' Hne. pose proof (cg_max _ Hg). unfold pslot. cbn [put_slot c_meta].
  apply slot_at_put_ne.
  - apply slot_at_is_Some; [done|]. apply Z.mod_pos_bound. lia.
  - intros E. apply Hne. eapply (mod_inj_window (record_max (c_meta c))); [lia|done|lia].
Qed.

Lemma pslot_put_eq c p s :
  cells_geom c → pslot p (put_slot (p mod record_max (c_meta c)) s c) = Some s.
Proof.
  intros Hg. pose proof (cg_max _ Hg). unfold pslot. cbn [put_slot c_meta].
  apply slot_at_put_eq, slot_at_is_Some; [done|]. apply Z.mod_pos_bound. lia.
Qed.

Lemma pslot_is_Some c p : cells_geom c → ∃ s, pslot p c = Some s.
Proof.
  intros Hg. pose proof (cg_max _ Hg). apply slot_at_is_Some; [done|]. apply Z.mod_pos_bound. lia.
Qed.

(** A producer moves without touching memory. *)
Lemma inv_prod_local g i pc pc' :
  conc_inv N stride g → g_prods g !! i = Some pc → writing pc' = writing pc →
  prod_ok (g_mem g) (g_log g) (eff_head g) pc' →
  conc_inv N stride (mkConc (g_mem g) (<[i := pc']> (g_prods g)) (g_cons g) (g_log g)
                       (g_pops g) (g_full g)).
Proof.
  intros [] Hi Hw Hok. split; try done; cbn [g_mem g_prods g_cons g_log g_pops g_full].
  - intros p Hp. destruct (iv_slot0 p Hp) as (s&Hs&Hst). exists s. split; [done|].
    eapply slot_state_prods; [done|done|]. by rewrite Hw.
  - apply lookup_set_prod; [done|]. intros j pcj _ Hj. by eapply iv_prod0.
  - eapply uniq_set; [done|done|]. intros p. rewrite Hw. auto.
Qed.

(** A producer stores to the slot it is writing, or publishes it. *)
Lemma inv_prod_write g i a pos st pc' s' :
  conc_inv N stride g → g_prods g !! i = Some (PWrite a pos st) →
  Z.of_nat (length (sl_body s')) = stride - RECORD_HEADER_SIZE →
  writing pc' = Some pos ∨ writing pc' = None →
  slot_state (<[i := pc']> (g_prods g)) (g_log g) pos s' →
  prod_ok (put_slot (pos mod N) s' (g_mem g)) (g_log g) (eff_head g) pc' →
  conc_inv N stride (mkConc (put_slot (pos mod N) s' (g_mem g)) (<[i := pc']> (g_prods g))
                       (g_cons g) (g_log g) (g_pops g) (g_full g)).
Proof.
  intros Hinv Hi Hb Hw Hst Hok. pose proof Hinv as [].
  pose proof (iv_prod0 i _ Hi) as (_&Hpos&_&s0&Hs0&Hq0). rewrite <-iv_max0 in *.
  assert (Hne : ∀ p, eff_head g ≤ p < eff_head g + record_max (c_meta (g_mem g)) → p ≠ pos →
    pslot p (put_slot (pos mod record_max (c_meta (g_mem g))) s' (g_mem g)) = pslot p (g_mem g)).
  { intros p Hp Hn. eapply pslot_put_ne; [done| |done|done]. lia. }
  split; try done; cbn [g_mem g_prods g_cons g_log g_pops g_full].
  - apply cells_geom_put; [by rewrite iv_stride0|done].
  - intros p Hp. change (eff_head g ≤ p < eff_head g + record_max (c_meta (g_mem g))) in Hp.
    destruct (decide (p = pos)) as [->|Hn].
    + exists s'. split; [by apply pslot_put_eq|done].
    + destruct (iv_slot0 p Hp) as (s&Hs&Hss). exists s. rewrite Hne by done. split; [done|].
      eapply slot_state_prods; [done|done|]. simpl. congruence.
  - apply lookup_set_prod; [done|]. intros j pcj Hj Hpj.
    eapply prod_ok_frame; [by eapply iv_prod0|done|done|done|done|].
    intros p Hp. assert (p ≠ pos) by (intros ->; apply Hj; by eapply iv_uniq0).
    destruct pcj; try done. injection Hp as <-. pose proof (iv_prod0 j _ Hpj) as (_&?&_).
    split; [change (eff_head g ≤ pos0); lia|]. apply Hne; [lia|done].
  - eapply uniq_set; [done|done|]. intros p Hp. left. simpl. destruct Hw; congruence.
  - eapply cons_ok_frame; [done|done|]. intros Hr. apply Hne.
    + rewrite eff_head_reading by done. pose proof (cg_max _ iv_geom0). cbn [put_slot c_head]. lia.
    + intros E. destruct (cons_ok_pub _ _ _ _ iv_cons0 Hr) as (msg&_&s&Hs&Hq&_).
      cbn [put_slot c_head] in E. rewrite E, Hs0 in Hs. injection Hs as <-.
      rewrite sl_seq_wslot in Hq. lia.
Qed.

(** A successful compare-and-swap on the tail claims the next position. *)
Lemma inv_prod_claim g i a b :
  conc_inv N stride g → Z.of_nat (length (g_log g)) + N < 2 ^ 63 →
  g_prods g !! i = Some (PCas a b (c_tail (g_mem g))) →
  conc_inv N stride
    (mkConc (mkCells (c_meta (g_mem g)) (c_head (g_mem g)) (c_tail (g_mem g) + 1) (c_slots (g_mem g)))
       (<[i := PWrite a (c_tail (g_mem g)) WLen]> (g_prods g)) (g_cons g)
       (g_log g ++ [amsg (g_mem g) a]) (g_pops g) (g_full g)).
Proof.
  intros Hinv Hbd Hi. pose proof Hinv as []. rewrite iv_tail0 in *.
  pose proof (iv_prod0 i _ Hi) as (Hty&_&Hroom). specialize (Hroom eq_refl).
  rewrite iv_max0 in Hroom. set (t := Z.of_nat (length (g_log g))) in *.
  assert (Hpre : g_log g `prefix_of` g_log g ++ [amsg (g_mem g) a]) by by apply prefix_app_r.
  assert (Hlen : Z.of_nat (length (g_log g ++ [amsg (g_mem g) a])) = t + 1)
    by (rewrite length_app; simpl; lia).
  assert (Hlook : (g_log g ++ [amsg (g_mem g) a]) !! Z.to_nat t = Some (amsg (g_mem g) a)).
  { unfold t. rewrite Nat2Z.id. by apply list_lookup_middle. }
  split; try done; cbn [g_mem g_prods g_cons g_log g_pops g_full c_meta c_head c_tail].
  - destruct iv_geom0. by split.
  - rewrite Hlen. change (eff_head (mkConc _ _ _ _ _ _)) with (eff_head g). lia.
  - intros p Hp. change (eff_head (mkConc _ _ _ _ _ _)) with (eff_head g) in Hp.
    destruct (iv_slot0 p Hp) as (s&Hs&Hst). exists s. split; [done|].
    destruct (decide (p = t)) as [->|Hne].
    + right. left. rewrite Hlen. split; [lia|].
      destruct Hst as [[_ Hq]|[[? _]|[? _]]]; [|lia|lia]. split; [done|].
      exists i, (PWrite a t WLen). split; [|done]. apply list_lookup_insert_eq. by eapply lookup_lt_Some.
    + eapply slot_state_log; [|done|]; [|rewrite Hlen; lia].
      by eapply slot_state_prods.
  - change (eff_head (mkConc _ _ _ _ _ _)) with (eff_head g). apply lookup_set_prod.
    + cbn [prod_ok]. rewrite Hlen. split_and!; [done|lia|lia|done|].
      destruct (iv_slot0 t) as (s&Hs&Hst); [lia|]. exists s. split; [done|].
      destruct Hst as [[_ Hq]|[[? _]|[? _]]]; [done|lia|lia].
    + intros j pcj Hj Hpj. eapply prod_ok_frame; [by eapply iv_prod0|done|done|done|done|].
      intros p Hp. split; [|done]. destruct pcj; try done. injection Hp as <-.
      pose proof (iv_prod0 j _ Hpj) as (_&?&_). lia.
  - eapply uniq_set; [done|done|]. intros p [= <-]. right. intros j pcj Hpj Hp.
    destruct pcj; try done. injection Hp as ->. pose proof (iv_prod0 j _ Hpj) as (_&?&_). lia.
  - by eapply cons_ok_frame.
  - intros k out res Hk. destruct (iv_pops0 k out res Hk) as (msg&?&?). eauto using prefix_lookup_Z.
Qed.

(** A full ring is counted. *)
Lemma inv_bump g :
  conc_inv N stride g → 
  conc_inv N stride (mkConc (bump_lost (g_mem g)) (g_prods g) (g_cons g) (g_log g) (g_pops g)
                       (g_full g + 1)).
Proof.
  intros []. split; try done; cbn [g_mem g_prods g_cons g_log g_pops g_full].
  - destruct iv_geom0. by split.
  - simpl. rewrite iv_lost0. unfold u64. by rewrite Zplus_mod_idemp_l.
Qed.

(** The consumer moves without touching memory. *)
Lemma inv_cons_local g pc' :
  conc_inv N stride g → (∀ out pos res, g_cons g ≠ CStoreHead out pos res) →
  (∀ out pos res, pc' ≠ CStoreHead out pos res) →
  cons_ok (g_mem g) (g_log g) (c_head (g_mem g)) pc' →
  conc_inv N stride (mkConc (g_mem g) (g_prods g) pc' (g_log g) (g_pops g) (g_full g)).
Proof.
  intros Hinv H1 H2 Hok.
  assert (E : eff_head (mkConc (g_mem g) (g_prods g) pc' (g_log g) (g_pops g) (g_full g)) = eff_head g).
  { unfold eff_head. cbn [g_cons g_pops].
    destruct pc'; try (by destruct (H2 out pos res)); destruct (g_cons g);
      try (by destruct (H1 out0 pos0 res)); try (by destruct (H1 out pos res)); try done;
      by destruct (H1 _ _ _ eq_refl). }
  destruct Hinv. split; rewrite ?E; done.
Qed.

(** The consumer releases the slot it has read. *)
Lemma inv_cons_free g out res s :
  conc_inv N stride g → Z.of_nat (length (g_log g)) + N < 2 ^ 63 →
  g_cons g = CFree out (c_head (g_mem g)) res → pslot (c_head (g_mem g)) (g_mem g) = Some s →
  conc_inv N stride
    (mkConc (put_slot (c_head (g_mem g) mod N) (set_seq (c_head (g_mem g) + N) s) (g_mem g))
       (g_prods g) (CStoreHead out (c_head (g_mem g)) res) (g_log g) (g_pops g) (g_full g)).
Proof.
  intros Hinv Hbd Hc Hs. pose proof Hinv as []. rewrite Hc in iv_cons0. cbn [cons_ok] in iv_cons0.
  destruct iv_cons0 as (_&msg&[Hm (s'&Hs'&Hq&Hh)]&Hr). rewrite Hs in Hs'. injection Hs' as <-.
  assert (EH : eff_head g = c_head (g_mem g)).
  { rewrite eff_head_reading by by rewrite Hc. done. }
  pose proof (cg_max _ iv_geom0) as Hmx. rewrite iv_max0 in Hmx.
  apply lookup_lt_Some in Hm as Hlt. rewrite EH in *. set (h := c_head (g_mem g)) in *.
  assert (E : eff_head (mkConc (put_slot (h mod N) (set_seq (h + N) s) (g_mem g))
       (g_prods g) (CStoreHead out h res) (g_log g) (g_pops g) (g_full g)) = h + 1).
  { unfold eff_head. cbn [g_cons g_pops]. lia. }
  assert (Hfree : ∀ p, h < p < h + N → pslot p (put_slot (h mod N) (set_seq (h + N) s) (g_mem g)) =
                                       pslot p (g_mem g)).
  { intros p Hp. rewrite <-iv_max0. eapply (pslot_put_ne _ h); [done|lia|lia|lia]. }
  assert (Hh0 : 0 ≤ h) by lia.
  split; rewrite ?E; try done; cbn [g_mem g_prods g_cons g_log g_pops g_full].
  - apply cells_geom_put; [|done]. exact (slot_at_body _ _ _ iv_geom0 Hs).
  - lia.
  - intros p Hp. destruct (decide (p = h + N)) as [->|Hne].
    + exists (set_seq (h + N) s). split.
      * unfold pslot. cbn [put_slot c_meta]. rewrite iv_max0, mod_add_lap by lia.
        rewrite <-iv_max0. exact (pslot_put_eq _ h _ iv_geom0).
      * left. split; [lia|]. simpl. rewrite u64_small; lia.
    + rewrite Hfree by lia. destruct (iv_slot0 p) as (sp&?&?); [lia|]. eauto.
  - intros j pcj Hpj. eapply prod_ok_frame; [by eapply iv_prod0|done|done|lia|done|].
    intros p Hp. destruct pcj; try done. injection Hp as <-.
    pose proof (iv_prod0 j _ Hpj) as (_&Hpos&_&s0&Hs0&Hq0).
    assert (pos ≠ h).
    { intros ->. rewrite Hs in Hs0. injection Hs0 as ->. rewrite sl_seq_wslot in Hq. lia. }
    split; [lia|]. apply Hfree. lia.
  - split; [done|]. eauto.
Qed.

(** The consumer advances the head cursor: the pop is finished. *)
Lemma inv_cons_head g out res :
  conc_inv N stride g → Z.of_nat (length (g_log g)) + N < 2 ^ 63 →
  g_cons g = CStoreHead out (c_head (g_mem g)) res →
  conc_inv N stride
    (mkConc (mkCells (c_meta (g_mem g)) (c_head (g_mem g) + 1) (c_tail (g_mem g)) (c_slots (g_mem g)))
       (g_prods g) (CRet (Some res)) (g_log g) (g_pops g ++ [(out, res)]) (g_full g)).
Proof.
  intros Hinv Hbd Hc. pose proof Hinv as []. rewrite Hc in iv_cons0.
  destruct iv_cons0 as (_&msg&Hm&Hr).
  assert (E : eff_head (mkConc (mkCells (c_meta (g_mem g)) (c_head (g_mem g) + 1) (c_tail (g_mem g))
      (c_slots (g_mem g))) (g_prods g) (CRet (Some res)) (g_log g) (g_pops g ++ [(out, res)])
      (g_full g)) = eff_head g).
  { unfold eff_head. cbn [g_cons g_pops]. rewrite Hc, length_app. simpl. lia. }
  split; rewrite ?E; try done; cbn [g_mem g_prods g_cons g_log g_pops g_full c_meta c_head c_tail].
  - destruct iv_geom0. by split.
  - rewrite length_app. simpl. lia.
  - intros k out' res' Hk. destruct (decide (k < length (g_pops g))%nat).
    + rewrite lookup_app_l in Hk by lia. by eapply iv_pops0.
    + rewrite lookup_app_r in Hk by lia. apply list_lookup_singleton_Some in Hk as [Hk [= <- <-]].
      exists msg. split; [|done]. rewrite <-Hm. f_equal. lia.
Qed.

(** ** Steps *)

(** What a producer sees in the slot of a position up to the tail. *)
Lemma load_seq_spec g pos :
  conc_inv N stride g → Z.of_nat (length (g_log g)) + N < 2 ^ 63 →
  0 ≤ pos ≤ Z.of_nat (length (g_log g)) →
  ∃ s, pslot pos (g_mem g) = Some s ∧ 0 ≤ sl_seq s < 2 ^ 63 ∧
    (sl_seq s = pos → pos = Z.of_nat (length (g_log g)) → pos < eff_head g + N) ∧
    (sl_seq s < pos → pos = Z.of_nat (length (g_log g)) ∧ pos = eff_head g + N).
Proof.
  intros Hinv Hbd Hpos. pose proof Hinv as []. pose proof (eff_head_bounds g) as HH.
  pose proof (cg_max _ iv_geom0) as Hmx. rewrite iv_max0 in Hmx.
  set (H := eff_head g) in *. set (t := Z.of_nat (length (g_log g))) in *.
  set (p := H + (pos - H) mod N).
  pose proof (Z.mod_pos_bound (pos - H) N ltac:(lia)) as Hmod.
  assert (Ep : p mod N = pos mod N).
  { unfold p. rewrite Zplus_mod_idemp_r. f_equal. lia. }
  destruct (iv_slot0 p) as (s&Hs&Hst); [unfold p; lia|].
  assert (Hq : p ≤ sl_seq s ≤ p + 1) by (destruct Hst as [[_ ?]|[(_&?&_)|(_&?&_)]]; lia).
  exists s. split_and!.
  - unfold pslot in *. rewrite iv_max0 in *. by rewrite <-Ep.
  - unfold p in *. lia.
  - unfold p in *. lia.
  - intros E1 E2. destruct (decide (pos < H + N)) as [|Hge]; [done|].
    assert (Epos : pos = H + N) by lia. rewrite Epos, mod_add_lap in Ep by lia.
    assert (p = H) by (eapply (mod_inj_window N); [lia|done|unfold p; lia]).
    lia.
  - destruct (decide (pos < H)); [unfold p in *; lia|].
    destruct (decide (pos < H + N)); [|lia].
    assert (p = pos) by (eapply (mod_inj_window N); [lia|done|unfold p; lia]). lia.
Qed.

(** The slot a producer is writing and the values it stores there. *)
Lemma write_values g i a pos st :
  conc_inv N stride g → g_prods g !! i = Some (PWrite a pos st) →
  ∃ s0, slot_at (slot_index pos (g_mem g)) (g_mem g) = Some (wslot st (amsg (g_mem g) a) s0) ∧
    sl_seq s0 = pos ∧ slot_index pos (g_mem g) = pos mod N ∧
    written_size (a_payload a) (g_mem g) = Z.of_nat (length (m_data (amsg (g_mem g) a))) ∧
    stored_flags (a_flags a) (a_payload a) (g_mem g) = m_flags (amsg (g_mem g) a) ∧
    take (Z.to_nat (written_size (a_payload a) (g_mem g))) (a_payload a) =
      m_data (amsg (g_mem g) a) ∧
    a_type a = m_type (amsg (g_mem g) a) ∧ a_user a = m_user (amsg (g_mem g) a) ∧
    Z.of_nat (length (m_data (amsg (g_mem g) a))) ≤ stride - RECORD_HEADER_SIZE ∧
    Z.of_nat (length (sl_body (wslot st (amsg (g_mem g) a) s0))) = stride - RECORD_HEADER_SIZE.
Proof.
  intros Hinv Hi. pose proof Hinv as []. destruct (iv_prod0 i _ Hi) as ((Hty&_)&_&_&s0&Hs0&Hq0).
  pose proof (cg_stride _ iv_geom0) as Hst. exists s0. unfold amsg.
  rewrite (written_size_cells _ _ iv_geom0), stored_msg_data_length, stored_msg_data by lia.
  destruct (stored_msg_type_user (record_stride (c_meta (g_mem g))) (a_type a) (a_flags a)
    (a_user a) (a_payload a)) as [-> ->].
  split_and!; try done.
  - unfold slot_index. simpl. by rewrite iv_max0.
  - apply stored_flags_cells; [done|apply Hty|done].
  - lia.
  - rewrite <-iv_stride0. by eapply slot_at_body.
Qed.

(** A stage of [write_record] other than the last moves to the next stage. *)
Lemma inv_write_stage g i a pos st st' s0 :
  conc_inv N stride g → g_prods g !! i = Some (PWrite a pos st) →
  sl_seq s0 = pos →
  Z.of_nat (length (sl_body (wslot st' (amsg (g_mem g) a) s0))) = stride - RECORD_HEADER_SIZE →
  conc_inv N stride
    (mkConc (put_slot (pos mod N) (wslot st' (amsg (g_mem g) a) s0) (g_mem g))
       (<[i := PWrite a pos st']> (g_prods g)) (g_cons g) (g_log g) (g_pops g) (g_full g)).
Proof.
  intros Hinv Hi Hq Hb. pose proof (iv_prod _ _ _ Hinv i _ Hi) as (Hty&Hpos&Hlog&_).
  apply (inv_prod_write g i a pos st); [done..|by left| |].
  - right. left. rewrite sl_seq_wslot. split_and!; [lia|done|].
    exists i, (PWrite a pos st'). split; [|done].
    apply list_lookup_insert_eq. by eapply lookup_lt_Some.
  - cbn [prod_ok]. split_and!; [done|lia|lia|done|]. exists s0. split; [|done].
    rewrite <-(iv_max _ _ _ Hinv). apply pslot_put_eq. apply Hinv.
Qed.

Lemma inv_write_publish g i a pos s0 :
  conc_inv N stride g → Z.of_nat (length (g_log g)) + N < 2 ^ 63 →
  g_prods g !! i = Some (PWrite a pos WPublish) →
  Z.of_nat (length (sl_body (wslot WPublish (amsg (g_mem g) a) s0))) = stride - RECORD_HEADER_SIZE →
  conc_inv N stride
    (mkConc (put_slot (pos mod N) (filled s0 pos (amsg (g_mem g) a)) (g_mem g))
       (<[i := PRet (Value tt)]> (g_prods g)) (g_cons g) (g_log g) (g_pops g) (g_full g)).
Proof.
  intros Hinv Hbd Hi Hb. pose proof (iv_prod _ _ _ Hinv i _ Hi) as ((Hty&_)&Hpos&Hlog&_).
  pose proof (eff_head_bounds g). pose proof (cg_max _ (iv_geom _ _ _ Hinv)) as Hmx.
  rewrite (iv_max _ _ _ Hinv) in Hmx.
  apply (inv_prod_write g i a pos WPublish); [done..|by right| |done].
  right. right. split; [lia|]. split; [simpl; rewrite u64_small; lia|].
  exists (amsg (g_mem g) a). split; [done|]. apply filled_holds; [done|].
  apply (iv_geom _ _ _ Hinv).
Qed.
End preservation.

Section steps.
Context (N stride : Z).

(** The state after a producer step, ghost updates included. *)
Definition after_prod (g : conc Cells) (i : nat) (pc pc' : PPc) (m' : Cells) : conc Cells :=
  mkConc m' (<[i := pc']> (g_prods g)) (g_cons g)
    (g_log g ++ ghost_claim (record_stride (c_meta (g_mem g))) pc pc') (g_pops g)
    (g_full g + ghost_full pc).

Lemma after_prod_plain g i pc pc' m' :
  ghost_claim (record_stride (c_meta (g_mem g))) pc pc' = [] → ghost_full pc = 0 →
  after_prod g i pc pc' m' =
  mkConc m' (<[i := pc']> (g_prods g)) (g_cons g) (g_log g) (g_pops g) (g_full g).
Proof. intros E1 E2. unfold after_prod. by rewrite E1, E2, app_nil_r, Z.add_0_r. Qed.

Lemma prod_cas_ok g i sp a b pos :
  conc_inv N stride g → Z.of_nat (length (g_log g)) + N < 2 ^ 63 →
  g_prods g !! i = Some (PCas a b pos) →
  ∃ pc' m', prod_step sp (PCas a b pos) (g_mem g) = Some (pc', m') ∧
            conc_inv N stride (after_prod g i (PCas a b pos) pc' m').
Proof.
  intros Hinv Hbd Hi. pose proof Hinv as []. pose proof (iv_prod0 i _ Hi) as (Hty&Hpos&_).
  pose proof (cg_max _ iv_geom0) as Hmx. rewrite iv_max0 in Hmx.
  cbn [prod_step]. unfold cas_tail. cbn [ld_tail RingMem_Cells mbind option_bind].
  destruct (atomic_compare_exchange_weak_u64 sp (c_tail (g_mem g)) pos (u64 (pos + 1)))
    as [[r t'] e'] eqn:Ec.
  apply cas_inv in Ec as [(->&Et&->&->)|(->&->&->)].
  - cbn [st_tail RingMem_Cells mbind option_bind].
    rewrite (u64_small (pos + 1)), (u64_small (pos + 1)) by lia. do 2 eexists. split; [done|].
    unfold after_prod. cbn [ghost_claim ghost_full]. rewrite Z.add_0_r. rewrite <-Et in Hi |- *.
    by apply (inv_prod_claim N stride g i a b).
  - cbn [mbind option_bind]. do 2 eexists. split; [done|]. rewrite after_prod_plain by done.
    eapply inv_prod_local; [done|done|done|]. simpl. split; [done|]. lia.
Qed.

Lemma prod_load_seq_ok g i sp a b pos :
  conc_inv N stride g → Z.of_nat (length (g_log g)) + N < 2 ^ 63 →
  g_prods g !! i = Some (PLoadSeq a b pos) →
  ∃ pc' m', prod_step sp (PLoadSeq a b pos) (g_mem g) = Some (pc', m') ∧
            conc_inv N stride (after_prod g i (PLoadSeq a b pos) pc' m').
Proof.
  intros Hinv Hbd Hi. pose proof Hinv as []. pose proof (iv_prod0 i _ Hi) as (Hty&Hpos).
  pose proof (cg_max _ iv_geom0) as Hmx. rewrite iv_max0 in Hmx.
  destruct b as [|b]; cbn [prod_step].
  { do 2 eexists. split; [done|]. rewrite after_prod_plain by done. by eapply inv_prod_local. }
  destruct (load_seq_spec N stride g pos Hinv Hbd Hpos) as (s&Hs&Hq&Hfree&_).
  cbn [ld_seq RingMem_Cells]. change (slot_at (slot_index pos (g_mem g)) (g_mem g)) with (pslot pos (g_mem g)).
  rewrite Hs. cbn [mbind option_bind fmap option_fmap option_map].
  rewrite !s64_small, s64_sub_small by lia. cbn [mbind option_bind].
  do 2 eexists. split; [done|].
  assert (Hg : ∀ pc', writing pc' = None → prod_ok (g_mem g) (g_log g) (eff_head g) pc' →
    conc_inv N stride (after_prod g i (PLoadSeq a (S b) pos) pc' (g_mem g))).
  { intros pc' Hw Hok. rewrite after_prod_plain by (by destruct pc').
    by eapply inv_prod_local. }
  destruct (Z.eqb_spec (sl_seq s - pos) 0); [|destruct (sl_seq s - pos <? 0)]; apply Hg; try done.
  simpl. rewrite iv_max0. split; [done|]. split; [done|]. intros Et. apply Hfree; [lia|done].
Qed.

Lemma prod_write_ok g i sp a pos st :
  conc_inv N stride g → Z.of_nat (length (g_log g)) + N < 2 ^ 63 →
  g_prods g !! i = Some (PWrite a pos st) →
  ∃ pc' m', prod_step sp (PWrite a pos st) (g_mem g) = Some (pc', m') ∧
            conc_inv N stride (after_prod g i (PWrite a pos st) pc' m').
Proof.
  intros Hinv Hbd Hi.
  destruct (write_values N stride g i a pos st Hinv Hi) as (s0&Hs&Hq&Hix&Hw&Hf&Hd&Hty&Hus&Hlen&Hb).
  destruct st; cbn [prod_step st_field st_body st_seq RingMem_Cells];
    rewrite ?Hd, ?Hw, ?Hf, ?Hty, ?Hus.
  - rewrite (upd_slot_ok _ _ _ _ Hs). do 2 eexists. split; [done|].
    rewrite after_prod_plain, Hix by done. by apply (inv_write_stage N stride g i a pos WLen WType s0).
  - rewrite (upd_slot_ok _ _ _ _ Hs). do 2 eexists. split; [done|].
    rewrite after_prod_plain, Hix by done. by apply (inv_write_stage N stride g i a pos WType WFlags s0).
  - rewrite (upd_slot_ok _ _ _ _ Hs). do 2 eexists. split; [done|].
    rewrite after_prod_plain, Hix by done. by apply (inv_write_stage N stride g i a pos WFlags WUser s0).
  - rewrite (upd_slot_ok _ _ _ _ Hs). do 2 eexists. split; [done|].
    rewrite after_prod_plain, Hix by done. by apply (inv_write_stage N stride g i a pos WUser WBody s0).
  - rewrite Hs. cbn [mbind option_bind]. rewrite bool_decide_true by lia.
    rewrite (upd_slot_ok _ _ _ _ Hs). do 2 eexists. split; [done|].
    rewrite after_prod_plain, Hix by done.
    apply (inv_write_stage N stride g i a pos WBody WPublish s0); try done.
    cbn [wslot set_body sl_body] in *. rewrite length_app, length_drop. simpl in *. lia.
  - rewrite (upd_slot_ok _ _ _ _ Hs). do 2 eexists. split; [done|].
    rewrite after_prod_plain, Hix, wslot_publish by done. by apply inv_write_publish.
Qed.

(** Every producer step from an invariant state is defined and keeps the invariant. *)
Lemma prod_step_ok g i sp pc :
  conc_inv N stride g → Z.of_nat (length (g_log g)) + N < 2 ^ 63 → g_prods g !! i = Some pc →
  ∃ pc' m', prod_step sp pc (g_mem g) = Some (pc', m') ∧
            conc_inv N stride (after_prod g i pc pc' m').
Proof.
  intros Hinv Hbd Hi. pose proof Hinv as []. pose proof (iv_prod0 i _ Hi) as Hok.
  destruct pc as [|a|a b pos|a b pos|a b| |a pos st|r].
  - do 2 eexists. split; [done|]. rewrite after_prod_plain by done. by eapply inv_prod_local.
  - cbn [prod_step]. change (rd_meta (g_mem g)) with (c_meta (g_mem g)).
    rewrite (cg_valid _ iv_geom0). cbn [negb ld_tail RingMem_Cells mbind option_bind].
    do 2 eexists. split; [done|]. rewrite after_prod_plain by done.
    eapply inv_prod_local; [done|done|done|]. split; [done|]. lia.
  - by apply prod_load_seq_ok.
  - by apply prod_cas_ok.
  - cbn [prod_step ld_tail RingMem_Cells mbind option_bind]. do 2 eexists. split; [done|].
    rewrite after_prod_plain by done. eapply inv_prod_local; [done|done|done|].
    split; [done|]. lia.
  - do 2 eexists. split; [done|]. unfold after_prod. cbn [ghost_claim ghost_full].
    rewrite app_nil_r.
    apply (inv_bump N stride (mkConc (g_mem g) (<[i := PRet (Error RingFull)]> (g_prods g))
      (g_cons g) (g_log g) (g_pops g) (g_full g))). by eapply inv_prod_local.
  - by apply prod_write_ok.
  - do 2 eexists. split; [done|]. rewrite after_prod_plain by done. by eapply inv_prod_local.
Qed.

Definition after_cons (g : conc Cells) (pc' : CPc) (m' : Cells) : conc Cells :=
  mkConc m' (g_prods g) pc' (g_log g) (g_pops g ++ ghost_pop (g_cons g)) (g_full g).

Lemma cons_local_ok g pc' :
  conc_inv N stride g → (∀ out pos res, g_cons g ≠ CStoreHead out pos res) →
  (∀ out pos res, pc' ≠ CStoreHead out pos res) →
  cons_ok (g_mem g) (g_log g) (c_head (g_mem g)) pc' →
  conc_inv N stride (after_cons g pc' (g_mem g)).
Proof.
  intros Hinv H1 H2 Hok. unfold after_cons.
  replace (ghost_pop (g_cons g)) with (@nil (bytes * (PoppedRecord * bytes))).
  - rewrite app_nil_r. by apply inv_cons_local.
  - destruct (g_cons g); try done. by destruct (H1 _ _ _ eq_refl).
Qed.

Definition writes_shared (pc : CPc) : bool := match pc with CFree _ _ _ | CStoreHead _ _ _ => true | _ => false end.

(** A consumer step that only reads. *)
Lemma cons_read_ok g :
  conc_inv N stride g → Z.of_nat (length (g_log g)) + N < 2 ^ 63 → writes_shared (g_cons g) = false →
  ∃ pc', cons_step (g_cons g) (g_mem g) = Some (pc', g_mem g) ∧
         (∀ out pos res, pc' ≠ CStoreHead out pos res) ∧ cons_ok (g_mem g) (g_log g) (c_head (g_mem g)) pc'.
Proof.
  intros Hinv Hbd Hread. pose proof Hinv as []. pose proof (eff_head_bounds g) as HH.
  pose proof (cg_max _ iv_geom0) as Hmx. rewrite iv_max0 in Hmx.
  assert (Hsl : ∀ pos, slot_at (slot_index pos (g_mem g)) (g_mem g) = pslot pos (g_mem g)) by done.
  destruct (g_cons g) as [|out|out pos|out pos|out pos size cp|out pos size cp body|out pos res
    |out pos res|r] eqn:Hc; cbn [cons_ok] in iv_cons0; cbn [cons_step]; try done.
  - by eexists.
  - change (rd_meta (g_mem g)) with (c_meta (g_mem g)). rewrite (cg_valid _ iv_geom0).
    cbn [negb ld_head RingMem_Cells mbind option_bind]. by eexists.
  - destruct iv_cons0 as [Hsm ->]. cbn [ld_seq RingMem_Cells]. rewrite Hsl.
    destruct (pslot_is_Some (g_mem g) (c_head (g_mem g)) iv_geom0) as [s Hs]. rewrite Hs.
    cbn [mbind option_bind fmap option_fmap option_map].
    destruct (Z.eqb_spec (sl_seq s) (u64 (c_head (g_mem g) + 1))) as [E|E]; cbn [negb]; [|by eexists].
    rewrite u64_small in E by lia. eexists. split; [done|]. split; [done|]. split_and!; [done..|].
    assert (HE : eff_head g = c_head (g_mem g)) by (unfold eff_head; rewrite Hc; lia).
    destruct (iv_slot0 (c_head (g_mem g))) as (s'&Hs'&Hst'); [lia|]. rewrite Hs in Hs'.
    injection Hs' as <-. destruct Hst' as [[? ?]|[(?&?&?)|(?&?&msg&?&?)]]; [lia..|].
    exists msg. split; [done|]. eauto.
  - destruct iv_cons0 as (Hsm&->&msg&Hp). pose proof Hp as (Hl&s&Hs&Hq&Hh).
    cbn [ld_field RingMem_Cells]. rewrite Hsl, Hs. cbn [mbind option_bind fmap option_fmap option_map get_field].
    pose proof (slot_at_body _ _ _ iv_geom0 Hs). pose proof (holds_len _ _ Hh). pose proof (cg_stride _ iv_geom0).
    rewrite (max_payload_cells _ iv_geom0). unfold small in Hsm.
    rewrite Z.min_l, u32_small by lia. eexists. split; [done|]. split; [done|].
    split_and!; [done..|]. exists msg. split; [done|]. destruct Hh as (E&_). by rewrite E.
  - destruct iv_cons0 as (Hsm&->&msg&Hp&->&->). pose proof Hp as (Hl&s&Hs&Hq&Hh).
    cbn [ld_body RingMem_Cells]. rewrite Hsl, Hs. cbn [mbind option_bind].
    pose proof (holds_len _ _ Hh). destruct Hh as (E&_&_&_&Hbody).
    rewrite bool_decide_true by lia. cbn [mbind option_bind]. eexists. split; [done|]. split; [done|].
    split_and!; [done..|]. exists msg. split_and!; [done..|].
    rewrite <-(f_equal (take _) Hbody), take_take. f_equal. lia.
  - destruct iv_cons0 as (Hsm&->&msg&Hp&->&->&->). pose proof Hp as (Hl&s&Hs&Hq&Hh).
    cbn [ld_field RingMem_Cells]. rewrite !Hsl, Hs. cbn [mbind option_bind fmap option_fmap option_map get_field].
    eexists. split; [done|]. split; [done|]. split; [done|]. exists msg. split; [done|].
    destruct Hh as (E&Hty&Hfl&Hus&Hbody). unfold popped. rewrite Hty, Hfl, Hus.
    rewrite <-Nat2Z.inj_min, Nat2Z.id. done.
  - by eexists.
Qed.

(** Every consumer step from an invariant state is defined and keeps the invariant. *)
Lemma cons_step_ok g :
  conc_inv N stride g → Z.of_nat (length (g_log g)) + N < 2 ^ 63 →
  ∃ pc' m', cons_step (g_cons g) (g_mem g) = Some (pc', m') ∧
            conc_inv N stride (after_cons g pc' m').
Proof.
  intros Hinv Hbd. destruct (writes_shared (g_cons g)) eqn:Hw.
  2: { destruct (cons_read_ok g Hinv Hbd Hw) as (pc'&->&Hn&Hok). do 2 eexists. split; [done|].
       apply cons_local_ok; try done. intros out pos res E. by rewrite E in Hw. }
  pose proof Hinv as []. pose proof (eff_head_bounds g) as HH. pose proof (cg_max _ iv_geom0) as Hmx. rewrite iv_max0 in Hmx.
  destruct (g_cons g) as [| | | | | |out pos res|out pos res|] eqn:Hc; try done; cbn [cons_ok] in iv_cons0; cbn [cons_step].
  - destruct iv_cons0 as (->&msg&Hp&Hr). pose proof Hp as (Hl&s&Hs&Hq&Hh).
    cbn [st_seq RingMem_Cells]. rewrite (upd_slot_ok _ _ _ _ Hs). cbn [mbind option_bind].
    do 2 eexists. split; [done|]. unfold after_cons. rewrite Hc. cbn [ghost_pop].
    rewrite app_nil_r. change (rd_meta (g_mem g)) with (c_meta (g_mem g)).
    rewrite iv_max0, u64_small by lia. by apply inv_cons_free.
  - destruct iv_cons0 as (->&_). cbn [st_head RingMem_Cells mbind option_bind].
    do 2 eexists. split; [done|]. unfold after_cons. rewrite Hc. cbn [ghost_pop].
    rewrite (u64_small (c_head (g_mem g) + 1)), (u64_small (c_head (g_mem g) + 1)) by lia.
    by apply inv_cons_head.
Qed.

(** The claim log only grows. *)
Lemma cstep_log {M} `{!RingMem M} (g g' : conc M) : cstep g g' → g_log g `prefix_of` g_log g'.
Proof. destruct 1; simpl; try done. by apply prefix_app_r. Qed.

Lemma cstep_inv g g' :
  conc_inv N stride g → Z.of_nat (length (g_log g)) + N < 2 ^ 63 → cstep g g' →
  conc_inv N stride g'.
Proof.
  intros Hinv Hbd Hs. destruct Hs as [g i a Hi Ha|g i sp pc pc' m' Hi Hs|g out Hc Ho|g pc' m' Hs].
  - by eapply inv_prod_local.
  - destruct (prod_step_ok g i sp pc Hinv Hbd Hi) as (pc1&m1&E&Hinv'). rewrite E in Hs.
    by injection Hs as <- <-.
  - apply inv_cons_local; try done. intros ???. by rewrite Hc.
  - destruct (cons_step_ok g Hinv Hbd) as (pc1&m1&E&Hinv'). rewrite E in Hs.
    by injection Hs as <- <-.
Qed.

Lemma init_inv n :
  2 ≤ N < 2 ^ 32 → RECORD_HEADER_SIZE ≤ stride < 2 ^ 32 →
  conc_inv N stride (conc_init n (init_cells N stride)).
Proof.
  intros HN Hs. pose proof (init_cells_rep N stride HN Hs) as [Hg _ _ _ _ _ Hfree].
  assert (Hidle : ∀ i pc, replicate n PIdle !! i = Some pc → pc = PIdle)
    by by intros i pc [-> _]%lookup_replicate.
  split; try done; cbn [g_mem g_prods g_cons g_log g_pops g_full conc_init].
  - unfold eff_head. simpl. lia.
  - intros p Hp. unfold eff_head in Hp. simpl in Hp.
    destruct (Hfree p) as (s&?&?); [simpl; lia|]. exists s. split; [done|]. left. split; [simpl; lia|done].
  - by intros i pc ->%Hidle.
  - intros i j pc pc' p ->%Hidle. done.
Qed.

(** Every reachable state satisfies the invariant, as long as the positions fit 63 bits. *)
Lemma reachable_inv n g :
  2 ≤ N < 2 ^ 32 → RECORD_HEADER_SIZE ≤ stride < 2 ^ 32 →
  reachable n (init_cells N stride) g → Z.of_nat (length (g_log g)) + N < 2 ^ 63 →
  conc_inv N stride g.
Proof.
  intros HN Hs Hr. unfold reachable in Hr. revert g Hr.
  apply (rtc_ind_r (λ g, Z.of_nat (length (g_log g)) + N < 2 ^ 63 → conc_inv N stride g));
    [intros _; by apply init_inv|].
  intros g g' _ Hstep IH Hb. pose proof (prefix_length _ _ (cstep_log _ _ Hstep)) as Hl.
  eapply cstep_inv; [apply IH; lia|lia|done].
Qed.
(** A slot ahead of its position belongs to a later lap. *)
Lemma load_seq_ahead g pos s :
  2 ≤ N → conc_inv N stride g → 0 ≤ pos ≤ Z.of_nat (length (g_log g)) →
  pslot pos (g_mem g) = Some s → pos < sl_seq s → pos < Z.of_nat (length (g_log g)).
Proof.
  intros HN Hinv Hpos Hs Hq. pose proof Hinv as []. pose proof (eff_head_bounds g) as HH.
  set (H := eff_head g) in *. set (t := Z.of_nat (length (g_log g))) in *.
  destruct (decide (pos < t)) as [|Hge]; [done|]. assert (pos = t) as -> by lia.
  destruct (decide (t < H + N)) as [Hlt|].
  - destruct (iv_slot0 t) as (s'&Hs'&Hst); [lia|]. rewrite Hs in Hs'. injection Hs' as <-.
    destruct Hst as [[_ ?]|[(?&_)|(?&_)]]; lia.
  - assert (Et : t = H + N) by lia. destruct (iv_slot0 H) as (s'&Hs'&Hst); [lia|].
    unfold pslot in *. rewrite iv_max0 in *. rewrite Et, mod_add_lap, Hs' in Hs by lia. injection Hs as <-.
    destruct Hst as [[_ ?]|[(_&?&_)|(_&?&_)]]; lia.
Qed.

(** Where an access of the claim loop leads, with [t] positions claimed and the consumer at [h]:
    a retry happens only when another producer has claimed the position meanwhile, or when the
    compare-and-swap fails spuriously, and a full ring is reported only on a full ring or after
    the last retry. *)
Definition attempt (t h : Z) (sp : bool) (pc pc' : PPc) : Prop :=
  match pc with
  | PStart a => pc' = PLoadSeq a MPSC_CAS_RETRY_BUDGET t
  | PLoadSeq a O pos => 0 ≤ pos ≤ t ∧ pc' = PBump
  | PLoadSeq a (S b) pos =>
      0 ≤ pos ≤ t ∧ (pc' = PCas a b pos ∨ (pc' = PReload a b ∧ pos < t) ∨ (pc' = PBump ∧ pos = t ∧ t = h + N))
  | PCas a b pos => 0 ≤ pos ≤ t ∧ (pc' = PWrite a pos WLen ∨ (pc' = PLoadSeq a b t ∧ (sp = true ∨ pos < t)))
  | PReload a b => pc' = PLoadSeq a b t
  | PBump => pc' = PRet (Error RingFull)
  | PWrite a pos st => (∃ st', pc' = PWrite a pos st') ∨ pc' = PRet (Value tt)
  | PIdle | PRet _ => pc' = PIdle
  end.

Lemma attempt_step g i sp pc pc' m' :
  2 ≤ N → conc_inv N stride g → Z.of_nat (length (g_log g)) + N < 2 ^ 63 → g_prods g !! i = Some pc →
  prod_step sp pc (g_mem g) = Some (pc', m') → attempt (Z.of_nat (length (g_log g))) (eff_head g) sp pc pc'.
Proof.
  intros HN Hinv Hbd Hi E. pose proof Hinv as []. pose proof (iv_prod0 i _ Hi) as Hok.
  destruct pc as [|a|a b pos|a b pos|a b| |a pos st|r]; cbn [attempt prod_step] in *.
  - by injection E as <- _.
  - change (rd_meta (g_mem g)) with (c_meta (g_mem g)) in E. rewrite (cg_valid _ iv_geom0) in E.
    cbn [negb ld_tail RingMem_Cells mbind option_bind] in E. injection E as <- _. by rewrite iv_tail0.
  - destruct Hok as [_ Hpos]. destruct b as [|b]; (split; [done|]); [by injection E as <- _|].
    destruct (load_seq_spec N stride g pos Hinv Hbd Hpos) as (s&Hs&Hq&_&Hfull).
    cbn [ld_seq RingMem_Cells] in E. change (slot_at (slot_index pos (g_mem g)) (g_mem g)) with (pslot pos (g_mem g)) in E.
    rewrite Hs in E. cbn [mbind option_bind fmap option_fmap option_map] in E.
    pose proof (cg_max _ iv_geom0) as Hmx. rewrite iv_max0 in Hmx.
    rewrite !s64_small, s64_sub_small in E by lia. cbn [mbind option_bind] in E. injection E as <- _.
    destruct (Z.eqb_spec (sl_seq s - pos) 0); [by left|]. right.
    destruct (Z.ltb_spec (sl_seq s - pos) 0); [right|left].
    + destruct Hfull; [lia|]. split_and!; [done|done|lia].
    + split; [done|]. eapply load_seq_ahead; [done|done|done|exact Hs|lia].
  - destruct Hok as (_&Hpos&_). split; [done|]. unfold cas_tail in E. cbn [ld_tail RingMem_Cells mbind option_bind] in E.
    unfold atomic_compare_exchange_weak_u64 in E. rewrite iv_tail0 in E.
    destruct sp; cbn [negb andb mbind option_bind] in E; [injection E as <- _; right; auto|].
    destruct (Z.eqb_spec (Z.of_nat (length (g_log g))) pos); cbn [st_tail RingMem_Cells mbind option_bind] in E;
      injection E as <- _; [by left|right; split; [done|right; lia]].
  - cbn [ld_tail RingMem_Cells mbind option_bind] in E. injection E as <- _. by rewrite iv_tail0.
  - by injection E as <- _.
  - destruct st; (match type of E with (?x ≫= _) = _ => destruct x; [|done] end); injection E as <- _; eauto.
  - by injection E as <- _.
Qed.
End steps.
