(* ===== verification/RingConcProps.v ===== *)
(** * Properties of the concurrent ring

    The machine of [RingConc] on the bytes of a segment simulates the machine on cells, so what
    the invariant of [RingInv] says holds of the bytes: with any number of producers and one
    consumer, in any interleaving, no access leaves the span, no record is torn, overwritten,
    duplicated or reordered, every reported loss is counted, and every call ends. *)

From S2P Require Import Prelude Types Sync RingMem RingCells RingBytes RingConc RingInv RingProps.

(** ** Simulation of the machines *)

Section machine_simulation.
Context {M1 M2 : Type} `{!RingMem M1, !RingMem M2} {R : M1 → M2 → Prop} `{!RingMemSim R}.
Context `{!RingMemGeom M2}.

(** The payload a producer is writing is a span of bytes, the length a consumer copies fits. *)
Definition pc_bytes (pc : PPc) : Prop :=
  match pc with PWrite a _ _ => is_bytes (a_payload a) | _ => True end.

Definition pc_copy (m : M2) (pc : CPc) : Prop :=
  match pc with
  | CReadBody _ _ _ copied => 0 ≤ copied ≤ record_stride (rd_meta m) - RECORD_HEADER_SIZE
  | _ => True
  end.

Definition geom_ok (m : M2) : Prop :=
  0 < record_max (rd_meta m) ∧ RECORD_HEADER_SIZE ≤ record_stride (rd_meta m).

(** A store that both memories make. *)
Lemma sim_then_ret {P} (x : option M1) (y : option M2) (pc : P) :
  option_Forall2 R x y →
  option_Forall2 (λ u v, u.1 = v.1 ∧ R u.2 v.2)
    (m ← x; Some (pc, m)) (m ← y; Some (pc, m)).
Proof. intros H. eapply option_Forall2_bind; [exact H|]. intros. by constructor. Qed.

Lemma sim_prod_step sp pc a b :
  R a b → geom_ok b → pc_bytes pc →
  option_Forall2 (λ x y, x.1 = y.1 ∧ R x.2 y.2) (prod_step sp pc a) (prod_step sp pc b).
Proof.
  intros HR [Hm Hs] Hpc. pose proof (λ pos, slot_index_range pos b Hm) as Hi.
  destruct pc as [|ar|ar bu pos|ar bu pos|ar bu| |ar pos st|r]; cbn [prod_step];
    rewrite ?(sim_slot_index _ _ _ HR), ?(sim_ld_tail _ _ HR), ?(sim_meta _ _ HR).
  - by constructor.
  - destruct (valid_meta _); cbn [negb]; [|by constructor].
    destruct (ld_tail b); cbn [mbind option_bind]; by constructor.
  - destruct bu as [|bu]; [by constructor|]. rewrite ?(sim_slot_index _ _ _ HR), (sim_ld_seq _ _ _ HR) by done.
    destruct (ld_seq _ b); cbn [mbind option_bind]; [|constructor].
    destruct (s64_sub _ _); cbn [mbind option_bind]; by constructor.
  - eapply option_Forall2_bind; [by apply sim_cas_tail|].
    intros [[r1 e1] a'] [[r2 e2] b'] _ _ ([= <- <-]&HR'&_). destruct r1; by constructor.
  - destruct (ld_tail b); cbn [mbind option_bind]; by constructor.
  - constructor. split; [done|]. by apply sim_bump_lost.
  - destruct st; rewrite ?(sim_slot_index _ _ _ HR), ?(sim_written_size _ _ _ HR),
      ?(sim_stored_flags _ _ _ _ HR); apply sim_then_ret;
      first [by apply sim_st_field | by apply sim_st_seq | apply sim_st_body; try done].
    + by apply Forall_take.
    + pose proof (written_size_bound (a_payload ar) b (proj2 (sim_meta_typed _ _ HR)) Hs).
      rewrite length_take. lia.
  - by constructor.
Qed.

Lemma sim_cons_step pc a b :
  R a b → geom_ok b → pc_copy b pc →
  option_Forall2 (λ x y, x.1 = y.1 ∧ R x.2 y.2) (cons_step pc a) (cons_step pc b).
Proof.
  intros HR [Hm Hs] Hpc. pose proof (λ pos, slot_index_range pos b Hm) as Hi.
  destruct pc; cbn [cons_step];
    rewrite ?(sim_slot_index _ _ _ HR), ?(sim_ld_head _ _ HR), ?(sim_meta _ _ HR),
      ?(sim_max_payload _ _ HR).
  - by constructor.
  - destruct (valid_meta _); cbn [negb]; [|by constructor].
    destruct (ld_head b); cbn [mbind option_bind]; by constructor.
  - rewrite (sim_ld_seq _ _ _ HR) by done.
    destruct (ld_seq _ b); cbn [mbind option_bind]; by constructor.
  - rewrite (sim_ld_field _ _ _ _ HR) by done.
    destruct (ld_field _ _ b); cbn [mbind option_bind]; by constructor.
  - rewrite (sim_ld_body _ _ _ _ HR) by done.
    destruct (ld_body _ _ b); cbn [mbind option_bind]; by constructor.
  - rewrite !(sim_ld_field _ _ _ _ HR) by done.
    destruct (ld_field FType _ b); cbn [mbind option_bind]; [|constructor].
    destruct (ld_field FFlags _ b); cbn [mbind option_bind]; [|constructor].
    destruct (ld_field FUser _ b); cbn [mbind option_bind]; by constructor.
  - apply sim_then_ret. by apply sim_st_seq.
  - apply sim_then_ret. by apply sim_st_head.
  - by constructor.
Qed.

(** Related systems: related memories, the same threads and ghosts. *)
Definition conc_rel (g : conc M1) (k : conc M2) : Prop :=
  R (g_mem g) (g_mem k) ∧ g_prods g = g_prods k ∧ g_cons g = g_cons k ∧ g_log g = g_log k ∧
  g_pops g = g_pops k ∧ g_full g = g_full k.

Lemma sim_cstep g g' k :
  conc_rel g k → geom_ok (g_mem k) →
  (∀ i pc, g_prods k !! i = Some pc → pc_bytes pc) → pc_copy (g_mem k) (g_cons k) →
  cstep g g' → ∃ k', cstep k k' ∧ conc_rel g' k'.
Proof.
  intros (HR&Ep&Ec&El&Eo&Ef) Hg Hpb Hpcopy Hs.
  destruct Hs as [g i a Hi Ha|g i sp pc pc' m' Hi Hs|g out Hc Ho|g pc' m' Hs];
    rewrite ?Ep, ?Ec, ?El, ?Eo, ?Ef in *.
  - eexists. split; [by apply step_push|]. by split_and!.
  - pose proof (sim_prod_step sp pc _ _ HR Hg (Hpb _ _ Hi)) as Hsim. rewrite Hs in Hsim.
    inversion Hsim as [x [pc2 k2] [E HR2] Ex Ey|]; subst. cbn [fst snd] in *. subst.
    eexists. split; [by eapply step_prod|]. rewrite (sim_meta _ _ HR). by split_and!.
  - eexists. split; [by apply step_pop|]. by split_and!.
  - pose proof (sim_cons_step (g_cons k) _ _ HR Hg Hpcopy) as Hsim. rewrite Hs in Hsim.
    inversion Hsim as [x [pc2 k2] [E HR2] Ex Ey|]; subst. cbn [fst snd] in *. subst.
    eexists. split; [by eapply step_cons|]. by split_and!.
Qed.
End machine_simulation.

(** ** The machine on bytes *)

(** The ring that [initialize] returned, and the geometry it has. *)
Lemma initialize_Value meta data payload rmax mp r meta' payload' :
  0 ≤ rmax < 2 ^ 32 → 0 ≤ mp < 2 ^ 32 → is_bytes payload →
  initialize meta data payload rmax mp = Some (Value r, meta', payload') →
  ring_abs r (init_cells rmax (record_stride_for mp)) ∧ 0 < rmax ∧
  RECORD_HEADER_SIZE ≤ record_stride_for mp < 2 ^ 32.
Proof.
  intros Hm Hp Hb E. pose proof (record_stride_for_range mp Hp) as [Hr Hr64].
  pose proof E as E'. unfold initialize in E'. cbv zeta in E'.
  set (stride := record_stride_for mp) in *. set (req := payload_size_for rmax stride) in *.
  destruct (Z.eqb_spec req 0) as [|Hreq]; [done|].
  destruct (Z.ltb_spec (Z.of_nat (length payload)) req); [done|].
  destruct (payload_aligned data) eqn:Ha; [|done]. clear E'.
  assert (rmax ≠ 0) by (intros ->; by apply Hreq).
  assert (stride ≠ 0).
  { intros Es. apply Hreq. unfold req, payload_size_for. rewrite Es. by destruct (rmax =? 0). }
  destruct (initialize_success meta data payload rmax mp) as (r2&p2&E2&Habs&_); try done; [lia|].
  rewrite E in E2. injection E2 as <- _ _. split_and!; [done|lia| |lia].
  unfold RECORD_HEADER_SIZE. fold stride. zlia.
Qed.

Lemma conc_inv_geom N stride g : conc_inv N stride g → geom_ok (g_mem g).
Proof. intros [[_ Hm Hs _ _]]. split; simpl; lia. Qed.

Lemma conc_inv_bytes N stride g i pc :
  conc_inv N stride g → g_prods g !! i = Some pc → pc_bytes pc.
Proof. intros Hinv Hi. destruct pc; try done. by destruct (iv_prod _ _ _ Hinv _ _ Hi) as ((_&?)&_). Qed.

Lemma conc_inv_copy N stride g : conc_inv N stride g → pc_copy (g_mem g) (g_cons g).
Proof.
  intros Hinv. pose proof (iv_cons _ _ _ Hinv) as Hok. destruct (g_cons g); try done.
  destruct Hok as (_&_&msg&(_&s&Hs&_&Hh)&->&->). cbn [pc_copy].
  pose proof (slot_at_body _ _ _ (iv_geom _ _ _ Hinv) Hs). pose proof (holds_len _ _ Hh).
  destruct Hh as (E&_). cbn [rd_meta RingMem_Cells]. lia.
Qed.

(** A reachable state of the bytes is related to an invariant state of the cells. *)
Lemma reachable_bytes n rmax stride r g :
  2 ≤ rmax < 2 ^ 32 → RECORD_HEADER_SIZE ≤ stride < 2 ^ 32 →
  ring_abs r (init_cells rmax stride) →
  reachable n r g → Z.of_nat (length (g_log g)) + rmax < 2 ^ 63 →
  ∃ k, conc_rel (R := ring_abs) g k ∧ conc_inv rmax stride k.
Proof.
  intros HN Hs Habs Hr. unfold reachable in Hr. revert g Hr.
  apply (rtc_ind_r (λ g, Z.of_nat (length (g_log g)) + rmax < 2 ^ 63 →
    ∃ k, conc_rel (R := ring_abs) g k ∧ conc_inv rmax stride k)).
  - intros _. exists (conc_init n (init_cells rmax stride)). split; [by split_and!|by apply init_inv].
  - intros g g' _ Hstep IH Hb. pose proof (prefix_length _ _ (cstep_log _ _ Hstep)) as Hl.
    destruct IH as (k&Hk&Hinv); [lia|].
    destruct (sim_cstep g g' k) as (k'&Hstep'&Hk');
      eauto using conc_inv_geom, conc_inv_bytes, conc_inv_copy.
    exists k'. split; [done|]. eapply cstep_inv; [done| |done].
    destruct Hk as (_&_&_&<-&_). lia.
Qed.

(** What the invariant gives in a reachable state, for the claims below and for the programs of
    threads. *)
Section conc_facts.
Context (rmax stride : Z) (r : MpscRing) (n : nat) (g : conc MpscRing).
Hypothesis Hmax : 2 ≤ rmax < 2 ^ 32.
Hypothesis Hstride : RECORD_HEADER_SIZE ≤ stride < 2 ^ 32.
Hypothesis Habs : ring_abs r (init_cells rmax stride).
Hypothesis Hreach : reachable n r g.
Hypothesis Hbound : Z.of_nat (length (g_log g)) + rmax < 2 ^ 63.

Lemma conc_pops_ordered :
  (∀ k out res, g_pops g !! k = Some (out, res) →
     ∃ msg, g_log g !! k = Some msg ∧ res = popped msg out) ∧
  Z.of_nat (length (g_pops g)) ≤ Z.of_nat (length (g_log g)) ≤
  Z.of_nat (length (g_pops g)) + 1 + rmax.
Proof.
  destruct (reachable_bytes n rmax stride r g) as (k&(_&_&_&El&Eo&_)&Hinv); try done.
  rewrite El, Eo. split; [apply Hinv|].
  pose proof (iv_win _ _ _ Hinv). pose proof (eff_head_bounds k). lia.
Qed.

Lemma conc_prod_defined i pc sp :
  g_prods g !! i = Some pc → is_Some (prod_step sp pc (g_mem g)).
Proof.
  intros Hi. destruct (reachable_bytes n rmax stride r g) as (k&(HR&Ep&Ec&El&_)&Hinv); try done.
  rewrite Ep in Hi. assert (Hb : Z.of_nat (length (g_log k)) + rmax < 2 ^ 63) by by rewrite <-El.
  destruct (prod_step_ok _ _ k i sp pc Hinv Hb Hi) as (pc'&m'&E&_).
  pose proof (sim_prod_step sp pc _ _ HR (conc_inv_geom _ _ _ Hinv)
    (conc_inv_bytes _ _ _ _ _ Hinv Hi)) as Hsim. rewrite E in Hsim. by inversion Hsim.
Qed.

Lemma conc_attempt i sp pc pc' m' :
  g_prods g !! i = Some pc → prod_step sp pc (g_mem g) = Some (pc', m') →
  ∃ h, attempt rmax (Z.of_nat (length (g_log g))) h sp pc pc' ∧ 0 ≤ h ∧
       Z.of_nat (length (g_pops g)) ≤ h ≤ Z.of_nat (length (g_pops g)) + 1.
Proof.
  intros Hi E. destruct (reachable_bytes n rmax stride r g) as (k&(HR&Ep&Ec&El&Eo&_)&Hinv); try done.
  rewrite Ep in Hi. rewrite El, Eo in *. exists (eff_head k).
  pose proof (sim_prod_step sp pc _ _ HR (conc_inv_geom _ _ _ Hinv) (conc_inv_bytes _ _ _ _ _ Hinv Hi)) as Hsim.
  rewrite E in Hsim. inversion Hsim as [x [pc2 k2] [E2 HR2] Ex Ey|]. cbn [fst snd] in *. subst.
  split; [|pose proof (eff_head_bounds k); lia]. eapply attempt_step; try done. lia.
Qed.

Lemma conc_lost : ring_lost_count (g_mem g) = u64 (g_full g).
Proof.
  destruct (reachable_bytes n rmax stride r g) as (k&(HR&_&_&_&_&Ef)&Hinv); try done.
  unfold ring_lost_count, atomic_load_u64. rewrite (sim_meta _ _ HR), Ef. apply Hinv.
Qed.

Lemma conc_cons_defined : is_Some (cons_step (g_cons g) (g_mem g)).
Proof.
  destruct (reachable_bytes n rmax stride r g) as (k&(HR&Ep&Ec&El&_)&Hinv); try done.
  rewrite Ec. assert (Hb : Z.of_nat (length (g_log k)) + rmax < 2 ^ 63) by by rewrite <-El.
  destruct (cons_step_ok _ _ k Hinv Hb) as (pc'&m'&E&_).
  pose proof (sim_cons_step (g_cons k) _ _ HR (conc_inv_geom _ _ _ Hinv)
    (conc_inv_copy _ _ _ Hinv)) as Hsim. rewrite E in Hsim. by inversion Hsim.
Qed.

Lemma conc_queue :
  (∀ i pc, g_prods g !! i = Some pc → writing pc = None) → g_cons g = CIdle →
  ring_queue (g_mem g) (mkFifo (drop (length (g_pops g)) (g_log g)) (u64 (g_full g))) ∧
  c_tail (abs_cells (g_mem g)) = Z.of_nat (length (g_log g)) ∧
  record_max (meta_ (g_mem g)) = rmax ∧ record_stride (meta_ (g_mem g)) = stride.
Proof.
  intros Hq Hc. destruct (reachable_bytes n rmax stride r g) as (k&([Hg Hk]&Ep&Ec&El&Eo&Ef)&Hinv); try done.
  rewrite Ep, Ec, El, Eo, Ef in *. change (meta_ (g_mem g)) with (c_meta (abs_cells (g_mem g))).
  pose proof Hinv as []. rewrite <-Hk. split; [|by split_and!]. split; [done|]. rewrite <-Hk.
  assert (EH : eff_head k = Z.of_nat (length (g_pops k))) by (unfold eff_head; rewrite Hc; lia).
  split; cbn [f_queue f_lost]; rewrite ?length_drop; try done; try lia.
  - intros j msg Hj. rewrite lookup_drop in Hj. apply lookup_lt_Some in Hj as Hlt.
    destruct (iv_slot (c_head (g_mem k) + Z.of_nat j)) as (s&Hs&Hst); [lia|].
    exists s. split; [done|].
    destruct Hst as [[? _]|[(_&_&i&pc&Hi&Hw)|(_&?&msg'&Hm&?)]]; [lia| |].
    + by rewrite (Hq _ _ Hi) in Hw.
    + split; [done|]. replace (Z.to_nat (c_head (g_mem k) + Z.of_nat j)) with (length (g_pops k) + j)%nat in Hm by lia.
      rewrite Hj in Hm. by injection Hm as ->.
  - intros p Hp. destruct (iv_slot p) as (s&Hs&Hst); [lia|]. exists s. split; [done|].
    destruct Hst as [[_ ?]|[(?&_)|(?&_)]]; [done|lia|lia].
Qed.
End conc_facts.

Section concurrent_ring.
Context (meta : RecordRingMeta) (data : Z) (payload : bytes) (rmax mp : Z).
Context (r : MpscRing) (meta' : RecordRingMeta) (payload' : bytes) (n : nat) (g : conc MpscRing).
Hypothesis Hmax : 2 ≤ rmax < 2 ^ 32.
Hypothesis Hmp : 0 ≤ mp < 2 ^ 32.
Hypothesis Hbytes : is_bytes payload.
Hypothesis Hinit : initialize meta data payload rmax mp = Some (Value r, meta', payload').
Hypothesis Hreach : reachable n r g.
Hypothesis Hbound : Z.of_nat (length (g_log g)) + rmax < 2 ^ 63.

Lemma init_facts :
  RECORD_HEADER_SIZE ≤ record_stride_for mp < 2 ^ 32 ∧ ring_abs r (init_cells rmax (record_stride_for mp)).
Proof. destruct (initialize_Value meta data payload rmax mp r meta' payload') as (?&_&?); try done; lia. Qed.

Lemma conc_cells : ∃ k, conc_rel (R := ring_abs) g k ∧ conc_inv rmax (record_stride_for mp) k.
Proof.
  destruct (initialize_Value meta data payload rmax mp r meta' payload') as (Habs&_&Hs); try done; [lia|].
  by eapply reachable_bytes.
Qed.

(** C1: with any number of producers and one consumer on the bytes of a ring, in any
    interleaving of their accesses, the [k]-th pop returns exactly the [k]-th claimed message:
    the type, flags, user value, size and bytes its producer pushed, truncated to the record and to
    the consumer's buffer. Nothing is lost, torn, duplicated or reordered, and at most
    [record_max] messages are in the ring beside the one being released. *)
Theorem concurrent_pops_in_order :
  (∀ k out res, g_pops g !! k = Some (out, res) →
     ∃ msg, g_log g !! k = Some msg ∧ res = popped msg out) ∧
  Z.of_nat (length (g_pops g)) ≤ Z.of_nat (length (g_log g)) ≤
  Z.of_nat (length (g_pops g)) + 1 + rmax.
Proof. destruct init_facts. by apply (conc_pops_ordered rmax (record_stride_for mp) r n). Qed.

(** C25: from a reachable state every access a producer or the consumer makes next is
    defined: it stays inside the span and the signed difference of the claim loop does not
    overflow. *)
Theorem concurrent_accesses_defined i pc sp :
  g_prods g !! i = Some pc →
  is_Some (prod_step sp pc (g_mem g)) ∧ is_Some (cons_step (g_cons g) (g_mem g)).
Proof.
  intros Hi. destruct init_facts. split; [by eapply (conc_prod_defined rmax (record_stride_for mp) r n)|].
  by apply (conc_cons_defined rmax (record_stride_for mp) r n).
Qed.

(** C24: the plain accesses to records do not race: two producers between their claim and
    their publication write different slots, and none writes the slot the consumer reads. *)
Theorem concurrent_race_free i pc p :
  g_prods g !! i = Some pc → writing pc = Some p →
  (∀ j pc' p', g_prods g !! j = Some pc' → writing pc' = Some p' → i ≠ j →
     slot_index p (g_mem g) ≠ slot_index p' (g_mem g)) ∧
  (∀ h, reading (g_cons g) = true → ld_head (g_mem g) = Some h →
     slot_index p (g_mem g) ≠ slot_index h (g_mem g)).
Proof.
  intros Hi Hw. destruct conc_cells as (k&(HR&Ep&Ec&_)&Hinv). rewrite Ep, Ec in *.
  rewrite (sim_ld_head _ _ HR). cbn [ld_head RingMem_Cells].
  setoid_rewrite (λ x, sim_slot_index x _ _ HR). unfold slot_index. cbn [rd_meta RingMem_Cells].
  pose proof Hinv as []. rewrite iv_max. destruct pc; try done. injection Hw as ->.
  destruct (iv_prod i _ Hi) as (_&Hp&_&s0&Hs0&Hq0).
  assert (Hne : ∀ q, eff_head k ≤ q < eff_head k + rmax → p ≠ q → p mod rmax ≠ q mod rmax).
  { intros q Hq Hn E. apply Hn. eapply (mod_inj_window rmax); [lia|done|lia]. }
  split.
  - intros j pc' p' Hj Hw' Hij. destruct pc'; try done. injection Hw' as ->.
    destruct (iv_prod j _ Hj) as (_&Hp'&_). apply Hne; [lia|]. intros <-. apply Hij.
    by eapply iv_uniq.
  - intros h Hr [= <-]. pose proof (eff_head_reading _ Hr). apply Hne; [lia|]. intros ->.
    destruct (cons_ok_pub _ _ _ _ iv_cons Hr) as (msg&_&s&Hs&Hq&_).
    rewrite Hs0 in Hs. injection Hs as <-. rewrite sl_seq_wslot in Hq. lia.
Qed.

(** Losses are accounted for: the shared loss counter is the number of pushes that
    reported [RingFull], and a push that gives up because of a full slot does so in a state where
    [record_max] messages are claimed and not yet released. *)
Theorem concurrent_losses i a b pos m' :
  g_prods g !! i = Some (PLoadSeq a (S b) pos) →
  prod_step false (PLoadSeq a (S b) pos) (g_mem g) = Some (PBump, m') →
  ring_lost_count (g_mem g) = u64 (g_full g) ∧
  Z.of_nat (length (g_log g)) = pos ∧
  rmax ≤ Z.of_nat (length (g_log g)) - Z.of_nat (length (g_pops g)) ≤ rmax + 1.
Proof.
  intros Hi Hs. destruct init_facts as [Hst Habs].
  split; [by apply (conc_lost rmax (record_stride_for mp) r n)|].
  destruct (conc_attempt rmax (record_stride_for mp) r n g Hmax Hst Habs Hreach Hbound i false _ _ m' Hi Hs)
    as (h&(_&[?|[[? _]|(_&->&?)]])&_&Hh); [done|done|]. split; [done|lia].
Qed.

(** When no producer is between claim and publication and the consumer is idle, the
    bytes represent the FIFO queue of the claimed and not yet popped messages, so the sequential
    theorems apply from there. *)
Theorem concurrent_quiescent :
  (∀ i pc, g_prods g !! i = Some pc → writing pc = None) → g_cons g = CIdle →
  ring_queue (g_mem g) (mkFifo (drop (length (g_pops g)) (g_log g)) (u64 (g_full g))).
Proof. intros Hq Hc. destruct init_facts. by apply (conc_queue rmax (record_stride_for mp) r n). Qed.
End concurrent_ring.

(** ** Termination and the link to the sequential functions *)

(** How many more accesses a call can make. *)
Definition prod_measure (pc : PPc) : nat :=
  match pc with
  | PIdle => 0
  | PRet _ => 1
  | PBump => 2
  | PWrite _ _ st =>
      match st with WPublish => 2 | WBody => 3 | WUser => 4 | WFlags => 5 | WType => 6 | WLen => 7 end
  | PLoadSeq _ b _ => 3 * b + 8
  | PCas _ b _ | PReload _ b => 3 * b + 9
  | PStart _ => 3 * MPSC_CAS_RETRY_BUDGET + 9
  end.

Definition cons_measure (pc : CPc) : nat :=
  match pc with
  | CIdle => 0 | CRet _ => 1 | CStoreHead _ _ _ => 2 | CFree _ _ _ => 3
  | CReadHdr _ _ _ _ _ => 4 | CReadBody _ _ _ _ => 5 | CReadLen _ _ => 6 | CLoadSeq _ _ => 7
  | CStart _ => 8
  end.

Section wait_free.
Context {M : Type} `{!RingMem M}.

(** [k] accesses of one call, between which the other threads change the memory at will. *)
Inductive prod_own : nat → PPc → PPc → Prop :=
  | prod_own_O pc : prod_own 0 pc pc
  | prod_own_S k sp pc pc' pc'' (m m' : M) :
      pc ≠ PIdle → prod_step sp pc m = Some (pc', m') → prod_own k pc' pc'' →
      prod_own (S k) pc pc''.

Inductive cons_own : nat → CPc → CPc → Prop :=
  | cons_own_O pc : cons_own 0 pc pc
  | cons_own_S k pc pc' pc'' (m m' : M) :
      pc ≠ CIdle → cons_step pc m = Some (pc', m') → cons_own k pc' pc'' →
      cons_own (S k) pc pc''.

Lemma prod_step_measure sp pc (m : M) pc' m' :
  pc ≠ PIdle → prod_step sp pc m = Some (pc', m') → (prod_measure pc' < prod_measure pc)%nat.
Proof.
  intros Hne. destruct pc as [|a|a b pos|a b pos|a b| |a pos st|r]; cbn [prod_step].
  - done.
  - destruct (valid_meta _); cbn [negb]; [|intros [= <- _]; cbn [prod_measure]; lia].
    destruct (ld_tail m); [|done]. intros [= <- _]. cbn [prod_measure]. lia.
  - destruct b as [|b]; [intros [= <- _]; simpl; lia|].
    destruct (ld_seq _ m); [|done]. cbn [mbind option_bind].
    destruct (s64_sub _ _) as [d|]; [|done]. cbn [mbind option_bind]. intros [= <- _].
    destruct (d =? 0); [|destruct (d <? 0)]; cbn [prod_measure]; lia.
  - destruct (cas_tail _ _ _ m) as [[[[] ?] ?]|]; [| |done]; cbn [mbind option_bind];
      intros [= <- _]; cbn [prod_measure]; lia.
  - destruct (ld_tail m); [|done]. intros [= <- _]. cbn [prod_measure]. lia.
  - intros [= <- _]. simpl. lia.
  - destruct st; (match goal with |- (?x ≫= _) = _ → _ => destruct x; [|done] end);
      intros [= <- _]; simpl; lia.
  - intros [= <- _]. simpl. lia.
Qed.

Lemma cons_step_measure pc (m : M) pc' m' :
  pc ≠ CIdle → cons_step pc m = Some (pc', m') → (cons_measure pc' < cons_measure pc)%nat.
Proof.
  intros Hne. destruct pc; cbn [cons_step].
  2:{ destruct (valid_meta _); cbn [negb]; [|intros [= <- _]; simpl; lia].
      destruct (ld_head m); [|done]. intros [= <- _]. simpl. lia. }
  2:{ destruct (ld_seq _ m); [|done]. cbn [mbind option_bind]. intros [= <- _].
      destruct (negb _); simpl; lia. }
  4:{ destruct (ld_field FType _ m); [|done]. cbn [mbind option_bind].
      destruct (ld_field FFlags _ m); [|done]. cbn [mbind option_bind].
      destruct (ld_field FUser _ m); [|done]. intros [= <- _]. simpl. lia. }
  all: try done.
  1-4: match goal with |- (?x ≫= _) = _ → _ => destruct x; [|done] end; intros [= <- _]; simpl; lia.
  intros [= <- _]. simpl. lia.
Qed.

Lemma prod_own_measure k pc pc' : prod_own k pc pc' → (k + prod_measure pc' ≤ prod_measure pc)%nat.
Proof.
  induction 1 as [|k sp pc pc' pc'' m m' Hne Hs _ IH]; [lia|].
  pose proof (prod_step_measure _ _ _ _ _ Hne Hs). lia.
Qed.

Lemma cons_own_measure k pc pc' : cons_own k pc pc' → (k + cons_measure pc' ≤ cons_measure pc)%nat.
Proof.
  induction 1 as [|k pc pc' pc'' m m' Hne Hs _ IH]; [lia|].
  pose proof (cons_step_measure _ _ _ _ Hne Hs). lia.
Qed.


Context `{!RingMemGeom M}.

(** The machine's threads are the sequential operations: whatever [try_push] and
    [try_pop] compute on a memory, a producer or the consumer running alone computes, access by
    access. *)
Theorem threads_run_operations spurious a out (m m1 m2 : M) r res :
  try_push spurious (a_type a) (a_flags a) (a_user a) (a_payload a) m = Some (r, m1) →
  try_pop out m = Some (res, m2) →
  rtc prod_rel (PStart a, m) (PRet r, m1) ∧ rtc cons_rel (CStart out, m) (CRet res, m2).
Proof. intros H1 H2. split; [by eapply push_solo|by apply pop_solo]. Qed.
End wait_free.

(** ** Concrete runs *)

Definition demo_res : option (Result MpscRing * RecordRingMeta * bytes) :=
  initialize (init_meta 0 0) 4096 (replicate 272 0) 2 8.

Definition demo0 : MpscRing :=
  match demo_res with Some (Value r, _, _) => r | _ => mkMpscRing (init_meta 0 0) [] end.

Definition demo0_meta : RecordRingMeta :=
  match demo_res with Some (_, meta, _) => meta | _ => init_meta 0 0 end.

Definition demo0_payload : bytes := match demo_res with Some (_, _, p) => p | _ => [] end.

Definition argsA : Args := mkArgs 1 0 7 [1;2;3].
Definition argsB : Args := mkArgs 2 0 8 [4;5].

(** Two producers that both lose and win a compare-and-swap, up to both writing. *)
Definition acts_claim : list action :=
  [APush 0 argsA; APush 1 argsB; AProd 0 false; AProd 1 false; AProd 0 false; AProd 1 false;
   AProd 0 false; AProd 1 false; AProd 1 false; AProd 1 false].

(** Producer 1 publishes first, producer 0 after it; the consumer finds the ring empty, then
    pops both. *)
Definition acts_pops : list action :=
  acts_claim ++ replicate 7 (AProd 1 false) ++ [APop (replicate 4 0); ACons; ACons; ACons] ++
  replicate 7 (AProd 0 false) ++ APop (replicate 4 0) :: replicate 8 ACons ++
  APop [0] :: replicate 8 ACons.

(** A third push on the full ring, up to the load that sees the full slot. *)
Definition acts_full : list action :=
  acts_claim ++ replicate 7 (AProd 1 false) ++ replicate 7 (AProd 0 false) ++
  [APush 0 argsA; AProd 0 false].

Definition demo_conc (acts : list action) : conc MpscRing := run_actions acts (conc_init 2 demo0).

(** The hypotheses of the concurrency theorems, for a concrete run. *)
Lemma demo_bytes : is_bytes (replicate 272 0).
Proof. solve_bytes. Qed.

Lemma demo_max : 2 ≤ 2 < 2 ^ 32.
Proof. lia. Qed.

Lemma demo_mp : 0 ≤ 8 < 2 ^ 32.
Proof. lia. Qed.

Lemma demo_init :
  initialize (init_meta 0 0) 4096 (replicate 272 0) 2 8 = Some (Value demo0, demo0_meta, demo0_payload).
Proof. by vm_compute. Qed.

Lemma demo_reachable acts : reachable 2 demo0 (demo_conc acts).
Proof. apply run_actions_reachable. Qed.

Lemma demo_bound acts :
  (Z.of_nat (length (g_log (demo_conc acts))) + 2 <? 2 ^ 63) = true →
  Z.of_nat (length (g_log (demo_conc acts))) + 2 < 2 ^ 63.
Proof. apply Z.ltb_lt. Qed.

Lemma concurrent_pops_in_order_witness :
  g_pops (demo_conc acts_pops) =
    [(replicate 4 0, popped (mkMsg 1 0 7 [1;2;3]) (replicate 4 0)); ([0], popped (mkMsg 2 0 8 [4;5]) [0])] ∧
  (∀ k out res, g_pops (demo_conc acts_pops) !! k = Some (out, res) →
     ∃ msg, g_log (demo_conc acts_pops) !! k = Some msg ∧ res = popped msg out).
Proof.
  split; [by vm_compute|].
  exact (proj1 (concurrent_pops_in_order (init_meta 0 0) 4096 (replicate 272 0) 2 8 demo0 demo0_meta demo0_payload 2 (demo_conc acts_pops) demo_max demo_mp
    demo_bytes demo_init (demo_reachable acts_pops) (demo_bound acts_pops eq_refl))).
Defined.

Lemma concurrent_accesses_defined_witness :
  is_Some (prod_step false (PWrite argsA 0 WLen) (g_mem (demo_conc acts_claim))).
Proof.
  exact (proj1 (concurrent_accesses_defined (init_meta 0 0) 4096 (replicate 272 0) 2 8 demo0 demo0_meta demo0_payload 2 (demo_conc acts_claim) demo_max demo_mp
    demo_bytes demo_init (demo_reachable acts_claim) (demo_bound acts_claim eq_refl)
    0%nat (PWrite argsA 0 WLen) false ltac:(by vm_compute))).
Defined.

Lemma concurrent_race_free_witness :
  slot_index 0 (g_mem (demo_conc acts_claim)) ≠ slot_index 1 (g_mem (demo_conc acts_claim)).
Proof.
  refine (proj1 (concurrent_race_free (init_meta 0 0) 4096 (replicate 272 0) 2 8 demo0 demo0_meta demo0_payload 2 (demo_conc acts_claim) demo_max demo_mp
    demo_bytes demo_init (demo_reachable acts_claim) (demo_bound acts_claim eq_refl)
    0%nat (PWrite argsA 0 WLen) 0 ltac:(by vm_compute) eq_refl)
    1%nat (PWrite argsB 1 WLen) 1 ltac:(by vm_compute) eq_refl ltac:(done)).
Defined.

Lemma concurrent_losses_witness :
  Z.of_nat (length (g_log (demo_conc acts_full))) = 2.
Proof.
  exact (proj1 (proj2 (concurrent_losses (init_meta 0 0) 4096 (replicate 272 0) 2 8 demo0 demo0_meta demo0_payload 2 (demo_conc acts_full) demo_max demo_mp
    demo_bytes demo_init (demo_reachable acts_full) (demo_bound acts_full eq_refl)
    0%nat argsA 63%nat 2 (g_mem (demo_conc acts_full)) ltac:(by vm_compute) ltac:(by vm_compute)))).
Defined.

Lemma concurrent_quiescent_witness :
  ring_queue (g_mem (demo_conc acts_full))
    (mkFifo (drop (length (g_pops (demo_conc acts_full))) (g_log (demo_conc acts_full)))
       (u64 (g_full (demo_conc acts_full)))).
Proof.
  refine (concurrent_quiescent (init_meta 0 0) 4096 (replicate 272 0) 2 8 demo0 demo0_meta demo0_payload 2 (demo_conc acts_full) demo_max demo_mp
    demo_bytes demo_init (demo_reachable acts_full) (demo_bound acts_full eq_refl) _ ltac:(by vm_compute)).
  intros i pc Hi.
  assert (E : g_prods (demo_conc acts_full) = [PLoadSeq argsA 64 2; PIdle]) by by vm_compute.
  rewrite E in Hi. clear E. destruct i as [|[|i]]; simpl in Hi;
    [injection Hi as <-; reflexivity..|discriminate].
Defined.


Lemma threads_run_operations_witness :
  ∃ r m1 res m2,
    try_push (λ _, false) 1 0 7 [1;2;3] demo_ring = Some (r, m1) ∧
    try_pop [] demo_ring = Some (res, m2) ∧
    rtc prod_rel (PStart argsA, demo_ring) (PRet r, m1) ∧
    rtc cons_rel (CStart [], demo_ring) (CRet res, m2).
Proof.
  destruct (try_push (λ _, false) 1 0 7 [1;2;3] demo_ring) as [[r m1]|] eqn:E1;
    [|vm_compute in E1; discriminate].
  destruct (try_pop [] demo_ring) as [[res m2]|] eqn:E2; [|vm_compute in E2; discriminate].
  exists r, m1, res, m2. split; [reflexivity|]. split; [reflexivity|].
  exact (threads_run_operations (λ _, false) argsA [] demo_ring m1 m2 r res E1 E2).
Defined.
