(* ===== verification/Threads.v ===== *)
(** * Programs of threads on one ring

    The loops the clients of a ring run: worker threads that push their jobs one after the other,
    and a consumer that pops until it has seen a given number of records. A worker either repeats a
    push until it succeeds, as the ring example and the benchmark do, or takes the result and
    goes on, as callers of a logger do. Workers and consumer interleave access by access on the
    machine of [RingConc]. *)

From S2P Require Import Prelude Types Sync RingMem RingCells RingBytes RingProps.
From S2P Require Import RingConc RingInv RingConcProps.

(** ** Programs *)

Section program.
Context {M : Type} `{!RingMem M}.

(** The ring machine, the jobs each worker has left (the one it is pushing first), its calls so far
    with their results, the consumer's buffer and what it has popped. [pg_claims] is ghost state: who claimed
    a position for which job, in the order of the positions. *)
Record prog := mkProg {
  pg_ring : conc M;
  pg_jobs : list (list Args);
  pg_calls : list (list (Args * Result unit));
  pg_scratch : bytes;
  pg_popped : list (PoppedRecord * bytes);
  pg_claims : list (nat * Args);
}.

Definition with_producer (i : nat) (pc : PPc) (g : conc M) : conc M :=
  mkConc (g_mem g) (<[i := pc]> (g_prods g)) (g_cons g) (g_log g) (g_pops g) (g_full g).

Definition with_consumer (pc : CPc) (g : conc M) : conc M :=
  mkConc (g_mem g) (g_prods g) pc (g_log g) (g_pops g) (g_full g).

Definition with_ring (g : conc M) (p : prog) : prog :=
  mkProg g (pg_jobs p) (pg_calls p) (pg_scratch p) (pg_popped p) (pg_claims p).

(** The ghost entry of a worker's access. *)
Definition claim_of (i : nat) (pc pc' : PPc) : list (nat * Args) :=
  match pc, pc' with PCas a _ _, PWrite _ _ _ => [(i, a)] | _, _ => [] end.

(** The jobs left after a call returned: [retry] keeps the job of a call that failed. *)
Definition jobs_after (retry : bool) (r : Result unit) (js : list Args) : list Args :=
  if (retry && negb (has_value r))%bool then js else tail js.

(** An access of worker [i] that leaves it at [q.1] and the memory as [q.2]. *)
Definition after_access (i : nat) (pc : PPc) (q : PPc * M) (p : prog) : prog :=
  let g := pg_ring p in
  mkProg
    (mkConc q.2 (<[i := q.1]> (g_prods g)) (g_cons g)
       (g_log g ++ ghost_claim (record_stride (rd_meta (g_mem g))) pc q.1)
       (g_pops g) (g_full g + ghost_full pc))
    (pg_jobs p) (pg_calls p) (pg_scratch p) (pg_popped p) (pg_claims p ++ claim_of i pc q.1).

(** The next step of worker [i]: begin a call, make an access of it, or return from it; [None]
    when the worker has ended, or on an undefined access. *)
Definition worker_step (retry : bool) (i : nat) (spurious : bool) (p : prog) : option prog :=
  let g := pg_ring p in
  pc ← g_prods g !! i;
  js ← pg_jobs p !! i;
  match pc, js with
  | _, [] => None
  | PIdle, a :: _ => Some (with_ring (with_producer i (PStart a) g) p)
  | PRet r, a :: _ =>
      Some (mkProg (with_producer i PIdle g) (<[i := jobs_after retry r js]> (pg_jobs p))
              (alter (λ cs, cs ++ [(a, r)]) i (pg_calls p)) (pg_scratch p) (pg_popped p) (pg_claims p))
  | _, _ =>
      q ← prod_step spurious pc (g_mem g); Some (after_access i pc q p)
  end.

(** The next step of the consumer, which stops after [total] records. *)
Definition consumer_step (total : nat) (p : prog) : option prog :=
  let g := pg_ring p in
  match g_cons g with
  | CIdle =>
      if (length (pg_popped p) <? total)%nat
      then Some (with_ring (with_consumer (CStart (pg_scratch p)) g) p) else None
  | CRet None => Some (with_ring (with_consumer CIdle g) p)
  | CRet (Some (record, scratch)) =>
      Some (mkProg (with_consumer CIdle g) (pg_jobs p) (pg_calls p) scratch
              (pg_popped p ++ [(record, scratch)]) (pg_claims p))
  | pc =>
      q ← cons_step pc (g_mem g);
      Some (with_ring (mkConc q.2 (g_prods g) q.1 (g_log g) (g_pops g ++ ghost_pop pc) (g_full g)) p)
  end.

Inductive pstep (retry : bool) (total : nat) (p : prog) : prog → Prop :=
  | pstep_worker i sp p' : worker_step retry i sp p = Some p' → pstep retry total p p'
  | pstep_consumer p' : consumer_step total p = Some p' → pstep retry total p p'.

(** The steps when no compare-and-swap fails spuriously. *)
Inductive pstep_strong (retry : bool) (total : nat) (p : prog) : prog → Prop :=
  | strong_worker i p' : worker_step retry i false p = Some p' → pstep_strong retry total p p'
  | strong_consumer p' : consumer_step total p = Some p' → pstep_strong retry total p p'.

(** Workers with the given jobs on a ring no one uses yet. *)
Definition prog_init (jobs : list (list Args)) (scratch : bytes) (m : M) : prog :=
  mkProg (conc_init (length jobs) m) jobs ((λ _, []) <$> jobs) scratch [] [].

(** Every worker has returned and the consumer has its records. *)
Definition finished (total : nat) (p : prog) : Prop :=
  Forall (λ pc, pc = PIdle) (g_prods (pg_ring p)) ∧ Forall (λ js, js = []) (pg_jobs p) ∧
  g_cons (pg_ring p) = CIdle ∧ (total ≤ length (pg_popped p))%nat.

(** An executable schedule. *)
Inductive turn := TWorker (i : nat) (spurious : bool) | TConsumer.

Definition take_turn (retry : bool) (total : nat) (t : turn) (p : prog) : prog :=
  default p match t with
            | TWorker i sp => worker_step retry i sp p
            | TConsumer => consumer_step total p
            end.

Definition run_turns (retry : bool) (total : nat) (ts : list turn) (p : prog) : prog :=
  fold_left (λ p t, take_turn retry total t p) ts p.

Lemma run_turns_steps retry total ts p : rtc (pstep retry total) p (run_turns retry total ts p).
Proof.
  revert p. induction ts as [|t ts IH]; intros p; [done|]. cbn [run_turns fold_left]. etrans; [|apply IH].
  unfold take_turn. destruct t as [i sp|].
  - destruct (worker_step retry i sp p) eqn:E; [|done]. by eapply rtc_once, pstep_worker.
  - destruct (consumer_step total p) eqn:E; [|done]. by eapply rtc_once, pstep_consumer.
Qed.

Lemma run_turns_strong retry total ts p :
  forallb (λ t, match t with TWorker _ sp => negb sp | TConsumer => true end) ts = true →
  rtc (pstep_strong retry total) p (run_turns retry total ts p).
Proof.
  revert p. induction ts as [|t ts IH]; intros p H; [apply rtc_refl|]. cbn [forallb] in H. apply andb_prop in H as [Ht H].
  cbn [run_turns fold_left]. etrans; [|by apply IH]. unfold take_turn. destruct t as [i []|]; [done| |].
  - destruct (worker_step retry i false p) eqn:E; [|apply rtc_refl]. by eapply rtc_once, strong_worker.
  - destruct (consumer_step total p) eqn:E; [|apply rtc_refl]. by eapply rtc_once, strong_consumer.
Qed.

End program.
Arguments prog M : clear implicits.

(** ** The invariant of a program *)

Definition by_worker (i : nat) (claims : list (nat * Args)) : list Args :=
  (filter (λ c, c.1 = i) claims).*2.

(** The successful calls of a worker, and the jobs its calls have used up. *)
Definition succeeded (calls : list (Args * Result unit)) : list Args :=
  (filter (λ c, has_value c.2 = true) calls).*1.

Definition used_up (retry : bool) (calls : list (Args * Result unit)) : list Args :=
  if retry then succeeded calls else calls.*1.

(** The job a worker's call is about, and whether it has claimed a position for it. *)
Definition pc_args (pc : PPc) : option Args :=
  match pc with
  | PStart a | PLoadSeq a _ _ | PCas a _ _ | PReload a _ | PWrite a _ _ => Some a
  | PIdle | PBump | PRet _ => None
  end.

Definition holding (pc : PPc) (js : list Args) : list Args :=
  match pc with PWrite _ _ _ | PRet (Value _) => take 1 js | _ => [] end.

Definition worker_ok (retry : bool) (all js : list Args) (pc : PPc) (calls : list (Args * Result unit))
    (claimed : list Args) : Prop :=
  used_up retry calls ++ js = all ∧ claimed = succeeded calls ++ holding pc js ∧
  (∀ a, pc_args pc = Some a → head js = Some a) ∧ (pc ≠ PIdle → js ≠ []).

(** The buffer of the pop in progress, and the record it is about to hand over. *)
Definition cons_buffer (pc : CPc) : option bytes :=
  match pc with
  | CStart out | CLoadSeq out _ | CReadLen out _ | CReadBody out _ _ _ | CReadHdr out _ _ _ _
  | CFree out _ _ | CStoreHead out _ _ => Some out
  | CIdle | CRet _ => None
  end.

Definition returning (pc : CPc) : list (PoppedRecord * bytes) :=
  match pc with CRet (Some res) => [res] | _ => [] end.

Definition job_msg (stride : Z) (a : Args) : Msg :=
  stored_msg stride (a_type a) (a_flags a) (a_user a) (a_payload a).

(** What the consumer shows of a record, and what it should show of a job with a buffer of [n]
    bytes. *)
Definition shown (x : PoppedRecord * bytes) : PoppedRecord * bytes :=
  (x.1, take (Z.to_nat (p_copied_size x.1)) x.2).

Definition expected (stride : Z) (n : nat) (a : Args) : PoppedRecord * bytes :=
  let msg := job_msg stride a in
  (mkPoppedRecord (m_type msg) (m_flags msg) (m_user msg) (Z.of_nat (length (m_data msg)))
     (Z.of_nat (Nat.min n (length (m_data msg)))), take n (m_data msg)).

Lemma shown_popped stride a out : shown (popped (job_msg stride a) out) = expected stride (length out) a.
Proof.
  unfold shown, expected, popped. cbn [fst snd p_copied_size]. f_equal. rewrite Nat2Z.id.
  rewrite take_app_le, take_take by (rewrite length_take; lia).
  destruct (decide (length out ≤ length (m_data (job_msg stride a)))%nat); [f_equal; lia|].
  by rewrite !take_ge by lia.
Qed.

(** One list that runs through all the given lists, each in its order: the tags say which list an
    element comes from. *)
Definition interleaves {A} (ls : list (list A)) (l : list A) : Prop :=
  ∃ tags : list (nat * A), tags.*2 = l ∧ Forall (λ c, (c.1 < length ls)%nat) tags ∧
    ∀ i all, ls !! i = Some all → (filter (λ c, c.1 = i) tags).*2 = all.

(** *** Accesses and the bookkeeping *)

Section bookkeeping.
Context {M : Type} `{!RingMem M}.

Definition busy (pc : PPc) : bool := match pc with PIdle | PRet _ => false | _ => true end.

Lemma prod_step_book sp pc (m : M) pc' m' i js :
  prod_step sp pc m = Some (pc', m') → busy pc = true → (∀ a, pc_args pc = Some a → head js = Some a) →
  (∀ a, pc_args pc' = Some a → head js = Some a) ∧ pc' ≠ PIdle ∧
  holding pc' js = holding pc js ++ (claim_of i pc pc').*2.
Proof.
  intros E Hb Ha. destruct pc as [|a|a b pos|a b pos|a b| |a pos st|r]; try done; cbn [prod_step] in E;
    try (specialize (Ha a eq_refl) as Ha').
  - destruct (negb _); [by injection E as <- _|]. destruct (ld_tail m); [|done]. by injection E as <- _.
  - destruct b as [|b]; [by injection E as <- _|]. destruct (ld_seq _ m); [|done]. cbn [mbind option_bind] in E.
    destruct (s64_sub _ _) as [d|]; [|done]. cbn [mbind option_bind] in E. injection E as <- _.
    destruct (d =? 0); [|destruct (d <? 0)]; done.
  - destruct (cas_tail _ _ _ m) as [[[[] e] m1]|]; [| |done]; cbn [mbind option_bind] in E;
      injection E as <- _; split_and!; try done. cbn. by destruct js as [|a' js]; [|injection Ha' as ->].
  - destruct (ld_tail m); [|done]. by injection E as <- _.
  - by injection E as <- _.
  - destruct st; (match type of E with (?x ≫= _) = _ => destruct x; [|done] end);
      injection E as <- _; split_and!; try done; cbn; by rewrite app_nil_r.
Qed.

Lemma prod_step_log stride sp pc (m : M) pc' m' i :
  prod_step sp pc m = Some (pc', m') → ghost_claim stride pc pc' = job_msg stride <$> (claim_of i pc pc').*2.
Proof. by destruct pc, pc'. Qed.

Lemma cons_step_book pc (m : M) pc' m' :
  cons_step pc m = Some (pc', m') → (∃ out, cons_buffer pc = Some out) →
  (∀ out, cons_buffer pc' = Some out → cons_buffer pc = Some out) ∧ pc' ≠ CIdle ∧
  (ghost_pop pc).*2 = returning pc'.
Proof.
  intros E [out Ho]. destruct pc; try done; cbn [cons_step] in E.
  - destruct (negb _); [by injection E as <- _|]. destruct (ld_head m); [|done]. by injection E as <- _.
  - destruct (ld_seq _ m); [|done]. cbn [mbind option_bind] in E. injection E as <- _. by destruct (negb _).
  - destruct (ld_field FLen _ m); [|done]. by injection E as <- _.
  - destruct (ld_body _ _ m); [|done]. by injection E as <- _.
  - destruct (ld_field FType _ m); [|done]. cbn [mbind option_bind] in E.
    destruct (ld_field FFlags _ m); [|done]. cbn [mbind option_bind] in E.
    destruct (ld_field FUser _ m); [|done]. by injection E as <- _.
  - destruct (st_seq _ _ m); [|done]. by injection E as <- _.
  - destruct (st_head _ m); [|done]. by injection E as <- _.
Qed.
End bookkeeping.

Lemma by_worker_app i cs1 cs2 : by_worker i (cs1 ++ cs2) = by_worker i cs1 ++ by_worker i cs2.
Proof. unfold by_worker. by rewrite filter_app, fmap_app. Qed.

Lemma by_worker_claim i j pc pc' :
  by_worker j (claim_of i pc pc') = if decide (i = j) then (claim_of i pc pc').*2 else [].
Proof.
  unfold by_worker, claim_of. destruct pc, pc'; try (by case_decide).
  cbv beta iota. rewrite filter_cons, filter_nil. by repeat case_decide.
Qed.

Lemma succeeded_snoc cs a r :
  succeeded (cs ++ [(a, r)]) = succeeded cs ++ (if has_value r then [a] else []).
Proof.
  unfold succeeded. rewrite filter_app, fmap_app. f_equal. rewrite filter_cons, filter_nil. cbn [snd].
  destruct (has_value r); by case_decide.
Qed.

(** Claims are counted worker by worker. *)
Lemma claims_sum n cs :
  Forall (λ c : nat * Args, (c.1 < n)%nat) cs →
  length cs = sum_list_with (λ i, length (by_worker i cs)) (seq 0 n).
Proof.
  induction 1 as [|[i a] cs Hi _ IH].
  - generalize (seq 0 n). induction l as [|i l IH]; [done|]. cbn [sum_list_with]. by rewrite <-IH.
  - cbn [length]. rewrite IH. clear IH. cbn [fst] in Hi.
    assert (Hs : ∀ l, NoDup l → i ∈ l →
      sum_list_with (λ j, length (by_worker j ((i, a) :: cs))) l =
      S (sum_list_with (λ j, length (by_worker j cs)) l)).
    { assert (Hne : ∀ l, i ∉ l → sum_list_with (λ j, length (by_worker j ((i, a) :: cs))) l =
                                 sum_list_with (λ j, length (by_worker j cs)) l).
      { induction l as [|j l IH]; intros Hn; [done|]. apply not_elem_of_cons in Hn as [Hn1 Hn2]. cbn [sum_list_with].
        rewrite IH by done. unfold by_worker. rewrite filter_cons. by case_decide. }
      intros l. induction 1 as [|j l Hj Hl IH]; intros Hin; [by apply elem_of_nil in Hin|]. cbn [sum_list_with].
      apply elem_of_cons in Hin as [->|Hin].
      - rewrite Hne by done. unfold by_worker. rewrite filter_cons. by case_decide.
      - rewrite (IH Hin). unfold by_worker at 1. rewrite filter_cons. cbn [fst].
        case_decide; [subst; done|]. fold (by_worker j cs). lia. }
    symmetry. apply Hs; [apply NoDup_seq|]. apply elem_of_seq. lia.
Qed.

Lemma sum_seq_le {A} (f : nat → nat) (g : A → nat) (l : list A) :
  (∀ i x, l !! i = Some x → (f i ≤ g x)%nat) →
  (sum_list_with f (seq 0 (length l)) ≤ sum_list_with g l)%nat.
Proof.
  revert f. induction l as [|x l IH]; intros f Hf; [done|]. cbn [length seq sum_list_with].
  pose proof (Hf 0%nat x eq_refl). rewrite <-fmap_S_seq.
  assert (E : ∀ k, sum_list_with f (S <$> k) = sum_list_with (λ i, f (S i)) k).
  { induction k as [|y k IHk]; [done|]. cbn. by rewrite IHk. }
  rewrite E. specialize (IH (λ i, f (S i)) (λ i y Hy, Hf (S i) y Hy)). lia.
Qed.

Lemma sum_seq_lt {A} (f : nat → nat) (g : A → nat) (l : list A) i y :
  (∀ j x, l !! j = Some x → (f j ≤ g x)%nat) → l !! i = Some y → (f i < g y)%nat →
  (sum_list_with f (seq 0 (length l)) < sum_list_with g l)%nat.
Proof.
  revert f i. induction l as [|x l IH]; intros f i Hf Hi Hlt; [done|]. cbn [length seq sum_list_with].
  pose proof (Hf 0%nat x eq_refl). rewrite <-fmap_S_seq.
  assert (E : ∀ k, sum_list_with f (S <$> k) = sum_list_with (λ i, f (S i)) k).
  { induction k as [|z k IHk]; [done|]. cbn. by rewrite IHk. }
  rewrite E. pose proof (sum_seq_le (λ i, f (S i)) g l (λ j z Hz, Hf (S j) z Hz)).
  destruct i as [|i]; [injection Hi as ->; lia|].
  specialize (IH (λ i, f (S i)) i (λ j z Hz, Hf (S j) z Hz) Hi Hlt). lia.
Qed.

Lemma sum_list_ext {A} (f g : A → nat) l :
  (∀ x, x ∈ l → f x = g x) → sum_list_with f l = sum_list_with g l.
Proof.
  induction l as [|x l IH]; intros H; [done|]. cbn. rewrite H, IH; [done| |]; intros; [apply H|]; set_solver.
Qed.

Lemma sum_list_plus {A} (f g : A → nat) l :
  sum_list_with (λ x, f x + g x)%nat l = (sum_list_with f l + sum_list_with g l)%nat.
Proof. induction l as [|x l IH]; [done|]. cbn. lia. Qed.

Lemma sum_seq_eq {A} (g : A → nat) (l : list A) n :
  length l = n → sum_list_with (λ i, from_option g 0%nat (l !! i)) (seq 0 n) = sum_list_with g l.
Proof.
  intros <-. induction l as [|x l IH]; [done|]. cbn [length seq sum_list_with]. rewrite <-fmap_S_seq.
  assert (E : ∀ k, sum_list_with (λ i, from_option g 0%nat ((x :: l) !! i)) (S <$> k) =
                   sum_list_with (λ i, from_option g 0%nat (l !! i)) k).
  { induction k as [|y k IHk]; [done|]. cbn. by rewrite <-IHk. }
  rewrite E, IH. done.
Qed.

(** ** Programs on the bytes of a fresh ring *)

Definition job_count (jobs : list (list Args)) : nat := sum_list_with length jobs.

Section on_bytes.
Context (rmax stride : Z) (r : MpscRing) (jobs : list (list Args)) (scratch : bytes).
Context (retry : bool) (total : nat).
Hypothesis Hmax : 2 ≤ rmax < 2 ^ 32.
Hypothesis Hstride : RECORD_HEADER_SIZE ≤ stride < 2 ^ 32.
Hypothesis Habs : ring_abs r (init_cells rmax stride).
Hypothesis Hjobs : Forall (Forall args_typed) jobs.
Hypothesis Hscratch : Z.of_nat (length scratch) < 2 ^ 32.
Hypothesis Hbound : Z.of_nat (job_count jobs) + rmax < 2 ^ 63.

Implicit Types p : prog MpscRing.

Record prog_inv p : Prop := {
  pi_reach : reachable (length jobs) r (pg_ring p);
  pi_log : g_log (pg_ring p) = job_msg stride <$> (pg_claims p).*2;
  pi_tags : Forall (λ c, (c.1 < length jobs)%nat) (pg_claims p);
  pi_len : length (pg_jobs p) = length jobs ∧ length (g_prods (pg_ring p)) = length jobs;
  pi_worker i all : jobs !! i = Some all →
    ∃ js pc calls, pg_jobs p !! i = Some js ∧ g_prods (pg_ring p) !! i = Some pc ∧
      pg_calls p !! i = Some calls ∧ worker_ok retry all js pc calls (by_worker i (pg_claims p));
  pi_pops : (g_pops (pg_ring p)).*2 = pg_popped p ++ returning (g_cons (pg_ring p));
  pi_given : Forall (λ x, length x.1 = length scratch) (g_pops (pg_ring p));
  pi_buffer out : cons_buffer (g_cons (pg_ring p)) = Some out → length out = length scratch;
  pi_scratch : length (pg_scratch p) = length scratch;
}.

Lemma worker_claims all js pc calls cl :
  worker_ok retry all js pc calls cl → (length cl ≤ length all)%nat.
Proof.
  intros (<-&->&_&_). rewrite !length_app.
  assert (length (holding pc js) ≤ length js)%nat.
  { destruct pc as [| | | | | | |[]]; cbn; rewrite ?length_take; lia. }
  assert (length (succeeded calls) ≤ length (used_up retry calls))%nat.
  { unfold used_up, succeeded. destruct retry; [done|]. rewrite !length_fmap. apply length_filter. }
  lia.
Qed.

Lemma claims_bound p : prog_inv p → (length (pg_claims p) ≤ job_count jobs)%nat.
Proof.
  intros Hp. rewrite (claims_sum (length jobs)) by apply Hp. unfold job_count.
  apply sum_seq_le. intros i all Hi.
  destruct (pi_worker _ Hp i all Hi) as (js&pc&calls&_&_&_&Hw). by eapply worker_claims.
Qed.

Lemma log_bound p : prog_inv p → Z.of_nat (length (g_log (pg_ring p))) + rmax < 2 ^ 63.
Proof.
  intros Hp. rewrite (pi_log _ Hp), !length_fmap. pose proof (claims_bound p Hp). lia.
Qed.

Lemma prog_init_inv : prog_inv (prog_init jobs scratch r).
Proof.
  split; cbn; try done.
  - apply rtc_refl.
  - by rewrite length_replicate.
  - intros i all Hi. exists all, PIdle, []. split_and!; [done| | |].
    + apply lookup_replicate. split; [done|]. by eapply lookup_lt_Some.
    + by rewrite list_lookup_fmap, Hi.
    + unfold worker_ok. cbn. split_and!; try done. by destruct retry.
Qed.

Lemma ring_stride p : prog_inv p → record_stride (rd_meta (g_mem (pg_ring p))) = stride.
Proof.
  intros Hp. destruct (reachable_bytes (length jobs) rmax stride r (pg_ring p)) as (k&(HR&_)&Hinv); try done;
    [apply Hp|by apply log_bound|]. rewrite (sim_meta _ _ HR). apply Hinv.
Qed.

(** A step of worker [i] that claims the jobs [new]. *)
Lemma inv_worker p p' i all js' pc' calls' new :
  prog_inv p → jobs !! i = Some all → cstep (pg_ring p) (pg_ring p') →
  g_prods (pg_ring p') = <[i := pc']> (g_prods (pg_ring p)) →
  g_cons (pg_ring p') = g_cons (pg_ring p) → g_pops (pg_ring p') = g_pops (pg_ring p) →
  g_log (pg_ring p') = g_log (pg_ring p) ++ (job_msg stride <$> new) →
  pg_claims p' = pg_claims p ++ ((i,.) <$> new) →
  pg_jobs p' = <[i := js']> (pg_jobs p) → pg_calls p' = <[i := calls']> (pg_calls p) →
  pg_popped p' = pg_popped p → pg_scratch p' = pg_scratch p →
  worker_ok retry all js' pc' calls' (by_worker i (pg_claims p) ++ new) → prog_inv p'.
Proof.
  intros [] Hi Hs Ep Ec Eo El Ecl Ej Eca Epo Esc Hw.
  assert (Hnew : (((i,.) <$> new) : list (nat * Args)).*2 = new) by (by rewrite <-list_fmap_compose, list_fmap_id).
  assert (Hmine : ∀ j, by_worker j ((i,.) <$> new) = if decide (j = i) then new else []).
  { intros j. clear. unfold by_worker. induction new as [|a new IH]; [by case_decide|].
    cbn [fmap list_fmap]. rewrite filter_cons. cbn [fst]. repeat case_decide; subst; try done; cbn; by f_equal. }
  split; rewrite ?Ep, ?Ec, ?Eo, ?El, ?Ecl, ?Ej, ?Eca, ?Epo, ?Esc; try done.
  - by eapply rtc_r.
  - by rewrite pi_log0, !fmap_app, Hnew.
  - apply Forall_app. split; [done|]. apply Forall_forall. intros c Hc.
    apply list_elem_of_fmap in Hc as (?&->&_). by eapply lookup_lt_Some.
  - by rewrite !length_insert.
  - intros j allj Hj. destruct (pi_worker0 j allj Hj) as (js&pc&calls&E1&E2&E3&Hwj).
    rewrite by_worker_app, Hmine. destruct (decide (j = i)) as [->|Hne].
    + rewrite Hi in Hj. injection Hj as <-. exists js', pc', calls'.
      rewrite !list_lookup_insert_eq by (by eapply lookup_lt_Some). done.
    + exists js, pc, calls. rewrite !list_lookup_insert_ne, app_nil_r by done. done.
Qed.

Lemma worker_lookup p i pc :
  prog_inv p → g_prods (pg_ring p) !! i = Some pc →
  ∃ all js calls, jobs !! i = Some all ∧ pg_jobs p !! i = Some js ∧ pg_calls p !! i = Some calls ∧
    worker_ok retry all js pc calls (by_worker i (pg_claims p)).
Proof.
  intros Hp Hi. apply lookup_lt_Some in Hi as Hlt. rewrite (proj2 (pi_len _ Hp)) in Hlt.
  apply lookup_lt_is_Some in Hlt as [all Ha]. destruct (pi_worker _ Hp i all Ha) as (js&pc'&calls&E1&E2&E3&Hw).
  rewrite Hi in E2. injection E2 as <-. by exists all, js, calls.
Qed.

(** An access of a call. *)
Lemma inv_access p i sp pc pc' m' :
  prog_inv p → g_prods (pg_ring p) !! i = Some pc → busy pc = true →
  prod_step sp pc (g_mem (pg_ring p)) = Some (pc', m') → prog_inv (after_access i pc (pc', m') p).
Proof.
  intros Hp Hi Hb E. destruct (worker_lookup p i pc Hp Hi) as (all&js&calls&Ha&Ej&Eca&(W1&W2&W3&W4)).
  destruct (prod_step_book sp pc _ pc' m' i js E Hb W3) as (B1&B2&B3).
  apply (inv_worker p _ i all js pc' calls (claim_of i pc pc').*2); try done; cbn.
  - exact (step_prod (pg_ring p) i sp pc pc' m' Hi E).
  - f_equal. rewrite (ring_stride p Hp : record_stride (meta_ (g_mem (pg_ring p))) = stride). apply (prod_step_log stride sp pc _ pc' m' i E).
  - f_equal. by destruct pc, pc'.
  - by rewrite list_insert_id.
  - by rewrite list_insert_id.
  - unfold worker_ok. rewrite W2, B3, (assoc_L (++)). split_and!; try done. intros _. apply W4. by intros ->.
Qed.

Lemma worker_step_inv p i sp p' : prog_inv p → worker_step retry i sp p = Some p' → prog_inv p'.
Proof.
  intros Hp E. unfold worker_step in E. destruct (g_prods (pg_ring p) !! i) as [pc|] eqn:Hi; [|done].
  cbn [mbind option_bind] in E. destruct (pg_jobs p !! i) as [js|] eqn:Hj; [|done]. cbn [mbind option_bind] in E.
  destruct (worker_lookup p i pc Hp Hi) as (all&js'&calls&Ha&Ej&Eca&W).
  rewrite Hj in Ej. injection Ej as <-. destruct js as [|a js]; [by destruct pc|].
  assert (Hta : args_typed a).
  { rewrite Forall_lookup in Hjobs. specialize (Hjobs i all Ha). destruct W as (<-&_).
    apply Forall_app in Hjobs as [_ Hjobs]. by apply Forall_cons in Hjobs as [? _]. }
  assert (Hacc : busy pc = true → ∀ q, prod_step sp pc (g_mem (pg_ring p)) = Some q →
    p' = after_access i pc q p → prog_inv p').
  { intros Hb [pc' m'] Eq ->. by apply (inv_access p i sp pc pc' m'). }
  destruct pc; try (destruct (prod_step _ _ _) as [q|]; [|done]; cbn [mbind option_bind] in E;
                    injection E as <-; by apply (Hacc eq_refl q)).
  - injection E as <-. destruct W as (W1&W2&W3&W4).
    apply (inv_worker p _ i all (a :: js) (PStart a) calls []); try done; cbn; rewrite ?app_nil_r; try done.
    + by apply step_push.
    + by rewrite list_insert_id.
    + by rewrite list_insert_id.
  - injection E as <-. destruct W as (W1&W2&W3&W4).
    apply (inv_worker p _ i all (jobs_after retry r0 (a :: js)) PIdle (calls ++ [(a, r0)]) []); try done; cbn;
      rewrite ?app_nil_r; try done.
    + pose proof (step_prod (pg_ring p) i sp (PRet r0) PIdle _ Hi eq_refl) as Hs. revert Hs. cbn.
      by rewrite app_nil_r, Z.add_0_r.
    + by apply (list_alter_insert (λ cs, cs ++ [(a, r0)])).
    + unfold worker_ok, used_up, jobs_after in *. rewrite W2. split_and!; try done.
      * rewrite <-W1, succeeded_snoc, fmap_app. destruct retry, r0; cbn [has_value andb negb tail];
          rewrite ?app_nil_r, <-?(assoc_L (++)); done.
      * rewrite succeeded_snoc. cbn [holding]. destruct r0; cbn; by rewrite ?app_nil_r.
Qed.

(** Every pop returns what its position holds, cut to the consumer's buffer. *)
Lemma pop_facts p k out res :
  prog_inv p → g_pops (pg_ring p) !! k = Some (out, res) →
  length out = length scratch ∧ ∃ c, pg_claims p !! k = Some c ∧ res = popped (job_msg stride c.2) out.
Proof.
  intros Hp Hk. split; [by apply (Forall_lookup_1 _ _ _ _ (pi_given _ Hp) Hk)|].
  destruct (conc_pops_ordered rmax stride r (length jobs) (pg_ring p)) as [Ho _]; try done;
    [apply Hp|by apply log_bound|]. destruct (Ho k out res Hk) as (msg&El&->).
  rewrite (pi_log _ Hp), !list_lookup_fmap in El. destruct (pg_claims p !! k) as [c|]; [|done].
  injection El as <-. by exists c.
Qed.

Lemma consumer_step_inv p p' : prog_inv p → consumer_step total p = Some p' → prog_inv p'.
Proof.
  intros Hp E. unfold consumer_step in E. pose proof Hp as [].
  assert (Hacc : (∃ out, cons_buffer (g_cons (pg_ring p)) = Some out) →
    ∀ q, cons_step (g_cons (pg_ring p)) (g_mem (pg_ring p)) = Some q →
    p' = with_ring (mkConc q.2 (g_prods (pg_ring p)) q.1 (g_log (pg_ring p))
                      (g_pops (pg_ring p) ++ ghost_pop (g_cons (pg_ring p))) (g_full (pg_ring p))) p → prog_inv p').
  { intros Hb [pc' m'] Eq ->. destruct (cons_step_book _ _ pc' m' Eq Hb) as (B1&B2&B3).
    split; cbn; try done.
    - eapply rtc_r; [done|]. by apply step_cons.
    - rewrite fmap_app, pi_pops0, B3. destruct Hb as [out Hb]. by destruct (g_cons (pg_ring p)); rewrite ?app_nil_r.
    - apply Forall_app. split; [done|]. destruct (g_cons (pg_ring p)); try done.
      apply Forall_singleton. by apply pi_buffer0.
    - intros out Ho. by apply pi_buffer0, B1. }
  assert (Hret : ∀ res, g_cons (pg_ring p) = CRet res →
    cstep (pg_ring p) (with_consumer CIdle (pg_ring p))).
  { intros res Ec. pose proof (step_cons (pg_ring p) CIdle (g_mem (pg_ring p))) as Hs. rewrite Ec in Hs.
    cbn [cons_step ghost_pop] in Hs. rewrite app_nil_r in Hs. by apply Hs. }
  destruct (g_cons (pg_ring p)) as [| | | | | | | |res] eqn:Ec;
    try (destruct (cons_step _ _) as [q|]; [|done]; cbn [mbind option_bind] in E;
         injection E as <-; by apply (Hacc (ex_intro _ _ eq_refl) q)).
  - destruct (_ <? _)%nat; [|done]. injection E as <-. split; cbn; try done.
    + eapply rtc_r; [done|]. apply step_pop; [done|]. by rewrite pi_scratch0.
    + by intros out [= <-].
  - destruct res as [[rec buf]|]; injection E as <-; split; cbn; try done;
      try (eapply rtc_r; [done|by apply (Hret _ eq_refl)]).
    + by rewrite app_nil_r.
    + assert (Hk : (g_pops (pg_ring p)).*2 !! length (pg_popped p) = Some (rec, buf)).
      { by rewrite pi_pops0, lookup_app_r, Nat.sub_diag. }
      apply list_lookup_fmap_Some in Hk as ([out res]&Er&Hk). cbn in Er. subst res.
      destruct (pop_facts p _ _ _ Hp Hk) as (Hl&c&_&Er). pose proof (length_popped (job_msg stride c.2) out) as Hlp.
      rewrite <-Er in Hlp. cbn in Hlp. by rewrite Hlp.
Qed.

Lemma prog_reach_inv p : rtc (pstep retry total) (prog_init jobs scratch r) p → prog_inv p.
Proof.
  apply (rtc_ind_r (λ p, prog_inv p)); [apply prog_init_inv|].
  intros p1 p2 _ [i sp p' E|p' E] Hp; [by eapply worker_step_inv|by eapply consumer_step_inv].
Qed.

(** What has been shown is the beginning of what was claimed. *)
Lemma shown_claims p :
  prog_inv p →
  shown <$> pg_popped p = expected stride (length scratch) <$> take (length (pg_popped p)) (pg_claims p).*2.
Proof.
  intros Hp. apply list_eq. intros k. rewrite !list_lookup_fmap.
  destruct (pg_popped p !! k) as [[rec buf]|] eqn:Ek.
  - assert (Hk : (g_pops (pg_ring p)).*2 !! k = Some (rec, buf)).
    { rewrite (pi_pops _ Hp), lookup_app_l; [done|by eapply lookup_lt_Some]. }
    apply list_lookup_fmap_Some in Hk as ([out res]&Er&Hk). cbn in Er. subst res.
    destruct (pop_facts p _ _ _ Hp Hk) as (Hl&c&Ecl&Er). apply lookup_lt_Some in Ek.
    rewrite lookup_take_lt, list_lookup_fmap, Ecl by done. cbn. f_equal. rewrite Er, <-Hl. apply shown_popped.
  - apply lookup_ge_None in Ek. rewrite lookup_take_ge by done. done.
Qed.

(** *** Progress *)

Definition remaining p : nat := sum_list_with length (pg_jobs p).

Definition all_idle p : Prop := ∀ i pc, g_prods (pg_ring p) !! i = Some pc → pc = PIdle.

(** With retries, a job is claimed or left. *)
Lemma jobs_split p :
  prog_inv p → retry = true → all_idle p → (length (pg_claims p) + remaining p = job_count jobs)%nat.
Proof.
  intros Hp Hretry Hidle. rewrite (claims_sum (length jobs)) by apply Hp. unfold remaining, job_count.
  rewrite <-(sum_seq_eq length (pg_jobs p) (length jobs)) by apply Hp.
  rewrite <-(sum_seq_eq length jobs (length jobs)) by done.
  rewrite <-sum_list_plus. apply sum_list_ext. intros i Hi. apply elem_of_seq in Hi.
  destruct (lookup_lt_is_Some_2 jobs i) as [all Ha]; [lia|].
  destruct (pi_worker _ Hp i all Ha) as (js&pc&calls&Ej&Epc&_&(W1&W2&_)).
  rewrite Ej, Ha. cbn [from_option]. rewrite W2, (Hidle _ _ Epc), <-W1, Hretry. cbn [holding used_up].
  by rewrite app_nil_r, length_app.
Qed.

(** Steps that keep what the others see of the program. *)
Record others_kept (i : nat) p p' : Prop := {
  ok_prods j : j ≠ i → g_prods (pg_ring p') !! j = g_prods (pg_ring p) !! j;
  ok_cons : g_cons (pg_ring p') = g_cons (pg_ring p);
  ok_popped : pg_popped p' = pg_popped p;
  ok_remaining : (remaining p' ≤ remaining p)%nat;
}.

Lemma others_kept_refl i p : others_kept i p p.
Proof. by split. Qed.

Lemma others_kept_trans i p1 p2 p3 : others_kept i p1 p2 → others_kept i p2 p3 → others_kept i p1 p3.
Proof.
  intros [A1 A2 A3 A4] [B1 B2 B3 B4]. split; [|congruence|congruence|lia].
  intros j Hj. by rewrite B1, A1.
Qed.

(** An access of worker [i]. *)
Lemma access_step p i sp pc q a js :
  g_prods (pg_ring p) !! i = Some pc → busy pc = true → pg_jobs p !! i = Some (a :: js) →
  prod_step sp pc (g_mem (pg_ring p)) = Some q →
  ∃ p', worker_step retry i sp p = Some p' ∧ g_prods (pg_ring p') !! i = Some q.1 ∧
        g_mem (pg_ring p') = q.2 ∧ pg_jobs p' = pg_jobs p ∧ others_kept i p p'.
Proof.
  intros Hi Hb Hj E. apply lookup_lt_Some in Hi as Hlt. exists (after_access i pc q p). split.
  - unfold worker_step. rewrite Hi, Hj. cbn [mbind option_bind]. by destruct pc; try done; rewrite E.
  - cbn. split; [by apply list_lookup_insert_eq|]. split; [done|]. split; [done|]. split; cbn; try done.
    intros j Hj'. by apply list_lookup_insert_ne.
Qed.

Lemma remaining_insert p js' js i :
  pg_jobs p !! i = Some js → (length js' ≤ length js)%nat →
  (sum_list_with length (<[i := js']> (pg_jobs p)) + length js = remaining p + length js')%nat.
Proof.
  unfold remaining. generalize (pg_jobs p). intros l. revert i. induction l as [|x l IH]; intros [|i] Hi Hl; try done.
  - injection Hi as ->. cbn [insert list_insert sum_list_with]. lia.
  - specialize (IH i Hi Hl). change (<[S i := js']> (x :: l)) with (x :: <[i := js']> l).
    cbn [sum_list_with]. lia.
Qed.

(** The return from a call. *)
Lemma return_step p i res a js :
  g_prods (pg_ring p) !! i = Some (PRet res) → pg_jobs p !! i = Some (a :: js) →
  ∃ p', worker_step retry i false p = Some p' ∧ g_prods (pg_ring p') !! i = Some PIdle ∧ others_kept i p p' ∧
        (has_value res = true → (remaining p' < remaining p)%nat).
Proof.
  intros Hi Hj. apply lookup_lt_Some in Hi as Hlt. eexists. split.
  - unfold worker_step. by rewrite Hi, Hj.
  - cbn. split; [by apply list_lookup_insert_eq|].
    assert (Hr : (length (jobs_after retry res (a :: js)) ≤ length (a :: js))%nat).
    { unfold jobs_after. destruct (_ && _)%bool; cbn; lia. }
    pose proof (remaining_insert p (jobs_after retry res (a :: js)) (a :: js) i Hj Hr) as Hs. split.
    + split; try done; [intros j Hj'; by apply list_lookup_insert_ne|]. unfold remaining at 1. cbn [pg_jobs]. lia.
    + intros Hv. unfold remaining at 1. cbn [pg_jobs]. unfold jobs_after in *. rewrite Hv, andb_false_r in *.
      cbn [tail length] in Hs |- *. unfold remaining in Hs. lia.
Qed.

(** A worker's call runs to its end. *)
Lemma settle_worker p i pc :
  prog_inv p → g_prods (pg_ring p) !! i = Some pc →
  ∃ p', rtc (pstep retry total) p p' ∧ prog_inv p' ∧ g_prods (pg_ring p') !! i = Some PIdle ∧ others_kept i p p'.
Proof.
  remember (prod_measure pc) as k eqn:Ek. revert p pc Ek. induction (lt_wf k) as [k _ IH]. intros p pc -> Hp Hi.
  destruct (worker_lookup p i pc Hp Hi) as (all&js&calls&_&Ej&_&(_&_&_&W4)).
  assert (Hd : pc = PIdle ∨ pc ≠ PIdle) by (destruct pc; (by left) || (by right)).
  destruct Hd as [->|Hne]; [by exists p; split_and!; [apply rtc_refl| | |apply others_kept_refl]|].
  destruct js as [|a js]; [by destruct (W4 Hne)|]. destruct (busy pc) eqn:Hb.
  - destruct (conc_prod_defined rmax stride r (length jobs) (pg_ring p)) with (i := i) (pc := pc) (sp := false)
      as [[pc' m'] E]; try done; [apply Hp|by apply log_bound|].
    destruct (access_step p i false pc (pc', m') a js) as (p1&E1&Hi1&_&_&K1); try done.
    pose proof (worker_step_inv p i false p1 Hp E1) as Hp1.
    destruct (IH (prod_measure pc')) with (p := p1) (pc := pc') as (p2&S2&Hp2&Hi2&K2); try done.
    { by eapply prod_step_measure. }
    exists p2. split_and!; try done; [|by eapply others_kept_trans].
    eapply rtc_l; [by eapply pstep_worker|done].
  - destruct pc; try done. destruct (return_step p i r0 a js) as (p1&E1&Hi1&K1&_); try done. exists p1.
    split_and!; try done; [by eapply rtc_once, pstep_worker|by eapply worker_step_inv].
Qed.

Lemma settle_workers p :
  prog_inv p →
  ∃ p', rtc (pstep retry total) p p' ∧ prog_inv p' ∧ all_idle p' ∧
        pg_popped p' = pg_popped p ∧ (remaining p' ≤ remaining p)%nat.
Proof.
  intros Hp.
  assert (H : ∀ k, (k ≤ length jobs)%nat → ∃ p', rtc (pstep retry total) p p' ∧ prog_inv p' ∧
    (∀ i pc, (i < k)%nat → g_prods (pg_ring p') !! i = Some pc → pc = PIdle) ∧
    pg_popped p' = pg_popped p ∧ (remaining p' ≤ remaining p)%nat).
  { induction k as [|k IH]; intros Hk; [exists p; split_and!; [apply rtc_refl|done|lia|done|done]|].
    destruct IH as (p1&S1&Hp1&Hi1&E1&R1); [lia|].
    destruct (lookup_lt_is_Some_2 (g_prods (pg_ring p1)) k) as [pc Hpc]; [rewrite (proj2 (pi_len _ Hp1)); lia|].
    destruct (settle_worker p1 k pc Hp1 Hpc) as (p2&S2&Hp2&Hi2&[K1 K2 K3 K4]).
    exists p2. split_and!; try done; [by etrans| |by rewrite K3|lia].
    intros i pc' Hi Hpc'. destruct (decide (i = k)) as [->|Hne]; [by rewrite Hi2 in Hpc'; injection Hpc' as <-|].
    rewrite K1 in Hpc' by done. apply (Hi1 i); [lia|done]. }
  destruct (H (length jobs)) as (p'&S'&Hp'&Hi'&E'&R'); [done|]. exists p'. split_and!; try done.
  intros i pc Hi. apply (Hi' i); [|done]. apply lookup_lt_Some in Hi. by rewrite (proj2 (pi_len _ Hp')) in Hi.
Qed.

(** An access of the consumer. *)
Lemma pop_access p q out :
  cons_buffer (g_cons (pg_ring p)) = Some out → cons_step (g_cons (pg_ring p)) (g_mem (pg_ring p)) = Some q →
  ∃ p', consumer_step total p = Some p' ∧ g_cons (pg_ring p') = q.1 ∧ g_mem (pg_ring p') = q.2 ∧
        g_prods (pg_ring p') = g_prods (pg_ring p) ∧ pg_popped p' = pg_popped p ∧ pg_jobs p' = pg_jobs p.
Proof.
  intros Hb E. unfold consumer_step. destruct (g_cons (pg_ring p)); try done; rewrite E; by eexists.
Qed.

(** The consumer's call runs to its end. *)
Lemma settle_consumer p :
  prog_inv p →
  ∃ p', rtc (pstep retry total) p p' ∧ prog_inv p' ∧ g_cons (pg_ring p') = CIdle ∧
        g_prods (pg_ring p') = g_prods (pg_ring p) ∧ pg_jobs p' = pg_jobs p ∧
        (length (pg_popped p) ≤ length (pg_popped p'))%nat.
Proof.
  remember (cons_measure (g_cons (pg_ring p))) as k eqn:Ek. revert p Ek.
  induction (lt_wf k) as [k _ IH]. intros p -> Hp.
  assert (Hcase : g_cons (pg_ring p) = CIdle ∨ (∃ res, g_cons (pg_ring p) = CRet res) ∨
                  ∃ out, cons_buffer (g_cons (pg_ring p)) = Some out) by (destruct (g_cons (pg_ring p)); cbn; eauto).
  destruct Hcase as [Ec|[(res&Ec)|(out&Ec)]].
  - exists p. by split_and!; [apply rtc_refl|..].
  - assert (H : ∃ p', consumer_step total p = Some p' ∧ g_cons (pg_ring p') = CIdle ∧
        g_prods (pg_ring p') = g_prods (pg_ring p) ∧ pg_jobs p' = pg_jobs p ∧
        (length (pg_popped p) ≤ length (pg_popped p'))%nat).
    { unfold consumer_step. rewrite Ec. destruct res as [[rec buf]|]; eexists; split_and!; try done.
      cbn. rewrite length_app. lia. }
    destruct H as (p'&E&H1&H2&H3&H4). exists p'. split_and!; try done; [|by eapply consumer_step_inv].
    by eapply rtc_once, pstep_consumer.
  - destruct (conc_cons_defined rmax stride r (length jobs) (pg_ring p)) as [[pc' m'] E]; try done;
      [apply Hp|by apply log_bound|].
    destruct (pop_access p (pc', m') out Ec E) as (p1&E1&C1&_&P1&O1&J1). cbn [fst snd] in *.
    pose proof (consumer_step_inv p p1 Hp E1) as Hp1.
    destruct (IH (cons_measure pc')) with (p := p1) as (p2&S2&Hp2&C2&P2&J2&O2); try done.
    { eapply cons_step_measure; [|exact E]. by destruct (g_cons (pg_ring p)). }
    { by rewrite C1. }
    exists p2. rewrite P1, J1, O1 in *. split_and!; try done. eapply rtc_l; [by eapply pstep_consumer|done].
Qed.

(** *** Calls that run alone *)

Lemma idle_stays (m : MpscRing) y : rtc prod_rel (PIdle, m) y → y.1 = PIdle.
Proof.
  intros H. remember (PIdle, m) as x eqn:Ex. revert m Ex.
  induction H as [x|x z y [sp Hs] _ IH]; intros m ->; [done|]. cbn in Hs. injection Hs as <-. by eapply IH.
Qed.

Lemma push_alone x y p i a js :
  rtc prod_rel x y → (∃ res, y.1 = PRet res) → x.1 ≠ PIdle →
  g_prods (pg_ring p) !! i = Some x.1 → g_mem (pg_ring p) = x.2 → pg_jobs p !! i = Some (a :: js) →
  ∃ p', rtc (pstep retry total) p p' ∧ g_prods (pg_ring p') !! i = Some y.1 ∧ pg_jobs p' = pg_jobs p ∧
        others_kept i p p'.
Proof.
  intros H. revert p. induction H as [x|x z y [sp Hs] Hr IH]; intros p [res Hy] Hx Hi Hm Hj.
  { exists p. by split_and!; [apply rtc_refl| | |apply others_kept_refl]. }
  destruct (busy x.1) eqn:Hb.
  - rewrite <-Hm in Hs. destruct (access_step p i sp x.1 z a js Hi Hb Hj Hs) as (p1&E1&Hi1&Hm1&J1&K1).
    destruct (IH p1) as (p2&S2&Hi2&J2&K2); try done; [by exists res| |by rewrite J1|].
    { intros Hz. destruct z as [z m]. cbn in Hz. subst z. apply idle_stays in Hr. by rewrite Hr in Hy. }
    exists p2. split_and!; try done; [|congruence|by eapply others_kept_trans].
    eapply rtc_l; [by eapply pstep_worker|done].
  - exfalso. destruct x as [pc m]. destruct pc; try done. cbn in Hs. injection Hs as <-.
    apply idle_stays in Hr. by rewrite Hr in Hy.
Qed.

Lemma pop_alone x y p :
  rtc cons_rel x y → (∃ res, y.1 = CRet res) → (∃ out, cons_buffer x.1 = Some out) →
  g_cons (pg_ring p) = x.1 → g_mem (pg_ring p) = x.2 →
  ∃ p', rtc (pstep retry total) p p' ∧ g_cons (pg_ring p') = y.1 ∧ pg_jobs p' = pg_jobs p ∧
        pg_popped p' = pg_popped p.
Proof.
  intros H. revert p. induction H as [x|x z y Hs Hr IH]; intros p [res Hy] [out Hx] Hc Hm.
  { exists p. by split_and!; [apply rtc_refl|..]. }
  unfold cons_rel in Hs. rewrite <-Hc, <-Hm in Hs. rewrite <-Hc in Hx.
  destruct (pop_access p z out Hx Hs) as (p1&E1&C1&M1&P1&O1&J1).
  assert (Hz : (∃ out', cons_buffer z.1 = Some out') ∨ ∃ res', z.1 = CRet res').
  { destruct (cons_step_book _ _ z.1 z.2 ltac:(by destruct z) (ex_intro _ _ Hx)) as (_&B&_).
    destruct (z.1); cbn; eauto. done. }
  assert (H1 : rtc (pstep retry total) p p1) by (by eapply rtc_once, pstep_consumer).
  destruct Hz as [Hz|[res' Hz]].
  - destruct (IH p1) as (p2&S2&C2&J2&O2); try done; [by exists res|]. exists p2.
    split_and!; [by etrans|done|congruence|congruence].
  - assert (Ey : y.1 = z.1).
    { revert Hy. inversion Hr as [|? t ? Ht Hr']; subst; [done|]. unfold cons_rel in Ht. rewrite Hz in Ht. cbn in Ht.
      injection Ht as <-. intros Hy. exfalso. revert Hy. clear -Hr'. remember (CIdle, z.2) as u eqn:Eu. revert Eu.
      generalize (z.2). induction Hr' as [u|u v y Hs _ IH]; intros m ->; [done|]. cbn in Hs. injection Hs as <-. by eapply IH. }
    exists p1. by rewrite Ey.
Qed.

(** *** Rounds *)

Definition to_do p : nat := (remaining p + (total - length (pg_popped p)))%nat.

(** A pop of a record that is there. *)
Lemma round_pop p msg ms lost :
  prog_inv p → g_cons (pg_ring p) = CIdle → (length (pg_popped p) < total)%nat →
  ring_queue (g_mem (pg_ring p)) (mkFifo (msg :: ms) lost) → ring_bounded (abs_cells (g_mem (pg_ring p))) →
  ∃ p', rtc (pstep retry total) p p' ∧ (to_do p' < to_do p)%nat.
Proof.
  intros Hp Hc Ht Hq Hb.
  assert (E1 : consumer_step total p = Some (with_ring (with_consumer (CStart (pg_scratch p)) (pg_ring p)) p)).
  { unfold consumer_step. rewrite Hc. by rewrite (proj2 (Nat.ltb_lt _ _) Ht). }
  destruct (try_pop_queue (pg_scratch p) _ _ Hq Hb) as (m'&Em&_); [by rewrite (pi_scratch _ Hp)|].
  cbn [fifo_pop f_queue fst] in Em. apply pop_solo in Em.
  destruct (pop_alone _ _ (with_ring (with_consumer (CStart (pg_scratch p)) (pg_ring p)) p) Em)
    as (p2&S2&C2&J2&O2); try done; [by eexists|by eexists|]. cbn [fst pg_jobs pg_popped with_ring] in *.
  destruct (popped msg (pg_scratch p)) as [rec buf]. eexists.
  split.
  - eapply rtc_l; [by eapply pstep_consumer|]. etrans; [exact S2|]. eapply rtc_once, pstep_consumer.
    unfold consumer_step. by rewrite C2.
  - unfold to_do, remaining. cbn [pg_jobs pg_popped]. rewrite J2, O2, length_app. cbn [length]. lia.
Qed.

(** A push into a ring with a free slot. *)
Lemma round_push p i a js q :
  prog_inv p → g_prods (pg_ring p) !! i = Some PIdle → pg_jobs p !! i = Some (a :: js) →
  ring_queue (g_mem (pg_ring p)) q → ring_bounded (abs_cells (g_mem (pg_ring p))) →
  Z.of_nat (length (f_queue q)) < record_max (meta_ (g_mem (pg_ring p))) → args_typed a →
  ∃ p', rtc (pstep retry total) p p' ∧ (to_do p' < to_do p)%nat.
Proof.
  intros Hp Hi Hj Hq Hb Hroom [Hty Hby]. apply lookup_lt_Some in Hi as Hlt.
  set (p1 := with_ring (with_producer i (PStart a) (pg_ring p)) p).
  assert (E1 : worker_step retry i false p = Some p1) by (unfold worker_step; by rewrite Hi, Hj).
  destruct (try_push_queue (λ _, false) (a_type a) (a_flags a) (a_user a) (a_payload a) _ _ no_spurious Hq Hty Hby Hb)
    as (m'&Em&_). unfold fifo_push in Em. rewrite bool_decide_true in Em by lia. cbn [fst] in Em.
  apply push_solo in Em.
  destruct (push_alone _ _ p1 i a js Em) as (p2&S2&Hi2&J2&K2); try done;
    [by eexists|by apply list_lookup_insert_eq|].
  assert (Hj2 : pg_jobs p2 !! i = Some (a :: js)) by (rewrite J2; exact Hj).
  destruct (return_step p2 i (Value tt) a js Hi2 Hj2) as (p3&E3&_&K3&R3). exists p3. split.
  - eapply rtc_l; [by eapply pstep_worker|]. etrans; [exact S2|]. by eapply rtc_once, pstep_worker.
  - specialize (R3 eq_refl). destruct K2 as [_ _ O2 R2], K3 as [_ _ O3 _]. unfold to_do. rewrite O3, O2.
    change (pg_popped p1) with (pg_popped p). change (remaining p1) with (remaining p) in R2. lia.
Qed.

Lemma round p :
  retry = true → total = job_count jobs → prog_inv p → all_idle p → g_cons (pg_ring p) = CIdle →
  finished total p ∨ ∃ p', rtc (pstep retry total) p p' ∧ (to_do p' < to_do p)%nat.
Proof.
  intros Hretry Htotal Hp Hidle Hc. pose proof (log_bound p Hp) as Hlb. pose proof (jobs_split p Hp Hretry Hidle) as Hsp.
  destruct (conc_pops_ordered rmax stride r (length jobs) (pg_ring p)) as [_ Hle]; try done; [apply Hp|].
  destruct (conc_queue rmax stride r (length jobs) (pg_ring p)) as (Hq&Ht&Hm&_); try done; [apply Hp| |].
  { intros i pc Hi. by rewrite (Hidle i pc Hi). }
  assert (Hb : ring_bounded (abs_cells (g_mem (pg_ring p)))) by (unfold ring_bounded; cbn [c_meta abs_cells] in *; lia).
  assert (Hpo : length (g_pops (pg_ring p)) = length (pg_popped p)).
  { rewrite <-(length_fmap snd), (pi_pops _ Hp), Hc. cbn. by rewrite app_nil_r. }
  assert (Hcl : length (g_log (pg_ring p)) = length (pg_claims p)) by by rewrite (pi_log _ Hp), !length_fmap.
  destruct (decide (length (pg_popped p) < total)%nat) as [Hlt|Hge].
  - right. destruct (drop _ _) as [|msg ms] eqn:Ed; [|by eapply round_pop].
    assert (Hrem : remaining p ≠ 0%nat).
    { apply (f_equal length) in Ed. rewrite length_drop in Ed. cbn in Ed. lia. }
    assert (Hex : ∃ i a js, pg_jobs p !! i = Some (a :: js)).
    { clear -Hrem. unfold remaining in Hrem. induction (pg_jobs p) as [|[|a js] l IH]; [done| |by exists 0%nat, a, js].
      destruct (IH Hrem) as (i&a&js&E). by exists (S i), a, js. }
    destruct Hex as (i&a&js&Hj). apply lookup_lt_Some in Hj as Hil.
    destruct (lookup_lt_is_Some_2 (g_prods (pg_ring p)) i) as [pc Hi];
      [rewrite (proj2 (pi_len _ Hp)), <-(proj1 (pi_len _ Hp)); done|].
    rewrite (Hidle _ _ Hi) in Hi. destruct (worker_lookup p i PIdle Hp Hi) as (all&js'&calls&Ha&Ej&_&(W1&_)).
    rewrite Hj in Ej. injection Ej as <-. eapply round_push; try done; [cbn; lia|].
    rewrite Forall_lookup in Hjobs. specialize (Hjobs i all Ha). rewrite <-W1 in Hjobs.
    apply Forall_app in Hjobs as [_ Hjobs]. by apply Forall_cons in Hjobs as [? _].
  - left. split_and!; [|..|done|lia].
    + apply Forall_lookup. intros i pc Hi. by apply (Hidle i).
    + assert (Hrem : remaining p = 0%nat) by lia. clear -Hrem. unfold remaining in Hrem.
      induction (pg_jobs p) as [|[|a js] l IH]; [done| |done]. constructor; [done|by apply IH].
Qed.

Lemma can_finish p :
  retry = true → total = job_count jobs → prog_inv p → ∃ p', rtc (pstep retry total) p p' ∧ finished total p'.
Proof.
  intros Hretry Htotal. remember (to_do p) as k eqn:Ek. revert p Ek. induction (lt_wf k) as [k _ IH]. intros p -> Hp.
  destruct (settle_workers p Hp) as (p1&S1&Hp1&I1&O1&R1).
  destruct (settle_consumer p1 Hp1) as (p2&S2&Hp2&C2&P2&J2&O2).
  assert (I2 : all_idle p2) by (intros i pc Hi; rewrite P2 in Hi; by apply (I1 i)).
  destruct (round p2 Hretry Htotal Hp2 I2 C2) as [Hf|(p3&S3&T3)]; [by exists p2; split; [etrans|]|].
  assert (Hlt : (to_do p3 < to_do p)%nat).
  { unfold to_do, remaining in *. rewrite J2 in T3. rewrite O1 in O2. lia. }
  assert (Hp3 : prog_inv p3).
  { revert Hp2. clear -S3 Hmax Hstride Habs Hjobs Hscratch Hbound. induction S3 as [|x y z Hs _ IH]; [done|]. intros Hx. apply IH.
    destruct Hs; [by eapply worker_step_inv|by eapply consumer_step_inv]. }
  destruct (IH (to_do p3) Hlt p3 eq_refl Hp3) as (p4&S4&Hf). exists p4. split; [|done].
  etrans; [exact S1|]. etrans; [exact S2|]. by etrans.
Qed.

(** *** Few jobs are never lost

    A retry without a spurious failure means that another worker claimed a position, so a call
    retries at most as often as there are other jobs. *)

Definition patient (t : Z) (pc : PPc) : Prop :=
  match pc with
  | PLoadSeq _ b pos => Z.of_nat MPSC_CAS_RETRY_BUDGET - Z.of_nat b ≤ pos
  | PCas _ b pos => Z.of_nat MPSC_CAS_RETRY_BUDGET - Z.of_nat b ≤ pos + 1
  | PReload _ b => Z.of_nat MPSC_CAS_RETRY_BUDGET - Z.of_nat b ≤ t
  | PBump | PRet (Error _) => False
  | _ => True
  end.

Record lossless p : Prop := {
  ls_inv : prog_inv p;
  ls_pcs i pc : g_prods (pg_ring p) !! i = Some pc → patient (Z.of_nat (length (g_log (pg_ring p)))) pc;
  ls_calls : Forall (Forall (λ c, has_value c.2 = true)) (pg_calls p);
  ls_full : g_full (pg_ring p) = 0;
}.

Lemma patient_mono t t' pc : t ≤ t' → patient t pc → patient t' pc.
Proof. destruct pc as [| | | | | | |[]]; cbn [patient]; lia. Qed.

Lemma claims_strict p i pc :
  prog_inv p → g_prods (pg_ring p) !! i = Some pc → pc ≠ PIdle → (∀ js, holding pc js = []) →
  (length (pg_claims p) < job_count jobs)%nat.
Proof.
  intros Hp Hi Hne Hh. destruct (worker_lookup p i pc Hp Hi) as (all&js&calls&Ha&_&_&(W1&W2&_&W4)).
  rewrite (claims_sum (length jobs)) by apply Hp. unfold job_count. apply (sum_seq_lt _ _ _ i all); [|done|].
  - intros j allj Hj. destruct (pi_worker _ Hp j allj Hj) as (js'&pc'&calls'&_&_&_&Hw). by eapply worker_claims.
  - rewrite W2, Hh, app_nil_r, <-W1, length_app. specialize (W4 Hne).
    assert (length (succeeded calls) ≤ length (used_up retry calls))%nat.
    { unfold used_up, succeeded. destruct retry; [done|]. rewrite !length_fmap. apply length_filter. }
    destruct js; [done|]. cbn [length]. lia.
Qed.

Lemma lossless_access p i pc pc' m' :
  (job_count jobs ≤ MPSC_CAS_RETRY_BUDGET)%nat → Z.of_nat (job_count jobs) ≤ rmax →
  lossless p → g_prods (pg_ring p) !! i = Some pc → busy pc = true →
  prod_step false pc (g_mem (pg_ring p)) = Some (pc', m') →
  patient (Z.of_nat (length (g_log (pg_ring p)))) pc'.
Proof.
  intros Hbudget Hroom [Hp Hpcs _ _] Hi Hb E. specialize (Hpcs i pc Hi) as Hpt.
  destruct (conc_attempt rmax stride r (length jobs) (pg_ring p)) with (i := i) (sp := false) (pc := pc) (pc' := pc') (m' := m')
    as (h&Hat&Hh&_); try done; [apply Hp|by apply log_bound|].
  assert (Hcl : length (g_log (pg_ring p)) = length (pg_claims p)) by by rewrite (pi_log _ Hp), !length_fmap.
  rewrite Hcl in *. set (t := Z.of_nat (length (pg_claims p))) in *.
  assert (Hlt : (∀ js, holding pc js = []) → t < Z.of_nat (job_count jobs)).
  { intros Hn. pose proof (claims_strict p i pc Hp Hi) as Hs. unfold t. apply inj_lt, Hs; [by intros ->|done]. }
  assert (Z.of_nat (job_count jobs) ≤ Z.of_nat MPSC_CAS_RETRY_BUDGET) by lia.
  revert Hpt Hat Hlt.
  destruct pc as [|a|a b pos|a b pos|a b| |a pos st|]; try done; cbn [attempt patient holding].
  - intros _ -> _. cbn [patient]. lia.
  - destruct b as [|b]; intros Hpt Hat Hlt; specialize (Hlt (λ _, eq_refl)); [exfalso; lia|].
    destruct Hat as (?&[->|[[-> ?]|(->&_&?)]]); cbn [patient]; lia.
  - intros Hpt (?&[->|[-> [?|?]]]) _; [done|done|]. cbn [patient]. lia.
  - intros Hpt -> _. cbn [patient]. done.
  - intros _ [ (st'&->) | -> ] _; done.
Qed.

Lemma lossless_worker p i p' :
  (job_count jobs ≤ MPSC_CAS_RETRY_BUDGET)%nat → Z.of_nat (job_count jobs) ≤ rmax →
  lossless p → worker_step retry i false p = Some p' → lossless p'.
Proof.
  intros Hbudget Hroom Hl E. pose proof Hl as [Hp Hpcs Hcalls Hfull].
  pose proof (worker_step_inv p i false p' Hp E) as Hp'. unfold worker_step in E.
  destruct (g_prods (pg_ring p) !! i) as [pc|] eqn:Hi; [|done]. cbn [mbind option_bind] in E.
  apply lookup_lt_Some in Hi as Hlt.
  destruct (pg_jobs p !! i) as [js|]; [|done]. cbn [mbind option_bind] in E.
  assert (Hset : ∀ pc' t, Z.of_nat (length (g_log (pg_ring p))) ≤ t → patient t pc' →
    ∀ j pcj, <[i := pc']> (g_prods (pg_ring p)) !! j = Some pcj → patient t pcj).
  { intros pc' t Ht Hpt j pcj Hj. destruct (decide (j = i)) as [->|Hne].
    - rewrite list_lookup_insert_eq in Hj by done. by injection Hj as <-.
    - rewrite list_lookup_insert_ne in Hj by done. by eapply patient_mono, Hpcs. }
  assert (Hacc : busy pc = true → ∀ q, prod_step false pc (g_mem (pg_ring p)) = Some q →
    p' = after_access i pc q p → lossless p').
  { intros Hb [pc' m'] Eq ->. split; [done| |done|].
    - cbn [after_access pg_ring g_prods g_log fst]. rewrite length_app.
      apply Hset; [lia|]. eapply patient_mono, lossless_access; [|done..]. lia.
    - cbn. rewrite Hfull. destruct pc; try done. specialize (Hpcs i PBump Hi). done. }
  destruct js as [|a js]; [by destruct pc|].
  destruct pc; try (destruct (prod_step _ _ _) as [q|]; [|done]; cbn [mbind option_bind] in E;
                    injection E as <-; by apply (Hacc eq_refl q)).
  - injection E as <-. split; [done| |done|done]. cbn [with_ring with_producer pg_ring g_prods g_log]. by apply Hset.
  - injection E as <-. split; [done| | |done]; cbn [with_producer pg_ring g_prods g_log pg_calls]; [by apply Hset|].
    apply Forall_alter; [done|]. intros cs _ Hcs. apply Forall_app. split; [done|]. apply Forall_singleton.
    specialize (Hpcs i _ Hi). by destruct r0.
Qed.

Lemma lossless_consumer p p' : lossless p → consumer_step total p = Some p' → lossless p'.
Proof.
  intros [Hp Hpcs Hcalls Hfull] E. pose proof (consumer_step_inv p p' Hp E) as Hp'. unfold consumer_step in E.
  assert (H : g_prods (pg_ring p') = g_prods (pg_ring p) ∧ g_log (pg_ring p') = g_log (pg_ring p) ∧
              pg_calls p' = pg_calls p ∧ g_full (pg_ring p') = g_full (pg_ring p)).
  { destruct (g_cons (pg_ring p)) as [| | | | | | | |[[rec buf]|]];
      try (destruct (cons_step _ _) as [q|]; [|done]; cbn [mbind option_bind] in E); try (by injection E as <-).
    destruct (_ <? _)%nat; [by injection E as <-|done]. }
  destruct H as (H1&H2&H3&H4). split; [done| |by rewrite H3|by rewrite H4]. rewrite H1, H2. done.
Qed.

Lemma lossless_reach p :
  (job_count jobs ≤ MPSC_CAS_RETRY_BUDGET)%nat → Z.of_nat (job_count jobs) ≤ rmax →
  rtc (pstep_strong retry total) (prog_init jobs scratch r) p → lossless p.
Proof.
  intros Hbudget Hroom. apply (rtc_ind_r (λ p, lossless p)).
  - split; [apply prog_init_inv| | |done].
    + intros i pc Hi. cbn in Hi. by apply lookup_replicate in Hi as [-> _].
    + cbn. apply Forall_fmap, Forall_true. intros. constructor.
  - intros p1 p2 _ [i p' E|p' E] Hl; [by eapply lossless_worker|by eapply lossless_consumer].
Qed.

(** *** Programs that have ended *)

Lemma ended_order p :
  prog_inv p → Forall (λ pc, pc = PIdle) (g_prods (pg_ring p)) → Forall (λ js, js = []) (pg_jobs p) →
  (retry = true ∨ Forall (Forall (λ c, has_value c.2 = true)) (pg_calls p)) →
  interleaves jobs (pg_claims p).*2.
Proof.
  intros Hp Hpcs Hjs Hok. exists (pg_claims p). split; [done|]. split; [apply Hp|]. intros i all Ha.
  destruct (pi_worker _ Hp i all Ha) as (js&pc&calls&Ej&Epc&Eca&(W1&W2&_)). fold (by_worker i (pg_claims p)).
  rewrite (Forall_lookup_1 _ _ _ _ Hjs Ej), app_nil_r in W1. rewrite W2, (Forall_lookup_1 _ _ _ _ Hpcs Epc).
  cbn [holding]. rewrite app_nil_r, <-W1. unfold used_up. destruct Hok as [Hr|Hok]; [by rewrite Hr|].
  destruct retry; [done|]. pose proof (Forall_lookup_1 _ _ _ _ Hok Eca) as Hc. clear -Hc. unfold succeeded.
  induction Hc as [|c calls Hc _ IH]; [done|]. rewrite filter_cons. rewrite decide_True by done. cbn. by f_equal.
Qed.

Lemma ended_complete p :
  prog_inv p → retry = true → total = job_count jobs → finished total p →
  shown <$> pg_popped p = expected stride (length scratch) <$> (pg_claims p).*2 ∧ interleaves jobs (pg_claims p).*2.
Proof.
  intros Hp Hretry Htotal (F1&F2&F3&F4). split; [|by apply ended_order; auto].
  rewrite shown_claims, take_ge; [done| |done]. rewrite length_fmap. pose proof (claims_bound p Hp). lia.
Qed.

(** What the ring holds when the workers have ended and the consumer is idle. *)
Lemma ended_queue p :
  prog_inv p → Forall (λ pc, pc = PIdle) (g_prods (pg_ring p)) → g_cons (pg_ring p) = CIdle →
  ring_queue (g_mem (pg_ring p))
    (mkFifo (drop (length (pg_popped p)) (job_msg stride <$> (pg_claims p).*2)) (u64 (g_full (pg_ring p)))) ∧
  c_tail (abs_cells (g_mem (pg_ring p))) = Z.of_nat (length (pg_claims p)) ∧
  record_max (meta_ (g_mem (pg_ring p))) = rmax ∧ record_stride (meta_ (g_mem (pg_ring p))) = stride.
Proof.
  intros Hp Hpcs Hc.
  destruct (conc_queue rmax stride r (length jobs) (pg_ring p)) as (Hq&Ht&Hm&Hs); try done;
    [apply Hp|by apply log_bound| |].
  { intros i pc Hi. by rewrite (Forall_lookup_1 _ _ _ _ Hpcs Hi). }
  assert (Hpo : length (g_pops (pg_ring p)) = length (pg_popped p)).
  { rewrite <-(length_fmap snd), (pi_pops _ Hp), Hc. cbn. by rewrite app_nil_r. }
  rewrite Hpo, (pi_log _ Hp) in Hq. rewrite (pi_log _ Hp), !length_fmap in Ht. done.
Qed.

End on_bytes.
