(* ===== verification/ThreadsEnd.v ===== *)
(** * Workers that take the result of a push and go on

    Without retries every step of a worker uses up some of a bounded amount of work, whatever the
    others do, and a worker with jobs left can always take a step. *)

From S2P Require Import Prelude Types Sync RingMem RingCells RingBytes RingProps.
From S2P Require Import RingConc RingInv RingConcProps Threads.

(** The accesses of a push, and the step that begins it. *)
Definition CALL_STEPS : nat := 3 * MPSC_CAS_RETRY_BUDGET + 10.

#[local] Opaque MPSC_CAS_RETRY_BUDGET.

(** What a worker has left to do. *)
Definition work_of (x : PPc * list Args) : nat :=
  match x.1 with
  | PIdle => CALL_STEPS * length x.2
  | pc => CALL_STEPS * pred (length x.2) + prod_measure pc
  end.

Lemma sum_zip_insert {A B} (f : A * B → nat) (l : list A) (k : list B) i a b a' b' :
  l !! i = Some a → k !! i = Some b →
  (sum_list_with f (zip (<[i := a']> l) (<[i := b']> k)) + f (a, b) = sum_list_with f (zip l k) + f (a', b'))%nat.
Proof.
  revert k i. induction l as [|x l IH]; intros [|y k] [|i] Hl Hk; try done.
  - injection Hl as ->. injection Hk as ->. cbn [insert list_insert zip zip_with sum_list_with]. lia.
  - specialize (IH k i Hl Hk). change (<[S i := a']> (x :: l)) with (x :: <[i := a']> l).
    change (<[S i := b']> (y :: k)) with (y :: <[i := b']> k). cbn [zip zip_with sum_list_with] in *. lia.
Qed.

Section work.
Context {M : Type} `{!RingMem M}.
Implicit Types p : prog M.

Definition work p : nat := sum_list_with work_of (zip (g_prods (pg_ring p)) (pg_jobs p)).

Lemma work_init jobs scratch (m : M) : work (prog_init jobs scratch m) = (CALL_STEPS * job_count jobs)%nat.
Proof.
  unfold work, job_count. cbn [prog_init pg_ring conc_init g_prods pg_jobs]. induction jobs as [|js jobs IH]; [cbn; lia|].
  cbn [length replicate zip zip_with sum_list_with] in *. rewrite IH. unfold work_of. cbn [fst snd]. lia.
Qed.

Lemma access_not_idle sp pc (m : M) pc' m' : prod_step sp pc m = Some (pc', m') → busy pc = true → pc' ≠ PIdle.
Proof.
  intros E Hb. destruct (prod_step_book sp pc m pc' m' 0 (match pc_args pc with Some a => [a] | None => [] end) E Hb)
    as (_&?&_); [|done]. by intros a ->.
Qed.

Lemma access_work sp pc (m : M) pc' m' a js :
  prod_step sp pc m = Some (pc', m') → busy pc = true → (work_of (pc', a :: js) < work_of (pc, a :: js))%nat.
Proof.
  intros E Hb. pose proof (access_not_idle _ _ _ _ _ E Hb) as Hn.
  assert (Hm : (prod_measure pc' < prod_measure pc)%nat) by (eapply prod_step_measure; [by intros ->|exact E]).
  unfold work_of. cbn [fst snd length pred]. destruct pc, pc'; done || lia.
Qed.

(** Every step of a worker does some of the work. *)
Lemma worker_step_work i sp p p' : worker_step false i sp p = Some p' → (work p' < work p)%nat.
Proof.
  intros E. unfold worker_step in E.
  destruct (g_prods (pg_ring p) !! i) as [pc|] eqn:Hi; [|done]. cbn [mbind option_bind] in E.
  destruct (pg_jobs p !! i) as [js|] eqn:Hj; [|done]. cbn [mbind option_bind] in E.
  assert (Hless : ∀ pc' js', (work_of (pc', js') < work_of (pc, js))%nat →
    (sum_list_with work_of (zip (<[i := pc']> (g_prods (pg_ring p))) (<[i := js']> (pg_jobs p))) < work p)%nat).
  { intros pc' js' Hlt. pose proof (sum_zip_insert work_of _ _ i pc js pc' js' Hi Hj). unfold work. lia. }
  assert (Hkeep : ∀ pc', (work_of (pc', js) < work_of (pc, js))%nat →
    (sum_list_with work_of (zip (<[i := pc']> (g_prods (pg_ring p))) (pg_jobs p)) < work p)%nat).
  { intros pc' Hlt. specialize (Hless pc' js Hlt). by rewrite (list_insert_id (pg_jobs p)) in Hless. }
  destruct js as [|a js]; [by destruct pc|].
  destruct pc; try (destruct (prod_step _ _ _) as [[pc' m']|] eqn:Eq; [|done]; cbn [mbind option_bind] in E;
    injection E as <-; apply Hkeep; by eapply access_work).
  - injection E as <-. apply Hkeep. unfold work_of, CALL_STEPS. cbn [fst snd length pred prod_measure]. lia.
  - injection E as <-. apply Hless. unfold work_of, CALL_STEPS, jobs_after. cbn [fst snd length pred prod_measure tail andb]. lia.
Qed.

(** With nothing to pop the consumer never starts. *)
Lemma worker_step_cons retry i sp p p' :
  worker_step retry i sp p = Some p' → g_cons (pg_ring p') = g_cons (pg_ring p) ∧ pg_popped p' = pg_popped p.
Proof.
  intros E. unfold worker_step in E. destruct (g_prods (pg_ring p) !! i) as [pc|]; [|done]. cbn [mbind option_bind] in E.
  destruct (pg_jobs p !! i) as [[|a js]|]; [by destruct pc| |done]. cbn [mbind option_bind] in E.
  destruct pc; try (destruct (prod_step _ _ _); [|done]; cbn [mbind option_bind] in E); by injection E as <-.
Qed.

Lemma idle_consumer retry jobs scratch (m : M) p :
  rtc (pstep retry 0) (prog_init jobs scratch m) p → g_cons (pg_ring p) = CIdle ∧ pg_popped p = [].
Proof.
  apply (rtc_ind_r (λ p, g_cons (pg_ring p) = CIdle ∧ pg_popped p = [])); [done|].
  intros p1 p2 _ [i sp p' E|p' E] [Hc Ho].
  - apply worker_step_cons in E as [-> ->]. done.
  - unfold consumer_step in E. by rewrite Hc in E.
Qed.

Lemma steps_work k jobs scratch (m : M) p p' :
  rtc (pstep false 0) (prog_init jobs scratch m) p → nsteps (pstep false 0) k p p' → (k + work p' ≤ work p)%nat.
Proof.
  intros Hr Hk. revert Hr. induction Hk as [p|k p p1 p' Hs Hk IH]; intros Hr; [done|].
  assert (Hr1 : rtc (pstep false 0) (prog_init jobs scratch m) p1) by (eapply rtc_r; [exact Hr|exact Hs]).
  specialize (IH Hr1). destruct Hs as [i sp p1 E|p1 E].
  - apply worker_step_work in E. lia.
  - unfold consumer_step in E. destruct (idle_consumer _ _ _ _ _ Hr) as [Hc _]. by rewrite Hc in E.
Qed.
End work.

Section ends.
Context (rmax stride : Z) (r : MpscRing) (jobs : list (list Args)) (scratch : bytes).
Hypothesis Hmax : 2 ≤ rmax < 2 ^ 32.
Hypothesis Hstride : RECORD_HEADER_SIZE ≤ stride < 2 ^ 32.
Hypothesis Habs : ring_abs r (init_cells rmax stride).
Hypothesis Hjobs : Forall (Forall args_typed) jobs.
Hypothesis Hscratch : Z.of_nat (length scratch) < 2 ^ 32.
Hypothesis Hbound : Z.of_nat (job_count jobs) + rmax < 2 ^ 63.

Implicit Types p : prog MpscRing.

(** A worker that has not ended can take a step. *)
Lemma worker_can_step p i sp pc js :
  rtc (pstep false 0) (prog_init jobs scratch r) p → g_prods (pg_ring p) !! i = Some pc → pg_jobs p !! i = Some js →
  js ≠ [] → is_Some (worker_step false i sp p).
Proof.
  intros Hr Hi Hj Hne.
  pose proof (prog_reach_inv rmax stride r jobs scratch false 0 Hmax Hstride Habs Hjobs Hscratch Hbound p Hr) as Hp.
  destruct (conc_prod_defined rmax stride r (length jobs) (pg_ring p)) with (i := i) (pc := pc) (sp := sp)
    as [q E]; try done; [apply Hp|by eapply log_bound|].
  unfold worker_step. rewrite Hi, Hj. cbn [mbind option_bind]. destruct js as [|a js]; [done|].
  destruct pc; by rewrite ?E.
Qed.

(** No step left: the program has ended. *)
Lemma stuck_finished p :
  rtc (pstep false 0) (prog_init jobs scratch r) p → (∀ i, worker_step false i false p = None) → finished 0 p.
Proof.
  intros Hr Hno. destruct (idle_consumer false jobs scratch r p Hr) as [Hc _].
  pose proof (prog_reach_inv rmax stride r jobs scratch false 0 Hmax Hstride Habs Hjobs Hscratch Hbound p Hr) as Hp.
  assert (Hend : ∀ i pc js, g_prods (pg_ring p) !! i = Some pc → pg_jobs p !! i = Some js → js = []).
  { intros i pc js Hi Hj. destruct (decide (js = [])) as [|Hne]; [done|].
    destruct (worker_can_step p i false pc js Hr Hi Hj Hne) as [p' E]. by rewrite Hno in E. }
  assert (Hw : ∀ i pc, g_prods (pg_ring p) !! i = Some pc → pc = PIdle).
  { intros i pc Hi. destruct (worker_lookup stride r jobs scratch false p i pc Hp Hi)
      as (all&js&calls&_&Ej&_&(_&_&_&W4)). specialize (Hend i pc js Hi Ej) as ->.
    destruct pc; try done; by exfalso; apply W4. }
  split_and!; [by apply Forall_lookup| |done|lia].
  apply Forall_lookup. intros i js Hj. apply lookup_lt_Some in Hj as Hlt.
  destruct (lookup_lt_is_Some_2 (g_prods (pg_ring p)) i) as [pc Hi]; [|by apply (Hend i pc)].
  by rewrite (proj2 (pi_len _ _ _ _ _ _ Hp)), <-(proj1 (pi_len _ _ _ _ _ _ Hp)).
Qed.

(** The schedule can be continued, without spurious failures, until all have ended. *)
Lemma can_end p :
  rtc (pstep false 0) (prog_init jobs scratch r) p →
  ∃ ts, forallb (λ t, match t with TWorker _ sp => negb sp | TConsumer => true end) ts = true ∧
        finished 0 (run_turns false 0 ts p).
Proof.
  remember (work p) as k eqn:Ek. revert p Ek. induction (lt_wf k) as [k _ IH]. intros p -> Hr.
  assert (Hcase : (∀ i, worker_step false i false p = None) ∨ ∃ i p', worker_step false i false p = Some p').
  { pose proof (prog_reach_inv rmax stride r jobs scratch false 0 Hmax Hstride Habs Hjobs Hscratch Hbound p Hr) as Hp.
    assert (H : ∀ n, (∀ i, (i < n)%nat → worker_step false i false p = None) ∨
                     ∃ i p', worker_step false i false p = Some p').
    { induction n as [|n [IHn|?]]; [left; lia| |by right].
      destruct (worker_step false n false p) eqn:E; [right; eauto|left]. intros i Hi.
      destruct (decide (i = n)) as [->|]; [done|]. apply IHn. lia. }
    destruct (H (length (g_prods (pg_ring p)))) as [Hn|?]; [left|by right]. intros i.
    destruct (decide (i < length (g_prods (pg_ring p)))%nat) as [|Hge]; [by apply Hn|].
    unfold worker_step. by rewrite (lookup_ge_None_2 (g_prods (pg_ring p)) i) by lia. }
  destruct Hcase as [Hno|(i&p'&E)]; [exists []; split; [done|by apply stuck_finished]|].
  destruct (IH (work p')) with (p := p') as (ts&Ht&Hf); [by eapply worker_step_work|done| |].
  { eapply rtc_r; [exact Hr|by eapply pstep_worker]. }
  exists (TWorker i false :: ts). split; [done|]. cbn [run_turns fold_left]. unfold take_turn at 2. by rewrite E.
Qed.
End ends.
