(* ===== verification/ThreadsProps.v ===== *)
(** * Properties of programs of threads on a ring

    What the loops of the clients achieve together: nothing is lost or reordered, the program can
    always be brought to its end, and few enough records are never dropped. *)

From S2P Require Import Prelude Types Sync RingMem RingCells RingBytes RingProps.
From S2P Require Import RingConc RingInv RingConcProps Threads ThreadsEnd.

Section clients.
Context (meta : RecordRingMeta) (data : Z) (payload : bytes) (rmax mp : Z).
Context (r : MpscRing) (meta' : RecordRingMeta) (payload' : bytes).
Context (jobs : list (list Args)) (scratch : bytes).
Hypothesis Hmax : 2 ≤ rmax < 2 ^ 32.
Hypothesis Hmp : 0 ≤ mp < 2 ^ 32.
Hypothesis Hbytes : is_bytes payload.
Hypothesis Hinit : initialize meta data payload rmax mp = Some (Value r, meta', payload').
Hypothesis Hjobs : Forall (Forall args_typed) jobs.
Hypothesis Hscratch : Z.of_nat (length scratch) < 2 ^ 32.
Hypothesis Hbound : Z.of_nat (job_count jobs) + rmax < 2 ^ 63.

Lemma fresh_ring :
  RECORD_HEADER_SIZE ≤ record_stride_for mp < 2 ^ 32 ∧ ring_abs r (init_cells rmax (record_stride_for mp)).
Proof. destruct (initialize_Value meta data payload rmax mp r meta' payload') as (?&_&?); try done; lia. Qed.

(** C18: workers that repeat a push until it succeeds and a consumer that stops after as many
    pops as there are jobs: when all have ended, whatever the interleaving and however often the
    ring was full or a compare-and-swap failed, the consumer has seen every job exactly once, whole
    up to its slot and buffer, and the jobs of each worker in their order. *)
Theorem retry_loop_complete p :
  rtc (pstep true (job_count jobs)) (prog_init jobs scratch r) p → finished (job_count jobs) p →
  ∃ order, interleaves jobs order ∧
    shown <$> pg_popped p = expected (record_stride_for mp) (length scratch) <$> order.
Proof.
  intros Hr Hf. destruct fresh_ring as [Hs Habs]. exists (pg_claims p).*2.
  pose proof (prog_reach_inv rmax (record_stride_for mp) r jobs scratch true (job_count jobs) Hmax Hs Habs Hjobs
    Hscratch Hbound p Hr) as Hp.
  by destruct (ended_complete rmax (record_stride_for mp) r jobs scratch true (job_count jobs) Hmax Hs Habs Hbound p
    Hp eq_refl eq_refl Hf).
Qed.

(** C19: such a program never gets stuck: from every state it can reach, however it was scheduled,
    it can still run to its end. *)
Theorem retry_loop_can_end p :
  rtc (pstep true (job_count jobs)) (prog_init jobs scratch r) p →
  ∃ p', rtc (pstep true (job_count jobs)) p p' ∧ finished (job_count jobs) p'.
Proof.
  intros Hr. destruct fresh_ring as [Hs Habs].
  apply (can_finish rmax (record_stride_for mp) r jobs scratch true (job_count jobs)); try done.
  by eapply prog_reach_inv.
Qed.

(** Workers that take the result of each push and go on lose nothing when the jobs are at
    most 64 and fit the ring, as long as no compare-and-swap fails spuriously: every call returns
    success, the loss counter stays zero, and once they have ended the ring holds all jobs that were
    not popped, the jobs of each worker in their order. *)
Theorem few_records_never_lost total p :
  (job_count jobs ≤ MPSC_CAS_RETRY_BUDGET)%nat → Z.of_nat (job_count jobs) ≤ rmax →
  rtc (pstep_strong false total) (prog_init jobs scratch r) p →
  Forall (Forall (λ c, has_value c.2 = true)) (pg_calls p) ∧ ring_lost_count (g_mem (pg_ring p)) = 0 ∧
  (Forall (λ pc, pc = PIdle) (g_prods (pg_ring p)) → Forall (λ js, js = []) (pg_jobs p) →
   g_cons (pg_ring p) = CIdle →
   ∃ order, interleaves jobs order ∧
     ring_queue (g_mem (pg_ring p))
       (mkFifo (drop (length (pg_popped p)) (job_msg (record_stride_for mp) <$> order)) 0)).
Proof.
  intros Hbudget Hroom Hr. destruct fresh_ring as [Hs Habs].
  destruct (lossless_reach rmax (record_stride_for mp) r jobs scratch false total Hmax Hs Habs Hjobs Hscratch Hbound p
    Hbudget Hroom Hr) as [Hp _ Hcalls Hfull].
  pose proof (log_bound rmax (record_stride_for mp) r jobs scratch false Hbound p Hp) as Hlb.
  split; [done|]. split.
  - rewrite (conc_lost rmax (record_stride_for mp) r (length jobs) (pg_ring p)), Hfull; try done. apply Hp.
  - intros Hi Hj Hc. exists (pg_claims p).*2. split; [by eapply ended_order; auto|].
    destruct (ended_queue rmax (record_stride_for mp) r jobs scratch false Hmax Hs Habs Hbound p Hp Hi Hc)
      as (Hq&_). by rewrite Hfull in Hq.
Qed.

(** C37: workers that take the result of each push and go on end whatever the schedule and the
    spurious failures: together they take at most 202 steps a job, and when none of them can take a
    step, all jobs are done. *)
Theorem go_on_terminates k p :
  nsteps (pstep false 0) k (prog_init jobs scratch r) p →
  (k ≤ 202 * job_count jobs)%nat ∧ ((∀ i, worker_step false i false p = None) → finished 0 p).
Proof.
  intros Hk. destruct fresh_ring as [Hs Habs]. split.
  - pose proof (steps_work k jobs scratch r _ p (rtc_refl _ _) Hk) as Hw. rewrite work_init in Hw.
    change CALL_STEPS with 202%nat in Hw. lia.
  - apply (stuck_finished rmax (record_stride_for mp) r jobs scratch); try done. by eapply rtc_nsteps_2.
Qed.
End clients.

(** ** Concrete runs

    Two workers with three jobs on the two-record ring of [RingConcProps]. Both lose
    compare-and-swaps, the first meets a full ring, the consumer an empty one. *)

Definition demo_jobs : list (list Args) := [[argsA; argsB]; [mkArgs 3 0 9 [6;7;8]]].

Definition demo_turns : list turn :=
  [TConsumer; TConsumer; TConsumer; TConsumer] ++ replicate 4 (TWorker 0 false) ++ replicate 3 (TWorker 1 true) ++
  [TWorker 0 true; TWorker 1 false; TWorker 1 false] ++ replicate 20 (TWorker 0 false) ++
  replicate 9 (TWorker 1 false) ++ replicate 10 (TWorker 0 false) ++
  replicate 19 TConsumer ++ replicate 20 (TWorker 1 false) ++ replicate 20 (TWorker 0 false) ++ replicate 10 TConsumer.

Definition demo_prog (retry : bool) (total : nat) (ts : list turn) : prog MpscRing :=
  run_turns retry total ts (prog_init demo_jobs [0;0] demo0).

Lemma demo_jobs_typed : Forall (Forall args_typed) demo_jobs.
Proof. repeat first [apply Forall_nil_2 | apply Forall_cons_2]; by apply args_typedb_spec. Qed.

Lemma demo_init_jobs : initialize (init_meta 0 0) 4096 (replicate 272 0) 2 8 = Some (Value demo0, demo0_meta, demo0_payload).
Proof. vm_compute. reflexivity. Qed.

Lemma retry_loop_complete_witness :
  ∃ order, interleaves demo_jobs order ∧
    shown <$> pg_popped (demo_prog true 3 demo_turns) = expected (record_stride_for 8) 2 <$> order.
Proof.
  apply (retry_loop_complete (init_meta 0 0) 4096 (replicate 272 0) 2 8 demo0 demo0_meta demo0_payload demo_jobs [0;0]).
  - lia.
  - lia.
  - exact demo_bytes.
  - exact demo_init_jobs.
  - exact demo_jobs_typed.
  - reflexivity.
  - reflexivity.
  - apply run_turns_steps.
  - vm_compute. repeat constructor.
Defined.

Lemma retry_loop_can_end_witness :
  ∃ p', rtc (pstep true 3) (demo_prog true 3 (take 25 demo_turns)) p' ∧ finished 3 p'.
Proof.
  apply (retry_loop_can_end (init_meta 0 0) 4096 (replicate 272 0) 2 8 demo0 demo0_meta demo0_payload demo_jobs [0;0]).
  - lia.
  - lia.
  - exact demo_bytes.
  - exact demo_init_jobs.
  - exact demo_jobs_typed.
  - reflexivity.
  - reflexivity.
  - apply run_turns_steps.
Defined.

(** One job each, the workers taking turns; nobody consumes. *)
Definition demo_few : list (list Args) := [[argsA]; [argsB]].

Definition demo_few_prog : prog MpscRing :=
  run_turns false 0 (concat (replicate 20 [TWorker 0 false; TWorker 1 false])) (prog_init demo_few [] demo0).

Lemma few_records_never_lost_witness :
  ∃ order, interleaves demo_few order ∧
    ring_queue (g_mem (pg_ring demo_few_prog)) (mkFifo (job_msg (record_stride_for 8) <$> order) 0).
Proof.
  refine (proj2 (proj2 (few_records_never_lost (init_meta 0 0) 4096 (replicate 272 0) 2 8 demo0 demo0_meta
    demo0_payload demo_few [] _ _ demo_bytes demo_init_jobs _ _ _ 0 demo_few_prog _ _ _)) _ _ _).
  - lia.
  - lia.
  - repeat first [apply Forall_nil_2 | apply Forall_cons_2]; by apply args_typedb_spec.
  - reflexivity.
  - reflexivity.
  - apply Nat.leb_le. reflexivity.
  - apply Z.leb_le. reflexivity.
  - apply run_turns_strong. reflexivity.
  - vm_compute. repeat constructor.
  - vm_compute. repeat constructor.
  - vm_compute. reflexivity.
Defined.

Lemma go_on_terminates_witness :
  ∃ k, nsteps (pstep false 0) k (prog_init demo_few [] demo0) demo_few_prog ∧ (k ≤ 404)%nat ∧ finished 0 demo_few_prog.
Proof.
  destruct (proj1 (rtc_nsteps _ _) (run_turns_steps false 0 (concat (replicate 20 [TWorker 0 false; TWorker 1 false]))
    (prog_init demo_few [] demo0))) as [k Hk]. exists k. split; [exact Hk|].
  destruct (go_on_terminates (init_meta 0 0) 4096 (replicate 272 0) 2 8 demo0 demo0_meta demo0_payload demo_few [])
    with (k := k) (p := demo_few_prog) as [Hle Hf].
  - lia.
  - lia.
  - exact demo_bytes.
  - exact demo_init_jobs.
  - repeat first [apply Forall_nil_2 | apply Forall_cons_2]; by apply args_typedb_spec.
  - reflexivity.
  - reflexivity.
  - exact Hk.
  - split; [exact Hle|]. apply Hf. intros [|[|i]]; vm_compute; reflexivity.
Defined.

(** A run that delivers all three jobs while the loss counter, documented as the number of dropped
    records, has counted the five pushes that were repeated. *)
Theorem retries_counted_lost :
  finished 3 (demo_prog true 3 demo_turns) ∧ length (pg_popped (demo_prog true 3 demo_turns)) = 3%nat ∧
  ring_lost_count (g_mem (pg_ring (demo_prog true 3 demo_turns))) = 5.
Proof. vm_compute. repeat constructor. Qed.
