(* ===== verification/Sha256.v ===== *)
(** * SHA-256 and HMAC-SHA256 of [shm_security.cpp]

    The streaming implementation (init, update, final over a 64-byte block buffer) and a
    reference: pad the whole message, absorb it block by block, print the state. The theorems say
    that streaming any split of a message computes the reference, and that [hmac_sha256] is the
    construction of RFC 2104. *)

From S2P Require Import Prelude Types.

(** ** Constants *)

Definition kSha256BlockBytes : nat := 64.

Definition row_words (n : nat) (row : Z) : list Z :=
  (λ i, u32 (Z.shiftr row (32 * Z.of_nat i))) <$> rev (seq 0 n).

(** The constants, a row of the source to a number. *)
Definition kSha256K : list Z :=
  Eval vm_compute in
  concat (row_words 6 <$>
    [0x428a2f98_71374491_b5c0fbcf_e9b5dba5_3956c25b_59f111f1;
     0x923f82a4_ab1c5ed5_d807aa98_12835b01_243185be_550c7dc3;
     0x72be5d74_80deb1fe_9bdc06a7_c19bf174_e49b69c1_efbe4786;
     0x0fc19dc6_240ca1cc_2de92c6f_4a7484aa_5cb0a9dc_76f988da;
     0x983e5152_a831c66d_b00327c8_bf597fc7_c6e00bf3_d5a79147;
     0x06ca6351_14292967_27b70a85_2e1b2138_4d2c6dfc_53380d13;
     0x650a7354_766a0abb_81c2c92e_92722c85_a2bfe8a1_a81a664b;
     0xc24b8b70_c76c51a3_d192e819_d6990624_f40e3585_106aa070;
     0x19a4c116_1e376c08_2748774c_34b0bcb5_391c0cb3_4ed8aa4a;
     0x5b9cca4f_682e6ff3_748f82ee_78a5636f_84c87814_8cc70208])
  ++ row_words 4 0x90befffa_a4506ceb_bef9a3f7_c67178f2.

(** ** State and words *)

(** [h] holds eight 32-bit words, [block] 64 bytes of which the first [block_used] count. *)
Record Sha256State := mkSha { h : list Z; block : bytes; total_bytes : Z; block_used : nat }.

Definition rotr (x n : Z) : Z := Z.lor (Z.shiftr x n) (u32 (Z.shiftl x (32 - n))).

Definition load_be32 (p : bytes) : Z :=
  Z.lor (Z.lor (Z.lor (u32 (Z.shiftl (nth 0 p 0) 24)) (Z.shiftl (nth 1 p 0) 16))
               (Z.shiftl (nth 2 p 0) 8)) (nth 3 p 0).

Definition store_be32 (v : Z) : bytes :=
  [u8 (Z.shiftr v 24); u8 (Z.shiftr v 16); u8 (Z.shiftr v 8); u8 v].

Definition sha256_init (st : Sha256State) : Sha256State :=
  mkSha [0x6a09e667; 0xbb67ae85; 0x3c6ef372; 0xa54ff53a;
         0x510e527f; 0x9b05688c; 0x1f83d9ab; 0x5be0cd19] (block st) 0 0.

(** ** The compression function *)

(** The message schedule: the 16 words of the block, then [n] more from index [i] on. *)
Fixpoint schedule_words (n : nat) (b : bytes) : list Z :=
  match n with O => [] | S n' => load_be32 b :: schedule_words n' (drop 4 b) end.

Fixpoint schedule_extend (n i : nat) (w : list Z) : list Z :=
  match n with
  | O => w
  | S n' =>
      let w15 := nth (i - 15) w 0 in
      let w2 := nth (i - 2) w 0 in
      let s0 := Z.lxor (Z.lxor (rotr w15 7) (rotr w15 18)) (Z.shiftr w15 3) in
      let s1 := Z.lxor (Z.lxor (rotr w2 17) (rotr w2 19)) (Z.shiftr w2 10) in
      schedule_extend n' (S i) (w ++ [u32 (nth (i - 16) w 0 + s0 + nth (i - 7) w 0 + s1)])
  end.

Record Words := mkWords { wa : Z; wb : Z; wc : Z; wd : Z; we : Z; wf : Z; wg : Z; wh : Z }.

(** One round with round constant [k] and schedule word [w]. *)
Definition sha256_round (v : Words) (k w : Z) : Words :=
  let s1 := Z.lxor (Z.lxor (rotr (we v) 6) (rotr (we v) 11)) (rotr (we v) 25) in
  let ch := Z.lxor (Z.land (we v) (wf v)) (Z.land (u32 (Z.lnot (we v))) (wg v)) in
  let temp1 := u32 (wh v + s1 + ch + k + w) in
  let s0 := Z.lxor (Z.lxor (rotr (wa v) 2) (rotr (wa v) 13)) (rotr (wa v) 22) in
  let maj := Z.lxor (Z.lxor (Z.land (wa v) (wb v)) (Z.land (wa v) (wc v))) (Z.land (wb v) (wc v)) in
  let temp2 := u32 (s0 + maj) in
  mkWords (u32 (temp1 + temp2)) (wa v) (wb v) (wc v) (u32 (wd v + temp1)) (we v) (wf v) (wg v).

Fixpoint sha256_rounds (ks ws : list Z) (v : Words) : Words :=
  match ks, ws with
  | k :: ks', w :: ws' => sha256_rounds ks' ws' (sha256_round v k w)
  | _, _ => v
  end.

(** [sha256_transform] on the state words. *)
Definition sha256_transform (hs : list Z) (b : bytes) : list Z :=
  let w := schedule_extend 48 16 (schedule_words 16 b) in
  let g n := nth n hs 0 in
  let v := sha256_rounds kSha256K w (mkWords (g 0%nat) (g 1%nat) (g 2%nat) (g 3%nat)
                                       (g 4%nat) (g 5%nat) (g 6%nat) (g 7%nat)) in
  [u32 (g 0%nat + wa v); u32 (g 1%nat + wb v); u32 (g 2%nat + wc v); u32 (g 3%nat + wd v);
   u32 (g 4%nat + we v); u32 (g 5%nat + wf v); u32 (g 6%nat + wg v); u32 (g 7%nat + wh v)].

(** ** Streaming *)

(** The loop of [sha256_update]; each iteration consumes at least one byte, so [length data]
    iterations are enough. *)
Fixpoint sha256_update_loop (fuel : nat) (st : Sha256State) (data : bytes) : Sha256State :=
  match fuel, data with
  | S fuel', _ :: _ =>
      let tk := Nat.min (length data) (kSha256BlockBytes - block_used st) in
      let blk := take (block_used st) (block st) ++ take tk data ++
                 drop (block_used st + tk) (block st) in
      let used := (block_used st + tk)%nat in
      let st' :=
        if (used =? kSha256BlockBytes)%nat
        then mkSha (sha256_transform (h st) blk) blk (total_bytes st) 0
        else mkSha (h st) blk (total_bytes st) used in
      sha256_update_loop fuel' st' (drop tk data)
  | _, _ => st
  end.

Definition sha256_update (st : Sha256State) (data : bytes) : Sha256State :=
  sha256_update_loop (length data)
    (mkSha (h st) (block st) (u64 (total_bytes st + Z.of_nat (length data))) (block_used st)) data.

(** The eight length bytes, most significant first. *)
Definition be64 (v : Z) : bytes :=
  (λ i : nat, u8 (Z.shiftr v (Z.of_nat (7 - i) * 8))) <$> seq 0 8.

Definition digest_of (hs : list Z) : bytes := concat (store_be32 <$> hs).

Definition sha256_final (st : Sha256State) : bytes :=
  let bit_len := u64 (total_bytes st * 8) in
  let blk0 := <[block_used st := 0x80]> (block st) in
  let used0 := S (block_used st) in
  let '(h1, blk1, used1) :=
    if (56 <? used0)%nat then
      let blk := take used0 blk0 ++ replicate (kSha256BlockBytes - used0) 0 in
      (sha256_transform (h st) blk, blk, 0%nat)
    else (h st, blk0, used0) in
  let blk2 := take used1 blk1 ++ replicate (56 - used1) 0 ++ drop 56 blk1 in
  let blk3 := take 56 blk2 ++ be64 bit_len in
  digest_of (sha256_transform h1 blk3).

(** [Sha256State state{}]: everything zero. *)
Definition sha256_zero : Sha256State := mkSha (replicate 8 0) (replicate kSha256BlockBytes 0) 0 0.

Definition sha256 (data : bytes) : bytes :=
  sha256_final (sha256_update (sha256_init sha256_zero) data).

(** ** HMAC *)

(** [b ^ pad] for [b = i < key.size() ? key[i] : 0], for [i] below the block size. *)
Definition hmac_pad (key : bytes) (pad : Z) : bytes :=
  (λ i, u8 (Z.lxor (nth i key 0) pad)) <$> seq 0 kSha256BlockBytes.

Definition hmac_sha256 (key data : bytes) : bytes :=
  let inner := sha256_update (sha256_update (sha256_init sha256_zero) (hmac_pad key 0x36)) data in
  let outer := sha256_update (sha256_update (sha256_init sha256_zero) (hmac_pad key 0x5c))
                 (sha256_final inner) in
  sha256_final outer.

(** ** The reference *)

Module Spec.

Definition H0 : list Z :=
  [0x6a09e667; 0xbb67ae85; 0x3c6ef372; 0xa54ff53a; 0x510e527f; 0x9b05688c; 0x1f83d9ab; 0x5be0cd19].

(** The message, a 1 bit, zeros up to 56 modulo 64 bytes, the bit length in 64 bits. *)
Definition pad (msg : bytes) : bytes :=
  msg ++ [0x80] ++ replicate ((119 - length msg mod 64) mod 64) 0 ++
  be64 (u64 (8 * Z.of_nat (length msg))).

(** Absorb the first [n] blocks of a message. *)
Fixpoint absorb_blocks (n : nat) (hs : list Z) (msg : bytes) : list Z :=
  match n with
  | O => hs
  | S n' => absorb_blocks n' (sha256_transform hs (take 64 msg)) (drop 64 msg)
  end.

Definition absorb (hs : list Z) (msg : bytes) : list Z := absorb_blocks (length msg / 64) hs msg.

Definition sha256 (msg : bytes) : bytes := digest_of (absorb H0 (pad msg)).

(** RFC 2104 with a key that is not longer than a block. *)
Definition hmac (key msg : bytes) : bytes :=
  let k := key ++ replicate (64 - length key) 0 in
  sha256 (((λ b, Z.lxor b 0x5c) <$> k) ++ sha256 (((λ b, Z.lxor b 0x36) <$> k) ++ msg)).

End Spec.

(** ** Streaming represents the absorbed prefix *)

(** The proofs below never look inside the compression function. *)
#[local] Opaque sha256_transform.

(** The state after a message: whole blocks absorbed, the rest in the buffer. *)
Record sha_rep (st : Sha256State) (msg : bytes) : Prop := {
  sr_h : h st = Spec.absorb Spec.H0 msg;
  sr_block : length (block st) = 64%nat;
  sr_used : block_used st = (length msg mod 64)%nat;
  sr_rest : take (block_used st) (block st) = drop (length msg / 64 * 64) msg;
  sr_total : total_bytes st = u64 (Z.of_nat (length msg));
}.

Lemma absorb_blocks_app n hs m1 m2 :
  (n * 64 ≤ length m1)%nat → Spec.absorb_blocks n hs (m1 ++ m2) = Spec.absorb_blocks n hs m1.
Proof.
  revert hs m1. induction n as [|n IH]; intros hs m1 Hl; simpl; [done|].
  rewrite take_app_le, drop_app_le by lia. apply IH. rewrite length_drop. lia.
Qed.

Lemma absorb_blocks_add n k hs m :
  Spec.absorb_blocks (n + k) hs m =
  Spec.absorb_blocks k (Spec.absorb_blocks n hs m) (drop (n * 64) m).
Proof.
  revert hs m. induction n as [|n IH]; intros hs m; simpl; [by rewrite drop_0|].
  rewrite IH, drop_drop. done.
Qed.

(** Appending less than a block to the rest absorbs nothing more. *)
Lemma absorb_small hs m d :
  (length m mod 64 + length d < 64)%nat → Spec.absorb hs (m ++ d) = Spec.absorb hs m.
Proof.
  intros Hl. unfold Spec.absorb. rewrite length_app.
  pose proof (Nat.div_mod_eq (length m) 64). pose proof (Nat.div_mod_eq (length m + length d) 64).
  pose proof (Nat.mod_upper_bound (length m + length d) 64 ltac:(lia)).
  replace ((length m + length d) / 64)%nat with (length m / 64)%nat by lia.
  apply absorb_blocks_app. lia.
Qed.

(** Completing the rest to a block absorbs that block. *)
Lemma absorb_full hs m d :
  (length m mod 64 + length d = 64)%nat →
  Spec.absorb hs (m ++ d) =
  sha256_transform (Spec.absorb hs m) (drop (length m / 64 * 64) m ++ d).
Proof.
  intros Hl. unfold Spec.absorb. rewrite length_app.
  pose proof (Nat.div_mod_eq (length m) 64). pose proof (Nat.div_mod_eq (length m + length d) 64).
  pose proof (Nat.mod_upper_bound (length m + length d) 64 ltac:(lia)).
  replace ((length m + length d) / 64)%nat with (length m / 64 + 1)%nat by lia.
  rewrite absorb_blocks_add. cbn [Spec.absorb_blocks]. rewrite absorb_blocks_app by lia.
  rewrite drop_app_le by lia. f_equal. apply take_ge. rewrite length_app, length_drop. lia.
Qed.

Lemma used_lt st msg : sha_rep st msg → (block_used st < 64)%nat.
Proof. intros [_ _ -> _ _]. by apply Nat.mod_upper_bound. Qed.

(** The buffer after copying [d] behind the rest. *)
Lemma buffer_take used (blk d : bytes) :
  (used + length d ≤ length blk)%nat →
  take (used + length d) (take used blk ++ d ++ drop (used + length d) blk) = take used blk ++ d.
Proof.
  intros. rewrite app_assoc. apply take_app_length'. rewrite length_app, length_take. lia.
Qed.

Lemma length_buffer used (blk d : bytes) :
  (used + length d ≤ length blk)%nat →
  length (take used blk ++ d ++ drop (used + length d) blk) = length blk.
Proof. intros. rewrite !length_app, length_take, length_drop. lia. Qed.

(** Copying a chunk that fits the buffer, one iteration of the update loop. *)
Lemma rep_chunk st msg d :
  sha_rep st msg → (block_used st + length d ≤ 64)%nat →
  let blk := take (block_used st) (block st) ++ d ++ drop (block_used st + length d) (block st) in
  let total := u64 (Z.of_nat (length (msg ++ d))) in
  sha_rep (if (block_used st + length d =? 64)%nat
           then mkSha (sha256_transform (h st) blk) blk total 0
           else mkSha (h st) blk total (block_used st + length d)) (msg ++ d).
Proof.
  intros Hst Hfit blk total. destruct Hst as [Hh Hb Hus Hr _].
  pose proof (Nat.div_mod_eq (length msg) 64) as Hdm.
  pose proof (Nat.div_mod_eq (length (msg ++ d)) 64) as Hdm'. rewrite length_app in Hdm'.
  pose proof (Nat.mod_upper_bound (length msg + length d) 64 ltac:(lia)).
  assert (Hbuf : (block_used st + length d ≤ length (block st))%nat) by lia.
  pose proof (length_buffer _ _ _ Hbuf) as Hlb. pose proof (buffer_take _ _ _ Hbuf) as Htb.
  fold blk in Hlb, Htb.
  destruct (Nat.eqb_spec (block_used st + length d) 64) as [E|E].
  - assert (Eblk : blk = drop (length msg / 64 * 64) msg ++ d).
    { rewrite <-Hr, <-Htb, E. symmetry. apply take_ge. lia. }
    split; cbn [h block block_used total_bytes]; try done.
    + rewrite absorb_full, Hh, Eblk by lia. done.
    + lia.
    + rewrite length_app. lia.
    + rewrite take_0, drop_ge; [done|]. rewrite length_app. lia.
  - split; cbn [h block block_used total_bytes]; try done.
    + by rewrite absorb_small by lia.
    + lia.
    + rewrite length_app. lia.
    + rewrite Htb, Hr, length_app.
      replace ((length msg + length d) / 64)%nat with (length msg / 64)%nat by lia.
      by rewrite drop_app_le by lia.
Qed.

Lemma update_loop_rep fuel st msg total data :
  sha_rep st msg → (length data ≤ fuel)%nat →
  total = u64 (Z.of_nat (length (msg ++ data))) →
  sha_rep (sha256_update_loop fuel (mkSha (h st) (block st) total (block_used st)) data) (msg ++ data).
Proof.
  revert st msg data. induction fuel as [|fuel IH]; intros st msg data Hst Hf Ht.
  { destruct data; [|simpl in Hf; lia]. rewrite app_nil_r in *. destruct Hst. split; simpl; auto. }
  cbn [sha256_update_loop]. destruct data as [|b0 data0].
  { rewrite app_nil_r in *. destruct Hst. split; simpl; auto. }
  set (data := b0 :: data0) in *. cbn [h block block_used total_bytes].
  pose proof (used_lt _ _ Hst) as Hu. unfold kSha256BlockBytes.
  set (tk := Nat.min (length data) (64 - block_used st)).
  assert (Htk : (1 ≤ tk)%nat) by (unfold tk, data; simpl length; lia).
  assert (Hlt : length (take tk data) = tk) by (rewrite length_take; unfold tk; lia).
  assert (Hsplit : msg ++ data = (msg ++ take tk data) ++ drop tk data)
    by by rewrite <-app_assoc, take_drop.
  rewrite Hsplit in Ht |- *.
  pose proof (rep_chunk st msg (take tk data) Hst ltac:(lia)) as Hc. rewrite Hlt in Hc.
  assert (Hf' : (length (drop tk data) ≤ fuel)%nat) by (rewrite length_drop; lia).
  destruct (block_used st + tk =? 64)%nat; exact (IH _ _ _ Hc Hf' Ht).
Qed.

Lemma update_rep st msg data : sha_rep st msg → sha_rep (sha256_update st data) (msg ++ data).
Proof.
  intros Hst. apply update_loop_rep; [done|done|]. rewrite (sr_total _ _ Hst), length_app.
  unfold u64. rewrite Zplus_mod_idemp_l. f_equal. lia.
Qed.

Lemma init_rep : sha_rep (sha256_init sha256_zero) [].
Proof. by split. Qed.

Lemma length_be64 v : length (be64 v) = 8%nat.
Proof. done. Qed.

Lemma pad_zeros u :
  (u < 64)%nat → ((119 - u) mod 64)%nat = if (56 <? S u)%nat then ((64 - S u) + 56)%nat else (55 - u)%nat.
Proof.
  intros Hu. destruct (Nat.ltb_spec 56 (S u)); symmetry.
  - apply (Nat.mod_unique _ _ 0); lia.
  - apply (Nat.mod_unique _ _ 1); lia.
Qed.

(** [sha256_final] absorbs the padding, in one block or in two. *)
Lemma final_rep st msg : sha_rep st msg → sha256_final st = Spec.sha256 msg.
Proof.
  intros Hst. pose proof (used_lt _ _ Hst) as Hu. pose proof Hst as [Hh Hb Hus Hr Ht].
  unfold sha256_final, Spec.sha256, Spec.pad, kSha256BlockBytes. rewrite Ht.
  replace (u64 (u64 (Z.of_nat (length msg)) * 8)) with (u64 (8 * Z.of_nat (length msg)))
    by (unfold u64; rewrite Zmult_mod_idemp_l; f_equal; lia).
  set (tail := be64 _). assert (Htl : length tail = 8%nat) by done.
  rewrite <-Hus, pad_zeros by done. set (u := block_used st) in *.
  assert (Hins : take (S u) (<[u:=128]> (block st)) = take u (block st) ++ [128]).
  { rewrite (take_S_r _ _ 128) by (apply list_lookup_insert_eq; lia).
    by rewrite take_insert_ge by lia. }
  pose proof (Nat.div_mod_eq (length msg) 64) as Hdm.
  assert (Hli : length (<[u:=128]> (block st)) = 64%nat) by by rewrite length_insert.
  destruct (Nat.ltb_spec 56 (S u)) as [Hbig|Hsmall]; cbn [fst snd].
  - set (blk := take (S u) (<[u:=128]> (block st)) ++ replicate (64 - S u) 0).
    rewrite replicate_add.
    replace (msg ++ [128] ++ (replicate (64 - S u) 0 ++ replicate 56 0) ++ tail)
      with ((msg ++ [128] ++ replicate (64 - S u) 0) ++ (replicate 56 0 ++ tail))
      by by rewrite <-!app_assoc.
    assert (B1 : blk = drop (length msg / 64 * 64) msg ++ [128] ++ replicate (64 - S u) 0)
      by by (unfold blk; rewrite Hins, <-Hr, <-!app_assoc).
    assert (Hlm : length (msg ++ [128] ++ replicate (64 - S u) 0) = ((length msg / 64 + 1) * 64)%nat)
      by (rewrite !length_app, length_replicate; simpl length; lia).
    assert (B2 : take 56 (take 0 blk ++ replicate (56 - 0) 0 ++ drop 56 blk) = replicate 56 0)
      by (rewrite take_0, app_nil_l; apply take_app_length'; by rewrite length_replicate).
    assert (B3 : drop (length (msg ++ [128] ++ replicate (64 - S u) 0) / 64 * 64)
                   (msg ++ [128] ++ replicate (64 - S u) 0) = [])
      by (apply drop_ge; rewrite Hlm, Nat.div_mul; lia).
    rewrite absorb_full, absorb_full, B2, B3, Hh, <-B1; [reflexivity| |].
    + rewrite length_app, length_replicate. simpl length. lia.
    + rewrite Hlm, Nat.Div0.mod_mul, length_app, length_replicate, Htl. lia.
  - assert (B1 : take 56 (take (S u) (<[u:=128]> (block st)) ++ replicate (56 - S u) 0 ++
                   drop 56 (<[u:=128]> (block st))) =
                 drop (length msg / 64 * 64) msg ++ [128] ++ replicate (55 - u) 0).
    { rewrite Hins, Hr, app_assoc. rewrite take_app_length'; [by rewrite <-app_assoc|].
      rewrite !length_app, length_drop, length_replicate. simpl length. lia. }
    rewrite absorb_full, B1, Hh, <-!app_assoc; [reflexivity|].
    rewrite !length_app, length_replicate, Htl. simpl length. lia.
Qed.

Lemma length_digest_of hs : length (digest_of hs) = (4 * length hs)%nat.
Proof.
  unfold digest_of. induction hs as [|x hs IH]; [done|].
  rewrite fmap_cons. cbn [concat]. rewrite length_app, IH. simpl. lia.
Qed.

#[local] Transparent sha256_transform.

Lemma length_transform hs b : length (sha256_transform hs b) = 8%nat.
Proof. done. Qed.

Lemma digest_is_bytes hs : is_bytes (digest_of hs).
Proof.
  unfold digest_of. induction hs as [|x hs IH]; [constructor|].
  rewrite fmap_cons. cbn [concat]. apply Forall_app_2; [|exact IH].
  repeat (constructor; [apply u8_range|]). constructor.
Qed.

Lemma length_final st : length (sha256_final st) = 32%nat.
Proof. unfold sha256_final. by destruct (_ <? _)%nat; rewrite length_digest_of. Qed.

Lemma final_is_bytes st : is_bytes (sha256_final st).
Proof. unfold sha256_final. destruct (_ <? _)%nat; apply digest_is_bytes. Qed.

#[local] Opaque sha256_transform.

Lemma hmac_pad_eq key pad :
  length key = 32%nat → is_bytes key → 0 ≤ pad < 2 ^ 8 →
  hmac_pad key pad = (λ b, Z.lxor b pad) <$> (key ++ replicate 32 0).
Proof.
  intros Hl Hb Hp. unfold hmac_pad, kSha256BlockBytes. apply list_eq. intros i.
  rewrite !list_lookup_fmap. destruct (decide (i < 64)%nat) as [Hi|Hi].
  - rewrite lookup_seq_lt by done.
    assert (E : (key ++ replicate 32 0) !! i = Some (nth i key 0)).
    { destruct (decide (i < 32)%nat).
      - rewrite lookup_app_l by lia. destruct (lookup_lt_is_Some_2 key i) as [x Hx]; [lia|].
        rewrite Hx. by rewrite (nth_lookup_Some _ _ _ _ Hx).
      - rewrite lookup_app_r, lookup_replicate_2 by lia. by rewrite nth_overflow by lia. }
    rewrite E. cbn [fmap option_fmap option_map]. f_equal. apply u8_small, lxor_range; [done| |done].
    destruct (decide (i < 32)%nat); [|rewrite nth_overflow by lia; done].
    destruct (lookup_lt_is_Some_2 key i) as [x Hx]; [lia|]. rewrite (nth_lookup_Some _ _ _ _ Hx).
    by eapply (Forall_lookup_1 _ _ _ _ Hb).
  - rewrite !lookup_ge_None_2; [done| |]; rewrite ?length_app, ?length_replicate, ?length_seq; lia.
Qed.

Lemma hmac_sha256_spec key data :
  length key = 32%nat → is_bytes key → hmac_sha256 key data = Spec.hmac key data.
Proof.
  intros Hl Hb. unfold hmac_sha256, Spec.hmac. rewrite Hl.
  rewrite !hmac_pad_eq by done. change (64 - 32)%nat with 32%nat. cbv zeta.
  set (ip := (λ b, Z.lxor b 54) <$> (key ++ replicate 32 0)).
  set (op := (λ b, Z.lxor b 92) <$> (key ++ replicate 32 0)).
  rewrite (final_rep _ (ip ++ data) (update_rep _ ip data (update_rep _ [] ip init_rep))).
  apply final_rep. exact (update_rep _ op _ (update_rep _ [] op init_rep)).
Qed.

(** ** Theorems *)

(** C35: feeding a message to the streaming implementation in any number of chunks of any
    sizes gives the digest of the concatenation: pad, absorb block by block, print the state. *)
Theorem sha256_streaming (chunks : list bytes) :
  sha256_final (fold_left sha256_update chunks (sha256_init sha256_zero)) =
  Spec.sha256 (concat chunks).
Proof.
  assert (H : ∀ st msg, sha_rep st msg →
    sha_rep (fold_left sha256_update chunks st) (msg ++ concat chunks)).
  { induction chunks as [|d chunks IH]; intros st msg Hst; simpl; [by rewrite app_nil_r|].
    rewrite app_assoc. by apply IH, update_rep. }
  apply final_rep. exact (H _ _ init_rep).
Qed.

(** [hmac_sha256] with a 32-byte key is HMAC of RFC 2104 over the reference SHA-256,
    and its result is 32 bytes. *)
Theorem hmac_sha256_rfc2104 key data :
  length key = 32%nat → is_bytes key →
  hmac_sha256 key data = Spec.hmac key data ∧
  length (hmac_sha256 key data) = 32%nat ∧ is_bytes (hmac_sha256 key data).
Proof.
  intros Hl Hb. split_and!; [by apply hmac_sha256_spec|apply length_final|apply final_is_bytes].
Qed.

#[local] Transparent sha256_transform.

Lemma hmac_sha256_rfc2104_witness :
  hmac_sha256 (replicate 32 0x0b) (str "Hi There") = Spec.hmac (replicate 32 0x0b) (str "Hi There").
Proof. apply (hmac_sha256_rfc2104 (replicate 32 0x0b)); [done|solve_bytes]. Defined.

(** Published test vectors: the empty message, "abc", and the two-block message. *)
Example sha256_empty :
  sha256 [] = [0xe3;0xb0;0xc4;0x42;0x98;0xfc;0x1c;0x14;0x9a;0xfb;0xf4;0xc8;0x99;0x6f;0xb9;0x24;
               0x27;0xae;0x41;0xe4;0x64;0x9b;0x93;0x4c;0xa4;0x95;0x99;0x1b;0x78;0x52;0xb8;0x55].
Proof. by vm_compute. Qed.

Example sha256_abc :
  sha256 (str "abc") =
  [0xba;0x78;0x16;0xbf;0x8f;0x01;0xcf;0xea;0x41;0x41;0x40;0xde;0x5d;0xae;0x22;0x23;
   0xb0;0x03;0x61;0xa3;0x96;0x17;0x7a;0x9c;0xb4;0x10;0xff;0x61;0xf2;0x00;0x15;0xad].
Proof. by vm_compute. Qed.

Example sha256_two_blocks :
  sha256 (str "abcdbcdecdefdefgefghfghighijhijkijkljklmklmnlmnomnopnopq") =
  [0x24;0x8d;0x6a;0x61;0xd2;0x06;0x38;0xb8;0xe5;0xc0;0x26;0x93;0x0c;0x3e;0x60;0x39;
   0xa3;0x3c;0xe4;0x59;0x64;0xff;0x21;0x67;0xf6;0xec;0xed;0xd4;0x19;0xdb;0x06;0xc1].
Proof. by vm_compute. Qed.
