(* ===== verification/Security.v ===== *)
(** * Names, quotas and header signatures: [shm_security.h], [shm_security.cpp]

    Name parsing, the create-time checks, the HMAC key and the signing and verification of
    headers, with the theorems: what names are accepted and how they split, which create requests
    pass, that a signed header verifies, and that a header that verifies carries the HMAC of its
    immutable block. The process environment and the key file are the argument [KeyEnv]. *)

From S2P Require Import Prelude Types Sha256.

(** ** Names *)

Definition kAllowedNamespaces : list bytes := [str "log"; str "tlm"; str "kv"; str "app"; str "sys"].
Definition kMaxNamespaceSegments : Z := 1024.

Definition is_lower (c : Z) : bool := (97 <=? c) && (c <=? 122).

Definition is_name_tail_char (c : Z) : bool :=
  (is_lower c || ((48 <=? c) && (c <=? 57)) || (c =? 95) || (c =? 45))%bool.

Definition namespace_allowed (ns : bytes) : bool :=
  existsb (λ a, bool_decide (a = ns)) kAllowedNamespaces.

Record ParsedName := mkParsedName { pn_ns : bytes; pn_leaf : bytes; pn_bootstrap : bool }.

(** [name.find(c, pos)]: the index of the first [c] at or after [pos]. *)
Fixpoint find_from (c : Z) (l : bytes) : option nat :=
  match l with
  | [] => None
  | x :: l' => if x =? c then Some 0%nat else S <$> find_from c l'
  end.

Definition find_char (c : Z) (pos : nat) (name : bytes) : option nat :=
  (λ k, (pos + k)%nat) <$> find_from c (drop pos name).

(** [name.substr(pos, n)], for [pos] not beyond the end. *)
Definition substr (pos n : nat) (name : bytes) : bytes := take n (drop pos name).

Definition name_prefix : bytes := str "/shmfx.".

Definition front (l : bytes) : Z := nth 0 l 0.

Definition parse_and_validate_name (name : bytes) : Result ParsedName :=
  if (bool_decide (name = REGISTRY_NAME) || bool_decide (name = REGISTRY_LOCK_NAME))%bool
  then Value (mkParsedName [] name true)
  else if ((Z.to_nat SHMFX_NAME_BYTES <=? length name)%nat ||
           negb (bool_decide (substr 0 (length name_prefix) name = name_prefix)))%bool
  then Error InvalidName
  else
    match find_char 46 (length name_prefix) name with
    | None => Error InvalidName
    | Some dot =>
        let ns := substr (length name_prefix) (dot - length name_prefix) name in
        let leaf := drop (dot + 1) name in
        if ((length ns <? 2)%nat || (15 <? length ns)%nat || (length leaf =? 0)%nat ||
            (39 <? length leaf)%nat)%bool
        then Error InvalidName
        else if (negb (is_lower (front ns)) || negb (is_lower (front leaf)))%bool
        then Error InvalidName
        else if (negb (forallb is_name_tail_char (tail ns)) ||
                 negb (forallb is_name_tail_char (tail leaf)))%bool
        then Error InvalidName
        else if negb (namespace_allowed ns) then Error PermissionDenied
        else Value (mkParsedName ns leaf false)
    end.

(** ** Create-time checks *)

(** The fold over the registry entries: total bytes (64-bit) and segments of the namespace. *)
Definition quota_entry (parsed : ParsedName) (acc : Z * Z) (e : RegistryEntry) : Z * Z :=
  let '(bytes_sum, count) := acc in
  (u64 (bytes_sum + e_total_size e),
   if (negb (pn_bootstrap parsed) &&
       bool_decide (substr 0 (7 + length (pn_ns parsed)) (fixed_name_view (e_name e)) =
                    name_prefix ++ pn_ns parsed))%bool
   then u32 (count + 1) else count).

Definition validate_create_security (options : CreateOptions) (existing : list RegistryEntry)
    : Result unit :=
  match parse_and_validate_name (co_name options) with
  | Error e => Error e
  | Value parsed =>
      if ((co_total_size options <? u64 (SHMFX_HEADER_SIZE + co_meta_size options)) ||
          (MAX_SEGMENT_SIZE <? co_total_size options))%bool
      then Error QuotaExceeded
      else
        let '(bytes_sum, count) :=
          fold_left (quota_entry parsed) existing (co_total_size options, 0) in
        if ((TOTAL_QUOTA_BYTES <? bytes_sum) || (kMaxNamespaceSegments <=? count))%bool
        then Error QuotaExceeded else Value tt
  end.

(** [apply_permissions] on the result of [fchmod]. *)
Definition apply_permissions (fchmod_ok : bool) : Result unit :=
  if fchmod_ok then Value tt else Error PermissionDenied.

(** ** The HMAC key *)

(** [getenv("SHMFX_HMAC_KEY")] and the contents of /etc/shmfx/hmac.key, when they exist. *)
Record KeyEnv := mkKeyEnv { env_key : option bytes; file_key : option bytes }.

Definition hex_value (c : Z) : Z :=
  if (48 <=? c) && (c <=? 57) then c - 48
  else if (97 <=? c) && (c <=? 102) then c - 97 + 10
  else if (65 <=? c) && (c <=? 70) then c - 65 + 10
  else -1.

(** The loop of [parse_hex_key] over pairs of digits. *)
Fixpoint parse_hex_pairs (hex : bytes) : option bytes :=
  match hex with
  | hc :: lc :: hex' =>
      let hi := hex_value hc in
      let lo := hex_value lc in
      if ((hi <? 0) || (lo <? 0))%bool then None
      else rest ← parse_hex_pairs hex'; Some (u8 (Z.lor (Z.shiftl hi 4) lo) :: rest)
  | _ => Some []
  end.

Definition parse_hex_key (hex : bytes) : option bytes :=
  if negb (length hex =? Z.to_nat (SHMFX_HMAC_BYTES * 2))%nat then None else parse_hex_pairs hex.

(** [file >> hex]: skip white space, read up to the next white space. *)
Definition is_space (c : Z) : bool := ((c =? 32) || ((9 <=? c) && (c <=? 13)))%bool.

Fixpoint skip_space (l : bytes) : bytes :=
  match l with c :: l' => if is_space c then skip_space l' else l | [] => [] end.

Fixpoint read_word (l : bytes) : bytes :=
  match l with c :: l' => if is_space c then [] else c :: read_word l' | [] => [] end.

Definition load_hmac_key (e : KeyEnv) : option bytes :=
  match env_key e with
  | Some hex => parse_hex_key hex
  | None => contents ← file_key e; parse_hex_key (read_word (skip_space contents))
  end.

(** ** Signing and verification *)

Definition has_hmac_bytes (hdr : ShmHeader) : bool := existsb (λ b, negb (b =? 0)) (hmac hdr).

(** The loop of [digest_equal], which looks at every byte. *)
Fixpoint digest_diff (diff : Z) (lhs rhs : bytes) : Z :=
  match lhs, rhs with
  | l :: lhs', r :: rhs' => digest_diff (u8 (Z.lor diff (Z.lxor l r))) lhs' rhs'
  | _, _ => diff
  end.

Definition digest_equal (lhs rhs : bytes) : bool := digest_diff 0 lhs rhs =? 0.

Definition set_hmac (d : bytes) (hdr : ShmHeader) : ShmHeader :=
  mkShmHeader (magic hdr) (version_major hdr) (version_minor hdr) (segment_type hdr) (flags hdr)
    (total_size hdr) (payload_size hdr) (meta_offset hdr) (meta_size hdr) (payload_offset hdr)
    (creator_pid hdr) (created_at_ns hdr) (creator_start_time hdr) (name hdr) d (owner_pid hdr)
    (owner_start_time hdr) (ref_count hdr) (state hdr) (heartbeat_counter hdr)
    (heartbeat_last_ns hdr).

Definition zero_hmac : bytes := replicate (Z.to_nat SHMFX_HMAC_BYTES) 0.

Definition hmac_enabled (hdr : ShmHeader) : bool := negb (Z.land (flags hdr) HmacEnabled =? 0).

(** The result and the header after the call. *)
Definition sign_header_if_enabled (e : KeyEnv) (hdr : ShmHeader) : Result unit * ShmHeader :=
  if negb (hmac_enabled hdr) then (Value tt, set_hmac zero_hmac hdr)
  else
    match load_hmac_key e with
    | None => (Error PermissionDenied, hdr)
    | Some key =>
        let hdr' := set_hmac zero_hmac hdr in
        (Value tt, set_hmac (hmac_sha256 key (immutable_bytes hdr')) hdr')
    end.

Definition verify_header_hmac (e : KeyEnv) (hdr : ShmHeader) : Result unit :=
  if (negb (hmac_enabled hdr) && negb (has_hmac_bytes hdr))%bool then Value tt
  else
    match load_hmac_key e with
    | None => Error PermissionDenied
    | Some key =>
        if negb (digest_equal (hmac hdr) (hmac_sha256 key (immutable_bytes hdr)))
        then Error CorruptedHeader else Value tt
    end.

(** ** Lemmas on names *)

(** What the comments call the shmfx name pattern, for namespace and leaf. *)
Definition name_shape (ns leaf : bytes) : bool :=
  ((2 <=? length ns)%nat && (length ns <=? 15)%nat && (1 <=? length leaf)%nat &&
   (length leaf <=? 39)%nat && is_lower (front ns) && is_lower (front leaf) &&
   forallb is_name_tail_char (tail ns) && forallb is_name_tail_char (tail leaf))%bool.

Definition compose_name (ns leaf : bytes) : bytes := name_prefix ++ ns ++ 46 :: leaf.

Definition is_bootstrap (nm : bytes) : Prop := nm = REGISTRY_NAME ∨ nm = REGISTRY_LOCK_NAME.

Lemma find_from_Some c l k :
  find_from c l = Some k → ∃ l1 l2, l = l1 ++ c :: l2 ∧ length l1 = k.
Proof.
  revert k. induction l as [|x l IH]; intros k; simpl; [done|].
  destruct (Z.eqb_spec x c) as [->|]; [intros [= <-]; by exists [], l|].
  destruct (find_from c l) as [j|]; [|done]. intros [= <-].
  destruct (IH j eq_refl) as (l1&l2&->&<-). by exists (x :: l1), l2.
Qed.

Lemma find_from_first c l1 l2 : Forall (λ x, x ≠ c) l1 → find_from c (l1 ++ c :: l2) = Some (length l1).
Proof.
  induction 1 as [|x l1 Hx _ IH]; simpl; [by rewrite Z.eqb_refl|].
  destruct (Z.eqb_spec x c); [done|]. by rewrite IH.
Qed.

Lemma tail_char_not_dot c : is_name_tail_char c = true → c ≠ 46.
Proof. by intros H ->. Qed.

Lemma ident_no_dot l :
  is_lower (front l) = true → forallb is_name_tail_char (tail l) = true → Forall (λ x, x ≠ 46) l.
Proof.
  destruct l as [|c l]; [constructor|]. unfold front. simpl. intros Hc Hl. constructor.
  - by intros ->.
  - apply Forall_forall. intros x Hx%list_elem_of_In. rewrite forallb_forall in Hl.
    by apply tail_char_not_dot, Hl.
Qed.

Lemma name_shape_spec ns leaf :
  name_shape ns leaf = true ↔
  (2 ≤ length ns ≤ 15)%nat ∧ (1 ≤ length leaf ≤ 39)%nat ∧ is_lower (front ns) = true ∧
  is_lower (front leaf) = true ∧ forallb is_name_tail_char (tail ns) = true ∧
  forallb is_name_tail_char (tail leaf) = true.
Proof. unfold name_shape. rewrite !andb_true_iff, !Nat.leb_le. intuition lia. Qed.

(** A composed name of the right shape is accepted or denied by its namespace. *)
Lemma parse_compose ns leaf :
  ¬ is_bootstrap (compose_name ns leaf) → name_shape ns leaf = true →
  parse_and_validate_name (compose_name ns leaf) =
  if namespace_allowed ns then Value (mkParsedName ns leaf false) else Error PermissionDenied.
Proof.
  intros Hb (Hn&Hl&Hfn&Hfl&Htn&Htl)%name_shape_spec. unfold parse_and_validate_name.
  rewrite !bool_decide_false by (unfold is_bootstrap in Hb; tauto). cbn [orb].
  assert (Hlen : length (compose_name ns leaf) = (8 + length ns + length leaf)%nat).
  { unfold compose_name. rewrite !length_app. simpl. lia. }
  rewrite Hlen. change (Z.to_nat SHMFX_NAME_BYTES) with 64%nat.
  destruct (Nat.leb_spec 64 (8 + length ns + length leaf)); [lia|].
  assert (Hd : drop (length name_prefix) (compose_name ns leaf) = ns ++ 46 :: leaf)
    by by apply drop_app_length.
  unfold substr, find_char. rewrite drop_0, Hd.
  rewrite bool_decide_true by by apply take_app_length. cbn [orb negb].
  rewrite find_from_first by by apply ident_no_dot. cbn [fmap option_fmap option_map].
  replace (length name_prefix + length ns - length name_prefix)%nat with (length ns) by lia.
  rewrite take_app_length.
  replace (length name_prefix + length ns + 1)%nat with (length name_prefix + S (length ns))%nat by lia.
  rewrite <-drop_drop, Hd.
  replace (drop (S (length ns)) (ns ++ 46 :: leaf)) with leaf.
  2:{ symmetry. change (46 :: leaf) with ([46] ++ leaf). rewrite app_assoc. apply drop_app_length'.
      rewrite length_app. simpl. lia. }
  rewrite Hfn, Hfl, Htn, Htl.
  destruct (Nat.ltb_spec (length ns) 2); [lia|]. destruct (Nat.ltb_spec 15 (length ns)); [lia|].
  destruct (Nat.eqb_spec (length leaf) 0); [lia|]. destruct (Nat.ltb_spec 39 (length leaf)); [lia|].
  cbn [orb negb]. by destruct (namespace_allowed ns).
Qed.

(** A name that is not rejected as invalid is composed of a namespace and a leaf. *)
Lemma parse_not_invalid nm :
  ¬ is_bootstrap nm → parse_and_validate_name nm ≠ Error InvalidName →
  ∃ ns leaf, nm = compose_name ns leaf ∧ name_shape ns leaf = true.
Proof.
  intros Hb. unfold parse_and_validate_name.
  rewrite !bool_decide_false by (unfold is_bootstrap in Hb; tauto). cbn [orb].
  change (Z.to_nat SHMFX_NAME_BYTES) with 64%nat.
  destruct (Nat.leb_spec 64 (length nm)); [done|].
  destruct (decide (substr 0 (length name_prefix) nm = name_prefix)) as [Hp|];
    [rewrite bool_decide_true by done|by rewrite bool_decide_false by done].
  cbn [orb negb]. unfold find_char, substr in *. rewrite drop_0 in Hp.
  destruct (find_from 46 (drop (length name_prefix) nm)) as [k|] eqn:Ef; [|done].
  cbn [fmap option_fmap option_map].
  apply find_from_Some in Ef as (ns&leaf&Ed&<-).
  assert (Enm : nm = compose_name ns leaf).
  { unfold compose_name. rewrite <-Ed. rewrite <-(take_drop (length name_prefix) nm) at 1. by rewrite Hp. }
  replace (length name_prefix + length ns - length name_prefix)%nat with (length ns) by lia.
  replace (length name_prefix + length ns + 1)%nat with (length name_prefix + S (length ns))%nat by lia.
  rewrite <-drop_drop, Ed, take_app_length.
  replace (drop (S (length ns)) (ns ++ 46 :: leaf)) with leaf.
  2:{ symmetry. change (46 :: leaf) with ([46] ++ leaf). rewrite app_assoc. apply drop_app_length'.
      rewrite length_app. simpl. lia. }
  intros H1. exists ns, leaf. split; [done|]. apply name_shape_spec.
  destruct (Nat.ltb_spec (length ns) 2); [done|]. destruct (Nat.ltb_spec 15 (length ns)); [done|].
  destruct (Nat.eqb_spec (length leaf) 0); [done|]. destruct (Nat.ltb_spec 39 (length leaf)); [done|].
  cbn [orb] in H1. destruct (is_lower (front ns)); [|done]. destruct (is_lower (front leaf)); [|done].
  cbn [orb negb] in H1. destruct (forallb is_name_tail_char (tail ns)); [|done].
  destruct (forallb is_name_tail_char (tail leaf)); [|done]. split_and!; try done; lia.
Qed.

(** ** Specification of name parsing *)

Inductive parses (nm : bytes) : Result ParsedName → Prop :=
  | parses_bootstrap : is_bootstrap nm → parses nm (Value (mkParsedName [] nm true))
  | parses_ok ns leaf :
      ¬ is_bootstrap nm → nm = compose_name ns leaf → name_shape ns leaf = true →
      namespace_allowed ns = true → parses nm (Value (mkParsedName ns leaf false))
  | parses_denied ns leaf :
      ¬ is_bootstrap nm → nm = compose_name ns leaf → name_shape ns leaf = true →
      namespace_allowed ns = false → parses nm (Error PermissionDenied)
  | parses_invalid :
      ¬ is_bootstrap nm →
      (∀ ns leaf, nm = compose_name ns leaf → name_shape ns leaf = false) →
      parses nm (Error InvalidName).

#[export] Instance is_bootstrap_dec nm : Decision (is_bootstrap nm).
Proof. unfold is_bootstrap. apply _. Defined.

Lemma parse_bootstrap nm :
  is_bootstrap nm → parse_and_validate_name nm = Value (mkParsedName [] nm true).
Proof.
  intros Hb. unfold parse_and_validate_name.
  destruct Hb as [->| ->]; [by rewrite bool_decide_true|].
  by rewrite (bool_decide_true (REGISTRY_LOCK_NAME = REGISTRY_LOCK_NAME)), orb_true_r.
Qed.

(** C29: [parse_and_validate_name] decides the documented name grammar: the two bootstrap
    names, else "/shmfx." namespace "." leaf with 2 to 15 and 1 to 39 characters, a letter first
    and letters, digits, underscore or dash after it. The split is returned exactly, a namespace
    outside the allowed five is [PermissionDenied], everything else [InvalidName]. *)
Theorem parse_name_spec nm r : parse_and_validate_name nm = r ↔ parses nm r.
Proof.
  split.
  - intros <-. destruct (decide (is_bootstrap nm)) as [Hb|Hb].
    { rewrite parse_bootstrap by done. by constructor. }
    destruct (parse_and_validate_name nm) as [p|e] eqn:E.
    + destruct (parse_not_invalid nm) as (ns&leaf&->&Hs); [done|by rewrite E|].
      rewrite parse_compose in E by done. destruct (namespace_allowed ns) eqn:Ha; [|done].
      injection E as <-. by eapply parses_ok.
    + destruct (decide (e = InvalidName)) as [->|He].
      * apply parses_invalid; [done|]. intros ns leaf ->. apply not_true_is_false. intros Hs.
        rewrite parse_compose in E by done. by destruct (namespace_allowed ns).
      * destruct (parse_not_invalid nm) as (ns&leaf&->&Hs); [done|rewrite E; congruence|].
        rewrite parse_compose in E by done. destruct (namespace_allowed ns) eqn:Ha; [done|].
        injection E as <-. by eapply parses_denied.
  - intros [Hb|ns leaf Hb -> Hs Ha|ns leaf Hb -> Hs Ha|Hb Hno].
    + by apply parse_bootstrap.
    + by rewrite parse_compose, Ha by done.
    + by rewrite parse_compose, Ha by done.
    + destruct (parse_and_validate_name nm) as [p|e] eqn:E.
      * destruct (parse_not_invalid nm) as (ns&leaf&Enm&Hs); [done|by rewrite E|].
        by rewrite (Hno _ _ Enm) in Hs.
      * destruct (decide (e = InvalidName)) as [->|He]; [done|].
        destruct (parse_not_invalid nm) as (ns&leaf&Enm&Hs); [done|rewrite E; congruence|].
        by rewrite (Hno _ _ Enm) in Hs.
Qed.

(** ** Quotas *)

Definition sum_sizes (l : list RegistryEntry) : Z := foldr (λ e s, e_total_size e + s) 0 l.

(** The entry's name is valid and belongs to the namespace. *)
Definition in_namespace (ns : bytes) (e : RegistryEntry) : bool :=
  match parse_and_validate_name (fixed_name_view (e_name e)) with
  | Value p => (negb (pn_bootstrap p) && bool_decide (pn_ns p = ns))%bool
  | Error _ => false
  end.

Definition entry_valid (e : RegistryEntry) : Prop :=
  has_value (parse_and_validate_name (fixed_name_view (e_name e))) = true ∧ 0 ≤ e_total_size e.

Definition namespace_count (p : ParsedName) (l : list RegistryEntry) : Z :=
  if pn_bootstrap p then 0 else Z.of_nat (length (filter (λ e, in_namespace (pn_ns p) e = true) l)).

Lemma namespace_allowed_elem ns : namespace_allowed ns = true → ns ∈ kAllowedNamespaces.
Proof.
  unfold namespace_allowed. rewrite existsb_exists. intros (a&Ha&Hd).
  apply bool_decide_eq_true in Hd as <-. by apply list_elem_of_In.
Qed.

(** No allowed namespace is a prefix of another one or of one followed by a dot, so matching
    the prefix of the name is matching the namespace. *)
Lemma prefix_match_exact ns ns' leaf :
  ns ∈ kAllowedNamespaces → ns' ∈ kAllowedNamespaces →
  take (7 + length ns) (compose_name ns' leaf) = name_prefix ++ ns ↔ ns' = ns.
Proof.
  unfold kAllowedNamespaces. intros Hn Hn'. split.
  - intros E. unfold compose_name in E. change (7 + length ns)%nat with (length name_prefix + length ns)%nat in E.
    rewrite take_app_add in E by done. apply app_inv_head in E. revert E.
    repeat (apply elem_of_cons in Hn as [->|Hn]); [..|by apply not_elem_of_nil in Hn];
    (repeat (apply elem_of_cons in Hn' as [->|Hn']); [..|by apply not_elem_of_nil in Hn']); done.
  - intros ->. unfold compose_name. rewrite app_assoc. by apply take_app_length'.
Qed.

Lemma quota_match p e :
  pn_bootstrap p = false → namespace_allowed (pn_ns p) = true → entry_valid e →
  bool_decide (substr 0 (7 + length (pn_ns p)) (fixed_name_view (e_name e)) =
               name_prefix ++ pn_ns p) = in_namespace (pn_ns p) e.
Proof.
  intros Hb Ha%namespace_allowed_elem [Hv _]. unfold in_namespace, substr. rewrite drop_0.
  destruct (parse_and_validate_name (fixed_name_view (e_name e))) as [q|] eqn:E; [|done].
  destruct (decide (is_bootstrap (fixed_name_view (e_name e)))) as [Hboot|Hboot].
  - rewrite parse_bootstrap in E by done. injection E as <-. cbn [pn_bootstrap negb andb].
    apply bool_decide_eq_false. revert Ha. unfold kAllowedNamespaces. intros Ha.
    destruct Hboot as [-> | ->];
      (repeat (apply elem_of_cons in Ha as [->|Ha]); [..|by apply not_elem_of_nil in Ha]);
      by vm_compute.
  - destruct (parse_not_invalid _ Hboot) as (ns&leaf&En&Hs); [by rewrite E|].
    rewrite En in E |- *. rewrite parse_compose in E by (by rewrite <-?En).
    destruct (namespace_allowed ns) eqn:Hns; [|done]. injection E as <-.
    cbn [pn_bootstrap pn_ns negb andb]. apply namespace_allowed_elem in Hns.
    apply bool_decide_ext. by apply prefix_match_exact.
Qed.

Lemma quota_fold p l a c :
  (pn_bootstrap p = false → namespace_allowed (pn_ns p) = true) → Forall entry_valid l →
  0 ≤ a → a + sum_sizes l < 2 ^ 64 → 0 ≤ c → c + Z.of_nat (length l) < 2 ^ 32 →
  fold_left (quota_entry p) l (a, c) = (a + sum_sizes l, c + namespace_count p l).
Proof.
  intros Hp Hl. revert a c. induction Hl as [|e l He Hl IH]; intros a c Ha Hs Hc Hcl.
  { unfold namespace_count. simpl. destruct (pn_bootstrap p); f_equal; lia. }
  assert (0 ≤ sum_sizes l).
  { clear -Hl. induction Hl as [|e l [_ ?] _ IH]; simpl; lia. }
  pose proof He as [_ He0]. cbn [fold_left quota_entry sum_sizes foldr] in *.
  change (foldr _ 0 l) with (sum_sizes l) in *. simpl length in Hcl.
  rewrite u64_small by lia. unfold namespace_count in *. rewrite filter_cons.
  destruct (pn_bootstrap p) eqn:Hb; cbn [negb andb].
  - rewrite IH by lia. f_equal; lia.
  - rewrite quota_match by auto. destruct (in_namespace (pn_ns p) e).
    + rewrite u32_small, IH by lia. rewrite decide_True by done. simpl length. f_equal; lia.
    + rewrite IH by lia. rewrite decide_False by done. f_equal; lia.
Qed.

Lemma parse_value_allowed nm p :
  parse_and_validate_name nm = Value p → pn_bootstrap p = false → namespace_allowed (pn_ns p) = true.
Proof.
  intros E Hb. destruct (decide (is_bootstrap nm)) as [Hboot|Hboot].
  { rewrite parse_bootstrap in E by done. by injection E as <-. }
  destruct (parse_not_invalid nm) as (ns&leaf&->&Hs); [done|by rewrite E|].
  rewrite parse_compose in E by done. destruct (namespace_allowed ns) eqn:Ha; [|done].
  by injection E as <-.
Qed.

Lemma validate_create_security_eq options existing :
  0 ≤ co_total_size options < 2 ^ 64 → 0 ≤ co_meta_size options < 2 ^ 64 - SHMFX_HEADER_SIZE →
  Forall entry_valid existing → co_total_size options + sum_sizes existing < 2 ^ 64 →
  Z.of_nat (length existing) < 2 ^ 32 →
  validate_create_security options existing =
  match parse_and_validate_name (co_name options) with
  | Error e => Error e
  | Value p =>
      if bool_decide (SHMFX_HEADER_SIZE + co_meta_size options ≤ co_total_size options ≤ MAX_SEGMENT_SIZE ∧
                      co_total_size options + sum_sizes existing ≤ TOTAL_QUOTA_BYTES ∧
                      namespace_count p existing < kMaxNamespaceSegments)
      then Value tt else Error QuotaExceeded
  end.
Proof.
  intros Ht Hm Hl Hs Hn. unfold validate_create_security.
  destruct (parse_and_validate_name (co_name options)) as [p|e] eqn:E; [|done].
  unfold SHMFX_HEADER_SIZE in *. rewrite u64_small by lia.
  rewrite quota_fold; [|by eapply parse_value_allowed|done|lia|lia|lia|lia]. cbn [fst snd].
  rewrite Z.add_0_l.
  destruct (Z.ltb_spec (co_total_size options) (256 + co_meta_size options));
    [by rewrite bool_decide_false by lia|].
  destruct (Z.ltb_spec MAX_SEGMENT_SIZE (co_total_size options));
    [by rewrite bool_decide_false by lia|]. cbn [orb].
  destruct (Z.ltb_spec TOTAL_QUOTA_BYTES (co_total_size options + sum_sizes existing));
    [by rewrite bool_decide_false by lia|].
  destruct (Z.leb_spec kMaxNamespaceSegments (namespace_count p existing));
    [by rewrite bool_decide_false by lia|by rewrite bool_decide_true by lia].
Qed.

(** A valid name fits the name buffer and is read back from it. *)
Lemma tail_chars_nonzero l :
  is_lower (front l) = true → forallb is_name_tail_char (tail l) = true → Forall (λ x, x ≠ 0) l.
Proof.
  destruct l as [|c l]; [constructor|]. unfold front. simpl. intros Hc Hl. constructor.
  - by intros ->.
  - apply Forall_forall. intros x Hx%list_elem_of_In. rewrite forallb_forall in Hl.
    intros ->. by specialize (Hl 0 Hx).
Qed.

Lemma parse_value_name nm :
  has_value (parse_and_validate_name nm) = true → fixed_name_view (copy_name nm) = nm ∧ nm ≠ [].
Proof.
  intros Hv. destruct (decide (is_bootstrap nm)) as [[-> | ->]|Hb]; [by vm_compute..|].
  destruct (parse_not_invalid nm Hb) as (ns&leaf&->&(Hn&Hl&Hfn&Hfl&Htn&Htl)%name_shape_spec).
  { intros E. by rewrite E in Hv. }
  split; [|done]. unfold compose_name. apply fixed_name_copy_name.
  - apply Forall_app. split; [by vm_compute; repeat constructor|]. apply Forall_app.
    split; [by apply tail_chars_nonzero|]. constructor; [done|by apply tail_chars_nonzero].
  - rewrite !length_app. simpl. lia.
Qed.

(** What a granted request respects, whatever the metadata size. *)
Lemma validate_grants options existing :
  Forall entry_valid existing → sum_sizes existing ≤ TOTAL_QUOTA_BYTES → 0 ≤ co_total_size options →
  Z.of_nat (length existing) < 2 ^ 32 →
  validate_create_security options existing = Value tt →
  co_total_size options ≤ MAX_SEGMENT_SIZE ∧
  co_total_size options + sum_sizes existing ≤ TOTAL_QUOTA_BYTES ∧
  u64 (SHMFX_HEADER_SIZE + co_meta_size options) ≤ co_total_size options.
Proof.
  intros Hl Hs H0 Hn. unfold validate_create_security.
  destruct (parse_and_validate_name (co_name options)) as [p|e] eqn:E; [|done].
  destruct (_ || _)%bool eqn:Eb; [done|]. bool_prop. unfold MAX_SEGMENT_SIZE, TOTAL_QUOTA_BYTES in *.
  rewrite quota_fold; [|by eapply parse_value_allowed|done|lia|lia|lia|lia]. cbn [fst snd].
  destruct (_ || _)%bool eqn:Ec; [done|]. bool_prop. lia.
Qed.

(** For a registry of valid entries, [validate_create_security] grants a create request
    exactly when the name is valid and allowed, the size covers the header and the metadata
    and is at most 1 GiB, all segments together stay within 4 GiB, and the namespace has fewer
    than 1024 segments; the namespaces of the entries are recognised by the name's prefix. *)
Theorem create_security_spec options existing :
  0 ≤ co_total_size options < 2 ^ 64 → 0 ≤ co_meta_size options < 2 ^ 64 - SHMFX_HEADER_SIZE →
  Forall entry_valid existing → co_total_size options + sum_sizes existing < 2 ^ 64 →
  Z.of_nat (length existing) < 2 ^ 32 →
  validate_create_security options existing =
  match parse_and_validate_name (co_name options) with
  | Error e => Error e
  | Value p =>
      if bool_decide (SHMFX_HEADER_SIZE + co_meta_size options ≤ co_total_size options ≤ MAX_SEGMENT_SIZE ∧
                      co_total_size options + sum_sizes existing ≤ TOTAL_QUOTA_BYTES ∧
                      namespace_count p existing < kMaxNamespaceSegments)
      then Value tt else Error QuotaExceeded
  end.
Proof. apply validate_create_security_eq. Qed.

Definition demo_options (nm : bytes) : CreateOptions := mkCreateOptions nm Raw 4096 64 384 0.

Lemma create_security_spec_witness :
  validate_create_security (demo_options (str "/shmfx.app.demo"))
    [mkRegistryEntry 0 (copy_name (str "/shmfx.app.other")) 8192 1 1 1 0 0 0] = Value tt.
Proof.
  rewrite create_security_spec; [by vm_compute|by vm_compute|by vm_compute| |by vm_compute|by vm_compute].
  constructor; [by vm_compute|constructor].
Defined.

(** The size check adds the metadata size in 64 bits: a metadata size of 2^64 - 256
    wraps to nothing and a request for an empty segment is granted. *)
Theorem create_security_meta_wraps :
  validate_create_security
    (mkCreateOptions (str "/shmfx.app.demo") Raw 0 (2 ^ 64 - SHMFX_HEADER_SIZE) 384 0) [] = Value tt.
Proof. by vm_compute. Qed.

(** ** Keys and signatures *)

Lemma parse_hex_pairs_spec hex key :
  parse_hex_pairs hex = Some key → length key = (length hex / 2)%nat ∧ is_bytes key.
Proof.
  assert (H : ∀ n hex key, (length hex ≤ n)%nat → parse_hex_pairs hex = Some key →
    length key = (length hex / 2)%nat ∧ is_bytes key).
  { clear hex key. induction n as [|n IH]; intros [|a [|b hex]] key Hl; simpl in Hl; try lia;
      cbn [parse_hex_pairs]; try (intros [= <-]; split; [done|constructor]).
    destruct (_ || _)%bool; [done|].
    destruct (parse_hex_pairs hex) as [rest|] eqn:E; [|done]. intros [= <-].
    destruct (IH hex rest) as [H1 H2]; [lia|done|]. split.
    - cbn [length]. rewrite H1. change (S (S (length hex))) with (2 + length hex)%nat.
      rewrite (Nat.div_add_l 1 2) by done. lia.
    - constructor; [apply u8_range|done]. }
  eauto.
Qed.

Lemma load_hmac_key_spec e key : load_hmac_key e = Some key → length key = 32%nat ∧ is_bytes key.
Proof.
  assert (H : ∀ hex, parse_hex_key hex = Some key → length key = 32%nat ∧ is_bytes key).
  { intros hex. unfold parse_hex_key. destruct (Nat.eqb_spec (length hex) (Z.to_nat (SHMFX_HMAC_BYTES * 2))) as [El|];
      [|done]. cbn [negb]. intros [Hl Hb]%parse_hex_pairs_spec. split; [by rewrite Hl, El|done]. }
  unfold load_hmac_key. destruct (env_key e); [apply H|]. destruct (file_key e); [apply H|done].
Qed.

(** Printing a key in lower-case hexadecimal. *)
Definition hex_char (v : Z) : Z := if v <? 10 then 48 + v else 87 + v.

Definition print_hex_key (key : bytes) : bytes := key ≫= λ b, [hex_char (b / 16); hex_char (b mod 16)].

Lemma hex_value_char v : 0 ≤ v < 16 → hex_value (hex_char v) = v.
Proof.
  intros Hv. unfold hex_char, hex_value. destruct (Z.ltb_spec v 10).
  - rewrite (proj2 (Z.leb_le 48 _)), (proj2 (Z.leb_le _ 57)) by lia. cbn [andb]. lia.
  - rewrite (proj2 (Z.leb_gt _ 57)), andb_false_r by lia.
    rewrite (proj2 (Z.leb_le 97 _)), (proj2 (Z.leb_le _ 102)) by lia. cbn [andb]. lia.
Qed.

Lemma hex_pair_value b : is_byte b → u8 (Z.lor (Z.shiftl (b / 16) 4) (b mod 16)) = b.
Proof.
  intros Hb. apply Z.eqb_eq.
  by apply (byte_check (λ b, u8 (Z.lor (Z.shiftl (b / 16) 4) (b mod 16)) =? b)).
Qed.

(** Every 32-byte key survives printing in hexadecimal and [parse_hex_key], so any key
    can be configured. *)
Theorem hex_key_roundtrip key :
  length key = 32%nat → is_bytes key → parse_hex_key (print_hex_key key) = Some key.
Proof.
  intros Hl Hb. unfold parse_hex_key, print_hex_key.
  assert (El : length (key ≫= λ b, [hex_char (b / 16); hex_char (b mod 16)]) = (2 * length key)%nat).
  { clear. induction key as [|b key IH]; [done|]. cbn. cbn in IH. lia. }
  rewrite El, Hl. change (negb _) with false. cbv iota. clear El Hl.
  induction Hb as [|b key Hb _ IH]; [done|]. cbn [mbind list_bind app parse_hex_pairs].
  pose proof (hex_pair_value b Hb) as E. unfold is_byte in Hb. rewrite !hex_value_char by zlia.
  destruct (Z.ltb_spec (b / 16) 0); [zlia|]. destruct (Z.ltb_spec (b mod 16) 0); [zlia|].
  cbn [orb]. cbn [mbind list_bind] in IH. rewrite IH. cbn [mbind option_bind]. by rewrite E.
Qed.

Lemma hex_key_roundtrip_witness :
  parse_hex_key (print_hex_key (replicate 32 0xa7)) = Some (replicate 32 0xa7).
Proof. apply hex_key_roundtrip; [done|solve_bytes]. Defined.

Lemma lor_zero a b : 0 ≤ a → 0 ≤ b → Z.lor a b = 0 → a = 0 ∧ b = 0.
Proof. intros _ _ H. by apply Z.lor_eq_0_iff. Qed.

Lemma digest_diff_zero diff l r :
  is_byte diff → is_bytes l → is_bytes r → length l = length r →
  digest_diff diff l r = 0 ↔ diff = 0 ∧ l = r.
Proof.
  intros Hd Hl. revert diff r Hd. induction Hl as [|x l Hx _ IH]; intros diff r Hd Hr Hlen;
    destruct r as [|y r]; try done; cbn [digest_diff].
  { tauto. }
  inversion Hr as [|? ? Hy Hr']; subst. unfold is_byte in *.
  assert (Hlx : 0 ≤ Z.lxor x y < 2 ^ 8) by by apply lxor_range.
  assert (Hlo : 0 ≤ Z.lor diff (Z.lxor x y) < 2 ^ 8) by by apply lor_range.
  rewrite u8_small by done. rewrite IH; [|done|done|simpl in Hlen; lia].
  rewrite Z.lor_eq_0_iff, Z.lxor_eq_0_iff. split.
  - by intros [[-> ->] ->].
  - intros [-> [= -> ->]]. done.
Qed.

Lemma digest_equal_spec l r :
  is_bytes l → is_bytes r → length l = length r → digest_equal l r = bool_decide (l = r).
Proof.
  intros Hl Hr Hlen. unfold digest_equal. pose proof (digest_diff_zero 0 l r) as H.
  destruct (decide (l = r)) as [E|E].
  - rewrite bool_decide_true by done. apply Z.eqb_eq. by apply H.
  - rewrite bool_decide_false by done. apply Z.eqb_neq. intros E0. apply E. by apply H.
Qed.

Lemma hmac_final_length key data : length (hmac_sha256 key data) = 32%nat.
Proof. apply length_final. Qed.

Lemma hmac_final_bytes key data : is_bytes (hmac_sha256 key data).
Proof. apply final_is_bytes. Qed.

Lemma digest_equal_refl d : is_bytes d → digest_equal d d = true.
Proof. intros. rewrite digest_equal_spec by done. by apply bool_decide_true. Qed.

Lemma has_hmac_zero hdr : hmac hdr = zero_hmac → has_hmac_bytes hdr = false.
Proof. intros E. unfold has_hmac_bytes. by rewrite E. Qed.

(** The HMAC field is a buffer of 32 bytes. *)
Definition hmac_typed (hdr : ShmHeader) : Prop := length (hmac hdr) = 32%nat ∧ is_bytes (hmac hdr).

Lemma has_hmac_spec hdr :
  hmac_typed hdr → has_hmac_bytes hdr = negb (bool_decide (hmac hdr = zero_hmac)).
Proof.
  intros [Hl _]. unfold has_hmac_bytes. destruct (decide (hmac hdr = zero_hmac)) as [E|E].
  - rewrite bool_decide_true, E by done. done.
  - rewrite bool_decide_false by done. apply existsb_exists.
    destruct (decide (Forall (λ b, b = 0) (hmac hdr))) as [Hz|Hz].
    + destruct E. unfold zero_hmac. change (Z.to_nat SHMFX_HMAC_BYTES) with 32%nat. rewrite <-Hl.
      clear Hl. induction Hz as [|b l -> _ IH]; [done|]. simpl. by f_equal.
    + apply not_Forall_Exists in Hz; [|apply _]. apply Exists_exists in Hz as (b&Hb&Hne).
      exists b. split; [by apply list_elem_of_In|]. apply negb_true_iff. by apply Z.eqb_neq.
Qed.

Lemma verify_cases e hdr :
  hmac_typed hdr →
  verify_header_hmac e hdr =
  if (negb (hmac_enabled hdr) && bool_decide (hmac hdr = zero_hmac))%bool then Value tt
  else match load_hmac_key e with
       | None => Error PermissionDenied
       | Some key =>
           if bool_decide (hmac hdr = Spec.hmac key (immutable_bytes hdr))
           then Value tt else Error CorruptedHeader
       end.
Proof.
  intros Ht. unfold verify_header_hmac. rewrite has_hmac_spec, negb_involutive by done.
  destruct (negb (hmac_enabled hdr) && _)%bool; [done|].
  destruct (load_hmac_key e) as [key|] eqn:Ek; [|done].
  apply load_hmac_key_spec in Ek as [Hkl Hkb]. destruct Ht as [Hl Hb].
  rewrite digest_equal_spec;
    [|done|apply final_is_bytes|by rewrite hmac_final_length].
  rewrite hmac_sha256_spec by done. by destruct (bool_decide _).
Qed.

(** ** Theorems on signatures *)

#[local] Opaque hmac_sha256 Spec.hmac.

(** C30: [verify_header_hmac] accepts a header exactly when signing is off and the HMAC field is
    zero, or the field is the RFC 2104 HMAC of the 128 immutable bytes under the configured key;
    without a key it reports [PermissionDenied], on a mismatch [CorruptedHeader]. *)
Theorem verify_header_spec e hdr :
  hmac_typed hdr →
  verify_header_hmac e hdr =
  if (negb (hmac_enabled hdr) && bool_decide (hmac hdr = zero_hmac))%bool then Value tt
  else match load_hmac_key e with
       | None => Error PermissionDenied
       | Some key =>
           if bool_decide (hmac hdr = Spec.hmac key (immutable_bytes hdr))
           then Value tt else Error CorruptedHeader
       end.
Proof. apply verify_cases. Qed.

Lemma sign_verifies e hdr hdr' :
  sign_header_if_enabled e hdr = (Value tt, hdr') →
  verify_header_hmac e hdr' = Value tt ∧ hdr' = set_hmac (hmac hdr') hdr.
Proof.
  unfold sign_header_if_enabled. destruct (hmac_enabled hdr) eqn:He; cbn [negb].
  - destruct (load_hmac_key e) as [key|] eqn:Ek; [|done]. intros [= <-]. split; [|done].
    rewrite verify_cases by (split; [apply hmac_final_length|apply hmac_final_bytes]).
    change (hmac_enabled _) with (hmac_enabled hdr). rewrite He, Ek. cbn [negb andb].
    apply load_hmac_key_spec in Ek as [Hkl Hkb]. rewrite bool_decide_true; [done|].
    cbn [hmac set_hmac]. by rewrite hmac_sha256_spec.
  - intros [= <-]. split; [|done]. unfold verify_header_hmac.
    change (hmac_enabled _) with (hmac_enabled hdr). by rewrite He.
Qed.

(** A header that [sign_header_if_enabled] has signed, or left unsigned because signing is
    off, verifies in the same environment, and only its HMAC field has changed. *)
Theorem sign_then_verify e hdr hdr' :
  sign_header_if_enabled e hdr = (Value tt, hdr') →
  verify_header_hmac e hdr' = Value tt ∧ hdr' = set_hmac (hmac hdr') hdr.
Proof. apply sign_verifies. Qed.

(** A signature covers every immutable field: two signed headers that verify with the same
    HMAC agree on all fields of the immutable block, or exhibit two different messages with the
    same HMAC under the key. *)
Theorem signature_covers_header e h1 h2 :
  header_typed h1 → header_typed h2 → hmac_typed h1 → hmac_typed h2 →
  hmac_enabled h1 = true → hmac_enabled h2 = true → hmac h1 = hmac h2 →
  verify_header_hmac e h1 = Value tt → verify_header_hmac e h2 = Value tt →
  immutable_fields h1 = immutable_fields h2 ∨
  ∃ key m1 m2, load_hmac_key e = Some key ∧ m1 ≠ m2 ∧ Spec.hmac key m1 = Spec.hmac key m2.
Proof.
  intros T1 T2 H1 H2 E1 E2 Eh V1 V2. rewrite verify_cases in V1, V2 by done.
  rewrite E1 in V1. rewrite E2 in V2. cbn [negb andb] in V1, V2.
  destruct (load_hmac_key e) as [key|]; [|done]. case_bool_decide as C1; [|done].
  case_bool_decide as C2; [|done].
  destruct (decide (immutable_bytes h1 = immutable_bytes h2)) as [Eb|Eb].
  - left. by apply immutable_bytes_inj.
  - right. exists key, (immutable_bytes h1), (immutable_bytes h2). split; [reflexivity|].
    split; [exact Eb|]. rewrite <-C1, <-C2. exact Eh.
Qed.

#[local] Transparent hmac_sha256 Spec.hmac.

(** A typed header to run the theorems on. *)
Definition demo_header (fl : Z) : ShmHeader :=
  mkShmHeader SHMFX_MAGIC 1 0 1 fl 4096 3776 256 64 320 42 7 9 (copy_name (str "/shmfx.app.demo"))
    zero_hmac 42 9 1 1 0 0.

Definition demo_env : KeyEnv := mkKeyEnv (Some (print_hex_key (replicate 32 0xa7))) None.

Lemma verify_header_spec_witness : verify_header_hmac demo_env (demo_header 0) = Value tt.
Proof. rewrite verify_header_spec; [by vm_compute|]. split; [done|]. solve_bytes. Defined.

Lemma sign_then_verify_witness :
  ∃ hdr', sign_header_if_enabled demo_env (demo_header 1) = (Value tt, hdr') ∧
          verify_header_hmac demo_env hdr' = Value tt.
Proof.
  destruct (sign_header_if_enabled demo_env (demo_header 1)) as [r hdr'] eqn:E.
  assert (Er : r = Value tt).
  { change r with (fst (r, hdr')). rewrite <-E. by vm_compute. }
  subst r. exists hdr'. split; [reflexivity|]. exact (proj1 (sign_then_verify _ _ _ E)).
Defined.

Definition demo_signed : ShmHeader := (sign_header_if_enabled demo_env (demo_header 1)).2.

Lemma demo_signed_typed : header_typed demo_signed ∧ hmac_typed demo_signed.
Proof.
  split; [split; by vm_compute|]. split; [by vm_compute|].
  assert (H : forallb (λ b, bool_decide (0 ≤ b < 2 ^ 8)) (hmac demo_signed) = true) by by vm_compute.
  apply Forall_forall. intros b Hb%list_elem_of_In. rewrite forallb_forall in H.
  by eapply bool_decide_eq_true_1, H.
Qed.

Lemma demo_signed_verifies :
  hmac_enabled demo_signed = true ∧ verify_header_hmac demo_env demo_signed = Value tt.
Proof. split; vm_compute; reflexivity. Qed.

Lemma signature_covers_header_witness :
  immutable_fields demo_signed = immutable_fields demo_signed ∨
  ∃ key m1 m2, load_hmac_key demo_env = Some key ∧ m1 ≠ m2 ∧ Spec.hmac key m1 = Spec.hmac key m2.
Proof.
  destruct demo_signed_typed as [T H]. destruct demo_signed_verifies as [E V].
  exact (signature_covers_header demo_env demo_signed demo_signed T T H H E E eq_refl V V).
Defined.
