(* ===== verification/Lifecycle.v ===== *)
(** * Lifecycle: [shm_lifecycle.h], [shm_lifecycle.cpp]

    The robust-mutex guard, the owner-liveness test with its reader of /proc/<pid>/stat, the
    process-wide heartbeat worker and the scan of /proc/*/maps. What the kernel and the pthread
    library do is an argument: [Os] for processes, clocks and /proc, [RobustMutex] for the mutex,
    whose documented behaviour is the class [RobustMutexLaws]. *)

From S2P Require Import Prelude Types Sync Security.

(** ** Robust mutexes *)

Inductive lock_rc := RcOk | RcOwnerDead | RcFailed.

(** [pthread_mutex_lock], [pthread_mutex_consistent] (true when it returns 0) and
    [pthread_mutex_unlock], called by one thread that the lock does not block. *)
Class RobustMutex (Mx : Type) := {
  mx_lock : Mx → lock_rc * Mx;
  mx_consistent : Mx → bool * Mx;
  mx_unlock : Mx → Mx;
}.

(** The states the POSIX documentation distinguishes, for the calling thread. *)
Inductive mx_status := MxFree | MxHeld | MxAbandoned | MxHeldInconsistent | MxNotRecoverable.

#[export] Instance mx_status_eq_dec : EqDecision mx_status.
Proof. solve_decision. Defined.

(** What the documentation promises. *)
Class RobustMutexLaws (Mx : Type) `{!RobustMutex Mx} := {
  mx_state : Mx → mx_status;
  law_lock_free m : mx_state m = MxFree → (mx_lock m).1 = RcOk ∧ mx_state (mx_lock m).2 = MxHeld;
  law_lock_abandoned m : mx_state m = MxAbandoned →
    (mx_lock m).1 = RcOwnerDead ∧ mx_state (mx_lock m).2 = MxHeldInconsistent;
  law_lock_lost m : mx_state m = MxNotRecoverable →
    (mx_lock m).1 = RcFailed ∧ mx_state (mx_lock m).2 = MxNotRecoverable;
  law_consistent m : mx_state m = MxHeldInconsistent →
    (mx_consistent m).1 = true ∧ mx_state (mx_consistent m).2 = MxHeld;
  law_unlock m : mx_state m = MxHeld → mx_state (mx_unlock m) = MxFree;
  law_unlock_inconsistent m :
    mx_state m = MxHeldInconsistent → mx_state (mx_unlock m) = MxNotRecoverable;
}.

(** The documented machine itself, as an instance. *)
#[export] Instance RobustMutex_status : RobustMutex mx_status := {
  mx_lock m :=
    match m with
    | MxFree => (RcOk, MxHeld)
    | MxAbandoned => (RcOwnerDead, MxHeldInconsistent)
    | _ => (RcFailed, m)
    end;
  mx_consistent m := match m with MxHeldInconsistent => (true, MxHeld) | _ => (false, m) end;
  mx_unlock m :=
    match m with MxHeld => MxFree | MxHeldInconsistent => MxNotRecoverable | _ => m end;
}.

#[export] Instance RobustMutexLaws_status : RobustMutexLaws mx_status.
Proof. refine {| mx_state := id |}; by intros [] ?. Defined.

(** ** [ShmMutexGuard] *)

Module ShmMutexGuard.

(** [mutex_ != nullptr], [locked_], [prior_owner_dead_], [error_]; the mutex itself is passed. *)
Record t := mk { has_mutex : bool; locked_ : bool; prior_owner_dead_ : bool; error_ : ErrorCode }.

Definition empty : t := mk false false false Ok.

Section guard.
Context {Mx : Type} `{!RobustMutex Mx}.

(** The constructor. *)
Definition make (m : Mx) : t * Mx :=
  match mx_lock m with
  | (RcOk, m') => (mk true true false Ok, m')
  | (RcOwnerDead, m') => (mk true true true PriorOwnerDead, m')
  | (RcFailed, m') => (mk false false false PriorOwnerDead, m')
  end.

Definition mark_consistent (g : t) (m : Mx) : Result unit * t * Mx :=
  if (negb (locked_ g) || negb (has_mutex g))%bool then (Error (error_ g), g, m)
  else if negb (prior_owner_dead_ g) then (Value tt, g, m)
  else match mx_consistent m with
       | (false, m') => (Error PriorOwnerDead, g, m')
       | (true, m') => (Value tt, mk (has_mutex g) (locked_ g) false Ok, m')
       end.

(** [reset], which is also the destructor. *)
Definition reset (g : t) (m : Mx) : t * Mx :=
  (empty, if (locked_ g && has_mutex g)%bool then mx_unlock m else m).

(** The move constructor: the new guard and what is left of the source. *)
Definition move (other : t) : t * t := (other, empty).

(** Move assignment, for a target on the mutex [m] and a source on another one. *)
Definition move_assign (this other : t) (m : Mx) : t * t * Mx :=
  let '(_, m') := reset this m in (other, empty, m').

End guard.
End ShmMutexGuard.

(** ** Processes, clocks and /proc *)

Record Os := mkOs {
  (** [kill(pid, 0) == -1 && errno == ESRCH] *)
  kill_esrch : Z → bool;
  (** the contents of /proc/<pid>/stat, when it can be opened *)
  proc_stat : Z → option bytes;
  (** [clock_gettime(CLOCK_MONOTONIC)]: seconds and nanoseconds, when it succeeds *)
  clock : option (Z * Z);
  (** the entries of /proc, when it can be opened *)
  proc_dir : option (list bytes);
  (** the contents of /proc/<entry>/maps, empty when it cannot be opened *)
  proc_maps : bytes → bytes;
}.

Definition monotonic_ns (os : Os) : Z :=
  match clock os with
  | None => 0
  | Some (sec, nsec) => u64 (u64 (u64 (u64 (u64 sec * 1000) * 1000) * 1000) + u64 nsec)
  end.

(** *** /proc/<pid>/stat *)

(** [std::getline]: up to the first newline. *)
Fixpoint getline (l : bytes) : bytes :=
  match l with [] => [] | c :: l' => if c =? 10 then [] else c :: getline l' end.

(** [line.rfind(c)] *)
Definition rfind (c : Z) (l : bytes) : option nat :=
  (λ k, (length l - 1 - k)%nat) <$> find_from c (reverse l).

(** Skip the spaces a position is on. *)
Fixpoint skip_blanks (l : bytes) : bytes :=
  match l with c :: l' => if c =? 32 then skip_blanks l' else l | [] => [] end.

(** The field loop: [n] more fields to skip; the tail from [start] on. *)
Fixpoint skip_fields (n : nat) (l : bytes) : option bytes :=
  match n with
  | O => Some l
  | S n' => k ← find_from 32 l; skip_fields n' (skip_blanks (drop k l))
  end.

Definition is_digit (c : Z) : bool := ((48 <=? c) && (c <=? 57))%bool.

Fixpoint take_digits (acc : Z) (seen : bool) (l : bytes) : option Z :=
  match l with
  | c :: l' =>
      if is_digit c then take_digits (10 * acc + (c - 48)) true l'
      else if seen then Some acc else None
  | [] => if seen then Some acc else None
  end.

(** [std::stoull] in base 10: leading white space, an optional sign, digits; [None] when it
    throws. *)
Definition stoull (l : bytes) : option Z :=
  let l1 := skip_space l in
  let '(neg, l2) :=
    match l1 with
    | c :: l' => if c =? 45 then (true, l') else if c =? 43 then (false, l') else (false, l1)
    | [] => (false, [])
    end in
  v ← take_digits 0 false l2;
  if 2 ^ 64 <=? v then None else Some (if neg : bool then u64 (- v) else v).

Definition parse_stat (contents : bytes) : option Z :=
  let line := getline contents in
  close_paren ← rfind 41 line;
  if (length line <=? close_paren + 2)%nat then None
  else l ← skip_fields 19 (drop (close_paren + 2) line); stoull l.

Definition read_proc_start_time (os : Os) (pid : Z) : option Z := contents ← proc_stat os pid; parse_stat contents.

(** *** Owner liveness *)

(** [static_cast<pid_t>] of a [uint32_t] *)
Definition s32 (z : Z) : Z := if z <? 2 ^ 31 then z else z - 2 ^ 32.

Definition owner_is_dead (os : Os) (hdr : ShmHeader) (now : Z) : bool :=
  if owner_pid hdr =? 0 then true
  else if kill_esrch os (s32 (owner_pid hdr)) then true
  else if (negb (owner_start_time hdr =? 0) &&
           match read_proc_start_time os (owner_pid hdr) with
           | Some cur => negb (cur =? owner_start_time hdr)
           | None => false
           end)%bool then true
  else if ((heartbeat_last_ns hdr =? 0) || (now <? heartbeat_last_ns hdr))%bool then false
  else HEARTBEAT_DEAD_NS <? now - heartbeat_last_ns hdr.

(** *** The mapping scan *)

Definition shm_maps_token (nm : bytes) : bytes :=
  str "/dev/shm" ++ (match nm with c :: _ => if negb (c =? 47) then [47] else [] | [] => [] end) ++ nm.

(** [*name != '\0' and all digits]; a C string holds no NUL. *)
Definition is_pid_dir_name (nm : bytes) : bool :=
  match nm with [] => false | _ => forallb is_digit nm end.

Fixpoint starts_with (token l : bytes) : bool :=
  match token, l with
  | [], _ => true
  | t :: token', c :: l' => (t =? c) && starts_with token' l'
  | _ :: _, [] => false
  end.

(** [line.find(token) != npos] *)
Fixpoint contains (token l : bytes) : bool :=
  (starts_with token l || match l with [] => false | _ :: l' => contains token l' end)%bool.

(** The lines [std::getline] reads: split at newlines, no empty line after the last one. *)
Fixpoint lines_of (cur : bytes) (l : bytes) : list bytes :=
  match l with
  | [] => match cur with [] => [] | _ => [cur] end
  | c :: l' => if c =? 10 then cur :: lines_of [] l' else lines_of (cur ++ [c]) l'
  end.

Fixpoint scan_lines (token : bytes) (ls : list bytes) : bool :=
  match ls with [] => false | l :: ls' => if contains token l then true else scan_lines token ls' end.

Fixpoint scan_dir (os : Os) (token : bytes) (entries : list bytes) : bool :=
  match entries with
  | [] => false
  | ent :: entries' =>
      if negb (is_pid_dir_name ent) then scan_dir os token entries'
      else if scan_lines token (lines_of [] (proc_maps os ent)) then true
      else scan_dir os token entries'
  end.

Definition any_process_maps_segment (os : Os) (nm : bytes) : bool :=
  match proc_dir os with None => true | Some entries => scan_dir os (shm_maps_token nm) entries end.

(** ** The heartbeat worker

    The process-wide state under [g_heartbeat_mutex], the workers that have not returned yet and
    the calls of [unregister_heartbeat_owner] that wait in [join]. Every critical section is one
    step; a header is its address. *)

Record Heartbeat := mkHeartbeat {
  hb_headers : list Z;
  hb_thread : option nat;      (* [g_heartbeat_thread], when joinable *)
  hb_stop : bool;
  hb_running : list nat;       (* workers that have not returned *)
  hb_joining : list nat;       (* workers some call waits for *)
  hb_next : nat;               (* the next thread id *)
}.

Definition hb_init : Heartbeat := mkHeartbeat [] None false [] [] 0.

(** The part of [register_heartbeat_owner] under the mutex. *)
Definition register_owner (p : Z) (s : Heartbeat) : Heartbeat :=
  let hs := if bool_decide (p ∈ hb_headers s) then hb_headers s else hb_headers s ++ [p] in
  match hb_thread s with
  | Some _ => mkHeartbeat hs (hb_thread s) (hb_stop s) (hb_running s) (hb_joining s) (hb_next s)
  | None =>
      mkHeartbeat hs (Some (hb_next s)) false (hb_running s ++ [hb_next s]) (hb_joining s)
        (S (hb_next s))
  end.

(** The part of [unregister_heartbeat_owner] under the mutex; the join is a wait of its own. *)
Definition unregister_owner (p : Z) (s : Heartbeat) : Heartbeat :=
  let hs := filter (λ q, q ≠ p) (hb_headers s) in
  match hs, hb_thread s with
  | [], Some t =>
      mkHeartbeat [] None true (hb_running s) (hb_joining s ++ [t]) (hb_next s)
  | _, _ => mkHeartbeat hs (hb_thread s) (hb_stop s) (hb_running s) (hb_joining s) (hb_next s)
  end.

(** One iteration of [heartbeat_worker] of thread [t]: return when told to stop, else tick. *)
Definition worker_iteration (t : nat) (s : Heartbeat) : Heartbeat :=
  if hb_stop s
  then mkHeartbeat (hb_headers s) (hb_thread s) (hb_stop s) (filter (λ u, u ≠ t) (hb_running s))
         (hb_joining s) (hb_next s)
  else s.

(** A join returns once its worker has. *)
Definition join_done (t : nat) (s : Heartbeat) : Heartbeat :=
  mkHeartbeat (hb_headers s) (hb_thread s) (hb_stop s) (hb_running s)
    (filter (λ u, u ≠ t) (hb_joining s)) (hb_next s).

(** The whole of [unregister_heartbeat_owner] with nothing in between: the worker sees the stop
    flag and returns, and so does the join. *)
Definition unregister_heartbeat_owner (p : Z) (s : Heartbeat) : Heartbeat :=
  let s' := unregister_owner p s in
  match hb_thread s, hb_thread s' with
  | Some t, None => join_done t (worker_iteration t s')
  | _, _ => s'
  end.

Inductive hb_step : Heartbeat → Heartbeat → Prop :=
  | hb_register p s : hb_step s (register_owner p s)
  | hb_unregister p s : hb_step s (unregister_owner p s)
  | hb_work t s : t ∈ hb_running s → hb_step s (worker_iteration t s)
  | hb_join t s : t ∈ hb_joining s → t ∉ hb_running s → hb_step s (join_done t s).

(** [heartbeat_tick_locked] on the headers, which live in shared memory at their addresses. *)
Definition set_heartbeat (now : Z) (hdr : ShmHeader) : ShmHeader :=
  mkShmHeader (magic hdr) (version_major hdr) (version_minor hdr) (segment_type hdr) (flags hdr)
    (total_size hdr) (payload_size hdr) (meta_offset hdr) (meta_size hdr) (payload_offset hdr)
    (creator_pid hdr) (created_at_ns hdr) (creator_start_time hdr) (name hdr) (hmac hdr)
    (owner_pid hdr) (owner_start_time hdr) (ref_count hdr) (state hdr)
    (atomic_fetch_add_u64 (heartbeat_counter hdr) 1).2 (atomic_store_u64 (heartbeat_last_ns hdr) now).

Fixpoint heartbeat_tick_locked (now : Z) (headers : list Z) (mem : gmap Z ShmHeader)
    : gmap Z ShmHeader :=
  match headers with
  | [] => mem
  | p :: ps => heartbeat_tick_locked now ps (alter (set_heartbeat now) p mem)
  end.

(** ** Lemmas on /proc parsing *)

(** Fields joined by single spaces. *)
Fixpoint join_fields (fs : list bytes) : bytes :=
  match fs with
  | [] => []
  | [f] => f
  | f :: fs' => f ++ 32 :: join_fields fs'
  end.

(** A field of /proc/<pid>/stat after the command name. *)
Definition plain_field (f : bytes) : Prop := f ≠ [] ∧ Forall (λ c, c ≠ 32 ∧ c ≠ 41 ∧ c ≠ 10) f.

(** The line the kernel prints: pid, command in parentheses, fields 3 and up. *)
Definition stat_line (pid comm : bytes) (fields : list bytes) : bytes :=
  pid ++ str " (" ++ comm ++ str ") " ++ join_fields fields.

Definition dec_value (ds : bytes) : Z := fold_left (λ a c, 10 * a + (c - 48)) ds 0.

Lemma getline_app l rest : Forall (λ c, c ≠ 10) l → getline (l ++ 10 :: rest) = l.
Proof.
  induction 1 as [|c l Hc _ IH]; simpl; [done|]. destruct (Z.eqb_spec c 10); [done|]. by rewrite IH.
Qed.

Lemma rfind_last c a b : Forall (λ x, x ≠ c) b → rfind c (a ++ c :: b) = Some (length a).
Proof.
  intros Hb. unfold rfind. rewrite reverse_app, reverse_cons, <-app_assoc. simpl.
  rewrite find_from_first.
  - simpl. f_equal. rewrite length_app, length_reverse. simpl. lia.
  - by apply Forall_reverse.
Qed.

Lemma join_fields_forall (P : Z → Prop) fs :
  P 32 → Forall (Forall P) fs → Forall P (join_fields fs).
Proof.
  intros H32. induction 1 as [|f fs Hf Hfs IH]; [constructor|]. cbn [join_fields].
  destruct fs; [done|]. apply Forall_app_2; [done|]. by constructor.
Qed.

Lemma skip_fields_join n fs :
  Forall plain_field fs → (n < length fs)%nat →
  skip_fields n (join_fields fs) = Some (join_fields (drop n fs)).
Proof.
  revert fs. induction n as [|n IH]; intros fs Hfs Hn; [by rewrite drop_0|].
  destruct fs as [|f [|g fs]]; simpl in Hn; [lia|lia|].
  inversion Hfs as [|? ? [_ Hf] Hfs']; subst. inversion Hfs' as [|? ? [Hg0 Hg] _]; subst.
  cbn [skip_fields]. change (join_fields (f :: g :: fs)) with (f ++ 32 :: join_fields (g :: fs)).
  rewrite find_from_first by (eapply Forall_impl; [exact Hf|]; by intros c (?&_)). cbn [mbind option_bind].
  rewrite drop_app_length. cbn [skip_blanks Z.eqb].
  change (drop (S n) (f :: g :: fs)) with (drop n (g :: fs)). rewrite <-IH by (done || simpl; lia).
  f_equal. destruct g as [|c g]; [done|]. inversion Hg as [|? ? Hc _]; subst.
  assert (E : ∃ l, join_fields ((c :: g) :: fs) = c :: l) by (destruct fs; simpl; eauto).
  destruct E as [l ->]. simpl. destruct (Z.eqb_spec c 32); [tauto|done].
Qed.

Lemma take_digits_value ds acc seen rest :
  Forall (λ c, is_digit c = true) ds → seen = true ∨ ds ≠ [] →
  match rest with c :: _ => is_digit c = false | [] => True end →
  take_digits acc seen (ds ++ rest) = Some (fold_left (λ a c, 10 * a + (c - 48)) ds acc).
Proof.
  intros Hds. revert acc seen. induction Hds as [|c ds Hc _ IH]; intros acc seen Hs Hr; simpl.
  - destruct Hs as [->|]; [|done]. destruct rest as [|c rest]; simpl; [done|]. by rewrite Hr.
  - rewrite Hc. apply IH; auto.
Qed.

Lemma digit_cases c : is_digit c = true → 48 ≤ c ≤ 57.
Proof. unfold is_digit. intros H. bool_prop. lia. Qed.

Lemma stoull_digits ds rest :
  ds ≠ [] → Forall (λ c, is_digit c = true) ds → dec_value ds < 2 ^ 64 →
  match rest with c :: _ => is_digit c = false | [] => True end →
  stoull (ds ++ rest) = Some (dec_value ds).
Proof.
  intros Hne Hds Hv Hr. unfold stoull. destruct ds as [|c ds]; [done|].
  inversion Hds as [|? ? Hc _]; subst. apply digit_cases in Hc as Hc'.
  assert (Hsp : is_space c = false).
  { unfold is_space. destruct (Z.eqb_spec c 32); [lia|]. destruct (Z.leb_spec 9 c); [|done].
    destruct (Z.leb_spec c 13); [lia|done]. }
  cbn [app skip_space]. rewrite Hsp.
  destruct (Z.eqb_spec c 45); [lia|]. destruct (Z.eqb_spec c 43); [lia|].
  change (c :: ds ++ rest) with ((c :: ds) ++ rest). rewrite take_digits_value by auto.
  cbn [mbind option_bind]. fold (dec_value (c :: ds)).
  by destruct (Z.leb_spec (2 ^ 64) (dec_value (c :: ds))); [lia|].
Qed.

Lemma join_fields_head f fs :
  ∃ rest, join_fields (f :: fs) = f ++ rest ∧
          match rest with c :: _ => is_digit c = false | [] => True end.
Proof. destruct fs; [exists []; by rewrite app_nil_r|]. by eexists (32 :: _). Qed.

Lemma parse_stat_line pid comm fields f22 rest :
  Forall (λ c, c ≠ 10) pid → Forall (λ c, c ≠ 10) comm → Forall plain_field fields →
  fields !! 19%nat = Some f22 → Forall (λ c, is_digit c = true) f22 → dec_value f22 < 2 ^ 64 →
  parse_stat (stat_line pid comm fields ++ 10 :: rest) = Some (dec_value f22).
Proof.
  intros Hp Hc Hf H22 Hd Hv. pose proof (lookup_lt_Some _ _ _ H22) as Hlen.
  assert (Hj10 : Forall (λ c, c ≠ 10) (join_fields fields)).
  { apply join_fields_forall; [done|]. eapply Forall_impl; [exact Hf|].
    intros f [_ H]. eapply Forall_impl; [exact H|]. by intros c (?&?&?). }
  assert (Hj41 : Forall (λ c, c ≠ 41) (join_fields fields)).
  { apply join_fields_forall; [done|]. eapply Forall_impl; [exact Hf|].
    intros f [_ H]. eapply Forall_impl; [exact H|]. by intros c (?&?&?). }
  unfold parse_stat. rewrite getline_app.
  2:{ unfold stat_line. repeat apply Forall_app_2; try done; repeat constructor; done. }
  assert (E : stat_line pid comm fields = (pid ++ str " (" ++ comm) ++ 41 :: 32 :: join_fields fields).
  { unfold stat_line. rewrite <-!app_assoc. done. }
  rewrite E, rfind_last by by constructor. cbn [mbind option_bind].
  set (a := pid ++ str " (" ++ comm).
  assert (Hne : (0 < length (join_fields fields))%nat).
  { destruct fields as [|f fs]; [done|]. inversion Hf as [|? ? [Hf0 _] _]; subst.
    destruct f; [done|]. destruct fs; simpl; lia. }
  rewrite length_app. cbn [length].
  destruct (Nat.leb_spec (length a + S (S (length (join_fields fields)))) (length a + 2)); [lia|].
  replace (drop (length a + 2) (a ++ 41 :: 32 :: join_fields fields)) with (join_fields fields).
  2:{ rewrite <-drop_drop, drop_app_length. done. }
  rewrite skip_fields_join by done. cbn [mbind option_bind].
  rewrite (drop_S _ _ _ H22). destruct (join_fields_head f22 (drop 20 fields)) as (r&->&Hr).
  apply stoull_digits; try done. eapply Forall_lookup_1 in Hf as [? _]; done.
Qed.

(** ** Lemmas on the mapping scan *)

Lemma starts_with_spec token l : starts_with token l = true ↔ ∃ k, l = token ++ k.
Proof.
  revert l. induction token as [|t token IH]; intros l; simpl; [split; eauto|].
  destruct l as [|c l]; [split; [done|by intros [k ?]]|].
  rewrite andb_true_iff, Z.eqb_eq, IH. split.
  - intros [-> [k ->]]. by exists k.
  - intros [k [= -> ->]]. split; [done|]. by exists k.
Qed.

Lemma contains_spec token l : contains token l = true ↔ ∃ a b, l = a ++ token ++ b.
Proof.
  induction l as [|c l IH]; cbn [contains]; rewrite orb_true_iff, starts_with_spec.
  - split; [|intros (a&b&E)].
    + intros [[k Hk]|]; [|done]. by exists [], k.
    + left. exists b. destruct a; [done|discriminate].
  - rewrite IH. split.
    + intros [[k Hk]|(a&b&->)]; [by exists [], k|]. by exists (c :: a), b.
    + intros ([|x a]&b&E); [left; eauto|]. right. injection E as -> ->. eauto.
Qed.

Lemma scan_lines_spec token ls : scan_lines token ls = true ↔ ∃ l, l ∈ ls ∧ contains token l = true.
Proof.
  induction ls as [|l ls IH]; cbn [scan_lines].
  - split; [done|]. by intros (l&?%elem_of_nil&_).
  - setoid_rewrite elem_of_cons. destruct (contains token l) eqn:E.
    + split; [eauto|done].
    + rewrite IH. split; [intros (l'&?&?); exists l'; auto|].
      intros (l'&[->|?]&?); [congruence|eauto].
Qed.

Lemma scan_dir_spec os token entries :
  scan_dir os token entries = true ↔
  ∃ ent l, ent ∈ entries ∧ is_pid_dir_name ent = true ∧
           l ∈ lines_of [] (proc_maps os ent) ∧ contains token l = true.
Proof.
  induction entries as [|e entries IH]; cbn [scan_dir].
  - split; [done|]. by intros (e&l&?%elem_of_nil&_).
  - setoid_rewrite elem_of_cons. destruct (is_pid_dir_name e) eqn:Ep; cbn [negb].
    + destruct (scan_lines token _) eqn:Es.
      * split; [|done]. intros _. apply scan_lines_spec in Es as (l&?&?). exists e, l. auto.
      * rewrite IH. split; [intros (x&l&?&?&?&?); exists x, l; auto|].
        intros (x&l&[->|?]&?&?&?); [|eauto 10]. rewrite (proj2 (scan_lines_spec _ _)) in Es by eauto. done.
    + rewrite IH. split; [intros (x&l&?&?&?&?); exists x, l; auto|].
      intros (x&l&[->|?]&?&?&?); [congruence|eauto 10].
Qed.

(** ** Lemmas on the heartbeat worker *)

(** While some header is registered, a worker that will not stop is running for it; thread ids
    are fresh and never run twice. *)
Record hb_inv (s : Heartbeat) : Prop := {
  hi_alive : hb_headers s ≠ [] → ∃ t, hb_thread s = Some t;
  hi_thread t : hb_thread s = Some t → t ∈ hb_running s ∧ hb_stop s = false;
  hi_nodup : NoDup (hb_headers s);
  hi_fresh t : t ∈ hb_running s → (t < hb_next s)%nat;
}.

Lemma hb_init_inv : hb_inv hb_init.
Proof. split; try done; [constructor|]. by intros t ?%elem_of_nil. Qed.

Lemma hb_step_inv s s' : hb_inv s → hb_step s s' → hb_inv s'.
Proof.
  intros Hi Hs. pose proof Hi as [Ha Ht Hn Hf]. destruct Hs as [p s|p s|t s Hr|t s Hj Hr].
  - assert (Hnd : NoDup (if bool_decide (p ∈ hb_headers s) then hb_headers s else hb_headers s ++ [p])).
    { case_bool_decide; [done|]. apply NoDup_app. split_and!; [done| |apply NoDup_singleton].
      intros x Hx ->%list_elem_of_singleton. done. }
    unfold register_owner. destruct (hb_thread s) as [u|] eqn:Eu.
    + split; cbn [hb_headers hb_thread hb_stop hb_running hb_next]; try done; eauto.
    + split; cbn [hb_headers hb_thread hb_stop hb_running hb_next]; try done; [eauto| |].
      * intros t [= <-]. split; [|done]. apply elem_of_app. right. by apply list_elem_of_singleton.
      * intros t [?%Hf| ->%list_elem_of_singleton]%elem_of_app; lia.
  - unfold unregister_owner. pose proof (NoDup_filter (λ q, q ≠ p) _ Hn) as Hnd.
    destruct (filter (λ q, q ≠ p) (hb_headers s)) as [|x hs] eqn:Ef.
    + destruct (hb_thread s) as [u|] eqn:Eu; split; cbn [hb_headers hb_thread hb_stop hb_running hb_next];
        try done; constructor.
    + split; cbn [hb_headers hb_thread hb_stop hb_running hb_next]; try done.
      intros _. apply Ha. intros E. by rewrite E in Ef.
  - unfold worker_iteration. destruct (hb_stop s) eqn:Es; [|exact Hi].
    split; cbn [hb_headers hb_thread hb_stop hb_running hb_next]; try done.
    + intros u Hu. destruct (Ht u Hu). congruence.
    + intros u [_ Hu]%list_elem_of_filter. eauto.
  - by split.
Qed.

(** The tick leaves every header but the registered ones alone and refreshes those. *)
Lemma tick_lookup now ps mem p :
  NoDup ps →
  heartbeat_tick_locked now ps mem !! p =
  if bool_decide (p ∈ ps) then set_heartbeat now <$> (mem !! p) else mem !! p.
Proof.
  intros Hn. revert mem. induction Hn as [|q ps Hq _ IH]; intros mem; cbn [heartbeat_tick_locked]; [done|].
  rewrite IH. destruct (decide (p = q)) as [->|Hne].
  - rewrite bool_decide_false by done. rewrite bool_decide_true by set_solver. by rewrite lookup_alter_eq.
  - rewrite lookup_alter_ne by done.
    assert (p ∈ q :: ps ↔ p ∈ ps) as E by (rewrite elem_of_cons; tauto). by rewrite (bool_decide_ext _ _ E).
Qed.

(** ** Theorems *)

(** The guard drives a robust mutex through its documented protocol: on a free mutex it
    locks and unlocks; on one whose owner died it locks, reports the death, and after
    [mark_consistent] the unlock frees the mutex; left inconsistent, the unlock makes the mutex
    unrecoverable; on an unrecoverable one it reports [PriorOwnerDead] and never unlocks. Moving a
    guard leaves the source empty. *)
Theorem guard_protocol `{!RobustMutex Mx, !RobustMutexLaws Mx} (m : Mx) :
  let '(g, m1) := ShmMutexGuard.make m in
  let '(r, g2, m2) := ShmMutexGuard.mark_consistent g m1 in
  (mx_state m = MxFree →
     ShmMutexGuard.locked_ g = true ∧ ShmMutexGuard.error_ g = Ok ∧
     mx_state (ShmMutexGuard.reset g m1).2 = MxFree) ∧
  (mx_state m = MxAbandoned →
     ShmMutexGuard.locked_ g = true ∧ ShmMutexGuard.prior_owner_dead_ g = true ∧ r = Value tt ∧
     mx_state (ShmMutexGuard.reset g2 m2).2 = MxFree ∧
     mx_state (ShmMutexGuard.reset g m1).2 = MxNotRecoverable) ∧
  (mx_state m = MxNotRecoverable →
     ShmMutexGuard.locked_ g = false ∧ ShmMutexGuard.error_ g = PriorOwnerDead ∧
     (ShmMutexGuard.reset g m1).2 = m1) ∧
  (ShmMutexGuard.reset (ShmMutexGuard.move g).2 m1).2 = m1.
Proof.
  unfold ShmMutexGuard.make.
  pose proof (law_lock_free m) as Lf. pose proof (law_lock_abandoned m) as La.
  pose proof (law_lock_lost m) as Ll.
  destruct (mx_lock m) as [[] m1]; cbn [fst snd] in *; unfold ShmMutexGuard.mark_consistent; cbn.
  - split_and!; try done.
    + intros H. destruct (Lf H) as [_ H1]. split_and!; try done. by apply law_unlock.
    + intros H. by destruct (La H).
    + intros H. by destruct (Ll H).
  - pose proof (law_consistent m1) as Lc. destruct (mx_consistent m1) as [b m2].
    destruct b; cbn; (split_and!; [intros H; by destruct (Lf H)| | |done]);
      try (intros H; by destruct (Ll H)); intros H; destruct (La H) as [_ H1];
      destruct (Lc H1) as [Eb H2]; cbn [fst snd] in *; try done.
    split_and!; try done; [by apply law_unlock|by apply law_unlock_inconsistent].
  - split_and!; try done.
    + intros H. by destruct (Lf H).
    + intros H. by destruct (La H).
Qed.

Lemma guard_protocol_witness :
  let '(g, m1) := ShmMutexGuard.make MxAbandoned in
  let '(r, g2, m2) := ShmMutexGuard.mark_consistent g m1 in
  r = Value tt ∧ (ShmMutexGuard.reset g2 m2).2 = MxFree.
Proof.
  pose proof (guard_protocol MxAbandoned) as H. cbn in H. destruct H as (_&H&_).
  split; [done|]. exact (proj1 (proj2 (proj2 (proj2 (H eq_refl))))).
Defined.

(** [read_proc_start_time] finds field 22 of /proc/<pid>/stat whatever the command name
    holds, spaces and closing parentheses included. *)
Theorem read_start_time_field22 os pid pidtxt comm fields f22 rest :
  proc_stat os pid = Some (stat_line pidtxt comm fields ++ 10 :: rest) →
  Forall (λ c, c ≠ 10) pidtxt → Forall (λ c, c ≠ 10) comm → Forall plain_field fields →
  fields !! 19%nat = Some f22 → Forall (λ c, is_digit c = true) f22 → dec_value f22 < 2 ^ 64 →
  read_proc_start_time os pid = Some (dec_value f22).
Proof.
  intros E Hp Hc Hf H22 Hd Hv. unfold read_proc_start_time. rewrite E. cbn [mbind option_bind].
  by apply parse_stat_line.
Qed.

Definition demo_fields : list bytes := replicate 19 (str "7") ++ [str "98765"; str "0"].

Definition demo_os : Os :=
  mkOs (λ _, false)
    (λ _, Some (stat_line (str "42") (str "a) b (c") demo_fields ++ [10])) (Some (5, 0)) None (λ _, []).

Lemma read_start_time_field22_witness : read_proc_start_time demo_os 42 = Some 98765.
Proof.
  rewrite (read_start_time_field22 demo_os 42 (str "42") (str "a) b (c") demo_fields (str "98765") []);
    [done|done|repeat constructor; done|repeat constructor; done| |done|repeat constructor|done].
  unfold demo_fields. cbn. repeat (constructor; [split; [done|repeat constructor; done]|]). constructor.
Defined.

(** An owner that is alive is not declared dead: when its pid exists, its start time (if
    readable) is the recorded one and its worker ticked within the last three seconds, the test
    says alive; and the tick sets exactly the registered headers to that state. *)
Theorem live_owner_not_dead os hdr now t (mem : gmap Z ShmHeader) headers p :
  NoDup headers → p ∈ headers → mem !! p = Some hdr →
  owner_pid hdr ≠ 0 → kill_esrch os (s32 (owner_pid hdr)) = false →
  (∀ st, read_proc_start_time os (owner_pid hdr) = Some st → st = owner_start_time hdr) →
  0 < t < 2 ^ 64 → now ≤ t + HEARTBEAT_DEAD_NS →
  ∃ hdr', heartbeat_tick_locked t headers mem !! p = Some hdr' ∧
          owner_is_dead os hdr' now = false ∧ immutable_fields hdr' = immutable_fields hdr.
Proof.
  intros Hn Hp Hm Hpid Hk Hst Ht Hnow. rewrite tick_lookup, bool_decide_true, Hm by done.
  eexists. split; [done|]. split; [|done]. unfold owner_is_dead.
  cbn [set_heartbeat owner_pid owner_start_time heartbeat_last_ns]. unfold atomic_store_u64.
  rewrite u64_small, Hk by lia. destruct (Z.eqb_spec (owner_pid hdr) 0); [done|].
  destruct (read_proc_start_time os (owner_pid hdr)) as [st|] eqn:Es.
  - rewrite (Hst _ eq_refl), Z.eqb_refl, andb_false_r.
    destruct (Z.eqb_spec t 0); [lia|]. destruct (Z.ltb_spec now t); [done|].
    cbn [orb]. destruct (Z.ltb_spec HEARTBEAT_DEAD_NS (now - t)); [lia|done].
  - rewrite andb_false_r. destruct (Z.eqb_spec t 0); [lia|]. destruct (Z.ltb_spec now t); [done|].
    cbn [orb]. destruct (Z.ltb_spec HEARTBEAT_DEAD_NS (now - t)); [lia|done].
Qed.

Lemma live_owner_not_dead_witness :
  ∃ hdr', heartbeat_tick_locked 1000 [64] {[64 := demo_header 0]} !! 64 = Some hdr' ∧
          owner_is_dead (mkOs (λ _, false) (λ _, None) None None (λ _, [])) hdr' 5000 = false ∧
          immutable_fields hdr' = immutable_fields (demo_header 0).
Proof.
  apply live_owner_not_dead; try done; [apply NoDup_singleton|set_solver].
Defined.

(** C39: whatever registrations, unregistrations, worker iterations and joins happen, in any
    order: while an owner is registered, a heartbeat worker is running and is not told to
    stop, and no header is listed twice. *)
Theorem heartbeat_worker_alive s :
  rtc hb_step hb_init s →
  NoDup (hb_headers s) ∧
  (hb_headers s ≠ [] → ∃ t, hb_thread s = Some t ∧ t ∈ hb_running s ∧ hb_stop s = false).
Proof.
  intros Hr. assert (Hi : hb_inv s).
  { revert s Hr. apply (rtc_ind_r hb_inv); [apply hb_init_inv|]. eauto using hb_step_inv. }
  destruct Hi as [Ha Ht Hn _]. split; [done|]. intros Hne. destruct (Ha Hne) as [t Et]. eauto.
Qed.

Lemma heartbeat_worker_alive_witness :
  NoDup (hb_headers (register_owner 64 hb_init)) ∧
  (hb_headers (register_owner 64 hb_init) ≠ [] →
   ∃ t, hb_thread (register_owner 64 hb_init) = Some t ∧ t ∈ hb_running (register_owner 64 hb_init) ∧
        hb_stop (register_owner 64 hb_init) = false).
Proof. apply heartbeat_worker_alive. apply rtc_once. constructor. Defined.

(** A registration that comes between the end of an [unregister_heartbeat_owner]'s critical
    section and the worker's next look at the stop flag clears the flag: the waiting [join] then
    waits for a worker that keeps running, for as long as some owner stays registered. *)
Theorem heartbeat_join_can_hang :
  ∃ s t, rtc hb_step hb_init s ∧ t ∈ hb_joining s ∧ t ∈ hb_running s ∧ hb_stop s = false ∧
    ∀ s', rtc (λ a b, hb_step a b ∧ hb_headers b ≠ []) s s' →
          t ∈ hb_running s' ∧ ¬ (hb_stop s' = true).
Proof.
  exists (register_owner 128 (unregister_owner 64 (register_owner 64 hb_init))), 0%nat.
  split_and!; [|set_solver|set_solver|done|].
  - do 3 (eapply rtc_r; [|constructor]). done.
  - intros s' Hr.
    assert (H : hb_inv s' ∧ 0%nat ∈ hb_running s' ∧ hb_stop s' = false ∧ hb_headers s' ≠ []).
    { revert s' Hr. apply rtc_ind_r.
      - split_and!; [|cbn; set_solver|done|done].
        eapply hb_step_inv; [eapply hb_step_inv; [eapply hb_step_inv; [apply hb_init_inv|]|]|]; constructor.
      - intros s1 s2 _ [Hs Hne] (Hi&Hr1&Hst&Hne1). pose proof (hb_step_inv _ _ Hi Hs) as Hi2.
        destruct (hi_alive _ Hi2 Hne) as [u Hu]. pose proof (hi_thread _ Hi2 u Hu) as [_ Hst2].
        split_and!; [done| |done|done].
        destruct Hs as [p s1|p s1|u' s1 Hu'|u' s1 Hj Hu']; try done.
        + unfold register_owner. destruct (hb_thread s1); cbn; [done|set_solver].
        + unfold unregister_owner in *. destruct (filter _ _); [|done].
          by destruct (hb_thread s1).
        + unfold worker_iteration. by rewrite Hst. }
    destruct H as (_&H1&H2&_). split; [done|]. by rewrite H2.
Qed.

(** The mapping scan errs on the safe side only: it reports a mapping when /proc cannot be
    read, and otherwise exactly when some process directory's maps have a line that contains the
    segment's /dev/shm path, so a mapped segment is never missed. *)
Theorem maps_scan_spec os nm :
  any_process_maps_segment os nm = true ↔
  proc_dir os = None ∨
  ∃ entries ent line a b,
    proc_dir os = Some entries ∧ ent ∈ entries ∧ is_pid_dir_name ent = true ∧
    line ∈ lines_of [] (proc_maps os ent) ∧ line = a ++ shm_maps_token nm ++ b.
Proof.
  unfold any_process_maps_segment. destruct (proc_dir os) as [entries|].
  - rewrite scan_dir_spec. split.
    + intros (ent&l&?&?&?&(a&b&?)%contains_spec). right. exists entries, ent, l, a, b. done.
    + intros [|(es&ent&l&a&b&[= <-]&?&?&?&?)]; [done|]. exists ent, l. split_and!; try done.
      apply contains_spec. eauto.
  - split; [by left|done].
Qed.

(** A guard that failed to lock a mutex that cannot be recovered reports [PriorOwnerDead], which is
    documented for a lock that was taken over. *)
Theorem guard_error_unlocked :
  let g := (ShmMutexGuard.make MxNotRecoverable).1 in
  ShmMutexGuard.locked_ g = false ∧ ShmMutexGuard.error_ g = PriorOwnerDead.
Proof. done. Qed.
