(* ===== verification/Registry.v ===== *)
(** * The registry: [shm_registry.h], [shm_registry.cpp]

    The registry payload (occupancy bitmap, slot count, 1024 seqlocked slots) and its operations
    under the control mutex: registration, removal, listing and the repair after the death of a
    lock holder. The theorems relate them to a finite map from names to entries. The janitor pass
    [Registry::gc] works on segments and is not in this file. *)

From S2P Require Import Prelude Types Sync Security Lifecycle.

(** ** Payload *)

Record RegistryPayload := mkRegistryPayload {
  count_storage : Z;
  bitmap : bytes;
  slots : list RegistryEntry;
}.

Definition NSLOTS : nat := Z.to_nat MAX_REGISTRY_ENTRIES.

(** [RegistryEntry{}] *)
Definition empty_entry : RegistryEntry :=
  mkRegistryEntry 0 (replicate (Z.to_nat SHMFX_NAME_BYTES) 0) 0 0 0 0 0 0 0.

Definition set_entry_seq (s : Z) (e : RegistryEntry) : RegistryEntry :=
  mkRegistryEntry s (e_name e) (e_total_size e) (e_segment_type e) (e_owner_pid e)
    (e_owner_start_time e) (e_flags e) (e_created_at_ns e) (e_last_seen_ns e).

(** A payload after [memset]. *)
Definition fresh_payload : RegistryPayload :=
  mkRegistryPayload 0 (replicate (Z.to_nat REGISTRY_BITMAP_BYTES) 0) (replicate NSLOTS empty_entry).

(** *** Bitmap *)

Definition bitmap_byte (p : RegistryPayload) (i : nat) : Z := nth (i / 8) (bitmap p) 0.

Definition bit_is_set (p : RegistryPayload) (i : nat) : bool :=
  negb (Z.land (bitmap_byte p i) (Z.shiftl 1 (Z.of_nat (i mod 8))) =? 0).

Definition with_bitmap (p : RegistryPayload) (i : nat) (b : Z) : RegistryPayload :=
  mkRegistryPayload (count_storage p) (<[(i / 8)%nat := b]> (bitmap p)) (slots p).

Definition set_bit (p : RegistryPayload) (i : nat) : RegistryPayload :=
  with_bitmap p i (u8 (Z.lor (bitmap_byte p i) (Z.shiftl 1 (Z.of_nat (i mod 8))))).

Definition clear_bit (p : RegistryPayload) (i : nat) : RegistryPayload :=
  with_bitmap p i (u8 (Z.land (bitmap_byte p i) (u32 (Z.lnot (Z.shiftl 1 (Z.of_nat (i mod 8))))))).

(** *** Slots *)

Definition slot (p : RegistryPayload) (i : nat) : RegistryEntry := nth i (slots p) empty_entry.

Definition set_slot (p : RegistryPayload) (i : nat) (e : RegistryEntry) : RegistryPayload :=
  mkRegistryPayload (count_storage p) (bitmap p) (<[i := e]> (slots p)).

Definition set_count (p : RegistryPayload) (c : Z) : RegistryPayload :=
  mkRegistryPayload c (bitmap p) (slots p).

(** [entry_name] and [entry_name_equals] *)
Definition entry_name (e : RegistryEntry) : bytes := fixed_name_view (e_name e).

Definition entry_name_equals (e : RegistryEntry) (nm : bytes) : bool := bool_decide (entry_name e = nm).

(** [publish_slot]: the slot it leaves. *)
Definition publish_slot (sl source : RegistryEntry) : RegistryEntry :=
  set_entry_seq (u32 (seq_storage sl + 2)) source.

(** [snapshot_slot]: up to [n] retries; [rd k] is what retry [k] loads: the sequence, the copy
    of the slot, the sequence again. *)
Fixpoint snapshot_loop (n k : nat) (rd : nat → Z * RegistryEntry * Z) : option RegistryEntry :=
  match n with
  | O => None
  | S n' =>
      let '(s1, out, s2) := rd k in
      if negb (Z.land s1 1 =? 0) then snapshot_loop n' (S k) rd
      else if s1 =? s2 then Some out else snapshot_loop n' (S k) rd
  end.

(** On a slot that no writer changes meanwhile, as under the control mutex. *)
Definition snapshot_slot (e : RegistryEntry) : option RegistryEntry :=
  snapshot_loop 100 0 (λ _, (seq_storage e, e, seq_storage e)).

(** *** Recovery *)

Definition clear_slot_for_recovery (p : RegistryPayload) (i : nat) : RegistryPayload :=
  let s := seq_storage (slot p i) in
  clear_bit (set_slot p i (set_entry_seq (Z.land (u32 (s + 2)) (u32 (Z.lnot 1))) empty_entry)) i.

(** [slot.name[0] != '\0'] *)
Definition has_name (e : RegistryEntry) : bool := negb (nth 0 (e_name e) 0 =? 0).

Fixpoint recover_loop (n i : nat) (count : Z) (p : RegistryPayload) : RegistryPayload :=
  match n with
  | O => set_count p count
  | S n' =>
      let occupied := bit_is_set p i in
      let writer_in_progress := negb (Z.land (seq_storage (slot p i)) 1 =? 0) in
      let named := has_name (slot p i) in
      if (writer_in_progress || (occupied && negb named) || (negb occupied && named))%bool
      then recover_loop n' (S i) count (clear_slot_for_recovery p i)
      else recover_loop n' (S i) (if occupied then count + 1 else count) p
  end.

Definition recover_registry_invariant (p : RegistryPayload) : RegistryPayload := recover_loop NSLOTS 0 0 p.

(** *** Operations under the lock *)

(** The loop of [register_segment]: the slot that holds the name, or the first free slot. *)
Inductive register_scan := FoundAt (i : nat) | FreeAt (i : nat) | NoSlot.

Fixpoint register_loop (n i : nat) (free : option nat) (nm : bytes) (p : RegistryPayload)
    : register_scan :=
  match n with
  | O => match free with Some f => FreeAt f | None => NoSlot end
  | S n' =>
      if negb (bit_is_set p i)
      then register_loop n' (S i) (match free with None => Some i | _ => free end) nm p
      else
        match snapshot_slot (slot p i) with
        | Some snap => if entry_name_equals snap nm then FoundAt i else register_loop n' (S i) free nm p
        | None => register_loop n' (S i) free nm p
        end
  end.

(** The source compares with [entry.name] as a C string, up to its terminator: the same as
    [entry_name] for the terminated names of [copy_name]. *)
Definition register_locked (entry : RegistryEntry) (p : RegistryPayload)
    : Result unit * RegistryPayload :=
  match register_loop NSLOTS 0 None (entry_name entry) p with
  | FoundAt i => (Value tt, set_slot p i (publish_slot (slot p i) entry))
  | NoSlot => (Error QuotaExceeded, p)
  | FreeAt i =>
      let p1 := set_bit p i in
      let p2 := set_count p1 (u32 (count_storage p1 + 1)) in
      (Value tt, set_slot p2 i (publish_slot (slot p2 i) entry))
  end.

Fixpoint unregister_loop (n i : nat) (nm : bytes) (p : RegistryPayload) : option nat :=
  match n with
  | O => None
  | S n' =>
      if negb (bit_is_set p i) then unregister_loop n' (S i) nm p
      else
        match snapshot_slot (slot p i) with
        | Some snap => if entry_name_equals snap nm then Some i else unregister_loop n' (S i) nm p
        | None => unregister_loop n' (S i) nm p
        end
  end.

Definition unregister_locked (nm : bytes) (p : RegistryPayload) : Result unit * RegistryPayload :=
  match unregister_loop NSLOTS 0 nm p with
  | Some i =>
      let p1 := set_slot p i (publish_slot (slot p i) empty_entry) in
      let p2 := clear_bit p1 i in
      (Value tt, set_count p2 (u32 (count_storage p2 - 1)))
  | None => (Error NotFound, p)
  end.

(** ** The registry object *)

Section registry.
Context {Mx : Type} `{!RobustMutex Mx}.

(** [handle_.valid()], the mapped payload and the control mutex. *)
Record Registry := mkRegistry { rg_valid : bool; rg_payload : RegistryPayload; rg_mutex : Mx }.

(** [lock_registry_control]: the guard or the error, and the payload and mutex after it. On an
    error the guard is destroyed before the return. *)
Definition lock_registry_control (p : RegistryPayload) (m : Mx)
    : Result ShmMutexGuard.t * RegistryPayload * Mx :=
  let '(g, m1) := ShmMutexGuard.make m in
  if negb (ShmMutexGuard.locked_ g) then
    (Error (ShmMutexGuard.error_ g), p, (ShmMutexGuard.reset g m1).2)
  else if ShmMutexGuard.prior_owner_dead_ g then
    let p1 := recover_registry_invariant p in
    match ShmMutexGuard.mark_consistent g m1 with
    | (Error e, g2, m2) => (Error e, p1, (ShmMutexGuard.reset g2 m2).2)
    | (Value _, g2, m2) => (Value g2, p1, m2)
    end
  else (Value g, p, m1).

(** An operation of the registry: nothing without a handle, else lock, work, unlock. *)
Definition locked_operation (f : RegistryPayload → Result unit * RegistryPayload) (r : Registry)
    : Result unit * Registry :=
  if negb (rg_valid r) then (Error NotFound, r)
  else
    match lock_registry_control (rg_payload r) (rg_mutex r) with
    | (Error e, p, m) => (Error e, mkRegistry (rg_valid r) p m)
    | (Value g, p, m) =>
        let '(res, p') := f p in (res, mkRegistry (rg_valid r) p' (ShmMutexGuard.reset g m).2)
    end.

Definition register_segment (entry : RegistryEntry) : Registry → Result unit * Registry :=
  locked_operation (register_locked entry).

Definition unregister (nm : bytes) : Registry → Result unit * Registry :=
  locked_operation (unregister_locked nm).

Definition has_prefix (prefix : bytes) (e : RegistryEntry) : bool :=
  bool_decide (take (length prefix) (entry_name e) = prefix).

(** The loop of [list]: a slot that cannot be snapshot is read under the lock, with the repair
    that locking may bring. *)
Fixpoint list_loop (n i : nat) (prefix : bytes) (p : RegistryPayload) (m : Mx)
    : list RegistryEntry * RegistryPayload * Mx :=
  match n with
  | O => ([], p, m)
  | S n' =>
      if negb (bit_is_set p i) then list_loop n' (S i) prefix p m
      else
        let '(snap, p1, m1) :=
          match snapshot_slot (slot p i) with
          | Some e => (Some e, p, m)
          | None =>
              match lock_registry_control p m with
              | (Error _, p1, m1) => (None, p1, m1)
              | (Value g, p1, m1) => (Some (slot p1 i), p1, (ShmMutexGuard.reset g m1).2)
              end
          end in
        match snap with
        | None => list_loop n' (S i) prefix p1 m1
        | Some e =>
            let '(out, p2, m2) := list_loop n' (S i) prefix p1 m1 in
            (if has_prefix prefix e then e :: out else out, p2, m2)
        end
  end.

Definition list_segments (prefix : bytes) (r : Registry) : list RegistryEntry * Registry :=
  if negb (rg_valid r) then ([], r)
  else
    let '(out, p, m) := list_loop NSLOTS 0 prefix (rg_payload r) (rg_mutex r) in
    (out, mkRegistry (rg_valid r) p m).

End registry.
Arguments Registry Mx : clear implicits.

(** ** The map a payload represents *)

(** An entry without its sequence counter, which the registry manages. *)
Definition erase (e : RegistryEntry) : RegistryEntry := set_entry_seq 0 e.

Definition reg_map_of (p : RegistryPayload) (ixs : list nat) : gmap bytes RegistryEntry :=
  foldr (λ i m, if bit_is_set p i then <[entry_name (slot p i) := erase (slot p i)]> m else m) ∅ ixs.

Definition reg_map (p : RegistryPayload) : gmap bytes RegistryEntry := reg_map_of p (seq 0 NSLOTS).

(** The 64-byte name field with its terminator. *)
Definition name_typed (e : RegistryEntry) : Prop :=
  length (e_name e) = Z.to_nat SHMFX_NAME_BYTES ∧ last (e_name e) = Some 0.

Record payload_typed (p : RegistryPayload) : Prop := {
  pt_bitmap : length (bitmap p) = Z.to_nat REGISTRY_BITMAP_BYTES;
  pt_bytes : is_bytes (bitmap p);
  pt_slots : length (slots p) = NSLOTS;
  pt_names : Forall name_typed (slots p);
  pt_seqs : Forall (λ e, 0 ≤ seq_storage e < 2 ^ 32) (slots p);
}.

(** A slot the repair leaves alone: no writer in progress, named exactly when occupied. *)
Definition slot_consistent (p : RegistryPayload) (i : nat) : Prop :=
  Z.land (seq_storage (slot p i)) 1 = 0 ∧ bit_is_set p i = has_name (slot p i).

Record reg_wf (p : RegistryPayload) : Prop := {
  wf_typed : payload_typed p;
  wf_slot i : (i < NSLOTS)%nat → slot_consistent p i;
  wf_uniq i j : (i < NSLOTS)%nat → (j < NSLOTS)%nat → bit_is_set p i = true → bit_is_set p j = true →
    entry_name (slot p i) = entry_name (slot p j) → i = j;
  wf_count : count_storage p = Z.of_nat (size (reg_map p));
}.

(** An entry callers register: a named one. *)
Definition entry_ok (e : RegistryEntry) : Prop := name_typed e ∧ has_name e = true.

(** ** Lemmas on lists and the bitmap *)

Lemma nth_insert {A} (l : list A) i x j d :
  (i < length l)%nat → nth j (<[i := x]> l) d = if decide (i = j) then x else nth j l d.
Proof.
  intros Hi. rewrite !nth_lookup. case_decide as E.
  - subst j. by rewrite list_lookup_insert_eq.
  - by rewrite list_lookup_insert_ne.
Qed.

Lemma bit_is_set_testbit p i :
  bit_is_set p i = Z.testbit (bitmap_byte p i) (Z.of_nat (i mod 8)).
Proof.
  unfold bit_is_set. set (k := Z.of_nat (i mod 8)). assert (Hk : 0 ≤ k) by (unfold k; lia).
  rewrite Z.shiftl_1_l. destruct (Z.testbit (bitmap_byte p i) k) eqn:E.
  - apply negb_true_iff, Z.eqb_neq. intros H. apply (f_equal (λ z, Z.testbit z k)) in H.
    rewrite Z.land_spec, Z.pow2_bits_true, E, Z.bits_0 in H by done. done.
  - apply negb_false_iff, Z.eqb_eq, Z.bits_inj'. intros n Hn.
    rewrite Z.land_spec, Z.bits_0, Z.pow2_bits_eqb by done.
    destruct (Z.eqb_spec k n) as [->|]; [by rewrite E|by rewrite andb_false_r].
Qed.

Lemma testbit_u8 z k : 0 ≤ k < 8 → Z.testbit (u8 z) k = Z.testbit z k.
Proof. intros. unfold u8. apply Z.mod_pow2_bits_low. lia. Qed.

Lemma index_split i j : (i / 8)%nat = (j / 8)%nat → (i mod 8)%nat = (j mod 8)%nat → i = j.
Proof. intros H1 H2. rewrite (Nat.div_mod_eq i 8), (Nat.div_mod_eq j 8). lia. Qed.

(** Writing the byte of bit [i] changes the bits of that byte only. *)
Lemma bit_with_bitmap p i b j :
  (i / 8 < length (bitmap p))%nat →
  bit_is_set (with_bitmap p i b) j =
  if decide ((i / 8)%nat = (j / 8)%nat) then Z.testbit b (Z.of_nat (j mod 8)) else bit_is_set p j.
Proof.
  intros Hi. rewrite !bit_is_set_testbit. unfold bitmap_byte, with_bitmap. cbn [bitmap].
  rewrite nth_insert by done. by case_decide.
Qed.

Lemma bit_set_bit p i j :
  (i / 8 < length (bitmap p))%nat →
  bit_is_set (set_bit p i) j = (bool_decide (i = j) || bit_is_set p j)%bool.
Proof.
  intros Hi. unfold set_bit. rewrite bit_with_bitmap by done.
  pose proof (Nat.mod_upper_bound i 8 ltac:(lia)). pose proof (Nat.mod_upper_bound j 8 ltac:(lia)).
  case_decide as E.
  - rewrite testbit_u8, Z.lor_spec, Z.shiftl_1_l, Z.pow2_bits_eqb by lia.
    unfold bitmap_byte. rewrite E. fold (bitmap_byte p j). rewrite <-bit_is_set_testbit.
    destruct (Z.eqb_spec (Z.of_nat (i mod 8)) (Z.of_nat (j mod 8))).
    + rewrite bool_decide_true by (apply index_split; lia). by rewrite orb_true_r.
    + rewrite bool_decide_false by congruence. by rewrite orb_false_r.
  - by rewrite bool_decide_false by congruence.
Qed.

Lemma bit_clear_bit p i j :
  (i / 8 < length (bitmap p))%nat →
  bit_is_set (clear_bit p i) j = (negb (bool_decide (i = j)) && bit_is_set p j)%bool.
Proof.
  intros Hi. unfold clear_bit. rewrite bit_with_bitmap by done.
  pose proof (Nat.mod_upper_bound i 8 ltac:(lia)). pose proof (Nat.mod_upper_bound j 8 ltac:(lia)).
  case_decide as E.
  - rewrite testbit_u8, Z.land_spec by lia. unfold u32. rewrite Z.mod_pow2_bits_low by lia.
    rewrite Z.lnot_spec, Z.shiftl_1_l, Z.pow2_bits_eqb by lia.
    unfold bitmap_byte. rewrite E. fold (bitmap_byte p j). rewrite <-bit_is_set_testbit.
    destruct (Z.eqb_spec (Z.of_nat (i mod 8)) (Z.of_nat (j mod 8))).
    + rewrite bool_decide_true by (apply index_split; lia). by rewrite andb_false_r.
    + rewrite bool_decide_false by congruence. by rewrite andb_true_r.
  - by rewrite bool_decide_false by congruence.
Qed.

Lemma typed_index p i : payload_typed p → (i < NSLOTS)%nat → (i / 8 < length (bitmap p))%nat.
Proof.
  intros [-> _ _ _ _] Hi. apply Nat.Div0.div_lt_upper_bound.
  change (Z.to_nat REGISTRY_BITMAP_BYTES) with 128%nat. change NSLOTS with 1024%nat in Hi. lia.
Qed.

Lemma slot_set_slot p i e j :
  payload_typed p → (i < NSLOTS)%nat → slot (set_slot p i e) j = if decide (i = j) then e else slot p j.
Proof. intros Ht Hi. unfold slot, set_slot. cbn [slots]. apply nth_insert. by rewrite (pt_slots _ Ht). Qed.

Lemma typed_set_slot p i e :
  payload_typed p → name_typed e → 0 ≤ seq_storage e < 2 ^ 32 → payload_typed (set_slot p i e).
Proof.
  intros [H1 H2 H3 H4 H5] He Hs. split; cbn [set_slot bitmap slots]; try done.
  - by rewrite length_insert.
  - by apply Forall_insert.
  - by apply Forall_insert.
Qed.

Lemma typed_with_bitmap p i b : payload_typed p → is_byte b → payload_typed (with_bitmap p i b).
Proof.
  intros [H1 H2 H3 H4 H5] Hb. split; cbn [with_bitmap bitmap slots]; try done.
  - by rewrite length_insert.
  - by apply Forall_insert.
Qed.

Lemma typed_set_count p c : payload_typed p → payload_typed (set_count p c).
Proof. by intros [H1 H2 H3 H4 H5]. Qed.

Lemma slot_typed p i :
  payload_typed p → (i < NSLOTS)%nat → name_typed (slot p i) ∧ 0 ≤ seq_storage (slot p i) < 2 ^ 32.
Proof.
  intros [_ _ H3 H4 H5] Hi. unfold slot.
  destruct (lookup_lt_is_Some_2 (slots p) i) as [e He]; [by rewrite H3|].
  rewrite (nth_lookup_Some _ _ _ _ He). split.
  - exact (Forall_lookup_1 _ _ _ _ H4 He).
  - exact (Forall_lookup_1 _ _ _ _ H5 He).
Qed.

(** ** Names *)

Lemma has_name_entry_name e : name_typed e → has_name e = negb (bool_decide (entry_name e = [])).
Proof.
  unfold name_typed, has_name, entry_name, fixed_name_view.
  change (Z.to_nat SHMFX_NAME_BYTES) with 64%nat. intros [Hl _].
  destruct (e_name e) as [|c l]; [done|]. cbn [nth strnlen].
  destruct (Z.eqb_spec c 0); cbn [negb].
  - by rewrite bool_decide_true.
  - by rewrite bool_decide_false.
Qed.

Lemma snapshot_even e : Z.land (seq_storage e) 1 = 0 → snapshot_slot e = Some e.
Proof.
  intros H. unfold snapshot_slot. change 100%nat with (S 99). generalize 99%nat as n. intros n.
  cbn [snapshot_loop]. by rewrite H, !Z.eqb_refl.
Qed.

Lemma land_1_even a : Z.land a 1 = a mod 2.
Proof. change 1 with (Z.ones 1). by rewrite Z.land_ones. Qed.

Lemma u32_even_step s : Z.land s 1 = 0 → Z.land (u32 (s + 2)) 1 = 0.
Proof. rewrite !land_1_even. unfold u32. intros. zlia. Qed.

(** ** The represented map *)

(** Names of occupied slots are distinct. *)
Definition names_inj (p : RegistryPayload) (ixs : list nat) : Prop :=
  ∀ i j, i ∈ ixs → j ∈ ixs → bit_is_set p i = true → bit_is_set p j = true →
         entry_name (slot p i) = entry_name (slot p j) → i = j.

Lemma reg_map_of_lookup p ixs nm e :
  names_inj p ixs →
  reg_map_of p ixs !! nm = Some e ↔
  ∃ i, i ∈ ixs ∧ bit_is_set p i = true ∧ entry_name (slot p i) = nm ∧ e = erase (slot p i).
Proof.
  induction ixs as [|i ixs IH]; intros Hinj; cbn [reg_map_of foldr].
  - rewrite lookup_empty. split; [done|]. by intros (i&?%elem_of_nil&_).
  - change (foldr _ ∅ ixs) with (reg_map_of p ixs).
    assert (Hinj' : names_inj p ixs) by (intros j k ??; apply Hinj; by apply elem_of_cons; right).
    specialize (IH Hinj'). setoid_rewrite elem_of_cons. destruct (bit_is_set p i) eqn:Eb.
    + destruct (decide (entry_name (slot p i) = nm)) as [En|En].
      * subst nm. rewrite lookup_insert_eq. split.
        -- intros [= <-]. exists i. split_and!; auto.
        -- intros (j&Hj&Hbj&Hnj&->).
           assert (j = i) as -> by (apply Hinj; try done; apply elem_of_cons; tauto). done.
      * rewrite lookup_insert_ne, IH by done. split.
        -- intros (j&?&?&?&?). eauto 10.
        -- intros (j&[->|?]&?&?&?); [done|eauto 10].
    + rewrite IH. split.
      * intros (j&?&?&?&?). eauto 10.
      * intros (j&[->|?]&?&?&?); [congruence|eauto 10].
Qed.

Lemma reg_map_of_size p ixs :
  names_inj p ixs → NoDup ixs →
  size (reg_map_of p ixs) = length (filter (λ i, bit_is_set p i = true) ixs).
Proof.
  intros Hinj Hnd. induction Hnd as [|i ixs Hi _ IH]; [done|].
  assert (Hinj' : names_inj p ixs) by (intros j k ??; apply Hinj; by apply elem_of_cons; right).
  specialize (IH Hinj'). cbn [reg_map_of foldr]. change (foldr _ ∅ ixs) with (reg_map_of p ixs).
  rewrite filter_cons. destruct (bit_is_set p i) eqn:Eb.
  - rewrite decide_True by done. rewrite map_size_insert_None.
    + cbn [length]. by rewrite IH.
    + apply eq_None_not_Some. intros [e He]. apply reg_map_of_lookup in He as (j&Hj&Hbj&Hnj&_); [|done].
      assert (i = j) as -> by (apply Hinj; try done; apply elem_of_cons; tauto). done.
  - by rewrite decide_False by done.
Qed.

Lemma in_seq_slots i : i ∈ seq 0 NSLOTS ↔ (i < NSLOTS)%nat.
Proof. rewrite elem_of_seq. lia. Qed.

Lemma wf_inj p : reg_wf p → names_inj p (seq 0 NSLOTS).
Proof. intros Hwf i j Hi%in_seq_slots Hj%in_seq_slots. by apply (wf_uniq _ Hwf). Qed.

(** The occupied slot that holds a name. *)
Definition holds_name (p : RegistryPayload) (nm : bytes) (i : nat) : Prop :=
  (i < NSLOTS)%nat ∧ bit_is_set p i = true ∧ entry_name (slot p i) = nm.

Lemma reg_map_lookup p nm e :
  names_inj p (seq 0 NSLOTS) →
  reg_map p !! nm = Some e ↔ ∃ i, holds_name p nm i ∧ e = erase (slot p i).
Proof.
  intros Hinj. unfold reg_map, holds_name. rewrite reg_map_of_lookup by done.
  setoid_rewrite in_seq_slots. split; intros (i&?); exists i; tauto.
Qed.

Lemma reg_map_None p nm :
  names_inj p (seq 0 NSLOTS) → reg_map p !! nm = None ↔ ∀ i, ¬ holds_name p nm i.
Proof.
  intros Hinj. rewrite eq_None_not_Some. split.
  - intros Hn i Hi. apply Hn. eexists. apply reg_map_lookup; eauto.
  - intros Hn [e (i&Hi&_)%reg_map_lookup]; [|done]. by eapply Hn.
Qed.

(** ** The scans *)

Lemma unregister_loop_spec n i nm p :
  (∀ k, (i ≤ k < i + n)%nat → slot_consistent p k) →
  match unregister_loop n i nm p with
  | Some k => (i ≤ k < i + n)%nat ∧ bit_is_set p k = true ∧ entry_name (slot p k) = nm
  | None => ∀ k, (i ≤ k < i + n)%nat → bit_is_set p k = true → entry_name (slot p k) ≠ nm
  end.
Proof.
  revert i. induction n as [|n IH]; intros i Hc; cbn [unregister_loop]; [lia|].
  assert (Hc' : ∀ k, (S i ≤ k < S i + n)%nat → slot_consistent p k) by (intros; apply Hc; lia).
  specialize (IH (S i) Hc').
  assert (Hskip : ¬ (bit_is_set p i = true ∧ entry_name (slot p i) = nm) →
    match unregister_loop n (S i) nm p with
    | Some k => (i ≤ k < i + S n)%nat ∧ bit_is_set p k = true ∧ entry_name (slot p k) = nm
    | None => ∀ k, (i ≤ k < i + S n)%nat → bit_is_set p k = true → entry_name (slot p k) ≠ nm
    end).
  { intros Hni. destruct (unregister_loop n (S i) nm p) as [k|].
    - destruct IH as (?&?&?). split_and!; try done; lia.
    - intros k Hk Hb Hn. destruct (decide (k = i)) as [->|]; [tauto|]. by apply (IH k); [lia| |]. }
  destruct (bit_is_set p i) eqn:Eb; cbn [negb]; [|by apply Hskip; intros []].
  destruct (Hc i) as [He _]; [lia|]. rewrite snapshot_even by done. unfold entry_name_equals.
  case_bool_decide as En; [split_and!; try done; lia|]. apply Hskip. by intros [].
Qed.

Lemma register_loop_spec n i free nm p :
  (∀ k, (i ≤ k < i + n)%nat → slot_consistent p k) →
  match register_loop n i free nm p with
  | FoundAt k => (i ≤ k < i + n)%nat ∧ bit_is_set p k = true ∧ entry_name (slot p k) = nm
  | FreeAt f =>
      (∀ k, (i ≤ k < i + n)%nat → bit_is_set p k = true → entry_name (slot p k) ≠ nm) ∧
      (free = Some f ∨ free = None ∧ (i ≤ f < i + n)%nat ∧ bit_is_set p f = false)
  | NoSlot =>
      (∀ k, (i ≤ k < i + n)%nat → bit_is_set p k = true ∧ entry_name (slot p k) ≠ nm) ∧ free = None
  end.
Proof.
  revert i free. induction n as [|n IH]; intros i free Hc; cbn [register_loop].
  { destruct free as [f|]; split; try done; try lia. by left. }
  assert (Hc' : ∀ k, (S i ≤ k < S i + n)%nat → slot_consistent p k) by (intros; apply Hc; lia).
  destruct (bit_is_set p i) eqn:Eb; cbn [negb].
  - destruct (Hc i) as [He _]; [lia|]. rewrite snapshot_even by done. unfold entry_name_equals.
    case_bool_decide as En; [split_and!; try done; lia|]. specialize (IH (S i) free Hc').
    destruct (register_loop n (S i) free nm p) as [k|f|].
    + destruct IH as (?&?&?). split_and!; try done; lia.
    + destruct IH as [Hn Hf]. split.
      * intros k Hk. destruct (decide (k = i)) as [->|]; [done|]. apply Hn. lia.
      * destruct Hf as [?|(?&?&?)]; [by left|]. right. split_and!; try done; lia.
    + destruct IH as [Hn ->]. split; [|done].
      intros k Hk. destruct (decide (k = i)) as [->|]; [done|]. apply Hn. lia.
  - specialize (IH (S i) (match free with None => Some i | _ => free end) Hc').
    destruct (register_loop n (S i) _ nm p) as [k|f|].
    + destruct IH as (?&?&?). split_and!; try done; lia.
    + destruct IH as [Hn Hf]. split.
      * intros k Hk. destruct (decide (k = i)) as [->|]; [congruence|]. apply Hn. lia.
      * destruct free as [g|]; destruct Hf as [[= ->]|(?&?&?)]; try done; [by left|].
        right. split_and!; try done; lia.
    + destruct IH as [_ ?]. by destruct free.
Qed.

(** ** Updates of the map *)

(** [p'] differs from [p] in slot [i] only. *)
Definition same_except (p p' : RegistryPayload) (i : nat) : Prop :=
  ∀ j, j ≠ i → bit_is_set p' j = bit_is_set p j ∧ slot p' j = slot p j.

Lemma holds_name_except p p' i nm j :
  same_except p p' i → j ≠ i → holds_name p' nm j ↔ holds_name p nm j.
Proof. intros Hs Hj. unfold holds_name. by destruct (Hs j Hj) as [-> ->]. Qed.

Lemma inj_except p p' i :
  same_except p p' i → names_inj p (seq 0 NSLOTS) →
  (bit_is_set p' i = true → ∀ j, j ≠ i → ¬ holds_name p (entry_name (slot p' i)) j) →
  names_inj p' (seq 0 NSLOTS).
Proof.
  intros Hs Hinj Hi j k Hj Hk Hbj Hbk Hn.
  assert (Hout : ∀ a, a ∈ seq 0 NSLOTS → a ≠ i → bit_is_set p' a = true → bit_is_set p' i = true →
    entry_name (slot p' a) ≠ entry_name (slot p' i)).
  { intros a Ha%in_seq_slots Hai Hba Hbi E. apply (Hi Hbi a Hai).
    apply (holds_name_except p p' i); [done|done|]. by split_and!. }
  destruct (decide (j = i)) as [->|Hji], (decide (k = i)) as [->|Hki]; [done| | |].
  - by destruct (Hout k Hk Hki Hbk Hbj).
  - by destruct (Hout j Hj Hji Hbj Hbk).
  - destruct (Hs j Hji) as [Ej Esj], (Hs k Hki) as [Ek Esk]. rewrite Ej, Ek, Esj, Esk in *. by apply Hinj.
Qed.

Lemma reg_map_insert p p' i :
  same_except p p' i → (i < NSLOTS)%nat → bit_is_set p' i = true →
  names_inj p (seq 0 NSLOTS) → names_inj p' (seq 0 NSLOTS) →
  (bit_is_set p i = true → entry_name (slot p i) = entry_name (slot p' i)) →
  reg_map p' = <[entry_name (slot p' i) := erase (slot p' i)]> (reg_map p).
Proof.
  intros Hs Hi Hb Hinj Hinj' Hsame. apply map_eq. intros nm. apply option_eq. intros e.
  rewrite reg_map_lookup by done. destruct (decide (nm = entry_name (slot p' i))) as [->|Hne].
  - rewrite lookup_insert_eq. split.
    + intros (j&(Hj&Hbj&Hnj)&->).
      assert (j = i) as -> by (apply Hinj'; rewrite ?in_seq_slots; done). done.
    + intros [= <-]. exists i. done.
  - rewrite lookup_insert_ne, reg_map_lookup by done. split.
    + intros (j&Hj&->). destruct (decide (j = i)) as [->|Hji]; [by destruct Hj as (_&_&<-)|].
      exists j. split; [by apply (holds_name_except p p' i)|]. by destruct (Hs j Hji) as [_ ->].
    + intros (j&Hj&->). destruct (decide (j = i)) as [->|Hji].
      { destruct Hj as (_&Hbi&<-). by rewrite (Hsame Hbi) in Hne. }
      exists j. split; [by apply (holds_name_except p p' i)|]. by destruct (Hs j Hji) as [_ ->].
Qed.

Lemma reg_map_delete p p' i :
  same_except p p' i → (i < NSLOTS)%nat → bit_is_set p i = true → bit_is_set p' i = false →
  names_inj p (seq 0 NSLOTS) → names_inj p' (seq 0 NSLOTS) →
  reg_map p' = delete (entry_name (slot p i)) (reg_map p).
Proof.
  intros Hs Hi Hb Hb' Hinj Hinj'. apply map_eq. intros nm. apply option_eq. intros e.
  rewrite reg_map_lookup by done. destruct (decide (nm = entry_name (slot p i))) as [->|Hne].
  - rewrite lookup_delete_eq. split; [|done]. intros (j&Hj&_).
    destruct (decide (j = i)) as [->|Hji]; [destruct Hj as (_&?&_); congruence|].
    apply (holds_name_except p p' i) in Hj as (Hj&Hbj&Hnj); [|done|done].
    destruct Hji. apply Hinj; rewrite ?in_seq_slots; done.
  - rewrite lookup_delete_ne, reg_map_lookup by done. split; intros (j&Hj&->); exists j.
    + destruct (decide (j = i)) as [->|Hji]; [destruct Hj as (_&?&_); congruence|].
      split; [by apply (holds_name_except p p' i)|]. by destruct (Hs j Hji) as [_ ->].
    + destruct (decide (j = i)) as [->|Hji]; [by destruct Hj as (_&_&<-)|].
      split; [by apply (holds_name_except p p' i)|]. by destruct (Hs j Hji) as [_ ->].
Qed.

Lemma reg_map_size_bound p : names_inj p (seq 0 NSLOTS) → (size (reg_map p) ≤ NSLOTS)%nat.
Proof.
  intros Hinj. unfold reg_map. rewrite reg_map_of_size by (done || apply NoDup_seq).
  etrans; [apply length_filter|]. by rewrite length_seq.
Qed.

Lemma filter_all {A} (P : A → Prop) `{!∀ x, Decision (P x)} (l : list A) :
  (∀ x, x ∈ l → P x) → filter P l = l.
Proof.
  induction l as [|x l IH]; intros Hl; [done|].
  rewrite filter_cons_True by (apply Hl; apply elem_of_cons; by left).
  f_equal. apply IH. intros y Hy. apply Hl. apply elem_of_cons. by right.
Qed.

Lemma reg_map_full p :
  names_inj p (seq 0 NSLOTS) → (∀ i, (i < NSLOTS)%nat → bit_is_set p i = true) →
  size (reg_map p) = NSLOTS.
Proof.
  intros Hinj Hall. unfold reg_map. rewrite reg_map_of_size by (done || apply NoDup_seq).
  rewrite filter_all; [apply length_seq|]. intros i Hi%in_seq_slots. by apply Hall.
Qed.

(** ** Registration *)

(** Filling slot [i] with a published entry, its bit set and [c] as the count. *)
Definition put_entry (p : RegistryPayload) (i : nat) (c : Z) (e : RegistryEntry) : RegistryPayload :=
  set_slot (set_count (set_bit p i) c) i (publish_slot (slot p i) e).

Lemma publish_typed sl e : name_typed e → name_typed (publish_slot sl e) ∧ 0 ≤ seq_storage (publish_slot sl e) < 2 ^ 32.
Proof. intros H. split; [done|]. simpl. apply u32_range. Qed.

Lemma set_bit_typed p i : payload_typed p → payload_typed (set_bit p i).
Proof. intros. apply typed_with_bitmap; [done|]. apply u8_range. Qed.

Lemma clear_bit_typed p i : payload_typed p → payload_typed (clear_bit p i).
Proof. intros. apply typed_with_bitmap; [done|]. apply u8_range. Qed.

(** Setting a bit that is set changes nothing. *)
Lemma set_bit_id p i :
  payload_typed p → (i < NSLOTS)%nat → bit_is_set p i = true → set_bit p i = p.
Proof.
  intros Ht Hi Hb. pose proof (typed_index p i Ht Hi) as Hx. destruct p as [c bm sl].
  unfold set_bit, with_bitmap. cbn [count_storage bitmap slots] in *. f_equal.
  apply list_insert_id. rewrite bit_is_set_testbit in Hb. unfold bitmap_byte in *. cbn [bitmap] in *.
  destruct (lookup_lt_is_Some_2 bm (i / 8)) as [b Eb]; [done|].
  rewrite Eb. rewrite (nth_lookup_Some _ _ _ _ Eb) in *. f_equal.
  pose proof (Forall_lookup_1 _ _ _ _ (pt_bytes _ Ht) Eb) as Hbyte. cbn in Hbyte.
  rewrite <-(u8_small b) at 1 by done. f_equal. symmetry. apply Z.bits_inj'. intros n Hn.
  rewrite Z.lor_spec, Z.shiftl_1_l, Z.pow2_bits_eqb by lia.
  destruct (Z.eqb_spec (Z.of_nat (i mod 8)) n) as [<-|]; [by rewrite Hb|by rewrite orb_false_r].
Qed.

Lemma slot_set_bit p i j : slot (set_bit p i) j = slot p j.
Proof. done. Qed.

Lemma put_entry_bit p i c e j :
  payload_typed p → (i < NSLOTS)%nat →
  bit_is_set (put_entry p i c e) j = (bool_decide (i = j) || bit_is_set p j)%bool.
Proof. intros Ht Hi. change (bit_is_set (put_entry p i c e) j) with (bit_is_set (set_bit p i) j).
  apply bit_set_bit. by apply typed_index.
Qed.

Lemma put_entry_slot p i c e j :
  payload_typed p → (i < NSLOTS)%nat →
  slot (put_entry p i c e) j = if decide (i = j) then publish_slot (slot p i) e else slot p j.
Proof.
  intros Ht Hi. unfold put_entry.
  rewrite slot_set_slot by (done || by apply typed_set_count, set_bit_typed). done.
Qed.

Lemma put_entry_except p i c e :
  payload_typed p → (i < NSLOTS)%nat → same_except p (put_entry p i c e) i.
Proof.
  intros Ht Hi j Hj. rewrite put_entry_bit, put_entry_slot by done.
  by rewrite bool_decide_false, decide_False by done.
Qed.

(** Storing an entry where its name is, or in a free slot when it is nowhere. *)
Lemma put_entry_wf p i c e :
  reg_wf p → (i < NSLOTS)%nat → entry_ok e →
  (∀ j, j ≠ i → ¬ holds_name p (entry_name e) j) →
  (bit_is_set p i = true → entry_name (slot p i) = entry_name e) →
  c = (if bit_is_set p i then count_storage p else count_storage p + 1) →
  reg_wf (put_entry p i c e) ∧ reg_map (put_entry p i c e) = <[entry_name e := erase e]> (reg_map p).
Proof.
  intros Hwf Hi [Hnt Hhn] Hno Hsame Hc. pose proof (wf_typed _ Hwf) as Ht.
  pose proof (put_entry_except p i c e Ht Hi) as Hex.
  assert (Hsl : slot (put_entry p i c e) i = publish_slot (slot p i) e)
    by by rewrite put_entry_slot, decide_True.
  assert (Hb : bit_is_set (put_entry p i c e) i = true)
    by by rewrite put_entry_bit, bool_decide_true.
  assert (Hinj : names_inj (put_entry p i c e) (seq 0 NSLOTS)).
  { eapply inj_except; [done|by apply wf_inj|]. intros _ j Hj. rewrite Hsl. by apply Hno. }
  assert (Hmap : reg_map (put_entry p i c e) = <[entry_name e := erase e]> (reg_map p)).
  { rewrite (reg_map_insert p _ i); [by rewrite Hsl|done..|by apply wf_inj|done|].
    intros Hbi. rewrite Hsl. by apply Hsame. }
  split; [|done]. split.
  - unfold put_entry. apply typed_set_slot; [by apply typed_set_count, set_bit_typed|..]; by apply publish_typed.
  - intros j Hj. unfold slot_consistent. rewrite put_entry_bit, put_entry_slot by done.
    case_decide as E.
    + subst j. rewrite bool_decide_true by done. split; [|done]. cbn.
      apply u32_even_step. by apply (wf_slot _ Hwf).
    + rewrite bool_decide_false by done. by apply (wf_slot _ Hwf).
  - intros j k Hj Hk. apply Hinj; by apply in_seq_slots.
  - rewrite Hmap. cbn [put_entry set_slot set_count count_storage]. rewrite Hc, (wf_count _ Hwf).
    destruct (bit_is_set p i) eqn:Eb.
    + rewrite map_size_insert_Some; [done|]. exists (erase (slot p i)).
      apply reg_map_lookup; [by apply wf_inj|]. exists i. split; [|done].
      split_and!; try done. by apply Hsame.
    + rewrite map_size_insert_None; [lia|]. apply reg_map_None; [by apply wf_inj|].
      intros j Hj. destruct (decide (j = i)) as [->|Hne]; [|by eapply Hno].
      destruct Hj as (_&?&_). congruence.
Qed.

Lemma register_locked_wf entry p :
  reg_wf p → entry_ok entry →
  let '(r, p') := register_locked entry p in
  reg_wf p' ∧
  ((r = Value tt ∧ reg_map p' = <[entry_name entry := erase entry]> (reg_map p)) ∨
   (r = Error QuotaExceeded ∧ p' = p ∧ reg_map p !! entry_name entry = None ∧
    size (reg_map p) = NSLOTS)).
Proof.
  intros Hwf Hok. unfold register_locked.
  pose proof (register_loop_spec NSLOTS 0 None (entry_name entry) p) as Hs.
  pose proof (reg_map_size_bound p (wf_inj _ Hwf)) as Hsz.
  assert (HN : Z.of_nat NSLOTS = 1024) by done. pose proof (wf_count _ Hwf) as Hcnt.
  destruct (register_loop NSLOTS 0 None (entry_name entry) p) as [i|i|].
  - destruct Hs as (Hi&Hb&Hn); [intros k Hk; apply (wf_slot _ Hwf); lia|].
    destruct (put_entry_wf p i (count_storage p) entry) as [H1 H2]; try done; [lia| |by rewrite Hb|].
    { intros j Hj (Hj1&Hj2&Hj3). apply Hj. apply (wf_uniq _ Hwf); try done; [lia|congruence]. }
    assert (E : put_entry p i (count_storage p) entry = set_slot p i (publish_slot (slot p i) entry)).
    { unfold put_entry. rewrite set_bit_id; [by destruct p|apply Hwf|lia|done]. }
    rewrite <-E. split; [done|]. by left.
  - destruct Hs as [Hn [|(_&Hi&Hb)]]; [intros k Hk; apply (wf_slot _ Hwf); lia|done|].
    assert (Hno : ∀ j, ¬ holds_name p (entry_name entry) j).
    { intros j (Hj1&Hj2&Hj3). apply (Hn j); [lia|done|done]. }
    destruct (put_entry_wf p i (u32 (count_storage p + 1)) entry) as [H1 H2]; try done; [lia|by rewrite Hb| |].
    { rewrite Hb. apply u32_small. lia. }
    split; [exact H1|]. by left.
  - destruct Hs as [Hall _]; [intros k Hk; apply (wf_slot _ Hwf); lia|]. split; [done|]. right.
    split_and!; try done.
    + apply reg_map_None; [by apply wf_inj|]. intros j (Hj1&Hj2&Hj3). apply (Hall j); [lia|done].
    + apply reg_map_full; [by apply wf_inj|]. intros j Hj. apply Hall. lia.
Qed.

(** ** Removal *)

(** Emptying slot [i], its bit cleared and [c] as the count. *)
Definition drop_entry (p : RegistryPayload) (i : nat) (c : Z) : RegistryPayload :=
  set_count (clear_bit (set_slot p i (publish_slot (slot p i) empty_entry)) i) c.

Lemma empty_entry_typed : name_typed empty_entry.
Proof. done. Qed.

Lemma drop_entry_bit p i c j :
  payload_typed p → (i < NSLOTS)%nat →
  bit_is_set (drop_entry p i c) j = (negb (bool_decide (i = j)) && bit_is_set p j)%bool.
Proof.
  intros Ht Hi. unfold drop_entry. set (q := set_slot p i _).
  change (bit_is_set (set_count (clear_bit q i) c) j) with (bit_is_set (clear_bit q i) j).
  change (bit_is_set p j) with (bit_is_set q j). apply bit_clear_bit. by apply (typed_index p).
Qed.

Lemma drop_entry_slot p i c j :
  payload_typed p → (i < NSLOTS)%nat →
  slot (drop_entry p i c) j =
  if decide (i = j) then publish_slot (slot p i) empty_entry else slot p j.
Proof.
  intros Ht Hi. unfold drop_entry. set (q := set_slot p i _).
  change (slot (set_count (clear_bit q i) c) j) with (slot q j). by apply slot_set_slot.
Qed.

Lemma drop_entry_wf p i :
  reg_wf p → (i < NSLOTS)%nat → bit_is_set p i = true →
  let p' := drop_entry p i (u32 (count_storage p - 1)) in
  reg_wf p' ∧ reg_map p' = delete (entry_name (slot p i)) (reg_map p).
Proof.
  intros Hwf Hi Hb p'. pose proof (wf_typed _ Hwf) as Ht.
  assert (Hex : same_except p p' i).
  { intros j Hj. unfold p'. rewrite drop_entry_bit, drop_entry_slot by done.
    by rewrite bool_decide_false, decide_False by done. }
  assert (Hb' : bit_is_set p' i = false)
    by (unfold p'; rewrite drop_entry_bit, bool_decide_true by done; done).
  assert (Hinj : names_inj p' (seq 0 NSLOTS)).
  { eapply inj_except; [done|by apply wf_inj|]. by rewrite Hb'. }
  assert (Hmap : reg_map p' = delete (entry_name (slot p i)) (reg_map p))
    by (apply reg_map_delete; try done; by apply wf_inj).
  split; [|done]. split.
  - apply typed_set_count, clear_bit_typed, typed_set_slot; [done|..]; by apply publish_typed.
  - intros j Hj. unfold slot_consistent, p'. rewrite drop_entry_bit, drop_entry_slot by done.
    case_decide as E.
    + subst j. rewrite bool_decide_true by done. split; [|done]. cbn.
      apply u32_even_step. by apply (wf_slot _ Hwf).
    + rewrite bool_decide_false by done. by apply (wf_slot _ Hwf).
  - intros j k Hj Hk. apply Hinj; by apply in_seq_slots.
  - rewrite Hmap, map_size_delete_Some.
    2:{ exists (erase (slot p i)). apply reg_map_lookup; [by apply wf_inj|]. exists i. done. }
    cbn [p' drop_entry set_count count_storage]. rewrite (wf_count _ Hwf).
    pose proof (reg_map_size_bound p (wf_inj _ Hwf)) as Hsz.
    assert (HN : Z.of_nat NSLOTS = 1024) by done.
    assert (size (reg_map p) ≠ 0%nat).
    { intros E%map_size_empty_inv.
      apply (proj1 (reg_map_None p (entry_name (slot p i)) (wf_inj _ Hwf))) with (i := i); [|done].
      by rewrite E, lookup_empty. }
    rewrite u32_small; lia.
Qed.

Lemma unregister_locked_wf nm p :
  reg_wf p →
  let '(r, p') := unregister_locked nm p in
  reg_wf p' ∧
  ((r = Value tt ∧ is_Some (reg_map p !! nm) ∧ reg_map p' = delete nm (reg_map p)) ∨
   (r = Error NotFound ∧ p' = p ∧ reg_map p !! nm = None)).
Proof.
  intros Hwf. unfold unregister_locked. pose proof (unregister_loop_spec NSLOTS 0 nm p) as Hs.
  destruct (unregister_loop NSLOTS 0 nm p) as [i|].
  - destruct Hs as (Hi&Hb&Hn); [intros k Hk; apply (wf_slot _ Hwf); lia|].
    destruct (drop_entry_wf p i Hwf) as [H1 H2]; [lia|done|]. rewrite Hn in H2.
    split; [exact H1|]. left. split_and!; [done| |exact H2].
    exists (erase (slot p i)). apply reg_map_lookup; [by apply wf_inj|]. exists i. split; [|done].
    split_and!; [lia|done|done].
  - split; [done|]. right. split_and!; try done. apply reg_map_None; [by apply wf_inj|].
    intros j (Hj1&Hj2&Hj3). apply (Hs (λ k Hk, wf_slot _ Hwf k (proj2 Hk)) j); [lia|done|done].
Qed.

(** ** Recovery *)

Lemma clear_slot_bit p i j :
  payload_typed p → (i < NSLOTS)%nat →
  bit_is_set (clear_slot_for_recovery p i) j = (negb (bool_decide (i = j)) && bit_is_set p j)%bool.
Proof.
  intros Ht Hi. unfold clear_slot_for_recovery. set (q := set_slot p i _).
  change (bit_is_set p j) with (bit_is_set q j). apply bit_clear_bit. by apply (typed_index p).
Qed.

Lemma clear_slot_slot p i j :
  payload_typed p → (i < NSLOTS)%nat →
  slot (clear_slot_for_recovery p i) j =
  if decide (i = j)
  then set_entry_seq (Z.land (u32 (seq_storage (slot p i) + 2)) (u32 (Z.lnot 1))) empty_entry
  else slot p j.
Proof.
  intros Ht Hi. unfold clear_slot_for_recovery. set (q := set_slot p i _).
  change (slot (clear_bit q i) j) with (slot q j). by apply slot_set_slot.
Qed.

Lemma even_mask s : Z.land (Z.land (u32 s) (u32 (Z.lnot 1))) 1 = 0 ∧ 0 ≤ Z.land (u32 s) (u32 (Z.lnot 1)) < 2 ^ 32.
Proof.
  split.
  - rewrite <-Z.land_assoc. replace (Z.land (u32 (Z.lnot 1)) 1) with 0 by done. apply Z.land_0_r.
  - apply land_range_r; [done|]. apply u32_range.
Qed.

Lemma clear_slot_typed p i : payload_typed p → payload_typed (clear_slot_for_recovery p i).
Proof.
  intros Ht. apply clear_bit_typed, typed_set_slot; [done|done|]. cbn. apply even_mask.
Qed.

(** Whether the repair clears slot [i]. *)
Definition slot_damaged (p : RegistryPayload) (i : nat) : bool :=
  (negb (Z.land (seq_storage (slot p i)) 1 =? 0) ||
   (bit_is_set p i && negb (has_name (slot p i))) ||
   (negb (bit_is_set p i) && has_name (slot p i)))%bool.

Lemma slot_damaged_spec p i : slot_damaged p i = false ↔ slot_consistent p i.
Proof.
  unfold slot_damaged, slot_consistent. rewrite !orb_false_iff, negb_false_iff, Z.eqb_eq.
  destruct (bit_is_set p i), (has_name (slot p i)); simpl; intuition done.
Qed.

(** A slot without a name: all 64 bytes are zero. *)
Definition blank (e : RegistryEntry) : Prop := e_name e = replicate (Z.to_nat SHMFX_NAME_BYTES) 0.

(** What the repair does to slots [i], ..., [i+n-1]. *)
Lemma recover_loop_spec n i count p :
  payload_typed p → (i + n ≤ NSLOTS)%nat →
  let p' := recover_loop n i count p in
  payload_typed p' ∧
  (∀ j, (j < i ∨ i + n ≤ j)%nat → bit_is_set p' j = bit_is_set p j ∧ slot p' j = slot p j) ∧
  (∀ j, (i ≤ j < i + n)%nat → slot_consistent p' j ∧
     (slot_damaged p j = false → bit_is_set p' j = bit_is_set p j ∧ slot p' j = slot p j) ∧
     (slot_damaged p j = true → bit_is_set p' j = false ∧ blank (slot p' j))) ∧
  count_storage p' = count + Z.of_nat (length (filter (λ j, bit_is_set p' j = true) (seq i n))).
Proof.
  revert i count p. induction n as [|n IH]; intros i count p Ht Hn; cbn [recover_loop].
  { split_and!; [by apply typed_set_count|done|lia|]. simpl. lia. }
  fold (slot_damaged p i). destruct (slot_damaged p i) eqn:Ed.
  - destruct (IH (S i) count (clear_slot_for_recovery p i)) as (H1&H2&H3&H4);
      [by apply clear_slot_typed|lia|].
    set (p' := recover_loop n (S i) count (clear_slot_for_recovery p i)) in *.
    assert (Hi : (i < NSLOTS)%nat) by lia.
    destruct (H2 i) as [Hbi Hsi]; [lia|].
    rewrite clear_slot_bit, bool_decide_true in Hbi by done. cbn [negb andb] in Hbi.
    rewrite clear_slot_slot, decide_True in Hsi by done.
    split_and!; [done| | |].
    + intros j Hj. destruct (H2 j) as [-> ->]; [lia|]. rewrite clear_slot_bit, clear_slot_slot by done.
      by rewrite bool_decide_false, decide_False by lia.
    + intros j Hj. destruct (decide (j = i)) as [->|Hne].
      * split_and!; [|congruence|]; [unfold slot_consistent|]; rewrite Hbi, Hsi; [|done].
        split; [|done]. cbn. apply even_mask.
      * destruct (H3 j) as (Hc&Hk&Hd); [lia|]. unfold slot_damaged in *.
        rewrite clear_slot_bit, clear_slot_slot in Hk, Hd by done.
        rewrite bool_decide_false, decide_False in Hk, Hd by done. cbn [negb andb] in Hk, Hd. done.
    + rewrite H4. cbn [seq]. rewrite filter_cons_False by congruence. done.
  - destruct (IH (S i) (if bit_is_set p i then count + 1 else count) p) as (H1&H2&H3&H4); [done|lia|].
    set (p' := recover_loop n (S i) _ p) in *. destruct (H2 i) as [Hbi Hsi]; [lia|].
    split_and!; [done| | |].
    + intros j Hj. apply H2. lia.
    + intros j Hj. destruct (decide (j = i)) as [->|Hne]; [|apply H3; lia].
      split_and!; [|done|congruence]. apply slot_damaged_spec in Ed. unfold slot_consistent in *.
      by rewrite Hbi, Hsi.
    + rewrite H4. cbn [seq]. rewrite filter_cons, Hbi. destruct (bit_is_set p i).
      * rewrite decide_True by done. cbn [length]. lia.
      * by rewrite decide_False by done.
Qed.

(** Names of undamaged occupied slots are distinct. *)
Definition undamaged_inj (p : RegistryPayload) : Prop :=
  ∀ i j, (i < NSLOTS)%nat → (j < NSLOTS)%nat → slot_damaged p i = false → slot_damaged p j = false →
         bit_is_set p i = true → bit_is_set p j = true →
         entry_name (slot p i) = entry_name (slot p j) → i = j.

Lemma recover_wf p :
  payload_typed p → undamaged_inj p →
  reg_wf (recover_registry_invariant p) ∧
  ∀ nm e, reg_map (recover_registry_invariant p) !! nm = Some e ↔
          ∃ i, holds_name p nm i ∧ slot_damaged p i = false ∧ e = erase (slot p i).
Proof.
  intros Ht Hu. unfold recover_registry_invariant.
  destruct (recover_loop_spec NSLOTS 0 0 p Ht) as (H1&_&H3&H4); [lia|].
  set (p' := recover_loop NSLOTS 0 0 p) in *.
  assert (Hkeep : ∀ i, (i < NSLOTS)%nat → bit_is_set p' i = true →
    slot_damaged p i = false ∧ bit_is_set p i = true ∧ slot p' i = slot p i).
  { intros i Hi Hb. destruct (H3 i) as (_&Hk&Hd); [lia|]. destruct (slot_damaged p i) eqn:E.
    - destruct (Hd eq_refl). congruence.
    - destruct (Hk eq_refl) as [Eb Es]. by rewrite <-Eb. }
  assert (Hinj : names_inj p' (seq 0 NSLOTS)).
  { intros i j Hi%in_seq_slots Hj%in_seq_slots Hbi Hbj Hn.
    destruct (Hkeep i Hi Hbi) as (?&?&Ei), (Hkeep j Hj Hbj) as (?&?&Ej). rewrite Ei, Ej in Hn. by apply Hu. }
  split.
  - split; [done| | |].
    + intros i Hi. apply H3. lia.
    + intros i j Hi Hj. apply Hinj; by apply in_seq_slots.
    + rewrite H4. unfold reg_map. rewrite reg_map_of_size by (done || apply NoDup_seq). lia.
  - intros nm e. rewrite reg_map_lookup by done. split.
    + intros (i&(Hi&Hb&Hn)&->). destruct (Hkeep i Hi Hb) as (?&?&Es). rewrite Es in *.
      exists i. split_and!; try done.
    + intros (i&(Hi&Hb&Hn)&Hd&->). destruct (H3 i) as (_&Hk&_); [lia|].
      destruct (Hk Hd) as [Eb Es]. exists i. unfold holds_name. by rewrite Eb, Es.
Qed.

(** ** Listing *)

Definition list_spec (prefix : bytes) (p : RegistryPayload) (ixs : list nat) : list RegistryEntry :=
  filter (λ e, has_prefix prefix e = true) (slot p <$> filter (λ i, bit_is_set p i = true) ixs).

Lemma list_loop_spec `{!RobustMutex Mx} n i prefix p (m : Mx) :
  (∀ k, (i ≤ k < i + n)%nat → slot_consistent p k) →
  list_loop n i prefix p m = (list_spec prefix p (seq i n), p, m).
Proof.
  revert i. induction n as [|n IH]; intros i Hc; cbn [list_loop]; [done|].
  assert (Hc' : ∀ k, (S i ≤ k < S i + n)%nat → slot_consistent p k) by (intros; apply Hc; lia).
  unfold list_spec. cbn [seq]. rewrite filter_cons. destruct (bit_is_set p i) eqn:Eb; cbn [negb].
  - destruct (Hc i) as [He _]; [lia|]. rewrite snapshot_even, IH by done. rewrite decide_True by done.
    rewrite fmap_cons, filter_cons. unfold list_spec. destruct (has_prefix prefix (slot p i)).
    + by rewrite decide_True.
    + by rewrite decide_False.
  - rewrite IH by done. by rewrite decide_False.
Qed.

Lemma list_spec_elem prefix p e :
  reg_wf p →
  e ∈ erase <$> list_spec prefix p (seq 0 NSLOTS) ↔
  ∃ nm, reg_map p !! nm = Some e ∧ take (length prefix) nm = prefix.
Proof.
  intros Hwf. rewrite list_elem_of_fmap. unfold list_spec.
  setoid_rewrite list_elem_of_filter. setoid_rewrite list_elem_of_fmap.
  setoid_rewrite list_elem_of_filter. setoid_rewrite in_seq_slots.
  setoid_rewrite reg_map_lookup; [|by apply wf_inj]. split.
  - intros (x&->&Hp&i&->&Hb&Hi). exists (entry_name (slot p i)). unfold has_prefix in Hp.
    apply bool_decide_eq_true in Hp. split; [|done]. exists i. done.
  - intros (nm&(i&(Hi&Hb&Hn)&->)&Hp). exists (slot p i). split; [done|]. split; [|by exists i].
    unfold has_prefix. rewrite Hn. by apply bool_decide_true.
Qed.

(** The listed entries are the entries of the map under the prefix, each once. *)
Lemma list_spec_perm_of prefix p ixs :
  NoDup ixs → names_inj p ixs →
  erase <$> list_spec prefix p ixs ≡ₚ
  (map_to_list (filter (λ '(nm, _), take (length prefix) nm = prefix) (reg_map_of p ixs))).*2.
Proof.
  induction 1 as [|i ixs Hni _ IH]; intros Hinj.
  { cbn [reg_map_of foldr]. by rewrite map_filter_empty, map_to_list_empty. }
  assert (Hinj' : names_inj p ixs) by (intros j k ??; apply Hinj; by apply elem_of_cons; right).
  specialize (IH Hinj'). unfold list_spec in *. rewrite filter_cons.
  cbn [reg_map_of foldr]. change (foldr _ ∅ ixs) with (reg_map_of p ixs).
  destruct (bit_is_set p i) eqn:Eb; [|by rewrite decide_False]. rewrite decide_True by done.
  assert (Hnone : reg_map_of p ixs !! entry_name (slot p i) = None).
  { destruct (reg_map_of p ixs !! entry_name (slot p i)) as [e|] eqn:E; [|done].
    apply reg_map_of_lookup in E as (j&Hj&Hbj&Hnj&_); [|done]. destruct Hni.
    replace i with j; [done|]. apply Hinj; try done; apply elem_of_cons; tauto. }
  rewrite fmap_cons, filter_cons. destruct (has_prefix prefix (slot p i)) eqn:Ep.
  - rewrite decide_True by done. rewrite map_filter_insert_True by by apply bool_decide_eq_true in Ep.
    rewrite map_to_list_insert, !fmap_cons by by apply map_lookup_filter_None; left. by rewrite IH.
  - rewrite decide_False by done.
    rewrite map_filter_insert_False by by apply bool_decide_eq_false in Ep.
    by rewrite delete_id.
Qed.

Lemma list_spec_perm prefix p :
  reg_wf p →
  erase <$> list_spec prefix p (seq 0 NSLOTS) ≡ₚ
  (map_to_list (filter (λ '(nm, _), take (length prefix) nm = prefix) (reg_map p))).*2.
Proof. intros Hwf. apply list_spec_perm_of; [apply NoDup_seq|by apply wf_inj]. Qed.

(** ** The registry under its mutex *)

Section locked.
Context {Mx : Type} `{!RobustMutex Mx, !RobustMutexLaws Mx}.

(** The payload an operation works on: the one in memory, or its repair when the last holder of
    the mutex died. *)
Inductive reg_usable (r : Registry Mx) : RegistryPayload → Prop :=
  | usable_free :
      rg_valid r = true → mx_state (rg_mutex r) = MxFree → reg_wf (rg_payload r) →
      reg_usable r (rg_payload r)
  | usable_abandoned :
      rg_valid r = true → mx_state (rg_mutex r) = MxAbandoned → payload_typed (rg_payload r) →
      undamaged_inj (rg_payload r) → reg_usable r (recover_registry_invariant (rg_payload r)).

Lemma lock_usable r p :
  reg_usable r p →
  reg_wf p ∧ rg_valid r = true ∧
  ∃ g m, lock_registry_control (rg_payload r) (rg_mutex r) = (Value g, p, m) ∧
         mx_state (ShmMutexGuard.reset g m).2 = MxFree.
Proof.
  intros [Hv Hm Hwf|Hv Hm Ht Hu]; (split; [first [done|by apply recover_wf]|]); (split; [done|]);
    unfold lock_registry_control, ShmMutexGuard.make.
  - destruct (law_lock_free _ Hm) as [E1 E2]. destruct (mx_lock (rg_mutex r)) as [rc m1].
    cbn [fst snd] in *. subst rc. cbn. do 2 eexists. split; [done|]. cbn. by apply law_unlock.
  - destruct (law_lock_abandoned _ Hm) as [E1 E2]. destruct (mx_lock (rg_mutex r)) as [rc m1].
    cbn [fst snd] in *. subst rc. cbn. unfold ShmMutexGuard.mark_consistent. cbn.
    destruct (law_consistent _ E2) as [E3 E4]. destruct (mx_consistent m1) as [b m2].
    cbn [fst snd] in *. subst b. do 2 eexists. split; [done|]. cbn. by apply law_unlock.
Qed.

Lemma locked_operation_usable f r p :
  reg_usable r p →
  ∃ m, locked_operation f r = ((f p).1, mkRegistry true (f p).2 m) ∧ mx_state m = MxFree.
Proof.
  intros Hu. destruct (lock_usable r p Hu) as (_&Hv&g&m&E&Hm). unfold locked_operation.
  rewrite Hv, E. cbn [negb]. destruct (f p) as [res p']. eauto.
Qed.
End locked.

(** ** The empty registry *)

Lemma fresh_slot i : slot fresh_payload i = empty_entry.
Proof.
  unfold slot, fresh_payload. cbn [slots]. rewrite nth_lookup.
  destruct (replicate NSLOTS empty_entry !! i) eqn:E; [|done]. apply lookup_replicate in E as [-> _]. done.
Qed.

Lemma fresh_bit i : bit_is_set fresh_payload i = false.
Proof.
  rewrite bit_is_set_testbit. unfold bitmap_byte, fresh_payload. cbn [bitmap]. rewrite nth_lookup.
  destruct (replicate _ 0 !! (i / 8)%nat) eqn:E; [apply lookup_replicate in E as [-> _]|];
    apply Z.bits_0.
Qed.

Lemma fresh_map : reg_map fresh_payload = ∅.
Proof.
  unfold reg_map. generalize (seq 0 NSLOTS) as l. induction l as [|i l IH]; [done|].
  cbn [reg_map_of foldr]. by rewrite fresh_bit.
Qed.

Lemma fresh_wf : reg_wf fresh_payload.
Proof.
  split.
  - split; cbn [fresh_payload bitmap slots].
    + apply length_replicate.
    + by apply Forall_replicate.
    + apply length_replicate.
    + by apply Forall_replicate.
    + by apply Forall_replicate.
  - intros i _. unfold slot_consistent. by rewrite fresh_slot, fresh_bit.
  - intros i j _ _ H. by rewrite fresh_bit in H.
  - by rewrite fresh_map.
Qed.
