(* ===== verification/RegistryCrash.v ===== *)
(** * Deaths of lock holders inside the registry

    The payloads a holder of the control mutex can leave in shared memory when it dies inside
    [register_segment], [unregister] or the repair itself. The structure assignments of
    [publish_slot] and [clear_slot_for_recovery] copy their bytes in any order and can stop after
    any of them. The repair then finds one slot whose name may have been cut short. *)

From S2P Require Import Prelude Types Sync Security Lifecycle Registry.

(** ** Structure assignment, byte by byte *)

(** [old] after the bytes selected by [sel] have been overwritten by those of [new]; [off] is the
    offset of the field in the structure. *)
Fixpoint torn_bytes (sel : nat → bool) (off : nat) (old new : bytes) : bytes :=
  match old, new with
  | a :: old', b :: new' => (if sel off then b else a) :: torn_bytes sel (S off) old' new'
  | _, _ => []
  end.

Definition torn_uint (n : nat) (sel : nat → bool) (off : nat) (old new : Z) : Z :=
  le_int (torn_bytes sel off (le_bytes n old) (le_bytes n new)).

(** The assignment [dst = src] of two [RegistryEntry], under way. *)
Definition copy_bytes (sel : nat → bool) (dst src : RegistryEntry) : RegistryEntry :=
  mkRegistryEntry
    (torn_uint 4 sel 0 (seq_storage dst) (seq_storage src))
    (torn_bytes sel 8 (e_name dst) (e_name src))
    (torn_uint 8 sel 72 (e_total_size dst) (e_total_size src))
    (torn_uint 4 sel 80 (e_segment_type dst) (e_segment_type src))
    (torn_uint 4 sel 84 (e_owner_pid dst) (e_owner_pid src))
    (torn_uint 8 sel 88 (e_owner_start_time dst) (e_owner_start_time src))
    (torn_uint 4 sel 96 (e_flags dst) (e_flags src))
    (torn_uint 8 sel 104 (e_created_at_ns dst) (e_created_at_ns src))
    (torn_uint 8 sel 112 (e_last_seen_ns dst) (e_last_seen_ns src)).

(** What a slot holds while [publish_slot] runs: the odd sequence, the structure assignment under
    way, the odd sequence again, the even one. *)
Inductive publish_state (sl source : RegistryEntry) : RegistryEntry → Prop :=
  | ps_begin : publish_state sl source (set_entry_seq (u32 (seq_storage sl + 1)) sl)
  | ps_copying sel :
      publish_state sl source (copy_bytes sel (set_entry_seq (u32 (seq_storage sl + 1)) sl) source)
  | ps_odd : publish_state sl source (set_entry_seq (u32 (seq_storage sl + 1)) source)
  | ps_even : publish_state sl source (publish_slot sl source).

(** Likewise while [clear_slot_for_recovery] runs. *)
Inductive clear_state (sl : RegistryEntry) : RegistryEntry → Prop :=
  | cs_begin : clear_state sl (set_entry_seq (Z.lor (seq_storage sl) 1) sl)
  | cs_copying sel :
      clear_state sl (copy_bytes sel (set_entry_seq (Z.lor (seq_storage sl) 1) sl) empty_entry)
  | cs_even :
      clear_state sl
        (set_entry_seq (Z.land (u32 (seq_storage sl + 2)) (u32 (Z.lnot 1))) empty_entry).

(** ** Crash points *)

(** The payloads a holder of the mutex leaves when it dies inside [register_segment]. *)
Inductive register_crash (entry : RegistryEntry) (p : RegistryPayload) : RegistryPayload → Prop :=
  | rc_start : register_crash entry p p
  | rc_replace i e :
      register_loop NSLOTS 0 None (entry_name entry) p = FoundAt i →
      publish_state (slot p i) entry e → register_crash entry p (set_slot p i e)
  | rc_bit i :
      register_loop NSLOTS 0 None (entry_name entry) p = FreeAt i →
      register_crash entry p (set_bit p i)
  | rc_insert i e :
      register_loop NSLOTS 0 None (entry_name entry) p = FreeAt i →
      let p2 := set_count (set_bit p i) (u32 (count_storage p + 1)) in
      e = slot p2 i ∨ publish_state (slot p2 i) entry e → register_crash entry p (set_slot p2 i e).

(** Likewise inside [unregister]. *)
Inductive unregister_crash (nm : bytes) (p : RegistryPayload) : RegistryPayload → Prop :=
  | uc_start : unregister_crash nm p p
  | uc_publish i e :
      unregister_loop NSLOTS 0 nm p = Some i →
      publish_state (slot p i) empty_entry e → unregister_crash nm p (set_slot p i e)
  | uc_clear i c :
      unregister_loop NSLOTS 0 nm p = Some i →
      c = count_storage p ∨ c = u32 (count_storage p - 1) →
      unregister_crash nm p
        (set_count (clear_bit (set_slot p i (publish_slot (slot p i) empty_entry)) i) c).

(** The payload after the first [n] turns of the loop of [recover_registry_invariant]. *)
Definition repaired (n : nat) (q : RegistryPayload) : RegistryPayload :=
  set_count (recover_loop n 0 0 q) (count_storage q).

(** Likewise inside the repair. *)
Inductive repair_crash (q : RegistryPayload) : RegistryPayload → Prop :=
  | rp_between n : (n ≤ NSLOTS)%nat → repair_crash q (repaired n q)
  | rp_clearing n e :
      (n < NSLOTS)%nat → slot_damaged (repaired n q) n = true →
      clear_state (slot (repaired n q) n) e → repair_crash q (set_slot (repaired n q) n e)
  | rp_counted : repair_crash q (recover_registry_invariant q).

(** ** Sound payloads *)

Definition occupied (p : RegistryPayload) : nat :=
  length (filter (λ i, bit_is_set p i = true) (seq 0 NSLOTS)).

(** What every payload between two operations satisfies, deaths of holders included: even
    sequences, a name exactly in the occupied slots, an exact count, free slots all zero. *)
Record reg_sound (p : RegistryPayload) : Prop := {
  sd_typed : payload_typed p;
  sd_slot i : (i < NSLOTS)%nat → slot_consistent p i;
  sd_count : count_storage p = Z.of_nat (occupied p);
  sd_blank i : (i < NSLOTS)%nat → bit_is_set p i = false → blank (slot p i);
}.

(** Operations and deaths, one after the other, each death followed by repairs, the last of which
    comes to its end. *)
Inductive registry_step (p : RegistryPayload) : RegistryPayload → Prop :=
  | rs_register entry :
      entry_ok entry → 0 ≤ seq_storage entry < 2 ^ 32 → registry_step p (register_locked entry p).2
  | rs_unregister nm : registry_step p (unregister_locked nm p).2
  | rs_register_crash entry q q' :
      entry_ok entry → 0 ≤ seq_storage entry < 2 ^ 32 → register_crash entry p q →
      rtc repair_crash q q' → registry_step p (recover_registry_invariant q')
  | rs_unregister_crash nm q q' :
      unregister_crash nm p q → rtc repair_crash q q' → registry_step p (recover_registry_invariant q').

#[local] Opaque NSLOTS.

(** ** Torn bytes *)

Lemma torn_lookup sel off a b k :
  length a = length b → torn_bytes sel off a b !! k = if sel (off + k)%nat then b !! k else a !! k.
Proof.
  revert off b k. induction a as [|x a IH]; intros off [|y b] k Hl; try done.
  { by destruct (sel _). }
  cbn [torn_bytes]. destruct k as [|k]; cbn [lookup list_lookup].
  - rewrite Nat.add_0_r. by destruct (sel off).
  - rewrite IH by (by injection Hl). by replace (S off + k)%nat with (off + S k)%nat by lia.
Qed.

Lemma length_torn sel off a b : length a = length b → length (torn_bytes sel off a b) = length a.
Proof.
  revert off b. induction a as [|x a IH]; intros off [|y b] Hl; try done.
  cbn [torn_bytes length]. f_equal. apply IH. by injection Hl.
Qed.

Lemma torn_is_bytes sel off a b : is_bytes a → is_bytes b → is_bytes (torn_bytes sel off a b).
Proof.
  intros Ha. revert off b. induction Ha as [|x a Hx _ IH]; intros off b Hb; [constructor|].
  destruct Hb as [|y b Hy Hb]; [constructor|]. cbn [torn_bytes]. constructor; [by destruct (sel off)|by apply IH].
Qed.

Lemma torn_uint_range n sel off a b : 0 ≤ torn_uint n sel off a b < 2 ^ (8 * Z.of_nat n).
Proof.
  unfold torn_uint. set (l := torn_bytes _ _ _ _).
  replace n with (length l) by (unfold l; rewrite length_torn; rewrite !length_le_bytes; done).
  apply le_int_range, torn_is_bytes; apply le_bytes_is_bytes.
Qed.

Lemma torn_zeros sel off n : torn_bytes sel off (replicate n 0) (replicate n 0) = replicate n 0.
Proof. revert off. induction n as [|n IH]; intros off; cbn; [done|]. rewrite IH. by destruct (sel off). Qed.

Lemma copy_bytes_typed sel dst src : name_typed dst → name_typed src → name_typed (copy_bytes sel dst src).
Proof.
  unfold name_typed, copy_bytes. cbn [e_name]. intros [H1 H2] [H3 H4].
  rewrite length_torn by congruence. split; [done|].
  rewrite last_lookup, length_torn, torn_lookup by congruence.
  rewrite last_lookup in H2, H4. rewrite H3 in H4. rewrite H1 in H2 |- *. by destruct (sel _).
Qed.

(** ** Names cut short *)

(** Every byte of [buf] up to the end of [nm] is the byte of [nm] or, from position [m] on, zero. *)
Definition cut_name (m : nat) (nm buf : bytes) : Prop :=
  ∀ k c, buf !! k = Some c → (k ≤ length nm)%nat → nm !! k = Some c ∨ c = 0 ∧ (m ≤ k)%nat.

Lemma view_nonzero n buf : Forall (λ c, c ≠ 0) (take (strnlen buf n) buf).
Proof.
  revert buf. induction n as [|n IH]; intros [|c buf]; cbn [strnlen]; try constructor.
  destruct (Z.eqb_spec c 0); [constructor|]. cbn [take firstn]. by constructor.
Qed.

Lemma cut_name_take n m nm buf :
  cut_name m nm buf → Forall (λ c, c ≠ 0) nm → (length nm < length buf ≤ n)%nat → (m ≤ length nm)%nat →
  ∃ k, (m ≤ k)%nat ∧ take (strnlen buf n) buf = take k nm.
Proof.
  revert m nm buf. induction n as [|n IH]; intros m nm [|c buf] Hc Hz Hl Hm; cbn [length] in *; try lia.
  cbn [strnlen]. destruct (Z.eqb_spec c 0) as [->|Hcz].
  - destruct (Hc 0%nat 0) as [E|[_ E]]; [done|lia| |exists 0%nat; split; [lia|done]].
    destruct Hz as [|x nm Hx _]; [done|]. injection E as ->. done.
  - destruct (Hc 0%nat c) as [E|[? _]]; [done|lia| |done]. destruct Hz as [|x nm Hx Hz]; [done|].
    injection E as ->. cbn [length] in *. destruct (IH (pred m) nm buf) as (k&Hk&Ek); [|done|lia|lia|].
    + intros j d Hj Hjl. destruct (Hc (S j) d) as [E|[-> E]]; [done|cbn; lia|by left|right; split; [done|lia]].
    + exists (S k). split; [lia|]. cbn [take firstn]. by f_equal.
Qed.

Lemma cut_name_view_self n buf :
  (length buf ≤ n)%nat → cut_name (strnlen buf n) (take (strnlen buf n) buf) buf.
Proof.
  intros Hn k c Hk Hl. rewrite length_take in Hl.
  destruct (decide (k < strnlen buf n)%nat) as [Hlt|Hge]; [left; by rewrite lookup_take_lt|right].
  assert (k = strnlen buf n) as -> by lia. split; [|done]. clear Hl Hge. revert n Hn Hk.
  induction buf as [|d buf IH]; intros [|n] Hn Hk; cbn [length strnlen] in *; try done; [lia|].
  destruct (Z.eqb_spec d 0) as [->|]; [by injection Hk as <-|]. apply (IH n); [lia|exact Hk].
Qed.

Lemma cut_name_zeros nm n : cut_name 0 nm (replicate n 0).
Proof. intros k c [-> _]%lookup_replicate _. right. split; [done|lia]. Qed.

Lemma cut_name_weaken m m' nm buf : (m' ≤ m)%nat → cut_name m nm buf → cut_name m' nm buf.
Proof. intros Hm H k c Hk Hl. destruct (H k c Hk Hl) as [?|[? ?]]; [by left|right; split; [done|lia]]. Qed.

Lemma cut_name_torn m nm sel off a b :
  length a = length b → cut_name m nm a → cut_name m nm b → cut_name m nm (torn_bytes sel off a b).
Proof. intros Hl Ha Hb k c. rewrite torn_lookup by done. destruct (sel _); [apply Hb|apply Ha]. Qed.

(** The name a slot reads as when its buffer is a cut of [nm]. *)
Lemma cut_entry_name m nm e :
  name_typed e → cut_name m nm (e_name e) → Forall (λ c, c ≠ 0) nm →
  (length nm < Z.to_nat SHMFX_NAME_BYTES)%nat → (m ≤ length nm)%nat →
  ∃ k, (m ≤ k)%nat ∧ entry_name e = take k nm.
Proof. intros [Hl _] Hc Hz Hn Hm. apply (cut_name_take _ m nm); [done|done|rewrite Hl; lia|done]. Qed.

Lemma strnlen_le n buf : (strnlen buf n ≤ length buf)%nat.
Proof.
  revert buf. induction n as [|n IH]; intros [|c buf]; cbn [strnlen length]; try lia.
  destruct (c =? 0); [lia|]. specialize (IH buf). lia.
Qed.

(** A terminated buffer is a cut of its own name, which is shorter than the buffer. *)
Lemma entry_name_cut e :
  name_typed e →
  cut_name (length (entry_name e)) (entry_name e) (e_name e) ∧ Forall (λ c, c ≠ 0) (entry_name e) ∧
  (length (entry_name e) < Z.to_nat SHMFX_NAME_BYTES)%nat.
Proof.
  intros [Hl Hlast]. unfold entry_name, fixed_name_view. set (n := Z.to_nat SHMFX_NAME_BYTES) in *.
  pose proof (strnlen_le n (e_name e)) as Hle. pose proof (view_nonzero n (e_name e)) as Hz.
  rewrite length_take, Nat.min_l by done. split_and!; [apply cut_name_view_self; lia|done|].
  destruct (decide (strnlen (e_name e) n = n)) as [E|E]; [|lia]. exfalso.
  rewrite E, <-Hl, firstn_all in Hz. apply last_Some_elem_of in Hlast.
  by apply (proj1 (Forall_forall _ _) Hz 0 Hlast).
Qed.

(** ** The payload a death leaves *)

(** Starting from [p], only slot [i] has been written, its name is a cut of [nm], and its
    occupancy bit is not cleared before its name. *)
Record crashed (m : nat) (p : RegistryPayload) (i : nat) (nm : bytes) (q : RegistryPayload) : Prop := {
  cx_typed : payload_typed q;
  cx_except : same_except p q i;
  cx_name : cut_name m nm (e_name (slot q i));
  cx_blank : bit_is_set q i = false → blank (slot q i);
}.

(** The slot and the name a writer works on. *)
Record writer_slot (p : RegistryPayload) (i : nat) (nm : bytes) : Prop := {
  ws_index : (i < NSLOTS)%nat;
  ws_name : bit_is_set p i = true → entry_name (slot p i) = nm;
  ws_free : bit_is_set p i = false → ∀ j, ¬ holds_name p nm j;
  ws_nonzero : Forall (λ c, c ≠ 0) nm;
  ws_length : (length nm < Z.to_nat SHMFX_NAME_BYTES)%nat;
}.

(** The same slots. *)
Definition intact (p q : RegistryPayload) : Prop :=
  payload_typed q ∧ ∀ j, bit_is_set q j = bit_is_set p j ∧ slot q j = slot p j.

(** What the repair of [q] makes of [p]: a sound payload that differs from [p] in one slot at
    most, which is free or holds what [q] has there under a name of which [m] bytes are left. *)
Definition crash_outcome (m : nat) (p : RegistryPayload) (nm : bytes) (q : RegistryPayload) : Prop :=
  let p' := recover_registry_invariant q in
  reg_sound p' ∧
  (intact p p' ∨
   ∃ i, (i < NSLOTS)%nat ∧ same_except p p' i ∧ (bit_is_set p i = true → entry_name (slot p i) = nm) ∧
        (bit_is_set p i = false → ∀ j, ¬ holds_name p nm j) ∧
        (bit_is_set p' i = true →
         slot p' i = slot q i ∧ ∃ k, (m ≤ k)%nat ∧ (0 < k)%nat ∧ entry_name (slot p' i) = take k nm)).

Lemma same_except_set_slot p i e :
  payload_typed p → (i < NSLOTS)%nat → same_except p (set_slot p i e) i.
Proof. intros Ht Hi j Hj. split; [done|]. by rewrite slot_set_slot, decide_False. Qed.

Lemma same_except_trans p q r i : same_except p q i → same_except q r i → same_except p r i.
Proof. intros H1 H2 j Hj. destruct (H1 j Hj) as [<- <-]. by apply H2. Qed.

Lemma same_except_set_bit p i : payload_typed p → (i < NSLOTS)%nat → same_except p (set_bit p i) i.
Proof.
  intros Ht Hi j Hj. split; [|done]. rewrite bit_set_bit by by apply typed_index.
  by rewrite bool_decide_false by done.
Qed.

Lemma same_except_clear_bit p i : payload_typed p → (i < NSLOTS)%nat → same_except p (clear_bit p i) i.
Proof.
  intros Ht Hi j Hj. split; [|done]. rewrite bit_clear_bit by by apply typed_index.
  by rewrite bool_decide_false by done.
Qed.

(** Slots other than the written one are not touched by a repair. *)
Lemma crashed_undamaged m p i nm q j :
  reg_sound p → crashed m p i nm q → (j < NSLOTS)%nat → j ≠ i → slot_damaged q j = false.
Proof.
  intros Hs C Hj Hji. apply slot_damaged_spec. pose proof (sd_slot _ Hs j Hj) as Hc.
  unfold slot_consistent in *. by destruct (cx_except _ _ _ _ _ C j Hji) as [-> ->].
Qed.

Lemma set_count_id q : set_count q (count_storage q) = q.
Proof. by destruct q. Qed.

(** [n] turns of the repair leave such a payload. *)
Lemma repaired_crashed m p i nm n q count :
  reg_sound p → crashed m p i nm q → (i < NSLOTS)%nat → (n ≤ NSLOTS)%nat →
  let q' := recover_loop n 0 count q in
  payload_typed q' ∧ same_except p q' i ∧
  ((bit_is_set q' i = bit_is_set q i ∧ slot q' i = slot q i) ∨ bit_is_set q' i = false ∧ blank (slot q' i)).
Proof.
  intros Hs C Hi Hn q'. destruct (recover_loop_spec n 0 count q (cx_typed _ _ _ _ _ C)) as (H1&H2&H3&_); [lia|].
  fold q' in H1, H2, H3. split_and!; [done| |].
  - intros j Hji. destruct (cx_except _ _ _ _ _ C j Hji) as [<- <-].
    destruct (decide (j < n)%nat) as [Hj|Hj]; [|apply H2; lia].
    apply (H3 j); [lia|]. by apply (crashed_undamaged m p i nm); [..|lia|].
  - destruct (decide (i < n)%nat) as [Hj|Hj]; [|left; apply H2; lia].
    destruct (H3 i) as (_&Hk&Hd); [lia|]. destruct (slot_damaged q i); [right|left]; auto.
Qed.

Lemma crashed_recover m p i nm q :
  reg_sound p → writer_slot p i nm → crashed m p i nm q → (m ≤ length nm)%nat → crash_outcome m p nm q.
Proof.
  intros Hs [Hi Hold Hfree Hz Hl] C Hm. unfold crash_outcome, recover_registry_invariant.
  destruct (repaired_crashed m p i nm NSLOTS q 0 Hs C Hi) as (Ht&Hex&Hsl); [lia|].
  destruct (recover_loop_spec NSLOTS 0 0 q (cx_typed _ _ _ _ _ C)) as (_&_&H3&H4); [lia|].
  set (p' := recover_loop NSLOTS 0 0 q) in *. split.
  - split; [done|intros j Hj; apply (H3 j); lia|rewrite H4; unfold occupied; lia|]. intros j Hj Hb.
    destruct (decide (j = i)) as [->|Hji].
    + destruct Hsl as [[E1 E2]|[_ ?]]; [|done]. rewrite E2. apply C. by rewrite <-E1.
    + destruct (Hex j Hji) as [E1 ->]. apply (sd_blank _ Hs); [done|]. by rewrite <-E1.
  - right. exists i. split_and!; [done..|]. intros Hb. destruct Hsl as [[E1 E2]|[E _]]; [|congruence].
    split; [done|]. rewrite E2. destruct (slot_typed q i (cx_typed _ _ _ _ _ C) Hi) as [Hnt _].
    destruct (cut_entry_name m nm (slot q i) Hnt) as (k&Hk&Ek); try done; [apply C|].
    exists k. split_and!; [done| |done]. destruct k; [|lia]. exfalso.
    destruct (H3 i) as ([_ Hc]&_); [lia|]. rewrite Hb, E2, has_name_entry_name, Ek in Hc by done. done.
Qed.

(** A death inside the repair keeps it so, with the whole name at risk. *)
Lemma repair_crash_crashed m p i nm q q' :
  reg_sound p → (i < NSLOTS)%nat → crashed m p i nm q → repair_crash q q' → crashed 0 p i nm q'.
Proof.
  intros Hs Hi C Hq.
  assert (Hrep : ∀ n c, (n ≤ NSLOTS)%nat → crashed 0 p i nm (set_count (recover_loop n 0 0 q) c)).
  { intros n c Hn. destruct (repaired_crashed m p i nm n q 0 Hs C Hi Hn) as (Ht&Hex&Hsl).
    assert (Hn0 : cut_name 0 nm (e_name (slot q i))) by (apply (cut_name_weaken m); [lia|apply C]).
    set (r := recover_loop n 0 0 q) in *. split; [by apply typed_set_count|exact Hex|..];
      change (slot (set_count r c) i) with (slot r i).
    - destruct Hsl as [[_ ->]|[_ Hb]]; [done|]. rewrite Hb. apply cut_name_zeros.
    - change (bit_is_set (set_count r c) i) with (bit_is_set r i).
      destruct Hsl as [[-> ->]|[_ Hb]]; [apply C|done]. }
  destruct Hq as [n Hn|n e Hn Hd He|]; [by apply Hrep| |].
  2: { rewrite <-(set_count_id (recover_registry_invariant q)). by apply Hrep. }
  specialize (Hrep n (count_storage q) ltac:(lia)). fold (repaired n q) in Hrep. set (r := repaired n q) in *.
  destruct (decide (n = i)) as [->|Hni]; [|by rewrite (crashed_undamaged 0 p i nm r n) in Hd].
  destruct Hrep as [Ht Hex Hnm Hbl]. destruct (slot_typed r i Ht Hi) as [Hnt Hsq].
  assert (Hz : name_typed e ∧ 0 ≤ seq_storage e < 2 ^ 32 ∧ cut_name 0 nm (e_name e) ∧ (blank (slot r i) → blank e)).
  { destruct He as [|sel|]; (split; [try done; by apply copy_bytes_typed|]); split.
    - cbn [set_entry_seq seq_storage]. apply lor_range; [lia|done|lia].
    - done.
    - apply torn_uint_range.
    - split; [apply cut_name_torn; [by destruct Hnt|done|apply cut_name_zeros]|].
      unfold blank. cbn. intros ->. apply torn_zeros.
    - apply even_mask.
    - split; [apply cut_name_zeros|done]. }
  destruct Hz as (Hz1&Hz2&Hz3&Hz4). split; rewrite ?slot_set_slot, ?decide_True by done; try done.
  - by apply typed_set_slot.
  - eapply same_except_trans; [done|]. by apply same_except_set_slot.
  - auto.
Qed.

(** ** Deaths without a store *)

Lemma intact_undamaged p q j : reg_sound p → intact p q → (j < NSLOTS)%nat → slot_damaged q j = false.
Proof.
  intros Hs [_ He] Hj. apply slot_damaged_spec. pose proof (sd_slot _ Hs j Hj) as Hc.
  unfold slot_consistent in *. by destruct (He j) as [-> ->].
Qed.

Lemma intact_loop p q n : reg_sound p → intact p q → (n ≤ NSLOTS)%nat → intact p (recover_loop n 0 0 q).
Proof.
  intros Hs Hq Hn. destruct (recover_loop_spec n 0 0 q (proj1 Hq)) as (H1&H2&H3&_); [lia|].
  split; [done|]. intros j. destruct (proj2 Hq j) as [<- <-].
  destruct (decide (j < n)%nat) as [Hj|Hj]; [|apply H2; lia].
  apply (H3 j); [lia|]. apply (intact_undamaged p q); [done..|lia].
Qed.

Lemma intact_repair p q q' : reg_sound p → intact p q → repair_crash q q' → intact p q'.
Proof.
  intros Hs Hq Hr. destruct Hr as [n Hn|n e Hn Hd _|]; [|exfalso|by apply intact_loop].
  - destruct (intact_loop p q n Hs Hq Hn) as [Ht He]. split; [by apply typed_set_count|exact He].
  - destruct (intact_loop p q n Hs Hq) as [Ht He]; [lia|].
    rewrite (intact_undamaged p (repaired n q) n) in Hd; [done|done| |done].
    split; [by apply typed_set_count|exact He].
Qed.

Lemma intact_outcome m p nm q : reg_sound p → intact p q → crash_outcome m p nm q.
Proof.
  intros Hs Hq. assert (Hi : intact p (recover_registry_invariant q)) by by apply intact_loop.
  split; [|by left]. destruct (recover_loop_spec NSLOTS 0 0 q (proj1 Hq)) as (H1&_&H3&H4); [lia|].
  fold (recover_registry_invariant q) in *. split; [done|intros j Hj; apply (H3 j); lia| |].
  - rewrite H4. unfold occupied. lia.
  - intros j Hj. destruct (proj2 Hi j) as [-> ->]. by apply (sd_blank _ Hs).
Qed.

(** ** Deaths of writers *)

Definition wrote (m : nat) (p : RegistryPayload) (nm : bytes) (q : RegistryPayload) : Prop :=
  intact p q ∨ ∃ i, writer_slot p i nm ∧ crashed m p i nm q.

Lemma wrote_outcome m p nm q :
  reg_sound p → (m ≤ length nm)%nat → wrote m p nm q → crash_outcome m p nm q.
Proof.
  intros Hs Hm [Hq|(i&Hw&Hc)]; [by apply intact_outcome|]. by apply (crashed_recover m p i).
Qed.

Lemma wrote_repairs m p nm q q' :
  reg_sound p → wrote m p nm q → rtc repair_crash q q' → wrote 0 p nm q'.
Proof.
  intros Hs Hw Hr.
  assert (H0 : wrote 0 p nm q).
  { destruct Hw as [?|(i&Hw&[H1 H2 H3 H4])]; [by left|right]. exists i. split; [done|].
    split; try done. apply (cut_name_weaken m); [lia|done]. }
  clear Hw. induction Hr as [|q1 q2 q3 H12 _ IH]; [done|]. apply IH.
  destruct H0 as [Hq|(i&Hw&Hc)]; [left; by eapply intact_repair|right].
  exists i. split; [done|]. apply (repair_crash_crashed 0 p i nm q1); try done. apply Hw.
Qed.

(** Every state of a slot under [publish_slot], the bit of the slot being set. *)
Lemma publish_crashed m p p2 i nm source e :
  payload_typed p2 → same_except p p2 i → (i < NSLOTS)%nat → bit_is_set p2 i = true →
  cut_name m nm (e_name (slot p2 i)) → cut_name m nm (e_name source) →
  name_typed source → 0 ≤ seq_storage source < 2 ^ 32 →
  e = slot p2 i ∨ publish_state (slot p2 i) source e → crashed m p i nm (set_slot p2 i e).
Proof.
  intros Ht Hex Hi Hb Hold Hnew Hn Hs He. destruct (slot_typed p2 i Ht Hi) as [Hnt Hst].
  assert (Hz : name_typed e ∧ 0 ≤ seq_storage e < 2 ^ 32 ∧ cut_name m nm (e_name e)).
  { destruct He as [->|[|sel| |]]; [done|..]; (split; [try done; by apply copy_bytes_typed|]); split; try done;
      [apply u32_range|apply torn_uint_range| |apply u32_range..].
    apply cut_name_torn; [|done..]. destruct Hnt, Hn. cbn. congruence. }
  destruct Hz as (Hz1&Hz2&Hz3). split; rewrite ?slot_set_slot, ?decide_True by done; try done.
  - by apply typed_set_slot.
  - eapply same_except_trans; [done|]. by apply same_except_set_slot.
  - change (bit_is_set (set_slot p2 i e) i) with (bit_is_set p2 i). congruence.
Qed.

(** The bytes of its name an entry is sure to keep: all of them when it replaces one of that name. *)
Definition kept_bytes (nm : bytes) (p : RegistryPayload) : nat :=
  match register_loop NSLOTS 0 None nm p with FoundAt _ => length nm | _ => 0 end.

Lemma kept_bytes_le nm p : (kept_bytes nm p ≤ length nm)%nat.
Proof. unfold kept_bytes. destruct (register_loop _ _ _ _ _); lia. Qed.

Lemma not_held p nm :
  (∀ k, (0 ≤ k < 0 + NSLOTS)%nat → bit_is_set p k = true → entry_name (slot p k) ≠ nm) → ∀ j, ¬ holds_name p nm j.
Proof. intros Hn j (Hj&Hb&E). apply (Hn j); [lia|done|done]. Qed.

Lemma register_crash_wrote p entry q :
  reg_sound p → entry_ok entry → 0 ≤ seq_storage entry < 2 ^ 32 → register_crash entry p q →
  wrote (kept_bytes (entry_name entry) p) p (entry_name entry) q.
Proof.
  intros Hs [Hn Hh] Hsq Hq. pose proof (sd_typed _ Hs) as Ht. unfold kept_bytes.
  pose proof (register_loop_spec NSLOTS 0 None (entry_name entry) p) as Hl.
  destruct (entry_name_cut entry Hn) as (Hc&Hz&Hlen).
  assert (Hc0 : cut_name 0 (entry_name entry) (e_name entry)) by (eapply cut_name_weaken, Hc; lia).
  destruct Hq as [|i e E He|i E|i e E p2 He]; [by left|..]; rewrite E in Hl |- *; right; exists i.
  - destruct Hl as (Hi&Hb&Hbn); [intros k Hk; apply (sd_slot _ Hs); lia|].
    assert (Hi' : (i < NSLOTS)%nat) by lia. split; [split; try done; congruence|].
    destruct (slot_typed p i Ht Hi') as [Hnt _]. destruct (entry_name_cut _ Hnt) as (Hcs&_&_). rewrite Hbn in Hcs.
    apply (publish_crashed _ p p i _ entry); try done. by right.
  - destruct Hl as [Hno [|(_&Hi&Hb)]]; [intros k Hk; apply (sd_slot _ Hs); lia|done|].
    assert (Hi' : (i < NSLOTS)%nat) by lia. pose proof (sd_blank _ Hs i Hi' Hb) as Hbl.
    split; [split; try done; [congruence|intros _; by apply not_held]|]. split; [by apply set_bit_typed|by apply same_except_set_bit|..].
    + rewrite slot_set_bit, Hbl. apply cut_name_zeros.
    + by rewrite slot_set_bit.
  - destruct Hl as [Hno [|(_&Hi&Hb)]]; [intros k Hk; apply (sd_slot _ Hs); lia|done|].
    assert (Hi' : (i < NSLOTS)%nat) by lia. pose proof (sd_blank _ Hs i Hi' Hb) as Hbl.
    split; [split; try done; [congruence|intros _; by apply not_held]|]. apply (publish_crashed _ p p2 i _ entry); try done.
    + by apply typed_set_count, set_bit_typed.
    + by apply same_except_set_bit.
    + change (bit_is_set p2 i) with (bit_is_set (set_bit p i) i).
      rewrite bit_set_bit by by apply typed_index. by rewrite bool_decide_true.
    + change (slot p2 i) with (slot p i). rewrite Hbl. apply cut_name_zeros.
Qed.

Lemma unregister_crash_wrote p nm q : reg_sound p → unregister_crash nm p q → wrote 0 p nm q.
Proof.
  intros Hs Hq. pose proof (sd_typed _ Hs) as Ht. pose proof (unregister_loop_spec NSLOTS 0 nm p) as Hl.
  destruct Hq as [|i e E He|i c E Hc]; [by left|..]; rewrite E in Hl; right; exists i;
    (destruct Hl as (Hi&Hb&Hbn); [intros k Hk; apply (sd_slot _ Hs); lia|]);
    assert (Hi' : (i < NSLOTS)%nat) by lia; destruct (slot_typed p i Ht Hi') as [Hnt _];
    destruct (entry_name_cut _ Hnt) as (Hcs&Hz&Hlen); rewrite Hbn in Hcs, Hz, Hlen; (split; [split; try done; congruence|]).
  - apply (publish_crashed _ p p i _ empty_entry); try done; [|apply cut_name_zeros|by right].
    eapply cut_name_weaken, Hcs. lia.
  - set (p1 := set_slot p i (publish_slot (slot p i) empty_entry)).
    assert (Ht1 : payload_typed p1) by (apply typed_set_slot; [done|..]; by apply publish_typed).
    assert (Es : slot (set_count (clear_bit p1 i) c) i = publish_slot (slot p i) empty_entry).
    { change (slot (set_count (clear_bit p1 i) c) i) with (slot p1 i). unfold p1.
      by rewrite slot_set_slot, decide_True. }
    split; rewrite ?Es; [by apply typed_set_count, clear_bit_typed| |apply cut_name_zeros|done].
    eapply same_except_trans; [by apply same_except_set_slot|]. exact (same_except_clear_bit p1 i Ht1 Hi').
Qed.

(** ** Soundness of the operations *)

Lemma count_except (p p' : RegistryPayload) i (l : list nat) :
  (∀ j, j ≠ i → bit_is_set p' j = bit_is_set p j) → NoDup l →
  (length (filter (λ j, bit_is_set p' j = true) l) + (if bool_decide (i ∈ l) then Nat.b2n (bit_is_set p i) else 0) =
   length (filter (λ j, bit_is_set p j = true) l) + (if bool_decide (i ∈ l) then Nat.b2n (bit_is_set p' i) else 0))%nat.
Proof.
  intros He. induction 1 as [|j l Hj _ IH]; [by rewrite bool_decide_false by apply not_elem_of_nil|].
  rewrite !filter_cons. destruct (decide (j = i)) as [->|Hji].
  - rewrite bool_decide_false in IH by done. rewrite bool_decide_true by (apply elem_of_cons; by left).
    destruct (bit_is_set p i), (bit_is_set p' i); repeat case_decide; cbn in *; (done || lia).
  - rewrite (He j Hji). assert (Hin : bool_decide (i ∈ j :: l) = bool_decide (i ∈ l)).
    { apply bool_decide_ext. rewrite elem_of_cons. split; [|by right]. intros [?|?]; [congruence|done]. }
    rewrite Hin. destruct (decide (bit_is_set p j = true)); cbn [length]; lia.
Qed.

Lemma occupied_except p p' i :
  same_except p p' i → (i < NSLOTS)%nat →
  (occupied p' + Nat.b2n (bit_is_set p i) = occupied p + Nat.b2n (bit_is_set p' i))%nat.
Proof.
  intros Hex Hi. pose proof (count_except p p' i (seq 0 NSLOTS) (λ j Hj, proj1 (Hex j Hj)) (NoDup_seq 0 NSLOTS)) as H.
  rewrite bool_decide_true in H by by apply in_seq_slots. exact H.
Qed.

Lemma occupied_le p : (occupied p ≤ NSLOTS)%nat.
Proof. unfold occupied. etrans; [apply length_filter|]. by rewrite length_seq. Qed.

Lemma sound_except p p' i :
  reg_sound p → payload_typed p' → same_except p p' i → (i < NSLOTS)%nat → slot_consistent p' i →
  (bit_is_set p' i = false → blank (slot p' i)) →
  count_storage p' = count_storage p + Z.b2z (bit_is_set p' i) - Z.b2z (bit_is_set p i) → reg_sound p'.
Proof.
  intros Hs Ht Hex Hi Hc Hb Hn. split; [done| | |].
  - intros j Hj. destruct (decide (j = i)) as [->|Hji]; [done|]. pose proof (sd_slot _ Hs j Hj) as Hcj.
    unfold slot_consistent in *. by destruct (Hex j Hji) as [-> ->].
  - rewrite Hn, (sd_count _ Hs). pose proof (occupied_except p p' i Hex Hi).
    destruct (bit_is_set p i), (bit_is_set p' i); cbn in *; lia.
  - intros j Hj. destruct (decide (j = i)) as [->|Hji]; [done|]. destruct (Hex j Hji) as [-> ->].
    by apply (sd_blank _ Hs).
Qed.

Lemma put_entry_sound p i c e :
  reg_sound p → (i < NSLOTS)%nat → entry_ok e →
  c = (if bit_is_set p i then count_storage p else count_storage p + 1) → reg_sound (put_entry p i c e).
Proof.
  intros Hs Hi [Hnt Hhn] Hc. pose proof (sd_typed _ Hs) as Ht.
  assert (Hb : bit_is_set (put_entry p i c e) i = true) by by rewrite put_entry_bit, bool_decide_true.
  apply (sound_except p _ i); try done.
  - unfold put_entry. apply typed_set_slot; [by apply typed_set_count, set_bit_typed|..]; by apply publish_typed.
  - by apply put_entry_except.
  - unfold slot_consistent. rewrite Hb, put_entry_slot, decide_True by done. split; [|done].
    apply u32_even_step. by apply (sd_slot _ Hs).
  - by rewrite Hb.
  - rewrite Hb. cbn [put_entry set_slot set_count count_storage]. rewrite Hc. destruct (bit_is_set p i); cbn; lia.
Qed.

Lemma register_locked_sound entry p : reg_sound p → entry_ok entry → reg_sound (register_locked entry p).2.
Proof.
  intros Hs Hok. unfold register_locked. pose proof (register_loop_spec NSLOTS 0 None (entry_name entry) p) as Hl.
  destruct (register_loop NSLOTS 0 None (entry_name entry) p) as [i|i|]; [..|done].
  - destruct Hl as (Hi&Hb&_); [intros k Hk; apply (sd_slot _ Hs); lia|].
    assert (E : put_entry p i (count_storage p) entry = set_slot p i (publish_slot (slot p i) entry)).
    { unfold put_entry. rewrite set_bit_id; [by destruct p|apply Hs|lia|done]. }
    cbn [snd]. rewrite <-E. apply put_entry_sound; try done; [lia|by rewrite Hb].
  - destruct Hl as [_ [|(_&Hi&Hb)]]; [intros k Hk; apply (sd_slot _ Hs); lia|done|].
    apply (put_entry_sound p i (u32 (count_storage p + 1)) entry); try done; [lia|]. rewrite Hb, (sd_count _ Hs).
    apply u32_small. pose proof (occupied_le p). assert (HN : Z.of_nat NSLOTS = 1024) by done. lia.
Qed.

Lemma unregister_locked_sound nm p : reg_sound p → reg_sound (unregister_locked nm p).2.
Proof.
  intros Hs. pose proof (sd_typed _ Hs) as Ht. unfold unregister_locked.
  pose proof (unregister_loop_spec NSLOTS 0 nm p) as Hl. destruct (unregister_loop NSLOTS 0 nm p) as [i|]; [|done].
  destruct Hl as (Hi&Hb&_); [intros k Hk; apply (sd_slot _ Hs); lia|]. assert (Hi' : (i < NSLOTS)%nat) by lia.
  change (reg_sound (drop_entry p i (u32 (count_storage p - 1)))). set (p' := drop_entry _ _ _).
  assert (Hb' : bit_is_set p' i = false) by (unfold p'; rewrite drop_entry_bit, bool_decide_true by done; done).
  assert (Es : slot p' i = publish_slot (slot p i) empty_entry) by (unfold p'; by rewrite drop_entry_slot, decide_True).
  assert (Hex : same_except p p' i).
  { intros j Hj. unfold p'. rewrite drop_entry_bit, drop_entry_slot by done.
    by rewrite bool_decide_false, decide_False by done. }
  apply (sound_except p p' i); try done.
  - apply typed_set_count, clear_bit_typed, typed_set_slot; [done|..]; by apply publish_typed.
  - unfold slot_consistent. rewrite Hb', Es. split; [|done]. apply u32_even_step. by apply (sd_slot _ Hs).
  - by rewrite Es.
  - rewrite Hb', Hb. cbn [p' drop_entry set_count count_storage Z.b2z]. rewrite (sd_count _ Hs).
    pose proof (occupied_except p p' i Hex Hi') as Ho. rewrite Hb, Hb' in Ho. cbn in Ho.
    pose proof (occupied_le p). assert (HN : Z.of_nat NSLOTS = 1024) by done. rewrite u32_small; lia.
Qed.

Lemma registry_step_sound p p' : reg_sound p → registry_step p p' → reg_sound p'.
Proof.
  intros Hs [entry Hok _|nm|entry q q' Hok Hsq Hc Hr|nm q q' Hc Hr].
  - by apply register_locked_sound.
  - by apply unregister_locked_sound.
  - apply (wrote_outcome 0 p (entry_name entry)); [done|lia|].
    eapply wrote_repairs; [done| |done]. by apply register_crash_wrote.
  - apply (wrote_outcome 0 p nm); [done|lia|]. eapply wrote_repairs; [done| |done]. by apply unregister_crash_wrote.
Qed.

(** ** The map after a death *)

Lemma sound_wf p : reg_sound p → names_inj p (seq 0 NSLOTS) → reg_wf p.
Proof.
  intros Hs Hinj. split; [apply Hs|apply Hs| |].
  - intros i j Hi Hj. apply Hinj; by apply in_seq_slots.
  - rewrite (sd_count _ Hs). unfold reg_map. by rewrite reg_map_of_size by (done || apply NoDup_seq).
Qed.

Lemma intact_map p p' : reg_wf p → reg_sound p' → intact p p' → reg_wf p' ∧ reg_map p' = reg_map p.
Proof.
  intros Hwf Hs [_ Hi]. pose proof (wf_inj _ Hwf) as Hinj.
  assert (Hinj' : names_inj p' (seq 0 NSLOTS)).
  { intros a b Ha Hb. destruct (Hi a) as [-> ->], (Hi b) as [-> ->]. by apply Hinj. }
  split; [by apply sound_wf|]. apply map_eq. intros nm. apply option_eq. intros e.
  rewrite !reg_map_lookup by done. unfold holds_name.
  split; intros (j&Hj&->); exists j; destruct (Hi j) as [Eb Es]; [by rewrite <-Eb, <-Es|by rewrite Eb, Es].
Qed.

(** When no other registered name is what can be left of [nm], the names stay distinct and those
    that do not begin [nm] keep their entries. *)
Lemma outcome_map m p nm q :
  reg_wf p → crash_outcome m p nm q → (m ≤ length nm)%nat →
  (∀ nm', is_Some (reg_map p !! nm') → nm' `prefix_of` nm → (m ≤ length nm')%nat → nm' = nm) →
  reg_wf (recover_registry_invariant q) ∧
  ∀ nm', ¬ nm' `prefix_of` nm → reg_map (recover_registry_invariant q) !! nm' = reg_map p !! nm'.
Proof.
  intros Hwf [Hs Ho] Hm Hpre. set (p' := recover_registry_invariant q) in *. pose proof (wf_inj _ Hwf) as Hinj.
  destruct Ho as [Ho|(i&Hi&Hex&Hold&Hfree&Hnew)].
  { destruct (intact_map p p' Hwf Hs Ho) as [? E]. split; [done|]. intros. by rewrite E. }
  assert (Hinj' : names_inj p' (seq 0 NSLOTS)).
  { apply (inj_except p p' i); try done. intros Hb j Hji Hj. destruct (Hnew Hb) as (_&k&Hk&_&Ek). rewrite Ek in Hj.
    assert (take k nm = nm) as E.
    { apply Hpre; [|apply prefix_take|rewrite length_take; lia]. eexists. apply reg_map_lookup; eauto. }
    rewrite E in Hj. destruct (bit_is_set p i) eqn:Eb; [|by apply (Hfree eq_refl j)].
    apply Hji. destruct Hj as (Hj1&Hj2&Hj3). apply (wf_uniq _ Hwf); try done. by rewrite Hold. }
  assert (Hno : ∀ nm', ¬ nm' `prefix_of` nm → ¬ holds_name p' nm' i ∧ ¬ holds_name p nm' i).
  { intros nm' Hn. split; intros (_&Hb&E); apply Hn.
    - destruct (Hnew Hb) as (_&k&_&_&Ek). rewrite Ek in E. subst nm'. apply prefix_take.
    - rewrite <-E, Hold by done. done. }
  split; [by apply sound_wf|]. intros nm' Hn. destruct (Hno nm' Hn) as [Hn1 Hn2]. apply option_eq. intros e.
  rewrite !reg_map_lookup by done.
  split; intros (j&Hj&->); (assert (Hji : j ≠ i) by (by intros ->)); exists j;
    (split; [by apply (holds_name_except p p' i)|by destruct (Hex j Hji) as [_ ->]]).
Qed.

(** Both readings of a death: slots, and names when none of the others can be mistaken for what
    is left of [nm]. *)
Definition crash_safe (m : nat) (p : RegistryPayload) (nm : bytes) (q : RegistryPayload) : Prop :=
  crash_outcome m p nm q ∧
  (reg_wf p →
   (∀ nm', is_Some (reg_map p !! nm') → nm' `prefix_of` nm → (m ≤ length nm')%nat → nm' = nm) →
   reg_wf (recover_registry_invariant q) ∧
   ∀ nm', ¬ nm' `prefix_of` nm → reg_map (recover_registry_invariant q) !! nm' = reg_map p !! nm').

Lemma wrote_safe m p nm q : reg_sound p → (m ≤ length nm)%nat → wrote m p nm q → crash_safe m p nm q.
Proof.
  intros Hs Hm Hw. pose proof (wrote_outcome m p nm q Hs Hm Hw) as Ho. split; [done|].
  intros Hwf Hpre. by apply (outcome_map m p nm q).
Qed.

Lemma fresh_sound : reg_sound fresh_payload.
Proof.
  split.
  - apply fresh_wf.
  - apply fresh_wf.
  - unfold occupied. induction (seq 0 NSLOTS) as [|i l IH]; [done|]. by rewrite filter_cons_False by by rewrite fresh_bit.
  - intros i _ _. by rewrite fresh_slot.
Qed.
