(* ===== verification/RegistryProps.v ===== *)
(** * Properties of the registry

    The registry implements a finite map from segment names to entries, bounded by 1024, with
    exact errors; listing returns the map; the repair after a dead lock holder restores the
    invariant, and a death at any store of a registration, a removal or a repair damages at most
    the slot being written. That slot can be left under a name cut short, which may be the name of
    another entry; and the seqlock does not protect readers against a writer stopped inside the
    structure assignment. *)

From S2P Require Import Prelude Types Sync Security Lifecycle Registry RegistryCrash.

(** ** A concrete registry *)

Definition demo_entry (nm : string) (sz : Z) : RegistryEntry :=
  mkRegistryEntry 0 (copy_name (str nm)) sz 2 42 9 2 7 8.

Lemma demo_entry_ok : entry_ok (demo_entry "/shmfx.app.a" 4096).
Proof. split; by vm_compute. Qed.

Lemma demo_entry_seq : 0 ≤ seq_storage (demo_entry "/shmfx.app.a" 4096) < 2 ^ 32.
Proof. done. Qed.

Definition fresh_registry (m : mx_status) : Registry mx_status := mkRegistry true fresh_payload m.

Lemma fresh_usable : reg_usable (fresh_registry MxFree) fresh_payload.
Proof. apply (usable_free (fresh_registry MxFree)); [done|done|apply fresh_wf]. Qed.

(** ** Theorems *)

Section theorems.
Context {Mx : Type} `{!RobustMutex Mx, !RobustMutexLaws Mx}.

(** C10: [register_segment] inserts the entry under its name into the map the registry
    represents, replacing an entry of that name, or reports [QuotaExceeded] and changes nothing
    when all 1024 slots are taken by other names. It repairs the payload first when the previous
    lock holder died, and always leaves the mutex free and the payload well formed. *)
Theorem register_segment_refines (r : Registry Mx) p entry :
  reg_usable r p → entry_ok entry →
  let '(res, r') := register_segment entry r in
  reg_usable r' (rg_payload r') ∧
  ((res = Value tt ∧ reg_map (rg_payload r') = <[entry_name entry := erase entry]> (reg_map p)) ∨
   (res = Error QuotaExceeded ∧ rg_payload r' = p ∧ reg_map p !! entry_name entry = None ∧
    size (reg_map p) = NSLOTS)).
Proof.
  intros Hu Hok. pose proof (lock_usable r p Hu) as [Hwf _].
  unfold register_segment. destruct (locked_operation_usable (register_locked entry) r p Hu) as (m&E&Hm).
  rewrite E. pose proof (register_locked_wf entry p Hwf Hok) as Hr.
  destruct (register_locked entry p) as [res p']. destruct Hr as [Hwf' Hr]. split; [|exact Hr].
  by apply (usable_free (mkRegistry true p' m)).
Qed.

(** [unregister] deletes the name from the map, or reports [NotFound] and changes nothing
    when it is not there. *)
Theorem unregister_refines (r : Registry Mx) p nm :
  reg_usable r p →
  let '(res, r') := unregister nm r in
  reg_usable r' (rg_payload r') ∧
  ((res = Value tt ∧ is_Some (reg_map p !! nm) ∧ reg_map (rg_payload r') = delete nm (reg_map p)) ∨
   (res = Error NotFound ∧ rg_payload r' = p ∧ reg_map p !! nm = None)).
Proof.
  intros Hu. pose proof (lock_usable r p Hu) as [Hwf _].
  unfold unregister. destruct (locked_operation_usable (unregister_locked nm) r p Hu) as (m&E&Hm).
  rewrite E. pose proof (unregister_locked_wf nm p Hwf) as Hr.
  destruct (unregister_locked nm p) as [res p']. destruct Hr as [Hwf' Hr]. split; [|exact Hr].
  by apply (usable_free (mkRegistry true p' m)).
Qed.

(** C31: [list] on a quiet registry returns exactly the entries of the map whose names start
    with the prefix, each once, without taking the lock or changing anything. *)
Theorem list_segments_refines (r : Registry Mx) prefix :
  rg_valid r = true → reg_wf (rg_payload r) →
  let '(out, r') := list_segments prefix r in
  r' = r ∧
  erase <$> out ≡ₚ
  (map_to_list (filter (λ '(nm, _), take (length prefix) nm = prefix) (reg_map (rg_payload r)))).*2.
Proof.
  intros Hv Hwf. unfold list_segments. rewrite Hv. cbn [negb].
  rewrite list_loop_spec by (intros k Hk; apply (wf_slot _ Hwf); lia). split.
  - destruct r. by rewrite <-Hv.
  - by apply list_spec_perm.
Qed.
End theorems.

Lemma register_segment_refines_witness :
  let '(res, r') := register_segment (demo_entry "/shmfx.app.a" 4096) (fresh_registry MxFree) in
  res = Value tt ∧
  reg_usable r' (rg_payload r') ∧
  ((res = Value tt ∧ reg_map (rg_payload r') =
      <[entry_name (demo_entry "/shmfx.app.a" 4096) := erase (demo_entry "/shmfx.app.a" 4096)]>
        (reg_map fresh_payload)) ∨
   (res = Error QuotaExceeded ∧ rg_payload r' = fresh_payload ∧
    reg_map fresh_payload !! entry_name (demo_entry "/shmfx.app.a" 4096) = None ∧
    size (reg_map fresh_payload) = NSLOTS)).
Proof.
  pose proof (register_segment_refines (fresh_registry MxFree) fresh_payload
    (demo_entry "/shmfx.app.a" 4096) fresh_usable demo_entry_ok) as H.
  destruct (register_segment (demo_entry "/shmfx.app.a" 4096) (fresh_registry MxFree)) as [res r'].
  destruct H as [Hu H]. split; [|done]. destruct H as [[-> _]|(_&_&_&Hs)]; [done|].
  rewrite fresh_map in Hs. vm_compute in Hs. discriminate.
Defined.

Lemma unregister_refines_witness :
  let '(res, r') := unregister (str "/shmfx.app.a") (fresh_registry MxFree) in
  res = Error NotFound.
Proof.
  pose proof (unregister_refines (fresh_registry MxFree) fresh_payload (str "/shmfx.app.a") fresh_usable) as H.
  destruct (unregister (str "/shmfx.app.a") (fresh_registry MxFree)) as [res r'].
  destruct H as [_ [(_&[e He]&_)|[-> _]]]; [|done]. rewrite fresh_map, lookup_empty in He. discriminate.
Defined.

(** A registry of two entries. *)
Definition demo_two : Registry mx_status :=
  mkRegistry true (register_locked (demo_entry "/shmfx.log.b" 8192)
    (register_locked (demo_entry "/shmfx.app.a" 4096) fresh_payload).2).2 MxFree.

Lemma register_locked_keeps e p : reg_wf p → entry_ok e → reg_wf (register_locked e p).2.
Proof. intros Hwf Hok. pose proof (register_locked_wf e p Hwf Hok) as H. destruct (register_locked e p). apply H. Qed.

Lemma demo_two_wf : reg_wf (rg_payload demo_two).
Proof.
  assert (Hb : entry_ok (demo_entry "/shmfx.log.b" 8192)) by (split; by vm_compute).
  exact (register_locked_keeps _ _ (register_locked_keeps _ _ fresh_wf demo_entry_ok) Hb).
Qed.

Lemma list_segments_refines_witness :
  (list_segments (str "/shmfx.app") demo_two).2 = demo_two ∧
  (entry_name <$> (list_segments (str "/shmfx.app") demo_two).1) = [str "/shmfx.app.a"] ∧
  erase <$> (list_segments (str "/shmfx.app") demo_two).1 ≡ₚ
  (map_to_list (filter (λ '(nm, _), take (length (str "/shmfx.app")) nm = str "/shmfx.app")
     (reg_map (rg_payload demo_two)))).*2.
Proof.
  assert (En : entry_name <$> (list_segments (str "/shmfx.app") demo_two).1 = [str "/shmfx.app.a"])
    by (vm_compute; reflexivity).
  pose proof (list_segments_refines demo_two (str "/shmfx.app") eq_refl demo_two_wf) as H.
  destruct (list_segments (str "/shmfx.app") demo_two) as [out r']. destruct H as [H1 H2].
  split; [exact H1|]. split; [exact En|exact H2].
Defined.

(** [recover_registry_invariant] restores the registry invariant from any payload of the
    right shape: afterwards every slot has an even sequence and is named exactly when its bit is
    set, the count is exact, and the undamaged entries are all kept. *)
Theorem recovery_restores p :
  payload_typed p → undamaged_inj p →
  reg_wf (recover_registry_invariant p) ∧
  ∀ nm e, reg_map (recover_registry_invariant p) !! nm = Some e ↔
          ∃ i, holds_name p nm i ∧ slot_damaged p i = false ∧ e = erase (slot p i).
Proof. apply recover_wf. Qed.

Lemma recovery_restores_witness : reg_wf (recover_registry_invariant (set_bit fresh_payload 3)).
Proof.
  apply (recovery_restores (set_bit fresh_payload 3)).
  - apply set_bit_typed, fresh_wf.
  - intros i j _ _ [_ Hi]%slot_damaged_spec _ Hb. rewrite Hi in Hb.
    rewrite slot_set_bit, fresh_slot in Hb. vm_compute in Hb. discriminate.
Defined.





(** The proviso is needed. A process that dies while the name /shmfx.app.ab is being copied, its
    last byte still missing and the even sequence of the source in place, leaves a second entry
    /shmfx.app.a beside the one that is registered, and the repair keeps it. *)
Theorem crash_duplicates_name :
  let p := (register_locked (demo_entry "/shmfx.app.a" 4096) fresh_payload).2 in
  ∃ q, register_crash (demo_entry "/shmfx.app.ab" 8192) p q ∧
       let p' := recover_registry_invariant q in
       bit_is_set p' 0 = true ∧ bit_is_set p' 1 = true ∧
       entry_name (slot p' 0) = str "/shmfx.app.a" ∧ entry_name (slot p' 1) = str "/shmfx.app.a" ∧ ¬ reg_wf p'.
Proof.
  intros p. set (entry := demo_entry "/shmfx.app.ab" 8192).
  assert (E : register_loop NSLOTS 0 None (entry_name entry) p = FreeAt 1) by (vm_compute; reflexivity).
  set (p2 := set_count (set_bit p 1) (u32 (count_storage p + 1))).
  set (e := copy_bytes (λ k, negb (k =? 20)%nat) (set_entry_seq (u32 (seq_storage (slot p2 1) + 1)) (slot p2 1)) entry).
  exists (set_slot p2 1 e). split; [apply (rc_insert entry p 1 e E); right; apply ps_copying|].
  set (p' := recover_registry_invariant (set_slot p2 1 e)).
  assert (H : bit_is_set p' 0 = true ∧ bit_is_set p' 1 = true ∧
    entry_name (slot p' 0) = str "/shmfx.app.a" ∧ entry_name (slot p' 1) = str "/shmfx.app.a")
    by (split_and!; vm_compute; reflexivity).
  clear E. destruct H as (H0&H1&E0&E1). do 4 (split; [assumption|]). intros Hwf.
  assert (H01 : 0%nat = 1%nat); [|discriminate H01].
  apply (wf_uniq _ Hwf 0 1); [apply Nat.ltb_lt; reflexivity|apply Nat.ltb_lt; reflexivity|exact H0|exact H1|].
  by rewrite E0, E1.
Qed.

(** The structure assignment in [publish_slot] overwrites the odd sequence with the even one
    of the source while the other fields are being copied: a reader that runs while the writer is
    preempted there gets a snapshot, which is neither the old entry nor the new one. *)
Theorem seqlock_accepts_torn_entry :
  let old := demo_entry "/shmfx.app.a" 4096 in
  let new := mkRegistryEntry 0 (e_name old) 8192 2 43 10 2 7 8 in
  ∃ torn, publish_state old new torn ∧ snapshot_slot torn = Some torn ∧
          e_total_size torn = e_total_size new ∧ e_owner_pid torn = e_owner_pid old ∧
          erase torn ≠ erase old ∧ erase torn ≠ erase new.
Proof.
  intros old new. exists (copy_bytes (λ n, n <? 80)%nat (set_entry_seq (u32 (seq_storage old + 1)) old) new).
  split; [apply ps_copying|]. split_and!; vm_compute; congruence.
Qed.
