(* ===== verification/Layout.v ===== *)
(** * The shared-memory ABI: [shm_header.h], [shm_sync.h], [shm_ring.h]

    The structs of the shared memory as member lists, laid out by the rules of the System V ABI
    (each member at the next multiple of its alignment, the size a multiple of the largest
    alignment), the static assertions on them, and the offsets at which the other files have the
    fields of the signed block and of a registry slot. [pthread_mutex_t] belongs to the C library:
    its size and alignment are a parameter. *)

From S2P Require Import Prelude Types Sync RingMem RingCells RingBytes Security Lifecycle Registry.

(** ** Object types and struct layout *)

Record ctype := CType { sizeof : Z; alignof : Z }.

Definition uint8_t : ctype := CType 1 1.
Definition uint16_t : ctype := CType 2 2.
Definition uint32_t : ctype := CType 4 4.
Definition uint64_t : ctype := CType 8 8.
Definition char_t : ctype := CType 1 1.

Definition array (n : Z) (t : ctype) : ctype := CType (n * sizeof t) (alignof t).

(** The next multiple of [a]. *)
Definition round_up (pos a : Z) : Z := (pos + a - 1) / a * a.

Abbreviation members := (list (string * ctype)).

(** The members with their offsets, the first free byte being [pos]. *)
Fixpoint place (pos : Z) (ms : members) : list (string * (Z * ctype)) :=
  match ms with
  | [] => []
  | (f, t) :: ms' =>
      let off := round_up pos (alignof t) in (f, (off, t)) :: place (off + sizeof t) ms'
  end.

Fixpoint place_end (pos : Z) (ms : members) : Z :=
  match ms with
  | [] => pos
  | (_, t) :: ms' => place_end (round_up pos (alignof t) + sizeof t) ms'
  end.

(** A struct declared with [alignas(a)]; [struct] has no such specifier. *)
Definition struct_aligned (a : Z) (ms : members) : ctype :=
  let al := foldr (λ m, Z.max (alignof m.2)) a ms in CType (round_up (place_end 0 ms) al) al.

Definition struct (ms : members) : ctype := struct_aligned 1 ms.

(** The offset and the type of a member. *)
Fixpoint member (f : string) (l : list (string * (Z * ctype))) : option (Z * ctype) :=
  match l with
  | [] => None
  | (g, m) :: l' => if String.eqb f g then Some m else member f l'
  end.

Definition offsetof (ms : members) (f : string) : option Z := fst <$> member f (place 0 ms).

(** ** The structs *)

Definition ShmHeader_members (pthread_mutex_t : ctype) : members :=
  [("magic", uint32_t); ("version_major", uint16_t); ("version_minor", uint16_t);
   ("segment_type", uint32_t); ("flags", uint32_t); ("total_size", uint64_t);
   ("payload_size", uint64_t); ("meta_offset", uint32_t); ("meta_size", uint32_t);
   ("payload_offset", uint32_t); ("creator_pid", uint32_t); ("created_at_ns", uint64_t);
   ("creator_start_time", uint64_t); ("name", array SHMFX_NAME_BYTES char_t);
   ("hmac", array SHMFX_HMAC_BYTES uint8_t); ("owner_pid", uint32_t); ("_pad0", uint32_t);
   ("owner_start_time", uint64_t); ("ref_count", uint32_t); ("state", uint32_t);
   ("heartbeat_counter", uint64_t); ("heartbeat_last_ns", uint64_t);
   ("control_mutex", pthread_mutex_t); ("_reserved", array 16 uint8_t)]%string.

Definition RecordRingMeta_members : members :=
  [("record_max", uint32_t); ("record_stride", uint32_t); ("producer_mode", uint32_t);
   ("consumer_mode", uint32_t); ("lost_count", uint64_t); ("_reserved", array 40 uint8_t)]%string.

Definition RegistryEntry_members : members :=
  [("seq_storage", uint32_t); ("_pad0", uint32_t); ("name", array SHMFX_NAME_BYTES char_t);
   ("total_size", uint64_t); ("segment_type", uint32_t); ("owner_pid", uint32_t);
   ("owner_start_time", uint64_t); ("flags", uint32_t); ("_pad1", uint32_t);
   ("created_at_ns", uint64_t); ("last_seen_ns", uint64_t); ("_reserved", array 8 uint8_t)]%string.

Definition RegistryPayload_members : members :=
  [("count_storage", uint32_t); ("_pad0", uint32_t); ("bitmap", array REGISTRY_BITMAP_BYTES uint8_t);
   ("_align", array 120 uint8_t);
   ("slots", array MAX_REGISTRY_ENTRIES (struct RegistryEntry_members))]%string.

Definition RingCursor_members : members :=
  [("pos_storage", uint64_t); ("_pad", array (CACHE_LINE_SIZE - sizeof uint64_t) uint8_t)]%string.

Definition RingCursor : ctype := struct_aligned CACHE_LINE_SIZE RingCursor_members.

Definition RingSlotHeader_members : members := [("seq_storage", uint64_t)]%string.

Definition RingRecordHeader_members : members :=
  [("len", uint32_t); ("type", uint16_t); ("flags", uint16_t); ("user", uint64_t)]%string.

(** ** The static assertions

    On the sizes, alignments and offsets of the structs, of [shm_header.h], [shm_sync.h],
    [shm_ring.h] and [shm_types.h]. *)

Definition offset_is (ms : members) (f : string) (off : Z) : bool := bool_decide (offsetof ms f = Some off).

Definition header_asserts (pthread_mutex_t : ctype) : bool :=
  let ms := ShmHeader_members pthread_mutex_t in
  (sizeof (struct ms) =? SHMFX_HEADER_SIZE) && (8 <=? alignof (struct ms)) &&
  offset_is ms "hmac" SHMFX_IMMUTABLE_BYTES && offset_is ms "owner_pid" 160 &&
  offset_is ms "owner_start_time" 168 && offset_is ms "control_mutex" 200 &&
  (sizeof pthread_mutex_t <=? 40) && (sizeof (struct RecordRingMeta_members) =? 64) &&
  (sizeof (struct RegistryEntry_members) =? 128) &&
  (sizeof (struct RegistryPayload_members) =? 256 + 128 * MAX_REGISTRY_ENTRIES).

Definition sync_asserts : bool :=
  (sizeof RingCursor =? CACHE_LINE_SIZE) && (alignof RingCursor =? CACHE_LINE_SIZE) &&
  (sizeof (struct RingSlotHeader_members) =? sizeof uint64_t).

Definition ring_asserts : bool :=
  (sizeof (struct RingRecordHeader_members) =? 16) && (alignof (struct RingRecordHeader_members) =? 8).

Definition types_asserts : bool :=
  (sizeof uint64_t <=? SHMFX_CACHE_LINE_BYTES) &&
  (Z.land SHMFX_CACHE_LINE_BYTES (SHMFX_CACHE_LINE_BYTES - 1) =? 0).

Definition static_asserts (pthread_mutex_t : ctype) : bool :=
  types_asserts && sync_asserts && ring_asserts && header_asserts pthread_mutex_t.

(** ** The offsets the other files use *)

(** The fields of the signed block of a header, in the order and at the places of [immutable_bytes]. *)
Lemma immutable_offsets t :
  offsetof (ShmHeader_members t) <$>
    ["magic"; "version_major"; "version_minor"; "segment_type"; "flags"; "total_size"; "payload_size";
     "meta_offset"; "meta_size"; "payload_offset"; "creator_pid"; "created_at_ns"; "creator_start_time";
     "name"; "hmac"]%string =
  Some <$> [0; 4; 6; 8; 12; 16; 24; 32; 36; 40; 44; 48; 56; 64; SHMFX_IMMUTABLE_BYTES].
Proof. reflexivity. Qed.

(** The fields of a registry slot, where the byte-wise copy of a slot has them. *)
Lemma entry_offsets :
  offsetof RegistryEntry_members <$>
    ["seq_storage"; "name"; "total_size"; "segment_type"; "owner_pid"; "owner_start_time"; "flags";
     "created_at_ns"; "last_seen_ns"]%string =
  Some <$> [0; 8; 72; 80; 84; 88; 96; 104; 112].
Proof. reflexivity. Qed.

(** ** What the assertions say about the mutex *)

(** [pthread_mutex_t] as the C library declares it: 8-aligned, its size a multiple of that. *)
Record mutex_abi (t : ctype) : Prop := {
  ma_align : alignof t = 8;
  ma_size : 0 ≤ sizeof t;
  ma_whole : sizeof t mod 8 = 0;
}.

(** C40: for an 8-aligned [pthread_mutex_t], the static assertions of [shm_types.h],
    [shm_sync.h], [shm_ring.h] and [shm_header.h] on sizes, alignments and offsets hold exactly
    when the mutex takes 40 bytes; so the structs are laid out as documented on x86-64, and with
    the 48-byte mutex of glibc on AArch64 the headers do not compile. *)
Theorem static_asserts_iff t : mutex_abi t → static_asserts t = true ↔ sizeof t = 40.
Proof.
  destruct t as [n a]. intros [Ea H0 Hm]. cbn in *. subst a. split.
  - unfold static_asserts. intros [_ H]%andb_true_iff. unfold header_asserts in H. cbv zeta in H.
    repeat apply andb_true_iff in H as [H ?].
    apply Z.eqb_eq in H. change (sizeof (struct (ShmHeader_members (CType n 8))))
      with (round_up (round_up (200 + n) 1 + 16) 8) in H. unfold round_up, SHMFX_HEADER_SIZE in H. zlia.
  - intros ->. vm_compute. reflexivity.
Qed.

Lemma static_asserts_iff_witness :
  static_asserts (CType 40 8) = true ∧ static_asserts (CType 48 8) ≠ true.
Proof.
  split.
  - apply (static_asserts_iff (CType 40 8)); [by split|reflexivity].
  - intros H. apply (static_asserts_iff (CType 48 8)) in H; [discriminate H|by split].
Defined.
