(* ===== verification/Manager.v ===== *)
(** * Segments, handles and the janitor: [shm_manager.h], [shm_manager.cpp], [Registry::gc]

    The shared-memory objects and their names are a [World]; the process keeps its registry
    handle, its open descriptors, its mappings and its heartbeat list. POSIX calls act on the
    world, and the [Sys] argument says which of them fail, as the operating system may decide.
    [create], [attach], [destroy], the end of a handle, the bootstrap of the registry and the
    janitor pass are translated call by call, cleanup paths included. *)

From S2P Require Import Prelude Types Sync Security Lifecycle Registry.

(** ** Errors of the operating system *)

Inductive Errno := EEXIST | ENOENT | EACCES | EPERM | ENOSPC | EFBIG | EOther.

#[export] Instance Errno_eq_dec : EqDecision Errno.
Proof. solve_decision. Defined.

Definition errno_to_error (err : Errno) : ErrorCode :=
  match err with
  | EEXIST => AlreadyExists
  | ENOENT => NotFound
  | EACCES | EPERM => PermissionDenied
  | ENOSPC | EFBIG => QuotaExceeded
  | EOther => CorruptedHeader
  end.

Definition registry_errno_to_error (err : Errno) : ErrorCode :=
  match err with
  | EEXIST => AlreadyExists
  | EACCES | EPERM => PermissionDenied
  | ENOSPC => QuotaExceeded
  | _ => CorruptedHeader
  end.

(** ** Initialization of a control mutex *)

(** The return codes of [pthread_mutexattr_init], [pthread_mutexattr_setpshared],
    [pthread_mutexattr_setrobust] and [pthread_mutex_init]. *)
Record MutexRcs := mkMutexRcs { rc_attr_init : Z; rc_setpshared : Z; rc_setrobust : Z; rc_mutex_init : Z }.

Definition EINVAL : Z := 22.

Definition init_control_mutex (rc : MutexRcs) : ErrorCode :=
  if negb (rc_attr_init rc =? 0) then CorruptedHeader
  else
    let init_rc :=
      if ((rc_setpshared rc =? 0) && (rc_setrobust rc =? 0))%bool then rc_mutex_init rc else EINVAL in
    if init_rc =? 0 then Ok else CorruptedHeader.

(** The registry has the same function under another name. *)
Definition init_mutex (rc : MutexRcs) : ErrorCode := init_control_mutex rc.

(** What one operation meets: the observations of [Os], the HMAC key, the process id, the wall
    clock, and the calls that fail although the names would let them succeed. The clocks are
    read once per operation. *)
Record Sys := mkSys {
  sys_os : Os;
  sys_keys : KeyEnv;
  sys_pid : Z;
  sys_realtime : Z;
  fail_open : bytes → option Errno;
  fail_fchmod : bool;
  fail_ftruncate : option Errno;
  fail_mmap : bytes → option Errno;
  fail_fstat : bytes → option Errno;
  fail_unlink : bytes → option Errno;
  mutex_rcs : MutexRcs;
  (** [errno] as an earlier call left it *)
  stale_errno : Errno;
}.

(** ** Header checks *)

Definition validate_header (hdr : ShmHeader) (mapped_size : Z) : ErrorCode :=
  if negb (magic hdr =? SHMFX_MAGIC) then CorruptedHeader
  else if negb (version_major hdr =? SHMFX_VERSION_MAJOR) then VersionMismatch
  else if (negb (total_size hdr =? mapped_size) || (total_size hdr <? SHMFX_HEADER_SIZE))%bool
  then CorruptedHeader
  else if ((meta_offset hdr <? SHMFX_HEADER_SIZE) || (total_size hdr <? meta_offset hdr))%bool
  then CorruptedHeader
  else
    let meta_end := u64 (meta_offset hdr + meta_size hdr) in
    let payload_end := u64 (payload_offset hdr + payload_size hdr) in
    if ((total_size hdr <? meta_end) || (payload_offset hdr <? meta_end) ||
        (total_size hdr <? payload_end))%bool
    then CorruptedHeader else Ok.

Definition janitor_header_valid (hdr : ShmHeader) (mapped_size : Z) : bool :=
  if (negb (magic hdr =? SHMFX_MAGIC) || negb (version_major hdr =? SHMFX_VERSION_MAJOR))%bool
  then false
  else if (negb (total_size hdr =? mapped_size) || (total_size hdr <? SHMFX_HEADER_SIZE))%bool
  then false
  else
    let meta_end := u64 (meta_offset hdr + meta_size hdr) in
    let payload_end := u64 (payload_offset hdr + payload_size hdr) in
    ((SHMFX_HEADER_SIZE <=? meta_offset hdr) && (meta_end <=? total_size hdr) &&
     (meta_end <=? payload_offset hdr) && (payload_end <=? total_size hdr))%bool.

(** ** Objects, names and the process *)

(** What follows the header of an object: the registry payload, or bytes. *)
Inductive Body := RegistryBody (p : RegistryPayload) | BytesBody (b : bytes).

Record Segment (Mx : Type) := mkSegment {
  sg_size : Z;
  sg_header : ShmHeader;
  sg_mutex : Mx;
  sg_body : Body;
}.
Arguments mkSegment {_} _ _ _ _.
Arguments sg_size {_} _.
Arguments sg_header {_} _.
Arguments sg_mutex {_} _.
Arguments sg_body {_} _.

(** [ShmHandle]: the mapped object for [base_], and whether [fd_ >= 0]. *)
Record ShmHandle := mkShmHandle {
  base_ : option nat;
  size_ : Z;
  fd_ : bool;
  mode_ : AttachMode;
  owner_ : bool;
}.

Definition empty_handle : ShmHandle := mkShmHandle None 0 false ReadOnly false.

Record World (Mx : Type) := mkWorld {
  (** the shared-memory names, and the objects, those without a name included *)
  w_names : gmap bytes nat;
  w_objs : gmap nat (Segment Mx);
  w_next : nat;
  (** of the process: [Registry::instance()] once constructed, the numbers of open descriptors
      and of mappings, and the heartbeat owners *)
  w_registry : option ShmHandle;
  w_fds : Z;
  w_maps : Z;
  w_heartbeat : Heartbeat;
}.
Arguments mkWorld {_} _ _ _ _ _ _ _.
Arguments w_names {_} _.
Arguments w_objs {_} _.
Arguments w_next {_} _.
Arguments w_registry {_} _.
Arguments w_fds {_} _.
Arguments w_maps {_} _.
Arguments w_heartbeat {_} _.

Definition set_ref_count (c : Z) (hdr : ShmHeader) : ShmHeader :=
  mkShmHeader (magic hdr) (version_major hdr) (version_minor hdr) (segment_type hdr) (flags hdr)
    (total_size hdr) (payload_size hdr) (meta_offset hdr) (meta_size hdr) (payload_offset hdr)
    (creator_pid hdr) (created_at_ns hdr) (creator_start_time hdr) (name hdr) (hmac hdr)
    (owner_pid hdr) (owner_start_time hdr) c (state hdr) (heartbeat_counter hdr)
    (heartbeat_last_ns hdr).

Definition set_state (s : SegmentState) (hdr : ShmHeader) : ShmHeader :=
  mkShmHeader (magic hdr) (version_major hdr) (version_minor hdr) (segment_type hdr) (flags hdr)
    (total_size hdr) (payload_size hdr) (meta_offset hdr) (meta_size hdr) (payload_offset hdr)
    (creator_pid hdr) (created_at_ns hdr) (creator_start_time hdr) (name hdr) (hmac hdr)
    (owner_pid hdr) (owner_start_time hdr) (ref_count hdr) (SegmentState_value s)
    (heartbeat_counter hdr) (heartbeat_last_ns hdr).

(** A header after [memset]. *)
Definition zero_header : ShmHeader :=
  mkShmHeader 0 0 0 0 0 0 0 0 0 0 0 0 0 (replicate (Z.to_nat SHMFX_NAME_BYTES) 0) zero_hmac 0 0 0 0 0 0.

(** [metadata()] and [payload()]: offset from the base and length. *)
Definition metadata (hdr : ShmHeader) : Z * Z := (meta_offset hdr, meta_size hdr).
Definition payload (hdr : ShmHeader) : Z * Z := (payload_offset hdr, payload_size hdr).

(** [name()] *)
Definition segment_name (hdr : ShmHeader) : bytes := fixed_name_view (name hdr).

(** [sizeof(RegistryPayload)] and [kRegistryTotalSize] *)
Definition RegistryPayload_size : Z := 256 + MAX_REGISTRY_ENTRIES * 128.
Definition kRegistryTotalSize : Z := SHMFX_HEADER_SIZE + RegistryPayload_size.

(** ** Effects

    An operation gives its result and the world it leaves; an early return of the source is an
    early result here. *)

Section world.
Context {Mx : Type} `{!RobustMutex Mx} (mx_new : Mx).

Abbreviation W := (World Mx).

Definition set_fds (n : Z) (w : W) : W :=
  mkWorld (w_names w) (w_objs w) (w_next w) (w_registry w) n (w_maps w) (w_heartbeat w).
Definition set_maps (n : Z) (w : W) : W :=
  mkWorld (w_names w) (w_objs w) (w_next w) (w_registry w) (w_fds w) n (w_heartbeat w).
Definition set_names (f : gmap bytes nat) (w : W) : W :=
  mkWorld f (w_objs w) (w_next w) (w_registry w) (w_fds w) (w_maps w) (w_heartbeat w).
Definition set_objs (o : gmap nat (Segment Mx)) (w : W) : W :=
  mkWorld (w_names w) o (w_next w) (w_registry w) (w_fds w) (w_maps w) (w_heartbeat w).
Definition set_heartbeats (h : Heartbeat) (w : W) : W :=
  mkWorld (w_names w) (w_objs w) (w_next w) (w_registry w) (w_fds w) (w_maps w) h.
Definition set_instance (h : ShmHandle) (w : W) : W :=
  mkWorld (w_names w) (w_objs w) (w_next w) (Some h) (w_fds w) (w_maps w) (w_heartbeat w).

(** *** POSIX calls *)

Definition close (w : W) : W := set_fds (w_fds w - 1) w.
Definition munmap (w : W) : W := set_maps (w_maps w - 1) w.

(** [shm_open] with [O_CREAT | O_EXCL]: the new, empty object. *)
Definition shm_open_excl (sys : Sys) (nm : bytes) (w : W) : Errno + (nat * W) :=
  match fail_open sys nm with
  | Some e => inl e
  | None =>
      match w_names w !! nm with
      | Some _ => inl EEXIST
      | None =>
          let id := w_next w in
          inr (id, mkWorld (<[nm := id]> (w_names w))
                     (<[id := mkSegment 0 zero_header mx_new (BytesBody [])]> (w_objs w)) (S id)
                     (w_registry w) (w_fds w + 1) (w_maps w) (w_heartbeat w))
      end
  end.

(** [shm_open] of an existing object. *)
Definition shm_open (sys : Sys) (nm : bytes) (w : W) : Errno + (nat * W) :=
  match fail_open sys nm with
  | Some e => inl e
  | None =>
      match w_names w !! nm with
      | None => inl ENOENT
      | Some id => inr (id, set_fds (w_fds w + 1) w)
      end
  end.

Definition shm_unlink (sys : Sys) (nm : bytes) (w : W) : option Errno * W :=
  match fail_unlink sys nm with
  | Some e => (Some e, w)
  | None =>
      match w_names w !! nm with
      | None => (Some ENOENT, w)
      | Some _ => (None, set_names (delete nm (w_names w)) w)
      end
  end.

(** [ftruncate] of a new object: the bytes read as zero. *)
Definition ftruncate (sys : Sys) (id : nat) (size : Z) (w : W) : option Errno * W :=
  match fail_ftruncate sys with
  | Some e => (Some e, w)
  | None =>
      let body := BytesBody (replicate (Z.to_nat (size - SHMFX_HEADER_SIZE)) 0) in
      (None, set_objs (<[id := mkSegment size zero_header mx_new body]> (w_objs w)) w)
  end.

(** [mmap] of a whole object of [len] bytes: a length of 0 is refused with [EINVAL]. *)
Definition mmap_error (sys : Sys) (nm : bytes) (len : Z) : option Errno :=
  match fail_mmap sys nm with
  | Some e => Some e
  | None => if len =? 0 then Some EOther else None
  end.

Definition mmap (sys : Sys) (nm : bytes) (len : Z) (w : W) : option Errno * W :=
  match mmap_error sys nm len with
  | Some e => (Some e, w)
  | None => (None, set_maps (w_maps w + 1) w)
  end.

Definition upd_seg (f : Segment Mx → Segment Mx) (id : nat) (w : W) : W :=
  set_objs (alter f id (w_objs w)) w.

Definition with_header (f : ShmHeader → ShmHeader) (s : Segment Mx) : Segment Mx :=
  mkSegment (sg_size s) (f (sg_header s)) (sg_mutex s) (sg_body s).

Definition with_mutex (m : Mx) (s : Segment Mx) : Segment Mx :=
  mkSegment (sg_size s) (sg_header s) m (sg_body s).

Definition upd_header (f : ShmHeader → ShmHeader) : nat → W → W := upd_seg (with_header f).

(** The mapped object; handles and descriptors refer to objects that exist. *)
Definition seg (id : nat) (w : W) : Segment Mx :=
  default (mkSegment 0 zero_header mx_new (BytesBody [])) (w_objs w !! id).

(** *** The registry handle *)

Definition no_registry : Registry Mx := mkRegistry false fresh_payload mx_new.

(** The registry object of the process: its payload and its mutex are in the mapped segment. *)
Definition registry_of (w : W) : Registry Mx :=
  match w_registry w ≫= base_ with
  | Some id =>
      match sg_body (seg id w) with
      | RegistryBody p => mkRegistry true p (sg_mutex (seg id w))
      | BytesBody _ => no_registry
      end
  | None => no_registry
  end.

Definition store_registry (r : Registry Mx) (w : W) : W :=
  match w_registry w ≫= base_ with
  | Some id =>
      match sg_body (seg id w) with
      | RegistryBody _ =>
          upd_seg (λ s, mkSegment (sg_size s) (sg_header s) (rg_mutex r) (RegistryBody (rg_payload r))) id w
      | BytesBody _ => w
      end
  | None => w
  end.

(** A registry operation on [Registry::instance()], which exists. *)
Definition on_registry {A} (f : Registry Mx → A * Registry Mx) (w : W) : A * W :=
  let '(a, r) := f (registry_of w) in (a, store_registry r w).

(** ** Mapping an object: the part of [attach] after the janitor pass

    [expects] is [registry_expects_hmac], which may repair the registry. *)

Definition map_segment (sys : Sys) (nm : bytes) (mode : AttachMode) (expects : W → bool * W) (w : W)
    : Result ShmHandle * W :=
  match shm_open sys nm w with
  | inl e => (Error (errno_to_error e), w)
  | inr (id, w) =>
      let size := sg_size (seg id w) in
      if bool_decide (is_Some (fail_fstat sys nm)) || (size <? SHMFX_HEADER_SIZE) then
        let saved := default (stale_errno sys) (fail_fstat sys nm) in
        (Error (errno_to_error saved), close w)
      else
        match mmap sys nm size w with
        | (Some e, w) => (Error (errno_to_error e), close w)
        | (None, w) =>
            let hdr := sg_header (seg id w) in
            let valid := validate_header hdr size in
            if negb (bool_decide (valid = Ok)) then (Error valid, close (munmap w))
            else if negb (bool_decide (segment_name hdr = nm))
            then (Error CorruptedHeader, close (munmap w))
            else
              let '(expected, w) := expects w in
              if expected && (Z.land (flags hdr) HmacEnabled =? 0)
              then (Error CorruptedHeader, close (munmap w))
              else
                match verify_header_hmac (sys_keys sys) hdr with
                | Error e => (Error e, close (munmap w))
                | Value _ =>
                    if bool_decide (decode_state (state (sg_header (seg id w))) = Some Dead)
                    then (Error SegmentDead, close (munmap w))
                    else
                      match mode with
                      | ReadOnly => (Value (mkShmHandle (Some id) size true mode false), w)
                      | ReadWrite =>
                          let w := upd_header (λ h, set_ref_count (u32 (ref_count h + 1)) h) id w in
                          if bool_decide (decode_state (state (sg_header (seg id w))) = Some Dead) then
                            let w := upd_header (λ h, set_ref_count (u32 (ref_count h - 1)) h) id w in
                            (Error SegmentDead, close (munmap w))
                          else (Value (mkShmHandle (Some id) size true mode false), w)
                      end
                end
        end
  end%bool.

(** ** Bootstrap of the registry *)

Definition registry_header (sys : Sys) : ShmHeader :=
  let pid := u32 (sys_pid sys) in
  mkShmHeader SHMFX_MAGIC SHMFX_VERSION_MAJOR SHMFX_VERSION_MINOR
    (SegmentType_value RegistryType) Types.RobustMutex kRegistryTotalSize RegistryPayload_size
    SHMFX_HEADER_SIZE 0 SHMFX_HEADER_SIZE pid 0 0 (copy_name REGISTRY_NAME) zero_hmac pid 0 1
    (SegmentState_value Active) 0 0.

Definition create_registry_raw (sys : Sys) (w : W) : Result nat * W :=
  match shm_open_excl sys REGISTRY_NAME w with
  | inl e => (Error (registry_errno_to_error e), w)
  | inr (id, w) =>
      match ftruncate sys id kRegistryTotalSize w with
      | (Some e, w) => (Error (registry_errno_to_error e), (shm_unlink sys REGISTRY_NAME (close w)).2)
      | (None, w) =>
          match mmap sys REGISTRY_NAME kRegistryTotalSize w with
          | (Some e, w) => (Error (registry_errno_to_error e), (shm_unlink sys REGISTRY_NAME (close w)).2)
          | (None, w) =>
              let w := upd_seg (λ s, mkSegment (sg_size s) (registry_header sys) mx_new
                                       (RegistryBody fresh_payload)) id w in
              let mutex_error := init_mutex (mutex_rcs sys) in
              if negb (bool_decide (mutex_error = Ok))
              then (Error mutex_error, (shm_unlink sys REGISTRY_NAME (close (munmap w))).2)
              else (Value id, w)
          end
      end
  end.

(** The constructor [Registry()]; the attach inside it is for the registry's own name, so it
    neither collects garbage nor consults the registry. *)
Definition registry_construct (sys : Sys) (w : W) : W :=
  match create_registry_raw sys w with
  | (Value id, w) => set_instance (mkShmHandle (Some id) kRegistryTotalSize true ReadWrite true) w
  | (Error AlreadyExists, w) =>
      match map_segment sys REGISTRY_NAME ReadWrite (λ w, (false, w)) w with
      | (Value h, w) => set_instance h w
      | (Error _, w) => set_instance empty_handle w
      end
  | (Error _, w) => set_instance empty_handle w
  end.

(** [Registry::instance()]: constructed at the first call. *)
Definition instance (sys : Sys) (w : W) : W :=
  match w_registry w with Some _ => w | None => registry_construct sys w end.

Definition registry_list (sys : Sys) (prefix : bytes) (w : W) : list RegistryEntry * W :=
  on_registry (list_segments prefix) (instance sys w).

Definition registry_register (sys : Sys) (e : RegistryEntry) (w : W) : Result unit * W :=
  on_registry (register_segment e) (instance sys w).

Definition registry_unregister (sys : Sys) (nm : bytes) (w : W) : Result unit * W :=
  on_registry (unregister nm) (instance sys w).

(** ** The janitor *)

Definition set_last_seen (now : Z) (e : RegistryEntry) : RegistryEntry :=
  mkRegistryEntry (seq_storage e) (e_name e) (e_total_size e) (e_segment_type e) (e_owner_pid e)
    (e_owner_start_time e) (e_flags e) (e_created_at_ns e) now.

Definition update_registry_last_seen (sys : Sys) (e : RegistryEntry) (now : Z) (w : W) : W :=
  (registry_register sys (set_last_seen now e) w).2.

(** The branch of [gc] for a dead owner without references, under the segment's mutex. *)
Definition gc_reap (sys : Sys) (now : Z) (nm : bytes) (id : nat) (w : W) : W :=
  let '(g, m) := ShmMutexGuard.make (sg_mutex (seg id w)) in
  let w := upd_seg (with_mutex m) id w in
  if ShmMutexGuard.locked_ g then
    let '(g, m) :=
      if ShmMutexGuard.prior_owner_dead_ g
      then let '(_, g, m) := ShmMutexGuard.mark_consistent g m in (g, m) else (g, m) in
    let w := upd_seg (with_mutex m) id w in
    let hdr := sg_header (seg id w) in
    let w :=
      if (ref_count hdr =? 0) && owner_is_dead (sys_os sys) hdr now then
        let w := upd_header (set_state Dead) id w in
        let w := (shm_unlink sys nm w).2 in
        (registry_unregister sys nm w).2
      else w in
    upd_seg (λ s, with_mutex (ShmMutexGuard.reset g (sg_mutex s)).2 s) id w
  else upd_seg (λ s, with_mutex (ShmMutexGuard.reset g (sg_mutex s)).2 s) id w.

(** The body of the loop of [gc]. *)
Definition gc_entry (sys : Sys) (now : Z) (e : RegistryEntry) (w : W) : W :=
  let nm := entry_name e in
  if bool_decide (nm = []) || bool_decide (nm = REGISTRY_NAME) then w
  else
    match shm_open sys nm w with
    | inl ENOENT => (registry_unregister sys nm w).2
    | inl _ => w
    | inr (id, w) =>
        let size := sg_size (seg id w) in
        if bool_decide (is_Some (fail_fstat sys nm)) || (size <? SHMFX_HEADER_SIZE)
        then (registry_unregister sys nm (close w)).2
        else
          match mmap sys nm size w with
          | (Some _, w) => close w
          | (None, w) =>
              let hdr := sg_header (seg id w) in
              if negb (janitor_header_valid hdr size)
              then (registry_unregister sys nm (close (munmap w))).2
              else
                let dead := owner_is_dead (sys_os sys) hdr now in
                let rc := ref_count hdr in
                let st := decode_state (state hdr) in
                if dead && (rc =? 0) then close (munmap (gc_reap sys now nm id w))
                else if dead && (0 <? rc) && bool_decide (st = Some Active) then
                  let w := upd_header (set_state Draining) id w in
                  close (munmap (update_registry_last_seen sys e now w))
                else if bool_decide (st = Some Draining) && negb (e_last_seen_ns e =? 0) &&
                        (e_last_seen_ns e <? now) && (SEGMENT_ZOMBIE_NS <? now - e_last_seen_ns e) then
                  let w := close (munmap w) in
                  if negb (any_process_maps_segment (sys_os sys) nm) then
                    let w := (shm_unlink sys nm w).2 in
                    (registry_unregister sys nm w).2
                  else w
                else close (munmap w)
          end
    end%bool.

Definition gc (sys : Sys) (w : W) : W :=
  let '(entries, w) := registry_list sys [] w in
  let now := monotonic_ns (sys_os sys) in
  fold_left (λ w e, gc_entry sys now e w) entries w.

(** ** [ShmManager] *)

Definition registry_expects_hmac (sys : Sys) (nm : bytes) (w : W) : bool * W :=
  if bool_decide (nm = REGISTRY_NAME) then (false, w)
  else
    let '(entries, w) := registry_list sys nm w in
    (match list_find (λ e, entry_name e = nm) entries with
     | Some (_, e) => negb (Z.land (e_flags e) HmacEnabled =? 0)
     | None => false
     end, w).

Definition attach (sys : Sys) (nm : bytes) (mode : AttachMode) (w : W) : Result ShmHandle * W :=
  match parse_and_validate_name nm with
  | Error e => (Error e, w)
  | Value _ =>
      let w := if bool_decide (nm = REGISTRY_NAME) then w else gc sys (instance sys w) in
      map_segment sys nm mode (registry_expects_hmac sys nm) w
  end.

(** The end of a handle ([reset], the destructor). *)
Definition handle_reset (sys : Sys) (h : ShmHandle) (w : W) : W :=
  let w :=
    match base_ h with
    | None => w
    | Some id =>
        let nm := segment_name (sg_header (seg id w)) in
        let is_registry := bool_decide (nm = REGISTRY_NAME) in
        let w :=
          if owner_ h
          then set_heartbeats (unregister_heartbeat_owner (Z.of_nat id) (w_heartbeat w)) w else w in
        let w :=
          match mode_ h with
          | ReadOnly => w
          | ReadWrite =>
              let previous := ref_count (sg_header (seg id w)) in
              let w := upd_header (set_ref_count (u32 (previous - 1))) id w in
              let st := decode_state (state (sg_header (seg id w))) in
              if owner_ h && negb is_registry && (previous =? 1) && bool_decide (st = Some Draining)
              then
                let w := upd_header (set_state Dead) id w in
                let w := (shm_unlink sys nm w).2 in
                (registry_unregister sys nm w).2
              else w
          end in
        munmap w
    end%bool in
  if fd_ h then close w else w.

(** Move construction and assignment: the new handle and what is left of the source; [same] says
    whether a handle is assigned to itself. *)
Definition handle_move (other : ShmHandle) : ShmHandle * ShmHandle := (other, empty_handle).

Definition handle_move_assign (sys : Sys) (same : bool) (this other : ShmHandle) (w : W)
    : ShmHandle * ShmHandle * W :=
  if same then (this, other, w) else (other, empty_handle, handle_reset sys this w).

(** The header [create] writes, before it is signed. *)
Definition initial_header (sys : Sys) (o : CreateOptions) (payload_offset : Z) : ShmHeader :=
  let pid := u32 (sys_pid sys) in
  let start := default 0 (read_proc_start_time (sys_os sys) pid) in
  mkShmHeader SHMFX_MAGIC SHMFX_VERSION_MAJOR SHMFX_VERSION_MINOR (SegmentType_value (co_type o))
    (Z.lor (co_flags o) Types.RobustMutex) (co_total_size o) (u64 (co_total_size o - payload_offset))
    SHMFX_HEADER_SIZE (u32 (co_meta_size o)) (u32 payload_offset) pid (sys_realtime sys) start
    (copy_name (co_name o)) zero_hmac pid start 1 (SegmentState_value Active) 0
    (monotonic_ns (sys_os sys)).

Definition registry_entry (sys : Sys) (o : CreateOptions) (hdr : ShmHeader) : RegistryEntry :=
  mkRegistryEntry 0 (copy_name (co_name o)) (co_total_size o) (SegmentType_value (co_type o))
    (owner_pid hdr) (owner_start_time hdr) (flags hdr) (created_at_ns hdr)
    (monotonic_ns (sys_os sys)).

(** [register_heartbeat_owner]: the first beat of the header, then the list of the worker. *)
Definition register_heartbeat_owner (sys : Sys) (id : nat) (w : W) : W :=
  let w := upd_header (set_heartbeat (monotonic_ns (sys_os sys))) id w in
  set_heartbeats (register_owner (Z.of_nat id) (w_heartbeat w)) w.

Definition create (sys : Sys) (o : CreateOptions) (w : W) : Result ShmHandle * W :=
  let nm := co_name o in
  match parse_and_validate_name nm with
  | Error e => (Error e, w)
  | Value _ =>
  let '(existing, w) := registry_list sys [] w in
  match validate_create_security o existing with
  | Error e => (Error e, w)
  | Value _ =>
  let payload_offset := align_up (u64 (SHMFX_HEADER_SIZE + co_meta_size o)) SHMFX_CACHE_LINE_BYTES in
  if co_total_size o <? payload_offset then (Error QuotaExceeded, w) else
  match shm_open_excl sys nm w with
  | inl e => (Error (errno_to_error e), w)
  | inr (id, w) =>
  match apply_permissions (negb (fail_fchmod sys)) with
  | Error e => (Error e, (shm_unlink sys nm (close w)).2)
  | Value _ =>
  match ftruncate sys id (co_total_size o) w with
  | (Some e, w) => (Error (errno_to_error e), (shm_unlink sys nm (close w)).2)
  | (None, w) =>
  match mmap sys nm (co_total_size o) w with
  | (Some e, w) => (Error (errno_to_error e), (shm_unlink sys nm (close w)).2)
  | (None, w) =>
  let '(signed, hdr) := sign_header_if_enabled (sys_keys sys) (initial_header sys o payload_offset) in
  let w := upd_header (λ _, hdr) id w in
  match signed with
  | Error e => (Error e, (shm_unlink sys nm (close (munmap w))).2)
  | Value _ =>
  let mutex_error := init_control_mutex (mutex_rcs sys) in
  if negb (bool_decide (mutex_error = Ok))
  then (Error mutex_error, (shm_unlink sys nm (close (munmap w))).2) else
  let w := upd_seg (with_mutex mx_new) id w in
  let handle := mkShmHandle (Some id) (co_total_size o) true ReadWrite true in
  let w := register_heartbeat_owner sys id w in
  if bool_decide (nm = REGISTRY_NAME) then (Value handle, w)
  else
    match registry_register sys (registry_entry sys o hdr) w with
    | (Error e, w) => (Error e, handle_reset sys handle (shm_unlink sys nm w).2)
    | (Value _, w) => (Value handle, w)
    end
  end end end end end end end.

Definition destroy (sys : Sys) (nm : bytes) (w : W) : Result unit * W :=
  match parse_and_validate_name nm with
  | Error e => (Error e, w)
  | Value _ =>
      match shm_unlink sys nm w with
      | (Some e, w) => (Error (errno_to_error e), w)
      | (None, w) =>
          if bool_decide (nm = REGISTRY_NAME) then (Value tt, w)
          else registry_unregister sys nm w
      end
  end.

End world.
