(* ===== verification/ManagerInv.v ===== *)
(** * Invariant of the manager's world

    The registry segment of a world as a finite map, the frame of registry operations, the
    well-formedness of a world and how headers evolve. Every primitive step of the manager keeps
    the invariant; the hint database [shm] holds these facts. *)

From S2P Require Import Prelude Types Sync Security Lifecycle Registry Manager.

(** ** What a registry entry of a good world looks like *)

Definition valid_name (nm : bytes) : Prop := has_value (parse_and_validate_name nm) = true.

Definition entry_good (nm : bytes) (e : RegistryEntry) : Prop :=
  valid_name nm ∧ nm ≠ REGISTRY_NAME ∧ 0 ≤ e_total_size e.

(** The bytes the registered segments occupy. *)
Definition total (m : gmap bytes RegistryEntry) : Z := sum_sizes (map_to_list m).*2.

Lemma sum_sizes_perm l l' : l ≡ₚ l' → sum_sizes l = sum_sizes l'.
Proof. unfold sum_sizes. induction 1; simpl; lia. Qed.

Lemma sum_sizes_erase l : sum_sizes (erase <$> l) = sum_sizes l.
Proof. unfold sum_sizes. induction l; simpl; [done|]. by f_equal. Qed.

Lemma total_insert m nm e : m !! nm = None → total (<[nm := e]> m) = e_total_size e + total m.
Proof.
  intros H. unfold total. by rewrite (sum_sizes_perm _ (e :: (map_to_list m).*2))
    by by rewrite map_to_list_insert.
Qed.

Lemma total_delete m nm e : m !! nm = Some e → total m = e_total_size e + total (delete nm m).
Proof.
  intros H. rewrite <-(insert_delete_id m nm e) at 1 by done. apply total_insert, lookup_delete_eq.
Qed.

Lemma total_nonneg m : map_Forall entry_good m → 0 ≤ total m.
Proof.
  intros H. unfold total.
  assert (Hl : Forall (λ e, 0 ≤ e_total_size e) (map_to_list m).*2).
  { apply Forall_fmap, Forall_forall. intros [nm e] Hin%elem_of_map_to_list. by apply (H nm e). }
  unfold sum_sizes. induction Hl; simpl; lia.
Qed.

Lemma total_delete_le m nm : map_Forall entry_good m → total (delete nm m) ≤ total m.
Proof.
  intros H. destruct (m !! nm) as [e|] eqn:E; [|by rewrite delete_id].
  rewrite (total_delete m nm e) by done. pose proof (H _ _ E) as (_&_&?). lia.
Qed.

(** ** Entries of a well-formed registry *)

Lemma reg_map_entry p nm e :
  reg_wf p → reg_map p !! nm = Some e → entry_ok e ∧ entry_name e = nm ∧ seq_storage e = 0.
Proof.
  intros Hwf H. apply (reg_map_lookup _ _ _ (wf_inj _ Hwf)) in H as (i&(Hi&Hb&Hn)&->).
  destruct (slot_typed p i (wf_typed _ Hwf) Hi) as [Ht _].
  pose proof (wf_slot _ Hwf i Hi) as [_ Hs]. split; [|done]. split; [exact Ht|].
  change (has_name (erase (slot p i))) with (has_name (slot p i)). by rewrite <-Hs.
Qed.

Lemma list_spec_all p :
  reg_wf p → erase <$> list_spec [] p (seq 0 NSLOTS) ≡ₚ (map_to_list (reg_map p)).*2.
Proof.
  intros Hwf. rewrite list_spec_perm by done.
  replace (filter _ (reg_map p)) with (reg_map p); [done|]. symmetry. by apply map_filter_id.
Qed.

(** A mapping of a size that is not zero fails only when the system refuses it. *)
Lemma mmap_ok sys nm len : fail_mmap sys nm = None → 0 < len → mmap_error sys nm len = None.
Proof. intros E Hl. unfold mmap_error. rewrite E. by rewrite (proj2 (Z.eqb_neq len 0)) by lia. Qed.

Lemma mmap_error_None sys nm len : mmap_error sys nm len = None → fail_mmap sys nm = None ∧ len ≠ 0.
Proof. unfold mmap_error. destruct (fail_mmap sys nm); [done|]. by destruct (Z.eqb_spec len 0). Qed.

(** ** The registry of a world *)

#[local] Opaque NSLOTS reg_map.

Section inv.
Context {Mx : Type} `{!RobustMutex Mx, !RobustMutexLaws Mx} (mx_new : Mx).

Abbreviation W := (World Mx).
Implicit Types w : W.

Definition reg_id (w : W) : option nat := w_registry w ≫= base_.

Definition reg_ready (w : W) : Prop :=
  rg_valid (registry_of mx_new w) = true ∧ reg_wf (rg_payload (registry_of mx_new w)) ∧
  mx_state (rg_mutex (registry_of mx_new w)) = MxFree.

Definition entries (w : W) : gmap bytes RegistryEntry := reg_map (rg_payload (registry_of mx_new w)).

(** The sizes and headers of the objects. *)
Definition headers (w : W) : gmap nat (Z * ShmHeader) := (λ s, (sg_size s, sg_header s)) <$> w_objs w.

(** Everything but the payload and the mutex of the registry segment. *)
Record same_but_reg (w w' : W) : Prop := {
  sb_names : w_names w' = w_names w;
  sb_next : w_next w' = w_next w;
  sb_registry : w_registry w' = w_registry w;
  sb_fds : w_fds w' = w_fds w;
  sb_maps : w_maps w' = w_maps w;
  sb_heartbeat : w_heartbeat w' = w_heartbeat w;
  sb_headers : headers w' = headers w;
  sb_objs id : reg_id w ≠ Some id → w_objs w' !! id = w_objs w !! id;
}.

#[export] Instance same_but_reg_refl : Reflexive same_but_reg.
Proof. by split. Qed.

#[export] Instance same_but_reg_trans : Transitive same_but_reg.
Proof.
  intros w1 w2 w3 H1 H2. pose proof (sb_registry _ _ H1) as Er.
  split; [by rewrite (sb_names _ _ H2), (sb_names _ _ H1)|by rewrite (sb_next _ _ H2), (sb_next _ _ H1)
    |by rewrite (sb_registry _ _ H2)|by rewrite (sb_fds _ _ H2), (sb_fds _ _ H1)
    |by rewrite (sb_maps _ _ H2), (sb_maps _ _ H1)|by rewrite (sb_heartbeat _ _ H2), (sb_heartbeat _ _ H1)
    |by rewrite (sb_headers _ _ H2), (sb_headers _ _ H1)|].
  intros id H. rewrite (sb_objs _ _ H2), (sb_objs _ _ H1); [done|done|].
  unfold reg_id in *. by rewrite Er.
Qed.

Lemma seg_lookup w id s : w_objs w !! id = Some s → seg mx_new id w = s.
Proof. intros E. unfold seg. by rewrite E. Qed.

Lemma registry_valid_inv w :
  rg_valid (registry_of mx_new w) = true →
  ∃ id s p, reg_id w = Some id ∧ w_objs w !! id = Some s ∧ sg_body s = RegistryBody p ∧
            registry_of mx_new w = mkRegistry true p (sg_mutex s).
Proof.
  unfold registry_of, reg_id. destruct (w_registry w ≫= base_) as [id|] eqn:E; [|done].
  destruct (w_objs w !! id) as [s|] eqn:Eo; [|unfold seg; by rewrite Eo].
  rewrite (seg_lookup w id s Eo). destruct (sg_body s) as [p|b] eqn:Eb; [|done].
  intros _. exists id, s, p. split_and!; try done.
Qed.

Lemma reg_ready_constructed w : reg_ready w → is_Some (w_registry w).
Proof.
  intros [H _]. destruct (registry_valid_inv w H) as (id&_&_&E&_). unfold reg_id in E.
  destruct (w_registry w); [by eexists|done].
Qed.

Lemma instance_ready sys w : reg_ready w → instance mx_new sys w = w.
Proof. intros [h E]%reg_ready_constructed. unfold instance. by rewrite E. Qed.

Lemma store_registry_spec r w :
  rg_valid (registry_of mx_new w) = true → rg_valid r = true →
  registry_of mx_new (store_registry mx_new r w) = r ∧ same_but_reg w (store_registry mx_new r w).
Proof.
  intros (id&s&p&Ei&Eo&Eb&_)%registry_valid_inv Hr. unfold reg_id in Ei. unfold store_registry.
  rewrite Ei, (seg_lookup w id s Eo), Eb. set (f := λ _, _).
  assert (Eo' : w_objs (upd_seg f id w) !! id = Some (f s))
    by (unfold upd_seg; cbn [set_objs w_objs]; by rewrite lookup_alter_eq, Eo).
  split.
  - unfold registry_of. change (w_registry (upd_seg f id w)) with (w_registry w).
    rewrite Ei, (seg_lookup _ _ _ Eo'). destruct r. cbn in *. by subst.
  - split; try done.
    + unfold headers, upd_seg. cbn [set_objs w_objs]. apply map_eq. intros j.
      rewrite !lookup_fmap. destruct (decide (j = id)) as [->|Hj].
      * by rewrite lookup_alter_eq, Eo.
      * by rewrite lookup_alter_ne.
    + intros j Hj. unfold upd_seg. cbn [set_objs w_objs]. apply lookup_alter_ne.
      intros ->. apply Hj. exact Ei.
Qed.

Lemma store_registry_id w : store_registry mx_new (registry_of mx_new w) w = w.
Proof.
  unfold store_registry. destruct (w_registry w ≫= base_) as [id|] eqn:Ei; [|done].
  destruct (sg_body (seg mx_new id w)) as [p|] eqn:Eb; [|done].
  unfold upd_seg, set_objs. rewrite alter_id; [by destruct w|].
  intros s Es. unfold registry_of. rewrite Ei. rewrite (seg_lookup _ _ _ Es) in *.
  rewrite Eb. destruct s. cbn in *. by subst.
Qed.

Lemma registry_list_ready sys prefix w :
  reg_ready w →
  registry_list mx_new sys prefix w =
  (list_spec prefix (rg_payload (registry_of mx_new w)) (seq 0 NSLOTS), w).
Proof.
  intros Hr. unfold registry_list. rewrite instance_ready by done. destruct Hr as (Hv&Hwf&_).
  unfold on_registry, list_segments. rewrite Hv. cbn [negb].
  rewrite list_loop_spec by (intros k Hk; apply (wf_slot _ Hwf); lia).
  f_equal. rewrite <-Hv. replace (mkRegistry _ _ _) with (registry_of mx_new w) by by destruct (registry_of mx_new w).
  apply store_registry_id.
Qed.

(** A locked operation on the registry of a ready world. *)
Lemma on_registry_locked (f : RegistryPayload → Result unit * RegistryPayload) w :
  reg_ready w →
  let p := rg_payload (registry_of mx_new w) in
  reg_wf (f p).2 →
  let '(res, w') := on_registry mx_new (locked_operation f) w in
  res = (f p).1 ∧ reg_ready w' ∧ same_but_reg w w' ∧ rg_payload (registry_of mx_new w') = (f p).2.
Proof.
  intros (Hv&Hwf&Hm) p Hf.
  destruct (locked_operation_usable f (registry_of mx_new w) p) as (m&E&Hm');
    [by apply usable_free|].
  unfold on_registry. rewrite E.
  destruct (store_registry_spec (mkRegistry true (f p).2 m) w) as [E1 E2]; [done|done|].
  split; [done|]. unfold reg_ready. by rewrite E1.
Qed.

Lemma registry_register_ready sys e w :
  reg_ready w → entry_ok e →
  let '(res, w') := registry_register mx_new sys e w in
  reg_ready w' ∧ same_but_reg w w' ∧
  ((res = Value tt ∧ entries w' = <[entry_name e := erase e]> (entries w)) ∨
   (res = Error QuotaExceeded ∧ entries w' = entries w ∧ entries w !! entry_name e = None ∧
    size (entries w) = NSLOTS)).
Proof.
  intros Hr He. unfold registry_register. rewrite instance_ready by done.
  pose proof (register_locked_wf e _ (proj1 (proj2 Hr)) He) as Hl.
  pose proof (on_registry_locked (register_locked e) w Hr) as Ho. cbv zeta in Ho.
  change (locked_operation (register_locked e)) with (register_segment (Mx := Mx) e) in Ho.
  destruct (register_locked e _) as [res p']. destruct Hl as [Hwf' Hl].
  destruct (on_registry mx_new (register_segment e) w) as [res' w'].
  destruct (Ho Hwf') as (->&H1&H2&H3). split; [done|]. split; [done|]. unfold entries.
  rewrite H3. cbn [fst snd]. destruct Hl as [?|(?&->&?&?)]; auto.
Qed.

Lemma registry_unregister_ready sys nm w :
  reg_ready w →
  let '(res, w') := registry_unregister mx_new sys nm w in
  reg_ready w' ∧ same_but_reg w w' ∧ entries w' = delete nm (entries w) ∧
  res = (if bool_decide (is_Some (entries w !! nm)) then Value tt else Error NotFound).
Proof.
  intros Hr. unfold registry_unregister. rewrite instance_ready by done.
  pose proof (unregister_locked_wf nm _ (proj1 (proj2 Hr))) as Hl.
  pose proof (on_registry_locked (unregister_locked nm) w Hr) as Ho. cbv zeta in Ho.
  change (locked_operation (unregister_locked nm)) with (unregister (Mx := Mx) nm) in Ho.
  destruct (unregister_locked nm _) as [res p']. destruct Hl as [Hwf' Hl].
  destruct (on_registry mx_new (unregister nm) w) as [res' w'].
  destruct (Ho Hwf') as (->&H1&H2&H3). split; [done|]. split; [done|]. unfold entries in *.
  rewrite H3. cbn [fst snd]. destruct Hl as [(->&Hs&->)|(->&->&Hn)].
  - by rewrite bool_decide_true.
  - rewrite delete_id by done. rewrite bool_decide_false; [done|]. rewrite Hn. by intros [].
Qed.

(** ** Good worlds *)

Record world_ok (w : W) : Prop := {
  wo_reg : reg_ready w;
  wo_next id : is_Some (w_objs w !! id) → (id < w_next w)%nat;
  wo_names nm id : w_names w !! nm = Some id → is_Some (w_objs w !! id);
  wo_inj nm nm' id : w_names w !! nm = Some id → w_names w !! nm' = Some id → nm = nm';
  wo_regname nm id : reg_id w = Some id → w_names w !! nm = Some id → nm = REGISTRY_NAME;
  wo_entries : map_Forall entry_good (entries w);
  wo_quota : total (entries w) ≤ TOTAL_QUOTA_BYTES;
  wo_heartbeat p : p ∈ hb_headers (w_heartbeat w) → p < Z.of_nat (w_next w);
}.

(** How a state, a header and the headers of a world evolve. *)
Definition state_step (s s' : Z) : Prop :=
  s' = s ∨ (s = SegmentState_value Active ∧ s' = SegmentState_value Draining) ∨
  s' = SegmentState_value Dead.

Definition header_step (h h' : ShmHeader) : Prop :=
  immutable_fields h' = immutable_fields h ∧ hmac h' = hmac h ∧ owner_pid h' = owner_pid h ∧
  owner_start_time h' = owner_start_time h ∧ state_step (state h) (state h').

Definition evolves (w w' : W) : Prop :=
  ∀ id sz h, headers w !! id = Some (sz, h) →
             ∃ h', headers w' !! id = Some (sz, h') ∧ header_step h h'.

#[export] Instance state_step_refl : Reflexive state_step.
Proof. by left. Qed.

#[export] Instance state_step_trans : Transitive state_step.
Proof.
  intros s1 s2 s3 H1 H2. destruct H2 as [->|[[-> ->]| ->]]; [done| |by right; right].
  destruct H1 as [<-|[[_ [=]]|[=]]]. right. by left.
Qed.

#[export] Instance header_step_refl : Reflexive header_step.
Proof. intros h. unfold header_step. by split_and!. Qed.

#[export] Instance header_step_trans : Transitive header_step.
Proof.
  intros x y z (?&?&?&?&S1) (?&?&?&?&S2). unfold header_step. split_and!; try congruence. by etrans.
Qed.

#[export] Instance evolves_refl : Reflexive evolves.
Proof. intros w id sz h H. by exists h. Qed.

#[export] Instance evolves_trans : Transitive evolves.
Proof.
  intros w1 w2 w3 H1 H2 id sz h H. destruct (H1 _ _ _ H) as (h2&E2&S2).
  destruct (H2 _ _ _ E2) as (h3&E3&S3). exists h3. split; [done|]. by etrans.
Qed.

Lemma evolves_same w w' : headers w' = headers w → evolves w w'.
Proof. intros E id sz h H. exists h. by rewrite E. Qed.

Lemma headers_lookup w id sz h :
  headers w !! id = Some (sz, h) ↔
  ∃ m b, w_objs w !! id = Some (mkSegment sz h m b).
Proof.
  unfold headers. rewrite lookup_fmap. destruct (w_objs w !! id) as [[]|]; cbn.
  - split; [intros [= -> ->]; eauto|]. by intros (?&?&[= -> -> -> ->]).
  - split; [done|]. by intros (?&?&?).
Qed.

Lemma headers_is_Some w id : is_Some (headers w !! id) ↔ is_Some (w_objs w !! id).
Proof. unfold headers. rewrite lookup_fmap. apply fmap_is_Some. Qed.

(** *** Steps on the registry *)

Lemma world_ok_reg w w' :
  world_ok w → same_but_reg w w' → reg_ready w' → map_Forall entry_good (entries w') →
  total (entries w') ≤ TOTAL_QUOTA_BYTES → world_ok w'.
Proof.
  intros [_ H2 H3 H4 H5 _ _ H8] S Hr He Hq.
  assert (Hd : ∀ id, is_Some (w_objs w' !! id) ↔ is_Some (w_objs w !! id)).
  { intros id. by rewrite <-!headers_is_Some, (sb_headers _ _ S). }
  split; try done.
  - intros id. rewrite Hd, (sb_next _ _ S). apply H2.
  - intros nm id. rewrite Hd, (sb_names _ _ S). apply H3.
  - intros nm nm' id. rewrite (sb_names _ _ S). apply H4.
  - intros nm id. unfold reg_id. rewrite (sb_names _ _ S), (sb_registry _ _ S). apply H5.
  - intros p. rewrite (sb_heartbeat _ _ S), (sb_next _ _ S). apply H8.
Qed.

Lemma ok_unregister sys nm w : world_ok w → world_ok (registry_unregister mx_new sys nm w).2.
Proof.
  intros Hw. pose proof (registry_unregister_ready sys nm w (wo_reg _ Hw)) as H.
  destruct (registry_unregister mx_new sys nm w) as [res w']. destruct H as (H1&H2&H3&_).
  apply (world_ok_reg w); try done; cbn [snd]; rewrite H3.
  - apply map_Forall_delete, Hw.
  - etrans; [apply total_delete_le, Hw|apply Hw].
Qed.

(** *** Steps that leave the registry alone *)

Lemma world_ok_frame w w' :
  world_ok w → registry_of mx_new w' = registry_of mx_new w → w_registry w' = w_registry w →
  w_names w' ⊆ w_names w → (∀ id, is_Some (w_objs w' !! id) ↔ is_Some (w_objs w !! id)) →
  w_next w' = w_next w → hb_headers (w_heartbeat w') ⊆ hb_headers (w_heartbeat w) → world_ok w'.
Proof.
  intros [H1 H2 H3 H4 H5 H6 H7 H8] Er Eh Hn Hd Ex Hh.
  assert (Hsub : ∀ nm id, w_names w' !! nm = Some id → w_names w !! nm = Some id).
  { intros nm id ?. by eapply lookup_weaken. }
  assert (Ee : entries w' = entries w) by (unfold entries; by rewrite Er).
  split.
  - unfold reg_ready. rewrite Er. exact H1.
  - intros id. rewrite Hd, Ex. apply H2.
  - intros nm id ?%Hsub. rewrite Hd. by eapply H3.
  - intros nm nm' id ?%Hsub ?%Hsub. by eapply H4.
  - intros nm id Hid ?%Hsub. unfold reg_id in Hid. rewrite Eh in Hid. by eapply H5.
  - rewrite Ee. exact H6.
  - rewrite Ee. exact H7.
  - intros p Hp. rewrite Ex. by apply H8, Hh.
Qed.

Lemma ok_set_fds n w : world_ok w → world_ok (set_fds n w).
Proof. intros H. by apply (world_ok_frame w). Qed.

Lemma ok_set_maps n w : world_ok w → world_ok (set_maps n w).
Proof. intros H. by apply (world_ok_frame w). Qed.

Lemma ok_close w : world_ok w → world_ok (close w).
Proof. apply ok_set_fds. Qed.

Lemma ok_munmap w : world_ok w → world_ok (munmap w).
Proof. apply ok_set_maps. Qed.

Lemma ok_set_heartbeats h w :
  (∀ p, p ∈ hb_headers h → p < Z.of_nat (w_next w)) → world_ok w → world_ok (set_heartbeats h w).
Proof. by intros Hh [H1 H2 H3 H4 H5 H6 H7 H8]. Qed.

Lemma ok_unlink sys nm w : world_ok w → world_ok (shm_unlink sys nm w).2.
Proof.
  intros H. unfold shm_unlink. destruct (fail_unlink sys nm); [done|].
  destruct (w_names w !! nm); [|done]. apply (world_ok_frame w); try done. apply delete_subseteq.
Qed.

Lemma registry_of_upd_seg f id w :
  reg_id w ≠ Some id ∨ (∀ s, sg_mutex (f s) = sg_mutex s ∧ sg_body (f s) = sg_body s) →
  registry_of mx_new (upd_seg f id w) = registry_of mx_new w.
Proof.
  intros Hf. unfold registry_of. change (w_registry (upd_seg f id w)) with (w_registry w).
  destruct (w_registry w ≫= base_) as [rid|] eqn:E; [|done].
  assert (Es : seg mx_new rid (upd_seg f id w) = seg mx_new rid w ∨
               (∀ s, sg_mutex (f s) = sg_mutex s ∧ sg_body (f s) = sg_body s) ∧
               seg mx_new rid (upd_seg f id w) = f (seg mx_new rid w)).
  { unfold seg, upd_seg. cbn [set_objs w_objs]. destruct (decide (rid = id)) as [->|Hne].
    - rewrite lookup_alter_eq. destruct Hf as [Hf|Hf]; [by destruct (Hf E)|].
      destruct (w_objs w !! id); [by right|by left].
    - rewrite lookup_alter_ne by done. by left. }
  destruct Es as [->|[Hf' ->]]; [done|]. destruct (Hf' (seg mx_new rid w)) as [-> ->]. done.
Qed.

Lemma ok_upd_seg f id w :
  reg_id w ≠ Some id ∨ (∀ s, sg_mutex (f s) = sg_mutex s ∧ sg_body (f s) = sg_body s) →
  world_ok w → world_ok (upd_seg f id w).
Proof.
  intros Hf Hw. apply (world_ok_frame w); try done; [by apply registry_of_upd_seg|].
  intros j. unfold upd_seg. cbn [set_objs w_objs]. apply lookup_alter_is_Some.
Qed.

Lemma ok_upd_header f id w : world_ok w → world_ok (upd_header f id w).
Proof. apply ok_upd_seg. right. by intros []. Qed.

Lemma ok_with_mutex g id w :
  reg_id w ≠ Some id → world_ok w → world_ok (upd_seg (λ s, with_mutex (g s) s) id w).
Proof. intros H. apply ok_upd_seg. by left. Qed.

(** *** How the steps move headers *)

Lemma evolves_upd_seg f id w :
  (∀ s, w_objs w !! id = Some s →
        sg_size (f s) = sg_size s ∧ header_step (sg_header s) (sg_header (f s))) →
  evolves w (upd_seg f id w).
Proof.
  intros Hf j sz h H. apply headers_lookup in H as (m&b&E). unfold headers, upd_seg.
  cbn [set_objs w_objs]. rewrite lookup_fmap. destruct (decide (j = id)) as [->|Hne].
  - rewrite lookup_alter_eq, E. destruct (Hf _ E) as [Hs Hh]. cbn in Hs, Hh |- *.
    rewrite Hs. eauto.
  - rewrite lookup_alter_ne, E by done. cbn. by exists h.
Qed.

Lemma evolves_upd_header f id w :
  (∀ s, w_objs w !! id = Some s → header_step (sg_header s) (f (sg_header s))) →
  evolves w (upd_header f id w).
Proof. intros Hf. apply evolves_upd_seg. intros s Hs. by split; [|apply Hf]. Qed.

Lemma header_step_ref_count c h : header_step h (set_ref_count c h).
Proof. unfold header_step. by split_and!. Qed.

Lemma header_step_dead h : header_step h (set_state Dead h).
Proof. unfold header_step. split_and!; try done. by right; right. Qed.

End inv.
