(* ===== verification/Janitor.v ===== *)
(** * The janitor pass [Registry::gc], entry by entry

    One turn of the loop touches one name: its binding, its registry entry and its object.
    Everything else is framed, so what the whole pass does to a name is what its turn does. *)

From S2P Require Import Prelude Types Sync Security Lifecycle Registry Manager ManagerInv.

#[local] Opaque NSLOTS reg_map.

Section janitor.
Context {Mx : Type} `{!RobustMutex Mx, !RobustMutexLaws Mx} (mx_new : Mx).

Abbreviation W := (World Mx).
Abbreviation world_ok := (world_ok mx_new).
Abbreviation entries := (entries mx_new).
Implicit Types w : W.

(** A step of the janitor on the name [nm] and the object [o]. *)
Record local_step (nm : bytes) (o : option nat) (w w' : W) : Prop := {
  ls_ok : world_ok w';
  ls_evolves : evolves w w';
  ls_names nm' : nm' ≠ nm → w_names w' !! nm' = w_names w !! nm';
  ls_name : w_names w' !! nm = w_names w !! nm ∨ w_names w' !! nm = None;
  ls_entries nm' : nm' ≠ nm → entries w' !! nm' = entries w !! nm';
  ls_objs id : o ≠ Some id → reg_id w ≠ Some id → w_objs w' !! id = w_objs w !! id;
  ls_headers id : o ≠ Some id → headers w' !! id = headers w !! id;
  ls_registry : w_registry w' = w_registry w;
  ls_next : w_next w' = w_next w;
  ls_heartbeat : w_heartbeat w' = w_heartbeat w;
}.

Lemma local_step_refl nm o w : world_ok w → local_step nm o w w.
Proof. intros. split; try done. by left. Qed.

Lemma local_step_trans nm o w1 w2 w3 :
  local_step nm o w1 w2 → local_step nm o w2 w3 → local_step nm o w1 w3.
Proof.
  intros S1 S2. split.
  - apply S2.
  - etrans; [apply S1|apply S2].
  - intros nm' H. by rewrite (ls_names _ _ _ _ S2), (ls_names _ _ _ _ S1).
  - destruct (ls_name _ _ _ _ S2) as [->|]; [apply S1|by right].
  - intros nm' H. by rewrite (ls_entries _ _ _ _ S2), (ls_entries _ _ _ _ S1).
  - intros id Ho Hr. rewrite (ls_objs _ _ _ _ S2), (ls_objs _ _ _ _ S1); try done.
    unfold reg_id in *. by rewrite (ls_registry _ _ _ _ S1).
  - intros id Ho. by rewrite (ls_headers _ _ _ _ S2), (ls_headers _ _ _ _ S1).
  - by rewrite (ls_registry _ _ _ _ S2), (ls_registry _ _ _ _ S1).
  - by rewrite (ls_next _ _ _ _ S2), (ls_next _ _ _ _ S1).
  - by rewrite (ls_heartbeat _ _ _ _ S2), (ls_heartbeat _ _ _ _ S1).
Qed.

(** ** Primitive steps *)

Lemma local_fds nm o n w : world_ok w → local_step nm o w (set_fds n w).
Proof. intros H. split; try done; [by apply ok_set_fds|by apply evolves_same|by left]. Qed.

Lemma local_maps nm o n w : world_ok w → local_step nm o w (set_maps n w).
Proof. intros H. split; try done; [by apply ok_set_maps|by apply evolves_same|by left]. Qed.

Lemma local_unlink sys nm o w : world_ok w → local_step nm o w (shm_unlink sys nm w).2.
Proof.
  intros H. pose proof (ok_unlink mx_new sys nm w H) as Hok. revert Hok. unfold shm_unlink.
  destruct (fail_unlink sys nm); [by intros; apply local_step_refl|].
  destruct (w_names w !! nm) eqn:E; [|by intros; apply local_step_refl].
  intros Hok. split; try done.
  - by apply evolves_same.
  - intros nm' Hne. cbn. by apply lookup_delete_ne.
  - right. cbn. apply lookup_delete_eq.
Qed.

(** A step on the registry only. *)
Lemma local_reg nm o w w' :
  world_ok w' → same_but_reg w w' → (∀ nm', nm' ≠ nm → entries w' !! nm' = entries w !! nm') →
  local_step nm o w w'.
Proof.
  intros Hok S He. split; try done.
  - by apply evolves_same, sb_headers.
  - intros nm' _. by rewrite (sb_names _ _ S).
  - left. by rewrite (sb_names _ _ S).
  - intros id _ Hr. by apply (sb_objs _ _ S).
  - intros id _. by rewrite (sb_headers _ _ S).
  - apply S.
  - apply S.
  - apply S.
Qed.

Lemma local_unregister sys nm o w : world_ok w → local_step nm o w (registry_unregister mx_new sys nm w).2.
Proof.
  intros H. pose proof (ok_unregister mx_new sys nm w H) as Hok.
  pose proof (registry_unregister_ready mx_new sys nm w (wo_reg _ _ H)) as Hu.
  destruct (registry_unregister mx_new sys nm w) as [res w']. destruct Hu as (_&Hs&He&_).
  apply local_reg; try done. intros nm' Hne. cbn [snd]. rewrite He. by apply lookup_delete_ne.
Qed.

(** Replacing an entry by one of the same size. *)
Lemma ok_replace w w' nm e e' :
  world_ok w → same_but_reg w w' → reg_ready mx_new w' → entries w !! nm = Some e →
  e_total_size e' = e_total_size e → entries w' = <[nm := e']> (entries w) → world_ok w'.
Proof.
  intros H Hs Hr He Ht E. apply (world_ok_reg _ w); try done; rewrite E.
  - apply map_Forall_insert_2; [|apply H]. pose proof (wo_entries _ _ H _ _ He) as (?&?&?).
    unfold entry_good. by rewrite Ht.
  - rewrite <-(insert_delete_eq (entries w) nm e'), total_insert by apply lookup_delete_eq.
    rewrite Ht, <-(total_delete _ _ _ He). apply H.
Qed.

(** The time of an entry that is listed can always be renewed. *)
Lemma last_seen_ready sys e now w :
  world_ok w → entries w !! entry_name e = Some (erase e) →
  let w' := update_registry_last_seen mx_new sys e now w in
  reg_ready mx_new w' ∧ same_but_reg w w' ∧ entries w' = <[entry_name e := erase (set_last_seen now e)]> (entries w).
Proof.
  intros H He. destruct (reg_map_entry _ _ _ (proj1 (proj2 (wo_reg _ _ H))) He) as (Hok&_&_).
  pose proof (registry_register_ready mx_new sys (set_last_seen now e) w (wo_reg _ _ H)) as Hr.
  unfold update_registry_last_seen. change (entry_name (set_last_seen now e)) with (entry_name e) in Hr.
  destruct (registry_register mx_new sys (set_last_seen now e) w) as [res w'].
  destruct Hr as (H1&H2&[[_ H3]|(_&_&H3&_)]); [exact Hok|done|congruence].
Qed.

Lemma local_last_seen sys e o now w :
  world_ok w → entries w !! entry_name e = Some (erase e) →
  local_step (entry_name e) o w (update_registry_last_seen mx_new sys e now w).
Proof.
  intros H He. destruct (last_seen_ready sys e now w H He) as (H1&H2&H3). set (w' := update_registry_last_seen _ _ _ _ _) in *.
  apply local_reg; [by apply (ok_replace w w' (entry_name e) (erase e) (erase (set_last_seen now e)))|done|].
  intros nm' Hne. rewrite H3. by apply lookup_insert_ne.
Qed.

Lemma local_upd_seg f nm id w :
  world_ok w → reg_id w ≠ Some id ∨ (∀ s, sg_mutex (f s) = sg_mutex s ∧ sg_body (f s) = sg_body s) →
  (∀ s, w_objs w !! id = Some s →
        sg_size (f s) = sg_size s ∧ header_step (sg_header s) (sg_header (f s))) →
  local_step nm (Some id) w (upd_seg f id w).
Proof.
  intros H Hf Hh. assert (Er : registry_of mx_new (upd_seg f id w) = registry_of mx_new w)
    by by apply registry_of_upd_seg.
  assert (Ho : ∀ j, Some id ≠ Some j → w_objs (upd_seg f id w) !! j = w_objs w !! j).
  { intros j Hj. unfold upd_seg. cbn [set_objs w_objs]. apply lookup_alter_ne. congruence. }
  split; [by apply ok_upd_seg|by apply evolves_upd_seg|done|by left|..|done|done|done].
  - intros nm' _. unfold ManagerInv.entries. by rewrite Er.
  - intros j Hj _. by apply Ho.
  - intros j Hj. unfold headers. by rewrite !lookup_fmap, Ho.
Qed.

Lemma local_upd_header f nm id w :
  world_ok w → (∀ s, w_objs w !! id = Some s → header_step (sg_header s) (f (sg_header s))) →
  local_step nm (Some id) w (upd_header f id w).
Proof. intros H Hf. apply local_upd_seg; [done|right; by intros []|]. intros s Hs. by split; [|apply Hf]. Qed.

Lemma local_with_mutex g nm id w :
  world_ok w → reg_id w ≠ Some id → local_step nm (Some id) w (upd_seg (λ s, with_mutex (g s) s) id w).
Proof. intros H Hr. apply local_upd_seg; [done|by left|]. intros s _. by split. Qed.

(** ** Steps in sequence *)

Section sequence.
Variables (nm : bytes) (o : option nat) (w : W).

Lemma then_close w1 : local_step nm o w w1 → local_step nm o w (close w1).
Proof. intros S. eapply local_step_trans; [done|]. apply local_fds, S. Qed.

Lemma then_munmap w1 : local_step nm o w w1 → local_step nm o w (munmap w1).
Proof. intros S. eapply local_step_trans; [done|]. apply local_maps, S. Qed.

Lemma then_fds n w1 : local_step nm o w w1 → local_step nm o w (set_fds n w1).
Proof. intros S. eapply local_step_trans; [done|]. apply local_fds, S. Qed.

Lemma then_maps n w1 : local_step nm o w w1 → local_step nm o w (set_maps n w1).
Proof. intros S. eapply local_step_trans; [done|]. apply local_maps, S. Qed.

Lemma then_unlink sys w1 : local_step nm o w w1 → local_step nm o w (shm_unlink sys nm w1).2.
Proof. intros S. eapply local_step_trans; [done|]. apply local_unlink, S. Qed.

Lemma then_unregister sys w1 :
  local_step nm o w w1 → local_step nm o w (registry_unregister mx_new sys nm w1).2.
Proof. intros S. eapply local_step_trans; [done|]. apply local_unregister, S. Qed.

Lemma then_mutex m id w1 :
  o = Some id → reg_id w ≠ Some id → local_step nm o w w1 →
  local_step nm o w (upd_seg (with_mutex m) id w1).
Proof.
  intros -> Hr S. eapply local_step_trans; [done|]. apply (local_with_mutex (λ _, m)); [apply S|].
  unfold reg_id in *. by rewrite (ls_registry _ _ _ _ S).
Qed.

Lemma then_mutex_fun g id w1 :
  o = Some id → reg_id w ≠ Some id → local_step nm o w w1 →
  local_step nm o w (upd_seg (λ s, with_mutex (g s) s) id w1).
Proof.
  intros -> Hr S. eapply local_step_trans; [done|]. apply local_with_mutex; [apply S|].
  unfold reg_id in *. by rewrite (ls_registry _ _ _ _ S).
Qed.

Lemma then_dead id w1 :
  o = Some id → local_step nm o w w1 → local_step nm o w (upd_header (set_state Dead) id w1).
Proof.
  intros -> S. eapply local_step_trans; [done|]. apply local_upd_header; [apply S|].
  intros s _. apply header_step_dead.
Qed.
End sequence.

(** Prove a [local_step] to a world that primitive steps lead to. *)
Ltac local_steps :=
  repeat match goal with
  | |- local_step _ _ ?w ?w => by apply local_step_refl
  | S : local_step _ _ ?w ?w1 |- local_step _ _ ?w ?w1 => exact S
  | |- local_step _ _ _ (close _) => apply then_close
  | |- local_step _ _ _ (munmap _) => apply then_munmap
  | |- local_step _ _ _ (set_fds _ _) => apply then_fds
  | |- local_step _ _ _ (set_maps _ _) => apply then_maps
  | |- local_step _ _ _ (shm_unlink _ _ _).2 => apply then_unlink
  | |- local_step _ _ _ (registry_unregister _ _ _ _).2 => apply then_unregister
  | |- local_step _ _ _ (upd_seg (with_mutex _) _ _) => apply then_mutex; [done|done|]
  | |- local_step _ _ _ (upd_seg (λ s, with_mutex _ s) _ _) => apply then_mutex_fun; [done|done|]
  | |- local_step _ _ _ (upd_header (set_state Dead) _ _) => apply then_dead; [done|]
  end.

Ltac local_branch :=
  match goal with |- local_step _ _ _ (if ?b then _ else _) => destruct b eqn:? end.

Lemma gc_reap_local sys now nm id w :
  world_ok w → reg_id w ≠ Some id → local_step nm (Some id) w (gc_reap mx_new sys now nm id w).
Proof.
  intros H Hr. unfold gc_reap. destruct (ShmMutexGuard.make _) as [g m].
  destruct (ShmMutexGuard.locked_ g); [|local_steps].
  destruct (if ShmMutexGuard.prior_owner_dead_ g then _ else _) as [g' m'].
  destruct (_ && _)%bool; local_steps.
Qed.

Lemma gc_entry_local sys now e w :
  world_ok w → entries w !! entry_name e = Some (erase e) →
  local_step (entry_name e) (w_names w !! entry_name e) w (gc_entry mx_new sys now e w).
Proof.
  intros H He. unfold gc_entry. set (nm := entry_name e) in *.
  destruct (bool_decide (nm = []) || bool_decide (nm = REGISTRY_NAME))%bool eqn:Eb; [local_steps|].
  apply orb_false_iff in Eb as [_ Hne%bool_decide_eq_false].
  unfold shm_open. destruct (fail_open sys nm) as [[]|]; local_steps.
  destruct (w_names w !! nm) as [id|] eqn:En; [|local_steps].
  assert (Hr : reg_id w ≠ Some id) by (intros Hr; by apply Hne, (wo_regname _ _ H nm id)).
  set (w1 := set_fds (w_fds w + 1) w). destruct (_ || _)%bool; [unfold w1; local_steps|].
  unfold mmap. destruct (mmap_error sys nm _); [unfold w1; local_steps|].
  set (w2 := set_maps (w_maps w1 + 1) w1).
  assert (S2 : local_step nm (Some id) w w2) by (unfold w2, w1; local_steps).
  destruct (negb _); [local_steps|].
  set (hdr := sg_header (seg mx_new id w2)). set (dead := owner_is_dead _ _ _).
  destruct (dead && _)%bool.
  { apply then_close, then_munmap. eapply local_step_trans; [done|]. apply gc_reap_local; [apply S2|done]. }
  destruct (dead && _ && _)%bool eqn:Ea.
  - bool_prop. apply then_close, then_munmap.
    assert (S3 : local_step nm (Some id) w2 (upd_header (set_state Draining) id w2)).
    { apply local_upd_header; [apply S2|]. intros s Hs. unfold header_step.
      split_and!; try done. right. left. split; [|done].
      match goal with E : decode_state _ = Some Active |- _ => revert E end.
      unfold hdr. rewrite (seg_lookup mx_new _ _ _ Hs). unfold decode_state.
      repeat case_bool; intros [=]; bool_prop; done. }
    eapply local_step_trans; [done|]. eapply local_step_trans; [done|].
    apply local_last_seen; [apply S3|]. unfold ManagerInv.entries, upd_header.
    rewrite registry_of_upd_seg; [exact He|right; by intros []].
  - local_branch; [local_branch|]; local_steps.
Qed.

(** ** Descriptors and mappings *)

Definition resources (w : W) : Z * Z := (w_fds w, w_maps w).

Lemma on_registry_resources {A} (f : Registry Mx → A * Registry Mx) w :
  resources (on_registry mx_new f w).2 = resources w ∧
  w_registry (on_registry mx_new f w).2 = w_registry w.
Proof.
  unfold on_registry. destruct (f _) as [a r]. unfold store_registry. cbn [snd].
  destruct (w_registry w ≫= base_) as [id|]; [|done]. by destruct (sg_body _).
Qed.

Lemma unregister_resources sys nm w :
  is_Some (w_registry w) →
  resources (registry_unregister mx_new sys nm w).2 = resources w ∧
  w_registry (registry_unregister mx_new sys nm w).2 = w_registry w.
Proof.
  intros [h E]. unfold registry_unregister, instance. rewrite E. rewrite <-E. apply on_registry_resources.
Qed.

Lemma unlink_resources sys nm w :
  resources (shm_unlink sys nm w).2 = resources w ∧
  w_registry (shm_unlink sys nm w).2 = w_registry w.
Proof. unfold shm_unlink. destruct (fail_unlink sys nm); [done|]. by destruct (w_names w !! nm). Qed.

Lemma reap_resources sys now nm id w :
  is_Some (w_registry w) → resources (gc_reap mx_new sys now nm id w) = resources w.
Proof.
  intros Hr. unfold gc_reap. destruct (ShmMutexGuard.make _) as [g m].
  destruct (ShmMutexGuard.locked_ g); [|done].
  destruct (if ShmMutexGuard.prior_owner_dead_ g then _ else _) as [g' m'].
  match goal with |- context [if ?b then _ else _] => destruct b end; [|done].
  set (w1 := upd_header _ _ _). destruct (unlink_resources sys nm w1) as [E1 E2].
  destruct (unregister_resources sys nm (shm_unlink sys nm w1).2) as [E3 _]; [by rewrite E2|].
  transitivity (resources w1); [|done]. rewrite <-E1, <-E3. done.
Qed.

(** Every turn closes what it opened. *)
Lemma gc_entry_resources sys now e w :
  is_Some (w_registry w) → resources (gc_entry mx_new sys now e w) = resources w.
Proof.
  intros Hr. unfold gc_entry. set (nm := entry_name e). destruct (_ || _)%bool; [done|].
  assert (Hu : ∀ w', w_registry w' = w_registry w →
               resources (registry_unregister mx_new sys nm w').2 = resources w').
  { intros w' E. apply unregister_resources. by rewrite E. }
  assert (Hback : ∀ w', resources w' = (w_fds w + 1, w_maps w + 1) →
                  resources (close (munmap w')) = resources w).
  { intros w' [= E1 E2]. unfold resources. cbn. f_equal; lia. }
  unfold shm_open. destruct (fail_open sys nm) as [[]|]; try done; [by apply Hu|].
  destruct (w_names w !! nm) as [id|]; [|by apply Hu].
  set (w1 := set_fds (w_fds w + 1) w).
  assert (E1 : resources (close w1) = resources w) by (unfold resources; cbn; f_equal; lia).
  destruct (_ || _)%bool; [by rewrite Hu|]. unfold mmap. destruct (mmap_error sys nm _); [done|].
  set (w2 := set_maps (w_maps w1 + 1) w1).
  destruct (negb _); [rewrite Hu by done; by apply Hback|].
  match goal with |- context [if ?b then _ else _] => destruct b end.
  { apply Hback. by rewrite reap_resources. }
  match goal with |- context [if ?b then _ else _] => destruct b end.
  { apply Hback. unfold update_registry_last_seen, registry_register, instance.
    destruct Hr as [h Hr]. change (w_registry (upd_header _ id w2)) with (w_registry w). rewrite Hr.
    by rewrite (proj1 (on_registry_resources _ _)). }
  match goal with |- context [if ?b then _ else _] => destruct b end; [|by apply Hback].
  destruct (negb _); [|by apply Hback]. destruct (unlink_resources sys nm (close (munmap w2))) as [E3 E4].
  rewrite Hu by by rewrite E4. rewrite E3. by apply Hback.
Qed.

(** ** The whole pass *)

(** A name no entry of the list carries is not touched. *)
Record pass (es : list RegistryEntry) (w w' : W) : Prop := {
  ps_ok : world_ok w';
  ps_evolves : evolves w w';
  ps_registry : w_registry w' = w_registry w;
  ps_next : w_next w' = w_next w;
  ps_heartbeat : w_heartbeat w' = w_heartbeat w;
  ps_resources : resources w' = resources w;
  ps_sub nm : w_names w' !! nm = w_names w !! nm ∨ w_names w' !! nm = None;
  ps_names nm : nm ∉ entry_name <$> es → w_names w' !! nm = w_names w !! nm;
  ps_entries nm : nm ∉ entry_name <$> es → entries w' !! nm = entries w !! nm;
  ps_objs id : (∀ nm, nm ∈ entry_name <$> es → w_names w !! nm ≠ Some id) → reg_id w ≠ Some id →
               w_objs w' !! id = w_objs w !! id;
}.

Lemma gc_fold sys now es w :
  world_ok w → NoDup (entry_name <$> es) →
  Forall (λ e, entries w !! entry_name e = Some (erase e)) es →
  pass es w (fold_left (λ w e, gc_entry mx_new sys now e w) es w).
Proof.
  revert w. induction es as [|e es IH]; intros w H Hnd Hes; cbn [fold_left].
  { split; try done. by left. }
  rewrite fmap_cons in Hnd. apply NoDup_cons in Hnd as [Hni Hnd].
  apply Forall_cons in Hes as [He Hes]. pose proof (gc_entry_local sys now e w H He) as S.
  assert (Hne : ∀ x, x ∈ es → entry_name x ≠ entry_name e).
  { intros x Hx Ex. apply Hni. rewrite <-Ex. by apply list_elem_of_fmap_2. }
  destruct (IH (gc_entry mx_new sys now e w)) as [H1 H2 H3 H4 H5 H6 H7 H8 H9 H10]; [apply S|done| |].
  { apply Forall_forall. intros x Hx. rewrite (ls_entries _ _ _ _ S) by by apply Hne.
    by eapply (proj1 (Forall_forall _ _) Hes). }
  split; [done|etrans; [apply S|done]|by rewrite H3, (ls_registry _ _ _ _ S)
    |by rewrite H4, (ls_next _ _ _ _ S)|by rewrite H5, (ls_heartbeat _ _ _ _ S)|..].
  - rewrite H6. apply gc_entry_resources. by apply (reg_ready_constructed mx_new), H.
  - intros nm. destruct (H7 nm) as [->|]; [|by right].
    destruct (decide (nm = entry_name e)) as [->|]; [apply S|left; by apply S].
  - intros nm [? ?]%not_elem_of_cons. rewrite H8 by done. by apply S.
  - intros nm [? ?]%not_elem_of_cons. rewrite H9 by done. by apply S.
  - intros id Hid Hr. rewrite H10.
    + apply S; [|done]. apply Hid. rewrite fmap_cons. apply elem_of_cons. by left.
    + intros nm Hnm. rewrite (ls_names _ _ _ _ S).
      * apply Hid. rewrite fmap_cons. apply elem_of_cons. by right.
      * apply list_elem_of_fmap in Hnm as (x&->&Hx). by apply Hne.
    + unfold reg_id in *. by rewrite (ls_registry _ _ _ _ S).
Qed.

(** What [list] hands to the janitor. *)
Lemma listed_entries w :
  world_ok w →
  let es := list_spec [] (rg_payload (registry_of mx_new w)) (seq 0 NSLOTS) in
  NoDup (entry_name <$> es) ∧
  Forall (λ e, entries w !! entry_name e = Some (erase e)) es ∧
  (∀ nm e, entries w !! nm = Some e → ∃ x, x ∈ es ∧ erase x = e ∧ entry_name x = nm).
Proof.
  intros H es. pose proof (proj1 (proj2 (wo_reg _ _ H))) as Hwf.
  pose proof (list_spec_all _ Hwf) as Hp. fold es in Hp. fold (entries w) in Hp.
  assert (Hn : entry_name <$> es ≡ₚ (map_to_list (entries w)).*1).
  { change (entry_name <$> es) with ((entry_name ∘ erase) <$> es). rewrite list_fmap_compose, Hp.
    apply reflexive_eq. rewrite <-list_fmap_compose. apply Forall_fmap_ext_1, Forall_forall.
    intros [nm e] Hx%elem_of_map_to_list. by destruct (reg_map_entry _ _ _ Hwf Hx) as (_&?&_). }
  split_and!.
  - rewrite Hn. apply NoDup_fst_map_to_list.
  - apply Forall_forall. intros e He. apply (list_elem_of_fmap_2 erase) in He. rewrite Hp in He.
    apply list_elem_of_fmap in He as ([nm e']&He&Hx%elem_of_map_to_list). cbn in He. subst e'.
    destruct (reg_map_entry _ _ _ Hwf Hx) as (_&Hnm&_).
    change (entry_name (erase e)) with (entry_name e) in Hnm. by rewrite Hnm.
  - intros nm e He. assert (Hin : e ∈ erase <$> es).
    { rewrite Hp. apply list_elem_of_fmap. exists (nm, e). split; [done|]. by apply elem_of_map_to_list. }
    apply list_elem_of_fmap in Hin as (x&->&Hx). exists x. split_and!; try done.
    by destruct (reg_map_entry _ _ _ Hwf He) as (_&?&_).
Qed.

Lemma gc_pass sys w :
  world_ok w →
  pass (list_spec [] (rg_payload (registry_of mx_new w)) (seq 0 NSLOTS)) w (gc mx_new sys w).
Proof.
  intros H. destruct (listed_entries w H) as (Hnd&Hes&_). unfold gc.
  rewrite registry_list_ready by apply H. by apply gc_fold.
Qed.

(** The pass seen from one name: its turn, on a world that agrees about the name. *)
Lemma gc_turn sys w nm e :
  world_ok w → entries w !! nm = Some e →
  ∃ w1 x, erase x = e ∧ entry_name x = nm ∧ world_ok w1 ∧
    (w_names w1 !! nm = w_names w !! nm ∧ entries w1 !! nm = entries w !! nm ∧ reg_id w1 = reg_id w ∧
     ∀ id, w_names w !! nm = Some id → reg_id w ≠ Some id → w_objs w1 !! id = w_objs w !! id) ∧
    let w2 := gc_entry mx_new sys (monotonic_ns (sys_os sys)) x w1 in
    (w_names (gc mx_new sys w) !! nm = w_names w2 !! nm ∧
     entries (gc mx_new sys w) !! nm = entries w2 !! nm ∧
     ∀ id, w_names w !! nm = Some id → reg_id w ≠ Some id →
           w_objs (gc mx_new sys w) !! id = w_objs w2 !! id).
Proof.
  intros H He. destruct (listed_entries w H) as (Hnd&Hes&Hall).
  destruct (Hall nm e He) as (x&Hx&<-&Hn). unfold gc. rewrite registry_list_ready by apply H.
  set (es := list_spec _ _ _) in *. set (now := monotonic_ns _).
  apply list_elem_of_split in Hx as (l1&l2&Ees). rewrite Ees in *. rewrite fold_left_app. cbn [fold_left].
  set (f := λ w e, gc_entry mx_new sys now e w).
  rewrite fmap_app, fmap_cons in Hnd. apply NoDup_app in Hnd as (Hn1&Hdis&[Hni Hn2]%NoDup_cons).
  apply Forall_app in Hes as [He1 [Hx0 He2]%Forall_cons].
  assert (Hnot1 : entry_name x ∉ entry_name <$> l1).
  { intros Hin. apply (Hdis _ Hin). apply elem_of_cons. by left. }
  pose proof (gc_fold sys now l1 w H Hn1 He1) as P1. fold f in P1. set (w1 := fold_left f l1 w) in *.
  assert (Hx1 : entries w1 !! entry_name x = Some (erase x)) by by rewrite (ps_entries _ _ _ P1).
  pose proof (gc_entry_local sys now x w1 (ps_ok _ _ _ P1) Hx1) as S.
  assert (P2 : pass l2 (f w1 x) (fold_left f l2 (f w1 x))).
  { apply gc_fold; [apply S|done|]. apply Forall_forall. intros y Hy.
    assert ((entry_name y ∉ (entry_name <$> l1)) ∧ entry_name y ≠ entry_name x) as [Hy1 Hy2].
    { split.
      - intros Hin. apply (Hdis _ Hin). apply elem_of_cons. right. by apply list_elem_of_fmap_2.
      - intros Eyx. apply Hni. rewrite <-Eyx. by apply list_elem_of_fmap_2. }
    unfold f. rewrite (ls_entries _ _ _ _ S), (ps_entries _ _ _ P1) by done.
    by eapply (proj1 (Forall_forall _ _) He2). }
  assert (Er : reg_id w1 = reg_id w) by (unfold reg_id; by rewrite (ps_registry _ _ _ P1)).
  exists w1, x. subst nm. split_and!; try done.
  - apply P1.
  - by apply (ps_names _ _ _ P1).
  - by apply (ps_entries _ _ _ P1).
  - intros id Hid Hr. apply (ps_objs _ _ _ P1); [|done]. intros nm' Hin Hid'.
    apply Hnot1. by rewrite (wo_inj _ _ H _ _ _ Hid Hid').
  - by apply (ps_names _ _ _ P2).
  - by apply (ps_entries _ _ _ P2).
  - intros id Hid Hr. apply (ps_objs _ _ _ P2).
    + intros nm' Hin Hid'. assert (nm' ≠ entry_name x) as Hne by (intros ->; done).
      unfold f in Hid'. rewrite (ls_names _ _ _ _ S) in Hid' by done.
      destruct (ps_sub _ _ _ P1 nm') as [E|E]; [|by rewrite E in Hid'].
      rewrite E in Hid'. apply Hne. by apply (wo_inj _ _ H _ _ _ Hid' Hid).
    + unfold reg_id in *. unfold f. rewrite (ls_registry _ _ _ _ S), (ps_registry _ _ _ P1). done.
Qed.

(** ** The turn of one name *)

(** The janitor may reclaim a segment in two cases: its owner is dead and nobody refers to it,
    or it has been draining for more than an hour and no process maps it. *)
Definition orphaned (sys : Sys) (now : Z) (hdr : ShmHeader) : Prop :=
  owner_is_dead (sys_os sys) hdr now = true ∧ ref_count hdr = 0.

Definition zombie (sys : Sys) (now : Z) (nm : bytes) (e : RegistryEntry) (hdr : ShmHeader) : Prop :=
  decode_state (state hdr) = Some Draining ∧ e_last_seen_ns e ≠ 0 ∧ e_last_seen_ns e < now ∧
  SEGMENT_ZOMBIE_NS < now - e_last_seen_ns e ∧ any_process_maps_segment (sys_os sys) nm = false.

(** No call fails that the names let succeed. *)
Record sys_ok (sys : Sys) : Prop := {
  so_open nm : fail_open sys nm = None;
  so_fchmod : fail_fchmod sys = false;
  so_ftruncate : fail_ftruncate sys = None;
  so_mmap nm : fail_mmap sys nm = None;
  so_fstat nm : fail_fstat sys nm = None;
  so_unlink nm : fail_unlink sys nm = None;
  so_mutex : init_control_mutex (mutex_rcs sys) = Ok;
}.

Definition seg_intact (s : Segment Mx) : Prop :=
  SHMFX_HEADER_SIZE ≤ sg_size s ∧ janitor_header_valid (sg_header s) (sg_size s) = true.

#[export] Instance orphaned_dec sys now hdr : Decision (orphaned sys now hdr).
Proof. unfold orphaned. apply _. Defined.

#[export] Instance zombie_dec sys now nm e hdr : Decision (zombie sys now nm e hdr).
Proof. unfold zombie. apply _. Defined.

Lemma unlink_named sys nm id w :
  fail_unlink sys nm = None → w_names w !! nm = Some id →
  w_names (shm_unlink sys nm w).2 !! nm = None ∧ w_objs (shm_unlink sys nm w).2 = w_objs w.
Proof. intros Hf En. unfold shm_unlink. rewrite Hf, En. cbn. by rewrite lookup_delete_eq. Qed.

(** A step on the registry keeps names and other objects. *)
Lemma same_but_reg_at w w' nm id s :
  same_but_reg w w' → reg_id w ≠ Some id → w_names w !! nm = Some id → w_objs w !! id = Some s →
  w_names w' !! nm = Some id ∧ w_objs w' !! id = Some s.
Proof. intros S Hr Hn Ho. by rewrite (sb_names _ _ S), (sb_objs _ _ S). Qed.

Lemma unregister_same sys nm w :
  world_ok w → same_but_reg w (registry_unregister mx_new sys nm w).2 ∧
  entries (registry_unregister mx_new sys nm w).2 = delete nm (entries w).
Proof.
  intros H. pose proof (registry_unregister_ready mx_new sys nm w (wo_reg _ _ H)) as Hu.
  destruct (registry_unregister mx_new sys nm w) as [res w']. destruct Hu as (_&Hs&He&_). done.
Qed.

(** What a turn makes of a segment it must keep. *)
Definition kept (sys : Sys) (now : Z) (x : RegistryEntry) (id : nat) (s : Segment Mx) (w' : W) : Prop :=
  w_names w' !! entry_name x = Some id ∧
  (∃ s', w_objs w' !! id = Some s' ∧ sg_size s' = sg_size s ∧ sg_mutex s' = sg_mutex s ∧
         sg_body s' = sg_body s ∧
         (sg_header s' = sg_header s ∨
          owner_is_dead (sys_os sys) (sg_header s) now = true ∧
          sg_header s' = set_state Draining (sg_header s))) ∧
  (sys_ok sys → seg_intact s →
   entries w' !! entry_name x = Some (erase x) ∨
   entries w' !! entry_name x = Some (erase (set_last_seen now x))).

(** The branch for a dead owner of a segment that others hold. *)
Lemma drained_kept sys now x id s w :
  world_ok w → entries w !! entry_name x = Some (erase x) → w_names w !! entry_name x = Some id → w_objs w !! id = Some s →
  reg_id w ≠ Some id → owner_is_dead (sys_os sys) (sg_header s) now = true →
  kept sys now x id s (update_registry_last_seen mx_new sys x now (upd_header (set_state Draining) id w)).
Proof.
  intros H He En Eo Hr Hd. set (w3 := upd_header (set_state Draining) id w).
  assert (H3 : world_ok w3) by by apply ok_upd_header.
  assert (Ee : entries w3 !! entry_name x = Some (erase x)).
  { unfold ManagerInv.entries, w3, upd_header. by rewrite registry_of_upd_seg by (right; by intros []). }
  destruct (last_seen_ready sys x now w3 H3 Ee) as (_&S&E4). set (w4 := update_registry_last_seen _ _ _ _ _) in *.
  assert (Eo3 : w_objs w3 !! id = Some (with_header (set_state Draining) s)).
  { unfold w3, upd_header, upd_seg. cbn. by rewrite lookup_alter_eq, Eo. }
  destruct (same_but_reg_at w3 w4 _ id _ S Hr En Eo3) as [Hn4 Ho4].
  split; [done|]. split; [exists (with_header (set_state Draining) s); by auto 8|].
  intros _ _. right. rewrite E4. apply lookup_insert_eq.
Qed.

Lemma gc_entry_kept sys now x id s w :
  world_ok w → entries w !! entry_name x = Some (erase x) →
  w_names w !! entry_name x = Some id → w_objs w !! id = Some s →
  ¬ orphaned sys now (sg_header s) → ¬ zombie sys now (entry_name x) x (sg_header s) →
  kept sys now x id s (gc_entry mx_new sys now x w).
Proof.
  intros H He En Eo Horph Hzomb. set (nm := entry_name x) in *.
  destruct (wo_entries _ _ H _ _ He) as (Hv&Hnr&_). destruct (parse_value_name _ Hv) as [_ Hne].
  assert (Hr : reg_id w ≠ Some id) by (intros Hr; by apply Hnr, (wo_regname _ _ H nm id)).
  assert (Hsame : ∀ w', w_names w' = w_names w → w_objs w' = w_objs w → w_registry w' = w_registry w →
            kept sys now x id s w').
  { intros w' E1 E2 E3. split; [by rewrite E1|]. split; [exists s; rewrite E2; by auto 6|].
    intros _ _. left. unfold ManagerInv.entries, registry_of. rewrite E3. unfold seg. by rewrite E2. }
  assert (Hdrop : ∀ w', world_ok w' → w_names w' = w_names w → w_objs w' = w_objs w →
            w_registry w' = w_registry w → ¬ (sys_ok sys ∧ seg_intact s) →
            kept sys now x id s (registry_unregister mx_new sys nm w').2).
  { intros w' H' E1 E2 E3 Hno. destruct (unregister_same sys nm w' H') as [S _].
    destruct (same_but_reg_at w' _ nm id s S) as [Hn Ho];
      [unfold reg_id in *; by rewrite E3|by rewrite E1|by rewrite E2|].
    split; [done|]. split; [exists s; by auto 6|]. by intros; destruct Hno. }
  unfold gc_entry. fold nm. rewrite !bool_decide_false by done. cbn [orb].
  unfold shm_open. destruct (fail_open sys nm) as [[]|] eqn:Ef; try (by apply Hsame).
  { apply Hdrop; try done. intros [Hs _]. by rewrite (so_open _ Hs) in Ef. }
  rewrite En. set (w1 := set_fds _ w). rewrite (seg_lookup mx_new w1 id s Eo).
  destruct (_ || _)%bool eqn:Eb.
  { apply Hdrop; try done; [by apply ok_close, ok_set_fds|]. intros [Hs [Hi _]].
    rewrite (so_fstat _ Hs), bool_decide_false in Eb by (by intros []). cbn [orb] in Eb. bool_prop. lia. }
  unfold mmap. destruct (mmap_error sys nm _); [by apply Hsame|]. set (w2 := set_maps _ w1).
  rewrite (seg_lookup mx_new w2 id s Eo). destruct (janitor_header_valid _ _) eqn:Ej; cbn [negb].
  2: { apply Hdrop; try done; [by apply ok_close, ok_munmap, ok_set_maps, ok_set_fds|].
       intros [_ [_ Hj]]. congruence. }
  destruct (owner_is_dead (sys_os sys) (sg_header s) now) eqn:Ed; cbn [andb].
  - destruct (Z.eqb_spec (ref_count (sg_header s)) 0) as [E0|E0]; [by destruct Horph|].
    destruct (_ && _)%bool eqn:Ea.
    + apply (drained_kept sys now x id s w2); try done. by apply ok_set_maps, ok_set_fds.
    + destruct (_ && _ && _ && _)%bool eqn:Ez; [|by apply Hsame].
      destruct (any_process_maps_segment _ _) eqn:Em; [by apply Hsame|].
      destruct Hzomb. bool_prop. by split_and!.
  - destruct (_ && _ && _ && _)%bool eqn:Ez; [|by apply Hsame].
    destruct (any_process_maps_segment _ _) eqn:Em; [by apply Hsame|].
    destruct Hzomb. bool_prop. by split_and!.
Qed.

(** What a turn makes of a segment it reclaims. *)
Definition reclaimed (nm : bytes) (id : nat) (s : Segment Mx) (w' : W) : Prop :=
  w_names w' !! nm = None ∧ entries w' !! nm = None ∧
  ∃ m, w_objs w' !! id = Some (mkSegment (sg_size s) (set_state Dead (sg_header s)) m (sg_body s)).

(** A free or abandoned mutex can be locked. *)
Lemma guard_available (m : Mx) :
  mx_state m = MxFree ∨ mx_state m = MxAbandoned →
  ShmMutexGuard.locked_ (ShmMutexGuard.make m).1 = true.
Proof.
  intros Hm. unfold ShmMutexGuard.make. destruct Hm as [Hm|Hm].
  - destruct (law_lock_free _ Hm) as [E _]. destruct (mx_lock m) as [rc m1]. cbn in E. by subst rc.
  - destruct (law_lock_abandoned _ Hm) as [E _]. destruct (mx_lock m) as [rc m1]. cbn in E. by subst rc.
Qed.

(** The turn of an intact segment when no call fails. *)
Lemma gc_entry_intact sys now x id s w :
  world_ok w → sys_ok sys → entries w !! entry_name x = Some (erase x) →
  w_names w !! entry_name x = Some id → w_objs w !! id = Some s → seg_intact s →
  let nm := entry_name x in
  let w2 := set_maps (w_maps w + 1) (set_fds (w_fds w + 1) w) in
  let dead := owner_is_dead (sys_os sys) (sg_header s) now in
  let st := decode_state (state (sg_header s)) in
  reg_id w ≠ Some id ∧ world_ok w2 ∧
  gc_entry mx_new sys now x w =
  (if dead && (ref_count (sg_header s) =? 0) then close (munmap (gc_reap mx_new sys now nm id w2))
   else if dead && (0 <? ref_count (sg_header s)) && bool_decide (st = Some Active) then
     close (munmap (update_registry_last_seen mx_new sys x now (upd_header (set_state Draining) id w2)))
   else if bool_decide (st = Some Draining) && negb (e_last_seen_ns x =? 0) &&
           (e_last_seen_ns x <? now) && (SEGMENT_ZOMBIE_NS <? now - e_last_seen_ns x) then
     if negb (any_process_maps_segment (sys_os sys) nm)
     then (registry_unregister mx_new sys nm (shm_unlink sys nm (close (munmap w2))).2).2
     else close (munmap w2)
   else close (munmap w2))%bool.
Proof.
  intros H Hsys He En Eo [Hsz Hj] nm w2 dead st.
  destruct (wo_entries _ _ H _ _ He) as (Hv&Hnr&_). destruct (parse_value_name _ Hv) as [_ Hne].
  split; [intros Hr; by apply Hnr, (wo_regname _ _ H nm id)|].
  split; [by apply ok_set_maps, ok_set_fds|].
  unfold gc_entry. fold nm. rewrite !bool_decide_false by done. cbn [orb].
  unfold shm_open. rewrite (so_open _ Hsys). fold nm in En. rewrite En. set (w1 := set_fds _ w).
  rewrite (seg_lookup mx_new w1 id s Eo), (so_fstat _ Hsys), bool_decide_false by (by intros []).
  destruct (Z.ltb_spec (sg_size s) SHMFX_HEADER_SIZE); [lia|]. cbn [orb].
  unfold mmap. rewrite mmap_ok by (first [by apply so_mmap|unfold SHMFX_HEADER_SIZE in *; lia]). change (set_maps _ w1) with w2.
  rewrite (seg_lookup mx_new w2 id s Eo), Hj. done.
Qed.

Lemma gc_entry_reclaims sys now x id s w :
  world_ok w → sys_ok sys → entries w !! entry_name x = Some (erase x) →
  w_names w !! entry_name x = Some id → w_objs w !! id = Some s → seg_intact s →
  orphaned sys now (sg_header s) → ShmMutexGuard.locked_ (ShmMutexGuard.make (sg_mutex s)).1 = true →
  reclaimed (entry_name x) id s (gc_entry mx_new sys now x w).
Proof.
  intros H Hsys He En Eo Hi [Hd H0] Hm.
  destruct (gc_entry_intact sys now x id s w H Hsys He En Eo Hi) as (Hr&H2&->).
  set (nm := entry_name x) in *. set (w2 := set_maps _ _) in *. rewrite Hd, H0. cbn [andb Z.eqb].
  unfold gc_reap. rewrite (seg_lookup mx_new w2 id s Eo).
  destruct (ShmMutexGuard.make (sg_mutex s)) as [g m1]. cbn [fst] in Hm. rewrite Hm.
  destruct (if ShmMutexGuard.prior_owner_dead_ g then _ else _) as [g' m2].
  set (w3 := upd_seg (with_mutex m1) id w2). set (w4 := upd_seg (with_mutex m2) id w3).
  assert (H4 : world_ok w4).
  { apply (ok_with_mutex mx_new (λ _, m2)), (ok_with_mutex mx_new (λ _, m1)); done. }
  assert (Eo4 : w_objs w4 !! id = Some (with_mutex m2 s)).
  { unfold w4, w3, upd_seg. cbn. by rewrite !lookup_alter_eq, Eo. }
  rewrite (seg_lookup mx_new w4 id _ Eo4). cbn [with_mutex sg_header]. rewrite H0, Hd. cbn [andb Z.eqb].
  set (w5 := upd_header (set_state Dead) id w4). assert (H5 : world_ok w5) by by apply ok_upd_header.
  assert (Eo5 : w_objs w5 !! id = Some (with_header (set_state Dead) (with_mutex m2 s))).
  { unfold w5, upd_header, upd_seg. cbn -[w4]. by rewrite lookup_alter_eq, Eo4. }
  pose proof (local_unlink sys nm None w5 H5) as S6.
  destruct (unlink_named sys nm id w5 (so_unlink _ Hsys nm) En) as [En6 Eo6].
  set (w6 := (shm_unlink sys nm w5).2) in *.
  destruct (unregister_same sys nm w6 (ls_ok _ _ _ _ S6)) as [S7 E7].
  set (w7 := (registry_unregister mx_new sys nm w6).2) in *.
  assert (Hr6 : reg_id w6 ≠ Some id) by (unfold reg_id in *; by rewrite (ls_registry _ _ _ _ S6)).
  assert (Eo7 : w_objs w7 !! id = Some (with_header (set_state Dead) (with_mutex m2 s)))
    by by rewrite (sb_objs _ _ S7), Eo6.
  split; [|split].
  - change (w_names w7 !! nm = None). by rewrite (sb_names _ _ S7).
  - set (f := λ s0, with_mutex _ s0).
    change (entries (upd_seg f id w7) !! nm = None). unfold ManagerInv.entries.
    rewrite registry_of_upd_seg by (left; unfold reg_id in *; by rewrite (sb_registry _ _ S7)).
    change (entries w7 !! nm = None). rewrite E7. apply lookup_delete_eq.
  - eexists. unfold close, munmap. cbn. rewrite lookup_alter_eq, Eo7. done.
Qed.

(** A segment whose mutex cannot be locked stays. *)
Lemma gc_entry_unlockable sys now x id s w :
  world_ok w → sys_ok sys → entries w !! entry_name x = Some (erase x) →
  w_names w !! entry_name x = Some id → w_objs w !! id = Some s → seg_intact s →
  orphaned sys now (sg_header s) → ShmMutexGuard.locked_ (ShmMutexGuard.make (sg_mutex s)).1 = false →
  let w' := gc_entry mx_new sys now x w in
  w_names w' !! entry_name x = Some id ∧ entries w' !! entry_name x = Some (erase x).
Proof.
  intros H Hsys He En Eo Hi [Hd H0] Hm w'. unfold w'.
  destruct (gc_entry_intact sys now x id s w H Hsys He En Eo Hi) as (Hr&H2&->).
  set (w2 := set_maps _ _) in *. rewrite Hd, H0. cbn [andb Z.eqb].
  unfold gc_reap. rewrite (seg_lookup mx_new w2 id s Eo).
  destruct (ShmMutexGuard.make (sg_mutex s)) as [g m1]. cbn [fst] in Hm. rewrite Hm.
  split; [done|]. set (f := λ s0, with_mutex _ s0).
  change (entries (upd_seg f id (upd_seg (with_mutex m1) id w2)) !! entry_name x = Some (erase x)).
  unfold ManagerInv.entries. rewrite !registry_of_upd_seg by by left. exact He.
Qed.

Lemma gc_entry_zombie sys now x id s w :
  world_ok w → sys_ok sys → entries w !! entry_name x = Some (erase x) →
  w_names w !! entry_name x = Some id → w_objs w !! id = Some s → seg_intact s →
  ¬ orphaned sys now (sg_header s) → zombie sys now (entry_name x) x (sg_header s) →
  let w' := gc_entry mx_new sys now x w in
  w_names w' !! entry_name x = None ∧ entries w' !! entry_name x = None.
Proof.
  intros H Hsys He En Eo Hi Ho (Hz1&Hz2&Hz3&Hz4&Hz5) w'. unfold w'.
  destruct (gc_entry_intact sys now x id s w H Hsys He En Eo Hi) as (Hr&H2&->).
  set (w2 := set_maps _ _) in *.
  destruct (owner_is_dead (sys_os sys) (sg_header s) now && (ref_count (sg_header s) =? 0))%bool eqn:Eb.
  { bool_prop. by destruct Ho. }
  rewrite Hz1, bool_decide_false, andb_false_r by done. rewrite bool_decide_true by done.
  destruct (Z.eqb_spec (e_last_seen_ns x) 0); [done|]. destruct (Z.ltb_spec (e_last_seen_ns x) now); [|lia].
  destruct (Z.ltb_spec SEGMENT_ZOMBIE_NS (now - e_last_seen_ns x)); [|lia]. cbn [negb andb].
  rewrite Hz5. cbn [negb]. set (w3 := close (munmap w2)).
  assert (H3 : world_ok w3) by by apply ok_close, ok_munmap.
  pose proof (local_unlink sys (entry_name x) None w3 H3) as S4.
  destruct (unregister_same sys (entry_name x) _ (ls_ok _ _ _ _ S4)) as [S5 E5].
  rewrite (sb_names _ _ S5), E5, lookup_delete_eq. split; [|done].
  by destruct (unlink_named sys (entry_name x) id w3 (so_unlink _ Hsys _) En).
Qed.

(** An entry whose segment is gone is dropped. *)
Lemma gc_entry_stale sys now x w :
  world_ok w → fail_open sys (entry_name x) = None → entries w !! entry_name x = Some (erase x) →
  w_names w !! entry_name x = None → entries (gc_entry mx_new sys now x w) !! entry_name x = None.
Proof.
  intros H Hf He En. set (nm := entry_name x) in *.
  destruct (wo_entries _ _ H _ _ He) as (Hv&Hnr&_). destruct (parse_value_name _ Hv) as [_ Hne].
  unfold gc_entry. fold nm. rewrite !bool_decide_false by done. cbn [orb].
  unfold shm_open. rewrite Hf, En. destruct (unregister_same sys nm w H) as [_ ->]. apply lookup_delete_eq.
Qed.

(** A turn on an intact segment keeps the name and the entry together, or drops both. *)
Lemma gc_entry_sync sys now x id s w :
  world_ok w → sys_ok sys → entries w !! entry_name x = Some (erase x) →
  w_names w !! entry_name x = Some id → w_objs w !! id = Some s → seg_intact s →
  let w' := gc_entry mx_new sys now x w in
  (w_names w' !! entry_name x = Some id ∧
   (entries w' !! entry_name x = Some (erase x) ∨
    entries w' !! entry_name x = Some (erase (set_last_seen now x)))) ∨
  (w_names w' !! entry_name x = None ∧ entries w' !! entry_name x = None).
Proof.
  intros H Hsys He En Eo Hi w'.
  destruct (decide (orphaned sys now (sg_header s))) as [Ho|Ho].
  - destruct (ShmMutexGuard.locked_ (ShmMutexGuard.make (sg_mutex s)).1) eqn:El.
    + right. destruct (gc_entry_reclaims sys now x id s w H Hsys He En Eo Hi Ho El) as (?&?&_). done.
    + left. destruct (gc_entry_unlockable sys now x id s w H Hsys He En Eo Hi Ho El). auto.
  - destruct (decide (zombie sys now (entry_name x) x (sg_header s))) as [Hz|Hz].
    + right. by apply (gc_entry_zombie sys now x id s w).
    + left. destruct (gc_entry_kept sys now x id s w H He En Eo Ho Hz) as (Hn&_&Hk). split; [done|by apply Hk].
Qed.

End janitor.
