(* ===== verification/ManagerOps.v ===== *)
(** * The operations of the manager, case by case

    What [create], [attach], [destroy] and the end of a handle do to a good world: they keep it
    good, they move headers forward only, and every early return undoes what was done before. *)

From S2P Require Import Prelude Types Sync Security Lifecycle Registry Manager ManagerInv Janitor.

#[local] Opaque NSLOTS reg_map.

(** ** Heartbeat lists *)

Lemma hb_headers_register p s :
  p ∉ hb_headers s → hb_headers (register_owner p s) = hb_headers s ++ [p].
Proof.
  intros Hp. unfold register_owner. rewrite bool_decide_false by done. by destruct (hb_thread s).
Qed.

Lemma hb_headers_unregister p s :
  hb_headers (unregister_heartbeat_owner p s) = filter (λ q, q ≠ p) (hb_headers s).
Proof.
  unfold unregister_heartbeat_owner. set (s' := unregister_owner p s).
  assert (E : hb_headers s' = filter (λ q, q ≠ p) (hb_headers s)).
  { unfold s', unregister_owner. destruct (filter _ _) eqn:Ef; [|done]. by destruct (hb_thread s). }
  destruct (hb_thread s) as [t|]; [|done]. destruct (hb_thread s'); [done|].
  unfold join_done, worker_iteration. cbn. by destruct (hb_stop s').
Qed.

(** ** Header checks *)

Lemma validate_header_janitor hdr n :
  0 ≤ meta_offset hdr < 2 ^ 32 → 0 ≤ meta_size hdr < 2 ^ 32 →
  validate_header hdr n = Ok ↔ janitor_header_valid hdr n = true.
Proof.
  intros Ho Hs. unfold validate_header, janitor_header_valid. rewrite (u64_small (meta_offset hdr + _)) by lia.
  destruct (Z.eqb_spec (magic hdr) SHMFX_MAGIC); [|done].
  destruct (Z.eqb_spec (version_major hdr) SHMFX_VERSION_MAJOR); [|done].
  destruct (Z.eqb_spec (total_size hdr) n); [|done]. cbn [negb orb].
  destruct (Z.ltb_spec (total_size hdr) SHMFX_HEADER_SIZE); [done|].
  set (pe := u64 (payload_offset hdr + payload_size hdr)).
  destruct (Z.ltb_spec (meta_offset hdr) SHMFX_HEADER_SIZE), (Z.leb_spec SHMFX_HEADER_SIZE (meta_offset hdr));
    try lia; cbn [orb andb]; [done|].
  destruct (Z.leb_spec (meta_offset hdr + meta_size hdr) (total_size hdr)),
    (Z.ltb_spec (total_size hdr) (meta_offset hdr)),
    (Z.ltb_spec (total_size hdr) (meta_offset hdr + meta_size hdr)); try lia; cbn [orb andb]; try done.
  destruct (Z.leb_spec (meta_offset hdr + meta_size hdr) (payload_offset hdr)),
    (Z.ltb_spec (payload_offset hdr) (meta_offset hdr + meta_size hdr)); try lia; cbn [orb andb]; try done.
  by destruct (Z.leb_spec pe (total_size hdr)), (Z.ltb_spec (total_size hdr) pe); try lia.
Qed.

(** The header [create] writes describes regions inside the segment. *)
Lemma initial_header_valid sys o :
  0 ≤ co_meta_size o → SHMFX_HEADER_SIZE + co_meta_size o ≤ co_total_size o ≤ MAX_SEGMENT_SIZE →
  let po := align_up (u64 (SHMFX_HEADER_SIZE + co_meta_size o)) SHMFX_CACHE_LINE_BYTES in
  po ≤ co_total_size o →
  validate_header (initial_header sys o po) (co_total_size o) = Ok ∧
  janitor_header_valid (initial_header sys o po) (co_total_size o) = true.
Proof.
  intros H0 Hs po Hpo. unfold SHMFX_HEADER_SIZE, MAX_SEGMENT_SIZE in Hs.
  change SHMFX_HEADER_SIZE with 256 in po. change SHMFX_CACHE_LINE_BYTES with 64 in po.
  assert (Hp : 256 + co_meta_size o ≤ po).
  { unfold po. rewrite u64_small by lia. apply align_up_64. lia. }
  assert (Hv : janitor_header_valid (initial_header sys o po) (co_total_size o) = true).
  { unfold janitor_header_valid, initial_header, SHMFX_HEADER_SIZE. cbn.
    rewrite Z.eqb_refl, (u32_small (co_meta_size o)), (u32_small po) by lia.
    rewrite (u64_small (co_total_size o - po)), !u64_small by lia. cbn [negb orb].
    destruct (Z.ltb_spec (co_total_size o) 256); [lia|].
    rewrite !andb_true_iff, !Z.leb_le. lia. }
  split; [|done]. apply validate_header_janitor; cbn; [unfold SHMFX_HEADER_SIZE; lia| |done]. rewrite u32_small; lia.
Qed.

(** Signing changes the HMAC field only. *)
Lemma sign_header_fields keys hdr r hdr' :
  sign_header_if_enabled keys hdr = (r, hdr') → ∃ d, hdr' = set_hmac d hdr.
Proof.
  unfold sign_header_if_enabled. destruct (negb _); [intros [= <- <-]; eauto|].
  destruct (load_hmac_key keys); intros [= <- <-]; [by eexists|].
  exists (hmac hdr). by destruct hdr.
Qed.

Lemma janitor_valid_set_hmac d hdr n : janitor_header_valid (set_hmac d hdr) n = janitor_header_valid hdr n.
Proof. done. Qed.

Lemma validate_set_hmac d hdr n : validate_header (set_hmac d hdr) n = validate_header hdr n.
Proof. done. Qed.

(** ** A new segment on top of a world *)

Section ops.
Context {Mx : Type} `{!RobustMutex Mx, !RobustMutexLaws Mx} (mx_new : Mx).

Abbreviation W := (World Mx).
Abbreviation world_ok := (world_ok mx_new).
Abbreviation entries := (entries mx_new).
Implicit Types w : W.

Lemma registry_of_ext w w' :
  w_registry w' = w_registry w →
  (∀ id, reg_id w = Some id → w_objs w' !! id = w_objs w !! id) →
  registry_of mx_new w' = registry_of mx_new w.
Proof.
  intros Er Ho. unfold registry_of. rewrite Er. unfold reg_id in Ho.
  destruct (w_registry w ≫= base_) as [id|]; [|done]. unfold seg. by rewrite (Ho id eq_refl).
Qed.

Lemma reg_id_old w id : world_ok w → reg_id w = Some id → (id < w_next w)%nat.
Proof.
  intros H E. destruct (registry_valid_inv mx_new w (proj1 (wo_reg _ _ H))) as (rid&s&_&E'&Es&_).
  rewrite E in E'. injection E' as ->. apply (wo_next _ _ H). by exists s.
Qed.

(** [w1] is [w] with the object [w_next w] added under the name [nm]. *)
Record grown (nm : bytes) (w w1 : W) : Prop := {
  gr_ok : world_ok w1;
  gr_new : w_names w !! nm = None;
  gr_names : w_names w1 = <[nm := w_next w]> (w_names w);
  gr_objs j : j ≠ w_next w → w_objs w1 !! j = w_objs w !! j;
  gr_obj : is_Some (w_objs w1 !! w_next w);
  gr_registry : w_registry w1 = w_registry w;
  gr_next : w_next w1 = S (w_next w);
  gr_heartbeat : w_heartbeat w1 = w_heartbeat w;
}.

Lemma open_excl_grown sys nm w id w1 :
  world_ok w → shm_open_excl mx_new sys nm w = inr (id, w1) →
  id = w_next w ∧ grown nm w w1 ∧ resources w1 = (w_fds w + 1, w_maps w).
Proof.
  intros H. unfold shm_open_excl. destruct (fail_open sys nm); [done|].
  destruct (w_names w !! nm) eqn:En; [done|]. intros [= <- <-]. split; [done|].
  split; [|done]. set (w1 := mkWorld _ _ _ _ _ _ _).
  assert (Hnew : w_objs w !! w_next w = None).
  { destruct (w_objs w !! w_next w) eqn:E; [|done].
    pose proof (wo_next _ _ H (w_next w) (ex_intro _ _ E)). lia. }
  assert (Hobjs : ∀ j, j ≠ w_next w → w_objs w1 !! j = w_objs w !! j).
  { intros j Hj. cbn. by rewrite lookup_insert_ne. }
  assert (Hold : ∀ nm' j, w_names w !! nm' = Some j → j ≠ w_next w).
  { intros nm' j Hj ->. destruct (wo_names _ _ H _ _ Hj). congruence. }
  assert (Er : registry_of mx_new w1 = registry_of mx_new w).
  { apply registry_of_ext; [done|]. intros j Hj%reg_id_old; [|done]. apply Hobjs. lia. }
  split; try done; [|cbn; by rewrite lookup_insert_eq].
  split.
  - unfold reg_ready. rewrite Er. apply H.
  - intros j. cbn [w1 w_objs w_next]. destruct (decide (j = w_next w)) as [->|Hj]; [lia|].
    rewrite lookup_insert_ne by done. intros Hs%(wo_next _ _ H). lia.
  - intros nm' j. cbn [w1 w_objs w_names].
    destruct (decide (nm = nm')) as [<-|Hn].
    + rewrite lookup_insert_eq. intros [= <-]. by rewrite lookup_insert_eq.
    + rewrite lookup_insert_ne by done. intros Hj. rewrite lookup_insert_ne by (by apply not_eq_sym, (Hold nm')).
      by apply (wo_names _ _ H nm').
  - intros nm1 nm2 j. cbn [w1 w_names]. rewrite !lookup_insert_Some.
    intros [[<- <-]|[? H1]] [[<- E2]|[? H2]]; try done.
    + by destruct (Hold _ _ H2).
    + subst j. by destruct (Hold _ _ H1).
    + by apply (wo_inj _ _ H nm1 nm2 j).
  - intros nm' j Hj. pose proof (reg_id_old w j H Hj). cbn [w1 w_names]. rewrite lookup_insert_Some.
    intros [[<- E2]|[? H2]]; [lia|]. by apply (wo_regname _ _ H nm' j).
  - unfold ManagerInv.entries. rewrite Er. apply H.
  - unfold ManagerInv.entries. rewrite Er. apply H.
  - intros p Hp%(wo_heartbeat _ _ H). cbn. lia.
Qed.

(** Working on the new object, its mapping and its descriptor. *)
Lemma grown_frame nm w w1 w2 :
  world_ok w → grown nm w w1 → w_names w2 = w_names w1 → w_registry w2 = w_registry w1 →
  w_next w2 = w_next w1 → w_heartbeat w2 = w_heartbeat w1 →
  (∀ j, j ≠ w_next w → w_objs w2 !! j = w_objs w1 !! j) → is_Some (w_objs w2 !! w_next w) →
  grown nm w w2.
Proof.
  intros H G En Er Ex Eh Ho Hs. destruct G as [G1 G2 G3 G4 G5 G6 G7 G8].
  split; try congruence; [|intros j Hj; by rewrite Ho, G4].
  apply (world_ok_frame mx_new w1); try done; [|by rewrite En| |by rewrite Eh].
  - apply registry_of_ext; [done|]. intros j Hj. apply Ho. unfold reg_id in Hj. rewrite G6 in Hj.
    pose proof (reg_id_old w j H Hj). lia.
  - intros j. destruct (decide (j = w_next w)) as [->|Hj]; [done|]. by rewrite Ho.
Qed.

Lemma grown_maps nm n w w1 : world_ok w → grown nm w w1 → grown nm w (set_maps n w1).
Proof. intros H G. apply (grown_frame nm w w1); try done. apply G. Qed.

Lemma grown_fds nm n w w1 : world_ok w → grown nm w w1 → grown nm w (set_fds n w1).
Proof. intros H G. apply (grown_frame nm w w1); try done. apply G. Qed.

Lemma grown_upd nm f w w1 : world_ok w → grown nm w w1 → grown nm w (upd_seg f (w_next w) w1).
Proof.
  intros H G. apply (grown_frame nm w w1); try done.
  - intros j Hj. unfold upd_seg. cbn. by rewrite lookup_alter_ne.
  - unfold upd_seg. cbn. rewrite lookup_alter_eq. apply fmap_is_Some, G.
Qed.

Lemma grown_insert nm s w w1 :
  world_ok w → grown nm w w1 → grown nm w (set_objs (<[w_next w := s]> (w_objs w1)) w1).
Proof.
  intros H G. apply (grown_frame nm w w1); try done.
  - intros j Hj. cbn. by rewrite lookup_insert_ne.
  - cbn. by rewrite lookup_insert_eq.
Qed.

Lemma grown_entries nm w w1 : world_ok w → grown nm w w1 → entries w1 = entries w.
Proof.
  intros H G. unfold ManagerInv.entries. rewrite (registry_of_ext w w1); [done|apply G|].
  intros j Hj%reg_id_old; [|done]. apply G. lia.
Qed.

Lemma grown_headers nm w w1 j :
  grown nm w w1 → j ≠ w_next w → headers w1 !! j = headers w !! j.
Proof. intros G Hj. unfold headers. by rewrite !lookup_fmap, (gr_objs _ _ _ G). Qed.

Lemma grown_evolves nm w w1 : world_ok w → grown nm w w1 → evolves w w1.
Proof.
  intros H G id sz h Hh. exists h. split; [|done]. rewrite (grown_headers nm w w1); [done|done|].
  intros ->. assert (is_Some (w_objs w !! w_next w)) as Hs by (apply headers_is_Some; by eexists).
  pose proof (wo_next _ _ H _ Hs). lia.
Qed.

(** What a failed operation leaves as it was. *)
Record unchanged (w w' : W) : Prop := {
  un_names : w_names w' = w_names w;
  un_entries : entries w' = entries w;
  un_headers id : (id < w_next w)%nat → headers w' !! id = headers w !! id;
  un_resources : resources w' = resources w;
  un_heartbeat : hb_headers (w_heartbeat w') = hb_headers (w_heartbeat w);
  un_registry : w_registry w' = w_registry w;
}.

Lemma unchanged_refl w : unchanged w w.
Proof. by split. Qed.

(** Undoing the creation. *)
Lemma grown_undo sys nm w w1 :
  world_ok w → grown nm w w1 → resources w1 = resources w →
  let w' := (shm_unlink sys nm w1).2 in
  world_ok w' ∧ evolves w w' ∧ (fail_unlink sys nm = None → unchanged w w').
Proof.
  intros H G Hres w'. split; [apply ok_unlink, G|]. split.
  { etrans; [by eapply grown_evolves|]. apply evolves_same. unfold w', shm_unlink.
    destruct (fail_unlink sys nm); [done|]. by destruct (w_names w1 !! nm). }
  intros Hf. unfold w', shm_unlink. rewrite Hf, (gr_names _ _ _ G), lookup_insert_eq. split; try done.
  - cbn. by rewrite delete_insert_id by apply G.
  - apply (grown_entries nm w w1 H G).
  - intros id Hid. apply (grown_headers nm w w1); [done|lia].
  - cbn. by rewrite (gr_heartbeat _ _ _ G).
  - apply G.
Qed.

(** ** The end of a handle *)

Definition drop_heartbeat (h : ShmHandle) (id : nat) (w : W) : W :=
  if owner_ h then set_heartbeats (unregister_heartbeat_owner (Z.of_nat id) (w_heartbeat w)) w else w.

Lemma seg_drop_heartbeat h id j w : seg mx_new j (drop_heartbeat h id w) = seg mx_new j w.
Proof. unfold drop_heartbeat. by destruct (owner_ h). Qed.

Lemma ok_drop_heartbeat h id w : world_ok w → world_ok (drop_heartbeat h id w).
Proof.
  intros H. unfold drop_heartbeat. destruct (owner_ h); [|done]. apply ok_set_heartbeats; [|done].
  intros p. rewrite hb_headers_unregister. intros [_ Hp]%list_elem_of_filter. by apply (wo_heartbeat _ _ H).
Qed.

(** A handle ends without reclaiming the segment unless the segment is draining. *)
Lemma handle_reset_plain sys h id w :
  base_ h = Some id → mode_ h = ReadWrite → fd_ h = true →
  is_Some (w_objs w !! id) → decode_state (state (sg_header (seg mx_new id w))) ≠ Some Draining →
  handle_reset mx_new sys h w =
  close (munmap (upd_header (set_ref_count (u32 (ref_count (sg_header (seg mx_new id w)) - 1))) id
                   (drop_heartbeat h id w))).
Proof.
  intros Eb Em Ef [s Hs] Hst. unfold handle_reset. rewrite Eb, Em, Ef. fold (drop_heartbeat h id w).
  rewrite seg_drop_heartbeat. set (w1 := upd_header _ id _).
  assert (E : state (sg_header (seg mx_new id w1)) = state (sg_header (seg mx_new id w))).
  { unfold w1, seg, upd_header, upd_seg. cbn. rewrite lookup_alter_eq.
    assert (w_objs (drop_heartbeat h id w) = w_objs w) as -> by (unfold drop_heartbeat; by destruct (owner_ h)).
    by rewrite Hs. }
  rewrite E, (bool_decide_false _ Hst), andb_false_r. done.
Qed.

(** A handle that does not own its segment only gives its reference back. *)
Lemma handle_reset_visitor sys id size w :
  handle_reset mx_new sys (mkShmHandle (Some id) size true ReadWrite false) w =
  close (munmap (upd_header (set_ref_count (u32 (ref_count (sg_header (seg mx_new id w)) - 1))) id w)).
Proof. done. Qed.

Lemma handle_reset_ok sys h w :
  world_ok w → world_ok (handle_reset mx_new sys h w) ∧ evolves w (handle_reset mx_new sys h w).
Proof.
  intros H. unfold handle_reset.
  assert (Hfd : ∀ w1, world_ok w1 ∧ evolves w w1 →
    world_ok (if fd_ h then close w1 else w1) ∧ evolves w (if fd_ h then close w1 else w1)).
  { intros w1 [H1 H2]. destruct (fd_ h); [|done]. split; [by apply ok_close|exact H2]. }
  apply Hfd. destruct (base_ h) as [id|]; [|done]. fold (drop_heartbeat h id w).
  assert (H1 : world_ok (drop_heartbeat h id w) ∧ evolves w (drop_heartbeat h id w)).
  { split; [by apply ok_drop_heartbeat|]. apply evolves_same. unfold drop_heartbeat. by destruct (owner_ h). }
  set (w1 := drop_heartbeat h id w) in *. destruct H1 as [H1 E1].
  assert (Hm : ∀ w2, world_ok w2 ∧ evolves w w2 → world_ok (munmap w2) ∧ evolves w (munmap w2)).
  { intros w2 [? ?]. split; [by apply ok_munmap|done]. }
  apply Hm. destruct (mode_ h); [done|]. set (w2 := upd_header _ id w1).
  assert (H2 : world_ok w2) by by apply ok_upd_header.
  assert (E2 : evolves w w2).
  { etrans; [done|]. apply evolves_upd_header. intros s _. apply header_step_ref_count. }
  match goal with |- context [if ?b then _ else _] => destruct b end; [|done].
  set (nm := segment_name _). set (w3 := upd_header _ id w2).
  assert (H3 : world_ok w3) by by apply ok_upd_header.
  pose proof (local_unlink mx_new sys nm None w3 H3) as S4.
  pose proof (local_unregister mx_new sys nm None _ (ls_ok _ _ _ _ _ S4)) as S5.
  split; [apply S5|]. etrans; [done|]. etrans; [|etrans; [apply S4|apply S5]].
  apply evolves_upd_header. intros s _. apply header_step_dead.
Qed.

(** ** [create] *)

(** The signed header and the entry of a segment just created as [h]. *)
Record created (sys : Sys) (o : CreateOptions) (w : W) (h : ShmHandle) (w' : W) (hdr : ShmHeader) : Prop := {
  cr_handle : h = mkShmHandle (Some (w_next w)) (co_total_size o) true ReadWrite true;
  cr_absent : w_names w !! co_name o = None;
  cr_names : w_names w' = <[co_name o := w_next w]> (w_names w);
  cr_header : ∃ signed,
    sign_header_if_enabled (sys_keys sys) (initial_header sys o
      (align_up (u64 (SHMFX_HEADER_SIZE + co_meta_size o)) SHMFX_CACHE_LINE_BYTES)) = (Value tt, signed) ∧
    hdr = set_heartbeat (monotonic_ns (sys_os sys)) signed;
  cr_object : w_objs w' !! w_next w = Some (mkSegment (co_total_size o) hdr mx_new
                (BytesBody (replicate (Z.to_nat (co_total_size o - SHMFX_HEADER_SIZE)) 0)));
  cr_headers id : (id < w_next w)%nat → headers w' !! id = headers w !! id;
  cr_next : w_next w' = S (w_next w);
  cr_entries : entries w' = if bool_decide (co_name o = REGISTRY_NAME) then entries w
                            else <[co_name o := erase (registry_entry sys o hdr)]> (entries w);
  cr_resources : resources w' = (w_fds w + 1, w_maps w + 1);
  cr_heartbeat : hb_headers (w_heartbeat w') = hb_headers (w_heartbeat w) ++ [Z.of_nat (w_next w)];
  cr_registry : w_registry w' = w_registry w;
  cr_size : u64 (SHMFX_HEADER_SIZE + co_meta_size o) ≤ co_total_size o ≤ MAX_SEGMENT_SIZE;
  cr_payload : align_up (u64 (SHMFX_HEADER_SIZE + co_meta_size o)) SHMFX_CACHE_LINE_BYTES ≤ co_total_size o;
}.

Lemma created_fields sys o w h w' hdr :
  created sys o w h w' hdr →
  ∃ d, hdr = set_heartbeat (monotonic_ns (sys_os sys)) (set_hmac d (initial_header sys o
         (align_up (u64 (SHMFX_HEADER_SIZE + co_meta_size o)) SHMFX_CACHE_LINE_BYTES))).
Proof. intros C. destruct (cr_header _ _ _ _ _ _ C) as (hs&Es&->). destruct (sign_header_fields _ _ _ _ Es) as [d ->]. by exists d. Qed.

Definition create_outcome (sys : Sys) (o : CreateOptions) (w : W) (r : Result ShmHandle * W) : Prop :=
  let '(res, w') := r in
  world_ok w' ∧ evolves w w' ∧
  match res with
  | Value h => ∃ hdr, created sys o w h w' hdr
  | Error _ => fail_unlink sys (co_name o) = None → unchanged w w'
  end.

(** The listed entries satisfy what the quota check relies on. *)
Lemma listed_valid w :
  world_ok w →
  let es := list_spec [] (rg_payload (registry_of mx_new w)) (seq 0 NSLOTS) in
  Forall entry_valid es ∧ sum_sizes es = total (entries w) ∧ Z.of_nat (length es) < 2 ^ 32.
Proof.
  intros H es. pose proof (proj1 (proj2 (wo_reg _ _ H))) as Hwf. pose proof (list_spec_all _ Hwf) as Hp.
  fold es in Hp. fold (entries w) in Hp. split_and!.
  - destruct (listed_entries mx_new w H) as (_&Hes&_). fold es in Hes.
    eapply Forall_impl; [exact Hes|]. intros e He.
    pose proof (wo_entries _ _ H _ _ He) as (Hv&_&Hsz). by split.
  - rewrite <-sum_sizes_erase. by apply sum_sizes_perm.
  - rewrite <-(length_fmap erase es), Hp, length_fmap, length_map_to_list.
    pose proof (reg_map_size_bound _ (wf_inj _ Hwf)) as Hb. fold (entries w) in Hb.
    assert (HN : NSLOTS = 1024%nat) by done. lia.
Qed.

Lemma total_insert_le m nm e :
  map_Forall entry_good m → total (<[nm := e]> m) ≤ e_total_size e + total m.
Proof.
  intros H. rewrite <-insert_delete_eq, total_insert by apply lookup_delete_eq.
  pose proof (total_delete_le m nm H). lia.
Qed.

(** The world of a new segment once its heartbeat is registered. *)
Lemma grown_heartbeat nm w w1 :
  world_ok w → grown nm w w1 →
  let w2 := set_heartbeats (register_owner (Z.of_nat (w_next w)) (w_heartbeat w1)) w1 in
  world_ok w2 ∧
  hb_headers (w_heartbeat w2) = hb_headers (w_heartbeat w) ++ [Z.of_nat (w_next w)] ∧
  Z.of_nat (w_next w) ∉ hb_headers (w_heartbeat w).
Proof.
  intros H G w2. assert (Hn : Z.of_nat (w_next w) ∉ hb_headers (w_heartbeat w)).
  { intros Hin%(wo_heartbeat _ _ H). lia. }
  assert (E : hb_headers (w_heartbeat w2) = hb_headers (w_heartbeat w) ++ [Z.of_nat (w_next w)]).
  { cbn [w2 set_heartbeats w_heartbeat]. rewrite (gr_heartbeat _ _ _ G). by apply hb_headers_register. }
  split; [|done]. apply ok_set_heartbeats; [|apply G]. intros p Hp. change (register_owner _ _) with (w_heartbeat w2) in Hp.
  rewrite E in Hp. rewrite (gr_next _ _ _ G).
  apply elem_of_app in Hp as [Hp%(wo_heartbeat _ _ H)| ->%list_elem_of_singleton]; lia.
Qed.

(** The end of the handle of a segment whose registration failed. *)
Lemma create_abandon sys nm w w1 w2 size hdr body :
  world_ok w → grown nm w w1 → w_objs w1 !! w_next w = Some (mkSegment size hdr mx_new body) →
  decode_state (state hdr) = Some Active → resources w1 = (w_fds w + 1, w_maps w + 1) →
  same_but_reg (set_heartbeats (register_owner (Z.of_nat (w_next w)) (w_heartbeat w1)) w1) w2 →
  reg_ready mx_new w2 → entries w2 = entries w → world_ok w2 →
  let h := mkShmHandle (Some (w_next w)) size true ReadWrite true in
  let w' := handle_reset mx_new sys h (shm_unlink sys nm w2).2 in
  world_ok w' ∧ evolves w w' ∧ (fail_unlink sys nm = None → unchanged w w').
Proof.
  intros H G Eo Est Hres S Hr Ee H2 h w'. set (w3 := (shm_unlink sys nm w2).2) in *.
  destruct (grown_heartbeat nm w w1 H G) as (_&Eh&Hn).
  pose proof (local_unlink mx_new sys nm None w2 H2) as S3. fold w3 in S3.
  assert (Hh3 : headers w3 = headers w1).
  { apply map_eq. intros j. rewrite (ls_headers _ _ _ _ _ S3) by done. by rewrite (sb_headers _ _ S). }
  assert (Hob : ∃ m b, w_objs w3 !! w_next w = Some (mkSegment size hdr m b)).
  { apply headers_lookup. rewrite Hh3. apply headers_lookup. eauto. }
  destruct Hob as (m&b&Hob).
  assert (Ew' : w' = close (munmap (upd_header (set_ref_count (u32 (ref_count hdr - 1))) (w_next w)
                                      (drop_heartbeat h (w_next w) w3)))).
  { unfold w'. rewrite (handle_reset_plain sys h (w_next w)); [|done..|by eexists|].
    - by rewrite (seg_lookup _ _ _ _ Hob).
    - rewrite (seg_lookup _ _ _ _ Hob). cbn. by rewrite Est. }
  destruct (handle_reset_ok sys h w3 (ls_ok _ _ _ _ _ S3)) as [Hok Hev]. fold w' in Hok, Hev.
  split; [done|]. split.
  { etrans; [by eapply grown_evolves|]. etrans; [|exact Hev]. by apply evolves_same. }
  intros Hf. rewrite Ew'. unfold drop_heartbeat, w3. cbn [owner_ h]. unfold shm_unlink.
  rewrite Hf, (sb_names _ _ S). cbn [set_heartbeats w_names]. rewrite (gr_names _ _ _ G), lookup_insert_eq.
  split.
  - cbn. by rewrite delete_insert_id by apply G.
  - rewrite <-Ee. unfold ManagerInv.entries. f_equal. f_equal.
    rewrite <-(registry_of_upd_seg mx_new (with_header (set_ref_count (u32 (ref_count hdr - 1)))) (w_next w) w2);
      [done|right; by intros []].
  - intros id Hid. change (headers (upd_header (set_ref_count (u32 (ref_count hdr - 1))) (w_next w) w2) !! id = headers w !! id).
    unfold headers, upd_header, upd_seg. cbn [set_objs w_objs]. rewrite lookup_fmap, lookup_alter_ne by lia.
    rewrite <-lookup_fmap. change (headers w2 !! id = headers w !! id). rewrite (sb_headers _ _ S).
    apply (grown_headers nm w w1); [done|lia].
  - unfold resources in *. cbn. rewrite (sb_fds _ _ S), (sb_maps _ _ S). cbn.
    injection Hres as -> ->. f_equal; lia.
  - cbn. rewrite hb_headers_unregister, (sb_heartbeat _ _ S).
    change (w_heartbeat (set_heartbeats ?x w1)) with x. cbn in Eh. rewrite Eh, filter_app, filter_cons_False by (by intros []).
    rewrite filter_nil, app_nil_r. apply filter_all. intros q Hq ->. done.
  - cbn. rewrite (sb_registry _ _ S). apply G.
Qed.

Lemma registry_entry_ok sys o hdr :
  valid_name (co_name o) →
  entry_ok (registry_entry sys o hdr) ∧ entry_name (registry_entry sys o hdr) = co_name o.
Proof.
  intros Hv. destruct (parse_value_name _ Hv) as [Hview Hne].
  assert (Ht : name_typed (registry_entry sys o hdr)).
  { split; [apply length_copy_name|]. cbn [registry_entry e_name]. unfold copy_name.
    set (n := Nat.min _ _). assert (n ≤ 63)%nat by (unfold n; change (Z.to_nat SHMFX_NAME_BYTES) with 64%nat; lia).
    change (Z.to_nat SHMFX_NAME_BYTES) with 64%nat. replace (64 - n)%nat with (63 - n + 1)%nat by lia.
    rewrite replicate_add, app_assoc. apply last_snoc. }
  split; [|exact Hview]. split; [done|]. rewrite has_name_entry_name by done.
  change (entry_name _) with (fixed_name_view (copy_name (co_name o))). rewrite Hview.
  by rewrite bool_decide_false.
Qed.

(** The last part of [create]: heartbeat and registration of a prepared segment. *)
Definition create_publish (sys : Sys) (o : CreateOptions) (id : nat) (hdr : ShmHeader) (w : W)
    : Result ShmHandle * W :=
  let handle := mkShmHandle (Some id) (co_total_size o) true ReadWrite true in
  let w := register_heartbeat_owner sys id w in
  if bool_decide (co_name o = REGISTRY_NAME) then (Value handle, w)
  else
    match registry_register mx_new sys (registry_entry sys o hdr) w with
    | (Error e, w) => (Error e, handle_reset mx_new sys handle (shm_unlink sys (co_name o) w).2)
    | (Value _, w) => (Value handle, w)
    end.

(** A beat of the new header. *)
Lemma grown_beat nm now w w0 size hs m b :
  world_ok w → grown nm w w0 → w_objs w0 !! w_next w = Some (mkSegment size hs m b) →
  let w1 := upd_header (set_heartbeat now) (w_next w) w0 in
  grown nm w w1 ∧ w_objs w1 !! w_next w = Some (mkSegment size (set_heartbeat now hs) m b) ∧
  resources w1 = resources w0.
Proof.
  intros H G Eo w1. split_and!; [by apply grown_upd| |done].
  unfold w1, upd_header, upd_seg. cbn [set_objs w_objs]. by rewrite lookup_alter_eq, Eo.
Qed.

Lemma create_publish_outcome sys o w w0 hs :
  let po := align_up (u64 (SHMFX_HEADER_SIZE + co_meta_size o)) SHMFX_CACHE_LINE_BYTES in
  world_ok w → valid_name (co_name o) → grown (co_name o) w w0 →
  w_objs w0 !! w_next w = Some (mkSegment (co_total_size o) hs mx_new
    (BytesBody (replicate (Z.to_nat (co_total_size o - SHMFX_HEADER_SIZE)) 0))) →
  resources w0 = (w_fds w + 1, w_maps w + 1) →
  sign_header_if_enabled (sys_keys sys) (initial_header sys o po) = (Value tt, hs) →
  0 ≤ co_total_size o → co_total_size o + total (entries w) ≤ TOTAL_QUOTA_BYTES →
  u64 (SHMFX_HEADER_SIZE + co_meta_size o) ≤ co_total_size o ≤ MAX_SEGMENT_SIZE → po ≤ co_total_size o →
  create_outcome sys o w (create_publish sys o (w_next w) hs w0).
Proof.
  intros po H Hv G0 Eo0 Hres Es H0 Hq Hsz Hpo. unfold create_publish, register_heartbeat_owner.
  set (hdr := set_heartbeat (monotonic_ns (sys_os sys)) hs). change (registry_entry sys o hs) with (registry_entry sys o hdr).
  destruct (grown_beat _ (monotonic_ns (sys_os sys)) w w0 _ _ _ _ H G0 Eo0) as (G&Eo&Er0). fold hdr in Eo.
  set (w1 := upd_header _ (w_next w) w0) in *. rewrite <-Er0 in Hres.
  assert (Hhd : ∃ hs', sign_header_if_enabled (sys_keys sys) (initial_header sys o po) = (Value tt, hs') ∧
                       hdr = set_heartbeat (monotonic_ns (sys_os sys)) hs') by by exists hs.
  destruct (grown_heartbeat _ w w1 H G) as (H2&Eh&_). set (w2 := set_heartbeats _ w1) in *.
  assert (Ee2 : entries w2 = entries w) by exact (grown_entries _ w w1 H G).
  assert (Hev2 : evolves w w2) by exact (grown_evolves _ w w1 H G).
  case_bool_decide as Er.
  { split; [done|]. split; [done|]. exists hdr.
    split; [done|apply (gr_new _ _ _ G)|apply (gr_names _ _ _ G)|done|done| |apply (gr_next _ _ _ G)|
      |done|done|apply (gr_registry _ _ _ G)|done|done].
    - intros id Hid. apply (grown_headers _ w w1 id G). lia.
    - by rewrite bool_decide_true. }
  destruct (registry_entry_ok sys o hdr Hv) as [Hok Hnm].
  pose proof (registry_register_ready mx_new sys _ w2 (wo_reg _ _ H2) Hok) as Hr.
  rewrite Hnm, Ee2 in Hr. destruct (registry_register mx_new sys _ w2) as [res w3].
  destruct Hr as (Hr3&S&[[-> Ee]|(->&Ee&_)]).
  - assert (H3 : world_ok w3).
    { apply (world_ok_reg mx_new w2); try done; rewrite Ee.
      - apply map_Forall_insert_2; [|apply H]. by split_and!.
      - etrans; [apply total_insert_le, H|]. exact Hq. }
    split; [done|]. split; [etrans; [exact Hev2|apply evolves_same, S]|]. exists hdr.
    split; [done|apply (gr_new _ _ _ G)| |done|..|done|done].
    + rewrite (sb_names _ _ S). apply (gr_names _ _ _ G).
    + rewrite (sb_objs _ _ S); [done|]. intros Hr. unfold reg_id in Hr.
      change (w_registry w2) with (w_registry w1) in Hr. rewrite (gr_registry _ _ _ G) in Hr.
      pose proof (reg_id_old w _ H Hr). lia.
    + intros id Hid. rewrite (sb_headers _ _ S). apply (grown_headers _ w w1 id G). lia.
    + rewrite (sb_next _ _ S). apply (gr_next _ _ _ G).
    + by rewrite bool_decide_false.
    + unfold resources in *. by rewrite (sb_fds _ _ S), (sb_maps _ _ S).
    + by rewrite (sb_heartbeat _ _ S).
    + rewrite (sb_registry _ _ S). apply (gr_registry _ _ _ G).
  - assert (H3 : world_ok w3).
    { apply (world_ok_reg mx_new w2); try done; rewrite Ee; [apply H|apply H]. }
    eapply (create_abandon sys (co_name o) w w1 w3); try done.
    unfold hdr. by destruct (sign_header_fields _ _ _ _ Es) as [d ->].
Qed.

Lemma create_cases sys o w :
  world_ok w → 0 ≤ co_total_size o → create_outcome sys o w (create mx_new sys o w).
Proof.
  intros H H0. unfold create. set (nm := co_name o) in *.
  assert (Hnop : ∀ e, create_outcome sys o w (Error e, w)) by (intros e; split_and!; [done|done|by intros _; split]).
  destruct (parse_and_validate_name nm) as [pn|] eqn:Ep; [|done].
  assert (Hv : valid_name nm) by (unfold valid_name; by rewrite Ep).
  rewrite registry_list_ready by apply H. destruct (listed_valid w H) as (Hl1&Hl2&Hl3).
  set (es := list_spec _ _ _) in *. destruct (validate_create_security o es) as [[]|] eqn:Ev; [|done].
  destruct (validate_grants o es) as (Hmax&Hquota&Hmeta); try done.
  { rewrite Hl2. apply H. }
  rewrite Hl2 in Hquota.
  set (po := align_up _ _). destruct (Z.ltb_spec (co_total_size o) po) as [|Hpo]; [done|].
  destruct (shm_open_excl mx_new sys nm w) as [err|[id w1]] eqn:Eo; [done|].
  destruct (open_excl_grown sys nm w id w1 H Eo) as (->&G1&R1). clear Eo.
  assert (Hundo : ∀ e w2, grown nm w w2 → resources w2 = resources w →
            create_outcome sys o w (Error e, (shm_unlink sys nm w2).2)).
  { intros e w2 G R. destruct (grown_undo sys nm w w2 H G R) as (?&?&?). by split_and!. }
  assert (Hclose : ∀ w2, resources w2 = (w_fds w + 1, w_maps w) → resources (close w2) = resources w).
  { intros w2 [= E1 E2]. unfold resources. cbn. f_equal; lia. }
  assert (Hback : ∀ w2, resources w2 = (w_fds w + 1, w_maps w + 1) →
            resources (close (munmap w2)) = resources w).
  { intros w2 [= E1 E2]. unfold resources. cbn. f_equal; lia. }
  destruct (apply_permissions _) as [[]|]; [|apply Hundo; [by apply grown_fds|by apply Hclose]].
  unfold ftruncate. destruct (fail_ftruncate sys);
    [apply Hundo; [by apply grown_fds|by apply Hclose]|].
  set (body := BytesBody _). set (w2 := set_objs _ w1).
  assert (G2 : grown nm w w2) by by apply grown_insert.
  unfold mmap. destruct (mmap_error sys nm _); [apply Hundo; [by apply grown_fds|by apply Hclose]|].
  set (w3 := set_maps _ w2). assert (G3 : grown nm w w3) by by apply grown_maps.
  assert (R3 : resources w3 = (w_fds w + 1, w_maps w + 1)).
  { unfold w3, w2, resources in *. cbn. by injection R1 as -> ->. }
  destruct (sign_header_if_enabled _ _) as [signed hdr] eqn:Es.
  set (w4 := upd_header _ _ w3). assert (G4 : grown nm w w4) by by apply grown_upd.
  destruct signed as [[]|]; [|apply Hundo; [by apply grown_fds, grown_maps|by apply Hback]].
  destruct (negb (bool_decide (init_control_mutex (mutex_rcs sys) = Ok))); [apply Hundo; [by apply grown_fds, grown_maps|by apply Hback]|].
  set (w5 := upd_seg _ _ w4). assert (G5 : grown nm w w5) by by apply grown_upd.
  apply (create_publish_outcome sys o w w5 hdr); try done.
  unfold w5, w4, w3, w2, upd_header, upd_seg. cbn.
  by rewrite !lookup_alter_eq, lookup_insert_eq.
Qed.

(** ** [attach] *)

(** What the registry says about signing. *)
Definition expects_flag (nm : bytes) (w : W) : bool :=
  match entries w !! nm with
  | Some e => negb (Z.land (e_flags e) HmacEnabled =? 0)
  | None => false
  end.

Lemma expects_ready sys nm w :
  world_ok w → registry_expects_hmac mx_new sys nm w = (expects_flag nm w, w).
Proof.
  intros H. unfold registry_expects_hmac, expects_flag. case_bool_decide as Er.
  { subst nm. destruct (entries w !! REGISTRY_NAME) as [e|] eqn:E; [|done].
    by destruct (wo_entries _ _ H _ _ E) as (_&?&_). }
  rewrite registry_list_ready by apply H. f_equal.
  pose proof (proj1 (proj2 (wo_reg _ _ H))) as Hwf. pose proof (list_spec_elem nm (rg_payload (registry_of mx_new w))) as Hel.
  set (es := list_spec nm _ _) in *.
  destruct (list_find _ es) as [[i e]|] eqn:Ef.
  - apply list_find_Some in Ef as (Hi&Hn&_). apply list_elem_of_lookup_2 in Hi.
    apply (list_elem_of_fmap_2 erase), Hel in Hi as (nm'&E'&_); [|done].
    destruct (reg_map_entry _ _ _ Hwf E') as (_&Hn'&_).
    change (entry_name (erase e)) with (entry_name e) in Hn'. rewrite Hn in Hn'. subst nm'.
    change (entries w !! nm = Some (erase e)) in E'. by rewrite E'.
  - destruct (entries w !! nm) as [e|] eqn:E; [|done]. exfalso.
    assert (He : e ∈ erase <$> es).
    { apply Hel; [done|]. exists nm. split; [done|]. apply firstn_all. }
    apply list_elem_of_fmap in He as (x&->&Hx). destruct (reg_map_entry _ _ _ Hwf E) as (_&Hn&_).
    pose proof (proj1 (list_find_None _ _) Ef) as Hall. rewrite Forall_forall in Hall. by apply (Hall x Hx).
Qed.

(** The checks an attach passes, on the world it finds. *)
Record attachable (sys : Sys) (nm : bytes) (w : W) (id : nat) (s : Segment Mx) : Prop := {
  at_open : fail_open sys nm = None;
  at_fstat : fail_fstat sys nm = None;
  at_mmap : fail_mmap sys nm = None;
  at_name : w_names w !! nm = Some id;
  at_object : w_objs w !! id = Some s;
  at_size : SHMFX_HEADER_SIZE ≤ sg_size s;
  at_valid : validate_header (sg_header s) (sg_size s) = Ok;
  at_own_name : segment_name (sg_header s) = nm;
  at_expected : expects_flag nm w = true → hmac_enabled (sg_header s) = true;
  at_signature : verify_header_hmac (sys_keys sys) (sg_header s) = Value tt;
  at_alive : decode_state (state (sg_header s)) ≠ Some Dead;
}.

Definition attached (mode : AttachMode) (id : nat) (w : W) : W :=
  set_maps (w_maps w + 1) (set_fds (w_fds w + 1)
    (match mode with
     | ReadOnly => w
     | ReadWrite => upd_header (λ h, set_ref_count (u32 (ref_count h + 1)) h) id w
     end)).

Definition map_outcome (sys : Sys) (nm : bytes) (mode : AttachMode) (w : W) (r : Result ShmHandle * W) : Prop :=
  (∃ id s, attachable sys nm w id s ∧
           r = (Value (mkShmHandle (Some id) (sg_size s) true mode false), attached mode id w)) ∨
  (∃ e, r = (Error e, w) ∧ e ≠ Ok ∧ ∀ id s, ¬ attachable sys nm w id s).

Lemma undo_open w : close (set_fds (w_fds w + 1) w) = w.
Proof. unfold close, set_fds. destruct w. cbn. f_equal. lia. Qed.

Lemma undo_map w : close (munmap (set_maps (w_maps w + 1) (set_fds (w_fds w + 1) w))) = w.
Proof. unfold close, munmap, set_fds, set_maps. destruct w. cbn. f_equal; lia. Qed.

Lemma verify_error_not_ok keys hdr e : verify_header_hmac keys hdr = Error e → e ≠ Ok.
Proof.
  unfold verify_header_hmac. destruct (_ && _)%bool; [done|].
  destruct (load_hmac_key keys); [|by intros [= <-]]. destruct (negb _); by intros [= <-].
Qed.

Lemma errno_not_ok e : errno_to_error e ≠ Ok.
Proof. by destruct e. Qed.

Lemma map_segment_cases sys nm mode w :
  world_ok w →
  map_outcome sys nm mode w (map_segment mx_new sys nm mode (registry_expects_hmac mx_new sys nm) w).
Proof.
  intros H. unfold map_segment, shm_open.
  destruct (fail_open sys nm) as [err|] eqn:Ef.
  { right. exists (errno_to_error err). split_and!; [done|apply errno_not_ok|]. intros id s []. congruence. }
  destruct (w_names w !! nm) as [id|] eqn:En.
  2: { right. exists NotFound. split_and!; [done|done|]. intros id s []. congruence. }
  destruct (wo_names _ _ H _ _ En) as [s Eo].
  assert (Hu : ∀ id' s', attachable sys nm w id' s' → id' = id ∧ s' = s).
  { intros id' s' A. pose proof (at_name _ _ _ _ _ A) as E1. rewrite En in E1. injection E1 as <-.
    pose proof (at_object _ _ _ _ _ A) as E2. rewrite Eo in E2. by injection E2 as <-. }
  assert (Herr : ∀ e, e ≠ Ok → ¬ attachable sys nm w id s → map_outcome sys nm mode w (Error e, w)).
  { intros e He Hno. right. exists e. split_and!; [done|done|]. intros id' s' A. by destruct (Hu _ _ A) as [-> ->]. }
  set (w1 := set_fds _ w). rewrite (seg_lookup mx_new w1 id s Eo).
  destruct (_ || _)%bool eqn:Eb.
  { unfold w1. rewrite undo_open. apply Herr; [apply errno_not_ok|]. intros A.
    rewrite (at_fstat _ _ _ _ _ A), bool_decide_false in Eb by (by intros []).
    pose proof (at_size _ _ _ _ _ A). cbn [orb] in Eb. bool_prop. lia. }
  apply orb_false_iff in Eb as [Efs%bool_decide_eq_false Esz]. bool_prop.
  assert (Efs' : fail_fstat sys nm = None) by (destruct (fail_fstat sys nm); [by destruct Efs|done]).
  unfold mmap. destruct (mmap_error sys nm _) as [err|] eqn:Em.
  { unfold w1. rewrite undo_open. apply Herr; [apply errno_not_ok|]. intros A.
    by rewrite (mmap_ok sys nm) in Em by (apply A || (unfold SHMFX_HEADER_SIZE in *; lia)). }
  apply mmap_error_None in Em as [Em _]. set (w2 := set_maps _ w1). assert (Ew2 : close (munmap w2) = w) by exact (undo_map w).
  rewrite (seg_lookup mx_new w2 id s Eo).
  destruct (decide (validate_header (sg_header s) (sg_size s) = Ok)) as [Evd|Evd].
  2: { rewrite bool_decide_false by done. cbn [negb]. rewrite Ew2. apply Herr; [done|]. by intros []. }
  rewrite bool_decide_true by done. cbn [negb].
  destruct (decide (segment_name (sg_header s) = nm)) as [Esn|Esn].
  2: { rewrite bool_decide_false by done. cbn [negb]. rewrite Ew2. apply Herr; [done|]. by intros []. }
  rewrite bool_decide_true by done. cbn [negb].
  rewrite expects_ready by by apply ok_set_maps, ok_set_fds.
  change (expects_flag nm w2) with (expects_flag nm w).
  destruct (expects_flag nm w && _)%bool eqn:Ex.
  { rewrite Ew2. apply Herr; [done|]. intros A.
    apply andb_true_iff in Ex as [Ex1 Ex2]. pose proof (at_expected _ _ _ _ _ A Ex1) as Hen.
    unfold hmac_enabled in Hen. by rewrite Ex2 in Hen. }
  destruct (verify_header_hmac _ _) as [[]|e] eqn:Ev.
  2: { rewrite Ew2. apply Herr; [by eapply verify_error_not_ok|]. intros []. congruence. }
  rewrite (seg_lookup mx_new w2 id s Eo).
  destruct (decide (decode_state (state (sg_header s)) = Some Dead)) as [Ed|Ed].
  { rewrite bool_decide_true by done. rewrite Ew2. apply Herr; [done|]. by intros []. }
  rewrite bool_decide_false by done. left. exists id, s. split.
  { split; try done. intros Hx. rewrite Hx in Ex. cbn [andb] in Ex. unfold hmac_enabled. by rewrite Ex. }
  destruct mode; [done|]. set (w3 := upd_header _ id w2).
  assert (Eo3 : w_objs w3 !! id = Some (with_header (λ h, set_ref_count (u32 (ref_count h + 1)) h) s)).
  { unfold w3, upd_header, upd_seg. cbn. by rewrite lookup_alter_eq, Eo. }
  rewrite (seg_lookup mx_new w3 id _ Eo3). cbn. by rewrite bool_decide_false.
Qed.

(** ** The header of a new segment *)

Lemma created_header sys o w h w' hdr :
  world_ok w → 0 ≤ co_meta_size o < 2 ^ 64 - SHMFX_HEADER_SIZE → create mx_new sys o w = (Value h, w') →
  created sys o w h w' hdr →
  validate_header hdr (co_total_size o) = Ok ∧ segment_name hdr = co_name o ∧
  verify_header_hmac (sys_keys sys) hdr = Value tt ∧ ref_count hdr = 1 ∧
  decode_state (state hdr) = Some Active ∧ heartbeat_counter hdr = 1 ∧
  heartbeat_last_ns hdr = u64 (monotonic_ns (sys_os sys)).
Proof.
  intros H Hm E C. destruct (cr_size _ _ _ _ _ _ C) as [Hs1 Hs2].
  rewrite u64_small in Hs1 by (unfold SHMFX_HEADER_SIZE in *; lia).
  destruct (initial_header_valid sys o) as [Hv _]; [lia|lia|apply (cr_payload _ _ _ _ _ _ C)|].
  destruct (cr_header _ _ _ _ _ _ C) as (hs&Hsig&->). destruct (sign_verifies _ _ _ Hsig) as [Hver _].
  assert (Hn : valid_name (co_name o)).
  { unfold create in E. unfold valid_name. by destruct (parse_and_validate_name (co_name o)). }
  destruct (sign_header_fields _ _ _ _ Hsig) as [d ->]. split_and!; try done.
  unfold segment_name. cbn. by destruct (parse_value_name _ Hn).
Qed.

(** ** The janitor pass on one name *)

Lemma entry_not_registry w nm e id :
  world_ok w → entries w !! nm = Some e → w_names w !! nm = Some id → reg_id w ≠ Some id.
Proof.
  intros H Ee En Hr. destruct (wo_entries _ _ H _ _ Ee) as (_&Hne&_).
  by apply Hne, (wo_regname _ _ H nm id).
Qed.

Lemma gc_kept sys w nm e id s :
  let now := monotonic_ns (sys_os sys) in
  world_ok w → entries w !! nm = Some e → w_names w !! nm = Some id → w_objs w !! id = Some s →
  ¬ orphaned sys now (sg_header s) → ¬ zombie sys now nm e (sg_header s) →
  w_names (gc mx_new sys w) !! nm = Some id ∧
  (∃ s', w_objs (gc mx_new sys w) !! id = Some s' ∧ sg_size s' = sg_size s ∧ sg_mutex s' = sg_mutex s ∧
     sg_body s' = sg_body s ∧
     (sg_header s' = sg_header s ∨
      owner_is_dead (sys_os sys) (sg_header s) now = true ∧
      sg_header s' = set_state Draining (sg_header s))) ∧
  (sys_ok sys → seg_intact s →
   entries (gc mx_new sys w) !! nm = Some e ∨ entries (gc mx_new sys w) !! nm = Some (set_last_seen now e)).
Proof.
  intros now H Ee En Eo Horph Hz. pose proof (entry_not_registry w nm e id H Ee En) as Hr.
  destruct (gc_turn mx_new sys w nm e H Ee) as (w1&x&<-&<-&H1&(En1&Ee1&_&Ho1)&(En2&Ee2&Ho2)).
  destruct (gc_entry_kept mx_new sys now x id s w1 H1) as (K1&K2&K3); try done.
  { by rewrite Ee1. }
  { by rewrite En1. }
  { by rewrite Ho1. }
  rewrite En2, Ee2, Ho2 by done. by split_and!.
Qed.

Lemma gc_reclaimed sys w nm e id s :
  let now := monotonic_ns (sys_os sys) in
  world_ok w → sys_ok sys → entries w !! nm = Some e → w_names w !! nm = Some id →
  w_objs w !! id = Some s → seg_intact s → orphaned sys now (sg_header s) →
  mx_state (sg_mutex s) = MxFree ∨ mx_state (sg_mutex s) = MxAbandoned →
  reclaimed mx_new nm id s (gc mx_new sys w).
Proof.
  intros now H Hs Ee En Eo Hi Ho Hm. pose proof (entry_not_registry w nm e id H Ee En) as Hr.
  destruct (gc_turn mx_new sys w nm e H Ee) as (w1&x&<-&<-&H1&(En1&Ee1&_&Ho1)&(En2&Ee2&Ho2)).
  destruct (gc_entry_reclaims mx_new sys now x id s w1 H1 Hs) as (K1&K2&K3); try done.
  { by rewrite Ee1. }
  { by rewrite En1. }
  { by rewrite Ho1. }
  { by apply guard_available. }
  unfold reclaimed. rewrite En2, Ee2, Ho2 by done. by split_and!.
Qed.

Lemma gc_drops_stale sys w nm e :
  world_ok w → sys_ok sys → entries w !! nm = Some e → w_names w !! nm = None →
  entries (gc mx_new sys w) !! nm = None.
Proof.
  intros H Hs Ee En.
  destruct (gc_turn mx_new sys w nm e H Ee) as (w1&x&<-&<-&H1&(En1&Ee1&_)&(_&Ee2&_)).
  rewrite Ee2. apply gc_entry_stale; [done|apply Hs|by rewrite Ee1|by rewrite En1].
Qed.

Lemma created_intact sys o w h w' hdr :
  0 ≤ co_meta_size o < 2 ^ 64 - SHMFX_HEADER_SIZE → created sys o w h w' hdr →
  SHMFX_HEADER_SIZE ≤ co_total_size o ∧ janitor_header_valid hdr (co_total_size o) = true.
Proof.
  intros Hm C. destruct (cr_size _ _ _ _ _ _ C) as [Hs1 Hs2].
  rewrite u64_small in Hs1 by (unfold SHMFX_HEADER_SIZE in *; lia).
  destruct (initial_header_valid sys o) as [_ Hj]; [lia|lia|apply (cr_payload _ _ _ _ _ _ C)|].
  destruct (created_fields _ _ _ _ _ _ C) as [d ->]. split; [lia|exact Hj].
Qed.

(** An active segment, named, registered and correctly signed under the keys. *)
Record live_segment (keys : KeyEnv) (nm : bytes) (w : W) (id : nat) (s : Segment Mx) : Prop := {
  lv_name : w_names w !! nm = Some id;
  lv_object : w_objs w !! id = Some s;
  lv_entry : ∃ e, entries w !! nm = Some e ∧ e_flags e = flags (sg_header s) ∧
                  e_segment_type e = segment_type (sg_header s);
  lv_valid : validate_header (sg_header s) (sg_size s) = Ok;
  lv_intact : seg_intact s;
  lv_own_name : segment_name (sg_header s) = nm;
  lv_signature : verify_header_hmac keys (sg_header s) = Value tt;
  lv_active : decode_state (state (sg_header s)) = Some Active;
}.

(** What [create] leaves is one. *)
Lemma created_live sys o w h w' hdr :
  world_ok w → 0 ≤ co_meta_size o < 2 ^ 64 - SHMFX_HEADER_SIZE → create mx_new sys o w = (Value h, w') →
  created sys o w h w' hdr → co_name o ≠ REGISTRY_NAME →
  live_segment (sys_keys sys) (co_name o) w' (w_next w) (mkSegment (co_total_size o) hdr mx_new
    (BytesBody (replicate (Z.to_nat (co_total_size o - SHMFX_HEADER_SIZE)) 0))).
Proof.
  intros H Hm E C Hne. destruct (created_header sys o w h w' hdr H Hm E C) as (Hv&Hn&Hver&_&Hst&_).
  split; try done.
  - rewrite (cr_names _ _ _ _ _ _ C). apply lookup_insert_eq.
  - apply C.
  - exists (erase (registry_entry sys o hdr)). split.
    + rewrite (cr_entries _ _ _ _ _ _ C), bool_decide_false by done. apply lookup_insert_eq.
    + by destruct (created_fields _ _ _ _ _ _ C) as [d ->].
  - by apply (created_intact sys o w h w' hdr).
Qed.

(** It survives a janitor pass while its owner is alive, and is attachable. *)
Lemma live_gc sys keys nm w id s :
  world_ok w → sys_ok sys → live_segment keys nm w id s →
  owner_is_dead (sys_os sys) (sg_header s) (monotonic_ns (sys_os sys)) = false →
  live_segment keys nm (gc mx_new sys w) id s.
Proof.
  intros H Hs [En Eo (e&Ee&Hfl&Hty) Hv Hi Hn Hver Hst] Hlive.
  destruct (gc_kept sys w nm e id s H Ee En Eo) as (K1&(s'&K2&K3&K4&K5&K6)&K7).
  { intros [Hd _]. congruence. }
  { intros (Hz&_). congruence. }
  assert (s' = s) as ->.
  { destruct K6 as [K6|[Hd _]]; [|congruence]. destruct s, s'. cbn in *. by subst. }
  split; try done. destruct (K7 Hs Hi) as [->| ->]; eauto.
Qed.

Lemma live_attachable sys nm w id s :
  sys_ok sys → live_segment (sys_keys sys) nm w id s → attachable sys nm w id s.
Proof.
  intros Hs [En Eo (e&Ee&Hfl&Hty) Hv Hi Hn Hver Hst].
  split; try apply Hs; try done; [apply Hi| |by rewrite Hst].
  unfold expects_flag, hmac_enabled. by rewrite <-Hfl, Ee.
Qed.

(** Ending a handle that [attach] returned undoes the attach. *)
Lemma detach_attached sys mode id s w :
  w_objs w !! id = Some s → 0 ≤ ref_count (sg_header s) < 2 ^ 32 →
  handle_reset mx_new sys (mkShmHandle (Some id) (sg_size s) true mode false) (attached mode id w) = w.
Proof.
  intros Eo Hrc. unfold handle_reset, attached. cbn [base_ owner_ mode_ fd_]. destruct mode.
  - destruct w. unfold close, munmap, set_fds, set_maps. cbn. f_equal; lia.
  - cbn [andb]. set (w1 := set_maps _ _).
    assert (Eo1 : w_objs w1 !! id = Some (with_header (λ h, set_ref_count (u32 (ref_count h + 1)) h) s)).
    { unfold w1, upd_header, upd_seg. cbn. by rewrite lookup_alter_eq, Eo. }
    rewrite (seg_lookup mx_new _ _ _ Eo1). unfold w1, upd_header, upd_seg, close, munmap, set_fds, set_maps, set_objs.
    cbn. destruct w as [names objs next reg fds maps hb]. cbn in *. f_equal; [|lia|lia].
    rewrite alter_alter_eq. apply alter_id. intros s0 Es0. rewrite Eo in Es0. injection Es0 as <-.
    destruct s as [sz hdr m b]. unfold with_header. cbn in *. f_equal.
    replace (u32 (u32 (ref_count hdr + 1) - 1)) with (ref_count hdr); [by destruct hdr|].
    unfold u32. zlia.
Qed.

End ops.
