(* ===== verification/ManagerSteps.v ===== *)
(** * Runs of the manager

    Worlds reached by operations of any number of processes, each operation taken as one step,
    from the bootstrap of the registry: the invariant holds in all of them, headers only move
    forward, and without failing calls the registry lists exactly the named segments. *)

From S2P Require Import Prelude Types Sync Security Lifecycle Registry Manager ManagerInv Janitor ManagerOps.

#[local] Opaque NSLOTS reg_map.

Section steps.
Context {Mx : Type} `{!RobustMutex Mx, !RobustMutexLaws Mx} (mx_new : Mx).

Abbreviation W := (World Mx).
Abbreviation world_ok := (world_ok mx_new).
Abbreviation entries := (entries mx_new).
Implicit Types w : W.

(** The world of a process after another one has had its turn: the shared part is the same; the
    process has its own registry handle on the same segment, descriptors, mappings and owners. *)
Definition as_process (h : ShmHandle) (fds maps : Z) (hb : Heartbeat) (w : W) : W :=
  mkWorld (w_names w) (w_objs w) (w_next w) (Some h) fds maps hb.

(** The worker of the process ticks. *)
Definition tick (now : Z) (w : W) : W :=
  set_objs (foldr (λ p, alter (with_header (set_heartbeat now)) (Z.to_nat p)) (w_objs w)
              (hb_headers (w_heartbeat w))) w.

(** The processes of a run have the same registry object mapped: one whose attempt to open the
    registry failed, which works without, and one that made a second registry after
    /shmfx.registry was unlinked, are not among them. *)
Inductive wstep (ok : Sys → Prop) (w : W) : W → Prop :=
  | ws_create sys o : ok sys → 0 ≤ co_total_size o → 0 ≤ co_meta_size o < 2 ^ 64 - SHMFX_HEADER_SIZE →
      is_bytes (co_name o) → 0 ≤ co_flags o < 2 ^ 32 →
      wstep ok w (create mx_new sys o w).2
  | ws_attach sys nm mode : ok sys → wstep ok w (attach mx_new sys nm mode w).2
  | ws_reset sys h : ok sys → wstep ok w (handle_reset mx_new sys h w)
  | ws_destroy sys nm : ok sys → wstep ok w (destroy mx_new sys nm w).2
  | ws_gc sys : ok sys → wstep ok w (gc mx_new sys w)
  | ws_tick now : wstep ok w (tick now w)
  | ws_process h fds maps hb : base_ h = reg_id w →
      (∀ p, p ∈ hb_headers hb → p < Z.of_nat (w_next w)) → wstep ok w (as_process h fds maps hb w).

(** ** Each step keeps a world good and moves headers forward *)

Lemma attach_world sys nm mode w :
  world_ok w → valid_name nm →
  let w1 := if bool_decide (nm = REGISTRY_NAME) then w else gc mx_new sys w in
  world_ok w1 ∧ evolves w w1 ∧ map_outcome mx_new sys nm mode w1 (attach mx_new sys nm mode w).
Proof.
  intros H Hv w1.
  assert (H1 : world_ok w1 ∧ evolves w w1).
  { unfold w1. case_bool_decide; [done|]. pose proof (gc_pass mx_new sys w H) as P. split; apply P. }
  destruct H1 as [H1 E1]. split; [done|]. split; [done|]. unfold attach, valid_name in *.
  destruct (parse_and_validate_name nm); [|done].
  rewrite (instance_ready mx_new sys w) by apply H. by apply map_segment_cases.
Qed.

(** An attachable segment is the one [attach] maps. *)
Lemma attach_attachable sys nm mode w id s :
  world_ok w → valid_name nm →
  let w1 := if bool_decide (nm = REGISTRY_NAME) then w else gc mx_new sys w in
  attachable mx_new sys nm w1 id s →
  attach mx_new sys nm mode w = (Value (mkShmHandle (Some id) (sg_size s) true mode false), attached mode id w1).
Proof.
  intros H Hv w1 A. destruct (attach_world sys nm mode w H Hv) as (_&_&Hm). fold w1 in Hm.
  destruct Hm as [(id'&s'&A'&->)|(e&_&_&Hno)]; [|by destruct (Hno id s)].
  pose proof (at_name _ _ _ _ _ _ A') as En. rewrite (at_name _ _ _ _ _ _ A) in En. injection En as <-.
  pose proof (at_object _ _ _ _ _ _ A') as Eo. rewrite (at_object _ _ _ _ _ _ A) in Eo. by injection Eo as <-.
Qed.

Lemma live_attach sys nm mode w id s :
  world_ok w → sys_ok sys → live_segment mx_new (sys_keys sys) nm w id s →
  owner_is_dead (sys_os sys) (sg_header s) (monotonic_ns (sys_os sys)) = false →
  attach mx_new sys nm mode w =
    (Value (mkShmHandle (Some id) (sg_size s) true mode false), attached mode id (gc mx_new sys w)) ∧
  w_objs (gc mx_new sys w) !! id = Some s.
Proof.
  intros H Hs L Hlive. destruct (lv_entry _ _ _ _ _ _ L) as (e&Ee&_).
  destruct (wo_entries _ _ H _ _ Ee) as (Hv&Hne&_).
  pose proof (live_attachable mx_new sys nm _ id s Hs (live_gc mx_new sys _ nm w id s H Hs L Hlive)) as A.
  split; [|apply A].
  rewrite (attach_attachable sys nm mode w id s H Hv); rewrite bool_decide_false by done; done.
Qed.

Lemma attached_ok mode id w : world_ok w → world_ok (attached mode id w) ∧ evolves w (attached mode id w).
Proof.
  intros H. unfold attached. split.
  - apply ok_set_maps, ok_set_fds. destruct mode; [done|by apply ok_upd_header].
  - destruct mode; [by apply evolves_same|].
    apply (evolves_upd_header (λ h, set_ref_count (u32 (ref_count h + 1)) h) id w).
    intros s _. apply header_step_ref_count.
Qed.

Lemma attach_ok sys nm mode w :
  world_ok w → world_ok (attach mx_new sys nm mode w).2 ∧ evolves w (attach mx_new sys nm mode w).2.
Proof.
  intros H. destruct (parse_and_validate_name nm) eqn:Ep.
  2: { unfold attach. by rewrite Ep. }
  destruct (attach_world sys nm mode w H) as (H1&E1&[(id&s&_&->)|(e&->&_)]).
  { unfold valid_name. by rewrite Ep. }
  - destruct (attached_ok mode id _ H1) as [H2 E2]. split; [exact H2|]. etrans; [exact E1|exact E2].
  - by split.
Qed.

Lemma destroy_ok sys nm w :
  world_ok w → world_ok (destroy mx_new sys nm w).2 ∧ evolves w (destroy mx_new sys nm w).2.
Proof.
  intros H. unfold destroy. destruct (parse_and_validate_name nm); [|done].
  pose proof (local_unlink mx_new sys nm None w H) as S1.
  destruct (shm_unlink sys nm w) as [[e|] w1]; cbn [snd] in S1; [split; apply S1|].
  case_bool_decide; [split; apply S1|].
  pose proof (local_unregister mx_new sys nm None w1 (ls_ok _ _ _ _ _ S1)) as S2.
  split; [apply S2|]. etrans; [apply S1|apply S2].
Qed.

Lemma header_step_tick now h : header_step h (set_heartbeat now h).
Proof. unfold header_step. by split_and!. Qed.

Lemma tick_one now p w :
  world_ok w →
  let w' := upd_header (set_heartbeat now) (Z.to_nat p) w in world_ok w' ∧ evolves w w'.
Proof.
  intros H w'. split; [by apply ok_upd_header|]. apply evolves_upd_header. intros s _. apply header_step_tick.
Qed.

Lemma tick_ok now w : world_ok w → world_ok (tick now w) ∧ evolves w (tick now w).
Proof.
  intros H. unfold tick. induction (hb_headers (w_heartbeat w)) as [|p ps [IH1 IH2]]; cbn [foldr].
  - by destruct w.
  - destruct (tick_one now p _ IH1) as [H2 E2]. split; [exact H2|]. etrans; [exact IH2|exact E2].
Qed.

Lemma registry_process h fds maps hb w :
  base_ h = reg_id w → registry_of mx_new (as_process h fds maps hb w) = registry_of mx_new w.
Proof. intros Hb. unfold registry_of, as_process. cbn. rewrite Hb. done. Qed.

Lemma entries_process h fds maps hb w : base_ h = reg_id w → entries (as_process h fds maps hb w) = entries w.
Proof. intros Hb. unfold ManagerInv.entries. by rewrite registry_process. Qed.

Lemma live_process keys nm id s h fds maps hb w :
  base_ h = reg_id w → live_segment mx_new keys nm w id s →
  live_segment mx_new keys nm (as_process h fds maps hb w) id s.
Proof. intros Hb [L1 L2 L3 L4 L5 L6 L7 L8]. split; try done. by rewrite entries_process. Qed.

Lemma process_ok h fds maps hb w :
  world_ok w → base_ h = reg_id w → (∀ p, p ∈ hb_headers hb → p < Z.of_nat (w_next w)) →
  world_ok (as_process h fds maps hb w) ∧ evolves w (as_process h fds maps hb w).
Proof.
  intros H Hb Hp. split; [|by apply evolves_same].
  pose proof (registry_process h fds maps hb w Hb) as Er.
  assert (Ei : reg_id (as_process h fds maps hb w) = reg_id w) by exact Hb.
  destruct H as [H1 H2 H3 H4 H5 H6 H7 H8]. split; try done.
  - unfold reg_ready. by rewrite Er.
  - intros nm id. rewrite Ei. apply H5.
  - unfold ManagerInv.entries. rewrite Er. exact H6.
  - unfold ManagerInv.entries. rewrite Er. exact H7.
Qed.

Lemma wstep_ok ok w w' : wstep ok w w' → world_ok w → world_ok w' ∧ evolves w w'.
Proof.
  intros S H. destruct S.
  - pose proof (create_cases mx_new sys o w H H1) as Hc. unfold create_outcome in Hc.
    destruct (create mx_new sys o w) as [res w']. by destruct Hc as (?&?&_).
  - by apply attach_ok.
  - by apply handle_reset_ok.
  - by apply destroy_ok.
  - pose proof (gc_pass mx_new sys w H) as P. split; apply P.
  - by apply tick_ok.
  - by apply process_ok.
Qed.

Lemma wsteps_ok ok w w' : rtc (wstep ok) w w' → world_ok w → world_ok w' ∧ evolves w w'.
Proof.
  induction 1 as [w|w1 w2 w3 S _ IH]; intros H; [done|].
  destruct (wstep_ok ok w1 w2 S H) as [H2 E2]. destruct (IH H2) as [H3 E3].
  split; [done|]. by etrans.
Qed.

(** ** The registry tracks the namespace *)

Record tracked (w : W) : Prop := {
  tr_iff nm : nm ≠ REGISTRY_NAME → is_Some (w_names w !! nm) ↔ is_Some (entries w !! nm);
  tr_seg nm id sz hdr e :
    nm ≠ REGISTRY_NAME → w_names w !! nm = Some id → headers w !! id = Some (sz, hdr) →
    entries w !! nm = Some e →
    SHMFX_HEADER_SIZE ≤ sz ∧ janitor_header_valid hdr sz = true ∧ segment_name hdr = nm ∧
    e_total_size e = sz ∧ e_flags e = flags hdr;
}.

Lemma immutable_janitor h h' n :
  immutable_fields h' = immutable_fields h →
  janitor_header_valid h' n = janitor_header_valid h n ∧ segment_name h' = segment_name h ∧
  flags h' = flags h.
Proof.
  destruct h, h'. unfold immutable_fields. cbn. intros [=]. by subst.
Qed.

(** Both the name and the entry of [nm] stay, the latter up to its time stamps, or both go. *)
Definition sync_step (w w' : W) (nm : bytes) : Prop :=
  (w_names w' !! nm = w_names w !! nm ∧
   (entries w' !! nm = entries w !! nm ∨
    ∃ e e', entries w !! nm = Some e ∧ entries w' !! nm = Some e' ∧
            e_total_size e' = e_total_size e ∧ e_flags e' = e_flags e)) ∨
  (w_names w' !! nm = None ∧ entries w' !! nm = None).

Lemma tracked_step w w' :
  world_ok w → tracked w → evolves w w' → (∀ nm, nm ≠ REGISTRY_NAME → sync_step w w' nm) → tracked w'.
Proof.
  intros H [T1 T2] Hev Hs. split.
  - intros nm Hne. destruct (Hs nm Hne) as [[-> [->|(e&e'&E&E'&_)]]|[-> ->]]; [by apply T1| |done].
    rewrite E', T1, E by done. split; eauto.
  - intros nm id sz hdr e' Hne En Eh Ee.
    destruct (Hs nm Hne) as [[En' Hse]|[En' _]]; [|congruence]. rewrite En' in En.
    destruct (wo_names _ _ H _ _ En) as [s0 Es0].
    assert (Eh0 : headers w !! id = Some (sg_size s0, sg_header s0)).
    { unfold headers. by rewrite lookup_fmap, Es0. }
    destruct (Hev _ _ _ Eh0) as (h'&Eh'&Himm&_). rewrite Eh in Eh'.
    injection Eh' as Esz <-. rewrite <-Esz in Eh0.
    destruct (immutable_janitor _ _ sz Himm) as (->&->&->).
    destruct Hse as [Hse|(e&e2&Ee1&Ee2&Hsz&Hfl)].
    + rewrite Hse in Ee. by apply (T2 nm id sz (sg_header s0) e').
    + rewrite Ee in Ee2. injection Ee2 as <-. rewrite Hsz, Hfl. by apply (T2 nm id sz (sg_header s0) e).
Qed.

Lemma tracked_intact w nm id s e :
  tracked w → nm ≠ REGISTRY_NAME → w_names w !! nm = Some id → w_objs w !! id = Some s →
  entries w !! nm = Some e → seg_intact s.
Proof.
  intros [_ T2] Hne En Eo Ee. destruct (T2 nm id (sg_size s) (sg_header s) e) as (?&?&_); try done.
  unfold headers. by rewrite lookup_fmap, Eo.
Qed.

Lemma gc_tracked sys w : world_ok w → sys_ok sys → tracked w → tracked (gc mx_new sys w).
Proof.
  intros H Hsys T. pose proof (gc_pass mx_new sys w H) as P.
  apply (tracked_step w); [done|done|apply P|]. intros nm Hne.
  destruct (entries w !! nm) as [e|] eqn:Ee.
  - destruct (proj2 (tr_iff _ T nm Hne)) as [id En]; [by rewrite Ee|].
    destruct (wo_names _ _ H _ _ En) as [s Eo].
    assert (Hr : reg_id w ≠ Some id) by (intros Hr; by apply Hne, (wo_regname _ _ H nm id)).
    pose proof (tracked_intact w nm id s e T Hne En Eo Ee) as Hi.
    destruct (gc_turn mx_new sys w nm e H Ee) as (w1&x&<-&Hn&H1&(En1&Ee1&_&Ho1)&(En2&Ee2&_)).
    unfold sync_step. rewrite En2, Ee2.
    destruct (gc_entry_sync mx_new sys (monotonic_ns (sys_os sys)) x id s w1 H1 Hsys) as [[Hk1 Hk2]|Hk];
      rewrite ?Hn, ?En1, ?Ee1; try done.
    + by rewrite Ho1.
    + left. rewrite Hn in Hk1, Hk2. rewrite Hk1, En. split; [done|].
      destruct Hk2 as [->| ->]; [by left|right]. by exists (erase x), (erase (set_last_seen (monotonic_ns (sys_os sys)) x)).
    + right. by rewrite Hn in Hk.
  - right. assert (En : w_names w !! nm = None).
    { destruct (w_names w !! nm) as [id|] eqn:En; [|done].
      destruct (proj1 (tr_iff _ T nm Hne)) as [e E]; [by rewrite En|congruence]. }
    split; [destruct (ps_sub _ _ _ _ P nm) as [->|]; done|].
    rewrite (ps_entries _ _ _ _ P); [done|]. intros Hin.
    destruct (listed_entries mx_new w H) as (_&Hes&_). apply list_elem_of_fmap in Hin as (x&->&Hx).
    rewrite Forall_forall in Hes. rewrite (Hes x Hx) in Ee. done.
Qed.

(** Unlinking a name and dropping its entry. *)
Lemma drop_tracked sys nm w :
  world_ok w → sys_ok sys → tracked w →
  tracked (registry_unregister mx_new sys nm (shm_unlink sys nm w).2).2.
Proof.
  intros H Hsys T. pose proof (local_unlink mx_new sys nm None w H) as S1.
  set (w1 := (shm_unlink sys nm w).2) in *.
  pose proof (local_unregister mx_new sys nm None w1 (ls_ok _ _ _ _ _ S1)) as S2.
  destruct (unregister_same mx_new sys nm w1 (ls_ok _ _ _ _ _ S1)) as [S E].
  apply (tracked_step w); [done|done|etrans; [apply S1|apply S2]|]. intros nm' Hne.
  destruct (decide (nm' = nm)) as [->|Hd].
  - right. rewrite (sb_names _ _ S), E, lookup_delete_eq. split; [|done].
    unfold w1, shm_unlink. rewrite (so_unlink _ Hsys). destruct (w_names w !! nm) eqn:En; [|done].
    cbn. apply lookup_delete_eq.
  - left. rewrite (ls_names _ _ _ _ _ S2), (ls_names _ _ _ _ _ S1) by done. split; [done|]. left.
    by rewrite (ls_entries _ _ _ _ _ S2), (ls_entries _ _ _ _ _ S1).
Qed.

Lemma tracked_frame w w' :
  world_ok w → tracked w → evolves w w' → w_names w' = w_names w →
  registry_of mx_new w' = registry_of mx_new w → tracked w'.
Proof.
  intros H T Hev En Er. apply (tracked_step w); try done. intros nm _. left. rewrite En.
  unfold ManagerInv.entries. rewrite Er. auto.
Qed.

Lemma upd_header_tracked f id w :
  world_ok w → (∀ s, w_objs w !! id = Some s → header_step (sg_header s) (f (sg_header s))) →
  tracked w → tracked (upd_header f id w).
Proof.
  intros H Hf T. apply (tracked_frame w); try done; [by apply evolves_upd_header|].
  unfold upd_header. apply registry_of_upd_seg. right. by intros [].
Qed.

Lemma handle_reset_tracked sys h w :
  world_ok w → sys_ok sys → tracked w → tracked (handle_reset mx_new sys h w).
Proof.
  intros H Hsys T. unfold handle_reset.
  assert (Hfd : ∀ w1, tracked w1 → tracked (if fd_ h then close w1 else w1)).
  { intros w1 [T1 T2]. by destruct (fd_ h). }
  apply Hfd. destruct (base_ h) as [id|]; [|done]. fold (drop_heartbeat h id w).
  assert (T1 : tracked (drop_heartbeat h id w)).
  { unfold drop_heartbeat. destruct (owner_ h); [|done]. by destruct T. }
  pose proof (ok_drop_heartbeat mx_new h id w H) as H1. set (w1 := drop_heartbeat h id w) in *.
  assert (Hm : ∀ w2, tracked w2 → tracked (munmap w2)) by by intros w2 [].
  apply Hm. destruct (mode_ h); [done|]. set (w2 := upd_header _ id w1).
  assert (T2 : tracked w2) by (apply upd_header_tracked; [done| |done]; intros s _; apply header_step_ref_count).
  assert (H2 : world_ok w2) by by apply ok_upd_header.
  match goal with |- context [if ?b then _ else _] => destruct b end; [|done].
  apply drop_tracked; [by apply ok_upd_header|done|].
  apply upd_header_tracked; [done| |done]. intros s _. apply header_step_dead.
Qed.

Lemma attach_tracked sys nm mode w :
  world_ok w → sys_ok sys → tracked w → tracked (attach mx_new sys nm mode w).2.
Proof.
  intros H Hsys T. destruct (parse_and_validate_name nm) eqn:Ep; [|unfold attach; by rewrite Ep].
  destruct (attach_world sys nm mode w H) as (H1&E1&Hm); [unfold valid_name; by rewrite Ep|].
  assert (T1 : tracked (if bool_decide (nm = REGISTRY_NAME) then w else gc mx_new sys w)).
  { case_bool_decide; [done|by apply gc_tracked]. }
  destruct Hm as [(id&s&_&->)|(e&->&_)]; [|done]. set (w1 := if bool_decide (nm = REGISTRY_NAME) then w else gc mx_new sys w) in *. cbn [snd].
  assert (Hf : ∀ w2, tracked w2 → tracked (set_maps (w_maps w1 + 1) (set_fds (w_fds w1 + 1) w2)))
    by by intros w2 [].
  apply Hf. destruct mode; [done|]. apply upd_header_tracked; [done| |done].
  intros s' _. apply header_step_ref_count.
Qed.

Lemma destroy_tracked sys nm w :
  world_ok w → sys_ok sys → tracked w → tracked (destroy mx_new sys nm w).2.
Proof.
  intros H Hsys T. unfold destroy. destruct (parse_and_validate_name nm); [|done].
  pose proof (drop_tracked sys nm w H Hsys T) as Td.
  pose proof (local_unlink mx_new sys nm None w H) as S1. revert Td S1.
  unfold shm_unlink. rewrite (so_unlink _ Hsys). destruct (w_names w !! nm) as [id|] eqn:En; [|done].
  cbn [snd]. intros Td S1. case_bool_decide as Er; [|done]. cbn [snd].
  apply (tracked_step w); [done|done|apply S1|]. intros nm' Hne. left.
  rewrite (ls_names _ _ _ _ _ S1) by congruence. auto.
Qed.

Lemma create_tracked sys o w :
  world_ok w → sys_ok sys → 0 ≤ co_total_size o → 0 ≤ co_meta_size o < 2 ^ 64 - SHMFX_HEADER_SIZE →
  tracked w → tracked (create mx_new sys o w).2.
Proof.
  intros H Hsys H0 Hm T. pose proof (create_cases mx_new sys o w H H0) as Hc.
  assert (Hp : has_value (create mx_new sys o w).1 = true → valid_name (co_name o)).
  { unfold create, valid_name. by destruct (parse_and_validate_name (co_name o)). }
  unfold create_outcome in Hc. destruct (create mx_new sys o w) as [res w']. cbn [fst snd] in *.
  destruct Hc as (_&Hev&Hres). destruct res as [h|e].
  2: { destruct (Hres (so_unlink _ Hsys _)) as [U1 U2 _ _ _ _].
       apply (tracked_step w); try done. intros nm _. left. rewrite U1, U2. auto. }
  destruct Hres as [hdr C]. set (nm := co_name o) in *.
  assert (Hother : ∀ nm', nm' ≠ nm → w_names w' !! nm' = w_names w !! nm' ∧ entries w' !! nm' = entries w !! nm').
  { intros nm' Hne. rewrite (cr_names _ _ _ _ _ _ _ C), (cr_entries _ _ _ _ _ _ _ C).
    fold nm. rewrite lookup_insert_ne by done. split; [done|]. case_bool_decide; [done|].
    by rewrite lookup_insert_ne. }
  split.
  - intros nm' Hne. destruct (decide (nm' = nm)) as [->|Hd].
    + rewrite (cr_names _ _ _ _ _ _ _ C), (cr_entries _ _ _ _ _ _ _ C). fold nm.
      rewrite bool_decide_false, !lookup_insert_eq by done. split; eauto.
    + destruct (Hother nm' Hd) as [-> ->]. by apply T.
  - intros nm' id sz hd e Hne En Eh Ee. destruct (decide (nm' = nm)) as [->|Hd].
    + rewrite (cr_names _ _ _ _ _ _ _ C) in En. fold nm in En. rewrite lookup_insert_eq in En.
      injection En as <-. rewrite (cr_entries _ _ _ _ _ _ _ C) in Ee. fold nm in Ee.
      rewrite bool_decide_false, lookup_insert_eq in Ee by done. injection Ee as <-.
      unfold headers in Eh. rewrite lookup_fmap, (cr_object _ _ _ _ _ _ _ C) in Eh. cbn in Eh.
      injection Eh as <- <-. destruct (created_intact mx_new sys o w h w' hdr Hm C) as [Hs1 Hj].
      destruct (created_fields _ _ _ _ _ _ _ C) as [d ->].
      split_and!; [done|exact Hj| |done|done].
      unfold segment_name. cbn. by destruct (parse_value_name nm (Hp eq_refl)).
    + destruct (Hother nm' Hd) as [En' Ee']. rewrite En' in En. rewrite Ee' in Ee.
      apply (tr_seg _ T nm' id); try done. rewrite <-(cr_headers _ _ _ _ _ _ _ C id); [done|].
      apply (wo_next _ _ H), (wo_names _ _ H nm' id En).
Qed.

Lemma tick_frame now w : w_names (tick now w) = w_names w ∧ registry_of mx_new (tick now w) = registry_of mx_new w.
Proof.
  split; [done|]. unfold tick. induction (hb_headers (w_heartbeat w)) as [|p ps IH]; cbn [foldr].
  - by destruct w.
  - rewrite <-IH. set (w' := set_objs (foldr _ _ ps) w).
    apply (registry_of_upd_seg mx_new (with_header (set_heartbeat now)) (Z.to_nat p) w'). right. by intros [].
Qed.

Lemma wstep_tracked w w' : wstep sys_ok w w' → world_ok w → tracked w → tracked w'.
Proof.
  intros S H T. destruct S.
  - by apply create_tracked.
  - by apply attach_tracked.
  - by apply handle_reset_tracked.
  - by apply destroy_tracked.
  - by apply gc_tracked.
  - destruct (tick_frame now w) as [E1 E2]. apply (tracked_frame w); try done. by apply tick_ok.
  - apply (tracked_frame w); [done|done|by apply process_ok|done|].
    unfold registry_of, as_process. cbn. rewrite H0. done.
Qed.

Lemma wsteps_tracked w w' : rtc (wstep sys_ok) w w' → world_ok w → tracked w → tracked w'.
Proof.
  induction 1 as [w|w1 w2 w3 S _ IH]; intros H T; [done|].
  destruct (wstep_ok sys_ok w1 w2 S H) as [H2 _]. apply IH; [done|]. by apply (wstep_tracked w1).
Qed.

(** ** Bootstrap *)

Definition empty_world : W := mkWorld ∅ ∅ 0 None 0 0 hb_init.

(** The world after the first process has constructed its registry. *)
Definition boot (sys : Sys) : W := registry_construct mx_new sys empty_world.

Lemma boot_eq sys :
  sys_ok sys →
  boot sys = mkWorld {[REGISTRY_NAME := 0%nat]}
    {[0%nat := mkSegment kRegistryTotalSize (registry_header sys) mx_new (RegistryBody fresh_payload)]}
    1 (Some (mkShmHandle (Some 0%nat) kRegistryTotalSize true ReadWrite true)) 1 1 hb_init.
Proof.
  intros Hs. unfold boot, registry_construct, create_registry_raw, shm_open_excl.
  rewrite (so_open _ Hs). cbn [empty_world w_names]. rewrite lookup_empty.
  unfold ftruncate. rewrite (so_ftruncate _ Hs). unfold mmap. unfold init_mutex. rewrite mmap_ok, (so_mutex _ Hs) by (apply (so_mmap _ Hs) || done).
  unfold set_instance, upd_seg, set_objs, set_maps. cbn [w_names w_objs w_next w_registry w_fds w_maps w_heartbeat].
  done.
Qed.

Lemma boot_registry sys :
  sys_ok sys → registry_of mx_new (boot sys) = mkRegistry true fresh_payload mx_new.
Proof. intros Hs. rewrite boot_eq by done. unfold registry_of, seg. cbn. by rewrite lookup_singleton_eq. Qed.

Lemma boot_ok sys : sys_ok sys → mx_state mx_new = MxFree → world_ok (boot sys) ∧ tracked (boot sys).
Proof.
  intros Hs Hm. pose proof (boot_registry sys Hs) as Er.
  assert (Ee : entries (boot sys) = ∅) by (unfold ManagerInv.entries; rewrite Er; apply fresh_map).
  split; split.
  - unfold reg_ready. rewrite Er. split_and!; [done|apply fresh_wf|done].
  - rewrite boot_eq by done. cbn. intros id [s [<- _]%lookup_singleton_Some]. lia.
  - rewrite boot_eq by done. cbn. intros nm id [_ <-]%lookup_singleton_Some. by rewrite lookup_singleton_eq.
  - rewrite boot_eq by done. cbn. intros nm nm' id [<- _]%lookup_singleton_Some [<- _]%lookup_singleton_Some. done.
  - rewrite boot_eq by done. cbn. intros nm id _ [<- _]%lookup_singleton_Some. done.
  - rewrite Ee. apply map_Forall_empty.
  - rewrite Ee. unfold total. by rewrite map_to_list_empty.
  - rewrite boot_eq by done. cbn. by intros p ?%elem_of_nil.
  - intros nm Hne. rewrite Ee, lookup_empty.
    assert (w_names (boot sys) = {[REGISTRY_NAME := 0%nat]}) as -> by by rewrite boot_eq.
    by rewrite lookup_singleton_ne by done.
  - intros nm id sz hdr e _ _ _. rewrite Ee, lookup_empty. done.
Qed.

End steps.
