(* ===== verification/ManagerProps.v ===== *)
(** * Properties of the manager and of the janitor

    Creation, attachment and their cleanup, the worlds that operations of many processes reach,
    and what the janitor keeps and reclaims. *)

From S2P Require Import Prelude Types Sync Security Lifecycle Registry Manager ManagerInv Janitor ManagerOps ManagerSteps.

#[local] Opaque NSLOTS reg_map.

(** ** A concrete system *)

(** Process 42 is alive, process 99 is not; the monotonic clock shows [sec] seconds. *)
Definition demo_os (sec : Z) : Os := mkOs (λ p, p =? 99) (λ _, None) (Some (sec, 0)) (Some []) (λ _, []).

Definition demo_sys (pid sec : Z) : Sys :=
  mkSys (demo_os sec) (mkKeyEnv None None) pid 7 (λ _, None) false None (λ _, None) (λ _, None)
    (λ _, None) (mkMutexRcs 0 0 0 0) EOther.

Lemma demo_sys_ok pid sec : sys_ok (demo_sys pid sec).
Proof. by split. Qed.

Definition demo_name : bytes := str "/shmfx.app.demo".

Definition demo_create : CreateOptions := mkCreateOptions demo_name Raw 512 64 384 0.

Abbreviation demo_boot := (boot (Mx := mx_status) MxFree (demo_sys 42 10)).

Lemma demo_boot_ok : world_ok MxFree demo_boot ∧ tracked MxFree demo_boot.
Proof. by apply boot_ok; [apply demo_sys_ok|]. Qed.

(** The world after process [pid] has created the demo segment. *)
Definition demo_handle : ShmHandle := mkShmHandle (Some 1%nat) 512 true ReadWrite true.

Definition demo_world (pid : Z) : World mx_status := (create MxFree (demo_sys pid 10) demo_create demo_boot).2.

Lemma demo_created pid :
  pid = 42 ∨ pid = 99 →
  create MxFree (demo_sys pid 10) demo_create demo_boot = (Value demo_handle, demo_world pid).
Proof.
  intros Hp. assert (E : (create MxFree (demo_sys pid 10) demo_create demo_boot).1 = Value demo_handle)
    by (destruct Hp as [-> | ->]; vm_compute; reflexivity).
  unfold demo_world. destruct (create MxFree (demo_sys pid 10) demo_create demo_boot) as [r w].
  cbn [fst snd] in *. by rewrite E.
Qed.

Lemma demo_world_ok pid : pid = 42 ∨ pid = 99 → world_ok MxFree (demo_world pid).
Proof.
  intros Hp. pose proof (create_cases MxFree (demo_sys pid 10) demo_create demo_boot (proj1 demo_boot_ok)) as H.
  unfold create_outcome in H. rewrite (demo_created pid Hp) in H. by apply H.
Qed.

Lemma demo_create_step (ok : Sys → Prop) pid :
  ok (demo_sys pid 10) → wstep MxFree ok demo_boot (demo_world pid).
Proof.
  intros H. unfold demo_world. apply ws_create; [exact H|done|done| |done]. repeat constructor; done.
Qed.

(** The segment of process 99 after its handle has ended: no reference is left. *)
Definition demo_left : World mx_status := handle_reset MxFree (demo_sys 99 10) demo_handle (demo_world 99).

Lemma demo_left_ok : world_ok MxFree demo_left.
Proof. apply handle_reset_ok. apply demo_world_ok. by right. Qed.

Lemma demo_left_steps sys :
  rtc (wstep MxFree (λ _, True)) (demo_world 99) (gc MxFree sys demo_left).
Proof.
  apply (rtc_l _ _ demo_left); [unfold demo_left; by apply ws_reset|]. apply rtc_once. by apply ws_gc.
Qed.

Section theorems.
Context {Mx : Type} `{!RobustMutex Mx, !RobustMutexLaws Mx} (mx_new : Mx).

Abbreviation W := (World Mx).
Abbreviation world_ok := (world_ok mx_new).
Abbreviation entries := (entries mx_new).
Abbreviation create := (create mx_new).
Abbreviation attach := (attach mx_new).
Abbreviation gc := (gc mx_new).
Abbreviation wstep := (wstep mx_new).
Abbreviation boot := (boot mx_new).


(** C14: a [create] that fails leaves nothing behind, wherever it failed, provided the cleanup's
    [shm_unlink] works: names, registry entries, the headers of all existing segments, open
    descriptors, mappings and heartbeat owners are as before. *)
Theorem create_error_clean sys o (w : W) e w' :
  world_ok w → 0 ≤ co_total_size o → fail_unlink sys (co_name o) = None →
  create sys o w = (Error e, w') → world_ok w' ∧ unchanged mx_new w w'.
Proof.
  intros H H0 Hf E. pose proof (create_cases mx_new sys o w H H0) as Hc. unfold create_outcome in Hc.
  rewrite E in Hc. destruct Hc as (H'&_&Hu). split; [done|]. by apply Hu.
Qed.

(** C15: [attach] runs the janitor (unless it is for the registry) and then succeeds exactly when
    the segment is attachable in the world it finds: named, large enough, with a valid header of
    that name, signed when the registry says so, with a verifying signature, and not Dead. On
    success only the reference count, the descriptors and the mappings have changed; on any error
    the world is the one the janitor left. *)
Theorem attach_spec sys nm mode (w : W) :
  world_ok w → valid_name nm →
  let w1 := if bool_decide (nm = REGISTRY_NAME) then w else gc sys w in
  (∃ id s, attachable mx_new sys nm w1 id s ∧
     attach sys nm mode w = (Value (mkShmHandle (Some id) (sg_size s) true mode false), attached mode id w1)) ∨
  (∃ e, attach sys nm mode w = (Error e, w1) ∧ e ≠ Ok ∧ ∀ id s, ¬ attachable mx_new sys nm w1 id s).
Proof. intros H Hv. by destruct (attach_world mx_new sys nm mode w H Hv) as (_&_&?). Qed.

(** C12: in every world that operations of any number of processes reach from the bootstrap,
    whatever calls fail on the way, the registry is well formed with a free mutex, its entries
    have valid names, the segments it lists take at most 4 GiB together, every name is bound to an
    existing object and no two names to the same one. *)
Theorem manager_invariant sys (w : W) :
  mx_state mx_new = MxFree → sys_ok sys → rtc (wstep (λ _, True)) (boot sys) w → world_ok w.
Proof.
  intros Hm Hs Hr. by apply (wsteps_ok mx_new (λ _, True) (boot sys)); [|apply boot_ok].
Qed.

(** C23: along every run a segment keeps its size, its immutable header block, its signature and
    its owner, and its state only moves forward: Active to Draining, anything to Dead, and Dead
    is final. *)
Theorem lifecycle_monotone sys (w w' : W) id sz h :
  mx_state mx_new = MxFree → sys_ok sys → rtc (wstep (λ _, True)) (boot sys) w →
  rtc (wstep (λ _, True)) w w' → headers w !! id = Some (sz, h) →
  ∃ h', headers w' !! id = Some (sz, h') ∧ immutable_fields h' = immutable_fields h ∧
        hmac h' = hmac h ∧ owner_pid h' = owner_pid h ∧ owner_start_time h' = owner_start_time h ∧
        state_step (state h) (state h').
Proof.
  intros Hm Hs Hr Hr' Hh.
  destruct (wsteps_ok mx_new (λ _, True) (boot sys) w Hr) as [Hw _]; [by apply boot_ok|].
  destruct (wsteps_ok mx_new (λ _, True) w w' Hr' Hw) as [_ Hev].
  destruct (Hev _ _ _ Hh) as (h'&Hh'&?&?&?&?&?). exists h'. by split_and!.
Qed.

(** C8: in every world reached without failing calls, the registry lists exactly the named
    segments (other than itself), and each of them is intact: at least a header long, with a valid
    header that carries its name and agrees with the entry on size and flags. *)
Theorem registry_tracks_segments sys (w : W) :
  mx_state mx_new = MxFree → sys_ok sys → rtc (wstep sys_ok) (boot sys) w →
  ∀ nm, nm ≠ REGISTRY_NAME →
  (is_Some (w_names w !! nm) ↔ is_Some (entries w !! nm)) ∧
  ∀ id sz hdr e, w_names w !! nm = Some id → headers w !! id = Some (sz, hdr) → entries w !! nm = Some e →
    SHMFX_HEADER_SIZE ≤ sz ∧ janitor_header_valid hdr sz = true ∧ segment_name hdr = nm ∧
    e_total_size e = sz ∧ e_flags e = flags hdr.
Proof.
  intros Hm Hs Hr nm Hne. destruct (boot_ok mx_new sys Hs Hm) as [H0 T0].
  pose proof (wsteps_tracked mx_new (boot sys) w Hr H0 T0) as T. split; [by apply T|].
  intros id sz hdr e. by apply (tr_seg _ _ T).
Qed.

(** C9: the janitor never takes a segment away that is not orphaned (dead owner and no reference)
    and not a zombie (draining for more than an hour and mapped by no process): its name, its size
    and its contents stay, its header changes at most from Active to Draining, and that only when
    the owner is dead. An intact one keeps its registry entry, up to the time stamp. In particular
    a segment with a reference stays as long as some process maps it. *)
Theorem gc_keeps_segment sys (w : W) nm e id s :
  let now := monotonic_ns (sys_os sys) in
  world_ok w → entries w !! nm = Some e → w_names w !! nm = Some id → w_objs w !! id = Some s →
  ¬ orphaned sys now (sg_header s) → ¬ zombie sys now nm e (sg_header s) →
  w_names (gc sys w) !! nm = Some id ∧
  (∃ s', w_objs (gc sys w) !! id = Some s' ∧ sg_size s' = sg_size s ∧ sg_body s' = sg_body s ∧
     (sg_header s' = sg_header s ∨
      owner_is_dead (sys_os sys) (sg_header s) now = true ∧
      sg_header s' = set_state Draining (sg_header s))) ∧
  (sys_ok sys → seg_intact s →
   entries (gc sys w) !! nm = Some e ∨ entries (gc sys w) !! nm = Some (set_last_seen now e)).
Proof.
  intros now H Ee En Eo Horph Hz. destruct (gc_kept mx_new sys w nm e id s) as (H1&(s'&H2&H3&_&H4&H5)&H6);
    try done. split; [done|]. split; [|done]. exists s'. by split_and!.
Qed.

(** C22: the janitor reclaims: an intact segment whose owner is dead, that nobody refers to and
    whose mutex is free or abandoned loses its name and its registry entry and is marked Dead in
    one pass; so does the entry of a segment that is gone already. *)
Theorem gc_reclaims_orphan sys (w : W) nm e :
  let now := monotonic_ns (sys_os sys) in
  world_ok w → sys_ok sys → entries w !! nm = Some e →
  (w_names w !! nm = None → entries (gc sys w) !! nm = None) ∧
  ∀ id s, w_names w !! nm = Some id → w_objs w !! id = Some s → seg_intact s →
    orphaned sys now (sg_header s) → mx_state (sg_mutex s) = MxFree ∨ mx_state (sg_mutex s) = MxAbandoned →
    reclaimed mx_new nm id s (gc sys w).
Proof.
  intros now H Hs Ee. split; [by eapply gc_drops_stale|]. intros id s En Eo Hi Ho Hm.
  by apply (gc_reclaimed mx_new sys w nm e id s).
Qed.

(** C21: what one process creates another can attach to: while the owner is alive, an [attach] by
    the same name with the same key succeeds after the janitor pass it starts with, maps the
    segment of the requested size, and makes the reference count two. *)
Theorem create_then_attach sys sys' o (w : W) h w' :
  world_ok w → 0 ≤ co_total_size o → 0 ≤ co_meta_size o < 2 ^ 64 - SHMFX_HEADER_SIZE →
  create sys o w = (Value h, w') → co_name o ≠ REGISTRY_NAME → sys_ok sys' → sys_keys sys' = sys_keys sys →
  (∀ sz hdr, headers w' !! w_next w = Some (sz, hdr) →
     owner_is_dead (sys_os sys') hdr (monotonic_ns (sys_os sys')) = false) →
  ∃ hdr w'', headers w' !! w_next w = Some (co_total_size o, hdr) ∧
    attach sys' (co_name o) ReadWrite w' =
      (Value (mkShmHandle (Some (w_next w)) (co_total_size o) true ReadWrite false), w'') ∧
    headers w'' !! w_next w = Some (co_total_size o, set_ref_count 2 hdr).
Proof.
  intros H H0 Hm E Hne Hs Hk Hlive. pose proof (create_cases mx_new sys o w H H0) as Hc.
  unfold create_outcome in Hc. rewrite E in Hc. destruct Hc as (H'&_&hdr&C).
  pose proof (created_live mx_new sys o w h w' hdr H Hm E C Hne) as L. rewrite <-Hk in L.
  assert (Eh : headers w' !! w_next w = Some (co_total_size o, hdr)).
  { unfold headers. by rewrite lookup_fmap, (cr_object _ _ _ _ _ _ _ C). }
  destruct (created_header mx_new sys o w h w' hdr H Hm E C) as (_&_&_&Hrc&_).
  destruct (live_attach mx_new sys' _ ReadWrite w' _ _ H' Hs L (Hlive _ _ Eh)) as [-> Eo].
  exists hdr. eexists. split; [done|]. split; [done|].
  unfold attached, headers, upd_header, upd_seg. cbn. rewrite lookup_fmap, lookup_alter_eq, Eo. cbn.
  by rewrite Hrc.
Qed.

(** Attaching and detaching again leaves the world as the janitor pass of the attach left it:
    the reference count, the descriptors and the mappings return to what they were. *)
Theorem attach_detach sys sys' nm mode (w : W) h w' :
  world_ok w → valid_name nm → attach sys nm mode w = (Value h, w') →
  let w1 := if bool_decide (nm = REGISTRY_NAME) then w else gc sys w in
  (∀ id sz hdr, headers w1 !! id = Some (sz, hdr) → 0 ≤ ref_count hdr < 2 ^ 32) →
  handle_reset mx_new sys' h w' = w1.
Proof.
  intros H Hv E w1 Htyped. destruct (attach_world mx_new sys nm mode w H Hv) as (_&_&Hm). fold w1 in Hm.
  rewrite E in Hm. destruct Hm as [(id&s&A&[= -> ->])|(e&[=]&_)].
  apply (detach_attached mx_new sys' mode id s w1); [apply A|].
  apply (Htyped id (sg_size s)). unfold headers. by rewrite lookup_fmap, (at_object _ _ _ _ _ _ A).
Qed.

End theorems.

(** A header that [validate_header] accepts describes regions inside the mapping: the
    metadata follows the header, the payload follows the metadata, and both end within the
    segment, provided the payload end does not overflow 64 bits. The janitor's own check accepts
    the same headers. *)
Theorem header_regions hdr size :
  header_typed hdr → validate_header hdr size = Ok →
  payload_offset hdr + payload_size hdr < 2 ^ 64 →
  total_size hdr = size ∧ SHMFX_HEADER_SIZE ≤ (metadata hdr).1 ∧
  (metadata hdr).1 + (metadata hdr).2 ≤ (payload hdr).1 ∧ (payload hdr).1 + (payload hdr).2 ≤ size ∧
  janitor_header_valid hdr size = true.
Proof.
  intros T Hv Hp. pose proof (ht_meta_offset _ T). pose proof (ht_meta_size _ T).
  pose proof (ht_payload_offset _ T). pose proof (ht_payload _ T).
  apply validate_header_janitor in Hv as Hj; [|done|done]. split_and!; try done; revert Hj;
    unfold janitor_header_valid, metadata, payload; cbn [fst snd];
    (destruct (_ || _)%bool; [done|]); (destruct (_ || _)%bool eqn:Eb; [done|]);
    rewrite !u64_small by lia; intros; bool_prop; lia.
Qed.

(** Without the proviso it does not: the payload end wraps, and a header that passes both
    checks may describe a payload that reaches 2^64 - 1 bytes past a 512-byte segment. *)
Theorem header_regions_wrap :
  ∃ hdr, header_typed hdr ∧ validate_header hdr 512 = Ok ∧ janitor_header_valid hdr 512 = true ∧
         512 < payload_size hdr.
Proof.
  exists (mkShmHeader SHMFX_MAGIC SHMFX_VERSION_MAJOR 0 0 0 512 (2 ^ 64 - 320) 256 64 320 0 0 0
            (replicate 64 0) zero_hmac 0 0 0 0 0 0).
  split; [split; by vm_compute|]. by split_and!.
Qed.

(** ** Witnesses *)


Lemma create_error_clean_witness :
  ∃ w', create MxFree (demo_sys 42 10) demo_create (demo_world 42) = (Error AlreadyExists, w') ∧
        unchanged MxFree (demo_world 42) w'.
Proof.
  assert (E : (create MxFree (demo_sys 42 10) demo_create (demo_world 42)).1 = Error AlreadyExists)
    by (vm_compute; reflexivity).
  destruct (create MxFree (demo_sys 42 10) demo_create (demo_world 42)) as [r w'] eqn:Ec.
  cbn [fst] in E. subst r. exists w'. split; [reflexivity|].
  apply (create_error_clean MxFree (demo_sys 42 10) demo_create (demo_world 42) AlreadyExists w');
    [apply demo_world_ok; by left|done|done|exact Ec].
Defined.

Lemma attach_spec_witness :
  ∃ id s, attachable MxFree (demo_sys 42 11) demo_name (gc MxFree (demo_sys 42 11) (demo_world 42)) id s.
Proof.
  assert (E : (attach MxFree (demo_sys 42 11) demo_name ReadWrite (demo_world 42)).1 =
              Value (mkShmHandle (Some 1%nat) 512 true ReadWrite false)) by (vm_compute; reflexivity).
  destruct (attach_spec MxFree (demo_sys 42 11) demo_name ReadWrite (demo_world 42)) as [(id&s&A&_)|(e&Ea&_)].
  - apply demo_world_ok. by left.
  - vm_compute. reflexivity.
  - exists id, s. exact A.
  - rewrite Ea in E. discriminate E.
Defined.

Lemma manager_invariant_witness : world_ok MxFree (demo_world 42).
Proof.
  apply (manager_invariant MxFree (demo_sys 42 10)); [reflexivity|apply demo_sys_ok|].
  apply rtc_once, demo_create_step. exact I.
Defined.

Lemma lifecycle_monotone_witness :
  ∃ h h', headers (demo_world 99) !! 1%nat = Some (512, h) ∧
          headers (gc MxFree (demo_sys 42 11) demo_left) !! 1%nat = Some (512, h') ∧
          state_step (state h) (state h').
Proof.
  assert (E : fst <$> headers (demo_world 99) !! 1%nat = Some 512) by (vm_compute; reflexivity).
  destruct (headers (demo_world 99) !! 1%nat) as [[sz h]|] eqn:Eh; [|discriminate E].
  cbn in E. injection E as ->.
  destruct (lifecycle_monotone MxFree (demo_sys 42 10) (demo_world 99)
    (gc MxFree (demo_sys 42 11) demo_left) 1 512 h) as (h'&Eh'&_&_&_&_&Hs).
  - reflexivity.
  - apply demo_sys_ok.
  - apply rtc_once, demo_create_step. exact I.
  - apply demo_left_steps.
  - exact Eh.
  - exists h, h'. split; [reflexivity|]. split; [exact Eh'|exact Hs].
Defined.

Lemma registry_tracks_segments_witness :
  is_Some (w_names (demo_world 42) !! demo_name) ↔ is_Some (entries MxFree (demo_world 42) !! demo_name).
Proof.
  apply (registry_tracks_segments MxFree (demo_sys 42 10) (demo_world 42)).
  - reflexivity.
  - apply demo_sys_ok.
  - apply rtc_once, demo_create_step, demo_sys_ok.
  - discriminate.
Defined.

(** Reading the demo segment out of a world. *)
Lemma demo_lookup (w : World mx_status) hdr m :
  (λ s, (sg_size s, sg_header s, sg_mutex s)) <$> w_objs w !! 1%nat = Some (512, hdr, m) →
  ∃ s, w_objs w !! 1%nat = Some s ∧ sg_size s = 512 ∧ sg_header s = hdr ∧ sg_mutex s = m.
Proof.
  destruct (w_objs w !! 1%nat) as [s|]; [|done]. cbn. intros [= H1 H2 H3]. by exists s.
Qed.

Definition demo_entry_of (w : World mx_status) : RegistryEntry := default empty_entry (entries MxFree w !! demo_name).

Definition demo_header_of (w : World mx_status) : ShmHeader :=
  default zero_header (sg_header <$> w_objs w !! 1%nat).

Lemma gc_keeps_segment_witness :
  w_names (gc MxFree (demo_sys 42 11) (demo_world 42)) !! demo_name = Some 1%nat.
Proof.
  assert (E : (λ s, (sg_size s, sg_header s, sg_mutex s)) <$> w_objs (demo_world 42) !! 1%nat =
              Some (512, demo_header_of (demo_world 42), MxFree)) by (vm_compute; reflexivity).
  destruct (demo_lookup _ _ _ E) as (s&Eo&_&Eh&_).
  apply (gc_keeps_segment MxFree (demo_sys 42 11) (demo_world 42) demo_name (demo_entry_of (demo_world 42)) 1 s).
  - apply demo_world_ok. by left.
  - vm_compute. reflexivity.
  - vm_compute. reflexivity.
  - exact Eo.
  - rewrite Eh. intros [Hd _]. vm_compute in Hd. discriminate Hd.
  - rewrite Eh. intros (Hz&_). vm_compute in Hz. discriminate Hz.
Defined.

Lemma gc_reclaims_orphan_witness :
  ∃ s, reclaimed MxFree demo_name 1 s (gc MxFree (demo_sys 42 20) demo_left).
Proof.
  assert (E : (λ s, (sg_size s, sg_header s, sg_mutex s)) <$> w_objs demo_left !! 1%nat =
              Some (512, demo_header_of demo_left, MxFree)) by (vm_compute; reflexivity).
  destruct (demo_lookup _ _ _ E) as (s&Eo&Es&Eh&Em). exists s.
  refine (proj2 (gc_reclaims_orphan MxFree (demo_sys 42 20) demo_left demo_name (demo_entry_of demo_left)
    demo_left_ok (demo_sys_ok 42 20) _) 1%nat s _ Eo _ _ _).
  - vm_compute. reflexivity.
  - vm_compute. reflexivity.
  - unfold seg_intact. rewrite Es, Eh. vm_compute. split; [discriminate|reflexivity].
  - rewrite Eh. vm_compute. split; reflexivity.
  - left. rewrite Em. reflexivity.
Defined.

Lemma create_then_attach_witness :
  ∃ hdr w'', attach MxFree (demo_sys 43 11) demo_name ReadWrite (demo_world 42) =
               (Value (mkShmHandle (Some 1%nat) 512 true ReadWrite false), w'') ∧
             headers w'' !! 1%nat = Some (512, set_ref_count 2 hdr).
Proof.
  destruct (create_then_attach MxFree (demo_sys 42 10) (demo_sys 43 11) demo_create demo_boot demo_handle
    (demo_world 42)) as (hdr&w''&_&Ha&Hh).
  - exact (proj1 demo_boot_ok).
  - done.
  - done.
  - apply demo_created. by left.
  - discriminate.
  - apply demo_sys_ok.
  - reflexivity.
  - assert (En : w_next demo_boot = 1%nat) by (vm_compute; reflexivity). rewrite En. intros sz hdr Hh.
    assert (E : headers (demo_world 42) !! 1%nat = Some (512, demo_header_of (demo_world 42)))
      by (vm_compute; reflexivity).
    rewrite E in Hh. apply (inj Some), (f_equal snd) in Hh. cbn [snd] in Hh. rewrite <-Hh. vm_compute. reflexivity.
  - exists hdr, w''. split; [exact Ha|exact Hh].
Defined.

Lemma attach_detach_witness :
  ∃ h w', attach MxFree (demo_sys 43 11) demo_name ReadOnly (demo_world 42) = (Value h, w') ∧
          handle_reset MxFree (demo_sys 43 12) h w' = gc MxFree (demo_sys 43 11) (demo_world 42).
Proof.
  assert (E : (attach MxFree (demo_sys 43 11) demo_name ReadOnly (demo_world 42)).1 =
              Value (mkShmHandle (Some 1%nat) 512 true ReadOnly false)) by (vm_compute; reflexivity).
  destruct (attach MxFree (demo_sys 43 11) demo_name ReadOnly (demo_world 42)) as [r w'] eqn:Ea.
  cbn [fst] in E. subst r. eexists _, w'. split; [reflexivity|].
  refine (attach_detach MxFree (demo_sys 43 11) (demo_sys 43 12) demo_name ReadOnly (demo_world 42) _ w'
    (demo_world_ok 42 (or_introl eq_refl)) _ Ea _).
  - vm_compute. reflexivity.
  - intros id sz hdr Hh. cbn [bool_decide] in Hh.
    assert (Hall : map_Forall (λ _ p, 0 ≤ ref_count p.2 < 2 ^ 32) (headers (gc MxFree (demo_sys 43 11) (demo_world 42)))).
    { refine (bool_decide_eq_true_1 _ _). vm_compute. reflexivity. }
    exact (Hall id (sz, hdr) Hh).
Defined.

Lemma header_regions_witness :
  (metadata (demo_header_of (demo_world 42))).1 + (metadata (demo_header_of (demo_world 42))).2 ≤
  (payload (demo_header_of (demo_world 42))).1.
Proof.
  apply (header_regions (demo_header_of (demo_world 42)) 512).
  - split; vm_compute; split; (discriminate || reflexivity).
  - vm_compute. reflexivity.
  - vm_compute. reflexivity.
Defined.

(** ** Where the code departs from its contract *)

(** An object without a header, as between the [shm_open] and the [ftruncate] of its creator: [attach]
    reports the error of whatever call failed last, here a file that existed. *)
Definition demo_bare : World mx_status :=
  match shm_open_excl MxFree (demo_sys 42 10) demo_name demo_boot with inr (_, w) => w | inl _ => demo_boot end.

Definition stale_sys : Sys :=
  mkSys (demo_os 10) (mkKeyEnv None None) 42 7 (λ _, None) false None (λ _, None) (λ _, None) (λ _, None)
    (mkMutexRcs 0 0 0 0) EEXIST.

Theorem attach_stale_errno : (attach MxFree stale_sys demo_name ReadWrite demo_bare).1 = Error AlreadyExists.
Proof. vm_compute. reflexivity. Qed.

(** Process 99 creates a segment and counts as dead: the janitor makes it Draining. Its name is
    destroyed and process 42 creates a segment under the same name. *)
Definition demo_reused : World mx_status :=
  let w := gc MxFree (demo_sys 42 10) (demo_world 99) in
  let w := (destroy MxFree (demo_sys 42 10) demo_name w).2 in
  (create MxFree (demo_sys 42 10) demo_create w).2.

(** The end of the old owner's handle then removes the name and the entry of the new segment, which
    stays Active. *)
Theorem owner_end_unlinks_successor :
  let w := handle_reset MxFree (demo_sys 99 10) demo_handle demo_reused in
  (w_names demo_reused !! demo_name, entry_name <$> (registry_list MxFree (demo_sys 42 10) [] demo_reused).1) =
    (Some 2%nat, [demo_name]) ∧
  (w_names w !! demo_name, (registry_list MxFree (demo_sys 42 10) [] w).1) = (None, []) ∧
  (λ s, decode_state (state (sg_header s))) <$> (w_objs w !! 2%nat) = Some (Some Active).
Proof. vm_compute. repeat split. Qed.
