(* ===== verification/Grants.v ===== *)
(** * When [create] succeeds

    Without failing system calls the result of [ShmManager::create] is decided by the request and
    by what the world holds: the name, the sizes, the quotas, the key and the registry's room. *)

From S2P Require Import Prelude Types Sync Security Lifecycle Registry Manager ManagerInv Janitor ManagerOps ManagerSteps ManagerProps.

#[local] Opaque NSLOTS reg_map.

Section grants.
Context {Mx : Type} `{!RobustMutex Mx} `{!RobustMutexLaws Mx} (mx_new : Mx).

Abbreviation W := (World Mx).
Abbreviation world_ok := (ManagerInv.world_ok mx_new).
Abbreviation entries := (ManagerInv.entries mx_new).
Implicit Types w : W.

(** The entries the quota check sees. *)
Definition listed (w : W) : list RegistryEntry := list_spec [] (rg_payload (registry_of mx_new w)) (seq 0 NSLOTS).

Record grantable (sys : Sys) (o : CreateOptions) (w : W) : Prop := {
  gb_sizes : SHMFX_HEADER_SIZE + co_meta_size o ≤ co_total_size o ≤ MAX_SEGMENT_SIZE;
  gb_payload : align_up (u64 (SHMFX_HEADER_SIZE + co_meta_size o)) SHMFX_CACHE_LINE_BYTES ≤ co_total_size o;
  gb_quota : co_total_size o + total (entries w) ≤ TOTAL_QUOTA_BYTES;
  gb_name : ∃ p, parse_and_validate_name (co_name o) = Value p ∧
                 namespace_count p (listed w) < kMaxNamespaceSegments;
  gb_free : w_names w !! co_name o = None;
  gb_key : hmac_enabled (initial_header sys o
             (align_up (u64 (SHMFX_HEADER_SIZE + co_meta_size o)) SHMFX_CACHE_LINE_BYTES)) = true →
           is_Some (load_hmac_key (sys_keys sys));
  gb_room : co_name o = REGISTRY_NAME ∨ is_Some (entries w !! co_name o) ∨ (size (entries w) < NSLOTS)%nat;
}.

(** The security check, for any size. *)
Lemma validate_iff o w p :
  world_ok w → 0 ≤ co_total_size o < 2 ^ 64 → 0 ≤ co_meta_size o < 2 ^ 64 - SHMFX_HEADER_SIZE →
  parse_and_validate_name (co_name o) = Value p →
  validate_create_security o (listed w) =
  if bool_decide (SHMFX_HEADER_SIZE + co_meta_size o ≤ co_total_size o ≤ MAX_SEGMENT_SIZE ∧
                  co_total_size o + total (entries w) ≤ TOTAL_QUOTA_BYTES ∧
                  namespace_count p (listed w) < kMaxNamespaceSegments)
  then Value tt else Error QuotaExceeded.
Proof.
  intros H Ht Hm Ep. destruct (listed_valid mx_new w H) as (Hl1&Hl2&Hl3). fold (listed w) in Hl1, Hl2, Hl3.
  destruct (decide (co_total_size o ≤ MAX_SEGMENT_SIZE)) as [Hmax|Hmax].
  - pose proof (wo_quota _ _ H) as Hq. rewrite validate_create_security_eq, Ep, Hl2; try done.
    rewrite Hl2. unfold MAX_SEGMENT_SIZE, TOTAL_QUOTA_BYTES in *. lia.
  - rewrite bool_decide_false by lia. unfold validate_create_security. rewrite Ep.
    rewrite (proj2 (Z.ltb_lt MAX_SEGMENT_SIZE _)) by lia. by rewrite ?orb_true_r.
Qed.

(** A header can be signed unless it must be and there is no key. *)
Lemma sign_iff keys hdr r hdr' :
  sign_header_if_enabled keys hdr = (r, hdr') →
  r = Value tt ↔ (hmac_enabled hdr = true → is_Some (load_hmac_key keys)).
Proof.
  unfold sign_header_if_enabled. intros Es. destruct (hmac_enabled _); cbn [negb] in Es.
  - destruct (load_hmac_key _); injection Es as <- _; split; try done. intros Hk. by destruct (Hk eq_refl).
  - injection Es as <- _. done.
Qed.

(** An entry can be registered when its name is listed or a slot is free. *)
Lemma register_iff sys e w :
  world_ok w → entry_ok e →
  has_value (registry_register mx_new sys e w).1 = true ↔
  is_Some (entries w !! entry_name e) ∨ (size (entries w) < NSLOTS)%nat.
Proof.
  intros H Hok. pose proof (registry_register_ready mx_new sys e w (wo_reg _ _ H) Hok) as Hr.
  destruct (registry_register mx_new sys e w) as [res w'].
  destruct Hr as (Hr&_&[[-> E]|(->&_&Hn&Hsz)]); (split; [intros Hv|intros Hroom]); try done.
  - destruct (entries w !! entry_name e) eqn:En; [by left; eexists|right].
    pose proof (reg_map_size_bound _ (wf_inj _ (proj1 (proj2 Hr)))) as Hb.
    change (size (entries w') ≤ NSLOTS)%nat in Hb. rewrite E, map_size_insert_None in Hb by done. lia.
  - rewrite Hn in Hroom. destruct Hroom as [[]|?]; [done|lia].
Qed.

Lemma create_iff sys o w :
  world_ok w → sys_ok sys → 0 ≤ co_total_size o < 2 ^ 64 → 0 ≤ co_meta_size o < 2 ^ 64 - SHMFX_HEADER_SIZE →
  has_value (create mx_new sys o w).1 = true ↔ grantable sys o w.
Proof.
  intros H Hs Ht Hm. unfold create. set (nm := co_name o) in *.
  destruct (parse_and_validate_name nm) as [pn|] eqn:Ep; [|split; [done|intros [_ _ _ (p&Ep'&_) _ _ _]; unfold nm in Ep; congruence]].
  assert (Hv : valid_name nm) by (unfold valid_name; by rewrite Ep).
  rewrite registry_list_ready by apply H. fold (listed w). rewrite (validate_iff o w pn) by done.
  case_bool_decide as Ev; [|split; [done|]; intros [? _ ? (p&Ep'&?) _ _ _]; exfalso; apply Ev; unfold nm in Ep;
    rewrite Ep in Ep'; by injection Ep' as <-].
  set (po := align_up _ _). destruct (Z.ltb_spec (co_total_size o) po) as [|Hpo];
    [split; [done|intros [_ Hp _ _ _ _ _]; unfold po in *; lia]|].
  destruct (shm_open_excl mx_new sys nm w) as [err|[id w1]] eqn:Eo.
  { split; [done|]. intros [_ _ _ _ Hf _ _]. unfold shm_open_excl in Eo. rewrite (so_open _ Hs) in Eo. unfold nm in Eo.
    by rewrite Hf in Eo. }
  assert (Hfree : w_names w !! nm = None).
  { unfold shm_open_excl in Eo. rewrite (so_open _ Hs) in Eo. by destruct (w_names w !! nm). }
  destruct (open_excl_grown mx_new sys nm w id w1 H Eo) as (->&G1&R1). clear Eo.
  unfold apply_permissions. rewrite (so_fchmod _ Hs). cbn [negb].
  unfold ftruncate. rewrite (so_ftruncate _ Hs). set (w2 := set_objs _ w1).
  assert (G2 : grown mx_new nm w w2) by by apply grown_insert.
  unfold mmap. rewrite mmap_ok by (apply (so_mmap _ Hs) || (unfold SHMFX_HEADER_SIZE in *; lia)). set (w3 := set_maps _ w2). assert (G3 : grown mx_new nm w w3) by by apply grown_maps.
  destruct (sign_header_if_enabled _ _) as [signed hdr] eqn:Es.
  set (w4 := upd_header _ _ w3). assert (G4 : grown mx_new nm w w4) by by apply grown_upd.
  pose proof (sign_iff _ _ _ _ Es) as Hkey. fold po in Hkey.
  destruct signed as [[]|e]; [|split; [done|]; intros [_ _ _ _ _ Hk _]; by apply Hkey in Hk].
  rewrite (so_mutex _ Hs), bool_decide_true by done. cbn [negb].
  set (w5 := upd_seg _ _ w4). assert (G5 : grown mx_new nm w w5) by by apply grown_upd.
  unfold register_heartbeat_owner. set (w5' := upd_header _ _ w5).
  assert (G5' : grown mx_new nm w w5') by by apply grown_upd.
  destruct (grown_heartbeat mx_new nm w w5' H G5') as (H6&_). set (w6 := set_heartbeats _ w5') in *.
  assert (Ee6 : entries w6 = entries w) by exact (grown_entries mx_new nm w w5' H G5').
  destruct Ev as (Ev1&Ev2&Ev3).
  assert (Hgr : nm = REGISTRY_NAME ∨ is_Some (entries w !! nm) ∨ (size (entries w) < NSLOTS)%nat → grantable sys o w).
  { intros Hroom. split; try done; [by exists pn|by apply Hkey]. }
  case_bool_decide as Er; [split; [intros _; apply Hgr; by left|done]|].
  destruct (registry_entry_ok sys o hdr Hv) as [Hok Hnm].
  pose proof (register_iff sys _ w6 H6 Hok) as Hr. rewrite Hnm, Ee6 in Hr. fold nm in Hr.
  assert (Hroom : grantable sys o w ↔ is_Some (entries w !! nm) ∨ (size (entries w) < NSLOTS)%nat).
  { split; [intros [_ _ _ _ _ _ [?|?]]; done|]. intros Hx. apply Hgr. by right. }
  rewrite Hroom, <-Hr. by destruct (registry_register mx_new sys _ w6) as [[u|e] w7].
Qed.

(** Right after the bootstrap nothing is listed: the name and the sizes decide. *)
Lemma boot_grantable sys sys' o :
  sys_ok sys → valid_name (co_name o) → co_name o ≠ REGISTRY_NAME →
  SHMFX_HEADER_SIZE + co_meta_size o ≤ co_total_size o ≤ MAX_SEGMENT_SIZE →
  align_up (u64 (SHMFX_HEADER_SIZE + co_meta_size o)) SHMFX_CACHE_LINE_BYTES ≤ co_total_size o →
  hmac_enabled (initial_header sys' o
    (align_up (u64 (SHMFX_HEADER_SIZE + co_meta_size o)) SHMFX_CACHE_LINE_BYTES)) = false →
  grantable sys' o (boot mx_new sys).
Proof.
  intros Hs Hv Hne Hsz Hp Hk. pose proof (boot_registry mx_new sys Hs) as Er.
  assert (Ee : entries (boot mx_new sys) = ∅) by (unfold ManagerInv.entries; rewrite Er; apply fresh_map).
  assert (El : listed (boot mx_new sys) = []).
  { unfold listed. rewrite Er. unfold list_spec. cbn [rg_payload]. generalize (seq 0 NSLOTS) as l.
    induction l as [|i l IH]; [done|]. by rewrite filter_cons, fresh_bit. }
  unfold valid_name in Hv. destruct (parse_and_validate_name (co_name o)) as [p|] eqn:Ep; [|done].
  split; [done|done| |exists p; rewrite El; unfold namespace_count; by destruct (pn_bootstrap p)| |by rewrite Hk|].
  - rewrite Ee. unfold total. rewrite map_to_list_empty. unfold sum_sizes, MAX_SEGMENT_SIZE, TOTAL_QUOTA_BYTES in *. simpl. lia.
  - rewrite boot_eq by done. cbn [w_names]. by rewrite lookup_singleton_ne.
  - right. right. rewrite Ee, map_size_empty. apply Nat.ltb_lt. reflexivity.
Qed.

(** C28: without failing system calls, [create] succeeds exactly when the request can be granted:
    the sizes hold together and stay within the limit of a segment, the total quota and the quota
    of the namespace have room, the name is valid and free, a key is there when the header must be
    signed, and the registry has a slot. *)
Theorem create_succeeds_iff sys o w :
  world_ok w → sys_ok sys → 0 ≤ co_total_size o < 2 ^ 64 → 0 ≤ co_meta_size o < 2 ^ 64 - SHMFX_HEADER_SIZE →
  (∃ h w', create mx_new sys o w = (Value h, w')) ↔ grantable sys o w.
Proof.
  intros H Hs Ht Hm. rewrite <-create_iff by done. destruct (create mx_new sys o w) as [[h|e] w'].
  - split; [done|]. by eauto.
  - split; [|done]. intros (?&?&?). congruence.
Qed.
End grants.

Lemma create_succeeds_iff_witness :
  grantable MxFree (demo_sys 42 11) demo_create demo_boot ∧
  (∃ h w', create MxFree (demo_sys 42 11) demo_create demo_boot = (Value h, w')) ∧
  ¬ ∃ h w', create MxFree (demo_sys 42 11) (mkCreateOptions demo_name Raw 100 64 384 0) demo_boot = (Value h, w').
Proof.
  assert (G : grantable MxFree (demo_sys 42 11) demo_create demo_boot).
  { apply boot_grantable; [apply demo_sys_ok|vm_compute; reflexivity|vm_compute; discriminate|vm_compute; split; discriminate|
      vm_compute; discriminate|vm_compute; reflexivity]. }
  split; [exact G|]. split.
  - apply (create_succeeds_iff MxFree (demo_sys 42 11) demo_create demo_boot); [exact (proj1 demo_boot_ok)|apply demo_sys_ok|
      split; [discriminate|reflexivity]|split; [discriminate|reflexivity]|exact G].
  - intros Hc. apply (create_succeeds_iff MxFree (demo_sys 42 11) _ demo_boot) in Hc;
      [|exact (proj1 demo_boot_ok)|apply demo_sys_ok|split; [discriminate|reflexivity]|split; [discriminate|reflexivity]].
    destruct (gb_sizes _ _ _ _ Hc) as [Hsz _]. vm_compute in Hsz. by apply Hsz.
Defined.
