(* ===== verification/SegmentRace.v ===== *)
(** * Attaching, detaching and reclaiming one segment, access by access

    Users map a segment by its name and end their handles, janitors look whether its owner is dead
    and reclaim it; they share the header's reference count and state, the control mutex, the name
    and the registry entry. Each atomic access of [ShmManager::attach], [ShmHandle::reset] and
    [Registry::gc] is a step, the steps of all threads interleave, and any thread may crash between
    two of them. What a janitor sees of the owner, the clock and /proc is an input of its step. *)

From S2P Require Import Prelude Types Sync Security Lifecycle Registry Manager.

(** ** The shared words *)

Record shared := mkShared {
  sh_header : ShmHeader;
  sh_mutex : mx_status;
  sh_linked : bool;
  sh_listed : bool;
}.

Definition on_header (f : ShmHeader → ShmHeader) (s : shared) : shared :=
  mkShared (f (sh_header s)) (sh_mutex s) (sh_linked s) (sh_listed s).
Definition put_mutex (m : mx_status) (s : shared) : shared :=
  mkShared (sh_header s) m (sh_linked s) (sh_listed s).
Definition put_linked (b : bool) (s : shared) : shared :=
  mkShared (sh_header s) (sh_mutex s) b (sh_listed s).
Definition put_listed (b : bool) (s : shared) : shared :=
  mkShared (sh_header s) (sh_mutex s) (sh_linked s) b.

Definition sh_state (s : shared) : option SegmentState := decode_state (state (sh_header s)).

Definition fetch_add (d : Z) (s : shared) : shared :=
  on_header (λ h, set_ref_count (u32 (ref_count h + d)) h) s.

(** ** Users *)

(** A user in [attach] and [reset]; [UOpened] is after the checks of the immutable header. *)
Inductive UPc :=
  | UIdle (mode : AttachMode)
  | UOpened (mode : AttachMode)
  | UBump
  | URecheck
  | UUndo
  | UFailed
  | UHeld (mode : AttachMode) (owner : bool)
  | UDetached (owner : bool) (previous : Z)
  | UStoreDead
  | UUnlink
  | UUnregister
  | UDone
  | UCrashed (counted : bool).

Definition user_step (pc : UPc) (s : shared) : option (UPc * shared) :=
  match pc with
  | UIdle mode => Some (if sh_linked s then UOpened mode else UFailed, s)
  | UOpened mode =>
      Some (if bool_decide (sh_state s = Some Dead) then UFailed
            else match mode with ReadOnly => UHeld ReadOnly false | ReadWrite => UBump end, s)
  | UBump => Some (URecheck, fetch_add 1 s)
  | URecheck => Some (if bool_decide (sh_state s = Some Dead) then UUndo else UHeld ReadWrite false, s)
  | UUndo => Some (UFailed, fetch_add (-1) s)
  | UHeld ReadOnly _ => Some (UDone, s)
  | UHeld ReadWrite owner => Some (UDetached owner (ref_count (sh_header s)), fetch_add (-1) s)
  | UDetached owner previous =>
      Some (if (owner && (previous =? 1) && bool_decide (sh_state s = Some Draining))%bool
            then UStoreDead else UDone, s)
  | UStoreDead => Some (UUnlink, on_header (set_state Dead) s)
  | UUnlink => Some (UUnregister, put_linked false s)
  | UUnregister => Some (UDone, put_listed false s)
  | UFailed | UDone | UCrashed _ => None
  end.

(** Whether a user's reference is in the count. *)
Definition counted (pc : UPc) : bool :=
  match pc with URecheck | UUndo | UHeld ReadWrite _ | UCrashed true => true | _ => false end.

(** ** Janitors *)

(** A janitor in the entry of the segment, from its first look at the owner on. *)
Inductive JPc :=
  | JStart
  | JLoadRc (dead : bool)
  | JLoadState (dead : bool) (rc : Z)
  | JLock
  | JLocked (prior_owner_dead : bool)
  | JLoadRc2
  | JDead2
  | JStoreDead
  | JUnlink
  | JUnregister
  | JUnlock
  | JCas
  | JLastSeen
  | JDone
  | JCrashed
  | JScan
  | JZombieUnlink
  | JZombieUnregister.

(** What a janitor sees besides the shared words: the answers of [owner_is_dead] and
    [any_process_maps_segment], and whether its snapshot of the entry was last seen more than
    [SEGMENT_ZOMBIE_NS] ago. *)
Record Seen := mkSeen { seen_dead : bool; seen_stale : bool; seen_mapped : bool }.

(** A lock that is held blocks. *)
Definition janitor_step (x : Seen) (pc : JPc) (s : shared) : option (JPc * shared) :=
  match pc with
  | JStart => Some (JLoadRc (seen_dead x), s)
  | JLoadRc d => Some (JLoadState d (ref_count (sh_header s)), s)
  | JLoadState d rc =>
      Some (if (d && (rc =? 0))%bool then JLock
            else if (d && (0 <? rc) && bool_decide (sh_state s = Some Active))%bool then JCas
            else if (bool_decide (sh_state s = Some Draining) && seen_stale x)%bool then JScan
            else JDone, s)
  | JLock =>
      match sh_mutex s with
      | MxHeld | MxHeldInconsistent => None
      | m => match mx_lock m with
             | (RcOk, m') => Some (JLocked false, put_mutex m' s)
             | (RcOwnerDead, m') => Some (JLocked true, put_mutex m' s)
             | (RcFailed, m') => Some (JDone, put_mutex m' s)
             end
      end
  | JLocked prior => Some (JLoadRc2, if prior then put_mutex (mx_consistent (sh_mutex s)).2 s else s)
  | JLoadRc2 => Some (if ref_count (sh_header s) =? 0 then JDead2 else JUnlock, s)
  | JDead2 => Some (if seen_dead x then JStoreDead else JUnlock, s)
  | JStoreDead => Some (JUnlink, on_header (set_state Dead) s)
  | JUnlink => Some (JUnregister, put_linked false s)
  | JUnregister => Some (JUnlock, put_listed false s)
  | JUnlock => Some (JDone, put_mutex (mx_unlock (sh_mutex s)) s)
  | JCas =>
      Some (JLastSeen, if bool_decide (sh_state s = Some Active) then on_header (set_state Draining) s else s)
  | JLastSeen => Some (JDone, put_listed true s)
  | JScan => Some (if seen_mapped x then JDone else JZombieUnlink, s)
  | JZombieUnlink => Some (JZombieUnregister, put_linked false s)
  | JZombieUnregister => Some (JDone, put_listed false s)
  | JDone | JCrashed => None
  end.

(** Between the lock and the unlock. *)
Definition inside (pc : JPc) : bool :=
  match pc with
  | JLocked _ | JLoadRc2 | JDead2 | JStoreDead | JUnlink | JUnregister | JUnlock => true
  | _ => false
  end.

(** ** The machine *)

Record race := mkRace { r_shared : shared; r_users : list UPc; r_janitors : list JPc }.

(** The segment as [create] leaves it, with the owner's handle, users that will attach and janitors
    that will come by. *)
Definition race_init (hdr : ShmHeader) (modes : list AttachMode) (janitors : nat) : race :=
  mkRace (mkShared hdr MxFree true true) (UHeld ReadWrite true :: (UIdle <$> modes)) (replicate janitors JStart).

Inductive event := EUser (i : nat) | EJanitor (j : nat) (x : Seen) | ECrashUser (i : nat) | ECrashJanitor (j : nat).

Definition ended (pc : UPc) : bool := match pc with UFailed | UDone | UCrashed _ => true | _ => false end.

Definition do_event (e : event) (g : race) : option race :=
  match e with
  | EUser i =>
      pc ← r_users g !! i;
      q ← user_step pc (r_shared g);
      Some (mkRace q.2 (<[i := q.1]> (r_users g)) (r_janitors g))
  | EJanitor j x =>
      pc ← r_janitors g !! j;
      q ← janitor_step x pc (r_shared g);
      Some (mkRace q.2 (r_users g) (<[j := q.1]> (r_janitors g)))
  | ECrashUser i =>
      pc ← r_users g !! i;
      if ended pc then None
      else Some (mkRace (r_shared g) (<[i := UCrashed (counted pc)]> (r_users g)) (r_janitors g))
  | ECrashJanitor j =>
      pc ← r_janitors g !! j;
      match pc with
      | JDone | JCrashed => None
      | _ => Some (mkRace (if inside pc then put_mutex MxAbandoned (r_shared g) else r_shared g)
                     (r_users g) (<[j := JCrashed]> (r_janitors g)))
      end
  end.

Definition rstep (g g' : race) : Prop := ∃ e, do_event e g = Some g'.

Fixpoint run_events (es : list event) (g : race) : option race :=
  match es with [] => Some g | e :: es' => g' ← do_event e g; run_events es' g' end.

Lemma run_events_steps es g g' : run_events es g = Some g' → rtc rstep g g'.
Proof.
  revert g. induction es as [|e es IH]; intros g; cbn [run_events]; [by intros [= ->]|].
  destruct (do_event e g) as [g1|] eqn:E; [|done]. cbn [mbind option_bind]. intros Hr.
  eapply rtc_l; [by exists e|by apply IH].
Qed.

(** ** The invariant *)

Definition holders (us : list UPc) : nat := sum_list_with (λ pc, Nat.b2n (counted pc)) us.

Lemma holders_insert us i pc pc' :
  us !! i = Some pc → (holders (<[i := pc']> us) + Nat.b2n (counted pc) = holders us + Nat.b2n (counted pc'))%nat.
Proof.
  unfold holders. revert i. induction us as [|x us IH]; intros [|i] Hi; try done.
  - injection Hi as ->. cbn [insert list_insert sum_list_with]. lia.
  - specialize (IH i Hi). change (<[S i := pc']> (x :: us)) with (x :: <[i := pc']> us). cbn [sum_list_with]. lia.
Qed.

Lemma holders_le us : (holders us ≤ length us)%nat.
Proof.
  unfold holders. induction us as [|x us IH]; [done|]. cbn [sum_list_with length]. destruct (counted x); cbn; lia.
Qed.

(** What the janitor inside the lock has made of the mutex. *)
Definition held_by (pc : JPc) : mx_status := match pc with JLocked true => MxHeldInconsistent | _ => MxHeld end.

Record race_inv (g : race) : Prop := {
  ri_count : ref_count (sh_header (r_shared g)) = u32 (Z.of_nat (holders (r_users g)));
  ri_held j pc : r_janitors g !! j = Some pc → inside pc = true → sh_mutex (r_shared g) = held_by pc;
  ri_one j k pcj pck :
    r_janitors g !! j = Some pcj → r_janitors g !! k = Some pck → inside pcj = true → inside pck = true → j = k;
  ri_free : (∀ j pc, r_janitors g !! j = Some pc → inside pc = false) →
            sh_mutex (r_shared g) = MxFree ∨ sh_mutex (r_shared g) = MxAbandoned;
}.

Lemma ref_count_fetch_add d s : ref_count (sh_header (fetch_add d s)) = u32 (ref_count (sh_header s) + d).
Proof. done. Qed.

Lemma u32_add_shift a d : u32 (u32 a + d) = u32 (a + d).
Proof. unfold u32. by rewrite Zplus_mod_idemp_l. Qed.

(** A user changes the count by what it contributes, and nothing of the mutex. *)
Lemma user_step_count pc s pc' s' :
  user_step pc s = Some (pc', s') →
  sh_mutex s' = sh_mutex s ∧
  ref_count (sh_header s') =
    if bool_decide (counted pc' = counted pc) then ref_count (sh_header s)
    else u32 (ref_count (sh_header s) + (if counted pc' then 1 else -1)).
Proof.
  intros E. destruct pc as [m|m| | | | |[] o|o p| | | | |c]; cbn [user_step] in E; simplify_eq; try done.
  - by destruct (sh_linked _).
  - destruct (bool_decide (sh_state _ = _)); [done|]. by destruct m.
  - by destruct (bool_decide (sh_state _ = _)).
  - by destruct (_ && _ && _)%bool.
Qed.

Lemma janitor_step_count d pc s pc' s' :
  janitor_step d pc s = Some (pc', s') → ref_count (sh_header s') = ref_count (sh_header s).
Proof.
  intros E. destruct pc as [| | | |prior| | | | | | | | | | | | |]; cbn [janitor_step] in E; simplify_eq; try done.
  - destruct (sh_mutex s); cbn in E; by simplify_eq.
  - by destruct prior.
  - by case_bool_decide.
Qed.

(** A janitor takes the lock, gives it back, or leaves it. *)
Lemma janitor_step_lock d pc s pc' s' :
  janitor_step d pc s = Some (pc', s') → (inside pc = true → sh_mutex s = held_by pc) →
  if inside pc then if inside pc' then sh_mutex s' = held_by pc' else sh_mutex s' = MxFree
  else if inside pc' then (sh_mutex s = MxFree ∨ sh_mutex s = MxAbandoned) ∧ sh_mutex s' = held_by pc'
  else sh_mutex s' = sh_mutex s.
Proof.
  intros E Hh. destruct pc as [| | | |prior| | | | | | | | | | | | |]; cbn [janitor_step inside] in *; simplify_eq; try done.
  - destruct (_ && (_ =? _))%bool; [done|]. destruct (_ && _ && _)%bool; [done|]. by destruct (_ && _)%bool.
  - destruct (sh_mutex s) eqn:Em; cbn in E; simplify_eq; cbn; auto.
  - specialize (Hh eq_refl). destruct prior; cbn in *; [by rewrite Hh|done].
  - specialize (Hh eq_refl). by destruct (_ =? _).
  - specialize (Hh eq_refl). by destruct (seen_dead d).
  - exact (Hh eq_refl).
  - exact (Hh eq_refl).
  - exact (Hh eq_refl).
  - specialize (Hh eq_refl). cbn in *. by rewrite Hh.
  - cbn [inside]. by case_bool_decide.
  - by destruct (seen_mapped d).
Qed.

Lemma lookup_set {A} (l : list A) i j x y : <[i := x]> l !! j = Some y → (j = i ∧ y = x) ∨ (j ≠ i ∧ l !! j = Some y).
Proof. intros [ (->&->&_) | (?&?) ]%list_lookup_insert_Some; auto. Qed.

Lemma user_inv g i pc s' pc' :
  race_inv g → r_users g !! i = Some pc → user_step pc (r_shared g) = Some (pc', s') →
  race_inv (mkRace s' (<[i := pc']> (r_users g)) (r_janitors g)).
Proof.
  intros [Hc Hh Ho Hf] Hi E. destruct (user_step_count _ _ _ _ E) as [Em Er]. split; cbn [r_shared r_users r_janitors].
  - pose proof (holders_insert (r_users g) i pc pc' Hi) as Hs. rewrite Er, Hc, u32_add_shift.
    case_bool_decide as Ecc; apply (f_equal u32); [rewrite Ecc in Hs; lia|].
    destruct (counted pc'), (counted pc); cbn in Hs; done || lia.
  - rewrite Em. apply Hh.
  - apply Ho.
  - rewrite Em. apply Hf.
Qed.

Lemma janitor_inv g j d pc s' pc' :
  race_inv g → r_janitors g !! j = Some pc → janitor_step d pc (r_shared g) = Some (pc', s') →
  race_inv (mkRace s' (r_users g) (<[j := pc']> (r_janitors g))).
Proof.
  intros [Hc Hh Ho Hf] Hj E. pose proof (janitor_step_lock _ _ _ _ _ E (Hh j pc Hj)) as Hl.
  assert (Hothers : inside pc = false → inside pc' = true → ∀ k pck, k ≠ j → r_janitors g !! k = Some pck → inside pck = false).
  { intros Hp Hp' k pck Hk Hpk. rewrite Hp, Hp' in Hl. destruct Hl as [Hl _]. destruct (inside pck) eqn:Ek; [|done].
    rewrite (Hh k pck Hpk Ek) in Hl. destruct pck as [| | | |[]| | | | | | | | | | | | |]; destruct Hl; done. }
  split; cbn [r_shared r_users r_janitors].
  - by rewrite (janitor_step_count _ _ _ _ _ E).
  - intros k pck [ (->&->) | (Hne&Hk) ]%lookup_set Hin.
    + rewrite Hin in Hl. destruct (inside pc); [done|by destruct Hl].
    + destruct (inside pc) eqn:Hp; [by destruct Hne; apply (Ho k j pck pc)|].
      destruct (inside pc') eqn:Hp'; [by rewrite (Hothers eq_refl eq_refl k pck Hne Hk) in Hin|].
      rewrite Hl. by apply (Hh k).
  - intros a b pa pb Ha Hb Hia Hib. apply lookup_set in Ha as [ (->&->) | (Hna&Ha) ], Hb as [ (->&->) | (Hnb&Hb) ]; [done|..].
    + destruct (inside pc) eqn:Hp; [by apply (Ho j b pc pb)|]. by rewrite (Hothers eq_refl Hia b pb Hnb Hb) in Hib.
    + destruct (inside pc) eqn:Hp; [by apply (Ho a j pa pc)|]. by rewrite (Hothers eq_refl Hib a pa Hna Ha) in Hia.
    + by apply (Ho a b pa pb).
  - intros Hall. assert (Hp' : inside pc' = false).
    { apply (Hall j). apply list_lookup_insert_eq. by eapply lookup_lt_Some. }
    rewrite Hp' in Hl. destruct (inside pc) eqn:Hp; [by left|]. rewrite Hl. apply Hf. intros k pck Hk.
    destruct (decide (k = j)) as [->|Hne]; [congruence|]. apply (Hall k). by rewrite list_lookup_insert_ne.
Qed.

Lemma counted_crashed b : counted (UCrashed b) = b.
Proof. by destruct b. Qed.

Lemma crash_inv g j pc :
  race_inv g → r_janitors g !! j = Some pc →
  race_inv (mkRace (if inside pc then put_mutex MxAbandoned (r_shared g) else r_shared g)
              (r_users g) (<[j := JCrashed]> (r_janitors g))).
Proof.
  intros [Hc Hh Ho Hf] Hj. split; cbn [r_shared r_users r_janitors].
  - by destruct (inside pc).
  - intros k pck [ (->&->) | (Hne&Hk) ]%lookup_set Hin; [done|].
    destruct (inside pc) eqn:Hp; [by destruct Hne; apply (Ho k j pck pc)|]. by apply (Hh k).
  - intros a b pa pb [ (->&->) | (_&Ha) ]%lookup_set [ (->&->) | (_&Hb) ]%lookup_set; try done. by apply (Ho a b pa pb).
  - intros Hall. destruct (inside pc) eqn:Hp; [by right|]. apply Hf. intros k pck Hk.
    destruct (decide (k = j)) as [->|Hne]; [congruence|]. apply (Hall k). by rewrite list_lookup_insert_ne.
Qed.

Lemma rstep_length g g' : rstep g g' → length (r_users g') = length (r_users g).
Proof.
  intros [e E]. destruct e as [i|j d|i|j]; cbn [do_event] in E.
  - destruct (r_users g !! i) as [pc|]; [|done]. cbn [mbind option_bind] in E.
    destruct (user_step pc _); [|done]. injection E as <-. apply length_insert.
  - destruct (r_janitors g !! j) as [pc|]; [|done]. cbn [mbind option_bind] in E.
    destruct (janitor_step d pc _); [|done]. by injection E as <-.
  - destruct (r_users g !! i) as [pc|]; [|done]. cbn [mbind option_bind] in E. destruct (ended pc); [done|].
    injection E as <-. apply length_insert.
  - destruct (r_janitors g !! j) as [pc|]; [|done]. cbn [mbind option_bind] in E. destruct pc; by simplify_eq.
Qed.

Lemma rstep_inv g g' : race_inv g → rstep g g' → race_inv g'.
Proof.
  intros Hg [e E]. destruct e as [i|j d|i|j]; cbn [do_event] in E.
  - destruct (r_users g !! i) as [pc|] eqn:Hi; [|done]. cbn [mbind option_bind] in E.
    destruct (user_step pc _) as [[pc' s']|] eqn:Es; [|done]. injection E as <-. by eapply user_inv.
  - destruct (r_janitors g !! j) as [pc|] eqn:Hj; [|done]. cbn [mbind option_bind] in E.
    destruct (janitor_step d pc _) as [[pc' s']|] eqn:Es; [|done]. injection E as <-. by eapply janitor_inv.
  - destruct (r_users g !! i) as [pc|] eqn:Hi; [|done]. cbn [mbind option_bind] in E. destruct (ended pc); [done|].
    injection E as <-. destruct Hg as [Hc Hh Ho Hf].
    split; cbn [r_shared r_users r_janitors]; try done. rewrite Hc. apply (f_equal u32).
    pose proof (holders_insert (r_users g) i pc (UCrashed (counted pc)) Hi) as Hs. rewrite counted_crashed in Hs. lia.
  - destruct (r_janitors g !! j) as [pc|] eqn:Hj; [|done]. cbn [mbind option_bind] in E.
    pose proof (crash_inv g j pc Hg Hj) as Hc. destruct pc; try done; by injection E as <-.
Qed.

Lemma race_init_inv hdr modes janitors : ref_count hdr = 1 → race_inv (race_init hdr modes janitors).
Proof.
  intros H1. split; cbn [race_init r_shared r_users r_janitors sh_header sh_mutex].
  - rewrite H1. unfold holders. cbn [sum_list_with counted].
    assert (E : sum_list_with (λ pc, Nat.b2n (counted pc)) (UIdle <$> modes) = 0%nat) by (induction modes; done).
    by rewrite E.
  - by intros j pc [-> _]%lookup_replicate.
  - by intros j k pcj pck [-> _]%lookup_replicate.
  - intros _. by left.
Qed.

Lemma race_reach hdr modes janitors g :
  ref_count hdr = 1 → rtc rstep (race_init hdr modes janitors) g → race_inv g ∧ length (r_users g) = S (length modes).
Proof.
  intros H1. apply (rtc_ind_r (λ g, race_inv g ∧ length (r_users g) = S (length modes))).
  - split; [by apply race_init_inv|]. cbn. by rewrite length_fmap.
  - intros g1 g2 _ Hs [Hg <-]. split; [by eapply rstep_inv|by apply rstep_length].
Qed.

Lemma exact_count g :
  race_inv g → Z.of_nat (length (r_users g)) < 2 ^ 32 →
  ref_count (sh_header (r_shared g)) = Z.of_nat (holders (r_users g)).
Proof. intros Hg Hl. rewrite (ri_count _ Hg). apply u32_small. pose proof (holders_le (r_users g)). lia. Qed.

(** ** Dead is final *)

Lemma user_step_dead pc s pc' s' : user_step pc s = Some (pc', s') → sh_state s = Some Dead → sh_state s' = Some Dead.
Proof. intros E Hd. destruct pc as [m|m| | | | |[] o|o p| | | | |c]; cbn [user_step] in E; by simplify_eq. Qed.

Lemma janitor_step_dead d pc s pc' s' : janitor_step d pc s = Some (pc', s') → sh_state s = Some Dead → sh_state s' = Some Dead.
Proof.
  intros E Hd. destruct pc as [| | | |prior| | | | | | | | | | | | |]; cbn [janitor_step] in E; simplify_eq; try done.
  - destruct (sh_mutex s); cbn in E; by simplify_eq.
  - by destruct prior.
  - by rewrite bool_decide_false by (rewrite Hd; done).
Qed.

(** A step on a Dead segment: no user gets a reference it can keep. *)
Definition early (pc : UPc) : bool :=
  match pc with UIdle _ | UOpened _ | UBump | URecheck | UUndo | UFailed | UCrashed _ => true | _ => false end.

Lemma early_step pc s pc' s' :
  user_step pc s = Some (pc', s') → sh_state s = Some Dead → early pc = true → early pc' = true.
Proof.
  intros E Hd He. destruct pc as [m|m| | | | |[] o|o p| | | | |c]; cbn [user_step] in E; simplify_eq; try done.
  - by destruct (sh_linked _).
  - by rewrite bool_decide_true.
  - by rewrite bool_decide_true.
Qed.

Lemma dead_step g g' :
  rstep g g' → sh_state (r_shared g) = Some Dead →
  sh_state (r_shared g') = Some Dead ∧
  (∀ i pc', r_users g' !! i = Some pc' → ∃ pc, r_users g !! i = Some pc ∧
     (early pc = true → early pc' = true) ∧ (∀ o, pc' = UHeld ReadWrite o → pc = UHeld ReadWrite o)).
Proof.
  intros [e E] Hd. destruct e as [i|j d|i|j]; cbn [do_event] in E.
  - destruct (r_users g !! i) as [pc|] eqn:Hi; [|done]. cbn [mbind option_bind] in E.
    destruct (user_step pc _) as [[pc' s']|] eqn:Es; [|done]. injection E as <-. split; [by eapply user_step_dead|].
    intros k pck [ (->&->) | (_&Hk) ]%lookup_set; [exists pc; split; [done|split; [by eapply early_step|]]|by exists pck].
    intros o ->. destruct pc as [m|m| | | | |[] o'|o' p| | | | |c]; cbn [user_step] in Es; simplify_eq.
    + by destruct (sh_linked _).
    + by rewrite bool_decide_true in * by done.
    + by rewrite bool_decide_true in * by done.
    + by destruct (_ && _ && _)%bool.
  - destruct (r_janitors g !! j) as [pc|] eqn:Hj; [|done]. cbn [mbind option_bind] in E.
    destruct (janitor_step d pc _) as [[pc' s']|] eqn:Es; [|done]. injection E as <-. split; [by eapply janitor_step_dead|].
    intros k pck Hk. by exists pck.
  - destruct (r_users g !! i) as [pc|] eqn:Hi; [|done]. cbn [mbind option_bind] in E. destruct (ended pc); [done|].
    injection E as <-. split; [done|]. intros k pck [ (->&->) | (_&Hk) ]%lookup_set; [by exists pc|by exists pck].
  - destruct (r_janitors g !! j) as [pc|] eqn:Hj; [|done]. cbn [mbind option_bind] in E.
    destruct pc; try done; injection E as <-; (split; [exact Hd|]); intros k pck Hk; by exists pck.
Qed.

(** From then on nobody attaches, and who does not hold a reference never will. *)
Lemma dead_run g g' i pc :
  rtc rstep g g' → sh_state (r_shared g) = Some Dead → r_users g !! i = Some pc →
  sh_state (r_shared g') = Some Dead ∧ ∃ pc', r_users g' !! i = Some pc' ∧
  (early pc = true → early pc' = true) ∧ (∀ o, pc' = UHeld ReadWrite o → pc = UHeld ReadWrite o).
Proof.
  intros Hr Hd Hi. revert g' Hr. apply (rtc_ind_r (λ g', sh_state (r_shared g') = Some Dead ∧ ∃ pc', r_users g' !! i = Some pc' ∧
    (early pc = true → early pc' = true) ∧ (∀ o, pc' = UHeld ReadWrite o → pc = UHeld ReadWrite o))); [by eauto|].
  intros g1 g2 _ Hs (Hd1&pc1&Hi1&He1&Hh1). destruct (dead_step g1 g2 Hs Hd1) as [Hd2 Hu]. split; [done|].
  assert (Hl : is_Some (r_users g2 !! i)).
  { apply lookup_lt_is_Some. apply lookup_lt_Some in Hi1. destruct Hs as [e E].
    by rewrite (rstep_length g1 g2) by by exists e. }
  destruct Hl as [pc2 Hi2]. destruct (Hu i pc2 Hi2) as (pc1'&E1&He2&Hh2). rewrite Hi1 in E1. injection E1 as <-.
  exists pc2. split; [done|]. split; [auto|]. intros o Ho. by apply Hh1, Hh2.
Qed.
