(* ===== verification/SegmentRaceProps.v ===== *)
(** * Properties of the race on one segment

    The machine of [SegmentRace] computes what the manager's functions compute when a thread runs
    alone; under any interleaving the count stays exact and the janitors exclude each other; which
    attaches a reclaim respects, and which it does not. *)

From S2P Require Import Prelude Types Sync Security Lifecycle Registry Manager ManagerInv Janitor ManagerOps ManagerSteps ManagerProps.
From S2P Require Import SegmentRace.

#[local] Opaque NSLOTS reg_map.

(** ** A thread alone *)

Abbreviation W := (World mx_status).

(** What the machine sees of a world. *)
Definition view (nm : bytes) (id : nat) (w : W) : shared :=
  mkShared (sg_header (seg MxFree id w)) (sg_mutex (seg MxFree id w))
    (bool_decide (is_Some (w_names w !! nm))) (bool_decide (is_Some (entries MxFree w !! nm))).

Definition user_rel (x y : UPc * shared) : Prop := user_step x.1 x.2 = Some y.
Definition janitor_rel (o : Seen) (x y : JPc * shared) : Prop := janitor_step o x.1 x.2 = Some y.

Section views.
Variables (nm : bytes) (id : nat).

Lemma view_frame w w' :
  w_objs w' !! id = w_objs w !! id → w_names w' !! nm = w_names w !! nm → entries MxFree w' !! nm = entries MxFree w !! nm →
  view nm id w' = view nm id w.
Proof. intros E1 E2 E3. unfold view, seg. by rewrite E1, E2, E3. Qed.

Lemma view_upd f w s :
  w_objs w !! id = Some s → reg_id w ≠ Some id →
  view nm id (upd_seg f id w) = mkShared (sg_header (f s)) (sg_mutex (f s)) (sh_linked (view nm id w)) (sh_listed (view nm id w)).
Proof.
  intros Eo Hr. unfold view, seg, upd_seg, entries. cbn [set_objs w_objs w_names sh_linked sh_listed].
  rewrite lookup_alter_eq, Eo. cbn [fmap option_fmap option_map default].
  change (set_objs (alter f id (w_objs w)) w) with (upd_seg f id w).
  by rewrite (registry_of_upd_seg MxFree f id w) by by left.
Qed.

Lemma view_header f w s :
  w_objs w !! id = Some s → reg_id w ≠ Some id → view nm id (upd_header f id w) = on_header f (view nm id w).
Proof.
  intros Eo Hr. unfold upd_header. rewrite (view_upd _ w s Eo Hr). unfold view at 3, on_header, seg. cbn. by rewrite Eo.
Qed.

Lemma view_mutex m w s :
  w_objs w !! id = Some s → reg_id w ≠ Some id → view nm id (upd_seg (with_mutex m) id w) = put_mutex m (view nm id w).
Proof.
  intros Eo Hr. rewrite (view_upd _ w s Eo Hr). unfold put_mutex, view, seg. cbn. by rewrite Eo.
Qed.

Lemma view_unlink sys w : fail_unlink sys nm = None → view nm id (shm_unlink sys nm w).2 = put_linked false (view nm id w).
Proof.
  intros Hf. unfold shm_unlink. rewrite Hf. unfold view, put_linked. destruct (w_names w !! nm) eqn:En; cbn; rewrite ?En.
  - rewrite lookup_delete_eq. done.
  - done.
Qed.

Lemma view_unregister sys w :
  world_ok MxFree w → reg_id w ≠ Some id →
  view nm id (registry_unregister MxFree sys nm w).2 = put_listed false (view nm id w).
Proof.
  intros H Hr. destruct (unregister_same MxFree sys nm w H) as [S Ee]. unfold view, put_listed, seg.
  rewrite (sb_objs _ _ S id Hr), (sb_names _ _ S), Ee, lookup_delete_eq. done.
Qed.
End views.

Section solo.
Variables (sys : Sys) (nm : bytes) (id : nat) (w : W) (s : Segment mx_status).
Hypothesis Hok : world_ok MxFree w.
Hypothesis Hsys : sys_ok sys.
Hypothesis Hne : nm ≠ REGISTRY_NAME.
Hypothesis Hobj : w_objs w !! id = Some s.
Hypothesis Hreg : reg_id w ≠ Some id.

Lemma attach_solo mode :
  attachable MxFree sys nm w id s →
  rtc user_rel (UIdle mode, view nm id w) (UHeld mode false, view nm id (attached mode id w)).
Proof.
  intros At. pose proof (at_alive _ _ _ _ _ _ At) as Hal.
  assert (Hst : sh_state (view nm id w) = decode_state (state (sg_header s))).
  { unfold sh_state, view. cbn [sh_header]. by rewrite (seg_lookup MxFree w id s Hobj). }
  assert (Hl : sh_linked (view nm id w) = true).
  { cbn. by rewrite (at_name _ _ _ _ _ _ At), bool_decide_true. }
  eapply rtc_l; [unfold user_rel; cbn [fst snd user_step]; by rewrite Hl|].
  eapply rtc_l; [unfold user_rel; cbn [fst snd user_step]; rewrite bool_decide_false by (rewrite Hst; done); reflexivity|].
  destruct mode; [apply rtc_refl|].
  eapply rtc_l; [by unfold user_rel|].
  assert (Ev : view nm id (attached ReadWrite id w) = fetch_add 1 (view nm id w)).
  { exact (view_header nm id (λ h, set_ref_count (u32 (ref_count h + 1)) h) w s Hobj Hreg). }
  rewrite Ev. eapply rtc_once. unfold user_rel. cbn [fst snd user_step].
  change (sh_state (fetch_add 1 (view nm id w))) with (sh_state (view nm id w)).
  by rewrite bool_decide_false by (rewrite Hst; done).
Qed.

(** The end of a handle. *)
Lemma detach_solo size mode owner :
  segment_name (sg_header s) = nm →
  rtc user_rel (UHeld mode owner, view nm id w)
    (UDone, view nm id (handle_reset MxFree sys (mkShmHandle (Some id) size true mode owner) w)).
Proof.
  intros Hnm. unfold handle_reset. cbn [base_ owner_ mode_ fd_]. rewrite (seg_lookup MxFree w id s Hobj), Hnm.
  rewrite (bool_decide_false (nm = REGISTRY_NAME)) by done. cbn [negb].
  set (w1 := if owner then _ else w). assert (H1 : world_ok MxFree w1).
  { unfold w1. destruct owner; [|done]. by apply (ok_drop_heartbeat MxFree (mkShmHandle (Some id) size true mode true) id w). }
  assert (Eo1 : w_objs w1 !! id = Some s) by by unfold w1; destruct owner.
  assert (Hr1 : reg_id w1 ≠ Some id) by by unfold w1; destruct owner.
  assert (Ev1 : view nm id w1 = view nm id w) by by unfold w1; destruct owner.
  rewrite <-Ev1. clearbody w1. clear Ev1. destruct mode; [apply rtc_once; done|].
  rewrite (seg_lookup MxFree w1 id s Eo1). set (rc := ref_count (sg_header s)).
  set (w2 := upd_header (set_ref_count (u32 (rc - 1))) id w1).
  assert (Eo2 : w_objs w2 !! id = Some (with_header (set_ref_count (u32 (rc - 1))) s)).
  { unfold w2, upd_header, upd_seg. cbn. by rewrite lookup_alter_eq, Eo1. }
  assert (Hrc : ref_count (sh_header (view nm id w1)) = rc).
  { unfold view. cbn [sh_header]. by rewrite (seg_lookup MxFree w1 id s Eo1). }
  assert (Ev2 : view nm id w2 = fetch_add (-1) (view nm id w1)).
  { unfold w2, fetch_add. rewrite (view_header nm id _ w1 s Eo1 Hr1). unfold on_header. by rewrite Hrc. }
  assert (Hst : sh_state (view nm id w2) = decode_state (state (sg_header s))).
  { unfold sh_state, view. cbn [sh_header]. by rewrite (seg_lookup MxFree w2 id _ Eo2). }
  eapply rtc_l; [unfold user_rel; cbn [fst snd user_step]; rewrite Hrc, <-Ev2; reflexivity|].
  rewrite (seg_lookup MxFree w2 id _ Eo2). cbn [sg_header with_header]. rewrite (andb_true_r owner).
  change (decode_state (state (set_ref_count (u32 (rc - 1)) (sg_header s)))) with (decode_state (state (sg_header s))).
  destruct (owner && (rc =? 1) && bool_decide (decode_state (state (sg_header s)) = Some Draining))%bool eqn:Ed;
    (eapply rtc_l; [unfold user_rel; cbn [fst snd user_step]; rewrite Hst, Ed; reflexivity|]); [|apply rtc_refl].
  assert (H2 : world_ok MxFree w2) by by apply ok_upd_header.
  set (w3 := upd_header (set_state Dead) id w2). assert (H3 : world_ok MxFree w3) by by apply ok_upd_header.
  eapply rtc_l; [unfold user_rel; cbn [fst snd user_step]; rewrite <-(view_header nm id _ w2 _ Eo2) by done; reflexivity|].
  fold w3. eapply rtc_l; [unfold user_rel; cbn [fst snd user_step]; rewrite <-(view_unlink nm id sys w3) by apply Hsys; reflexivity|].
  apply rtc_once. unfold user_rel. cbn [fst snd user_step].
  rewrite <-(view_unregister nm id sys (shm_unlink sys nm w3).2); [done|by apply ok_unlink|].
  unfold shm_unlink. destruct (fail_unlink sys nm); [done|]. by destruct (w_names w3 !! nm).
Qed.

Lemma upd_mutex_twice m m' : upd_seg (with_mutex m) id (upd_seg (with_mutex m') id w) = upd_seg (with_mutex m) id w.
Proof. unfold upd_seg, set_objs. cbn. f_equal. rewrite alter_alter_eq. by apply alter_ext. Qed.

Lemma unlock_solo o g w' s' :
  ShmMutexGuard.locked_ g = true → ShmMutexGuard.has_mutex g = true → w_objs w' !! id = Some s' → sg_mutex s' = MxHeld →
  reg_id w' ≠ Some id →
  rtc (janitor_rel o) (JUnlock, view nm id w')
    (JDone, view nm id (upd_seg (λ s, with_mutex (ShmMutexGuard.reset g (sg_mutex s)).2 s) id w')).
Proof.
  intros Hg1 Hg2 Eo Em Hr. set (f := λ s, with_mutex (ShmMutexGuard.reset g (sg_mutex s)).2 s).
  pose proof (view_upd nm id f w' s' Eo Hr) as E. apply rtc_once. unfold janitor_rel. cbn [fst snd janitor_step].
  rewrite E. unfold f, ShmMutexGuard.reset. rewrite Hg1, Hg2, Em. cbn [andb snd with_mutex sg_header sg_mutex].
  unfold put_mutex, view. cbn [sh_header sh_mutex sh_linked sh_listed]. by rewrite (seg_lookup MxFree w' id s' Eo), Em.
Qed.

(** The reclaim with the mutex in hand. *)
Lemma reap_held o g w2 s2 :
  ShmMutexGuard.locked_ g = true → ShmMutexGuard.has_mutex g = true →
  world_ok MxFree w2 → w_objs w2 !! id = Some s2 → sg_mutex s2 = MxHeld → reg_id w2 ≠ Some id →
  let w3 := if ((ref_count (sg_header s2) =? 0) && seen_dead o)%bool
            then (registry_unregister MxFree sys nm (shm_unlink sys nm (upd_header (set_state Dead) id w2)).2).2 else w2 in
  rtc (janitor_rel o) (JLoadRc2, view nm id w2)
    (JDone, view nm id (upd_seg (λ s, with_mutex (ShmMutexGuard.reset g (sg_mutex s)).2 s) id w3)).
Proof.
  intros Hg1 Hg2 H2 Eo2 Hm2 Hr2 w3.
  assert (Hrc : ref_count (sh_header (view nm id w2)) = ref_count (sg_header s2)).
  { unfold view. cbn [sh_header]. by rewrite (seg_lookup MxFree w2 id _ Eo2). }
  eapply rtc_l; [unfold janitor_rel; cbn [fst snd janitor_step]; rewrite Hrc; reflexivity|].
  destruct (ref_count (sg_header s2) =? 0); cbn [andb] in w3; [|by apply (unlock_solo _ g w2 s2)].
  eapply rtc_l; [reflexivity|]. destruct (seen_dead o); [|by apply (unlock_solo _ g w2 s2)].
  set (wd := upd_header (set_state Dead) id w2) in *. assert (Hd : world_ok MxFree wd) by by apply ok_upd_header.
  eapply rtc_l; [unfold janitor_rel; cbn [fst snd janitor_step]; rewrite <-(view_header nm id _ w2 _ Eo2) by done; reflexivity|].
  fold wd. eapply rtc_l; [unfold janitor_rel; cbn [fst snd janitor_step]; rewrite <-(view_unlink nm id sys wd) by apply Hsys; reflexivity|].
  assert (Hu : world_ok MxFree (shm_unlink sys nm wd).2) by by apply ok_unlink.
  assert (Hru : reg_id (shm_unlink sys nm wd).2 ≠ Some id).
  { unfold shm_unlink. destruct (fail_unlink sys nm); [done|]. by destruct (w_names wd !! nm). }
  eapply rtc_l; [unfold janitor_rel; cbn [fst snd janitor_step]; rewrite <-(view_unregister nm id sys _ Hu Hru); reflexivity|].
  destruct (unregister_same MxFree sys nm _ Hu) as [S _].
  apply (unlock_solo _ g w3 (with_header (set_state Dead) s2) Hg1 Hg2); [|exact Hm2|].
  - unfold w3. rewrite (sb_objs _ _ S id Hru). unfold shm_unlink. rewrite (so_unlink _ Hsys).
    assert (Ed : w_objs wd !! id = Some (with_header (set_state Dead) s2))
      by (unfold wd, upd_header, upd_seg; cbn [set_objs w_objs]; by rewrite lookup_alter_eq, Eo2).
    by destruct (w_names wd !! nm).
  - unfold w3, reg_id. rewrite (sb_registry _ _ S). exact Hru.
Qed.

(** The reclaim, from the lock on. *)
Lemma reap_solo o now :
  sg_mutex s = MxFree ∨ sg_mutex s = MxAbandoned → seen_dead o = owner_is_dead (sys_os sys) (sg_header s) now →
  rtc (janitor_rel o) (JLock, view nm id w) (JDone, view nm id (gc_reap MxFree sys now nm id w)).
Proof.
  intros Hm Hdead. assert (Em : sh_mutex (view nm id w) = sg_mutex s).
  { unfold view. cbn [sh_mutex]. by rewrite (seg_lookup MxFree w id s Hobj). }
  set (w2 := upd_seg (with_mutex MxHeld) id w).
  assert (Eo2 : w_objs w2 !! id = Some (with_mutex MxHeld s)).
  { unfold w2, upd_seg. cbn. by rewrite lookup_alter_eq, Hobj. }
  assert (H2 : world_ok MxFree w2) by by apply (ok_with_mutex MxFree (λ _, MxHeld) id w).
  assert (Ev2 : view nm id w2 = put_mutex MxHeld (view nm id w)) by by apply (view_mutex nm id _ w s).
  assert (Hlock : rtc (janitor_rel o) (JLock, view nm id w) (JLoadRc2, view nm id w2)).
  { destruct Hm as [Hm|Hm]; rewrite Hm in Em;
      (eapply rtc_l; [unfold janitor_rel; cbn [fst snd janitor_step]; rewrite Em; reflexivity|]);
      apply rtc_once; unfold janitor_rel; cbn [fst snd janitor_step]; by rewrite Ev2. }
  etrans; [exact Hlock|]. unfold gc_reap. rewrite (seg_lookup MxFree w id s Hobj).
  destruct Hm as [Hm|Hm]; rewrite Hm; cbn [ShmMutexGuard.make mx_lock RobustMutex_status ShmMutexGuard.locked_ ShmMutexGuard.prior_owner_dead_
    ShmMutexGuard.mark_consistent mx_consistent ShmMutexGuard.has_mutex negb orb]; rewrite upd_mutex_twice; fold w2;
    rewrite (seg_lookup MxFree w2 id _ Eo2); cbn [with_mutex sg_header]; rewrite <-Hdead;
    by apply (reap_held o _ w2 (with_mutex MxHeld s)).
Qed.

(** Removing the name and the entry. *)
Lemma remove_solo o w' s' :
  world_ok MxFree w' → w_objs w' !! id = Some s' → reg_id w' ≠ Some id →
  rtc (janitor_rel o) (JZombieUnlink, view nm id w')
    (JDone, view nm id (registry_unregister MxFree sys nm (shm_unlink sys nm w').2).2).
Proof.
  intros H' Eo Hr. eapply rtc_l; [unfold janitor_rel; cbn [fst snd janitor_step]; rewrite <-(view_unlink nm id sys w') by apply Hsys; reflexivity|].
  apply rtc_once. unfold janitor_rel. cbn [fst snd janitor_step]. rewrite <-(view_unregister nm id sys); [done|by apply ok_unlink|].
  unfold shm_unlink. destruct (fail_unlink sys nm); [done|]. by destruct (w_names w' !! nm).
Qed.

(** An owner found dead while others hold the segment. *)
Lemma drain_solo o e now :
  entry_name e = nm → entries MxFree w !! nm = Some (erase e) → sh_state (view nm id w) = Some Active →
  rtc (janitor_rel o) (JCas, view nm id w)
    (JDone, view nm id (update_registry_last_seen MxFree sys e now (upd_header (set_state Draining) id w))).
Proof.
  intros En Ee Hst. eapply rtc_l.
  { unfold janitor_rel. cbn [fst snd janitor_step]. rewrite bool_decide_true by done.
    rewrite <-(view_header nm id _ w s Hobj Hreg). reflexivity. }
  set (w1 := upd_header (set_state Draining) id w). assert (H1 : world_ok MxFree w1) by by apply ok_upd_header.
  assert (Ee1 : entries MxFree w1 !! entry_name e = Some (erase e)).
  { rewrite En, <-Ee. unfold entries, w1, upd_header. rewrite registry_of_upd_seg; [done|by left]. }
  apply rtc_once. unfold janitor_rel. cbn [fst snd janitor_step].
  destruct (last_seen_ready MxFree sys e now w1 H1 Ee1) as (_&S2&E2). set (w2 := update_registry_last_seen _ _ _ _ _) in *.
  unfold view, put_listed, seg. cbn [sh_header sh_mutex sh_linked].
  rewrite (sb_objs _ _ S2 id) by done. rewrite (sb_names _ _ S2), E2, En, lookup_insert_eq. done.
Qed.
End solo.

(** What a janitor sees of an entry whose segment is as it is. *)
Definition seen (sys : Sys) (now : Z) (e : RegistryEntry) (s : Segment mx_status) : Seen :=
  mkSeen (owner_is_dead (sys_os sys) (sg_header s) now)
    (negb (e_last_seen_ns e =? 0) && (e_last_seen_ns e <? now) && (SEGMENT_ZOMBIE_NS <? now - e_last_seen_ns e))
    (any_process_maps_segment (sys_os sys) (entry_name e)).

(** The whole turn of a janitor. *)
Lemma janitor_solo sys now e id w s :
  world_ok MxFree w → sys_ok sys → entries MxFree w !! entry_name e = Some (erase e) →
  w_names w !! entry_name e = Some id → w_objs w !! id = Some s → seg_intact s →
  sg_mutex s = MxFree ∨ sg_mutex s = MxAbandoned →
  rtc (janitor_rel (seen sys now e s)) (JStart, view (entry_name e) id w)
    (JDone, view (entry_name e) id (gc_entry MxFree sys now e w)).
Proof.
  intros H Hs He En Eo Hi Hm. destruct (gc_entry_intact MxFree sys now e id s w H Hs He En Eo Hi) as (Hr&H2&->).
  destruct (wo_entries _ _ H _ _ He) as (_&Hne&_). set (nm := entry_name e) in *. set (o := seen sys now e s).
  set (w2 := set_maps _ _) in *. assert (Eo2 : w_objs w2 !! id = Some s) by done. assert (Hr2 : reg_id w2 ≠ Some id) by done.
  assert (Ee2 : entries MxFree w2 !! nm = Some (erase e)) by done.
  assert (Ev : sh_header (view nm id w) = sg_header s) by (unfold view; cbn [sh_header]; by rewrite (seg_lookup MxFree w id s Eo)).
  eapply rtc_l; [reflexivity|]. eapply rtc_l; [unfold janitor_rel; cbn [fst snd janitor_step]; rewrite Ev; reflexivity|].
  eapply rtc_l; [unfold janitor_rel; cbn [fst snd janitor_step]; unfold sh_state; rewrite Ev; reflexivity|].
  change (view nm id w) with (view nm id w2). change (seen_dead o) with (owner_is_dead (sys_os sys) (sg_header s) now).
  destruct (_ && (ref_count (sg_header s) =? 0))%bool; [by apply (reap_solo sys nm id w2 s H2 Hs Eo2 Hr2 o now Hm)|].
  destruct (_ && _ && bool_decide (_ = Some Active))%bool eqn:Ea.
  { bool_prop. apply (drain_solo sys nm id w2 s H2 Eo2 Hr2 o e now); [done|done|]. unfold sh_state, view. cbn [sh_header].
    by rewrite (seg_lookup MxFree w2 id s Eo2). }
  change (seen_stale o) with (negb (e_last_seen_ns e =? 0) && (e_last_seen_ns e <? now) && (SEGMENT_ZOMBIE_NS <? now - e_last_seen_ns e))%bool.
  rewrite !andb_assoc. destruct (_ && _ && _ && _)%bool; [|apply rtc_refl].
  eapply rtc_l; [reflexivity|]. change (seen_mapped o) with (any_process_maps_segment (sys_os sys) nm).
  destruct (any_process_maps_segment (sys_os sys) nm); cbn [negb]; [apply rtc_refl|].
  change (view nm id w2) with (view nm id (close (munmap w2))).
  apply (remove_solo sys nm id Hs o (close (munmap w2)) s); [by apply ok_close, ok_munmap|done|done].
Qed.

(** C38: a thread that is not interrupted takes the steps of the machine to exactly what the
    manager's functions make of the header, the mutex, the name and the registry entry: an attach,
    the end of a handle of either mode and of the owner, and the whole turn of a janitor on the
    entry, its reclaiming, draining and zombie branches included. *)
Theorem race_machine_agrees sys nm id w s :
  world_ok MxFree w → sys_ok sys → nm ≠ REGISTRY_NAME → w_names w !! nm = Some id → w_objs w !! id = Some s →
  (∀ mode, attachable MxFree sys nm w id s →
     rtc user_rel (UIdle mode, view nm id w) (UHeld mode false, view nm id (attached mode id w))) ∧
  (∀ size mode owner, segment_name (sg_header s) = nm →
     rtc user_rel (UHeld mode owner, view nm id w)
       (UDone, view nm id (handle_reset MxFree sys (mkShmHandle (Some id) size true mode owner) w))) ∧
  (∀ now e, entry_name e = nm → entries MxFree w !! nm = Some (erase e) → seg_intact s →
     sg_mutex s = MxFree ∨ sg_mutex s = MxAbandoned →
     rtc (janitor_rel (seen sys now e s)) (JStart, view nm id w)
       (JDone, view nm id (gc_entry MxFree sys now e w))).
Proof.
  intros H Hs Hne En Eo. assert (Hr : reg_id w ≠ Some id) by (intros Hr; by apply Hne, (wo_regname _ _ H nm id)).
  split; [|split].
  - intros mode. by apply attach_solo.
  - intros size mode owner. by apply detach_solo.
  - intros now e <- He Hi Hm. by apply janitor_solo.
Qed.

(** ** Interleavings *)

(** C16: under any interleaving of users and janitors, crashes included, the reference count is
    exactly the number of references that are held or were left by a crash, at most one janitor is
    inside the control mutex, and the mutex is held exactly then. *)
Theorem segment_race_invariant hdr modes janitors g :
  ref_count hdr = 1 → Z.of_nat (length modes) + 1 < 2 ^ 32 → rtc rstep (race_init hdr modes janitors) g →
  ref_count (sh_header (r_shared g)) = Z.of_nat (holders (r_users g)) ∧
  (∀ j k pcj pck, r_janitors g !! j = Some pcj → r_janitors g !! k = Some pck →
     inside pcj = true → inside pck = true → j = k) ∧
  (sh_mutex (r_shared g) = MxHeld ∨ sh_mutex (r_shared g) = MxHeldInconsistent ↔
   ∃ j pc, r_janitors g !! j = Some pc ∧ inside pc = true).
Proof.
  intros H1 Hl Hr. destruct (race_reach hdr modes janitors g H1 Hr) as [Hg Hlen].
  split; [apply exact_count; [done|]; rewrite Hlen; lia|]. split; [apply Hg|]. split.
  - intros Hm. assert (Hc : (∀ j pc, r_janitors g !! j = Some pc → inside pc = false) ∨
                            ∃ j pc, r_janitors g !! j = Some pc ∧ inside pc = true).
    { clear. induction (r_janitors g) as [|pc l IH]; [by left|]. destruct (inside pc) eqn:E; [right; by exists 0%nat, pc|].
      destruct IH as [IH|(j&p&Hj&Hp)]; [left|right; by exists (S j), p]. intros [|j] p Hj; [by injection Hj as <-|by apply (IH j)]. }
    destruct Hc as [Hc|?]; [|done]. destruct (ri_free _ Hg Hc) as [E|E]; rewrite E in Hm; by destruct Hm.
  - intros (j&pc&Hj&Hp). rewrite (ri_held _ Hg j pc Hj Hp). destruct pc as [| | | |[]| | | | | | | | | | | | |]; auto.
Qed.

(** Once the state is Dead it stays so, and an attach that has not been granted by then is
    refused: its user never holds the segment, in no mode, and gives back the reference it took. *)
Theorem late_attach_fails hdr modes janitors g g' i pc :
  ref_count hdr = 1 → Z.of_nat (length modes) + 1 < 2 ^ 32 → rtc rstep (race_init hdr modes janitors) g →
  sh_state (r_shared g) = Some Dead → r_users g !! i = Some pc → early pc = true → rtc rstep g g' →
  sh_state (r_shared g') = Some Dead ∧
  (∃ pc', r_users g' !! i = Some pc' ∧ early pc' = true ∧ (ended pc' = true → pc' = UFailed ∨ ∃ c, pc' = UCrashed c)) ∧
  ref_count (sh_header (r_shared g')) = Z.of_nat (holders (r_users g')).
Proof.
  intros H1 Hl Hr Hd Hi He Hr'. destruct (dead_run g g' i pc Hr' Hd Hi) as (Hd'&pc'&Hi'&He'&_).
  split; [done|]. split.
  - exists pc'. specialize (He' He). split; [done|]. split; [done|]. destruct pc'; try done; intros _; eauto.
  - destruct (race_reach hdr modes janitors g' H1) as [Hg Hlen]; [by etrans|]. apply exact_count; [done|]. rewrite Hlen. lia.
Qed.

(** Steps in which no user bumps the count. *)
Definition quiet (g g' : race) : Prop :=
  ∃ e, do_event e g = Some g' ∧ ∀ i, e = EUser i → r_users g !! i ≠ Some UBump.

Lemma quiet_rstep g g' : quiet g g' → rstep g g'.
Proof. intros (e&E&_). by exists e. Qed.

Lemma quiet_holders g g' : quiet g g' → (holders (r_users g') ≤ holders (r_users g))%nat.
Proof.
  intros (e&E&Hb). destruct e as [i|j d|i|j]; cbn [do_event] in E.
  - destruct (r_users g !! i) as [pc|] eqn:Hi; [|done]. cbn [mbind option_bind] in E.
    destruct (user_step pc _) as [[pc' s']|] eqn:Es; [|done]. injection E as <-. cbn [r_users].
    pose proof (holders_insert (r_users g) i pc pc' Hi) as Hs.
    assert (Hc : counted pc' = true → counted pc = true).
    { specialize (Hb i eq_refl). destruct pc as [m|m| | | | |[] o|o p| | | | |c]; cbn [user_step] in Es; simplify_eq; try done.
      - by destruct (sh_linked _).
      - destruct (bool_decide _); [done|]. by destruct m.
      - by destruct (_ && _ && _)%bool. }
    destruct (counted pc'), (counted pc); cbn in Hs; lia || by specialize (Hc eq_refl).
  - destruct (r_janitors g !! j) as [pc|]; [|done]. cbn [mbind option_bind] in E.
    destruct (janitor_step d pc _) as [[pc' s']|]; [|done]. by injection E as <-.
  - destruct (r_users g !! i) as [pc|] eqn:Hi; [|done]. cbn [mbind option_bind] in E. destruct (ended pc); [done|].
    injection E as <-. cbn [r_users]. pose proof (holders_insert (r_users g) i pc (UCrashed (counted pc)) Hi) as Hs.
    rewrite counted_crashed in Hs. lia.
  - destruct (r_janitors g !! j) as [pc|]; [|done]. cbn [mbind option_bind] in E. destruct pc; by simplify_eq.
Qed.

(** C17: a reclaim that no attach overtakes is safe: when no user bumps the count between a
    janitor's second look at it, which finds zero, and its store of Dead, then nobody holds the
    segment for writing at that moment nor ever again. *)
Theorem reclaim_safe hdr modes janitors g g1 g2 g3 g4 j d :
  ref_count hdr = 1 → Z.of_nat (length modes) + 1 < 2 ^ 32 → rtc rstep (race_init hdr modes janitors) g →
  r_janitors g !! j = Some JLoadRc2 → do_event (EJanitor j d) g = Some g1 → r_janitors g1 !! j = Some JDead2 →
  rtc quiet g1 g2 → r_janitors g2 !! j = Some JStoreDead → do_event (EJanitor j d) g2 = Some g3 → rtc rstep g3 g4 →
  sh_state (r_shared g4) = Some Dead ∧ ∀ i o, r_users g4 !! i ≠ Some (UHeld ReadWrite o).
Proof.
  intros H1 Hl Hr Hj E1 Hj1 Hq Hj2 E2 Hr4.
  destruct (race_reach hdr modes janitors g H1 Hr) as [Hg Hlen].
  assert (Hzero : holders (r_users g1) = 0%nat).
  { cbn [do_event] in E1. rewrite Hj in E1. cbn [mbind option_bind janitor_step] in E1. injection E1 as <-.
    cbn [r_janitors r_users] in Hj1 |- *. rewrite list_lookup_insert_eq in Hj1 by by eapply lookup_lt_Some.
    destruct (Z.eqb_spec (ref_count (sh_header (r_shared g))) 0) as [Ez|]; [|done].
    rewrite (exact_count g Hg) in Ez by (rewrite Hlen; lia). lia. }
  assert (Hzero2 : holders (r_users g2) = 0%nat).
  { clear -Hq Hzero. induction Hq as [|x y z Hs _ IH]; [done|]. apply IH. pose proof (quiet_holders _ _ Hs). lia. }
  cbn [do_event] in E2. rewrite Hj2 in E2. cbn [mbind option_bind janitor_step] in E2. injection E2 as <-.
  assert (Hd : sh_state (on_header (set_state Dead) (r_shared g2)) = Some Dead) by done.
  assert (Hn : ∀ i o, r_users g2 !! i ≠ Some (UHeld ReadWrite o)).
  { intros i o Hi. pose proof (holders_insert (r_users g2) i _ UDone Hi) as Hs. cbn in Hs. lia. }
  split.
  - revert Hr4. apply (rtc_ind_r (λ g4, sh_state (r_shared g4) = Some Dead)); [done|].
    intros x y _ Hs Hx. by apply (dead_step x y).
  - intros i o Hi4. destruct (lookup_lt_is_Some_2 (r_users g2) i) as [pc Hi].
    { apply lookup_lt_Some in Hi4. clear -Hr4 Hi4.
      assert (E : length (r_users g4) = length (r_users g2)); [|by rewrite <-E].
      revert Hr4. apply (rtc_ind_r (λ g4, length (r_users g4) = length (r_users g2))); [done|].
      intros x y _ Hs <-. by apply rstep_length. }
    destruct (dead_run _ g4 i pc Hr4 Hd Hi) as (_&pc'&Hi'&_&Hh). rewrite Hi4 in Hi'. injection Hi' as <-.
    specialize (Hh o eq_refl) as ->. by apply (Hn i o).
Qed.

(** ** Concrete runs *)

(** A fresh segment, one user that will attach for writing and one janitor. *)
Definition race_header : ShmHeader := set_ref_count 1 (set_state Active zero_header).

(** The owner is dead, the entry is not old. *)
Definition orphan : Seen := mkSeen true false false.

Definition race_start : race := race_init race_header [ReadWrite] 1.

Definition race_at (es : list event) : race := default race_start (run_events es race_start).

Lemma race_at_reach es : rtc rstep race_start (race_at es).
Proof. unfold race_at. destruct (run_events es race_start) eqn:E; [by eapply run_events_steps|apply rtc_refl]. Qed.

(** The owner ends its handle and exits; the user has opened the segment and seen it Active. *)
Definition owner_gone : list event := [EUser 0; EUser 0; EUser 1; EUser 1].

(** The janitor until it holds the mutex and is about to look at the count again. *)
Definition janitor_in : list event := replicate 5 (EJanitor 0 orphan).

(** An attach that bumps the count and checks the state between the janitor's second look at
    the count and its store of Dead is granted, and the janitor reclaims the segment under it: a run
    at whose end a user holds the segment for writing while it is Dead, unlinked and no longer
    listed. *)
Theorem reclaim_race :
  ∃ g, rtc rstep race_start g ∧ r_users g = [UDone; UHeld ReadWrite false] ∧ r_janitors g = [JDone] ∧
       sh_state (r_shared g) = Some Dead ∧ sh_linked (r_shared g) = false ∧ sh_listed (r_shared g) = false.
Proof.
  exists (race_at (owner_gone ++ janitor_in ++ [EJanitor 0 orphan; EUser 1; EUser 1] ++ replicate 5 (EJanitor 0 orphan))).
  split; [apply race_at_reach|]. vm_compute. by repeat split.
Qed.

(** The owner has crashed with its reference and the first janitor has made the segment Draining;
    an hour later the second finds no process that maps it, and before it removes the name a user
    attaches. *)
Definition zombie_run : list event :=
  [ECrashUser 0] ++ replicate 5 (EJanitor 0 (mkSeen true false false)) ++
  replicate 4 (EJanitor 1 (mkSeen true true false)) ++ replicate 4 (EUser 1) ++
  replicate 2 (EJanitor 1 (mkSeen true true false)).

(** The janitor's branch for segments that drain for more than an hour takes no lock and leaves the
    state alone, so an attach between its look at /proc and its unlink is granted: a run at whose
    end a user holds the segment for writing while it is Draining, without a name and not listed. *)
Theorem zombie_race :
  ∃ g, rtc rstep (race_init race_header [ReadWrite] 2) g ∧
       r_users g = [UCrashed true; UHeld ReadWrite false] ∧ r_janitors g = [JDone; JDone] ∧
       sh_state (r_shared g) = Some Draining ∧ sh_linked (r_shared g) = false ∧ sh_listed (r_shared g) = false.
Proof.
  destruct (run_events zombie_run (race_init race_header [ReadWrite] 2)) as [g|] eqn:E; [|vm_compute in E; discriminate E].
  exists g. split; [by eapply run_events_steps|]. vm_compute in E. injection E as <-. by repeat split.
Qed.

Lemma race_machine_agrees_witness :
  ∃ s, w_objs (demo_world 42) !! 1%nat = Some s ∧
    rtc user_rel (UIdle ReadWrite, view demo_name 1 (demo_world 42))
      (UHeld ReadWrite false, view demo_name 1 (attached ReadWrite 1 (demo_world 42))).
Proof.
  pose proof (create_cases MxFree (demo_sys 42 10) demo_create demo_boot (proj1 demo_boot_ok)) as Hc.
  unfold create_outcome in Hc. rewrite (demo_created 42 (or_introl eq_refl)) in Hc.
  destruct Hc as (Hw&_&hdr&C); [discriminate|].
  assert (En : w_next demo_boot = 1%nat) by (vm_compute; reflexivity).
  pose proof (created_live MxFree (demo_sys 42 10) demo_create demo_boot _ (demo_world 42) hdr (proj1 demo_boot_ok)
    ltac:(split; [discriminate|reflexivity]) (demo_created 42 (or_introl eq_refl)) C ltac:(vm_compute; discriminate)) as L.
  rewrite En in L. pose proof (lv_object _ _ _ _ _ _ L) as Eo. eexists. split; [exact Eo|].
  refine (proj1 (race_machine_agrees (demo_sys 42 10) demo_name 1 (demo_world 42) _ Hw (demo_sys_ok 42 10) _ _ Eo) ReadWrite _).
  - vm_compute. discriminate.
  - exact (lv_name _ _ _ _ _ _ L).
  - exact (live_attachable MxFree (demo_sys 42 10) demo_name (demo_world 42) 1 _ (demo_sys_ok 42 10) L).
Defined.

Lemma segment_race_invariant_witness :
  ref_count (sh_header (r_shared (race_at (owner_gone ++ [EUser 1])))) = 1 ∧
  holders (r_users (race_at (owner_gone ++ [EUser 1]))) = 1%nat.
Proof.
  destruct (segment_race_invariant race_header [ReadWrite] 1 (race_at (owner_gone ++ [EUser 1]))) as [E _].
  - reflexivity.
  - reflexivity.
  - apply race_at_reach.
  - split; [rewrite E|]; vm_compute; reflexivity.
Defined.

(** Dead before the user's bump. *)
Definition dead_first : list event := owner_gone ++ janitor_in ++ replicate 3 (EJanitor 0 orphan).

Lemma late_attach_fails_witness :
  r_users (race_at dead_first) !! 1%nat = Some UBump ∧
  ∃ pc', r_users (race_at (dead_first ++ [EUser 1; EUser 1; EUser 1])) !! 1%nat = Some pc' ∧ early pc' = true.
Proof.
  split; [vm_compute; reflexivity|].
  destruct (late_attach_fails race_header [ReadWrite] 1 (race_at dead_first) (race_at (dead_first ++ [EUser 1; EUser 1; EUser 1])) 1 UBump)
    as (_&(pc'&Hi&He&_)&_).
  - reflexivity.
  - reflexivity.
  - apply race_at_reach.
  - vm_compute. reflexivity.
  - vm_compute. reflexivity.
  - reflexivity.
  - apply (run_events_steps [EUser 1; EUser 1; EUser 1]). vm_compute. reflexivity.
  - exists pc'. split; [exact Hi|exact He].
Defined.

Lemma reclaim_safe_witness :
  sh_state (r_shared (race_at (owner_gone ++ janitor_in ++ replicate 6 (EJanitor 0 orphan) ++ [EUser 1; EUser 1; EUser 1]))) = Some Dead.
Proof.
  destruct (reclaim_safe race_header [ReadWrite] 1 (race_at (owner_gone ++ janitor_in))
    (race_at (owner_gone ++ janitor_in ++ [EJanitor 0 orphan]))
    (race_at (owner_gone ++ janitor_in ++ replicate 2 (EJanitor 0 orphan)))
    (race_at (owner_gone ++ janitor_in ++ replicate 3 (EJanitor 0 orphan)))
    (race_at (owner_gone ++ janitor_in ++ replicate 6 (EJanitor 0 orphan) ++ [EUser 1; EUser 1; EUser 1])) 0 orphan) as [Hd _].
  - reflexivity.
  - reflexivity.
  - apply race_at_reach.
  - vm_compute. reflexivity.
  - vm_compute. reflexivity.
  - vm_compute. reflexivity.
  - apply rtc_once. exists (EJanitor 0 orphan). split; [vm_compute; reflexivity|]. intros i Hi. discriminate Hi.
  - vm_compute. reflexivity.
  - vm_compute. reflexivity.
  - apply (run_events_steps (replicate 3 (EJanitor 0 orphan) ++ [EUser 1; EUser 1; EUser 1])). vm_compute. reflexivity.
  - exact Hd.
Defined.
