(* ===== verification/Contents.v ===== *)
(** * The manager never touches the contents of segments

    Whatever [attach], the end of a handle, [destroy] and the janitor do to names, headers,
    mutexes and the registry, the bytes after the header of every other segment stay. *)

From S2P Require Import Prelude Types Sync Security Lifecycle Registry Manager ManagerInv Janitor ManagerOps ManagerSteps.

#[local] Opaque NSLOTS reg_map.

Section contents.
Context {Mx : Type} `{!RobustMutex Mx} (mx_new : Mx).

Abbreviation W := (World Mx).
Implicit Types w : W.

(** Bytes stay as they are; a registry stays a registry. *)
Definition same_body (b b' : Body) : Prop :=
  match b, b' with
  | BytesBody x, BytesBody y => x = y
  | RegistryBody _, RegistryBody _ => True
  | _, _ => False
  end.

#[export] Instance same_body_refl : Reflexive same_body.
Proof. by intros []. Qed.

#[export] Instance same_body_trans : Transitive same_body.
Proof. intros [] [] [] ? ?; cbn in *; congruence || done. Qed.

(** What stays of a segment: its bytes, its size and the immutable part of its header. *)
Record seg_kept (s s' : Segment Mx) : Prop := {
  sk_body : same_body (sg_body s) (sg_body s');
  sk_size : sg_size s' = sg_size s;
  sk_header : immutable_fields (sg_header s') = immutable_fields (sg_header s);
}.

#[export] Instance seg_kept_refl : Reflexive seg_kept.
Proof. by intros s. Qed.

#[export] Instance seg_kept_trans : Transitive seg_kept.
Proof. intros s1 s2 s3 [] []. split; [by etrans|congruence..]. Qed.

Lemma seg_kept_same s s' :
  sg_body s' = sg_body s → sg_size s' = sg_size s →
  immutable_fields (sg_header s') = immutable_fields (sg_header s) → seg_kept s s'.
Proof. intros Eb Es Eh. split; [by rewrite Eb|done|done]. Qed.

(** The registry instance is the same one, the objects are the same and so are their bodies. *)
Record contents_kept (w w' : W) : Prop := {
  ck_registry : w_registry w' = w_registry w;
  ck_objs id : option_Forall2 seg_kept (w_objs w !! id) (w_objs w' !! id);
}.

#[export] Instance contents_kept_refl : Reflexive contents_kept.
Proof. intros w. split; [done|]. intros id. destruct (w_objs w !! id); by constructor. Qed.

#[export] Instance contents_kept_trans : Transitive contents_kept.
Proof.
  intros w1 w2 w3 H1 H2. split; [by rewrite (ck_registry _ _ H2), (ck_registry _ _ H1)|].
  intros id. pose proof (ck_objs _ _ H1 id) as K1. pose proof (ck_objs _ _ H2 id) as K2.
  inversion K1 as [s1 s2 Hs E1 E2|E1 E2]; rewrite <-E2 in K2; inversion K2; constructor. by etrans.
Qed.

Lemma ck_object w w' id s :
  contents_kept w w' → w_objs w !! id = Some s → ∃ s', w_objs w' !! id = Some s' ∧ seg_kept s s'.
Proof.
  intros K Eo. pose proof (ck_objs _ _ K id) as Ki. rewrite Eo in Ki. inversion Ki as [s0 s' Hs E0 E'|]; subst. by exists s'.
Qed.

Lemma sk_bytes s s' b : seg_kept s s' → sg_body s = BytesBody b → sg_body s' = BytesBody b.
Proof. intros [Hb _ _] Eb. rewrite Eb in Hb. destruct (sg_body s'); cbn in Hb; congruence || done. Qed.

Lemma ck_body w w' id s b :
  contents_kept w w' → w_objs w !! id = Some s → sg_body s = BytesBody b →
  ∃ s', w_objs w' !! id = Some s' ∧ sg_body s' = BytesBody b.
Proof.
  intros K Eo Eb. destruct (ck_object w w' id s K Eo) as (s'&Eo'&Hs). exists s'. split; [done|]. by apply (sk_bytes s).
Qed.

(** ** Primitive steps *)

Lemma kept_frame w w' : w_objs w' = w_objs w → w_registry w' = w_registry w → contents_kept w w'.
Proof. intros Eo Er. split; [done|]. intros id. rewrite Eo. destruct (w_objs w !! id); by constructor. Qed.

Lemma kept_upd_seg f id w :
  (∀ s, w_objs w !! id = Some s → seg_kept s (f s)) → contents_kept w (upd_seg f id w).
Proof.
  intros Hf. split; [done|]. intros j. unfold upd_seg. cbn [set_objs w_objs].
  destruct (decide (j = id)) as [->|Hne].
  - rewrite lookup_alter_eq. destruct (w_objs w !! id) as [s|]; constructor. by apply Hf.
  - rewrite lookup_alter_ne by done. destruct (w_objs w !! j); by constructor.
Qed.

Lemma kept_store r w : contents_kept w (store_registry mx_new r w).
Proof.
  unfold store_registry. destruct (w_registry w ≫= base_) as [id|]; [|done].
  destruct (sg_body (seg mx_new id w)) as [p|b0] eqn:Ebody; [|done].
  apply kept_upd_seg. intros s Eo. rewrite (seg_lookup mx_new w id s Eo) in Ebody. split; [by rewrite Ebody|done..].
Qed.

Lemma kept_on_registry {A} (f : Registry Mx → A * Registry Mx) w : contents_kept w (on_registry mx_new f w).2.
Proof. unfold on_registry. destruct (f _) as [a r]. apply kept_store. Qed.

(** ** Steps after a world whose registry instance exists *)

Section after.
Variables (sys : Sys) (w0 : W).
Hypothesis Hreg : is_Some (w_registry w0).

Lemma instance_kept w : contents_kept w0 w → instance mx_new sys w = w.
Proof. intros K. unfold instance. destruct Hreg as [h E]. by rewrite (ck_registry _ _ K), E. Qed.

Lemma kept_then_frame w w' :
  w_objs w' = w_objs w → w_registry w' = w_registry w → contents_kept w0 w → contents_kept w0 w'.
Proof. intros Eo Er K. etrans; [done|]. by apply kept_frame. Qed.

Lemma kept_then_upd_seg f id w :
  (∀ s, seg_kept s (f s)) → contents_kept w0 w → contents_kept w0 (upd_seg f id w).
Proof. intros Hf K. etrans; [done|]. apply kept_upd_seg. intros s _. apply Hf. Qed.

Lemma kept_then_unregister nm w : contents_kept w0 w → contents_kept w0 (registry_unregister mx_new sys nm w).2.
Proof.
  intros K. etrans; [done|]. unfold registry_unregister. rewrite instance_kept by done. apply kept_on_registry.
Qed.

Lemma kept_then_register e w : contents_kept w0 w → contents_kept w0 (registry_register mx_new sys e w).2.
Proof.
  intros K. etrans; [done|]. unfold registry_register. rewrite instance_kept by done. apply kept_on_registry.
Qed.

Lemma kept_then_list prefix w : contents_kept w0 w → contents_kept w0 (registry_list mx_new sys prefix w).2.
Proof.
  intros K. etrans; [done|]. unfold registry_list. rewrite instance_kept by done. apply kept_on_registry.
Qed.

Lemma kept_then_unlink nm w : contents_kept w0 w → contents_kept w0 (shm_unlink sys nm w).2.
Proof.
  intros K. apply (kept_then_frame w); [..|done]; unfold shm_unlink; destruct (fail_unlink sys nm); try done;
    by destruct (w_names w !! nm).
Qed.
End after.

(** Follow the steps of an operation back to the world it started from. *)
Ltac kept_steps :=
  repeat first
    [ assumption
    | apply kept_then_unregister; [assumption|]
    | apply kept_then_register; [assumption|]
    | apply kept_then_list; [assumption|]
    | apply kept_then_unlink
    | match goal with
      | |- contents_kept _ (upd_header _ _ _) => apply kept_then_upd_seg; [intros; apply seg_kept_same; reflexivity|]
      | |- contents_kept _ (upd_seg _ _ _) => apply kept_then_upd_seg; [intros; apply seg_kept_same; reflexivity|]
      | |- contents_kept _ (close ?w) => apply (kept_then_frame _ w); [reflexivity|reflexivity|]
      | |- contents_kept _ (munmap ?w) => apply (kept_then_frame _ w); [reflexivity|reflexivity|]
      | |- contents_kept _ (set_fds _ ?w) => apply (kept_then_frame _ w); [reflexivity|reflexivity|]
      | |- contents_kept _ (set_maps _ ?w) => apply (kept_then_frame _ w); [reflexivity|reflexivity|]
      | |- contents_kept _ (set_heartbeats _ ?w) => apply (kept_then_frame _ w); [reflexivity|reflexivity|]
      | |- contents_kept _ (if ?b then _ else _) => destruct b
      | |- contents_kept _ (match ?b with ReadOnly => _ | ReadWrite => _ end) => destruct b
      end ].

(** ** Operations *)

Lemma gc_reap_kept sys now nm id w0 w :
  is_Some (w_registry w0) → contents_kept w0 w → contents_kept w0 (gc_reap mx_new sys now nm id w).
Proof.
  intros Hr K. unfold gc_reap. destruct (ShmMutexGuard.make _) as [g m].
  destruct (ShmMutexGuard.locked_ g); [|kept_steps].
  destruct (if ShmMutexGuard.prior_owner_dead_ g then _ else _) as [g' m']. cbv zeta. kept_steps.
Qed.

Lemma gc_entry_contents sys now e w0 w :
  is_Some (w_registry w0) → contents_kept w0 w → contents_kept w0 (gc_entry mx_new sys now e w).
Proof.
  intros Hr K. unfold gc_entry. destruct (_ || _)%bool; [done|]. unfold shm_open.
  destruct (fail_open sys (entry_name e)) as [[]|]; kept_steps.
  destruct (w_names w !! entry_name e) as [id|]; kept_steps. unfold mmap.
  destruct (mmap_error sys (entry_name e) _); kept_steps.
  apply gc_reap_kept; [done|]. kept_steps.
Qed.

Lemma gc_contents sys w : is_Some (w_registry w) → contents_kept w (gc mx_new sys w).
Proof.
  intros Hr. unfold gc. pose proof (kept_then_list sys w Hr [] w (reflexivity w)) as K.
  destruct (registry_list mx_new sys [] w) as [es w1]. cbn [snd] in K. revert w1 K.
  induction es as [|e es IH]; intros w1 K; cbn [fold_left]; [done|]. apply IH. by apply gc_entry_contents.
Qed.

Lemma handle_reset_contents sys h w0 w :
  is_Some (w_registry w0) → contents_kept w0 w → contents_kept w0 (handle_reset mx_new sys h w).
Proof.
  intros Hr K. unfold handle_reset. cbv zeta.
  destruct (base_ h) as [id|]; destruct (fd_ h); kept_steps.
Qed.

Lemma attached_contents mode id w : contents_kept w (attached mode id w).
Proof. assert (K : contents_kept w w) by done. unfold attached. kept_steps. Qed.

Lemma attach_contents `{!RobustMutexLaws Mx} sys nm mode w :
  world_ok mx_new w → contents_kept w (attach mx_new sys nm mode w).2.
Proof.
  intros H. assert (Hr : is_Some (w_registry w)) by apply (reg_ready_constructed mx_new w), H.
  destruct (parse_and_validate_name nm) eqn:Ep; [|unfold attach; by rewrite Ep].
  destruct (attach_world mx_new sys nm mode w H) as (_&_&Hm); [unfold valid_name; by rewrite Ep|].
  set (w1 := if bool_decide (nm = REGISTRY_NAME) then w else gc mx_new sys w) in *.
  assert (K : contents_kept w w1) by (unfold w1; case_bool_decide; [done|by apply gc_contents]).
  destruct Hm as [(id&s&_&->)|(e&->&_)]; [|done]. cbn [snd]. etrans; [exact K|apply attached_contents].
Qed.

Lemma destroy_contents sys nm w : is_Some (w_registry w) → contents_kept w (destroy mx_new sys nm w).2.
Proof.
  intros Hr. unfold destroy. destruct (parse_and_validate_name nm); [|done].
  pose proof (kept_then_unlink sys w nm w (reflexivity w)) as K.
  destruct (shm_unlink sys nm w) as [[e|] w1]; [done|]. cbn [snd] in K. case_bool_decide; [done|]. kept_steps.
Qed.

Lemma tick_contents now w : contents_kept w (tick now w).
Proof.
  unfold tick. induction (hb_headers (w_heartbeat w)) as [|p ps IH]; cbn [foldr]; [by apply kept_frame|].
  apply (kept_then_upd_seg w (with_header (set_heartbeat now)) (Z.to_nat p) (set_objs (foldr _ _ ps) w)); [|exact IH].
  intros s. by apply seg_kept_same.
Qed.

(** ** Segments whose header fits them

    The bytes after the header are there, and the regions the header describes do not overflow. *)

Definition seg_laid_out (s : Segment Mx) : Prop :=
  match sg_body s with
  | BytesBody b => Z.of_nat (length b) = Z.max 0 (sg_size s - SHMFX_HEADER_SIZE) ∧
                   0 ≤ meta_offset (sg_header s) < 2 ^ 32 ∧ 0 ≤ meta_size (sg_header s) < 2 ^ 32 ∧
                   0 ≤ payload_offset (sg_header s) ∧ 0 ≤ payload_size (sg_header s) ∧
                   payload_offset (sg_header s) + payload_size (sg_header s) < 2 ^ 64
  | RegistryBody _ => segment_type (sg_header s) = SegmentType_value RegistryType
  end.

#[export] Instance seg_laid_out_dec s : Decision (seg_laid_out s).
Proof. unfold seg_laid_out. destruct (sg_body s); apply _. Defined.

Definition laid_out (w : W) : Prop := ∀ id s, w_objs w !! id = Some s → seg_laid_out s.

Lemma seg_laid_out_kept s s' : seg_kept s s' → seg_laid_out s → seg_laid_out s'.
Proof.
  intros [Hb Hs Hh] Hl. unfold seg_laid_out in *. rewrite Hs. revert Hb Hh Hl.
  destruct (sg_header s), (sg_header s'), (sg_body s), (sg_body s'); unfold immutable_fields; cbn;
    intros ? [=]; intros; by subst.
Qed.

Lemma laid_out_kept w w' : contents_kept w w' → laid_out w → laid_out w'.
Proof.
  intros K Hl id s' Eo'. pose proof (ck_objs _ _ K id) as Ki. rewrite Eo' in Ki.
  inversion Ki as [s s0 Hs E E0|]; subst. apply (seg_laid_out_kept s); [done|]. by apply (Hl id).
Qed.

(** ** New segments

    What [create] leaves behind, errors included: the old segments are kept, and a new one has
    zeros after its header. *)

Definition blank (s : Segment Mx) : Prop := ∃ n, sg_body s = BytesBody (replicate n 0).

Lemma blank_kept s s' : seg_kept s s' → blank s → blank s'.
Proof. intros K [n E]. exists n. by apply (sk_bytes s). Qed.

Record grows (w w' : W) : Prop := {
  gw_registry : w_registry w' = w_registry w;
  gw_old id s : w_objs w !! id = Some s → ∃ s', w_objs w' !! id = Some s' ∧ seg_kept s s';
  gw_new id s' : w_objs w !! id = None → w_objs w' !! id = Some s' → blank s' ∧ seg_laid_out s';
}.

Lemma kept_grows w w' : contents_kept w w' → grows w w'.
Proof.
  intros K. split; [apply K|intros id s; by apply ck_object|]. intros id s' En Eo.
  pose proof (ck_objs _ _ K id) as Ki. rewrite En, Eo in Ki. inversion Ki.
Qed.

#[export] Instance grows_refl : Reflexive grows.
Proof. intros w. by apply kept_grows. Qed.

Lemma grows_kept w0 w w' : grows w0 w → contents_kept w w' → grows w0 w'.
Proof.
  intros [Hr Ho Hn] K. split; [by rewrite (ck_registry _ _ K)| |].
  - intros id s Eo. destruct (Ho id s Eo) as (s1&E1&K1). destruct (ck_object w w' id s1 K E1) as (s2&E2&K2).
    exists s2. split; [done|by etrans].
  - intros id s' En Eo. pose proof (ck_objs _ _ K id) as Ki. rewrite Eo in Ki.
    inversion Ki as [s s0 Hs E E0|]; subst. destruct (Hn id s En (eq_sym E)) as [Hb Hl].
    split; [by apply (blank_kept s)|by apply (seg_laid_out_kept s)].
Qed.

Lemma kept_then_grows w0 w w' : contents_kept w0 w → grows w w' → grows w0 w'.
Proof.
  intros K [Hr Ho Hn]. split; [by rewrite Hr, (ck_registry _ _ K)| |].
  - intros id s Eo. destruct (ck_object w0 w id s K Eo) as (s1&E1&K1). destruct (Ho id s1 E1) as (s2&E2&K2).
    exists s2. split; [done|by etrans].
  - intros id s' En. apply Hn. pose proof (ck_objs _ _ K id) as Ki. rewrite En in Ki. by inversion Ki.
Qed.

Lemma grows_insert w w' id s :
  w_objs w !! id = None → w_objs w' = <[id := s]> (w_objs w) → w_registry w' = w_registry w →
  blank s → seg_laid_out s → grows w w'.
Proof.
  intros En Eo Er Hb Hl. split; [done|intros j t Ej|intros j t Ej]; rewrite Eo.
  - exists t. split; [|done]. by rewrite lookup_insert_ne by congruence.
  - rewrite lookup_insert_Some. by intros [[-> <-]|[_ ?]]; [|congruence].
Qed.

Lemma laid_out_grows w w' : grows w w' → laid_out w → laid_out w'.
Proof.
  intros [_ Ho Hn] Hl id s' Eo'. destruct (w_objs w !! id) as [s|] eqn:Eo; [|by apply (Hn id)].
  destruct (Ho id s Eo) as (s1&E1&K). rewrite Eo' in E1. injection E1 as <-. apply (seg_laid_out_kept s); [done|]. by apply (Hl id).
Qed.

(** The regions [create] describes end with the segment. *)
Lemma initial_header_laid_out sys o m signed hdr :
  let off := align_up (u64 (SHMFX_HEADER_SIZE + co_meta_size o)) SHMFX_CACHE_LINE_BYTES in
  off ≤ co_total_size o ≤ MAX_SEGMENT_SIZE →
  sign_header_if_enabled (sys_keys sys) (initial_header sys o off) = (signed, hdr) →
  seg_laid_out (mkSegment (co_total_size o) hdr m
    (BytesBody (replicate (Z.to_nat (co_total_size o - SHMFX_HEADER_SIZE)) 0))).
Proof.
  intros off [H1 H2] Es. assert (H0 : 0 ≤ off) by (apply Z.land_nonneg; left; apply u64_range). destruct (sign_header_fields _ _ _ _ Es) as [d ->].
  unfold seg_laid_out, initial_header. cbn [sg_body sg_size sg_header set_hmac meta_offset meta_size payload_offset payload_size].
  rewrite length_replicate. unfold MAX_SEGMENT_SIZE, SHMFX_HEADER_SIZE in *.
  pose proof (u32_range (co_meta_size o)). pose proof (u32_range off). assert (u32 off ≤ off) by (apply Z.mod_le; lia).
  rewrite u64_small by lia. lia.
Qed.

(** The object [create] works on, as it goes through its states. *)
Lemma new_object_laid_out m : seg_laid_out (mkSegment 0 zero_header m (BytesBody [])).
Proof. done. Qed.

Lemma truncated_laid_out m size :
  seg_laid_out (mkSegment size zero_header m (BytesBody (replicate (Z.to_nat (size - SHMFX_HEADER_SIZE)) 0))).
Proof. unfold seg_laid_out. cbn [sg_body sg_size sg_header]. rewrite length_replicate. split; [lia|done]. Qed.

Lemma create_grows `{!RobustMutexLaws Mx} sys o w :
  world_ok mx_new w → 0 ≤ co_total_size o → grows w (create mx_new sys o w).2.
Proof.
  intros H H0. unfold create. set (nm := co_name o) in *.
  destruct (parse_and_validate_name nm) as [pn|] eqn:Ep; [|done].
  rewrite registry_list_ready by apply H. destruct (listed_valid mx_new w H) as (Hl1&Hl2&Hl3).
  set (es := list_spec _ _ _) in *. destruct (validate_create_security o es) as [[]|] eqn:Ev; [|done].
  destruct (validate_grants o es) as (Hmax&_); try done.
  { rewrite Hl2. apply H. }
  set (po := align_up _ _). destruct (Z.ltb_spec (co_total_size o) po) as [|Hpo]; [done|].
  unfold shm_open_excl. destruct (fail_open sys nm); [done|]. destruct (w_names w !! nm) eqn:En; [done|].
  set (id := w_next w). set (w1 := mkWorld _ _ _ _ _ _ _).
  assert (Hnew : w_objs w !! id = None).
  { apply eq_None_not_Some. intros Hs%(wo_next _ _ H). unfold id in Hs. lia. }
  set (body := BytesBody (replicate (Z.to_nat (co_total_size o - SHMFX_HEADER_SIZE)) 0)).
  assert (Hundo : ∀ w', grows w w' → grows w (shm_unlink sys nm w').2).
  { intros w' G. apply (grows_kept w w'); [done|]. by apply kept_then_unlink. }
  assert (G1 : grows w (close w1)).
  { apply (grows_insert w _ id (mkSegment 0 zero_header mx_new (BytesBody []))); try done. by exists 0%nat. }
  destruct (apply_permissions _) as [[]|]; [|by apply Hundo].
  unfold ftruncate. destruct (fail_ftruncate sys); [by apply Hundo|].
  assert (Hins : ∀ w' s, w_objs w' = <[id := s]> (w_objs w) → w_registry w' = w_registry w →
    sg_body s = BytesBody (replicate (Z.to_nat (co_total_size o - SHMFX_HEADER_SIZE)) 0) → seg_laid_out s → grows w w').
  { intros w' s Eo Er Eb. apply (grows_insert w w' id s); try done. by eexists. }
  unfold mmap. destruct (mmap_error sys nm _).
  { apply Hundo, (Hins _ (mkSegment (co_total_size o) zero_header mx_new body)); [|done|done|apply truncated_laid_out].
    cbn. apply insert_insert_eq. }
  destruct (sign_header_if_enabled _ _) as [signed hdr] eqn:Es.
  set (w4 := upd_header _ id _). set (s4 := mkSegment (co_total_size o) hdr mx_new body).
  assert (Hs4 : seg_laid_out s4) by by apply (initial_header_laid_out sys o mx_new signed).
  assert (E4 : w_objs w4 = <[id := s4]> (w_objs w)).
  { unfold w4, upd_header, upd_seg. cbn. by rewrite !insert_insert_eq, alter_insert_eq. }
  destruct signed as [[]|]; [|by apply Hundo, (Hins _ s4)].
  destruct (negb _); [by apply Hundo, (Hins _ s4)|].
  set (s6 := with_header (set_heartbeat (monotonic_ns (sys_os sys))) s4).
  set (w6 := register_heartbeat_owner sys id _). assert (G6 : grows w w6).
  { apply (Hins _ s6); try done. unfold w6, register_heartbeat_owner, upd_header, upd_seg.
    cbn [set_heartbeats set_objs w_objs]. by rewrite E4, !alter_insert_eq. }
  case_bool_decide; [done|]. assert (Hr6 : is_Some (w_registry w6)) by apply (reg_ready_constructed mx_new w), H.
  pose proof (kept_then_register sys w6 Hr6 (registry_entry sys o hdr) w6 (reflexivity w6)) as K7.
  pose proof (grows_kept w w6 _ G6 K7) as G7.
  destruct (registry_register _ _ _ _) as [[u|e] w7]; cbn [snd] in *; [done|].
  apply (grows_kept w (shm_unlink sys nm w7).2); [by apply Hundo|]. apply handle_reset_contents; [|done].
  rewrite (gw_registry _ _ (Hundo w7 G7)). apply (reg_ready_constructed mx_new w), H.
Qed.

End contents.
