(* ===== verification/SegmentRing.v ===== *)
(** * Rings that live in segments

    A [MpscRing] of the source is a reference to the metadata block of a mapped segment and a
    span of its payload. Here it is a [RingView]: the object and the two offsets. Ring operations
    read the ring out of the shared object, run, and leave their stores there, so that every
    process that maps the object sees them. *)

From S2P Require Import Prelude Types Sync RingMem RingCells RingBytes RingProps.
From S2P Require Import Security Lifecycle Registry Manager ManagerInv Janitor ManagerOps ManagerSteps Contents.

(** ** The metadata block *)

(** [sizeof(RecordRingMeta)]; the fields take 24 bytes, the reserved rest 40. *)
Definition RecordRingMeta_size : Z := 64.
Definition META_FIELDS_SIZE : Z := 24.

Definition encode_meta (meta : RecordRingMeta) : bytes :=
  le_bytes 4 (record_max meta) ++ le_bytes 4 (record_stride meta) ++ le_bytes 4 (producer_mode meta) ++
  le_bytes 4 (consumer_mode meta) ++ le_bytes 8 (lost_count meta).

Definition decode_meta (b : bytes) : RecordRingMeta :=
  let rd n off := le_int (take n (drop off b)) in
  mkRecordRingMeta (rd 4%nat 0%nat) (rd 4%nat 4%nat) (rd 4%nat 8%nat) (rd 4%nat 12%nat) (rd 8%nat 16%nat).

(** The object a handle maps, the offset of the metadata block, and offset and size of the span. *)
Record RingView := mkRingView {
  rv_object : nat;
  rv_meta : Z;
  rv_payload : Z;
  rv_size : Z;
}.

Section view.
Context {Mx : Type} `{!RobustMutex Mx} (mx_new : Mx).

Abbreviation W := (World Mx).
Implicit Types w : W.

(** The bytes after the header. *)
Definition body_bytes (s : Segment Mx) : bytes :=
  match sg_body s with BytesBody b => b | RegistryBody _ => [] end.

Definition with_body (b : bytes) (s : Segment Mx) : Segment Mx :=
  mkSegment (sg_size s) (sg_header s) (sg_mutex s) (BytesBody b).

(** Reading and writing a span of the mapping; [None] is a span that leaves it. *)
Definition seg_span (off n : Z) (id : nat) (w : W) : option bytes :=
  load_bytes (off - SHMFX_HEADER_SIZE) n (body_bytes (seg mx_new id w)).

Definition put_span (off : Z) (bs : bytes) (id : nat) (w : W) : option W :=
  b ← store_bytes (off - SHMFX_HEADER_SIZE) bs (body_bytes (seg mx_new id w));
  Some (upd_seg (with_body b) id w).

(** [ring_meta(handle)] *)
Definition ring_meta (id : nat) (w : W) : option RecordRingMeta :=
  decode_meta <$> seg_span (metadata (sg_header (seg mx_new id w))).1 RecordRingMeta_size id w.

(** [MpscRing::initialize(ring_meta(handle), handle.payload(), ...)]. Mappings start at a page,
    so the offset of the payload decides its alignment. *)
Definition ring_initialize (id : nat) (record_max max_payload : Z) (w : W) : option (Result RingView * W) :=
  let hdr := sg_header (seg mx_new id w) in
  meta ← ring_meta id w;
  span ← seg_span (payload hdr).1 (payload hdr).2 id w;
  r ← initialize meta (payload hdr).1 span record_max max_payload;
  match r with
  | (Error e, _, _) => Some (Error e, w)
  | (Value ring, meta', span') =>
      w1 ← put_span (metadata hdr).1 (encode_meta meta' ++ replicate 40 0) id w;
      w2 ← put_span (payload hdr).1 span' id w1;
      Some (Value (mkRingView id (metadata hdr).1 (payload hdr).1 (Z.of_nat (length (payload_ ring)))), w2)
  end.

(** [MpscRing::bind(ring_meta(handle), handle.payload())] *)
Definition ring_bind (id : nat) (w : W) : option (Result RingView) :=
  let hdr := sg_header (seg mx_new id w) in
  meta ← ring_meta id w;
  span ← seg_span (payload hdr).1 (payload hdr).2 id w;
  match bind meta (payload hdr).1 span with
  | Error e => Some (Error e)
  | Value ring =>
      Some (Value (mkRingView id (metadata hdr).1 (payload hdr).1 (Z.of_nat (length (payload_ ring)))))
  end.

Definition load_ring (v : RingView) (w : W) : option MpscRing :=
  m ← seg_span (rv_meta v) META_FIELDS_SIZE (rv_object v) w;
  p ← seg_span (rv_payload v) (rv_size v) (rv_object v) w;
  Some (mkMpscRing (decode_meta m) p).

Definition store_ring (v : RingView) (r : MpscRing) (w : W) : option W :=
  w1 ← put_span (rv_meta v) (encode_meta (meta_ r)) (rv_object v) w;
  put_span (rv_payload v) (payload_ r) (rv_object v) w1.

(** A ring operation on the shared object. *)
Definition on_ring {A} (v : RingView) (f : MpscRing → option (A * MpscRing)) (w : W) : option (A * W) :=
  r ← load_ring v w;
  q ← f r;
  w' ← store_ring v q.2 w;
  Some (q.1, w').

(** ** Lemmas *)

(** *** Spans of an object *)

Lemma seg_upd f id w s : w_objs w !! id = Some s → seg mx_new id (upd_seg f id w) = f s.
Proof. intros E. unfold seg, upd_seg. cbn. by rewrite lookup_alter_eq, E. Qed.

Lemma upd_seg_body b b' id w :
  upd_seg (with_body b') id (upd_seg (with_body b) id w) = upd_seg (with_body b') id w.
Proof.
  unfold upd_seg, set_objs. cbn. f_equal. rewrite alter_alter_eq. by apply alter_ext.
Qed.

Lemma put_span_Some off bs id w s b :
  w_objs w !! id = Some s → sg_body s = BytesBody b → 0 ≤ off - SHMFX_HEADER_SIZE →
  off - SHMFX_HEADER_SIZE + Z.of_nat (length bs) ≤ Z.of_nat (length b) →
  ∃ b', store_bytes (off - SHMFX_HEADER_SIZE) bs b = Some b' ∧
        put_span off bs id w = Some (upd_seg (with_body b') id w).
Proof.
  intros Eo Eb H0 H1. unfold put_span, body_bytes. rewrite (seg_lookup mx_new w id s Eo), Eb.
  destruct (store_bytes_is_Some (off - SHMFX_HEADER_SIZE) bs b) as [b' E]; [done|done|].
  exists b'. by rewrite E.
Qed.

(** *** Worlds that differ in the bytes of some objects *)

Definition byte_write (P : Prop) (s s' : Segment Mx) : Prop :=
  sg_size s' = sg_size s ∧ sg_header s' = sg_header s ∧ sg_mutex s' = sg_mutex s ∧
  (sg_body s' = sg_body s ∨
   P ∧ ∃ b b', sg_body s = BytesBody b ∧ sg_body s' = BytesBody b' ∧ length b' = length b).

Record writes (P : nat → Prop) (w w' : W) : Prop := {
  wr_frame : w' = set_objs (w_objs w') w;
  wr_objs id : option_Forall2 (byte_write (P id)) (w_objs w !! id) (w_objs w' !! id);
}.

Lemma byte_write_refl P s : byte_write P s s.
Proof. unfold byte_write. auto. Qed.

Lemma writes_refl P w : writes P w w.
Proof.
  split; [by destruct w|]. intros id. destruct (w_objs w !! id); constructor. apply byte_write_refl.
Qed.

Lemma byte_write_trans P s1 s2 s3 : byte_write P s1 s2 → byte_write P s2 s3 → byte_write P s1 s3.
Proof.
  intros (A1&A2&A3&A4) (B1&B2&B3&B4). unfold byte_write. split_and!; try congruence.
  destruct A4 as [A4|(HP&x&y&Ex&Ey&Exy)], B4 as [B4|(HP'&x'&y'&Ex'&Ey'&Exy')].
  - left. congruence.
  - right. split; [done|]. exists x', y'. by rewrite <-A4.
  - right. split; [done|]. exists x, y. by rewrite B4.
  - right. split; [done|]. exists x, y'. rewrite Ey in Ex'. injection Ex' as <-. by rewrite Exy'.
Qed.

Lemma writes_trans P w1 w2 w3 : writes P w1 w2 → writes P w2 w3 → writes P w1 w3.
Proof.
  intros [F1 O1] [F2 O2]. split; [rewrite F2; by rewrite F1|]. intros id. specialize (O1 id). specialize (O2 id).
  inversion O1 as [s1 s2 Hs E1 E2|E1 E2]; rewrite <-E2 in O2; inversion O2; constructor. by eapply byte_write_trans.
Qed.

Lemma writes_weaken (P Q : nat → Prop) w w' : (∀ id, P id → Q id) → writes P w w' → writes Q w w'.
Proof.
  intros HPQ [F O]. split; [done|]. intros id. specialize (O id).
  inversion O as [s1 s2 (?&?&?&Hs) E1 E2|E1 E2]; constructor. unfold byte_write. split_and!; try done.
  destruct Hs as [|[HP Hb]]; [by left|right; auto].
Qed.

Lemma writes_object P w w' id s :
  writes P w w' → w_objs w !! id = Some s → ∃ s', w_objs w' !! id = Some s' ∧ byte_write (P id) s s'.
Proof.
  intros [_ O] Eo. specialize (O id). rewrite Eo in O. inversion O as [s1 s' Hs E1 E2|]; subst. eauto.
Qed.

Lemma writes_body id w s b b' :
  w_objs w !! id = Some s → sg_body s = BytesBody b → length b' = length b →
  writes (eq id) w (upd_seg (with_body b') id w).
Proof.
  intros Eo Eb Hl. split; [done|]. intros j. unfold upd_seg. cbn [set_objs w_objs].
  destruct (decide (j = id)) as [->|Hne].
  - rewrite lookup_alter_eq, Eo. constructor. unfold byte_write. cbn. split_and!; try done.
    right. split; [done|]. by exists b, b'.
  - rewrite lookup_alter_ne by done. destruct (w_objs w !! j); constructor. apply byte_write_refl.
Qed.

(** Two writes, one after the other in the object. *)
Lemma put_two off1 bs1 off2 bs2 id w s b :
  w_objs w !! id = Some s → sg_body s = BytesBody b → SHMFX_HEADER_SIZE ≤ off1 →
  off1 + Z.of_nat (length bs1) ≤ off2 → off2 - SHMFX_HEADER_SIZE + Z.of_nat (length bs2) ≤ Z.of_nat (length b) →
  ∃ w1 b', put_span off1 bs1 id w = Some w1 ∧ put_span off2 bs2 id w1 = Some (upd_seg (with_body b') id w) ∧
    w_objs (upd_seg (with_body b') id w) !! id = Some (with_body b' s) ∧ length b' = length b ∧
    load_bytes (off1 - SHMFX_HEADER_SIZE) (Z.of_nat (length bs1)) b' = Some bs1 ∧
    load_bytes (off2 - SHMFX_HEADER_SIZE) (Z.of_nat (length bs2)) b' = Some bs2.
Proof.
  intros Eo Eb H1 H2 H3.
  destruct (put_span_Some off1 bs1 id w s b) as (b1&Es1&E1); [done|done|lia|lia|].
  pose proof (store_bytes_length _ _ _ _ Es1) as Hl1. set (w1 := upd_seg (with_body b1) id w) in *.
  assert (Hobj : ∀ b', w_objs (upd_seg (with_body b') id w) !! id = Some (with_body b' s)).
  { intros b'. unfold upd_seg. cbn. by rewrite lookup_alter_eq, Eo. }
  destruct (put_span_Some off2 bs2 id w1 (with_body b1 s) b1) as (b2&Es2&E2); [apply Hobj|done|lia|lia|].
  exists w1, b2. unfold w1 in E2 at 2. rewrite upd_seg_body in E2. split_and!; try done.
  - by rewrite (store_bytes_length _ _ _ _ Es2).
  - rewrite (load_store_bytes_disjoint _ _ _ _ _ _ Es2) by lia. by apply (load_store_bytes_same _ _ _ _ _ Es1).
  - by apply (load_store_bytes_same _ _ _ _ _ Es2).
Qed.

End view.

(** *** The metadata codec *)

Definition meta_wide (m : RecordRingMeta) : Prop :=
  0 ≤ record_max m < 2 ^ 32 ∧ 0 ≤ record_stride m < 2 ^ 32 ∧ 0 ≤ producer_mode m < 2 ^ 32 ∧
  0 ≤ consumer_mode m < 2 ^ 32 ∧ 0 ≤ lost_count m < 2 ^ 64.

Lemma length_encode_meta m : Z.of_nat (length (encode_meta m)) = META_FIELDS_SIZE.
Proof. unfold encode_meta. by rewrite !length_app, !length_le_bytes. Qed.

Lemma drop_le_bytes n k v (l : bytes) : drop (n + k) (le_bytes n v ++ l) = drop k l.
Proof. rewrite <-drop_drop. f_equal. apply drop_app_length'. by rewrite length_le_bytes. Qed.

Lemma take_le_bytes n v (l : bytes) : take n (le_bytes n v ++ l) = le_bytes n v.
Proof. apply take_app_length'. by rewrite length_le_bytes. Qed.

Lemma decode_encode_meta m rest : meta_wide m → decode_meta (encode_meta m ++ rest) = m.
Proof.
  intros (H1&H2&H3&H4&H5). unfold decode_meta, encode_meta. rewrite <-!(assoc (++)).
  change (drop 4) with (drop (A := Z) (4 + 0)). change (drop 8) with (drop (A := Z) (4 + (4 + 0))).
  change (drop 12) with (drop (A := Z) (4 + (4 + (4 + 0)))).
  change (drop 16) with (drop (A := Z) (4 + (4 + (4 + (4 + 0))))).
  rewrite !drop_le_bytes, !drop_0, !take_le_bytes, !le_int_le_bytes, !Z.mod_small by (simpl; lia).
  by destruct m.
Qed.

(** ** A ring in a world *)

Lemma payload_size_for_nonneg cap stride : 0 ≤ payload_size_for cap stride.
Proof. unfold payload_size_for. case_match; [done|apply u64_range]. Qed.

Section ring_at.
Context {Mx : Type} `{!RobustMutex Mx} (mx_new : Mx).

Abbreviation W := (World Mx).
Implicit Types w : W.

(** The bytes of the object hold the ring [r]. *)
Record ring_at (v : RingView) (w : W) (r : MpscRing) : Prop := {
  ra_object : ∃ s b, w_objs w !! rv_object v = Some s ∧ sg_body s = BytesBody b ∧
    load_bytes (rv_meta v - SHMFX_HEADER_SIZE) META_FIELDS_SIZE b = Some (encode_meta (meta_ r)) ∧
    load_bytes (rv_payload v - SHMFX_HEADER_SIZE) (rv_size v) b = Some (payload_ r);
  ra_apart : rv_meta v + META_FIELDS_SIZE ≤ rv_payload v;
  ra_wide : meta_wide (meta_ r);
}.

Lemma load_ring_at v w r : ring_at v w r → load_ring mx_new v w = Some r.
Proof.
  intros [(s&b&Eo&Eb&Em&Ep) _ Hw]. unfold load_ring, seg_span, body_bytes.
  rewrite (seg_lookup mx_new w _ s Eo), Eb, Em. cbn [mbind option_bind]. rewrite Ep. cbn [mbind option_bind].
  rewrite <-(app_nil_r (encode_meta _)), decode_encode_meta by done. by destruct r.
Qed.

Lemma store_ring_at v w r r' :
  ring_at v w r → length (payload_ r') = length (payload_ r) → meta_wide (meta_ r') →
  ∃ w', store_ring mx_new v r' w = Some w' ∧ writes (eq (rv_object v)) w w' ∧ ring_at v w' r'.
Proof.
  intros [(s&b&Eo&Eb&Em&Ep) Hap Hw] Hl Hw'.
  pose proof (load_bytes_length _ _ _ _ Ep) as Hlp.
  apply load_bytes_Some in Em as (Hm0&_&Hm1&_). apply load_bytes_Some in Ep as (Hp0&_&Hp1&_).
  pose proof (length_encode_meta (meta_ r')) as Hle.
  destruct (put_two mx_new (rv_meta v) (encode_meta (meta_ r')) (rv_payload v) (payload_ r') (rv_object v) w s b)
    as (w1&b'&E1&E2&Eo'&Hlb&L1&L2); [done|done|lia|lia|lia|].
  eexists. unfold store_ring. rewrite E1. cbn [mbind option_bind]. split; [done|].
  split; [by apply (writes_body _ _ s b)|]. split; [|done|done]. exists (with_body b' s), b'. rewrite Hle in L1. split_and!; try done.
  by rewrite <-Hlp, <-Hl.
Qed.

Lemma on_ring_at {A} v w r (f : MpscRing → option (A * MpscRing)) a r' :
  ring_at v w r → f r = Some (a, r') → length (payload_ r') = length (payload_ r) → meta_wide (meta_ r') →
  ∃ w', on_ring mx_new v f w = Some (a, w') ∧ writes (eq (rv_object v)) w w' ∧ ring_at v w' r'.
Proof.
  intros Hr Hf Hl Hw. unfold on_ring. rewrite (load_ring_at v w r Hr). cbn [mbind option_bind].
  rewrite Hf. cbn [mbind option_bind fst snd].
  destruct (store_ring_at v w r r' Hr Hl Hw) as (w'&E&H). rewrite E. by exists w'.
Qed.

(** The ring in the object is a queue of the given capacity and stride, and [room] more pushes
    keep its positions below 2^63. *)
Record ring_in (v : RingView) (cap stride room : Z) (w : W) (q : Fifo) : Prop := {
  ri_ring : ∃ r, ring_at v w r ∧ ring_queue r q ∧ record_max (meta_ r) = cap ∧
                 record_stride (meta_ r) = stride ∧ c_tail (abs_cells r) + room + cap < 2 ^ 63;
  ri_lost : 0 ≤ f_lost q < 2 ^ 64;
}.

Lemma ring_queue_wide r q : ring_queue r q → 0 ≤ f_lost q < 2 ^ 64 → meta_wide (meta_ r).
Proof.
  intros [Hg Hrep] Hl. pose proof (rr_lost _ _ Hrep) as El. change (c_meta (abs_cells r)) with (meta_ r) in El.
  destruct Hg as [Hv Hm Hs _ _ _]. unfold valid_meta, RING_PRODUCER_MPSC, RING_CONSUMER_SINGLE in Hv.
  bool_prop. unfold RECORD_HEADER_SIZE in *. unfold meta_wide. lia.
Qed.

Lemma ring_geom_length r r' :
  ring_geom r → ring_geom r' → record_max (meta_ r') = record_max (meta_ r) →
  record_stride (meta_ r') = record_stride (meta_ r) → length (payload_ r') = length (payload_ r).
Proof.
  intros Hg Hg' E1 E2. pose proof (rg_size _ Hg) as H1. pose proof (rg_size _ Hg') as H2.
  rewrite E1, E2 in H2. lia.
Qed.

(** A push through the view is a push on the queue; only the body of the object changes. *)
Lemma ring_in_push v cap stride room w q spurious ty fl us p :
  (∃ n, (n < MPSC_CAS_RETRY_BUDGET)%nat ∧ spurious n = false) →
  ring_in v cap stride room w q → 0 < room → push_typed ty fl us → is_bytes p →
  let spec := fifo_push cap (stored_msg stride ty fl us p) q in
  ∃ w', on_ring mx_new v (try_push spurious ty fl us p) w = Some (spec.1, w') ∧
        writes (eq (rv_object v)) w w' ∧ ring_in v cap stride (room - 1) w' spec.2.
Proof.
  intros Hsp [(r&Hr&Hq&<-&<-&Ht) Hl] Hroom Hty Hp spec.
  destruct (try_push_queue spurious ty fl us p r q Hsp Hq Hty Hp) as (r'&E&Hq'&Ht'&Hm&Hs).
  { unfold ring_bounded. cbn [c_meta abs_cells]. lia. }
  fold spec in E, Hq'. assert (Hl' : 0 ≤ f_lost spec.2 < 2 ^ 64).
  { unfold spec, fifo_push. case_bool_decide; [done|]. apply u64_range. }
  destruct (on_ring_at v w r (try_push spurious ty fl us p) spec.1 r') as (w'&Eb&Hwr&Hr'); try done.
  { by apply ring_geom_length; [apply Hq|apply Hq'|..]. }
  { by apply (ring_queue_wide r' spec.2). }
  exists w'. split; [done|]. split; [done|]. split; [|done]. exists r'. split_and!; try done. lia.
Qed.

Lemma ring_in_pop v cap stride room w q out :
  ring_in v cap stride room w q → 0 ≤ room → Z.of_nat (length out) < 2 ^ 32 →
  let spec := fifo_pop out q in
  ∃ w', on_ring mx_new v (try_pop out) w = Some (spec.1, w') ∧
        writes (eq (rv_object v)) w w' ∧ ring_in v cap stride room w' spec.2.
Proof.
  intros [(r&Hr&Hq&<-&<-&Ht) Hl] Hroom Hout spec.
  destruct (try_pop_queue out r q Hq) as (r'&E&Hq'&Ht'&Hm&Hs).
  { unfold ring_bounded. cbn [c_meta abs_cells]. lia. }
  { done. }
  fold spec in E, Hq'. assert (Hl' : 0 ≤ f_lost spec.2 < 2 ^ 64).
  { unfold spec, fifo_pop. by destruct (f_queue q). }
  destruct (on_ring_at v w r (try_pop out) spec.1 r') as (w'&Eb&Hwr&Hr'); try done.
  { by apply ring_geom_length; [apply Hq|apply Hq'|..]. }
  { by apply (ring_queue_wide r' spec.2). }
  exists w'. split; [done|]. split; [done|]. split; [|done]. exists r'. split_and!; try done. lia.
Qed.

(** ** A segment laid out for a ring

    What the creator of a ring segment asks for: the metadata block after the header, the ring
    after it, and nothing else. *)

Definition log_view (id : nat) (cap stride : Z) : RingView :=
  mkRingView id SHMFX_HEADER_SIZE (SHMFX_HEADER_SIZE + RecordRingMeta_size) (payload_size_for cap stride).

Definition ring_header (cap stride : Z) (hdr : ShmHeader) : Prop :=
  segment_type hdr = SegmentType_value RecordRing ∧
  metadata hdr = (SHMFX_HEADER_SIZE, RecordRingMeta_size) ∧
  payload hdr = (SHMFX_HEADER_SIZE + RecordRingMeta_size, payload_size_for cap stride).

Definition ring_segment (id : nat) (cap stride : Z) (w : W) : Prop :=
  ∃ s b, w_objs w !! id = Some s ∧ sg_body s = BytesBody b ∧ ring_header cap stride (sg_header s) ∧
         Z.of_nat (length b) = RecordRingMeta_size + payload_size_for cap stride.

Lemma ring_segment_writes P id cap stride w w' :
  writes P w w' → ring_segment id cap stride w → ring_segment id cap stride w'.
Proof.
  intros Hw (s&b&Eo&Eb&Hh&Hl). destruct (writes_object P w w' id s Hw Eo) as (s'&Eo'&_&Eh&_&Hb).
  destruct Hb as [Hb|(_&b0&b'&Eb0&Eb'&Hlen)].
  - exists s', b. rewrite Hb, Eh. by split_and!.
  - rewrite Eb in Eb0. injection Eb0 as <-. exists s', b'. rewrite Eh, Hlen. by split_and!.
Qed.

(** Initializing a segment of this layout. *)
(** A ring that [initialize] has just set up in the object. *)
Record new_ring (v : RingView) (cap mp : Z) (w : W) (r : MpscRing) : Prop := {
  nr_at : ring_at v w r;
  nr_queue : ring_queue r (mkFifo [] 0);
  nr_tail : c_tail (abs_cells r) = 0;
  nr_meta : meta_ r = init_meta cap (record_stride_for mp);
  nr_init : ∃ meta data span meta' span',
    is_bytes span ∧ initialize meta data span cap mp = Some (Value r, meta', span');
}.

Lemma new_ring_in v cap mp room w r :
  new_ring v cap mp w r → room + cap < 2 ^ 63 → ring_in v cap (record_stride_for mp) room w (mkFifo [] 0).
Proof. intros [Hat Hq Ht Hm _] Hroom. split; [|done]. exists r. rewrite Ht, Hm. by split_and!. Qed.

Lemma ring_initialize_new id cap mp w s b :
  let stride := record_stride_for mp in
  w_objs w !! id = Some s → ring_header cap stride (sg_header s) → sg_body s = BytesBody b →
  Z.of_nat (length b) = RecordRingMeta_size + payload_size_for cap stride → is_bytes b →
  2 ≤ cap < 2 ^ 32 → 0 ≤ mp < 2 ^ 32 → stride ≠ 0 →
  ∃ w' r, ring_initialize mx_new id cap mp w = Some (Value (log_view id cap stride), w') ∧
          writes (eq id) w w' ∧ ring_segment id cap stride w' ∧ new_ring (log_view id cap stride) cap mp w' r.
Proof.
  intros stride Eo Hh Eb Hl Hby Hc Hp Hs. pose proof Hh as (_&Hmd&Hpl).
  unfold log_view in *. set (P := payload_size_for cap stride) in *. pose proof (payload_size_for_nonneg cap stride) as HP.
  fold P in HP.
  assert (Hb : body_bytes (seg mx_new id w) = b) by (unfold body_bytes; by rewrite (seg_lookup mx_new w id s Eo), Eb).
  unfold ring_initialize, ring_meta, seg_span. rewrite Hb, (seg_lookup mx_new w id s Eo), Hmd, Hpl.
  cbn [fst snd]. unfold RecordRingMeta_size, META_FIELDS_SIZE, SHMFX_HEADER_SIZE in *.
  destruct (load_bytes_is_Some (256 - 256) 64 b) as [mb ->]; [lia|lia|lia|].
  destruct (load_bytes_is_Some (256 + 64 - 256) P b) as [pb Ep]; [lia|lia|lia|].
  rewrite Ep. cbn [mbind option_bind fmap option_fmap option_map].
  pose proof (load_bytes_length _ _ _ _ Ep) as Hpb.
  assert (Hbp : is_bytes pb) by by eapply load_bytes_is_bytes.
  destruct (initialize_queue (decode_meta mb) (256 + 64) pb cap mp) as (r&p'&E&Hq&Ht&Hmeta); try done.
  { fold stride P. lia. }
  rewrite E. cbn [mbind option_bind]. fold stride in Hmeta |- *.
  destruct (initialize_span _ _ _ _ _ _ _ _ E) as [Er Hlp]. fold stride P in Er.
  rewrite take_ge in Er by lia.
  pose proof (length_encode_meta (init_meta cap stride)) as Hle. unfold META_FIELDS_SIZE in Hle.
  destruct (put_two mx_new 256 (encode_meta (init_meta cap stride) ++ replicate 40 0) (256 + 64) p' id w s b)
    as (w1&b'&E1&E2&Eo'&Hlb&L1&L2);
    [done|done|done|rewrite length_app, length_replicate; lia|unfold SHMFX_HEADER_SIZE; lia|].
  rewrite length_app, length_replicate in L1.
  rewrite E1. cbn [mbind option_bind]. rewrite E2. cbn [mbind option_bind].
  do 2 eexists. split; [|split; [|split; [|split; [|exact Hq|exact Ht|exact Hmeta|by do 5 eexists]]]].
  - rewrite Er. cbn [payload_]. repeat f_equal. lia.
  - by apply (writes_body _ _ s b).
  - exists (with_body b' s), b'. unfold RecordRingMeta_size. fold P. split_and!; try done. by rewrite Hlb.
  - split.
    + exists (with_body b' s), b'. rewrite Er. cbn [rv_object rv_meta rv_payload rv_size meta_ payload_].
      split_and!; [done|done| |by rewrite <-Hpb, <-Hlp].
      apply load_bytes_Some in L1 as (?&_&?&L1). apply load_bytes_Some. unfold META_FIELDS_SIZE.
      split_and!; [lia|lia|lia|]. apply (f_equal (take 24)) in L1.
      rewrite take_app_length' in L1 by lia. rewrite L1, take_take. f_equal.
    + cbn. unfold META_FIELDS_SIZE. lia.
    + by apply (ring_queue_wide r (mkFifo [] 0)).
Qed.

(** Binding it again gives the same view. *)
Lemma ring_bind_view id cap stride room w q :
  ring_segment id cap stride w → ring_in (log_view id cap stride) cap stride room w q →
  ring_bind mx_new id w = Some (Value (log_view id cap stride)).
Proof.
  intros (s&b&Eo&Eb&(_&Hmd&Hpl)&Hl) [(r&[Hat _ Hw]&[Hg _]&Hcap&Hstr&_) _].
  destruct Hat as (s'&b'&Eo'&Eb'&Em&Ep). cbn [log_view rv_object rv_meta rv_payload rv_size] in *.
  rewrite Eo in Eo'. injection Eo' as <-. rewrite Eb in Eb'. injection Eb' as <-.
  pose proof (payload_size_for_nonneg cap stride) as HP.
  unfold ring_bind, ring_meta, seg_span, body_bytes. rewrite (seg_lookup mx_new w id s Eo), Eb, Hmd, Hpl.
  cbn [fst snd]. rewrite Ep. unfold RecordRingMeta_size, META_FIELDS_SIZE, SHMFX_HEADER_SIZE in *.
  destruct (load_bytes_is_Some (256 - 256) 64 b) as [mb Emb]; [lia|lia|lia|].
  rewrite Emb. cbn [mbind option_bind fmap option_fmap option_map].
  assert (Hmb : ∃ rest, mb = encode_meta (meta_ r) ++ rest).
  { apply load_bytes_Some in Em as (_&_&_&->). apply load_bytes_Some in Emb as (_&_&_&->).
    change (Z.to_nat 64) with (24 + 40)%nat. change (Z.to_nat 24) with 24%nat.
    exists (take 40 (drop 24 (drop (Z.to_nat (256 - 256)) b))). by rewrite take_take_drop. }
  destruct Hmb as [rest ->]. rewrite decode_encode_meta by done.
  pose proof (load_bytes_length _ _ _ _ Ep) as Hlen. pose proof (rg_size _ Hg) as Hsz. rewrite Hcap, Hstr in Hsz.
  assert (Hpos : payload_size_for cap stride ≠ 0).
  { pose proof (rg_max _ Hg). pose proof (rg_stride _ Hg) as Hs. unfold RECORD_HEADER_SIZE in Hs.
    rewrite Hcap, Hstr in *. unfold ring_size in Hsz. nia. }
  destruct (bind (meta_ r) (256 + 64) (payload_ r)) as [ring|e] eqn:Ebind.
  - apply bind_Value in Ebind as (_&_&_&_&->). rewrite Hcap, Hstr. cbn [payload_]. unfold log_view.
    unfold RecordRingMeta_size, SHMFX_HEADER_SIZE. repeat f_equal. rewrite length_take. lia.
  - exfalso. assert (Hv : bind (meta_ r) (256 + 64) (payload_ r) = Value (mkMpscRing (meta_ r)
      (take (Z.to_nat (payload_size_for (record_max (meta_ r)) (record_stride (meta_ r)))) (payload_ r)))).
    { apply bind_Value. rewrite Hcap, Hstr. split_and!; [apply Hg|done|done|lia|done]. }
    congruence.
Qed.

(** ** What other operations leave of a ring *)

Lemma ring_in_grows v cap stride room w w' q :
  grows w w' → ring_in v cap stride room w q → ring_in v cap stride room w' q.
Proof.
  intros G [(r&[(s&b&Eo&Eb&Hx) Hap Hw]&Hq) Hl]. split; [|done]. exists r. split; [|done]. split; [|done|done].
  destruct (gw_old _ _ G _ s Eo) as (s'&Eo'&K). exists s', b. split; [done|]. split; [by apply (sk_bytes s)|done].
Qed.

Lemma ring_in_kept v cap stride room w w' q :
  contents_kept w w' → ring_in v cap stride room w q → ring_in v cap stride room w' q.
Proof. intros K. by apply ring_in_grows, kept_grows. Qed.

Lemma ring_in_objs v cap stride room w w' q :
  w_objs w' = w_objs w → ring_in v cap stride room w q → ring_in v cap stride room w' q.
Proof.
  intros Eo [(r&[(s&b&E&Hx) Hap Hw]&Hq) Hl]. split; [|done]. exists r. split; [|done]. split; [|done|done].
  exists s, b. by rewrite Eo.
Qed.

Lemma ring_in_room v cap stride room room' w q :
  room' ≤ room → ring_in v cap stride room w q → ring_in v cap stride room' w q.
Proof. intros Hle [(r&?&?&?&?&?) ?]. split; [|done]. exists r. split_and!; try done. lia. Qed.

Lemma immutable_ring_header cap stride h h' :
  immutable_fields h' = immutable_fields h → ring_header cap stride h → ring_header cap stride h'.
Proof.
  destruct h, h'. unfold immutable_fields, ring_header, metadata, payload. cbn. intros [=]. by subst.
Qed.

Lemma ring_segment_grows id cap stride w w' :
  grows w w' → ring_segment id cap stride w → ring_segment id cap stride w'.
Proof.
  intros G (s&b&Eo&Eb&Hh&Hl). destruct (gw_old _ _ G id s Eo) as (s'&Eo'&K).
  exists s', b. split_and!; [done|by apply (sk_bytes s)| |done].
  apply (immutable_ring_header cap stride (sg_header s)); [apply K|done].
Qed.

Lemma ring_segment_kept id cap stride w w' :
  contents_kept w w' → ring_segment id cap stride w → ring_segment id cap stride w'.
Proof. intros K. by apply ring_segment_grows, kept_grows. Qed.

(** *** Writes leave everything but bytes alone *)

Lemma writes_headers P w w' : writes P w w' → headers w' = headers w.
Proof.
  intros [_ O]. apply map_eq. intros id. unfold headers. rewrite !lookup_fmap. specialize (O id).
  inversion O as [s1 s2 (Hs&Hh&_) E1 E2|E1 E2]; cbn; [by rewrite Hs, Hh|done].
Qed.

Lemma writes_registry P w w' : writes P w w' → registry_of mx_new w' = registry_of mx_new w.
Proof.
  intros Hw. unfold registry_of. rewrite (wr_frame _ _ _ Hw). cbn [set_objs w_registry].
  destruct (w_registry w ≫= base_) as [id|]; [|done]. unfold seg. cbn [set_objs w_objs].
  pose proof (wr_objs _ _ _ Hw id) as O. inversion O as [s1 s2 (_&_&Hm&Hb) E1 E2|E1 E2]; cbn; [|done].
  rewrite Hm. destruct Hb as [->|(_&b&b'&->&->&_)]; done.
Qed.

Lemma writes_ok `{!RobustMutexLaws Mx} P w w' : writes P w w' → world_ok mx_new w → world_ok mx_new w'.
Proof.
  intros Hw H. apply (world_ok_frame mx_new w); try done; try (by rewrite (wr_frame _ _ _ Hw)).
  - by apply (writes_registry P).
  - intros id. by rewrite <-!headers_is_Some, (writes_headers P w w' Hw).
Qed.

Lemma writes_laid_out P w w' : writes P w w' → laid_out w → laid_out w'.
Proof.
  intros Hw Hl id s' Eo'. pose proof (wr_objs _ _ _ Hw id) as O. rewrite Eo' in O.
  inversion O as [s s0 (Hs&Hh&_&Hb) E E0|]; subst. specialize (Hl id s (eq_sym E)). unfold seg_laid_out in *.
  rewrite Hs, Hh. destruct Hb as [->|(_&b&b'&Eb&Eb'&Hlen)]; [done|]. rewrite Eb in Hl. by rewrite Eb', Hlen.
Qed.

Lemma writes_live P keys nm w w' id s :
  writes P w w' → live_segment mx_new keys nm w id s →
  ∃ s', live_segment mx_new keys nm w' id s' ∧ sg_header s' = sg_header s ∧ sg_size s' = sg_size s.
Proof.
  intros Hw L. destruct (writes_object P w w' id s Hw (lv_object _ _ _ _ _ _ L)) as (s'&Eo'&Hs&Hh&_).
  exists s'. split; [|done]. destruct L as [L1 L2 L3 L4 L5 L6 L7 L8].
  assert (En : w_names w' = w_names w) by by rewrite (wr_frame _ _ _ Hw).
  assert (Ee : entries mx_new w' = entries mx_new w) by (unfold entries; by rewrite (writes_registry P w w' Hw)).
  split; unfold seg_intact; rewrite ?En, ?Ee, ?Hh, ?Hs; done.
Qed.

(** A ring in an object that is not written. *)
Lemma ring_in_apart P v cap stride room w w' q :
  writes P w w' → ¬ P (rv_object v) → ring_in v cap stride room w q → ring_in v cap stride room w' q.
Proof.
  intros Hw HP [(r&[(s&b&Eo&Eb&Hx) Hap Hwide]&Hq) Hl]. split; [|done]. exists r. split; [|done]. split; [|done|done].
  destruct (writes_object P w w' _ s Hw Eo) as (s'&Eo'&_&_&_&Hb). exists s', b.
  destruct Hb as [Hb|(HP'&_)]; [|done]. by rewrite Hb.
Qed.

(** Binding a valid segment whose metadata holds a [RecordRingMeta] stays in the mapping. *)
Lemma ring_bind_defined id w s :
  laid_out w → w_objs w !! id = Some s → validate_header (sg_header s) (sg_size s) = Ok →
  segment_type (sg_header s) = SegmentType_value RecordRing →
  RecordRingMeta_size ≤ (metadata (sg_header s)).2 →
  ∃ r, ring_bind mx_new id w = Some r ∧ (∀ v, r = Value v → rv_object v = id).
Proof.
  intros Hl Eo Hv Ht Hm. pose proof (Hl id s Eo) as H0. unfold seg_laid_out in H0.
  destruct (sg_body s) as [p|b] eqn:Eb; [rewrite Ht in H0; done|].
  destruct H0 as (Hlen&Hmo&Hms&Hpo&Hps&Hnw).
  apply validate_header_janitor in Hv; [|done|done]. unfold janitor_header_valid in Hv.
  destruct (_ || _)%bool; [done|]. destruct (_ || _)%bool eqn:Et; [done|].
  rewrite !u64_small in Hv by lia. bool_prop. unfold metadata, RecordRingMeta_size in Hm. cbn [snd] in Hm.
  unfold ring_bind, ring_meta, seg_span, body_bytes, RecordRingMeta_size, metadata, payload, SHMFX_HEADER_SIZE in *.
  rewrite (seg_lookup mx_new w id s Eo), Eb. cbn [fst snd].
  destruct (load_bytes_is_Some (meta_offset (sg_header s) - 256) 64 b) as [mb ->]; [lia|lia|lia|].
  destruct (load_bytes_is_Some (payload_offset (sg_header s) - 256) (payload_size (sg_header s)) b)
    as [pb ->]; [lia|lia|lia|]. cbn [mbind option_bind fmap option_fmap option_map].
  destruct (bind _ _ _) as [ring|e]; eexists; (split; [done|]); [by intros v [= <-]|done].
Qed.

(** What [bind] sees does not change while the segment is kept. *)
Lemma ring_bind_kept id w w' s :
  contents_kept w w' → w_objs w !! id = Some s →
  ring_bind mx_new id w' = ring_bind mx_new id w ∧
  segment_type (sg_header (seg mx_new id w')) = segment_type (sg_header (seg mx_new id w)).
Proof.
  intros K Eo. destruct (ck_object w w' id s K Eo) as (s'&Eo'&[Hb _ Hh]).
  unfold ring_bind, ring_meta, seg_span, body_bytes. rewrite (seg_lookup mx_new w id s Eo), (seg_lookup mx_new w' id s' Eo').
  assert (Eb : match sg_body s' with BytesBody b => b | RegistryBody _ => [] end =
               match sg_body s with BytesBody b => b | RegistryBody _ => [] end).
  { destruct (sg_body s), (sg_body s'); cbn in Hb; congruence || done. }
  rewrite Eb. revert Hh. destruct (sg_header s), (sg_header s'). unfold immutable_fields, metadata, payload. cbn.
  intros [=]. by subst.
Qed.

(** A view that [bind] gives for a ring segment. *)
Definition view_bound (w : W) (v : RingView) : Prop :=
  ∃ s, w_objs w !! rv_object v = Some s ∧ segment_type (sg_header s) = SegmentType_value RecordRing ∧
       ring_bind mx_new (rv_object v) w = Some (Value v).

Lemma view_bound_kept w w' v : contents_kept w w' → view_bound w v → view_bound w' v.
Proof.
  intros K (s&Eo&Ht&Eb). destruct (ck_object w w' _ s K Eo) as (s'&Eo'&_).
  destruct (ring_bind_kept _ w w' s K Eo) as [Eb' Et']. exists s'. rewrite Eb'.
  rewrite (seg_lookup mx_new w _ s Eo), (seg_lookup mx_new w' _ s' Eo') in Et'. rewrite Et'. by split_and!.
Qed.

(** A segment that nobody has initialized does not bind. *)
Lemma ring_bind_blank id w s v :
  w_objs w !! id = Some s → blank s → ring_bind mx_new id w ≠ Some (Value v).
Proof.
  intros Eo [n Eb]. unfold ring_bind, ring_meta, seg_span, body_bytes. rewrite (seg_lookup mx_new w id s Eo), Eb.
  destruct (load_bytes _ RecordRingMeta_size (replicate n 0)) as [mb|] eqn:Em; [|done].
  pose proof (load_bytes_length _ _ _ _ Em) as Hlen. apply load_bytes_Some in Em as (_&_&_&->).
  rewrite drop_replicate, take_replicate, length_replicate in *. unfold RecordRingMeta_size in *.
  replace (Z.to_nat 64 `min` _)%nat with 64%nat by lia. cbn [fmap option_fmap option_map mbind option_bind].
  by destruct (load_bytes _ _ _).
Qed.

End ring_at.
