(* ===== verification/Logger.v ===== *)
(** * The logging producer: [logger.h], [logger.cpp]

    Names of logging segments, the options a logger creates its segment with, [Logger::init] on
    every branch, and the publication of records into the ring of the segment. *)

From S2P Require Import Prelude Types Sync RingMem RingCells RingBytes RingProps.
From S2P Require Import Security Lifecycle Registry Manager ManagerInv Janitor ManagerOps ManagerSteps Contents SegmentRing.

#[local] Opaque NSLOTS reg_map.

(** ** Levels, flags, options *)

Inductive LogLevel := Trace | Debug | Info | Warn | LevelError | Fatal.

#[export] Instance LogLevel_eq_dec : EqDecision LogLevel.
Proof. solve_decision. Defined.

Definition LogLevel_value (l : LogLevel) : Z :=
  match l with Trace => 0 | Debug => 1 | Info => 2 | Warn => 3 | LevelError => 4 | Fatal => 5 end.

(** [LogRecordFlags] *)
Definition Truncated : Z := RECORD_FLAG_TRUNCATED.
Definition Binary : Z := Z.shiftl 1 1.

Record LoggerOptions := mkLoggerOptions {
  lo_service_name : bytes;
  lo_segment_name : bytes;
  lo_record_max : Z;
  lo_max_payload : Z;
  lo_perm : Z;
  lo_flags : Z;
}.

(** The member initializers; [0600] is 384. *)
Definition default_options (service : bytes) : LoggerOptions := mkLoggerOptions service [] 4096 1024 384 0.

(** [kFormatBufferBytes] *)
Definition kFormatBufferBytes : Z := 1024.

(** ** Names *)

Definition is_service_tail_char (c : Z) : bool :=
  (((97 <=? c) && (c <=? 122)) || ((48 <=? c) && (c <=? 57)) || (c =? 95) || (c =? 45))%bool.

Definition valid_service_name (service : bytes) : bool :=
  if (bool_decide (service = []) || (24 <? Z.of_nat (length service)) || (front service <? 97) ||
      (122 <? front service))%bool
  then false else forallb is_service_tail_char (tail service).

(** [std::to_string] of an [int]: its digits, the last one first, and the printed number. *)
Fixpoint digits_rev (fuel : nat) (n : Z) : bytes :=
  match fuel with
  | O => []
  | S f => (48 + n mod 10) :: (if n <? 10 then [] else digits_rev f (n / 10))
  end.

Definition int_to_string (n : Z) : bytes :=
  if n <? 0 then 45 :: rev (digits_rev 10 (- n)) else rev (digits_rev 10 n).

Definition default_segment_name (service : bytes) (pid : Z) : bytes :=
  str "/shmfx.log." ++ service ++ [95] ++ int_to_string pid.

(** The clock is read once: when [clock_gettime] fails, it fails in [shmfx::monotonic_ns] too. *)
Definition monotonic_record_time (os : Os) : Z :=
  match clock os with
  | Some (sec, nsec) => u64 (u64 (u64 (u64 (u64 sec * 1000) * 1000) * 1000) + u64 nsec)
  | None => monotonic_ns os
  end.

Definition make_create_options (o : LoggerOptions) (segment_name : bytes) : CreateOptions :=
  let stride := record_stride_for (lo_max_payload o) in
  let payload_size := payload_size_for (lo_record_max o) stride in
  mkCreateOptions segment_name RecordRing
    (u64 (align_up (u64 (SHMFX_HEADER_SIZE + RecordRingMeta_size)) SHMFX_CACHE_LINE_BYTES + payload_size))
    RecordRingMeta_size (lo_perm o) (Z.lor (lo_flags o) LockfreeRing).

(** ** The logger *)

Record Logger := mkLogger { handle_ : ShmHandle; ring_ : RingView; segment_name_ : bytes }.

Section logger.
Context {Mx : Type} `{!RobustMutex Mx} (mx_new : Mx).

Abbreviation W := (World Mx).
Implicit Types w : W.

(** A handle that maps nothing is never asked for its metadata; [None] stands for that access. *)
Definition bind_logger_ring (h : ShmHandle) (w : W) : option (Result RingView) :=
  id ← base_ h;
  let hdr := sg_header (seg mx_new id w) in
  if (negb (segment_type hdr =? SegmentType_value RecordRing) ||
      ((metadata hdr).2 <? RecordRingMeta_size))%bool
  then Some (Error CorruptedHeader)
  else ring_bind mx_new id w.

(** The name of the segment: the explicit one, or the default. *)
Definition logger_name (sys : Sys) (o : LoggerOptions) : bytes :=
  if bool_decide (lo_segment_name o = []) then default_segment_name (lo_service_name o) (sys_pid sys)
  else lo_segment_name o.

Definition init (sys : Sys) (o : LoggerOptions) (w : W) : option (Result Logger * W) :=
  if (negb (valid_service_name (lo_service_name o)) || (lo_record_max o =? 0) || (lo_max_payload o =? 0))%bool
  then Some (Error InvalidName, w)
  else
    let segment_name := logger_name sys o in
    if SHMFX_NAME_BYTES <=? Z.of_nat (length segment_name) then Some (Error InvalidName, w)
    else
      match create mx_new sys (make_create_options o segment_name) w with
      | (Value h, w) =>
          id ← base_ h;
          r ← ring_initialize mx_new id (lo_record_max o) (lo_max_payload o) w;
          match r with
          | (Error e, w) =>
              let w := (destroy mx_new sys segment_name w).2 in
              Some (Error e, handle_reset mx_new sys h w)
          | (Value ring, w) => Some (Value (mkLogger h ring segment_name), w)
          end
      | (Error e, w) =>
          if negb (bool_decide (e = AlreadyExists)) then Some (Error e, w)
          else
            match attach mx_new sys segment_name ReadWrite w with
            | (Error e, w) => Some (Error e, w)
            | (Value h, w) =>
                r ← bind_logger_ring h w;
                match r with
                | Error e => Some (Error e, handle_reset mx_new sys h w)
                | Value ring => Some (Value (mkLogger h ring segment_name), w)
                end
            end
      end.

(** [Logger::init(service_name)] *)
Definition init_service (sys : Sys) (service : bytes) (w : W) : option (Result Logger * W) :=
  init sys (default_options service) w.

(** The destructor: only the handle has one. *)
Definition logger_end (sys : Sys) (l : Logger) (w : W) : W := handle_reset mx_new sys (handle_ l) w.

(** The defaulted moves go member by member: the new logger, what is left of the source and, for
    an assignment, the world in which the old handle has ended. *)
Definition logger_move (other : Logger) : Logger * Logger :=
  let '(h, rest) := handle_move (handle_ other) in
  (mkLogger h (ring_ other) (segment_name_ other), mkLogger rest (ring_ other) []).

Definition logger_move_assign (sys : Sys) (same : bool) (this other : Logger) (w : W) : Logger * Logger * W :=
  if same then (this, other, w)
  else
    let '(h, rest, w) := handle_move_assign mx_new sys false (handle_ this) (handle_ other) w in
    (mkLogger h (ring_ other) (segment_name_ other), mkLogger rest (ring_ other) [], w).

(** A handle is given back once: what is left of a moved logger ends without effect. *)
Lemma logger_move_end sys sys' l w :
  logger_end sys' (logger_move l).2 (logger_end sys (logger_move l).1 w) = logger_end sys l w.
Proof. reflexivity. Qed.

(** *** Publication *)

Definition publish (sys : Sys) (spurious : nat → bool) (l : Logger) (level : LogLevel) (flags : Z)
    (payload : bytes) (w : W) : option (Result unit * W) :=
  on_ring mx_new (ring_ l)
    (try_push spurious (LogLevel_value level) flags (monotonic_record_time (sys_os sys)) payload) w.

Definition log_text (sys : Sys) (spurious : nat → bool) (l : Logger) (level : LogLevel)
    (message : bytes) : W → option (Result unit * W) :=
  publish sys spurious l level 0 message.

Definition log_binary (sys : Sys) (spurious : nat → bool) (l : Logger) (level : LogLevel)
    (payload : bytes) : W → option (Result unit * W) :=
  publish sys spurious l level Binary payload.

(** [std::vsnprintf] into a buffer of [cap] bytes, given what the format and the arguments
    render to ([None] is an encoding error): it returns the full length, or a negative number
    when that is not an [int], and writes as much as fits before a terminating zero. *)
Definition vsnprintf (buffer : bytes) (cap : Z) (rendered : option bytes) : Z * bytes :=
  match rendered with
  | None => (-1, buffer)
  | Some text =>
      let n := Z.of_nat (length text) in
      let kept := take (Z.to_nat (cap - 1)) text in
      (if n <? 2 ^ 31 then n else -1, kept ++ [0] ++ drop (length kept + 1) buffer)
  end.

(** [fmt] is [None] for a null pointer and else what it renders to with its arguments; [buffer] is
    the thread's buffer as the last call left it. *)
Definition vlog (sys : Sys) (spurious : nat → bool) (l : Logger) (level : LogLevel)
    (fmt : option (option bytes)) (buffer : bytes) (w : W) : option (Result unit * W) :=
  match fmt with
  | None => Some (Error InvalidName, w)
  | Some rendered =>
      let '(rc, buffer) := vsnprintf buffer kFormatBufferBytes rendered in
      if rc <? 0 then Some (Error CorruptedHeader, w)
      else
        let written := Z.min rc (kFormatBufferBytes - 1) in
        publish sys spurious l level (if kFormatBufferBytes <=? rc then Truncated else 0)
          (take (Z.to_nat written) buffer) w
  end.

(** [log] and the entry points with a fixed level. *)
Definition log := vlog.
Definition trace (sys : Sys) (spurious : nat → bool) (l : Logger) := vlog sys spurious l Trace.
Definition debug (sys : Sys) (spurious : nat → bool) (l : Logger) := vlog sys spurious l Debug.
Definition info (sys : Sys) (spurious : nat → bool) (l : Logger) := vlog sys spurious l Info.
Definition warn (sys : Sys) (spurious : nat → bool) (l : Logger) := vlog sys spurious l Warn.
Definition log_error (sys : Sys) (spurious : nat → bool) (l : Logger) := vlog sys spurious l LevelError.
Definition fatal (sys : Sys) (spurious : nat → bool) (l : Logger) := vlog sys spurious l Fatal.

(** [Logger::lost_count] *)
Definition logger_lost_count (l : Logger) (w : W) : option Z := ring_lost_count <$> load_ring mx_new (ring_ l) w.

End logger.

(** ** Lemmas on names *)

Lemma digits_rev_digits fuel n : 0 ≤ n → Forall (λ c, 48 ≤ c ≤ 57) (digits_rev fuel n).
Proof.
  revert n. induction fuel as [|f IH]; intros n Hn; cbn [digits_rev]; constructor; [zlia|].
  destruct (n <? 10); [constructor|]. apply IH. zlia.
Qed.

Lemma length_digits_rev fuel n : (length (digits_rev fuel n) ≤ fuel)%nat.
Proof.
  revert n. induction fuel as [|f IH]; intros n; cbn [digits_rev length]; [done|].
  destruct (n <? 10); simpl; [lia|]. specialize (IH (n / 10)). lia.
Qed.

(** The number the digits stand for. *)
Fixpoint digits_value (l : bytes) : Z :=
  match l with [] => 0 | c :: l' => c - 48 + 10 * digits_value l' end.

Lemma digits_value_rev fuel n : 0 ≤ n < 10 ^ Z.of_nat fuel → digits_value (digits_rev fuel n) = n.
Proof.
  revert n. induction fuel as [|f IH]; intros n Hn; cbn [digits_rev digits_value]; [lia|].
  rewrite Nat2Z.inj_succ, Z.pow_succ_r in Hn by lia. destruct (Z.ltb_spec n 10); simpl digits_value.
  - zlia.
  - rewrite IH; zlia.
Qed.

Lemma int_to_string_inj m n :
  0 ≤ m < 2 ^ 31 → 0 ≤ n < 2 ^ 31 → int_to_string m = int_to_string n → m = n.
Proof.
  intros Hm Hn. unfold int_to_string. rewrite !(proj2 (Z.ltb_ge _ 0)) by lia.
  intros E%(f_equal (rev (A := Z))). rewrite !rev_involutive in E. rewrite <-(digits_value_rev 10 m), <-(digits_value_rev 10 n), E; [done|simpl; lia..].
Qed.

Lemma int_to_string_digits n : 0 ≤ n → Forall (λ c, 48 ≤ c ≤ 57) (int_to_string n).
Proof.
  intros Hn. unfold int_to_string. rewrite (proj2 (Z.ltb_ge n 0)) by lia. apply Forall_rev. by apply digits_rev_digits.
Qed.

(** Two strings with a separator before a part that does not contain it. *)
Lemma split_last_eq (c : Z) (x y s t : bytes) :
  c ∉ s → c ∉ t → x ++ [c] ++ s = y ++ [c] ++ t → x = y ∧ s = t.
Proof.
  revert y. induction x as [|a x IH]; intros [|b y] Hs Ht E; cbn [app] in E.
  - by simplify_eq.
  - injection E as -> E. exfalso. apply Hs. rewrite E. apply elem_of_app. right. left.
  - injection E as -> E. exfalso. apply Ht. rewrite <-E. apply elem_of_app. right. left.
  - injection E as -> E. destruct (IH y Hs Ht E) as [-> ->]. done.
Qed.

Lemma service_tail_char c : is_service_tail_char c = is_name_tail_char c.
Proof. done. Qed.

Lemma valid_service_inv service :
  valid_service_name service = true →
  (1 ≤ length service ≤ 24)%nat ∧ is_lower (front service) = true ∧
  forallb is_name_tail_char (tail service) = true.
Proof.
  unfold valid_service_name. destruct (_ || _)%bool eqn:E; [done|]. bool_prop. intros Ht.
  split; [destruct service; [done|]; simpl in *; lia|]. split; [|exact Ht].
  unfold is_lower. rewrite (proj2 (Z.leb_le _ _)), (proj2 (Z.leb_le _ _)) by lia. done.
Qed.

Lemma default_name_shape service pid :
  valid_service_name service = true → 0 ≤ pid < 2 ^ 31 →
  let leaf := service ++ [95] ++ int_to_string pid in
  default_segment_name service pid = compose_name (str "log") leaf ∧ name_shape (str "log") leaf = true.
Proof.
  intros (Hl&Hf&Ht)%valid_service_inv Hp leaf. split; [done|]. apply name_shape_spec.
  destruct service as [|c service]; [simpl in Hl; lia|]. pose proof (int_to_string_digits pid ltac:(lia)) as Hd.
  assert (Hdl : (length (int_to_string pid) ≤ 10)%nat).
  { unfold int_to_string. rewrite (proj2 (Z.ltb_ge pid 0)) by lia. rewrite length_rev. apply length_digits_rev. }
  assert (Hll : length leaf = (length (c :: service) + 1 + length (int_to_string pid))%nat).
  { unfold leaf. rewrite !length_app. simpl. lia. }
  split; [simpl; lia|]. split; [simpl in *; lia|]. split; [done|]. split; [exact Hf|]. split; [done|].
  unfold leaf. cbn [app tail]. cbn [tail] in Ht. rewrite forallb_app, Ht. cbn [forallb andb].
  apply forallb_forall. intros x Hx%list_elem_of_In. rewrite Forall_forall in Hd. specialize (Hd x Hx).
  unfold is_name_tail_char. rewrite (proj2 (Z.leb_le 48 x)), (proj2 (Z.leb_le x 57)) by lia.
  cbn. by rewrite orb_true_r.
Qed.

(** ** Lemmas on options *)

Definition options_typed (o : LoggerOptions) : Prop :=
  0 ≤ lo_record_max o < 2 ^ 32 ∧ 0 ≤ lo_max_payload o < 2 ^ 32.

Definition logger_stride (o : LoggerOptions) : Z := record_stride_for (lo_max_payload o).

(** The size of the segment never wraps: header, metadata, ring. *)
Lemma create_options_size o nm :
  options_typed o →
  co_total_size (make_create_options o nm) =
  SHMFX_HEADER_SIZE + RecordRingMeta_size + payload_size_for (lo_record_max o) (logger_stride o).
Proof.
  intros [Hr Hp]. unfold make_create_options. cbn [co_total_size]. fold (logger_stride o).
  pose proof (record_stride_for_range _ Hp) as [Hs Hm]. fold (logger_stride o) in Hs, Hm.
  change (align_up _ _) with 320. unfold SHMFX_HEADER_SIZE, RecordRingMeta_size. apply u64_small.
  pose proof (payload_size_for_nonneg (lo_record_max o) (logger_stride o)).
  unfold payload_size_for. destruct (_ || _)%bool eqn:E; [lia|]. bool_prop.
  assert (ring_size (lo_record_max o) (logger_stride o) < 2 ^ 64 - 320) by (unfold ring_size; nia).
  pose proof (payload_size_for_eq (lo_record_max o) (logger_stride o)) as Eq.
  unfold payload_size_for in Eq. rewrite (proj2 (Z.eqb_neq _ _)), (proj2 (Z.ltb_ge _ _)) in Eq by done.
  cbn [orb] in Eq. rewrite Eq; unfold ring_size in *; lia.
Qed.

Lemma create_options_nonneg o nm : options_typed o → 0 ≤ co_total_size (make_create_options o nm).
Proof.
  intros Ht. rewrite create_options_size by done. unfold SHMFX_HEADER_SIZE, RecordRingMeta_size.
  pose proof (payload_size_for_nonneg (lo_record_max o) (logger_stride o)). lia.
Qed.

Lemma valid_name_length nm : valid_name nm → Z.of_nat (length nm) < SHMFX_NAME_BYTES.
Proof.
  unfold valid_name, parse_and_validate_name. destruct (bool_decide (nm = REGISTRY_NAME)) eqn:E1; bool_prop.
  { by subst. }
  destruct (bool_decide (nm = REGISTRY_LOCK_NAME)) eqn:E2; bool_prop; [by subst|]. cbn [orb].
  destruct (Nat.leb_spec (Z.to_nat SHMFX_NAME_BYTES) (length nm)); [done|].
  unfold SHMFX_NAME_BYTES in *. lia.
Qed.

Section lemmas.
Context {Mx : Type} `{!RobustMutex Mx, !RobustMutexLaws Mx} (mx_new : Mx).

Abbreviation W := (World Mx).
Implicit Types w : W.

(** The segment [create] makes from a logger's options has the layout of a ring. *)
Lemma created_ring_header sys o nm w h w1 hdr :
  options_typed o → created mx_new sys (make_create_options o nm) w h w1 hdr →
  ring_header (lo_record_max o) (logger_stride o) hdr.
Proof.
  intros Ht C. destruct (cr_size _ _ _ _ _ _ _ C) as [_ Hs].
  destruct (created_fields _ _ _ _ _ _ _ C) as [d ->].
  pose proof (create_options_size o nm Ht) as E. pose proof (payload_size_for_nonneg (lo_record_max o) (logger_stride o)).
  unfold ring_header, metadata, payload, initial_header. cbn [set_heartbeat set_hmac segment_type meta_offset meta_size payload_offset payload_size].
  rewrite E in Hs |- *. cbn [co_type co_meta_size make_create_options].
  change (align_up (u64 (SHMFX_HEADER_SIZE + RecordRingMeta_size)) SHMFX_CACHE_LINE_BYTES) with 320.
  unfold MAX_SEGMENT_SIZE, SHMFX_HEADER_SIZE, RecordRingMeta_size in *.
  split; [done|]. split; [done|]. f_equal. rewrite u64_small by lia. lia.
Qed.

(** Initializing the ring of a segment just created from such options. *)
Lemma created_ring_new sys o nm w h w1 hdr :
  options_typed o → 2 ≤ lo_record_max o → logger_stride o ≠ 0 →
  created mx_new sys (make_create_options o nm) w h w1 hdr →
  let v := log_view (w_next w) (lo_record_max o) (logger_stride o) in
  ∃ w2 r, ring_initialize mx_new (w_next w) (lo_record_max o) (lo_max_payload o) w1 = Some (Value v, w2) ∧
    writes (eq (w_next w)) w1 w2 ∧ ring_segment (w_next w) (lo_record_max o) (logger_stride o) w2 ∧
    new_ring v (lo_record_max o) (lo_max_payload o) w2 r.
Proof.
  intros Ht Hr Hs C v. pose proof (created_ring_header sys o nm w h w1 hdr Ht C) as Hh.
  pose proof (create_options_size o nm Ht) as Esz. pose proof (payload_size_for_nonneg (lo_record_max o) (logger_stride o)).
  apply (ring_initialize_new mx_new (w_next w) (lo_record_max o) (lo_max_payload o) w1 _ _
    (cr_object _ _ _ _ _ _ _ C) Hh eq_refl); try done.
  - rewrite length_replicate, Esz. unfold SHMFX_HEADER_SIZE, RecordRingMeta_size. fold (logger_stride o). lia.
  - by apply Forall_replicate.
  - destruct Ht; lia.
  - apply Ht.
Qed.

(** When the stride wraps to zero, the segment is created for nothing. *)
Lemma created_ring_zero sys o nm w h w1 hdr :
  options_typed o → logger_stride o = 0 → created mx_new sys (make_create_options o nm) w h w1 hdr →
  ring_initialize mx_new (w_next w) (lo_record_max o) (lo_max_payload o) w1 = Some (Error CorruptedHeader, w1).
Proof.
  intros Ht Hs C. destruct (created_ring_header sys o nm w h w1 hdr Ht C) as (_&Hmd&Hpl).
  pose proof (create_options_size o nm Ht) as Esz. rewrite Hs in *.
  assert (EP : payload_size_for (lo_record_max o) 0 = 0) by (unfold payload_size_for; by rewrite orb_true_r).
  unfold ring_initialize, ring_meta, seg_span, body_bytes.
  rewrite (seg_lookup mx_new w1 _ _ (cr_object _ _ _ _ _ _ _ C)). cbn [sg_header sg_body]. rewrite Hmd, Hpl, EP in *.
  cbn [fst snd]. unfold SHMFX_HEADER_SIZE, RecordRingMeta_size in *. set (b := replicate (Z.to_nat _) 0).
  assert (Hb : Z.of_nat (length b) = 64) by (unfold b; rewrite length_replicate, Esz; done).
  destruct (load_bytes_is_Some (256 - 256) 64 b) as [mb ->]; [lia|lia|lia|].
  destruct (load_bytes_is_Some (256 + 64 - 256) 0 b) as [pb ->]; [lia|lia|lia|].
  cbn [fmap option_fmap option_map mbind option_bind]. unfold initialize. fold (logger_stride o). by rewrite Hs, EP.
Qed.

(** When the segment is new, [init] gives a logger on an empty ring of the requested geometry. *)
Lemma init_new sys o w h w1 :
  world_ok mx_new w → options_typed o → valid_service_name (lo_service_name o) = true →
  2 ≤ lo_record_max o → lo_max_payload o ≠ 0 → logger_stride o ≠ 0 →
  create mx_new sys (make_create_options o (logger_name sys o)) w = (Value h, w1) →
  let v := log_view (w_next w) (lo_record_max o) (logger_stride o) in
  ∃ w2 r, init mx_new sys o w = Some (Value (mkLogger h v (logger_name sys o)), w2) ∧
       writes (eq (w_next w)) w1 w2 ∧
       ring_segment (w_next w) (lo_record_max o) (logger_stride o) w2 ∧
       new_ring v (lo_record_max o) (lo_max_payload o) w2 r.
Proof.
  intros H Ht Hsv Hr Hm Hs Ec v. set (nm := logger_name sys o) in *.
  assert (Hv : valid_name nm).
  { unfold create in Ec. unfold valid_name. cbn [co_name make_create_options] in Ec.
    by destruct (parse_and_validate_name nm). }
  assert (Hc : create_outcome mx_new sys (make_create_options o nm) w (Value h, w1)).
  { rewrite <-Ec. apply create_cases; [done|]. by apply create_options_nonneg. }
  destruct Hc as (_&_&hdr&C).
  destruct (created_ring_new sys o nm w h w1 hdr Ht Hr Hs C) as (w2&r&Ei&Hwr&Hseg&Hin).
  exists w2, r. split; [|by split_and!]. unfold init. rewrite Hsv, (proj2 (Z.eqb_neq _ _)), (proj2 (Z.eqb_neq _ _)) by lia.
  cbn [negb orb]. fold nm. rewrite (proj2 (Z.leb_gt _ _)) by by apply valid_name_length.
  rewrite Ec, (cr_handle _ _ _ _ _ _ _ C). cbn [base_ mbind option_bind]. by rewrite Ei.
Qed.

Lemma init_fresh sys o w h w1 room :
  world_ok mx_new w → options_typed o → valid_service_name (lo_service_name o) = true →
  2 ≤ lo_record_max o → lo_max_payload o ≠ 0 → logger_stride o ≠ 0 → room + lo_record_max o < 2 ^ 63 →
  create mx_new sys (make_create_options o (logger_name sys o)) w = (Value h, w1) →
  let v := log_view (w_next w) (lo_record_max o) (logger_stride o) in
  ∃ w2, init mx_new sys o w = Some (Value (mkLogger h v (logger_name sys o)), w2) ∧
       writes (eq (w_next w)) w1 w2 ∧
       ring_segment (w_next w) (lo_record_max o) (logger_stride o) w2 ∧
       ring_in v (lo_record_max o) (logger_stride o) room w2 (mkFifo [] 0).
Proof.
  intros H Ht Hsv Hr Hm Hs Hroom Ec v.
  destruct (init_new sys o w h w1 H Ht Hsv Hr Hm Hs Ec) as (w2&r&E&Hw&Hseg&Hn).
  exists w2. split; [exact E|]. split; [done|]. split; [done|]. by apply (new_ring_in _ _ (lo_max_payload o) room w2 r).
Qed.

(** ** Failed initialization *)

(** A good world with the same open descriptors, mappings and heartbeat owners and no new name. *)
Record no_leak (w w' : W) : Prop := {
  nl_ok : world_ok mx_new w';
  nl_resources : resources w' = resources w;
  nl_heartbeat : hb_headers (w_heartbeat w') = hb_headers (w_heartbeat w);
  nl_names nm : w_names w' !! nm = w_names w !! nm ∨ w_names w' !! nm = None;
}.

Lemma no_leak_trans w1 w2 w3 : no_leak w1 w2 → no_leak w2 w3 → no_leak w1 w3.
Proof.
  intros [_ Hr Hh Hn] [Hok' Hr' Hh' Hn']. split; [done|congruence|congruence|].
  intros nm. destruct (Hn' nm) as [->|]; [apply Hn|by right].
Qed.

Lemma no_leak_refl w : world_ok mx_new w → no_leak w w.
Proof. intros H. split; try done. by left. Qed.

Lemma no_leak_unchanged w w' : world_ok mx_new w' → unchanged mx_new w w' → no_leak w w'.
Proof. intros H [Hn _ _ Hr Hh _]. split; try done. intros nm. left. by rewrite Hn. Qed.

Lemma no_leak_gc sys w : world_ok mx_new w → no_leak w (gc mx_new sys w).
Proof.
  intros H. pose proof (gc_pass mx_new sys w H) as P.
  split; [apply P|apply P|by rewrite (ps_heartbeat _ _ _ _ P)|apply P].
Qed.

(** Attaching and giving the handle back. *)
Lemma no_leak_detach sys id size w :
  world_ok mx_new w →
  no_leak w (handle_reset mx_new sys (mkShmHandle (Some id) size true ReadWrite false) (attached ReadWrite id w)).
Proof.
  intros H. split.
  - apply handle_reset_ok. by apply attached_ok.
  - rewrite handle_reset_visitor. unfold resources. cbn. f_equal; lia.
  - done.
  - intros nm. by left.
Qed.

Lemma ring_initialize_error id cap mp w e w' :
  ring_initialize mx_new id cap mp w = Some (Error e, w') → w' = w.
Proof.
  unfold ring_initialize. destruct (ring_meta mx_new id w) as [meta|]; [|done]. cbn [mbind option_bind].
  destruct (seg_span mx_new _ _ id w) as [span|]; [|done]. cbn [mbind option_bind].
  destruct (initialize _ _ _ _ _) as [[[[r|e'] m'] p']|]; cbn [mbind option_bind]; [|by intros [= _ <-]|done].
  destruct (put_span mx_new _ _ id w) as [w1|]; [|done]. cbn [mbind option_bind].
  by destruct (put_span mx_new _ _ id w1).
Qed.

(** Destroying a new segment and ending its handle. *)
Lemma no_leak_destroy sys o w h w1 hdr :
  world_ok mx_new w → world_ok mx_new w1 → fail_unlink sys (co_name o) = None → valid_name (co_name o) →
  decode_state (state hdr) = Some Active → created mx_new sys o w h w1 hdr →
  no_leak w (handle_reset mx_new sys h (destroy mx_new sys (co_name o) w1).2).
Proof.
  intros H H1 Hf Hv Hst C. set (nm := co_name o) in *. set (w2 := (destroy mx_new sys nm w1).2).
  assert (En : w_names w1 !! nm = Some (w_next w)) by (rewrite (cr_names _ _ _ _ _ _ _ C); apply lookup_insert_eq).
  destruct (destroy_ok mx_new sys nm w1 H1) as [H2 _]. fold w2 in H2.
  set (w1' := set_names (delete nm (w_names w1)) w1).
  assert (Hsame : same_but_reg w1' w2).
  { unfold w2, destroy. unfold valid_name in Hv. destruct (parse_and_validate_name nm); [|done].
    pose proof (ok_unlink mx_new sys nm w1 H1) as Hu. unfold shm_unlink in *. rewrite Hf, En in *.
    case_bool_decide; [done|]. cbn [snd] in *. by apply unregister_same. }
  assert (Eh : headers w2 !! w_next w = Some (co_total_size o, hdr)).
  { rewrite (sb_headers _ _ Hsame). unfold w1', headers. cbn. by rewrite lookup_fmap, (cr_object _ _ _ _ _ _ _ C). }
  apply headers_lookup in Eh as (m&bd&Eo). rewrite (cr_handle _ _ _ _ _ _ _ C).
  rewrite (handle_reset_plain mx_new sys _ (w_next w)); [|done..|by rewrite Eo|by rewrite (seg_lookup mx_new w2 _ _ Eo); cbn; rewrite Hst].
  pose proof (cr_resources _ _ _ _ _ _ _ C) as [= Hfd Hmp]. split.
  - apply ok_close, ok_munmap, ok_upd_header. by apply ok_drop_heartbeat.
  - unfold resources, drop_heartbeat. cbn. rewrite (sb_fds _ _ Hsame), (sb_maps _ _ Hsame). cbn. f_equal; lia.
  - cbn. rewrite hb_headers_unregister, (sb_heartbeat _ _ Hsame). cbn. rewrite (cr_heartbeat _ _ _ _ _ _ _ C).
    rewrite filter_app, filter_all.
    + cbn. rewrite decide_False by (intros Hx; by apply Hx). apply app_nil_r.
    + intros p Hp ->. pose proof (wo_heartbeat _ _ H _ Hp). lia.
  - intros nm'. left. cbn. rewrite (sb_names _ _ Hsame). cbn. rewrite (cr_names _ _ _ _ _ _ _ C).
    by rewrite delete_insert_id by apply C.
Qed.

End lemmas.

(** ** Calls of a logger *)

Inductive log_kind := Text (message : bytes) | BinaryData (data : bytes) | Format (fmt : option (option bytes)).

(** A call, with what it meets: the clock, the spurious failures of its compare-and-swaps and the
    thread's format buffer. *)
Record log_call := mkLogCall {
  lc_sys : Sys;
  lc_spurious : nat → bool;
  lc_level : LogLevel;
  lc_kind : log_kind;
  lc_buffer : bytes;
}.

(** What a call asks the ring to store: type, flags, time stamp and payload, or why it does not. *)
Definition call_record (c : log_call) : Result (Z * Z * Z * bytes) :=
  let time := monotonic_record_time (sys_os (lc_sys c)) in
  let level := LogLevel_value (lc_level c) in
  match lc_kind c with
  | Text message => Value (level, 0, time, message)
  | BinaryData data => Value (level, Binary, time, data)
  | Format None => Error InvalidName
  | Format (Some None) => Error CorruptedHeader
  | Format (Some (Some text)) =>
      if 2 ^ 31 <=? Z.of_nat (length text) then Error CorruptedHeader
      else if 1024 <=? Z.of_nat (length text) then Value (level, Truncated, time, take 1023 text)
      else Value (level, 0, time, text)
  end.

(** The call on a queue of the given capacity and stride. *)
Definition fifo_call (cap stride : Z) (c : log_call) (q : Fifo) : Result unit * Fifo :=
  match call_record c with
  | Error e => (Error e, q)
  | Value (ty, fl, us, p) => fifo_push cap (stored_msg stride ty fl us p) q
  end.

Fixpoint fifo_calls (cap stride : Z) (cs : list log_call) (q : Fifo) : list (Result unit) * Fifo :=
  match cs with
  | [] => ([], q)
  | c :: cs' =>
      let r := fifo_call cap stride c q in
      let s := fifo_calls cap stride cs' r.2 in (r.1 :: s.1, s.2)
  end.

(** A call whose payload is bytes and whose compare-and-swaps do not all fail spuriously. *)
Definition call_ok (c : log_call) : Prop :=
  (∃ n, (n < MPSC_CAS_RETRY_BUDGET)%nat ∧ lc_spurious c n = false) ∧
  match lc_kind c with
  | Text p | BinaryData p | Format (Some (Some p)) => is_bytes p
  | Format _ => True
  end.

Section calls.
Context {Mx : Type} `{!RobustMutex Mx} (mx_new : Mx).

Abbreviation W := (World Mx).
Implicit Types w : W.

Definition run_call (l : Logger) (c : log_call) (w : W) : option (Result unit * W) :=
  match lc_kind c with
  | Text message => log_text mx_new (lc_sys c) (lc_spurious c) l (lc_level c) message w
  | BinaryData data => log_binary mx_new (lc_sys c) (lc_spurious c) l (lc_level c) data w
  | Format fmt => vlog mx_new (lc_sys c) (lc_spurious c) l (lc_level c) fmt (lc_buffer c) w
  end.

Fixpoint run_calls (l : Logger) (cs : list log_call) (w : W) : option (list (Result unit) * W) :=
  match cs with
  | [] => Some ([], w)
  | c :: cs' =>
      r ← run_call l c w;
      q ← run_calls l cs' r.2;
      Some (r.1 :: q.1, q.2)
  end.

(** The formatted bytes that are published. *)
Lemma vsnprintf_published buffer text :
  let '(rc, buffer') := vsnprintf buffer kFormatBufferBytes (Some text) in
  Z.of_nat (length text) < 2 ^ 31 →
  rc = Z.of_nat (length text) ∧ take (Z.to_nat (Z.min rc (kFormatBufferBytes - 1))) buffer' = take 1023 text.
Proof.
  unfold vsnprintf, kFormatBufferBytes. intros Hl. rewrite (proj2 (Z.ltb_lt _ _)) by done. split; [done|].
  change (Z.to_nat (1024 - 1)) with 1023%nat.
  rewrite take_app_le by (rewrite length_take; lia). apply take_ge. rewrite length_take. lia.
Qed.

#[local] Opaque try_push on_ring.

Lemma run_call_record l c w :
  run_call l c w =
  match call_record c with
  | Error e => Some (Error e, w)
  | Value (ty, fl, us, p) => on_ring mx_new (ring_ l) (try_push (lc_spurious c) ty fl us p) w
  end.
Proof.
  unfold run_call, call_record. destruct (lc_kind c) as [m|d|[[text|]|]]; [reflexivity|reflexivity| |reflexivity|reflexivity].
  unfold vlog. pose proof (vsnprintf_published (lc_buffer c) text) as Hv.
  assert (Erc : (vsnprintf (lc_buffer c) kFormatBufferBytes (Some text)).1 =
                if Z.of_nat (length text) <? 2 ^ 31 then Z.of_nat (length text) else -1) by done.
  destruct (vsnprintf (lc_buffer c) kFormatBufferBytes (Some text)) as [rc buf]. cbn [fst] in Erc.
  destruct (Z.ltb_spec (Z.of_nat (length text)) (2 ^ 31)) as [Hl|Hl].
  - destruct (Hv Hl) as [-> ->]. rewrite (proj2 (Z.ltb_ge _ 0)), (proj2 (Z.leb_gt (2 ^ 31) _)) by lia.
    unfold publish, kFormatBufferBytes. destruct (Z.leb_spec 1024 (Z.of_nat (length text))); [done|].
    by rewrite take_ge by lia.
  - subst rc. by rewrite (proj2 (Z.leb_le (2 ^ 31) _)) by lia.
Qed.

#[local] Transparent try_push on_ring.

Lemma monotonic_record_time_range os : 0 ≤ monotonic_record_time os < 2 ^ 64.
Proof. unfold monotonic_record_time, monotonic_ns. destruct (clock os) as [[]|]; [apply u64_range|done]. Qed.

Lemma call_record_typed c ty fl us p :
  call_ok c → call_record c = Value (ty, fl, us, p) → push_typed ty fl us ∧ is_bytes p.
Proof.
  intros [_ Hb]. unfold call_record, push_typed.
  pose proof (monotonic_record_time_range (sys_os (lc_sys c))).
  assert (0 ≤ LogLevel_value (lc_level c) < 2 ^ 16) by (by destruct (lc_level c)).
  destruct (lc_kind c) as [m|d|[[text|]|]]; try done; [by intros [= <- <- <- <-]..|].
  destruct (_ <=? _); [done|]. destruct (_ <=? _); intros [= <- <- <- <-]; [|done].
  split; [done|]. by apply Forall_take.
Qed.

(** Calls on a logger are the calls on its queue; they write nothing but the body of its segment. *)
Lemma run_calls_queue l cap stride room cs w q :
  ring_in (ring_ l) cap stride room w q → Z.of_nat (length cs) ≤ room → Forall call_ok cs →
  let spec := fifo_calls cap stride cs q in
  ∃ w', run_calls l cs w = Some (spec.1, w') ∧
        writes (eq (rv_object (ring_ l))) w w' ∧
        ring_in (ring_ l) cap stride (room - Z.of_nat (length cs)) w' spec.2.
Proof.
  intros Hin Hroom Hcs. revert room w q Hin Hroom. induction Hcs as [|c cs Hc _ IH]; intros room w q Hin Hroom.
  { exists w. cbn. rewrite Z.sub_0_r. split; [done|]. split; [apply writes_refl|done]. }
  cbn [run_calls fifo_calls fst snd length] in *. rewrite run_call_record. unfold fifo_call.
  destruct (call_record c) as [[[[ty fl] us] p]|e] eqn:Ec.
  - destruct (call_record_typed c ty fl us p Hc Ec) as [Hty Hp].
    destruct (ring_in_push mx_new (ring_ l) cap stride room w q (lc_spurious c) ty fl us p)
      as (w1&E&Hw1&Hin'); [apply Hc|done|lia|done|done|]. rewrite E. cbn [mbind option_bind fst snd].
    destruct (IH (room - 1) _ _ Hin') as (w'&E'&Hw'&Hin2); [lia|]. rewrite E'. cbn [mbind option_bind fst snd].
    exists w'. split; [done|]. split; [by eapply writes_trans|].
    by replace (room - Z.of_nat (S (length cs))) with (room - 1 - Z.of_nat (length cs)) by lia.
  - destruct (IH room w q Hin) as (w'&E'&Hw'&Hin2); [lia|]. cbn [mbind option_bind fst snd]. rewrite E'.
    cbn [mbind option_bind fst snd]. exists w'. split; [done|]. split; [done|].
    apply (ring_in_room _ _ _ (room - Z.of_nat (length cs))); [lia|done].
Qed.

(** [lost_count] reads the counter of the queue. *)
Lemma logger_lost_queue l cap stride room w q :
  ring_in (ring_ l) cap stride room w q → logger_lost_count mx_new l w = Some (f_lost q).
Proof.
  intros [(r&Hr&[_ Hrep]&_) _]. unfold logger_lost_count. rewrite (load_ring_at mx_new _ w r Hr). cbn.
  f_equal. exact (rr_lost _ _ Hrep).
Qed.

End calls.
