(* ===== verification/LogCenter.v ===== *)
(** * The logging consumer: [log_center.h], [log_center.cpp]

    Discovery of logging rings through the registry, attachment, draining into a sink, and the
    detaching of dead rings. The sink's own state is threaded through the drain. *)

From S2P Require Import Prelude Types Sync RingMem RingCells RingBytes RingProps.
From S2P Require Import Security Lifecycle Registry Manager ManagerInv Janitor ManagerOps ManagerSteps Contents SegmentRing Logger.

#[local] Opaque NSLOTS reg_map.

(** ** Records and options *)

Record LogRecord := mkLogRecord {
  source : bytes;
  level : LogLevel;
  lr_flags : Z;
  timestamp_ns : Z;
  lr_payload : bytes;
}.

Record LogCenterOptions := mkLogCenterOptions { prefix : bytes; lc_drain_batch : Z; scratch_bytes : Z }.

Definition default_center_options : LogCenterOptions := mkLogCenterOptions (str "/shmfx.log.") 256 4096.

Record AttachedRing := mkAttachedRing {
  ar_name : bytes;
  ar_handle : ShmHandle;
  ar_ring : RingView;
  remove_after_drain : bool;
}.

(** The sink acts on a state of type [S]. *)
Record LogCenter (S : Type) := mkLogCenter {
  options_ : LogCenterOptions;
  sink_ : S → LogRecord → S;
  rings_ : list AttachedRing;
  backoff_ : AdaptiveBackoff.t;
}.
Arguments mkLogCenter {_} _ _ _ _.
Arguments options_ {_} _.
Arguments sink_ {_} _.
Arguments rings_ {_} _.
Arguments backoff_ {_} _.

(** [entry_name] is the function of the registry; [ring_meta] the one of the logger. *)

Definition decode_level (type : Z) : LogLevel :=
  if type <=? LogLevel_value Fatal then
    if type =? 0 then Trace else if type =? 1 then Debug else if type =? 2 then Info
    else if type =? 3 then Warn else if type =? 4 then LevelError else Fatal
  else Info.

Definition segment_dead (hdr : ShmHeader) : bool := bool_decide (decode_state (state hdr) = Some Dead).

Section center.
Context {Mx : Type} `{!RobustMutex Mx} (mx_new : Mx) {S : Type}.

Abbreviation W := (World Mx).
Abbreviation Center := (LogCenter S).
Implicit Types (w : W) (c : Center) (s : S).

Definition no_sink : S → LogRecord → S := λ s _, s.

(** The constructors. *)
Definition make_center (o : LogCenterOptions) : Center := mkLogCenter o no_sink [] AdaptiveBackoff.fresh.

(** An empty [std::function] is replaced by a sink that does nothing. *)
Definition set_sink (sink : option (S → LogRecord → S)) (c : Center) : Center :=
  mkLogCenter (options_ c) (default no_sink sink) (rings_ c) (backoff_ c).

Definition set_rings (rs : list AttachedRing) (c : Center) : Center :=
  mkLogCenter (options_ c) (sink_ c) rs (backoff_ c).

Definition attached_count (c : Center) : Z := Z.of_nat (length (rings_ c)).

(** The destructor of a handle that goes out of scope on an early return is its [reset]. *)
Definition attach_ring (sys : Sys) (nm : bytes) (c : Center) (w : W) : option (Result unit * Center * W) :=
  if existsb (λ r, bool_decide (ar_name r = nm)) (rings_ c) then Some (Value tt, c, w)
  else
    match attach mx_new sys nm ReadWrite w with
    | (Error e, w) => Some (Error e, c, w)
    | (Value h, w) =>
        id ← base_ h;
        let hdr := sg_header (seg mx_new id w) in
        if (negb (segment_type hdr =? SegmentType_value RecordRing) ||
            ((metadata hdr).2 <? RecordRingMeta_size))%bool
        then Some (Error CorruptedHeader, c, handle_reset mx_new sys h w)
        else
          ring ← ring_bind mx_new id w;
          match ring with
          | Error e => Some (Error e, c, handle_reset mx_new sys h w)
          | Value ring => Some (Value tt, set_rings (rings_ c ++ [mkAttachedRing nm h ring false]) c, w)
          end
    end.

(** The loop of [discover_once]: it stops at the first error. *)
Fixpoint discover_loop (sys : Sys) (es : list RegistryEntry) (c : Center) (w : W)
    : option (Result unit * Center * W) :=
  match es with
  | [] => Some (Value tt, c, w)
  | e :: es' =>
      if negb (e_segment_type e =? SegmentType_value RecordRing) then discover_loop sys es' c w
      else
        r ← attach_ring sys (entry_name e) c w;
        match r with
        | (Error err, c, w) => Some (Error err, c, w)
        | (Value _, c, w) => discover_loop sys es' c w
        end
  end.

Definition discover_once (sys : Sys) (c : Center) (w : W) : option (Result unit * Center * W) :=
  let w := gc mx_new sys (instance mx_new sys w) in
  let '(es, w) := registry_list mx_new sys (prefix (options_ c)) w in
  discover_loop sys es c w.

(** The loop of [drain_ring], [n] records left in the batch. *)
Fixpoint drain_loop (sink : S → LogRecord → S) (nm : bytes) (v : RingView) (n : nat) (scratch : bytes)
    (s : S) (w : W) : option (Z * S * W) :=
  match n with
  | O => Some (0, s, w)
  | Datatypes.S n' =>
      r ← on_ring mx_new v (try_pop scratch) w;
      match r with
      | (None, w) => Some (0, s, w)
      | (Some (popped, scratch), w) =>
          let record := mkLogRecord nm (decode_level (p_type popped)) (p_flags popped) (p_user popped)
                          (take (Z.to_nat (p_copied_size popped)) scratch) in
          q ← drain_loop sink nm v n' scratch (sink s record) w;
          let '(drained, s, w) := q in Some (1 + drained, s, w)
      end
  end.

Definition drain_ring (c : Center) (r : AttachedRing) (s : S) (w : W)
    : option (AttachedRing * Z * S * W) :=
  id ← base_ (ar_handle r);
  let r := if segment_dead (sg_header (seg mx_new id w))
           then mkAttachedRing (ar_name r) (ar_handle r) (ar_ring r) true else r in
  let scratch := replicate (Z.to_nat (scratch_bytes (options_ c))) 0 in
  q ← drain_loop (sink_ c) (ar_name r) (ar_ring r) (Z.to_nat (lc_drain_batch (options_ c))) scratch s w;
  let '(drained, s, w) := q in Some (r, drained, s, w).

(** The loop of [drain_once]: the rings with their marks, the sum, and the rest. *)
Fixpoint drain_rings (c : Center) (rs : list AttachedRing) (drained : Z) (s : S) (w : W)
    : option (list AttachedRing * Z * S * W) :=
  match rs with
  | [] => Some ([], drained, s, w)
  | r :: rs' =>
      q ← drain_ring c r s w;
      let '(r, n, s, w) := q in
      q' ← drain_rings c rs' (u32 (drained + n)) s w;
      let '(rs, drained, s, w) := q' in Some (r :: rs, drained, s, w)
  end.

(** [remove_if] moves the rings that stay over those that go and [erase] destroys the rest, so
    the handles of the removed rings end, in their order. *)
Definition drain_once (sys : Sys) (c : Center) (s : S) (w : W) : option (Z * Center * S * W) :=
  q ← drain_rings c (rings_ c) 0 s w;
  let '(rs, drained, s, w) := q in
  let w := fold_left (λ w r, handle_reset mx_new sys (ar_handle r) w)
             (filter (λ r, remove_after_drain r = true) rs) w in
  Some (drained, set_rings (filter (λ r, remove_after_drain r = false) rs) c, s, w).

(** The pause of an idle iteration, or none. *)
Definition poll_once (sys : Sys) (c : Center) (s : S) (w : W)
    : option (Z * option AdaptiveBackoff.action * Center * S * W) :=
  q ← discover_once sys c w;
  let '(_, c, w) := q in
  q' ← drain_once sys c s w;
  let '(drained, c, s, w) := q' in
  if drained =? 0 then
    let '(p, b) := AdaptiveBackoff.idle (backoff_ c) in
    Some (drained, Some p, mkLogCenter (options_ c) (sink_ c) (rings_ c) b, s, w)
  else
    Some (drained, None,
          mkLogCenter (options_ c) (sink_ c) (rings_ c) (AdaptiveBackoff.reset (backoff_ c)), s, w).

(** The destructor. *)
Definition center_end (sys : Sys) (c : Center) (w : W) : W :=
  fold_left (λ w r, handle_reset mx_new sys (ar_handle r) w) (rings_ c) w.

(** A defaulted move: the rings, with their handles, go over to the new center and the source keeps
    none; an assignment first ends the rings the center had. *)
Definition center_move (other : Center) : Center := other.

Definition center_move_assign (sys : Sys) (same : bool) (this other : Center) (w : W) : Center * W :=
  if same then (this, w) else (center_move other, center_end sys this w).

End center.

(** ** Lemmas *)

Section lemmas.
Context {Mx : Type} `{!RobustMutex Mx, !RobustMutexLaws Mx} (mx_new : Mx) {S : Type}.

Abbreviation W := (World Mx).
Abbreviation Center := (LogCenter S).
Abbreviation world_ok := (world_ok mx_new).
Implicit Types (w : W) (c : Center).

(** *** The invariant of a center *)

(** An attached ring holds a reference without owning, and maps the segment of its name. *)
Record ring_ok (w : W) (r : AttachedRing) : Prop := {
  ro_handle : ∃ size, ar_handle r = mkShmHandle (Some (rv_object (ar_ring r))) size true ReadWrite false;
  ro_unmarked : remove_after_drain r = false;
  ro_name : ∃ s, w_objs w !! rv_object (ar_ring r) = Some s ∧ segment_name (sg_header s) = ar_name r;
}.

Record center_ok (c : Center) (w : W) : Prop := {
  cn_rings : Forall (ring_ok w) (rings_ c);
  cn_names : NoDup (ar_name <$> rings_ c);
}.

(** Open descriptors and mappings that do not belong to a ring of the center. *)
Definition balance (c : Center) (w : W) : Z * Z := (w_fds w - attached_count c, w_maps w - attached_count c).

(** What discovery does: it binds no names, it only adds rings that bind, each to the object its
    name denoted at the start, and everything stays well formed. *)
Record discovers (c : Center) (w : W) (c' : Center) (w' : W) : Prop := {
  ds_ok : world_ok w';
  ds_laid_out : laid_out w';
  ds_center : center_ok c' w';
  ds_evolves : evolves w w';
  ds_contents : contents_kept w w';
  ds_balance : balance c' w' = balance c w;
  ds_heartbeat : hb_headers (w_heartbeat w') = hb_headers (w_heartbeat w);
  ds_sub nm : w_names w' !! nm = w_names w !! nm ∨ w_names w' !! nm = None;
  ds_rings : ∃ new, c' = set_rings (rings_ c ++ new) c ∧ Forall (λ r, view_bound mx_new w' (ar_ring r)) new ∧
                    Forall (λ r, w_names w !! ar_name r = Some (rv_object (ar_ring r))) new;
}.

Lemma evolves_object w w' id s :
  evolves w w' → w_objs w !! id = Some s →
  ∃ s', w_objs w' !! id = Some s' ∧ immutable_fields (sg_header s') = immutable_fields (sg_header s).
Proof.
  intros Hev Eo. destruct (Hev id (sg_size s) (sg_header s)) as (h'&Eh'&Himm&_);
    [unfold headers; by rewrite lookup_fmap, Eo|].
  apply headers_lookup in Eh' as (m&b&Eo'). by exists (mkSegment (sg_size s) h' m b).
Qed.

Lemma ring_ok_evolves w w' r : evolves w w' → ring_ok w r → ring_ok w' r.
Proof.
  intros Hev [H1 H2 (s&Eo&Hn)]. split; [done|done|].
  destruct (evolves_object w w' _ s Hev Eo) as (s'&Eo'&Himm). exists s'. split; [done|].
  rewrite <-Hn. by apply (immutable_janitor _ _ 0).
Qed.

Lemma center_ok_evolves c w w' : evolves w w' → center_ok c w → center_ok c w'.
Proof.
  intros Hev [H1 H2]. split; [|done]. eapply Forall_impl; [exact H1|]. intros r. by apply ring_ok_evolves.
Qed.

Lemma set_rings_id c : set_rings (rings_ c) c = c.
Proof. by destruct c. Qed.

Lemma discovers_world c w w' :
  world_ok w' → laid_out w → center_ok c w → evolves w w' → contents_kept w w' → resources w' = resources w →
  hb_headers (w_heartbeat w') = hb_headers (w_heartbeat w) →
  (∀ nm, w_names w' !! nm = w_names w !! nm ∨ w_names w' !! nm = None) → discovers c w c w'.
Proof.
  intros H Hl Hc Hev K [= Hf Hm] Hh Hn. split; try done.
  - by apply (laid_out_kept w).
  - by apply (center_ok_evolves c w).
  - unfold balance. by rewrite Hf, Hm.
  - exists []. rewrite app_nil_r, set_rings_id. split; [done|]. by split; constructor.
Qed.

Lemma discovers_trans c1 w1 c2 w2 c3 w3 :
  discovers c1 w1 c2 w2 → discovers c2 w2 c3 w3 → discovers c1 w1 c3 w3.
Proof.
  intros D1 D2. split; try apply D2.
  - etrans; [apply D1|apply D2].
  - etrans; [apply D1|apply D2].
  - rewrite (ds_balance _ _ _ _ D2). apply D1.
  - rewrite (ds_heartbeat _ _ _ _ D2). apply D1.
  - intros nm. destruct (ds_sub _ _ _ _ D2 nm) as [->|]; [apply D1|by right].
  - destruct (ds_rings _ _ _ _ D1) as (n1&->&B1&N1). pose proof (ds_contents _ _ _ _ D2) as K2.
    destruct (ds_rings _ _ _ _ D2) as (n2&->&B2&N2). exists (n1 ++ n2). split; [cbn; by rewrite (assoc (++))|].
    split; apply Forall_app; (split; [|try done]).
    + eapply Forall_impl; [exact B1|]. intros r. by apply view_bound_kept.
    + done.
    + eapply Forall_impl; [exact N2|]. intros r Er. destruct (ds_sub _ _ _ _ D1 (ar_name r)); congruence.
Qed.

Lemma discovers_gc sys c w :
  world_ok w → laid_out w → center_ok c w → discovers c w c (gc mx_new sys w).
Proof.
  intros H Hl Hc. pose proof (gc_pass mx_new sys w H) as P.
  apply discovers_world; [apply P|done|done|apply P| |apply P|by rewrite (ps_heartbeat _ _ _ _ P)|apply P].
  apply gc_contents, (reg_ready_constructed mx_new w), H.
Qed.

(** Attaching and detaching again. *)
Lemma discovers_detach sys c id size w :
  world_ok w → laid_out w → center_ok c w →
  discovers c w c (handle_reset mx_new sys (mkShmHandle (Some id) size true ReadWrite false) (attached ReadWrite id w)).
Proof.
  intros H Hl Hc. pose proof (no_leak_detach mx_new sys id size w H) as N.
  destruct (attached_ok mx_new ReadWrite id w H) as [Ha Hev]. apply discovers_world; try done; try apply N.
  - etrans; [exact Hev|]. by apply handle_reset_ok.
  - etrans; [by apply attached_contents|]. apply handle_reset_contents; [|done].
    apply (reg_ready_constructed mx_new _ (wo_reg _ _ Ha)).
Qed.

(** *** Attaching a ring *)

Lemma attached_object id s w :
  w_objs w !! id = Some s →
  ∃ s', w_objs (attached ReadWrite id w) !! id = Some s' ∧ sg_size s' = sg_size s ∧
        validate_header (sg_header s') (sg_size s') = validate_header (sg_header s) (sg_size s) ∧
        segment_name (sg_header s') = segment_name (sg_header s).
Proof.
  intros Eo. eexists. split; [unfold attached, upd_header, upd_seg; cbn; by rewrite lookup_alter_eq, Eo|].
  by destruct s.
Qed.

Lemma names_elem c nm : existsb (λ r, bool_decide (ar_name r = nm)) (rings_ c) = true ↔ nm ∈ ar_name <$> rings_ c.
Proof.
  rewrite existsb_exists, list_elem_of_fmap. split.
  - intros (r&Hr&Hd). apply bool_decide_eq_true in Hd as <-. exists r. split; [done|]. by apply list_elem_of_In.
  - intros (r&->&Hr). exists r. split; [by apply list_elem_of_In|]. by apply bool_decide_eq_true.
Qed.

Lemma discovers_attach sys nm c w :
  world_ok w → laid_out w → center_ok c w →
  ∃ res c' w', attach_ring mx_new sys nm c w = Some (res, c', w') ∧ discovers c w c' w' ∧
               (res = Value tt → nm ∈ ar_name <$> rings_ c').
Proof.
  intros H Hl Hc. assert (Hid : discovers c w c w) by (apply discovers_world; try done; by left).
  unfold attach_ring. destruct (existsb _ _) eqn:Eex; [exists (Value tt), c, w; split_and!; try done; by rewrite <-names_elem|].
  assert (Hni : nm ∉ ar_name <$> rings_ c) by (rewrite <-names_elem, Eex; done).
  destruct (parse_and_validate_name nm) as [pn|] eqn:Ep.
  2: { unfold attach. rewrite Ep. by exists (Error e), c, w. }
  destruct (attach_world mx_new sys nm ReadWrite w H) as (H1&_&Hm); [unfold valid_name; by rewrite Ep|].
  set (w1 := if bool_decide (nm = REGISTRY_NAME) then w else gc mx_new sys w) in *.
  assert (D1 : discovers c w c w1) by (unfold w1; case_bool_decide; [done|by apply discovers_gc]).
  destruct Hm as [(id&sg&A&->)|(e&->&_)]; [|by exists (Error e), c, w1].
  cbn [base_ mbind option_bind]. set (h := mkShmHandle _ _ _ _ _). set (w2 := attached ReadWrite id w1).
  pose proof (discovers_trans _ _ _ _ _ _ D1
    (discovers_detach sys c id (sg_size sg) w1 H1 (ds_laid_out _ _ _ _ D1) (ds_center _ _ _ _ D1))) as D3.
  fold h w2 in D3. destruct (attached_object id sg w1 (at_object _ _ _ _ _ _ A)) as (s2&Eo2&Hsz&Hv&Hn). fold w2 in Eo2.
  rewrite (at_valid _ _ _ _ _ _ A) in Hv. rewrite (at_own_name _ _ _ _ _ _ A) in Hn.
  rewrite (seg_lookup mx_new w2 id s2 Eo2).
  destruct (_ || _)%bool eqn:Et; [by exists (Error CorruptedHeader), c, (handle_reset mx_new sys h w2)|]. bool_prop.
  destruct (attached_ok mx_new ReadWrite id w1 H1) as [Hw2 Hev2]. fold w2 in Hw2, Hev2.
  assert (Hl2 : laid_out w2) by (apply (laid_out_kept w1); [by apply attached_contents|apply D1]).
  destruct (ring_bind_defined mx_new id w2 s2 Hl2 Eo2 Hv) as (r&Er&Hobj); [done|done|].
  rewrite Er. cbn [mbind option_bind]. destruct r as [v|e]; [|by exists (Error e), c, (handle_reset mx_new sys h w2)].
  exists (Value tt), (set_rings (rings_ c ++ [mkAttachedRing nm h v false]) c), w2. split; [done|].
  specialize (Hobj v eq_refl). split; [|intros _; cbn; rewrite fmap_app; apply elem_of_app; right; left].
  split; try done.
  - split; cbn [rings_ set_rings].
    + apply Forall_app. split; [apply (center_ok_evolves c w1); [done|apply D1]|].
      constructor; [|constructor]. split; cbn; [rewrite Hobj; by eexists|done|rewrite Hobj; by exists s2].
    + rewrite fmap_app. apply NoDup_app. split; [apply Hc|]. split; [|apply NoDup_singleton].
      intros x Hx Hx'. apply list_elem_of_singleton in Hx' as ->. by apply Hni.
  - etrans; [apply D1|exact Hev2].
  - etrans; [apply D1|]. by apply attached_contents.
  - rewrite <-(ds_balance _ _ _ _ D1). unfold balance, attached_count. cbn [rings_ set_rings].
    rewrite length_app. unfold w2. cbn. f_equal; lia.
  - rewrite <-(ds_heartbeat _ _ _ _ D1). done.
  - intros nm'. exact (ds_sub _ _ _ _ D1 nm').
  - eexists. split; [reflexivity|]. split; (constructor; [|constructor]); cbn; rewrite ?Hobj.
    + unfold view_bound. cbn. rewrite Hobj. by exists s2.
    + destruct (ds_sub _ _ _ _ D1 nm) as [<-|E]; [apply A|]. pose proof (at_name _ _ _ _ _ _ A). congruence.
Qed.

(** *** Discovery *)

Lemma discovers_names c w c' w' nm : discovers c w c' w' → nm ∈ ar_name <$> rings_ c → nm ∈ ar_name <$> rings_ c'.
Proof.
  intros D Hin. destruct (ds_rings _ _ _ _ D) as (new&->&_&_). cbn. rewrite fmap_app. apply elem_of_app. by left.
Qed.

Lemma discovers_loop sys es c w :
  world_ok w → laid_out w → center_ok c w →
  ∃ res c' w', discover_loop mx_new sys es c w = Some (res, c', w') ∧ discovers c w c' w' ∧
    (res = Value tt → ∀ e, e ∈ es → e_segment_type e = SegmentType_value RecordRing →
                      entry_name e ∈ ar_name <$> rings_ c').
Proof.
  revert c w. induction es as [|e es IH]; intros c w H Hl Hc; cbn [discover_loop].
  { exists (Value tt), c, w. split; [done|]. split; [apply discovers_world; try done; by left|]. by intros _ e ?%elem_of_nil. }
  destruct (Z.eqb_spec (e_segment_type e) (SegmentType_value RecordRing)) as [Et|Et]; cbn [negb].
  - destruct (discovers_attach sys (entry_name e) c w H Hl Hc) as (res&c1&w1&->&D1&Hres).
    cbn [mbind option_bind]. destruct res as [[]|err]; [|by exists (Error err), c1, w1].
    destruct (IH c1 w1) as (res&c2&w2&->&D2&Hres2); [apply D1..|].
    exists res, c2, w2. split; [done|]. split; [by eapply discovers_trans|].
    intros Hr x [->|Hx]%elem_of_cons Hx'; [|by apply Hres2].
    eapply discovers_names; [exact D2|]. by apply Hres.
  - destruct (IH c w H Hl Hc) as (res&c2&w2&->&D2&Hres2). exists res, c2, w2. split; [done|]. split; [done|].
    intros Hr x [->|Hx]%elem_of_cons Hx'; [done|by apply Hres2].
Qed.

Lemma discovers_once sys c w :
  world_ok w → laid_out w → center_ok c w →
  ∃ res c' w', discover_once mx_new sys c w = Some (res, c', w') ∧ discovers c w c' w' ∧
    (res = Value tt → ∀ nm e, entries mx_new (gc mx_new sys w) !! nm = Some e →
       e_segment_type e = SegmentType_value RecordRing →
       take (length (prefix (options_ c))) nm = prefix (options_ c) → nm ∈ ar_name <$> rings_ c').
Proof.
  intros H Hl Hc. pose proof (discovers_gc sys c w H Hl Hc) as D1. unfold discover_once.
  rewrite instance_ready by apply H. set (w1 := gc mx_new sys w) in *.
  rewrite registry_list_ready by apply (ds_ok _ _ _ _ D1).
  destruct (discovers_loop sys (list_spec (prefix (options_ c)) (rg_payload (registry_of mx_new w1)) (seq 0 NSLOTS)) c w1)
    as (res&c2&w2&->&D2&Hres); [apply D1..|].
  exists res, c2, w2. split; [done|]. split; [by eapply discovers_trans|].
  intros Hr nm e Ee Et Hp. pose proof (proj1 (proj2 (wo_reg _ _ (ds_ok _ _ _ _ D1)))) as Hwf.
  assert (Hin : e ∈ erase <$> list_spec (prefix (options_ c)) (rg_payload (registry_of mx_new w1)) (seq 0 NSLOTS)).
  { apply list_spec_elem; [done|]. by exists nm. }
  destruct (reg_map_entry _ _ _ Hwf Ee) as (_&Hn&_).
  apply list_elem_of_fmap in Hin as (x&->&Hx). rewrite <-Hn. by apply (Hres Hr x).
Qed.

(** Discovery adds only names it was asked for. *)
Lemma attach_ring_names sys nm c w res c' w' nm' :
  attach_ring mx_new sys nm c w = Some (res, c', w') → nm' ∈ ar_name <$> rings_ c' →
  nm' ∈ ar_name <$> rings_ c ∨ nm' = nm.
Proof.
  unfold attach_ring. destruct (existsb _ _); [intros [= _ <- _]; auto|].
  destruct (attach mx_new sys nm ReadWrite w) as [[h|e] w1]; [|intros [= _ <- _]; auto].
  destruct (base_ h) as [id|]; [|done]. cbn [mbind option_bind]. destruct (_ || _)%bool; [intros [= _ <- _]; auto|].
  destruct (ring_bind mx_new id w1) as [[v|e]|]; cbn [mbind option_bind]; [|intros [= _ <- _]; auto|done].
  intros [= _ <- _]. cbn. rewrite fmap_app, elem_of_app. intros [?|Hin]; [by left|]. apply list_elem_of_singleton in Hin. by right.
Qed.

Lemma discover_loop_names sys es c w res c' w' nm' :
  discover_loop mx_new sys es c w = Some (res, c', w') → nm' ∈ ar_name <$> rings_ c' →
  nm' ∈ ar_name <$> rings_ c ∨ nm' ∈ entry_name <$> es.
Proof.
  revert c w. induction es as [|e es IH]; intros c w; cbn [discover_loop]; [intros [= _ <- _]; auto|]. rewrite fmap_cons, elem_of_cons.
  destruct (negb _); [intros E Hin; destruct (IH _ _ E Hin); auto|].
  destruct (attach_ring mx_new sys (entry_name e) c w) as [[[r c1] w1]|] eqn:Ea; [|done]. cbn [mbind option_bind].
  pose proof (attach_ring_names _ _ _ _ _ _ _ nm' Ea) as Hn. destruct r as [u|err].
  - intros E Hin. destruct (IH _ _ E Hin) as [H1|]; [|auto]. destruct (Hn H1); auto.
  - intros [= _ <- _] Hin. destruct (Hn Hin); auto.
Qed.

Lemma discover_once_names sys c w res c' w' nm' :
  world_ok w → discover_once mx_new sys c w = Some (res, c', w') → nm' ∈ ar_name <$> rings_ c' →
  nm' ∈ ar_name <$> rings_ c ∨ take (length (prefix (options_ c))) nm' = prefix (options_ c).
Proof.
  intros H. unfold discover_once. rewrite instance_ready by apply H. pose proof (ps_ok _ _ _ _ (gc_pass mx_new sys w H)) as H1.
  set (w1 := gc mx_new sys w) in *. rewrite registry_list_ready by apply H1. intros E Hin.
  destruct (discover_loop_names _ _ _ _ _ _ _ nm' E Hin) as [?|Hx]; [by left|right].
  apply list_elem_of_fmap in Hx as (x&->&Hx). pose proof (proj1 (proj2 (wo_reg _ _ H1))) as Hwf.
  assert (Hex : erase x ∈ erase <$> list_spec (prefix (options_ c)) (rg_payload (registry_of mx_new w1)) (seq 0 NSLOTS))
    by (apply list_elem_of_fmap; by exists x).
  apply list_spec_elem in Hex as (nm&Em&Hp); [|done]. destruct (reg_map_entry _ _ _ Hwf Em) as (_&Hn&_).
  change (entry_name (erase x)) with (entry_name x) in Hn. by rewrite Hn.
Qed.

(** *** Draining *)

(** What the sink gets for a message, given the size of the scratch buffer. *)
Definition delivered (nm : bytes) (scratch : Z) (msg : Msg) : LogRecord :=
  mkLogRecord nm (decode_level (m_type msg)) (m_flags msg) (m_user msg) (take (Z.to_nat scratch) (m_data msg)).

Lemma drain_loop_queue sink nm v cap stride room n (scratch : bytes) (s : S) w q :
  ring_in v cap stride room w q → 0 ≤ room → Z.of_nat (length scratch) < 2 ^ 32 →
  let msgs := take n (f_queue q) in
  ∃ w', drain_loop mx_new sink nm v n scratch s w =
          Some (Z.of_nat (length msgs),
                fold_left sink (delivered nm (Z.of_nat (length scratch)) <$> msgs) s, w') ∧
        writes (eq (rv_object v)) w w' ∧ ring_in v cap stride room w' (mkFifo (drop n (f_queue q)) (f_lost q)).
Proof.
  revert scratch s w q. induction n as [|n IH]; intros scratch s w q Hin Hroom Hs; cbn [drain_loop].
  { exists w. split; [done|]. split; [apply writes_refl|by destruct q]. }
  destruct (ring_in_pop mx_new v cap stride room w q scratch Hin Hroom Hs) as (w1&E&Hw1&Hin').
  rewrite E. cbn [mbind option_bind]. unfold fifo_pop in *. destruct q as [[|msg ms] lost]; cbn [f_queue f_lost fst snd] in *.
  { by exists w1. }
  destruct (popped msg scratch) as [rec scratch'] eqn:Ep. pose proof (length_popped msg scratch) as Hlp.
  rewrite Ep in Hlp. cbn [snd] in Hlp.
  destruct (IH scratch' (sink s (delivered nm (Z.of_nat (length scratch)) msg)) _ _ Hin' Hroom) as (w'&E'&Hw'&Hin2); [by rewrite Hlp|].
  assert (Erec : mkLogRecord nm (decode_level (p_type rec)) (p_flags rec) (p_user rec)
    (take (Z.to_nat (p_copied_size rec)) scratch') = delivered nm (Z.of_nat (length scratch)) msg).
  { unfold popped in Ep. injection Ep as <- <-. unfold delivered. cbn [p_type p_flags p_user p_copied_size].
    f_equal. rewrite !Nat2Z.id, take_app_le, take_take by (rewrite length_take; lia).
    destruct (decide (length scratch ≤ length (m_data msg))%nat); [f_equal; lia|]. rewrite !take_ge by lia. done. }
  rewrite Erec, E'. cbn [mbind option_bind f_queue]. exists w'. split; [|split; [by eapply writes_trans|done]].
  rewrite Hlp. cbn [take length fmap list_fmap fold_left]. repeat f_equal. lia.
Qed.

(** *** A pass over the rings *)

(** The ring of an attached ring is a queue, of a given capacity and stride or of some. *)
Definition ring_as (room : Z) (w : W) (r : AttachedRing) (x : Z * Z * Fifo) : Prop :=
  ring_in (ar_ring r) x.1.1 x.1.2 room w x.2.

Definition ring_holds (room : Z) (w : W) (r : AttachedRing) (q : Fifo) : Prop :=
  ∃ cap stride, ring_in (ar_ring r) cap stride room w q.

Lemma rings_as room w rs qs :
  Forall2 (ring_holds room w) rs qs → ∃ xs, Forall2 (ring_as room w) rs xs ∧ qs = xs.*2.
Proof.
  induction 1 as [|r q rs qs (cap&stride&Hin) _ (xs&Hxs&->)]; [by exists []|].
  exists ((cap, stride, q) :: xs). split; [by constructor|done].
Qed.

Lemma rings_hold room w rs xs : Forall2 (ring_as room w) rs xs → Forall2 (ring_holds room w) rs (xs.*2).
Proof. induction 1 as [|r [[cap stride] q] rs xs Hin _ IH]; constructor; [by exists cap, stride|done]. Qed.

Definition ring_object (r : AttachedRing) : nat := rv_object (ar_ring r).

Definition ring_dead (w : W) (r : AttachedRing) : bool := segment_dead (sg_header (seg mx_new (ring_object r) w)).

Definition mark (w : W) (r : AttachedRing) : AttachedRing :=
  if ring_dead w r then mkAttachedRing (ar_name r) (ar_handle r) (ar_ring r) true else r.

(** The oldest records of a queue, a batch of them, and the queue without them. *)
Definition batch_records (o : LogCenterOptions) (r : AttachedRing) (q : Fifo) : list LogRecord :=
  delivered (ar_name r) (Z.of_nat (Z.to_nat (scratch_bytes o))) <$> take (Z.to_nat (lc_drain_batch o)) (f_queue q).

Definition batch_rest (o : LogCenterOptions) (q : Fifo) : Fifo :=
  mkFifo (drop (Z.to_nat (lc_drain_batch o)) (f_queue q)) (f_lost q).

Definition rest_as (o : LogCenterOptions) (x : Z * Z * Fifo) : Z * Z * Fifo := (x.1, batch_rest o x.2).

(** The records of a batch from each ring, ring by ring. *)
Definition pass_records (o : LogCenterOptions) (rs : list AttachedRing) (qs : list Fifo) : list LogRecord :=
  concat (zip_with (batch_records o) rs qs).

Lemma drain_ring_queue c r room (s : S) w x :
  ring_ok w r → ring_as room w r x → 0 ≤ room → scratch_bytes (options_ c) < 2 ^ 32 →
  ∃ w', drain_ring mx_new c r s w =
          Some (mark w r, Z.of_nat (length (batch_records (options_ c) r x.2)),
                fold_left (sink_ c) (batch_records (options_ c) r x.2) s, w') ∧
        writes (eq (ring_object r)) w w' ∧ ring_as room w' r (rest_as (options_ c) x).
Proof.
  intros [[size Eh] _ _] Hin Hroom Hs. destruct x as [[cap stride] q]. unfold ring_as in *. cbn [fst snd rest_as] in *. unfold drain_ring. rewrite Eh. cbn [base_ mbind option_bind].
  rewrite <-Eh. fold (ring_object r) (ring_dead w r) (mark w r).
  assert (Em : ar_name (mark w r) = ar_name r ∧ ar_ring (mark w r) = ar_ring r) by (unfold mark; by destruct (ring_dead w r)).
  destruct Em as [-> ->]. set (scratch := replicate _ 0).
  assert (Hlen : Z.of_nat (length scratch) = Z.of_nat (Z.to_nat (scratch_bytes (options_ c))))
    by (unfold scratch; by rewrite length_replicate).
  destruct (drain_loop_queue (sink_ c) (ar_name r) (ar_ring r) cap stride room
    (Z.to_nat (lc_drain_batch (options_ c))) scratch s w q Hin Hroom) as (w'&E&Hw&Hin'); [lia|].
  exists w'. rewrite E. cbn [mbind option_bind]. split; [|by split].
  unfold batch_records. by rewrite length_fmap, Hlen.
Qed.

Lemma ring_as_apart P room w w' r x :
  writes P w w' → ¬ P (ring_object r) → ring_as room w r x → ring_as room w' r x.
Proof. intros Hw HP Hin. by eapply ring_in_apart. Qed.

Lemma seg_header_writes P w w' id : writes P w w' → sg_header (seg mx_new id w') = sg_header (seg mx_new id w).
Proof.
  intros Hw. unfold seg. pose proof (wr_objs _ _ _ Hw id) as O. by inversion O as [s1 s2 (_&Hh&_) E1 E2|E1 E2].
Qed.

Lemma mark_writes P w w' r : writes P w w' → mark w' r = mark w r.
Proof. intros Hw. unfold mark, ring_dead. by rewrite (seg_header_writes P w w'). Qed.

Lemma writes_evolves P w w' : writes P w w' → evolves w w'.
Proof. intros Hw. apply evolves_same. by apply (writes_headers P). Qed.

Lemma drain_rings_queue c rs xs room d (s : S) w :
  Forall (ring_ok w) rs → Forall2 (ring_as room w) rs xs → NoDup (ring_object <$> rs) →
  0 ≤ room → scratch_bytes (options_ c) < 2 ^ 32 → 0 ≤ d < 2 ^ 32 →
  let records := pass_records (options_ c) rs (xs.*2) in
  ∃ w', drain_rings mx_new c rs d s w =
          Some (mark w <$> rs, u32 (d + Z.of_nat (length records)), fold_left (sink_ c) records s, w') ∧
        writes (λ id, id ∈ ring_object <$> rs) w w' ∧
        Forall2 (ring_as room w') rs (rest_as (options_ c) <$> xs).
Proof.
  intros Hok Hq. revert d s w Hok Hq. revert xs.
  induction rs as [|r rs IH]; intros xs d s w Hok Hq Hnd Hroom Hs Hd;
    inversion Hq as [|? x ? xs' Hr Hrs]; subst; cbn [drain_rings].
  { exists w. rewrite Z.add_0_r, u32_small by done. split; [done|]. split; [apply writes_refl|constructor]. }
  inversion Hok as [|? ? Hr1 Hok']; subst. rewrite fmap_cons in Hnd. apply NoDup_cons in Hnd as [Hni Hnd].
  destruct (drain_ring_queue c r room s w x Hr1 Hr Hroom Hs) as (w1&->&Hw1&Hr'). cbn [mbind option_bind].
  assert (Hrs1 : Forall2 (ring_as room w1) rs xs').
  { apply Forall2_same_length_lookup_2; [by eapply Forall2_length|]. intros i y z Ey Ez.
    apply (ring_as_apart (eq (ring_object r)) room w); [done| |by eapply (Forall2_lookup_lr _ _ _ _ _ _ Hrs)].
    intros E. apply Hni. rewrite E. apply list_elem_of_fmap. exists y. split; [done|]. by eapply list_elem_of_lookup_2. }
  destruct (IH xs' (u32 (d + Z.of_nat (length (batch_records (options_ c) r x.2)))) (fold_left (sink_ c) (batch_records (options_ c) r x.2) s) w1)
    as (w2&->&Hw2&Hrs2); try done; [|apply u32_range|].
  { eapply Forall_impl; [exact Hok'|]. intros y. apply ring_ok_evolves. by eapply writes_evolves. }
  cbn [mbind option_bind]. exists w2. split; [|split].
  - assert (Emark : mark w1 <$> rs = mark w <$> rs).
    { apply list_fmap_ext. intros i y _. by apply (mark_writes (eq (ring_object r))). }
    rewrite (fmap_cons (mark w)), Emark. unfold pass_records. rewrite fmap_cons. cbn [zip_with concat]. rewrite fold_left_app, length_app. rewrite Nat2Z.inj_add, Z.add_assoc, u32_add_l. done.
  - eapply writes_trans; [eapply writes_weaken; [|exact Hw1]|eapply writes_weaken; [|exact Hw2]].
    + intros id <-. rewrite fmap_cons. left.
    + intros id Hid. rewrite fmap_cons. by right.
  - rewrite fmap_cons. constructor; [|done]. by apply (ring_as_apart _ room w1 w2 r _ Hw2).
Qed.

(** Different rings of a center are in different objects. *)
Lemma center_objects c w : center_ok c w → NoDup (ring_object <$> rings_ c).
Proof.
  intros [Hr Hn]. apply (NoDup_fmap_1 (λ id, segment_name (sg_header (seg mx_new id w)))).
  rewrite <-list_fmap_compose. erewrite list_fmap_ext; [exact Hn|]. intros i r Hi. cbn.
  rewrite Forall_lookup in Hr. destruct (ro_name _ _ (Hr i r Hi)) as (s&Eo&<-).
  unfold ring_object. by rewrite (seg_lookup mx_new w _ s Eo).
Qed.

(** Ending the handles of some rings. *)
Lemma detach_all sys rs w :
  world_ok w → Forall (λ r, ∃ size, ar_handle r = mkShmHandle (Some (ring_object r)) size true ReadWrite false) rs →
  let w' := fold_left (λ w r, handle_reset mx_new sys (ar_handle r) w) rs w in
  world_ok w' ∧ evolves w w' ∧ contents_kept w w' ∧ w_heartbeat w' = w_heartbeat w ∧ w_names w' = w_names w ∧
  resources w' = (w_fds w - Z.of_nat (length rs), w_maps w - Z.of_nat (length rs)).
Proof.
  intros H Hrs. revert w H. induction Hrs as [|r rs [size Eh] _ IH]; intros w H; cbn [fold_left length].
  { unfold resources. by rewrite !Z.sub_0_r. }
  destruct (handle_reset_ok mx_new sys (ar_handle r) w H) as [H1 Hev1].
  assert (K1 : contents_kept w (handle_reset mx_new sys (ar_handle r) w)).
  { apply handle_reset_contents; [|done]. apply (reg_ready_constructed mx_new w), H. }
  destruct (IH _ H1) as (H2&Hev2&K2&Hh2&Hn2&Hres). split_and!; [done|by etrans|by etrans| | |].
  - rewrite Hh2, Eh. done.
  - rewrite Hn2, Eh. done.
  - rewrite Hres, Eh, handle_reset_visitor. cbn. f_equal; lia.
Qed.

Lemma mark_handle w r : ar_handle (mark w r) = ar_handle r ∧ ring_object (mark w r) = ring_object r.
Proof. unfold mark. by destruct (ring_dead w r). Qed.

(** The rings that stay are those whose segment is not dead, the others go. *)
Lemma filter_marked w rs :
  Forall (ring_ok w) rs →
  filter (λ r, remove_after_drain r = false) (mark w <$> rs) = filter (λ r, ring_dead w r = false) rs ∧
  (length (filter (λ r, remove_after_drain r = true) (mark w <$> rs)) +
   length (filter (λ r, ring_dead w r = false) rs) = length rs)%nat ∧
  Forall (λ r, ∃ size, ar_handle r = mkShmHandle (Some (ring_object r)) size true ReadWrite false)
    (filter (λ r, remove_after_drain r = true) (mark w <$> rs)).
Proof.
  induction 1 as [|r rs [[size Eh] Hu _] _ (IH1&IH2&IH3)]; [done|].
  rewrite fmap_cons, !filter_cons.
  assert (Em : mark w r = if ring_dead w r then mkAttachedRing (ar_name r) (ar_handle r) (ar_ring r) true else r) by done.
  rewrite Em. destruct (ring_dead w r) eqn:Ed; cbn [remove_after_drain].
  - repeat case_decide; try done. split; [exact IH1|]. split; [cbn [length]; lia|].
    constructor; [|exact IH3]. cbn. by exists size.
  - rewrite Hu. repeat case_decide; try done. split; [by f_equal|]. split; [cbn [length]; lia|exact IH3].
Qed.

Lemma NoDup_fmap_filter {A B} (f : A → B) (P : A → Prop) `{!∀ x, Decision (P x)} (l : list A) :
  NoDup (f <$> l) → NoDup (f <$> filter P l).
Proof.
  induction l as [|x l IH]; intros Hnd; [by apply NoDup_nil_2|]. rewrite fmap_cons in Hnd.
  apply NoDup_cons in Hnd as [Hx Hl]. rewrite filter_cons.
  destruct (decide (P x)); [|by apply IH]. rewrite fmap_cons. apply NoDup_cons. split; [|by apply IH].
  intros Hin. apply Hx. apply list_elem_of_fmap in Hin as (y&->&[_ Hy]%list_elem_of_filter).
  apply list_elem_of_fmap. by exists y.
Qed.

(** The rings a pass leaves attached. *)
Definition survivors (w : W) (c : Center) : Center := set_rings (filter (λ r, ring_dead w r = false) (rings_ c)) c.

Lemma center_ok_survivors c w w' : evolves w w' → center_ok c w → center_ok (survivors w c) w'.
Proof.
  intros Hev Hc. pose proof (center_ok_evolves c w w' Hev Hc) as [H1 H2]. split; cbn.
  - apply Forall_forall. intros r [_ Hr]%list_elem_of_filter. rewrite Forall_forall in H1. by apply H1.
  - by apply NoDup_fmap_filter.
Qed.

(** What a pass leaves: the pops write the rings only, the rest is the end of some handles. *)
Record drained_world (c : Center) (w w' : W) : Prop := {
  dr_ok : world_ok w';
  dr_laid_out : laid_out w → laid_out w';
  dr_center : center_ok (survivors w c) w';
  dr_evolves : evolves w w';
  dr_names : w_names w' = w_names w;
  dr_heartbeat : w_heartbeat w' = w_heartbeat w;
  dr_balance : balance (survivors w c) w' = balance c w;
  dr_writes : ∃ w1, writes (λ id, id ∈ ring_object <$> rings_ c) w w1 ∧ contents_kept w1 w';
}.

Lemma drain_once_geometry sys c room xs (s : S) w :
  world_ok w → center_ok c w → Forall2 (ring_as room w) (rings_ c) xs → 0 ≤ room →
  scratch_bytes (options_ c) < 2 ^ 32 →
  let records := pass_records (options_ c) (rings_ c) (xs.*2) in
  ∃ w', drain_once mx_new sys c s w =
          Some (u32 (Z.of_nat (length records)), survivors w c, fold_left (sink_ c) records s, w') ∧
        drained_world c w w' ∧ Forall2 (ring_as room w') (rings_ c) (rest_as (options_ c) <$> xs).
Proof.
  intros H Hc Hq Hroom Hs records.
  destruct (drain_rings_queue c (rings_ c) xs room 0 s w) as (w1&E&Hw1&Hq1); try done; [apply Hc|by eapply center_objects|].
  destruct (filter_marked w (rings_ c) (cn_rings _ _ Hc)) as (Ef&Hlen&Hrm).
  set (gone := filter (λ r, remove_after_drain r = true) (mark w <$> rings_ c)) in *.
  pose proof (writes_ok mx_new _ w w1 Hw1 H) as H1. pose proof (writes_evolves _ w w1 Hw1) as Hev1.
  destruct (detach_all sys gone w1 H1 Hrm) as (H2&Hev2&K2&Hh2&Hn2&Hres).
  set (w2 := fold_left _ gone w1) in *. exists w2.
  assert (Hev : evolves w w2) by by etrans.
  split; [unfold drain_once; rewrite E; cbn [mbind option_bind]; unfold survivors; by rewrite Ef|]. split.
  - split; try done.
    + intros Hl. apply (laid_out_kept w1); [done|]. by eapply writes_laid_out.
    + by apply center_ok_survivors.
    + rewrite Hn2. by rewrite (wr_frame _ _ _ Hw1).
    + rewrite Hh2. by rewrite (wr_frame _ _ _ Hw1).
    + unfold resources in Hres. injection Hres as Hf Hm. unfold balance, attached_count, survivors. cbn [rings_ set_rings].
      rewrite Hf, Hm. rewrite (wr_frame _ _ _ Hw1). cbn [set_objs w_fds w_maps]. f_equal; lia.
    + by exists w1.
  - eapply Forall2_impl; [exact Hq1|]. intros r x Hin. by apply (ring_in_kept _ _ _ _ w1).
Qed.

Lemma drain_once_queues sys c room qs (s : S) w :
  world_ok w → center_ok c w → Forall2 (ring_holds room w) (rings_ c) qs → 0 ≤ room →
  scratch_bytes (options_ c) < 2 ^ 32 →
  let records := pass_records (options_ c) (rings_ c) qs in
  ∃ w', drain_once mx_new sys c s w =
          Some (u32 (Z.of_nat (length records)), survivors w c, fold_left (sink_ c) records s, w') ∧
        world_ok w' ∧ (laid_out w → laid_out w') ∧ center_ok (survivors w c) w' ∧ evolves w w' ∧ w_names w' = w_names w ∧
        w_heartbeat w' = w_heartbeat w ∧ balance (survivors w c) w' = balance c w ∧
        Forall2 (ring_holds room w') (rings_ c) (batch_rest (options_ c) <$> qs).
Proof.
  intros H Hc (xs&Hxs&->)%rings_as Hroom Hs records.
  destruct (drain_once_geometry sys c room xs s w H Hc Hxs Hroom Hs) as (w'&E&[]&Hx'). exists w'.
  split_and!; try done. apply rings_hold in Hx'. rewrite <-!list_fmap_compose in *. exact Hx'.
Qed.

(** *** A live ring from discovery to the sink *)

(** When one name only has the prefix, the registry lists that entry. *)
Lemma list_single w prefix nm e :
  world_ok w → entries mx_new w !! nm = Some e → take (length prefix) nm = prefix →
  (∀ nm', is_Some (entries mx_new w !! nm') → take (length prefix) nm' = prefix → nm' = nm) →
  ∃ x, list_spec prefix (rg_payload (registry_of mx_new w)) (seq 0 NSLOTS) = [x] ∧ erase x = e ∧ entry_name x = nm.
Proof.
  intros H Ee Hp Honly. pose proof (proj1 (proj2 (wo_reg _ _ H))) as Hwf.
  pose proof (list_spec_perm prefix _ Hwf) as Hperm. fold (entries mx_new w) in Hperm.
  assert (Ef : filter (λ '(nm, _), take (length prefix) nm = prefix) (entries mx_new w) = {[nm := e]}).
  { apply map_eq. intros nm'. apply option_eq. intros e'. rewrite map_lookup_filter_Some, lookup_singleton_Some. split.
    - intros [E' Hp']. assert (nm' = nm) as -> by (apply Honly; eauto). rewrite Ee in E'. by injection E' as <-.
    - by intros [<- <-]. }
  rewrite Ef, map_to_list_singleton in Hperm. cbn in Hperm. apply Permutation_singleton_r in Hperm.
  destruct (list_spec prefix _ _) as [|x [|]]; try done. injection Hperm as Hx. exists x. split_and!; try done.
  destruct (reg_map_entry _ _ _ Hwf Ee) as (_&Hn&_). rewrite <-Hx in Hn. exact Hn.
Qed.

(** Janitor passes add no entry. *)
Lemma gc_no_entry sys w nm : world_ok w → entries mx_new w !! nm = None → entries mx_new (gc mx_new sys w) !! nm = None.
Proof.
  intros H Hn. pose proof (gc_pass mx_new sys w H) as P. rewrite (ps_entries _ _ _ _ P); [done|]. intros Hin.
  destruct (listed_entries mx_new w H) as (_&Hes&_). apply list_elem_of_fmap in Hin as (x&->&Hx).
  rewrite Forall_forall in Hes. by rewrite (Hes x Hx) in Hn.
Qed.

(** Attaching a live ring maps the ring its creator set up. *)
Lemma attach_ring_live sys nm c cap stride room w id sg q :
  world_ok w → sys_ok sys → center_ok c w → live_segment mx_new (sys_keys sys) nm w id sg →
  owner_is_dead (sys_os sys) (sg_header sg) (monotonic_ns (sys_os sys)) = false → nm ∉ ar_name <$> rings_ c →
  ring_segment id cap stride w → ring_in (log_view id cap stride) cap stride room w q →
  let r := mkAttachedRing nm (mkShmHandle (Some id) (sg_size sg) true ReadWrite false) (log_view id cap stride) false in
  ∃ w', attach_ring mx_new sys nm c w = Some (Value tt, set_rings (rings_ c ++ [r]) c, w') ∧ world_ok w' ∧
        evolves w w' ∧ ring_ok w' r ∧ ring_in (log_view id cap stride) cap stride room w' q ∧
        w' = attached ReadWrite id (gc mx_new sys w).
Proof.
  intros H Hs Hc L Hlive Hni Hseg Hin r. destruct (live_attach mx_new sys nm ReadWrite w id sg H Hs L Hlive) as [Ea Eo].
  destruct (attach_ok mx_new sys nm ReadWrite w H) as [H' Hev]. pose proof (attach_contents mx_new sys nm ReadWrite w H) as K.
  rewrite Ea in H', Hev, K. cbn [snd] in *. set (w' := attached ReadWrite id (gc mx_new sys w)) in *.
  pose proof (ring_segment_kept id cap stride w w' K Hseg) as Hseg'.
  pose proof (ring_in_kept _ cap stride room w w' q K Hin) as Hin'.
  exists w'. unfold attach_ring. destruct (existsb _ _) eqn:Eex; [by apply names_elem in Eex|].
  rewrite Ea. cbn [base_ mbind option_bind]. fold w'. pose proof Hseg' as (s'&b&Eo'&_&(Ht&Hmd&_)&_).
  rewrite (seg_lookup mx_new w' id s' Eo'), Ht, Hmd, Z.eqb_refl. cbn [negb orb snd]. rewrite Z.ltb_irrefl.
  rewrite (ring_bind_view mx_new id cap stride room w' q Hseg' Hin'). cbn [mbind option_bind]. split_and!; try done.
  split; cbn; [by eexists|done|]. exists s'. split; [done|].
  assert (Es' : s' = with_header (λ h, set_ref_count (u32 (ref_count h + 1)) h) sg).
  { unfold w', attached, upd_header, upd_seg in Eo'. cbn in Eo'. rewrite lookup_alter_eq, Eo in Eo'. by injection Eo'. }
  rewrite Es'. apply L.
Qed.

(** A first poll finds the only live ring with the prefix and delivers a batch from it. *)
Lemma poll_live sys (c : Center) nm cap stride room w id sg q (s : S) :
  let o := options_ c in
  world_ok w → sys_ok sys → rings_ c = [] → live_segment mx_new (sys_keys sys) nm w id sg →
  owner_is_dead (sys_os sys) (sg_header sg) (monotonic_ns (sys_os sys)) = false →
  ring_segment id cap stride w → ring_in (log_view id cap stride) cap stride room w q → 0 ≤ room →
  take (length (prefix o)) nm = prefix o →
  (∀ nm', is_Some (entries mx_new w !! nm') → take (length (prefix o)) nm' = prefix o → nm' = nm) →
  scratch_bytes o < 2 ^ 32 → 0 ≤ lc_drain_batch o < 2 ^ 32 →
  let msgs := take (Z.to_nat (lc_drain_batch o)) (f_queue q) in
  ∃ pause c' w', poll_once mx_new sys c s w =
    Some (Z.of_nat (length msgs), pause, c',
          fold_left (sink_ c) (delivered nm (Z.of_nat (Z.to_nat (scratch_bytes o))) <$> msgs) s, w') ∧
    world_ok w' ∧ (∃ cap' stride', ring_in (log_view id cap stride) cap' stride' room w' (batch_rest o q)) ∧
    center_ok c' w' ∧ balance c' w' = resources w ∧ w_heartbeat w' = w_heartbeat w ∧
    (∀ nm', w_names w' !! nm' = w_names w !! nm' ∨ w_names w' !! nm' = None).
Proof.
  intros o H Hs Hr L Hlive Hseg Hin Hroom Hp Honly Hsc Hb msgs.
  pose proof (live_gc mx_new sys _ nm w id sg H Hs L Hlive) as L1. pose proof (gc_pass mx_new sys w H) as P.
  assert (K1 : contents_kept w (gc mx_new sys w)) by apply gc_contents, (reg_ready_constructed mx_new w), H.
  pose proof (ps_ok _ _ _ _ P) as H1. pose proof (ps_evolves _ _ _ _ P) as Hev1.
  unfold poll_once, discover_once. rewrite instance_ready by apply H. set (w1 := gc mx_new sys w) in *.
  rewrite registry_list_ready by apply H1. fold o. destruct (lv_entry _ _ _ _ _ _ L1) as (e&Ee&_&Hty).
  destruct (list_single w1 (prefix o) nm e H1 Ee Hp) as (x&->&<-&Hn).
  { intros nm' [e' Ee'] Hp'. apply Honly; [|done]. destruct (entries mx_new w !! nm') eqn:E; [by eexists|].
    unfold w1 in Ee'. by rewrite (gc_no_entry sys w nm' H E) in Ee'. }
  cbn [discover_loop]. pose proof (ring_segment_kept id cap stride w w1 K1 Hseg) as Hseg1.
  assert (Et : e_segment_type x = SegmentType_value RecordRing).
  { change (e_segment_type x) with (e_segment_type (erase x)). rewrite Hty. destruct Hseg1 as (s'&b&Eo'&_&(Ht&_)&_).
    rewrite (lv_object _ _ _ _ _ _ L1) in Eo'. by injection Eo' as <-. }
  rewrite Et, Z.eqb_refl, Hn. cbn [negb].
  destruct (attach_ring_live sys nm c cap stride room w1 id sg q) as (w2&->&H2&Hev2&Hok&Hin2&E2); try done.
  { split; rewrite Hr; [constructor|apply NoDup_nil_2]. }
  { rewrite Hr. by apply not_elem_of_nil. }
  { by apply (ring_in_kept _ _ _ _ w). }
  cbn [mbind option_bind discover_loop]. rewrite Hr. cbn [app]. set (r := mkAttachedRing _ _ _ _) in *.
  destruct (drain_once_queues sys (set_rings [r] c) room [q] s w2) as (w3&E&H3&_&Hc3&_&En3&Eh3&Eb3&Hq3); try done.
  { split; cbn; [by constructor|apply NoDup_singleton]. }
  { constructor; [|constructor]. by exists cap, stride. }
  unfold pass_records in E.
  rewrite E. cbn [mbind option_bind rings_ set_rings zip_with concat options_ sink_] in *. rewrite app_nil_r in *.
  assert (Elen : u32 (Z.of_nat (length (batch_records o r q))) = Z.of_nat (length msgs)).
  { unfold batch_records. rewrite length_fmap. fold msgs. apply u32_small.
    unfold msgs. rewrite length_take. lia. }
  fold o. rewrite Elen. apply Forall2_cons_1 in Hq3 as [Hin3 _].
  pose proof (gc_pass mx_new sys w1 H1) as P2.
  assert (Hrest : balance (survivors w2 (set_rings [r] c)) w3 = resources w ∧ w_heartbeat w3 = w_heartbeat w ∧
    ∀ nm', w_names w3 !! nm' = w_names w !! nm' ∨ w_names w3 !! nm' = None).
  { rewrite Eb3, En3, Eh3, E2. split; [|split].
    - pose proof (ps_resources _ _ _ _ P) as R1. pose proof (ps_resources _ _ _ _ P2) as R2.
      unfold resources, balance, attached_count in *. cbn. injection R1 as <- <-. injection R2 as -> ->. f_equal; lia.
    - cbn. by rewrite (ps_heartbeat _ _ _ _ P2), (ps_heartbeat _ _ _ _ P).
    - intros nm'. cbn. destruct (ps_sub _ _ _ _ P2 nm') as [->|]; [|by right].
      destruct (ps_sub _ _ _ _ P nm') as [->|]; auto. }
  destruct Hrest as (B3&Hb3&N3).
  case_match; do 3 eexists; (split; [reflexivity|]); split_and!; try done; by destruct Hc3.
Qed.

End lemmas.
