(* ===== verification/LoggingProps.v ===== *)
(** * Properties of the logging applications

    What a logger publishes reaches the sink of a log center: names, initialization on every
    branch, publication, discovery, draining, and the whole way from one process to another. *)

From S2P Require Import Prelude Types Sync RingMem RingCells RingBytes RingProps.
From S2P Require Import Security Lifecycle Registry Manager ManagerInv Janitor ManagerOps ManagerSteps.
From S2P Require Import ManagerProps Contents SegmentRing Logger LogCenter.

#[local] Opaque NSLOTS reg_map.

(** The default segment name of a valid service and a process id is a valid name in the
    namespace "log" that fits the header, and different services or processes get different
    names. *)
Theorem default_name_spec service pid :
  valid_service_name service = true → 0 ≤ pid < 2 ^ 31 →
  parse_and_validate_name (default_segment_name service pid) =
    Value (mkParsedName (str "log") (service ++ [95] ++ int_to_string pid) false) ∧
  ∀ service' pid', 0 ≤ pid' < 2 ^ 31 →
    default_segment_name service' pid' = default_segment_name service pid → service' = service ∧ pid' = pid.
Proof.
  intros Hs Hp. destruct (default_name_shape service pid Hs Hp) as [E Hshape]. split.
  - rewrite E, parse_compose; [done| |done]. unfold is_bootstrap, compose_name. intros [Hb|Hb]; discriminate Hb.
  - intros service' pid' Hp' Eq. unfold default_segment_name in Eq. apply (inj (app (str "/shmfx.log."))) in Eq.
    assert (Hno : ∀ n, 0 ≤ n → 95 ∉ int_to_string n).
    { intros n Hn Hin. pose proof (int_to_string_digits n Hn) as Hd. rewrite Forall_forall in Hd.
      specialize (Hd _ Hin). lia. }
    apply split_last_eq in Eq as [-> Eq]; [|apply Hno; lia..]. by apply int_to_string_inj in Eq as ->.
Qed.

Section theorems.
Context {Mx : Type} `{!RobustMutex Mx, !RobustMutexLaws Mx} (mx_new : Mx).

Abbreviation W := (World Mx).
Abbreviation world_ok := (world_ok mx_new).
Abbreviation create := (create mx_new).
Abbreviation init := (init mx_new).

(** When [create] makes the segment, [Logger::init] returns a logger on an empty ring with
    exactly the requested number of records and room for the requested payload, in the new
    segment; it writes nothing else. *)
Theorem logger_init_creates sys o (w : W) h w1 :
  world_ok w → options_typed o → valid_service_name (lo_service_name o) = true → 2 ≤ lo_record_max o →
  lo_max_payload o ≠ 0 → logger_stride o ≠ 0 →
  create sys (make_create_options o (logger_name sys o)) w = (Value h, w1) →
  ∃ v w2, init sys o w = Some (Value (mkLogger h v (logger_name sys o)), w2) ∧
    world_ok w2 ∧ writes (eq (w_next w)) w1 w2 ∧
    ring_in v (lo_record_max o) (logger_stride o) (2 ^ 62) w2 (mkFifo [] 0) ∧
    (lo_max_payload o ≤ 2 ^ 32 - 80 → RECORD_HEADER_SIZE + lo_max_payload o ≤ logger_stride o).
Proof.
  intros H Ht Hs Hr Hm Hst Ec.
  destruct (init_fresh mx_new sys o w h w1 (2 ^ 62)) as (w2&E&Hw&_&Hin); try done; [destruct Ht; lia|].
  do 2 eexists. split; [exact E|]. split; [|split; [done|split; [done|]]].
  - eapply (writes_ok mx_new); [exact Hw|].
    pose proof (create_cases mx_new sys _ w H (create_options_nonneg o (logger_name sys o) Ht)) as Hc.
    rewrite Ec in Hc. apply Hc.
  - intros Hmp. apply record_stride_for_eq. destruct Ht; lia.
Qed.

(** C32: a [Logger::init] that fails leaks nothing, whichever branch it failed on: as long as
    the cleanup's [shm_unlink] works, the world stays well formed, the open descriptors, mappings
    and heartbeat owners are those from before, and no name has been added. *)
Theorem logger_init_error_clean sys o (w : W) e w' :
  world_ok w → options_typed o → fail_unlink sys (logger_name sys o) = None →
  init sys o w = Some (Error e, w') → no_leak mx_new w w'.
Proof.
  intros H Ht Hf. unfold Logger.init. destruct (_ || _)%bool; [intros [= _ <-]; by apply no_leak_refl|].
  set (nm := logger_name sys o) in *. destruct (_ <=? _); [intros [= _ <-]; by apply no_leak_refl|].
  pose proof (create_cases mx_new sys _ w H (create_options_nonneg o nm Ht)) as Hc.
  destruct (create sys (make_create_options o nm) w) as [[h|err] w1] eqn:Ec; destruct Hc as (H1&_&Hc).
  - destruct Hc as [hdr C]. assert (base_ h = Some (w_next w)) as -> by by rewrite (cr_handle _ _ _ _ _ _ _ C).
    cbn [mbind option_bind].
    destruct (ring_initialize mx_new (w_next w) _ _ w1) as [[[r|e'] w2]|] eqn:Ei; cbn [mbind option_bind]; [done| |done].
    apply ring_initialize_error in Ei as ->. intros [= _ <-].
    destruct (created_header mx_new sys (make_create_options o nm) w h w1 hdr H ltac:(done) Ec C) as (_&_&_&_&Hst&_).
    apply (no_leak_destroy mx_new sys (make_create_options o nm) w h w1 hdr); try done.
    unfold Manager.create in Ec. unfold valid_name. cbn [co_name make_create_options] in *. by destruct (parse_and_validate_name nm).
  - pose proof (no_leak_unchanged mx_new w w1 H1 (Hc Hf)) as N1. case_bool_decide as Ee; cbn [negb]; [|by intros [= _ <-]].
    destruct (parse_and_validate_name nm) as [pn|] eqn:Ep.
    2: { unfold attach. rewrite Ep. by intros [= _ <-]. }
    destruct (attach_world mx_new sys nm ReadWrite w1 H1) as (H2&_&Hm); [unfold valid_name; by rewrite Ep|].
    set (w2 := if bool_decide (nm = REGISTRY_NAME) then w1 else gc mx_new sys w1) in *.
    assert (N2 : no_leak mx_new w w2).
    { apply (no_leak_trans _ _ w1); [done|]. unfold w2. case_bool_decide; [by apply no_leak_refl|by apply no_leak_gc]. }
    destruct Hm as [(id&s&_&->)|(e2&->&_)]; [|by intros [= _ <-]].
    destruct (bind_logger_ring mx_new _ _) as [[r|e3]|]; cbn [mbind option_bind]; [done| |done].
    intros [= _ <-]. apply (no_leak_trans _ _ w2); [done|]. by apply no_leak_detach.
Qed.

(** Calls of a logger are pushes on the queue its ring represents: each publishes its
    level, its flags, the time and its bytes (formatted text cut to 1023 bytes and then flagged,
    every payload cut to the slot and then flagged) or reports why it does not; the results are the
    queue's, the ring stays a queue, and no byte outside the logger's segment changes. *)
Theorem logger_calls_queue l cap stride room cs (w : W) q :
  ring_in (ring_ l) cap stride room w q → Z.of_nat (length cs) ≤ room → Forall call_ok cs →
  let spec := fifo_calls cap stride cs q in
  ∃ w', run_calls mx_new l cs w = Some (spec.1, w') ∧ writes (eq (rv_object (ring_ l))) w w' ∧
        ring_in (ring_ l) cap stride (room - Z.of_nat (length cs)) w' spec.2.
Proof. apply run_calls_queue. Qed.

Section center.
Context {S : Type}.
Abbreviation Center := (LogCenter S).

(** C33: discovery is safe on any segments whose headers fit them: it returns, never touches the
    bytes of a segment, keeps the rings the center has, and only adds rings, with distinct names
    and a reference each; every descriptor and mapping it opens belongs to a ring it added, errors
    included. A ring it adds carries the prefix and is bound to the segment of its name. When it
    reports success, every ring segment the registry lists under the prefix, under a name the
    center did not read before, is attached so; of the names it did read before it looks at
    nothing but the name. *)
Theorem discover_spec sys (c : Center) (w : W) :
  world_ok w → laid_out w → center_ok c w →
  ∃ res c' w' new, discover_once mx_new sys c w = Some (res, c', w') ∧ discovers mx_new c w c' w' ∧
    rings_ c' = rings_ c ++ new ∧
    (∀ r, r ∈ new → take (length (prefix (options_ c))) (ar_name r) = prefix (options_ c) ∧
       (ar_name r ∉ ar_name <$> rings_ c) ∧ w_names w !! ar_name r = Some (rv_object (ar_ring r))) ∧
    (res = Value tt → ∀ nm e, entries mx_new (gc mx_new sys w) !! nm = Some e →
       e_segment_type e = SegmentType_value RecordRing →
       take (length (prefix (options_ c))) nm = prefix (options_ c) →
       nm ∈ ar_name <$> rings_ c ∨ ∃ r, r ∈ new ∧ ar_name r = nm).
Proof.
  intros H Hl Hc. destruct (discovers_once mx_new sys c w H Hl Hc) as (res&c'&w'&E&D&Hres).
  destruct (ds_rings _ _ _ _ _ D) as (new&Ec&_&Hn). assert (Er : rings_ c' = rings_ c ++ new) by by rewrite Ec.
  exists res, c', w', new. split_and!; try done.
  - intros r Hr. assert (Hnot : ar_name r ∉ ar_name <$> rings_ c).
    { pose proof (cn_names _ _ (ds_center _ _ _ _ _ D)) as Hd. rewrite Er, fmap_app in Hd.
      apply NoDup_app in Hd as (_&Hd&_). intros Hin. apply (Hd _ Hin). apply list_elem_of_fmap. by exists r. }
    split_and!; [|done|by apply (proj1 (Forall_forall _ _) Hn)].
    destruct (discover_once_names mx_new sys c w res c' w' (ar_name r) H E) as [?|?]; [|done..].
    rewrite Er, fmap_app. apply elem_of_app. right. apply list_elem_of_fmap. by exists r.
  - intros Hv nm e Ee Et Hp. specialize (Hres Hv nm e Ee Et Hp). rewrite Er, fmap_app in Hres.
    apply elem_of_app in Hres as [?|Hin]; [by left|right]. apply list_elem_of_fmap in Hin as (r&->&Hr). by exists r.
Qed.

(** A segment destroyed and created again under its name is not attached by a center that still
    reads the old one: discovery succeeds without it. *)
Theorem recreated_ring_skipped sys (c : Center) (w : W) r id :
  world_ok w → laid_out w → center_ok c w → r ∈ rings_ c →
  w_names w !! ar_name r = Some id → id ≠ rv_object (ar_ring r) →
  attach_ring mx_new sys (ar_name r) c w = Some (Value tt, c, w) ∧
  ∃ res c' w', discover_once mx_new sys c w = Some (res, c', w') ∧
    ∀ r', r' ∈ rings_ c' → ar_name r' = ar_name r → rv_object (ar_ring r') ≠ id.
Proof.
  intros H Hl Hc Hr En Hid. split.
  { unfold attach_ring. assert (E : existsb (λ x, bool_decide (ar_name x = ar_name r)) (rings_ c) = true).
    { apply names_elem, list_elem_of_fmap. by exists r. }
    by rewrite E. }
  destruct (discovers_once mx_new sys c w H Hl Hc) as (res&c'&w'&E&D&_). exists res, c', w'. split; [done|].
  destruct (ds_rings _ _ _ _ _ D) as (new&->&_). cbn [rings_ set_rings].
  pose proof (cn_names _ _ (ds_center _ _ _ _ _ D)) as Hd. cbn [rings_ set_rings] in Hd.
  intros r' Hr' Hn. assert (r' = r) as ->; [|done].
  assert (Hr2 : r ∈ rings_ c ++ new) by (apply elem_of_app; by left).
  apply list_elem_of_lookup in Hr' as [i Hi], Hr2 as [j Hj].
  assert (i = j) as ->; [|congruence].
  apply (NoDup_lookup _ i j (ar_name r) Hd); rewrite list_lookup_fmap; [by rewrite Hi, <-Hn|by rewrite Hj].
Qed.

(** C34: a drain pass hands the sink, ring by ring, the oldest records of each queue in order,
    at most a batch of each, decoded and cut to the scratch buffer; it returns their number, leaves
    the rest in the queues, detaches exactly the rings whose segment is dead, and gives back one
    descriptor and one mapping for each of them. *)
Theorem drain_spec sys (c : Center) room qs (s : S) (w : W) :
  world_ok w → center_ok c w → Forall2 (ring_holds room w) (rings_ c) qs → 0 ≤ room →
  scratch_bytes (options_ c) < 2 ^ 32 →
  let records := concat (zip_with (batch_records (options_ c)) (rings_ c) qs) in
  ∃ w', drain_once mx_new sys c s w =
          Some (u32 (Z.of_nat (length records)), survivors mx_new w c, fold_left (sink_ c) records s, w') ∧
        world_ok w' ∧ (laid_out w → laid_out w') ∧ center_ok (survivors mx_new w c) w' ∧ evolves w w' ∧
        w_names w' = w_names w ∧ w_heartbeat w' = w_heartbeat w ∧
        balance (survivors mx_new w c) w' = balance c w ∧
        Forall2 (ring_holds room w') (rings_ c) (batch_rest (options_ c) <$> qs).
Proof. apply drain_once_queues. Qed.

(** C3: end to end: a process initializes a logger and makes calls; another one polls with a
    fresh center while the first is alive and the logger's is the only segment with the prefix. The
    calls report what the bounded queue does, and the sink receives the oldest of the queued
    records, at most a batch of them ([drain_batch]), in order, with the segment's name, their
    level, flags, time stamp and payload. The ring has at least two records. *)
Theorem log_delivery sysA sysB o (w : W) h w1 calls hB fds maps hb opts sink (s : S) :
  let nm := logger_name sysA o in
  let spec := fifo_calls (lo_record_max o) (logger_stride o) calls (mkFifo [] 0) in
  let msgs := take (Z.to_nat (lc_drain_batch opts)) (f_queue spec.2) in
  world_ok w → options_typed o → valid_service_name (lo_service_name o) = true → 2 ≤ lo_record_max o →
  lo_max_payload o ≠ 0 → logger_stride o ≠ 0 → nm ≠ REGISTRY_NAME →
  create sysA (make_create_options o nm) w = (Value h, w1) →
  Forall call_ok calls → Z.of_nat (length calls) ≤ 2 ^ 62 →
  base_ hB = reg_id w1 → (∀ p, p ∈ hb_headers hb → p < Z.of_nat (w_next w1)) →
  sys_ok sysB → sys_keys sysB = sys_keys sysA →
  (∀ sz hdr, headers w1 !! w_next w = Some (sz, hdr) →
     owner_is_dead (sys_os sysB) hdr (monotonic_ns (sys_os sysB)) = false) →
  take (length (prefix opts)) nm = prefix opts →
  (∀ nm', is_Some (entries mx_new w !! nm') → take (length (prefix opts)) nm' ≠ prefix opts) →
  scratch_bytes opts < 2 ^ 32 → 0 ≤ lc_drain_batch opts < 2 ^ 32 →
  ∃ l w2 w3, init sysA o w = Some (Value l, w2) ∧ run_calls mx_new l calls w2 = Some (spec.1, w3) ∧
    ∃ pause c' w4,
      poll_once mx_new sysB (set_sink (Some sink) (make_center opts)) s (as_process hB fds maps hb w3) =
      Some (Z.of_nat (length msgs), pause, c',
            fold_left sink (delivered nm (Z.of_nat (Z.to_nat (scratch_bytes opts))) <$> msgs) s, w4).
Proof.
  intros nm spec msgs H Ht Hsv Hr Hm Hst Hne Ec Hcs Hlen HhB Hhb HsB Hkeys Hlive Hpre Honly Hsc Hb.
  pose proof (create_cases mx_new sysA _ w H (create_options_nonneg o nm Ht)) as Hc. rewrite Ec in Hc.
  destruct Hc as (H1&_&hdr&C).
  destruct (init_fresh mx_new sysA o w h w1 (2 ^ 62)) as (w2&Ei&Hw2&Hseg2&Hin2); try done; [destruct Ht; lia|].
  set (v := log_view _ _ _) in *. set (l := mkLogger h v nm) in *.
  destruct (run_calls_queue mx_new l (lo_record_max o) (logger_stride o) (2 ^ 62) calls w2 (mkFifo [] 0))
    as (w3&Er&Hw3&Hin3); try done. fold spec in Er, Hin3.
  exists l, w2, w3. split; [exact Ei|]. split; [exact Er|].
  pose proof (created_live mx_new sysA (make_create_options o nm) w h w1 hdr H) as L1.
  specialize (L1 ltac:(done) Ec C Hne). set (sg1 := mkSegment _ _ _ _) in L1.
  assert (Hw13 : writes (eq (w_next w)) w1 w3) by (eapply writes_trans; [exact Hw2|exact Hw3]).
  destruct (writes_live mx_new _ _ _ w1 w3 _ _ Hw13 L1) as (sg3&L3&Eh3&_).
  assert (Ereg : reg_id w3 = reg_id w1) by (unfold reg_id; by rewrite (wr_frame _ _ _ Hw13)).
  destruct (process_ok mx_new hB fds maps hb w3) as [H4 _].
  { by eapply writes_ok. }
  { by rewrite Ereg. }
  { intros p Hp. specialize (Hhb p Hp). by rewrite (wr_frame _ _ _ Hw13). }
  destruct (poll_live mx_new sysB (set_sink (Some sink) (make_center opts)) nm (lo_record_max o) (logger_stride o)
    (2 ^ 62 - Z.of_nat (length calls)) (as_process hB fds maps hb w3) (w_next w) sg3 spec.2 s)
    as (pause&c'&w4&Ep&_); try done.
  - rewrite Hkeys. apply live_process; [by rewrite Ereg|done].
  - rewrite Eh3. apply (Hlive (co_total_size (make_create_options o nm))). unfold headers. by rewrite lookup_fmap, (cr_object _ _ _ _ _ _ _ C).
  - apply (ring_segment_writes _ _ _ _ w2 w3 Hw3) in Hseg2. exact Hseg2.
  - apply (ring_in_objs _ _ _ _ w3); [done|exact Hin3].
  - lia.
  - intros nm' Hs' Hp'. destruct (decide (nm' = nm)) as [|Hd]; [done|]. exfalso. apply (Honly nm'); [|done].
    revert Hs'. rewrite entries_process by by rewrite Ereg.
    unfold entries at 1. rewrite (writes_registry mx_new _ w1 w3 Hw13). fold (entries mx_new w1).
    rewrite (cr_entries _ _ _ _ _ _ _ C). cbn [co_name make_create_options]. rewrite bool_decide_false by done.
    by rewrite lookup_insert_ne.
  - by exists pause, c', w4.
Qed.

End center.
End theorems.

(** ** Witnesses *)

Lemma default_name_spec_witness :
  has_value (parse_and_validate_name (default_segment_name (str "svc") 42)) = true ∧
  default_segment_name (str "svc_4") 2 ≠ default_segment_name (str "svc") 42.
Proof.
  destruct (default_name_spec (str "svc") 42) as [E Hinj]; [done|done|]. split; [by rewrite E|].
  intros Eq. destruct (Hinj (str "svc_4") 2) as [_ Hp]; [done|exact Eq|discriminate Hp].
Defined.

(** A logger of process 42 with four records of 48 bytes, and a center in process 43. *)
Definition demo_options : LoggerOptions := mkLoggerOptions (str "svc") [] 4 8 384 0.

Definition demo_log_create : CreateOptions := make_create_options demo_options (logger_name (demo_sys 42 10) demo_options).

Definition demo_log_world : World mx_status := (create MxFree (demo_sys 42 10) demo_log_create demo_boot).2.

Lemma demo_log_created :
  create MxFree (demo_sys 42 10) demo_log_create demo_boot =
  (Value (mkShmHandle (Some 1%nat) 736 true ReadWrite true), demo_log_world).
Proof.
  assert (E : (create MxFree (demo_sys 42 10) demo_log_create demo_boot).1 =
              Value (mkShmHandle (Some 1%nat) 736 true ReadWrite true)) by (vm_compute; reflexivity).
  unfold demo_log_world. destruct (create MxFree (demo_sys 42 10) demo_log_create demo_boot) as [r w].
  cbn [fst snd] in *. by rewrite E.
Qed.

Definition demo_calls : list log_call :=
  [mkLogCall (demo_sys 42 11) (λ _, false) Warn (Text (str "disk")) [];
   mkLogCall (demo_sys 42 12) (λ _, false) Info (Format None) [];
   mkLogCall (demo_sys 42 12) (λ _, false) Fatal (Format (Some (Some (replicate 60 120)))) []].

Definition demo_center : LogCenterOptions := default_center_options.

Definition collect (s : list LogRecord) (r : LogRecord) : list LogRecord := s ++ [r].

(** What the queue holds after the calls: the second does not publish, the third is cut to the slot. *)
Definition demo_msgs : list Msg :=
  [mkMsg 3 0 11000000000 (str "disk"); mkMsg 5 1 12000000000 (replicate 48 120)].

Lemma demo_spec :
  fifo_calls 4 64 demo_calls (mkFifo [] 0) = ([Value tt; Error InvalidName; Value tt], mkFifo demo_msgs 0).
Proof. vm_compute. reflexivity. Qed.

Lemma demo_calls_ok : Forall call_ok demo_calls.
Proof.
  repeat constructor; try (exists 0%nat; split; [apply Nat.lt_0_succ|done]); cbn; try done; solve_bytes.
Qed.

Lemma demo_boot_entries nm : entries MxFree demo_boot !! nm = None.
Proof.
  unfold entries. rewrite (boot_registry MxFree (demo_sys 42 10) (demo_sys_ok 42 10)). cbn [rg_payload].
  rewrite fresh_map. apply lookup_empty.
Qed.

Lemma demo_log_alive sz hdr :
  headers demo_log_world !! 1%nat = Some (sz, hdr) →
  owner_is_dead (sys_os (demo_sys 43 12)) hdr (monotonic_ns (sys_os (demo_sys 43 12))) = false.
Proof.
  assert (E : headers demo_log_world !! 1%nat = Some (736, demo_header_of demo_log_world)) by (vm_compute; reflexivity).
  rewrite E. intros Hh. apply (inj Some), (f_equal snd) in Hh. cbn [snd] in Hh. rewrite <-Hh. vm_compute. reflexivity.
Qed.

Lemma logger_init_creates_witness :
  ∃ v w2, init MxFree (demo_sys 42 10) demo_options demo_boot =
    Some (Value (mkLogger (mkShmHandle (Some 1%nat) 736 true ReadWrite true) v
                  (logger_name (demo_sys 42 10) demo_options)), w2) ∧
    ring_in v 4 64 (2 ^ 62) w2 (mkFifo [] 0).
Proof.
  destruct (logger_init_creates MxFree (demo_sys 42 10) demo_options demo_boot
    (mkShmHandle (Some 1%nat) 736 true ReadWrite true) demo_log_world) as (v&w2&E&_&_&Hin&_).
  - exact (proj1 demo_boot_ok).
  - split; vm_compute; split; (discriminate || reflexivity).
  - vm_compute. reflexivity.
  - vm_compute. discriminate.
  - discriminate.
  - vm_compute. discriminate.
  - exact demo_log_created.
  - exists v, w2. split; [exact E|exact Hin].
Defined.

(** A payload size whose stride wraps to zero: the segment is created and removed again. *)
Definition wrapped_options : LoggerOptions := mkLoggerOptions (str "svc") [] 4 (2 ^ 32 - 40) 384 0.

Lemma wrapped_typed : options_typed wrapped_options.
Proof. split; vm_compute; split; (discriminate || reflexivity). Qed.

Lemma logger_init_error_clean_witness :
  ∃ w', init MxFree (demo_sys 42 10) wrapped_options demo_boot = Some (Error CorruptedHeader, w') ∧
        no_leak MxFree demo_boot w'.
Proof.
  assert (E : fst <$> init MxFree (demo_sys 42 10) wrapped_options demo_boot = Some (Error CorruptedHeader))
    by (vm_compute; reflexivity).
  destruct (init MxFree (demo_sys 42 10) wrapped_options demo_boot) as [[r w']|] eqn:Ei; [|discriminate E].
  cbn in E. injection E as ->. exists w'. split; [reflexivity|].
  apply (logger_init_error_clean MxFree (demo_sys 42 10) wrapped_options demo_boot CorruptedHeader w').
  - exact (proj1 demo_boot_ok).
  - exact wrapped_typed.
  - reflexivity.
  - exact Ei.
Defined.

Lemma demo_log_init :
  ∃ w2, init MxFree (demo_sys 42 10) demo_options demo_boot =
    Some (Value (mkLogger (mkShmHandle (Some 1%nat) 736 true ReadWrite true) (log_view 1 4 64)
                  (logger_name (demo_sys 42 10) demo_options)), w2) ∧
    writes (eq 1%nat) demo_log_world w2 ∧ ring_segment 1 4 64 w2 ∧
    ring_in (log_view 1 4 64) 4 64 (2 ^ 62) w2 (mkFifo [] 0).
Proof.
  apply (init_fresh MxFree (demo_sys 42 10) demo_options demo_boot _ demo_log_world (2 ^ 62)).
  - exact (proj1 demo_boot_ok).
  - split; vm_compute; split; (discriminate || reflexivity).
  - vm_compute. reflexivity.
  - vm_compute. discriminate.
  - discriminate.
  - vm_compute. discriminate.
  - vm_compute. reflexivity.
  - exact demo_log_created.
Qed.

Lemma logger_calls_queue_witness :
  ∃ (l : Logger) (w w' : World mx_status),
    run_calls MxFree l demo_calls w = Some ([Value tt; Error InvalidName; Value tt], w') ∧
    ring_in (ring_ l) 4 64 (2 ^ 62 - 3) w' (mkFifo demo_msgs 0).
Proof.
  destruct demo_log_init as (w2&_&_&_&Hin). set (l := mkLogger empty_handle (log_view 1 4 64) []).
  destruct (logger_calls_queue MxFree l 4 64 (2 ^ 62) demo_calls w2 (mkFifo [] 0)) as (w'&E&_&Hin').
  - exact Hin.
  - vm_compute. discriminate.
  - exact demo_calls_ok.
  - rewrite demo_spec in E, Hin'. exists l, w2, w'. split; [exact E|exact Hin'].
Defined.

Lemma demo_log_laid_out : laid_out demo_log_world.
Proof.
  assert (H : map_Forall (λ _, seg_laid_out) (w_objs demo_log_world)).
  { refine (bool_decide_eq_true_1 _ _). vm_compute. reflexivity. }
  intros id s Eo. exact (H id s Eo).
Qed.

Lemma demo_log_ok : world_ok MxFree demo_log_world.
Proof.
  pose proof (create_cases MxFree (demo_sys 42 10) demo_log_create demo_boot (proj1 demo_boot_ok)) as H.
  unfold create_outcome in H. rewrite demo_log_created in H. by apply H.
Qed.

Definition demo_log_center : LogCenter (list LogRecord) := set_sink (Some collect) (make_center demo_center).

Lemma demo_center_ok w : center_ok (Mx := mx_status) demo_log_center w.
Proof. split; [constructor|apply NoDup_nil_2]. Qed.

Lemma discover_spec_witness :
  ∃ res c' w' new, discover_once MxFree (demo_sys 43 12) demo_log_center demo_log_world = Some (res, c', w') ∧
                   discovers MxFree demo_log_center demo_log_world c' w' ∧ rings_ c' = new.
Proof.
  destruct (discover_spec MxFree (demo_sys 43 12) demo_log_center demo_log_world)
    as (res&c'&w'&new&E&D&Er&_); [exact demo_log_ok|exact demo_log_laid_out|apply demo_center_ok|].
  exists res, c', w', new. split; [exact E|]. split; [exact D|exact Er].
Defined.

(** The center attached to the logger's ring after the calls. *)
Lemma demo_attached :
  ∃ r w, ar_name r = logger_name (demo_sys 42 10) demo_options ∧ world_ok MxFree w ∧
         center_ok (set_rings [r] demo_log_center) w ∧ ring_holds (2 ^ 62 - 3) w r (mkFifo demo_msgs 0).
Proof.
  destruct demo_log_init as (w2&_&Hw2&Hseg&Hin). set (l := mkLogger empty_handle (log_view 1 4 64) []).
  destruct (run_calls_queue MxFree l 4 64 (2 ^ 62) demo_calls w2 (mkFifo [] 0)) as (w3&_&Hw3&Hin3);
    [exact Hin|done|exact demo_calls_ok|].
  rewrite demo_spec in Hin3. cbn [snd] in Hin3. assert (Hw : writes (eq 1%nat) demo_log_world w3)
    by (eapply writes_trans; [exact Hw2|exact Hw3]).
  pose proof (create_cases MxFree (demo_sys 42 10) demo_log_create demo_boot (proj1 demo_boot_ok)) as Hc.
  unfold create_outcome in Hc. rewrite demo_log_created in Hc. destruct Hc as (_&_&hdr&C); [done|].
  assert (En : w_next demo_boot = 1%nat) by (vm_compute; reflexivity).
  pose proof (created_live MxFree (demo_sys 42 10) demo_log_create demo_boot _ demo_log_world hdr
    (proj1 demo_boot_ok) ltac:(done) demo_log_created C ltac:(done)) as L1. rewrite En in L1.
  pose proof (cr_object _ _ _ _ _ _ _ C) as Eo1. rewrite En in Eo1.
  destruct (writes_live MxFree _ _ _ _ w3 _ _ Hw L1) as (sg&L3&Eh&_).
  destruct (attach_ring_live MxFree (demo_sys 43 12) (co_name demo_log_create) demo_log_center 4 64 (2 ^ 62 - 3)
    w3 1 sg (mkFifo demo_msgs 0)) as (w4&_&H4&_&Hok&Hin4&_).
  - eapply writes_ok; [exact Hw|exact demo_log_ok].
  - apply demo_sys_ok.
  - apply demo_center_ok.
  - exact L3.
  - rewrite Eh. apply (demo_log_alive (co_total_size demo_log_create)). unfold headers. by rewrite lookup_fmap, Eo1.
  - apply not_elem_of_nil.
  - exact (ring_segment_writes _ _ _ _ w2 w3 Hw3 Hseg).
  - exact Hin3.
  - exists (mkAttachedRing (co_name demo_log_create) (mkShmHandle (Some 1%nat) (sg_size sg) true ReadWrite false)
              (log_view 1 4 64) false), w4.
    split; [reflexivity|]. split; [exact H4|]. split; [|exists 4, 64; exact Hin4].
    split; [constructor; [exact Hok|constructor]|apply NoDup_singleton].
Qed.

Lemma drain_spec_witness :
  ∃ (r : AttachedRing) c' (w w' : World mx_status),
    drain_once MxFree (demo_sys 43 12) (set_rings [r] demo_log_center) [] w =
    Some (2, c', delivered (ar_name r) 4096 <$> demo_msgs, w') ∧ center_ok c' w'.
Proof.
  destruct demo_attached as (r&w&_&H&Hc&Hq). exists r.
  destruct (drain_spec MxFree (demo_sys 43 12) (set_rings [r] demo_log_center) (2 ^ 62 - 3) [mkFifo demo_msgs 0] [] w)
    as (w'&E&_&_&Hc'&_).
  - exact H.
  - exact Hc.
  - constructor; [exact Hq|constructor].
  - vm_compute. discriminate.
  - reflexivity.
  - exists (survivors MxFree w (set_rings [r] demo_log_center)), w, w'. split; [exact E|exact Hc'].
Defined.

Lemma log_delivery_witness :
  ∃ l w2 w3, init MxFree (demo_sys 42 10) demo_options demo_boot = Some (Value l, w2) ∧
    run_calls MxFree l demo_calls w2 = Some ([Value tt; Error InvalidName; Value tt], w3) ∧
    ∃ pause c' w4,
      poll_once MxFree (demo_sys 43 12) demo_log_center [] (as_process (mkShmHandle (Some 0%nat) 0 true ReadWrite false) 1 1 hb_init w3) =
      Some (2, pause, c', fold_left collect
        (delivered (logger_name (demo_sys 42 10) demo_options) 4096 <$> demo_msgs) [], w4).
Proof.
  destruct (log_delivery MxFree (demo_sys 42 10) (demo_sys 43 12) demo_options demo_boot
    (mkShmHandle (Some 1%nat) 736 true ReadWrite true) demo_log_world demo_calls
    (mkShmHandle (Some 0%nat) 0 true ReadWrite false) 1 1 hb_init demo_center collect []) as (l&w2&w3&Ei&Er&pause&c'&w4&Ep).
  - exact (proj1 demo_boot_ok).
  - split; vm_compute; split; (discriminate || reflexivity).
  - vm_compute. reflexivity.
  - vm_compute. discriminate.
  - discriminate.
  - vm_compute. discriminate.
  - vm_compute. discriminate.
  - exact demo_log_created.
  - exact demo_calls_ok.
  - vm_compute. discriminate.
  - vm_compute. reflexivity.
  - intros p Hp. apply elem_of_nil in Hp. destruct Hp.
  - apply demo_sys_ok.
  - reflexivity.
  - assert (En : w_next demo_boot = 1%nat) by (vm_compute; reflexivity). rewrite En. apply demo_log_alive.
  - vm_compute. reflexivity.
  - intros nm' Hs. rewrite demo_boot_entries in Hs. destruct Hs as [x Hx]. discriminate Hx.
  - reflexivity.
  - split; [discriminate|reflexivity].
  - change (lo_record_max demo_options) with 4 in *. change (logger_stride demo_options) with 64 in *.
    rewrite demo_spec in Er, Ep. exists l, w2, w3. split; [exact Ei|]. split; [exact Er|].
    exists pause, c', w4. exact Ep.
Defined.
