(* ===== verification/System.v ===== *)
(** * The logging system

    Loggers of any number of processes, one log center and everybody else who creates, attaches
    and destroys segments, over one shared memory: the operations any of them may run, each as one
    step, and the specification of what they add up to. In the specification there is no memory:
    rings are bounded queues with a history, the center is a list of rings it reads, and what the
    sink has been handed is a list of events. *)

From S2P Require Import Prelude Types Sync RingMem RingCells RingBytes RingProps.
From S2P Require Import Security Lifecycle Registry Manager ManagerInv Janitor ManagerOps ManagerSteps.
From S2P Require Import Contents SegmentRing Logger LogCenter.

#[local] Opaque NSLOTS reg_map.

(** ** Operations *)

Inductive op :=
  (** [Logger::init]: a logger more when it succeeds *)
  | OpInit (sys : Sys) (o : LoggerOptions)
  (** a call of the [i]-th logger, and its end *)
  | OpLog (i : nat) (c : log_call)
  | OpEnd (sys : Sys) (i : nat)
  (** [LogCenter::poll_once], and a new center in place of the one that ends *)
  | OpPoll (sys : Sys)
  | OpRestart (sys : Sys)
  (** what any process does with [ShmManager] and its handles *)
  | OpCreate (sys : Sys) (o : CreateOptions)
  | OpAttach (sys : Sys) (nm : bytes) (mode : AttachMode)
  | OpReset (sys : Sys) (h : ShmHandle)
  | OpDestroy (sys : Sys) (nm : bytes)
  | OpGc (sys : Sys)
  (** a tick of the heartbeat worker, and the turn of another process *)
  | OpTick (now : Z)
  | OpProcess (h : ShmHandle) (fds maps : Z) (hb : Heartbeat).

Inductive answer := AResult (r : Result unit) | ADrained (n : Z) | ANone.

(** ** The program *)

Record System (Mx S : Type) := mkSystem {
  sy_world : World Mx;
  sy_loggers : list Logger;
  sy_center : LogCenter S;
  sy_sink : S;
}.
Arguments mkSystem {_ _} _ _ _ _.
Arguments sy_world {_ _} _.
Arguments sy_loggers {_ _} _.
Arguments sy_center {_ _} _.
Arguments sy_sink {_ _} _.

Section program.
Context {Mx : Type} `{!RobustMutex Mx} (mx_new : Mx) {S : Type}.
Variables (opts : LogCenterOptions) (sink : S → LogRecord → S).

Abbreviation W := (World Mx).
Abbreviation Sy := (System Mx S).

Definition set_world (w : W) (y : Sy) : Sy := mkSystem w (sy_loggers y) (sy_center y) (sy_sink y).

Definition new_center : LogCenter S := set_sink (Some sink) (make_center opts).

Definition drop_value {A} (r : Result A) : Result unit :=
  match r with Value _ => Value tt | Error e => Error e end.

(** [None] stands for an access outside a mapping. A call or an end of a logger that is not there
    is skipped. *)
Definition do_op (o : op) (y : Sy) : option (answer * Sy) :=
  let w := sy_world y in
  match o with
  | OpInit sys lo =>
      q ← init mx_new sys lo w;
      match q with
      | (Error e, w) => Some (AResult (Error e), set_world w y)
      | (Value l, w) => Some (AResult (Value tt), mkSystem w (sy_loggers y ++ [l]) (sy_center y) (sy_sink y))
      end
  | OpLog i c =>
      match sy_loggers y !! i with
      | None => Some (ANone, y)
      | Some l => q ← run_call mx_new l c w; Some (AResult q.1, set_world q.2 y)
      end
  | OpEnd sys i =>
      match sy_loggers y !! i with
      | None => Some (ANone, y)
      | Some l =>
          Some (ANone, mkSystem (logger_end mx_new sys l w) (delete i (sy_loggers y)) (sy_center y) (sy_sink y))
      end
  | OpPoll sys =>
      q ← poll_once mx_new sys (sy_center y) (sy_sink y) w;
      let '(n, _, c, s, w) := q in Some (ADrained n, mkSystem w (sy_loggers y) c s)
  | OpRestart sys =>
      Some (ANone, mkSystem (center_end mx_new sys (sy_center y) w) (sy_loggers y) new_center (sy_sink y))
  | OpCreate sys co => let q := create mx_new sys co w in Some (AResult (drop_value q.1), set_world q.2 y)
  | OpAttach sys nm mode => let q := attach mx_new sys nm mode w in Some (AResult (drop_value q.1), set_world q.2 y)
  | OpReset sys h => Some (ANone, set_world (handle_reset mx_new sys h w) y)
  | OpDestroy sys nm => let q := destroy mx_new sys nm w in Some (AResult q.1, set_world q.2 y)
  | OpGc sys => Some (ANone, set_world (gc mx_new sys w) y)
  | OpTick now => Some (ANone, set_world (tick now w) y)
  | OpProcess h fds maps hb => Some (ANone, set_world (as_process h fds maps hb w) y)
  end.

(** What is asked of an operation: arguments in their types, a ring of at least two records, a
    compare-and-swap that does not fail spuriously for ever, and a process that has the registry
    mapped. System calls may fail in any way. *)
Definition op_ok (o : op) (y : Sy) : Prop :=
  match o with
  | OpInit _ lo => options_typed lo ∧ lo_record_max lo ≠ 1
  | OpLog _ c => call_ok c
  | OpCreate _ co => 0 ≤ co_total_size co
  | OpProcess h _ _ hb => base_ h = reg_id (sy_world y) ∧
                          ∀ p, p ∈ hb_headers hb → p < Z.of_nat (w_next (sy_world y))
  | _ => True
  end.

(** The system after the bootstrap of the registry. *)
Definition start (sys : Sys) (s : S) : Sy := mkSystem (boot mx_new sys) [] new_center s.

Inductive sys_run (y0 : Sy) : list (op * answer) → Sy → Prop :=
  | run_start : sys_run y0 [] y0
  | run_step tr y o a y' : sys_run y0 tr y → op_ok o y → do_op o y = Some (a, y') → sys_run y0 (tr ++ [(o, a)]) y'.

(** Running a list of operations. *)
Fixpoint exec (os : list op) (y : Sy) : option (list (op * answer) * Sy) :=
  match os with
  | [] => Some ([], y)
  | o :: os' =>
      q ← do_op o y;
      r ← exec os' q.2;
      Some ((o, q.1) :: r.1, r.2)
  end.

Lemma sys_run_trans y0 tr1 y1 tr2 y2 : sys_run y0 tr1 y1 → sys_run y1 tr2 y2 → sys_run y0 (tr1 ++ tr2) y2.
Proof.
  intros H1. induction 1 as [|tr y o a y' _ IH Hok E]; [by rewrite app_nil_r|]. rewrite (assoc (++)). by eapply run_step.
Qed.

Lemma exec_run os y tr y' :
  Forall (λ o, ∀ y, op_ok o y) os → exec os y = Some (tr, y') → sys_run y tr y'.
Proof.
  intros Hos. revert y tr. induction Hos as [|o os Ho _ IH]; intros y tr; cbn [exec]; [intros [= <- <-]; constructor|].
  destruct (do_op o y) as [[a y1]|] eqn:E; [|done]. cbn [mbind option_bind fst snd].
  destruct (exec os y1) as [[tr1 y2]|] eqn:E1; [|done]. cbn [mbind option_bind fst snd]. intros [= <- <-].
  apply (sys_run_trans y [(o, a)] y1 tr1 y2); [|by apply IH]. apply (run_step y [] y o a y1); [constructor|done|done].
Qed.

End program.

(** ** The specification *)

(** A ring: its geometry, the messages it has accepted, the number of those it has refused, and
    the queue. *)
Record RingSpec := mkRingSpec {
  rs_cap : Z;
  rs_stride : Z;
  rs_sent : list Msg;
  rs_refused : Z;
  rs_queue : Fifo;
}.

Definition new_ring_spec (cap stride : Z) : RingSpec := mkRingSpec cap stride [] 0 (mkFifo [] 0).

(** What has been handed to the sink: from which ring, under which name, which message. *)
Definition event : Type := nat * bytes * Msg.

(** The rings by object; which ring each logger writes; the names and rings the center reads. *)
Record Spec := mkSpec {
  sp_rings : gmap nat RingSpec;
  sp_loggers : list nat;
  sp_attached : list (bytes * nat);
  sp_events : list event;
}.

Definition spec_start : Spec := mkSpec ∅ [] [] [].

(** A call on a ring. *)
Definition ring_call (c : log_call) (r : RingSpec) : Result unit * RingSpec :=
  let q := fifo_call (rs_cap r) (rs_stride r) c (rs_queue r) in
  let sent := match call_record c, q.1 with
              | Value (ty, fl, us, p), Value _ => [stored_msg (rs_stride r) ty fl us p]
              | _, _ => []
              end in
  let refused := if bool_decide (q.1 = Error RingFull) then 1 else 0 in
  (q.1, mkRingSpec (rs_cap r) (rs_stride r) (rs_sent r ++ sent) (rs_refused r + refused) q.2).

(** A pass of the center over the rings [att]. *)
Definition ring_rest (o : LogCenterOptions) (r : RingSpec) : RingSpec :=
  mkRingSpec (rs_cap r) (rs_stride r) (rs_sent r) (rs_refused r) (batch_rest o (rs_queue r)).

Definition batch_events (o : LogCenterOptions) (rings : gmap nat RingSpec) (x : bytes * nat) : list event :=
  match rings !! x.2 with
  | Some r => (λ m, (x.2, x.1, m)) <$> take (Z.to_nat (lc_drain_batch o)) (f_queue (rs_queue r))
  | None => []
  end.

Definition pass_events (o : LogCenterOptions) (att : list (bytes * nat)) (rings : gmap nat RingSpec) : list event :=
  concat (batch_events o rings <$> att).

Definition pass_rings (o : LogCenterOptions) (att : list (bytes * nat)) (rings : gmap nat RingSpec) : gmap nat RingSpec :=
  map_imap (λ id r, Some (if bool_decide (id ∈ att.*2) then ring_rest o r else r)) rings.

Definition manager_op (o : op) : bool :=
  match o with
  | OpCreate _ _ | OpAttach _ _ _ | OpReset _ _ | OpDestroy _ _ | OpGc _ | OpTick _ | OpProcess _ _ _ _ => true
  | _ => false
  end.

(** What an operation may do. Initialization fails without effect, makes an empty ring of the
    requested geometry, or joins a ring that is there; a call is a call on its logger's queue; a
    poll may find more rings under the prefix, hands over the oldest records of every ring it reads and may then
    stop reading some; nothing else touches a ring. *)
Inductive spec_step (co : LogCenterOptions) (a : Spec) : op → answer → Spec → Prop :=
  | sp_init_error sys o e : spec_step co a (OpInit sys o) (AResult (Error e)) a
  | sp_init_new sys o id :
      sp_rings a !! id = None →
      spec_step co a (OpInit sys o) (AResult (Value tt))
        (mkSpec (<[id := new_ring_spec (lo_record_max o) (logger_stride o)]> (sp_rings a))
           (sp_loggers a ++ [id]) (sp_attached a) (sp_events a))
  | sp_init_join sys o id :
      is_Some (sp_rings a !! id) →
      spec_step co a (OpInit sys o) (AResult (Value tt))
        (mkSpec (sp_rings a) (sp_loggers a ++ [id]) (sp_attached a) (sp_events a))
  | sp_log i c id r :
      sp_loggers a !! i = Some id → sp_rings a !! id = Some r →
      spec_step co a (OpLog i c) (AResult (ring_call c r).1)
        (mkSpec (<[id := (ring_call c r).2]> (sp_rings a)) (sp_loggers a) (sp_attached a) (sp_events a))
  | sp_log_none i c : sp_loggers a !! i = None → spec_step co a (OpLog i c) ANone a
  | sp_end sys i :
      spec_step co a (OpEnd sys i) ANone (mkSpec (sp_rings a) (delete i (sp_loggers a)) (sp_attached a) (sp_events a))
  | sp_poll sys new stay :
      let att := sp_attached a ++ new in
      let evs := pass_events co att (sp_rings a) in
      NoDup att.*2 → Forall (λ x, is_Some (sp_rings a !! x.2)) new →
      Forall (λ x, take (length (prefix co)) x.1 = prefix co) new → stay `sublist_of` att →
      spec_step co a (OpPoll sys) (ADrained (u32 (Z.of_nat (length evs))))
        (mkSpec (pass_rings co att (sp_rings a)) (sp_loggers a) stay (sp_events a ++ evs))
  | sp_restart sys : spec_step co a (OpRestart sys) ANone (mkSpec (sp_rings a) (sp_loggers a) [] (sp_events a))
  | sp_manager o r : manager_op o = true → spec_step co a o r a.

Inductive spec_run (co : LogCenterOptions) : list (op * answer) → Spec → Prop :=
  | spec_run_start : spec_run co [] spec_start
  | spec_run_step tr a o r a' : spec_run co tr a → spec_step co a o r a' → spec_run co (tr ++ [(o, r)]) a'.

(** *** What the specification guarantees *)

(** The messages of a ring among the events. *)
Definition got (id : nat) (evs : list event) : list Msg := snd <$> filter (λ e, e.1.1 = id) evs.

(** Every accepted message has been handed over, in order and once, or is still queued; the
    counter of the ring counts the refused ones. *)
Record ring_conserved (id : nat) (evs : list event) (r : RingSpec) : Prop := {
  rc_sent : rs_sent r = got id evs ++ f_queue (rs_queue r);
  rc_lost : f_lost (rs_queue r) = u64 (rs_refused r);
  rc_bound : Z.of_nat (length (f_queue (rs_queue r))) ≤ Z.max 0 (rs_cap r);
}.

Record conserved (a : Spec) : Prop := {
  cv_rings : map_Forall (λ id, ring_conserved id (sp_events a)) (sp_rings a);
  cv_events : Forall (λ e : event, is_Some (sp_rings a !! e.1.1)) (sp_events a);
}.

Lemma got_app id e1 e2 : got id (e1 ++ e2) = got id e1 ++ got id e2.
Proof. unfold got. by rewrite filter_app, fmap_app. Qed.

Lemma got_absent id evs : Forall (λ e : event, e.1.1 ≠ id) evs → got id evs = [].
Proof.
  intros H. unfold got. induction H as [|e evs He _ IH]; [done|]. by rewrite filter_cons, decide_False.
Qed.

Lemma got_batch id nm (ms : list Msg) : got id ((λ m, (id, nm, m)) <$> ms) = ms.
Proof.
  unfold got. induction ms as [|m ms IH]; [done|]. rewrite fmap_cons, filter_cons, decide_True by done.
  rewrite fmap_cons. cbn [snd]. f_equal. exact IH.
Qed.

Lemma batch_events_ring o rings x : Forall (λ e : event, e.1.1 = x.2 ∧ is_Some (rings !! x.2)) (batch_events o rings x).
Proof.
  unfold batch_events. destruct (rings !! x.2) eqn:E; [|constructor]. apply Forall_fmap, Forall_forall. intros m _. by split; [|eexists].
Qed.

Lemma pass_events_ring o att rings : Forall (λ e : event, e.1.1 ∈ att.*2 ∧ is_Some (rings !! e.1.1)) (pass_events o att rings).
Proof.
  unfold pass_events. induction att as [|x att IH]; [constructor|]. rewrite !fmap_cons. cbn [concat]. apply Forall_app. split.
  - eapply Forall_impl; [apply batch_events_ring|]. intros e [-> H]. split; [left|done].
  - eapply Forall_impl; [exact IH|]. intros e [H1 H2]. split; [by right|done].
Qed.

(** A pass takes a batch from each ring it reads. *)
Lemma got_pass o att rings id r :
  NoDup att.*2 → rings !! id = Some r →
  got id (pass_events o att rings) =
  if bool_decide (id ∈ att.*2) then take (Z.to_nat (lc_drain_batch o)) (f_queue (rs_queue r)) else [].
Proof.
  intros Hnd Er. case_bool_decide as Hin.
  - revert Hnd Hin. unfold pass_events. induction att as [|x att IH]; intros Hnd Hin; [by apply elem_of_nil in Hin|].
    rewrite !fmap_cons in *. cbn [concat]. rewrite got_app. apply NoDup_cons in Hnd as [Hni Hnd].
    apply elem_of_cons in Hin as [->|Hin].
    + unfold batch_events at 1. rewrite Er, got_batch, got_absent, app_nil_r; [done|].
      eapply Forall_impl; [apply pass_events_ring|]. intros e [He _] E. by rewrite E in He.
    + rewrite got_absent; [by apply IH|]. eapply Forall_impl; [apply batch_events_ring|]. intros e [-> _] E. congruence.
  - apply got_absent. eapply Forall_impl; [apply pass_events_ring|]. intros e [He _] <-. done.
Qed.

Lemma pass_rings_lookup o att rings id :
  pass_rings o att rings !! id = (λ r, if bool_decide (id ∈ att.*2) then ring_rest o r else r) <$> rings !! id.
Proof. unfold pass_rings. rewrite map_lookup_imap. by destruct (rings !! id). Qed.

Lemma ring_call_conserved c id evs r :
  ring_conserved id evs r → ring_conserved id evs (ring_call c r).2.
Proof.
  intros [Hs Hl Hb]. unfold ring_call, fifo_call. destruct (call_record c) as [[[[ty fl] us] p]|e] eqn:Ec.
  - unfold fifo_push. case_bool_decide as Hlt; cbn [fst snd]; split; cbn [rs_sent rs_queue rs_refused rs_cap f_queue f_lost].
    + rewrite Hs. by rewrite (assoc (++)).
    + by rewrite bool_decide_false, Z.add_0_r.
    + rewrite length_app. cbn [length]. lia.
    + by rewrite app_nil_r.
    + rewrite bool_decide_true, Hl by done. unfold u64. by rewrite Zplus_mod_idemp_l.
    + done.
  - assert (Hne : e ≠ RingFull).
    { revert Ec. unfold call_record. destruct (lc_kind c) as [m|d|[[text|]|]]; try congruence. repeat case_match; congruence. }
    cbn [fst snd]. split; cbn [rs_sent rs_queue rs_refused rs_cap]; [by rewrite app_nil_r| |done].
    by rewrite bool_decide_false, Z.add_0_r by congruence.
Qed.

Lemma spec_step_conserved co a o r a' : spec_step co a o r a' → conserved a → conserved a'.
Proof.
  intros St [Hr He]. destruct St as [ | sys o id Hid | | i c id r Hi Hid | | |sys new stay att evs Hnd Hnew Hpre Hst | | ]; try (by split).
  - split; cbn [sp_rings sp_events].
    + apply map_Forall_insert_2; [|done]. split; [|done|cbn; lia]. cbn. rewrite got_absent; [done|].
      eapply Forall_impl; [exact He|]. intros e [r E] <-. congruence.
    + eapply Forall_impl; [exact He|]. intros e [r E]. rewrite lookup_insert_ne by congruence. by exists r.
  - split; cbn [sp_rings sp_events].
    + apply map_Forall_insert_2; [|done]. apply ring_call_conserved. by apply (Hr id).
    + eapply Forall_impl; [exact He|]. intros e [r' E]. destruct (decide (id = e.1.1)) as [->|Hne].
      * by rewrite lookup_insert_eq.
      * rewrite lookup_insert_ne by done. by exists r'.
  - split; cbn [sp_rings sp_events].
    + intros id r'. rewrite pass_rings_lookup, fmap_Some. intros (r0&E0&->). pose proof (Hr id r0 E0) as [Hs Hl Hb].
      pose proof (got_pass co att (sp_rings a) id r0 Hnd E0) as Hg. fold evs in Hg.
      case_bool_decide; split; cbn [ring_rest rs_sent rs_queue rs_refused rs_cap batch_rest f_queue f_lost]; try done.
      * rewrite got_app, Hg, <-(assoc (++)), take_drop. done.
      * rewrite length_drop. lia.
      * by rewrite got_app, Hg, app_nil_r.
    + apply Forall_app. split; (eapply Forall_impl; [first [exact He|apply pass_events_ring]|]);
        intros e Hx; rewrite pass_rings_lookup, fmap_is_Some; [done|apply Hx].
Qed.

Lemma spec_run_conserved co tr a : spec_run co tr a → conserved a.
Proof.
  induction 1 as [|tr a o r a' _ IH St]; [split; [apply map_Forall_empty|constructor]|]. by eapply spec_step_conserved.
Qed.
