(* ===== verification/SystemInv.v ===== *)
(** * The logging system implements its specification

    The relation between the program and its specification: every ring of the specification is a
    queue in the bytes of its segment, segments nobody has initialized hold zeros, loggers and
    attached rings are views of these rings. Every operation keeps it. *)

From S2P Require Import Prelude Types Sync RingMem RingCells RingBytes RingProps.
From S2P Require Import Security Lifecycle Registry Manager ManagerInv Janitor ManagerOps ManagerSteps.
From S2P Require Import Contents SegmentRing Logger LogCenter System.

#[local] Opaque NSLOTS reg_map.

(** ** [Logger::init] on every branch *)

Section init.
Context {Mx : Type} `{!RobustMutex Mx, !RobustMutexLaws Mx} (mx_new : Mx).

Abbreviation W := (World Mx).
Abbreviation world_ok := (world_ok mx_new).
Implicit Types w : W.

(** The world after an operation that has written to no old segment. *)
Record after (w w' : W) : Prop := {
  af_ok : world_ok w';
  af_evolves : evolves w w';
  af_grows : grows w w';
}.

Lemma after_refl w : world_ok w → after w w.
Proof. by split. Qed.

Lemma after_kept w0 w w' : after w0 w → world_ok w' → evolves w w' → contents_kept w w' → after w0 w'.
Proof. intros [H He Hg] H' He' K. split; [done|by etrans|by apply (grows_kept w0 w)]. Qed.

Lemma after_constructed w0 w : world_ok w0 → after w0 w → is_Some (w_registry w).
Proof. intros H [_ _ G]. rewrite (gw_registry _ _ G). apply (reg_ready_constructed mx_new w0), H. Qed.

Lemma after_reset sys h w0 w : world_ok w0 → after w0 w → after w0 (handle_reset mx_new sys h w).
Proof.
  intros H A. destruct (handle_reset_ok mx_new sys h w (af_ok _ _ A)) as [H1 He1]. apply (after_kept w0 w); try done.
  apply handle_reset_contents; [|done]. by apply (after_constructed w0).
Qed.

Lemma after_destroy sys nm w0 w : world_ok w0 → after w0 w → after w0 (destroy mx_new sys nm w).2.
Proof.
  intros H A. destruct (destroy_ok mx_new sys nm w (af_ok _ _ A)) as [H1 He1]. apply (after_kept w0 w); try done.
  apply destroy_contents. by apply (after_constructed w0).
Qed.

Lemma after_attach sys nm mode w0 w : world_ok w0 → after w0 w → after w0 (attach mx_new sys nm mode w).2.
Proof.
  intros H A. destruct (attach_ok mx_new sys nm mode w (af_ok _ _ A)) as [H1 He1]. apply (after_kept w0 w); try done.
  apply (attach_contents mx_new sys nm mode w), A.
Qed.

Lemma after_create sys o w : world_ok w → 0 ≤ co_total_size o → after w (create mx_new sys o w).2.
Proof.
  intros H H0. pose proof (create_cases mx_new sys o w H H0) as Hc. pose proof (create_grows mx_new sys o w H H0) as G.
  destruct (create mx_new sys o w) as [r w1]. destruct Hc as (H1&He&_). by split.
Qed.

(** A logger on a ring of its own in a new segment, or on a ring that was there. *)
Definition init_made (o : LoggerOptions) (w w' : W) (v : RingView) : Prop :=
  (∃ id w1, after w w1 ∧ w_objs w !! id = None ∧ v = log_view id (lo_record_max o) (logger_stride o) ∧
     writes (eq id) w1 w' ∧ ring_segment id (lo_record_max o) (logger_stride o) w' ∧
     ring_in v (lo_record_max o) (logger_stride o) (2 ^ 62) w' (mkFifo [] 0)) ∨
  (after w w' ∧ view_bound mx_new w' v).

(** Binding to a segment that has been attached. *)
Lemma bind_logger_cases id size w s :
  laid_out w → w_objs w !! id = Some s → validate_header (sg_header s) (sg_size s) = Ok →
  ∃ r, bind_logger_ring mx_new (mkShmHandle (Some id) size true ReadWrite false) w = Some r ∧
       ∀ v, r = Value v → view_bound mx_new w v.
Proof.
  intros Hl Eo Hv. unfold bind_logger_ring. cbn [base_ mbind option_bind]. rewrite (seg_lookup mx_new w id s Eo).
  destruct (_ || _)%bool eqn:Et; [by eexists|]. bool_prop.
  destruct (ring_bind_defined mx_new id w s Hl Eo Hv) as (r&Er&Hobj); [done|done|]. exists r. split; [done|].
  intros v ->. specialize (Hobj v eq_refl). exists s. by rewrite Hobj.
Qed.

Lemma init_join sys o nm w0 w :
  world_ok w0 → after w0 w → laid_out w →
  ∃ res w', match attach mx_new sys nm ReadWrite w with
            | (Error e, w) => Some (Error e, w)
            | (Value h, w) =>
                r ← bind_logger_ring mx_new h w;
                match r with
                | Error e => Some (Error e, handle_reset mx_new sys h w)
                | Value ring => Some (Value (mkLogger h ring nm), w)
                end
            end = Some (res, w') ∧
    match res with Error _ => after w0 w' | Value l => init_made o w0 w' (ring_ l) end.
Proof.
  intros H A Hl. pose proof (after_attach sys nm ReadWrite w0 w H A) as A1.
  destruct (parse_and_validate_name nm) as [pn|] eqn:Ep.
  2: { unfold attach in *. rewrite Ep in *. by exists (Error e), w. }
  destruct (attach_world mx_new sys nm ReadWrite w (af_ok _ _ A)) as (H1&_&Hm); [unfold valid_name; by rewrite Ep|].
  pose proof (attach_contents mx_new sys nm ReadWrite w (af_ok _ _ A)) as K.
  set (w1 := if bool_decide (nm = REGISTRY_NAME) then w else gc mx_new sys w) in *.
  destruct Hm as [(id&sg&At&E)|(e&E&_)]; rewrite E in *; cbn [fst snd] in *; [|by exists (Error e), w1].
  set (h := mkShmHandle _ _ _ _ _) in *. set (w2 := attached ReadWrite id w1) in *.
  destruct (attached_object id sg w1 (at_object _ _ _ _ _ _ At)) as (s2&Eo2&_&Hv&_). fold w2 in Eo2.
  rewrite (at_valid _ _ _ _ _ _ At) in Hv. pose proof (laid_out_kept w w2 K Hl) as Hl2.
  destruct (bind_logger_cases id (sg_size sg) w2 s2 Hl2 Eo2 Hv) as (r&Er&Hb). fold h in Er. rewrite Er. cbn [mbind option_bind].
  destruct r as [v|e].
  - exists (Value (mkLogger h v nm)), w2. split; [done|]. right. split; [done|]. by apply Hb.
  - exists (Error e), (handle_reset mx_new sys h w2). split; [done|]. by apply after_reset.
Qed.

Lemma init_cases sys o w :
  world_ok w → laid_out w → options_typed o → lo_record_max o ≠ 1 →
  ∃ res w', init mx_new sys o w = Some (res, w') ∧
    match res with Error _ => after w w' | Value l => init_made o w w' (ring_ l) end.
Proof.
  intros H Hl Ht H1. unfold init. destruct (_ || _)%bool eqn:Eb; [exists (Error InvalidName), w; split; [done|by apply after_refl]|].
  set (nm := logger_name sys o). destruct (_ <=? _); [exists (Error InvalidName), w; split; [done|by apply after_refl]|].
  bool_prop. pose proof (after_create sys (make_create_options o nm) w H (create_options_nonneg o nm Ht)) as A.
  pose proof (create_cases mx_new sys _ w H (create_options_nonneg o nm Ht)) as Hc.
  destruct (create mx_new sys (make_create_options o nm) w) as [[h|err] w1]; cbn [snd] in A; destruct Hc as (_&_&Hc).
  - destruct Hc as [hdr C]. assert (base_ h = Some (w_next w)) as -> by by rewrite (cr_handle _ _ _ _ _ _ _ C).
    cbn [mbind option_bind]. destruct (decide (logger_stride o = 0)) as [Es|Es].
    { rewrite (created_ring_zero mx_new sys o nm w h w1 hdr Ht Es C). cbn [mbind option_bind].
      eexists (Error _), _. split; [reflexivity|]. by apply after_reset, after_destroy. }
    destruct (created_ring_new mx_new sys o nm w h w1 hdr Ht) as (w2&r&->&Hwr&Hseg&Hn); [destruct Ht; lia|done|done|].
    cbn [mbind option_bind]. eexists (Value _), w2. split; [reflexivity|]. left. exists (w_next w), w1.
    split_and!; try done.
    + apply eq_None_not_Some. intros Hs%(wo_next _ _ H). lia.
    + apply (new_ring_in _ _ (lo_max_payload o) (2 ^ 62) w2 r); [done|]. destruct Ht; lia.
  - destruct (negb _); [by exists (Error err), w1|]. apply init_join; [done|done|].
    apply (laid_out_grows w); [apply A|done].
Qed.

End init.

(** ** The rings in memory *)

Section rings.
Context {Mx : Type} `{!RobustMutex Mx} (mx_new : Mx).

Abbreviation W := (World Mx).
Implicit Types w : W.

Definition spec_view (id : nat) (r : RingSpec) : RingView := log_view id (rs_cap r) (rs_stride r).

(** Every ring is a queue in its segment, with room for [room] more messages; other ring segments
    are blank. *)
Record rings_at (room : Z) (w : W) (rings : gmap nat RingSpec) : Prop := {
  rx_segment id r : rings !! id = Some r → ring_segment id (rs_cap r) (rs_stride r) w;
  rx_queue id r : rings !! id = Some r → ring_in (spec_view id r) (rs_cap r) (rs_stride r) room w (rs_queue r);
  rx_blank id s : w_objs w !! id = Some s → rings !! id = None →
    segment_type (sg_header s) = SegmentType_value RecordRing → blank s;
}.

Lemma rings_at_room room room' w rings : room' ≤ room → rings_at room w rings → rings_at room' w rings.
Proof. intros Hle [H1 H2 H3]. split; [done| |done]. intros id r E. apply (ring_in_room _ _ _ room); [done|]. by apply H2. Qed.

Lemma rings_at_objs room w w' rings : w_objs w' = w_objs w → rings_at room w rings → rings_at room w' rings.
Proof.
  intros Eo [H1 H2 H3]. split.
  - intros id r E. unfold ring_segment. rewrite Eo. by apply H1.
  - intros id r E. apply (ring_in_objs _ _ _ _ w); [done|]. by apply H2.
  - intros id s. rewrite Eo. apply H3.
Qed.

Lemma kept_type (s s' : Segment Mx) : seg_kept s s' → segment_type (sg_header s') = segment_type (sg_header s).
Proof. intros [_ _ Hh]. revert Hh. destruct (sg_header s), (sg_header s'). unfold immutable_fields. cbn. congruence. Qed.

Lemma rings_at_grows room w w' rings : grows w w' → rings_at room w rings → rings_at room w' rings.
Proof.
  intros G [H1 H2 H3]. split.
  - intros id r E. by apply (ring_segment_grows _ _ _ w), H1.
  - intros id r E. by apply (ring_in_grows _ _ _ _ w), H2.
  - intros id s' Eo' En Ht. destruct (w_objs w !! id) as [s|] eqn:Eo; [|by apply (gw_new _ _ G id)].
    destruct (gw_old _ _ G id s Eo) as (s1&E1&K). rewrite Eo' in E1. injection E1 as <-.
    apply (blank_kept s); [done|]. apply (H3 id); [done|done|]. by rewrite <-(kept_type s s').
Qed.

(** A view that binds is the view of a ring. *)
Lemma rings_at_bound room w rings v :
  rings_at room w rings → view_bound mx_new w v → ∃ r, rings !! rv_object v = Some r ∧ v = spec_view (rv_object v) r.
Proof.
  intros [H1 H2 H3] (s&Eo&Ht&Eb). destruct (rings !! rv_object v) as [r|] eqn:Er.
  - exists r. split; [done|]. pose proof (ring_bind_view mx_new _ _ _ _ w _ (H1 _ r Er) (H2 _ r Er)) as E.
    rewrite Eb in E. by injection E.
  - by destruct (ring_bind_blank mx_new _ w s v Eo (H3 _ s Eo Er Ht)).
Qed.

(** A new ring in a segment that was not there before. *)
Lemma rings_at_new room w w' w1 rings id cap stride q :
  grows w w1 → writes (eq id) w1 w' → w_objs w !! id = None → rings_at room w rings →
  ring_segment id cap stride w' → ring_in (log_view id cap stride) cap stride room w' q →
  rings_at room w' (<[id := mkRingSpec cap stride [] 0 q]> rings) ∧ rings !! id = None.
Proof.
  intros G Hw En R Hseg Hin.
  assert (Hid : rings !! id = None).
  { apply eq_None_not_Some. intros [r Er]. destruct (rx_segment _ _ _ R id r Er) as (s&b&Eo&_). congruence. }
  split; [|done]. destruct (rings_at_grows room w w1 rings G R) as [H1 H2 H3]. split.
  - intros j r [[<- <-]|[Hj Er]]%lookup_insert_Some; [done|]. by apply (ring_segment_writes (eq id) _ _ _ w1), H1.
  - intros j r [[<- <-]|[Hj Er]]%lookup_insert_Some; [done|]. apply (ring_in_apart (eq id) _ _ _ _ w1); [done|done|]. by apply H2.
  - intros j s' Eo' [Ej Hj]%lookup_insert_None Ht. pose proof (wr_objs _ _ _ Hw j) as O. rewrite Eo' in O.
    inversion O as [s s0 (_&Hh&_&Hb) E E0|]; subst. destruct Hb as [Hb|[Hp _]]; [|done].
    destruct (H3 j s (eq_sym E) Ej) as [n Hn]; [by rewrite <-Hh|]. exists n. by rewrite Hb.
Qed.

(** Queue operations on some rings, and the end of some handles. *)
Lemma rings_at_update (P : nat → Prop) `{!∀ id, Decision (P id)} room room' w w1 w' rings rings' :
  writes P w w1 → contents_kept w1 w' → room' ≤ room → rings_at room w rings →
  (∀ id, P id → is_Some (rings !! id)) →
  (∀ id, option_Forall2 (λ r r', rs_cap r' = rs_cap r ∧ rs_stride r' = rs_stride r ∧
     (P id → ring_in (spec_view id r) (rs_cap r) (rs_stride r) room' w' (rs_queue r')) ∧
     (¬ P id → rs_queue r' = rs_queue r)) (rings !! id) (rings' !! id)) →
  rings_at room' w' rings'.
Proof.
  intros Hw K Hle [H1 H2 H3] HP Hr. split.
  - intros id r' Er'. specialize (Hr id). rewrite Er' in Hr. inversion Hr as [r ? (Ec&Es&_) E E'|]; subst. rewrite Ec, Es.
    by apply (ring_segment_kept _ _ _ w1), (ring_segment_writes P _ _ _ w), H1.
  - intros id r' Er'. specialize (Hr id). rewrite Er' in Hr. inversion Hr as [r ? (Ec&Es&Hy&Hn) E E'|]; subst.
    unfold spec_view in *. rewrite Ec, Es. destruct (decide (P id)) as [Hp|Hp]; [by apply Hy|].
    rewrite (Hn Hp). apply (ring_in_kept _ _ _ _ w1); [done|]. apply (ring_in_apart P _ _ _ _ w); [done|done|].
    apply (ring_in_room _ _ _ room); [done|]. by apply H2.
  - intros id s' Eo' Er' Ht. pose proof (Hr id) as Hri. rewrite Er' in Hri. inversion Hri as [|E E']; subst.
    assert (Hp : ¬ P id) by (intros Hp; destruct (HP id Hp); congruence).
    pose proof (ck_objs _ _ K id) as Ki. rewrite Eo' in Ki. inversion Ki as [s1 ? Hk E1 E2|]; subst.
    pose proof (wr_objs _ _ _ Hw id) as O. rewrite <-E1 in O. inversion O as [s ? (_&Hh&_&Hb) E3 E4|]; subst.
    apply (blank_kept s1); [done|]. destruct Hb as [Hb|[Hp' _]]; [|done].
    destruct (H3 id s (eq_sym E3) (eq_sym E)) as [n Hn]; [by rewrite <-Hh, <-(kept_type s1 s')|]. exists n. by rewrite Hb.
Qed.

End rings.

(** ** The simulation *)

Lemma list_delete_past {A} i (l : list A) : (length l ≤ i)%nat → delete i l = l.
Proof.
  revert i. induction l as [|x l IH]; intros [|i] Hi; cbn in *; [done|done|lia|]. f_equal. apply IH. lia.
Qed.

Lemma Forall2_sublist {A B} (P : A → B → Prop) l' l k :
  l' `sublist_of` l → Forall2 P l k → ∃ k', k' `sublist_of` k ∧ Forall2 P l' k'.
Proof.
  intros Hs. revert k. induction Hs as [|x l' l _ IH|x l' l _ IH]; intros k HP.
  - exists []. split; [apply sublist_nil_l|constructor].
  - apply Forall2_cons_inv_l in HP as (y&k0&Hy&Hk&->). destruct (IH k0 Hk) as (k'&H1&H2).
    exists (y :: k'). split; [by constructor|by constructor].
  - apply Forall2_cons_inv_l in HP as (y&k0&Hy&Hk&->). destruct (IH k0 Hk) as (k'&H1&H2).
    exists k'. split; [by constructor|done].
Qed.

Section simulation.
Context {Mx : Type} `{!RobustMutex Mx, !RobustMutexLaws Mx} (mx_new : Mx) {S : Type}.
Variables (opts : LogCenterOptions) (sink : S → LogRecord → S) (s0 : S).
Hypothesis Hscratch : scratch_bytes opts < 2 ^ 32.

Abbreviation W := (World Mx).
Abbreviation Sy := (System Mx S).
Abbreviation world_ok := (world_ok mx_new).
Abbreviation do_op := (do_op mx_new opts sink).
Implicit Types (w : W) (y : Sy) (a : Spec).

(** What the sink gets for an event. *)
Definition record_of (e : event) : LogRecord := delivered e.1.2 (Z.of_nat (Z.to_nat (scratch_bytes opts))) e.2.

Definition logger_at (rings : gmap nat RingSpec) (l : Logger) (id : nat) : Prop :=
  ∃ r, rings !! id = Some r ∧ ring_ l = spec_view id r.

Definition attached_at (rings : gmap nat RingSpec) (ar : AttachedRing) (x : bytes * nat) : Prop :=
  ar_name ar = x.1 ∧ ∃ r, rings !! x.2 = Some r ∧ ar_ring ar = spec_view x.2 r.

Record represents (room : Z) (y : Sy) (a : Spec) : Prop := {
  rp_world : world_ok (sy_world y);
  rp_laid_out : laid_out (sy_world y);
  rp_rings : rings_at room (sy_world y) (sp_rings a);
  rp_loggers : Forall2 (logger_at (sp_rings a)) (sy_loggers y) (sp_loggers a);
  rp_center : center_ok (sy_center y) (sy_world y);
  rp_options : options_ (sy_center y) = opts ∧ sink_ (sy_center y) = sink;
  rp_attached : Forall2 (attached_at (sp_rings a)) (rings_ (sy_center y)) (sp_attached a);
  rp_sink : sy_sink y = fold_left sink (record_of <$> sp_events a) s0;
}.

(** Loggers and attached rings go on with rings of the same geometry. *)
Definition same_geometry (rings rings' : gmap nat RingSpec) : Prop :=
  ∀ id r, rings !! id = Some r → ∃ r', rings' !! id = Some r' ∧ rs_cap r' = rs_cap r ∧ rs_stride r' = rs_stride r.

Lemma loggers_geometry rings rings' ls ids :
  same_geometry rings rings' → Forall2 (logger_at rings) ls ids → Forall2 (logger_at rings') ls ids.
Proof.
  intros Hg H. eapply Forall2_impl; [exact H|]. intros l id (r&Er&El). destruct (Hg id r Er) as (r'&Er'&Ec&Es).
  exists r'. split; [done|]. unfold spec_view. by rewrite Ec, Es.
Qed.

Lemma attached_geometry rings rings' rs xs :
  same_geometry rings rings' → Forall2 (attached_at rings) rs xs → Forall2 (attached_at rings') rs xs.
Proof.
  intros Hg H. eapply Forall2_impl; [exact H|]. intros l id (En&r&Er&El). destruct (Hg id.2 r Er) as (r'&Er'&Ec&Es).
  split; [done|]. exists r'. split; [done|]. unfold spec_view. by rewrite Ec, Es.
Qed.

(** Operations that leave the rings alone. *)
Lemma represents_after room y a w' :
  represents room y a → after mx_new (sy_world y) w' → represents room (set_world w' y) a.
Proof.
  intros [] [Ha He Hg]. split; try done; cbn [set_world sy_world sy_center].
  - by apply (laid_out_grows (sy_world y)).
  - by apply (rings_at_grows room (sy_world y)).
  - by apply (center_ok_evolves _ (sy_world y)).
Qed.

Lemma represents_room room room' y a : room' ≤ room → represents room y a → represents room' y a.
Proof. intros Hle []. split; try done. by apply (rings_at_room room). Qed.

(** What a step of the program has to show. *)
Definition simulates (room : Z) (o : op) (y : Sy) (a : Spec) : Prop :=
  ∃ ans y' a', do_op o y = Some (ans, y') ∧ spec_step opts a o ans a' ∧ represents (room - 1) y' a'.

Lemma simulates_manager room o y a ans w' :
  represents room y a → do_op o y = Some (ans, set_world w' y) → manager_op o = true →
  after mx_new (sy_world y) w' → simulates room o y a.
Proof.
  intros R E Hm A. exists ans, (set_world w' y), a. split; [done|]. split; [by constructor|].
  apply (represents_room room); [lia|]. by apply represents_after.
Qed.

Lemma simulates_process room y a h fds maps hb :
  represents room y a → op_ok (OpProcess h fds maps hb) y → simulates room (OpProcess h fds maps hb) y a.
Proof.
  intros R [Hb Hp]. do 3 eexists. split; [reflexivity|]. split; [by constructor|].
  apply (represents_room room); [lia|]. destruct R as [R1 R2 R3 R4 R5 R6 R7 R8].
  destruct (process_ok mx_new h fds maps hb (sy_world y) R1 Hb Hp) as [H1 He].
  split; try done; cbn [set_world sy_world sy_center].
  - by apply (rings_at_objs room (sy_world y)).
  - by apply (center_ok_evolves _ (sy_world y)).
Qed.

Lemma simulates_managers room o y a :
  represents room y a → op_ok o y → manager_op o = true → simulates room o y a.
Proof.
  intros R Hok Hm. pose proof (rp_world _ _ _ R) as H. pose proof (after_refl mx_new _ H) as A0. destruct o; try done.
  - eapply simulates_manager; [done|reflexivity|done|]. by apply after_create.
  - eapply simulates_manager; [done|reflexivity|done|]. by apply after_attach.
  - eapply simulates_manager; [done|reflexivity|done|]. by apply after_reset.
  - eapply simulates_manager; [done|reflexivity|done|]. by apply after_destroy.
  - eapply simulates_manager; [done|reflexivity|done|]. pose proof (gc_pass mx_new sys _ H) as P.
    apply (after_kept mx_new _ (sy_world y)); [done|apply P|apply P|]. apply gc_contents, (reg_ready_constructed mx_new), H.
  - eapply simulates_manager; [done|reflexivity|done|]. destruct (tick_ok mx_new now _ H) as [H1 He].
    apply (after_kept mx_new _ (sy_world y)); [done|done|done|apply tick_contents].
  - by apply simulates_process.
Qed.

(** *** Loggers *)

Lemma simulates_init room sys o y a :
  room ≤ 2 ^ 62 → represents room y a → op_ok (OpInit sys o) y → simulates room (OpInit sys o) y a.
Proof.
  intros Hroom R [Ht H1]. pose proof (rp_world _ _ _ R) as H. unfold simulates. cbn [System.do_op].
  destruct (init_cases mx_new sys o (sy_world y) H (rp_laid_out _ _ _ R) Ht H1) as (res&w'&->&Hres).
  cbn [mbind option_bind]. destruct res as [l|e].
  2: { do 3 eexists. split; [reflexivity|]. split; [constructor|]. apply (represents_room room); [lia|]. by apply represents_after. }
  destruct Hres as [(id&w1&A&En&Ev&Hw&Hseg&Hin)|[A Hb]].
  - destruct (rings_at_new room (sy_world y) w' w1 (sp_rings a) id (lo_record_max o) (logger_stride o) (mkFifo [] 0))
      as [Rx Hid]; [apply A|done|done|apply R|done|rewrite <-Ev; by apply (ring_in_room _ _ _ (2 ^ 62))|].
    do 3 eexists. split; [reflexivity|]. split; [by apply (sp_init_new _ _ _ _ id)|].
    apply (represents_room room); [lia|]. destruct R as [R1 R2 R3 R4 R5 R6 R7 R8].
    assert (Hg : same_geometry (sp_rings a) (<[id := new_ring_spec (lo_record_max o) (logger_stride o)]> (sp_rings a))).
    { intros j r Er. exists r. rewrite lookup_insert_ne by congruence. done. }
    split; try done; cbn [sy_world sy_loggers sy_center sy_sink sp_rings sp_loggers sp_attached].
    + eapply writes_ok; [exact Hw|apply A].
    + apply (writes_laid_out _ w1 w' Hw), (laid_out_grows (sy_world y)); [apply A|done].
    + apply Forall2_app; [by apply (loggers_geometry (sp_rings a))|]. constructor; [|constructor].
      exists (new_ring_spec (lo_record_max o) (logger_stride o)). by rewrite lookup_insert_eq.
    + apply (center_ok_evolves _ w1); [by eapply writes_evolves|]. apply (center_ok_evolves _ (sy_world y)); [apply A|done].
    + by apply (attached_geometry (sp_rings a)).
  - pose proof (represents_after room y a w' R A) as R'. destruct (rings_at_bound mx_new room w' (sp_rings a) (ring_ l)
      (rp_rings _ _ _ R') Hb) as (r&Er&El).
    do 3 eexists. split; [reflexivity|]. split; [by apply (sp_init_join _ _ _ _ (rv_object (ring_ l)))|].
    apply (represents_room room); [lia|]. destruct R' as [R1 R2 R3 R4 R5 R6 R7 R8].
    split; try done. cbn [sy_loggers sp_loggers sp_rings]. apply Forall2_app; [exact R4|].
    constructor; [|constructor]. by exists r.
Qed.

Lemma simulates_log room i c y a :
  0 < room → represents room y a → op_ok (OpLog i c) y → simulates room (OpLog i c) y a.
Proof.
  intros Hroom R Hc. pose proof (rp_loggers _ _ _ R) as Hls. unfold simulates. cbn [System.do_op op_ok] in *.
  destruct (sy_loggers y !! i) as [l|] eqn:El.
  2: { exists ANone, y, a. split; [done|]. split; [|by apply (represents_room room); [lia|]].
       constructor. apply lookup_ge_None. rewrite <-(Forall2_length _ _ _ Hls). by apply lookup_ge_None. }
  destruct (Forall2_lookup_l _ _ _ _ _ Hls El) as (id&Eid&r&Er&Ev). pose proof (rx_queue _ _ _ (rp_rings _ _ _ R) id r Er) as Hin.
  assert (Hpush : ∃ w', run_call mx_new l c (sy_world y) = Some ((ring_call c r).1, w') ∧
    writes (eq id) (sy_world y) w' ∧
    ring_in (spec_view id r) (rs_cap r) (rs_stride r) (room - 1) w' (rs_queue (ring_call c r).2)).
  { rewrite run_call_record. unfold ring_call, fifo_call. destruct (call_record c) as [[[[ty fl] us] p]|e] eqn:Ec.
    - destruct (call_record_typed c ty fl us p Hc Ec) as [Hty Hp]. rewrite Ev.
      apply (ring_in_push mx_new (spec_view id r) (rs_cap r) (rs_stride r) room (sy_world y) (rs_queue r)); try done. apply Hc.
    - exists (sy_world y). split; [done|]. split; [apply writes_refl|]. by apply (ring_in_room _ _ _ room); [lia|]. }
  destruct Hpush as (w'&->&Hw&Hin'). cbn [mbind option_bind fst snd].
  do 3 eexists. split; [reflexivity|]. split; [by apply (sp_log _ _ _ _ id r)|].
  destruct R as [R1 R2 R3 R4 R5 R6 R7 R8].
  assert (Hg : same_geometry (sp_rings a) (<[id := (ring_call c r).2]> (sp_rings a))).
  { intros j r' Er'. destruct (decide (id = j)) as [<-|Hne].
    - rewrite lookup_insert_eq. eexists. split; [done|]. rewrite Er in Er'. by injection Er' as <-.
    - rewrite lookup_insert_ne by done. by exists r'. }
  split; try done; cbn [set_world sy_world sy_loggers sy_center sp_rings sp_loggers sp_attached].
  - by eapply writes_ok.
  - by eapply writes_laid_out.
  - apply (rings_at_update (eq id) room _ (sy_world y) w' w' (sp_rings a)); [done|done|lia|done|by intros ? <-|].
    intros j. destruct (decide (id = j)) as [<-|Hne].
    + rewrite lookup_insert_eq, Er. constructor. by split_and!.
    + rewrite lookup_insert_ne by done. destruct (sp_rings a !! j); constructor. by split_and!.
  - by apply (loggers_geometry (sp_rings a)).
  - apply (center_ok_evolves _ (sy_world y)); [by eapply writes_evolves|done].
  - by apply (attached_geometry (sp_rings a)).
Qed.

Lemma simulates_end room sys i y a : represents room y a → simulates room (OpEnd sys i) y a.
Proof.
  intros R. pose proof (rp_loggers _ _ _ R) as Hls. unfold simulates. cbn [System.do_op].
  destruct (sy_loggers y !! i) as [l|] eqn:El.
  - do 3 eexists. split; [reflexivity|]. split; [constructor|]. apply (represents_room room); [lia|].
    assert (A : after mx_new (sy_world y) (logger_end mx_new sys l (sy_world y))).
    { apply after_reset; [apply R|]. apply after_refl, R. }
    destruct (represents_after room y a _ R A). split; try done. by apply Forall2_delete.
  - do 3 eexists. split; [reflexivity|]. split; [constructor|]. apply (represents_room room); [lia|].
    destruct R. split; try done. cbn [sp_loggers]. rewrite list_delete_past; [done|].
    rewrite <-(Forall2_length _ _ _ Hls). by apply lookup_ge_None.
Qed.

(** *** The center *)

Lemma new_center_ok w : center_ok (new_center opts sink) w.
Proof. split; [constructor|apply NoDup_nil_2]. Qed.

Lemma simulates_restart room sys y a : represents room y a → simulates room (OpRestart sys) y a.
Proof.
  intros R. do 3 eexists. split; [reflexivity|]. split; [constructor|]. apply (represents_room room); [lia|].
  pose proof (rp_world _ _ _ R) as H.
  destruct (detach_all mx_new sys (rings_ (sy_center y)) (sy_world y) H) as (H1&He&K&_).
  { eapply Forall_impl; [apply (rp_center _ _ _ R)|]. intros r Hr. apply Hr. }
  assert (A : after mx_new (sy_world y) (center_end mx_new sys (sy_center y) (sy_world y))).
  { split; [done|done|by apply kept_grows]. }
  destruct (represents_after room y a _ R A). split; try done; cbn [sy_center sy_world]. apply new_center_ok.
Qed.

(** The queues of the attached rings, and what a pass takes from them. *)
Definition geometry_of (rings : gmap nat RingSpec) (x : bytes * nat) : Z * Z * Fifo :=
  match rings !! x.2 with
  | Some r => (rs_cap r, rs_stride r, rs_queue r)
  | None => (0, 0, mkFifo [] 0)
  end.

Lemma attached_as room w rings rs xs :
  rings_at room w rings → Forall2 (attached_at rings) rs xs → Forall2 (ring_as room w) rs (geometry_of rings <$> xs).
Proof.
  intros R. induction 1 as [|ar x rs xs (_&r&Er&Ev) _ IH]; [constructor|]. rewrite fmap_cons. constructor; [|done].
  unfold ring_as, geometry_of. rewrite Er, Ev. by apply (rx_queue _ _ _ R).
Qed.

Lemma attached_records rings rs xs :
  Forall2 (attached_at rings) rs xs →
  pass_records opts rs (geometry_of rings <$> xs).*2 = record_of <$> pass_events opts xs rings.
Proof.
  unfold pass_records, pass_events. induction 1 as [|ar x rs xs (En&r&Er&Ev) _ IH]; [done|].
  rewrite !fmap_cons. cbn [zip_with concat]. rewrite fmap_app, IH. f_equal.
  unfold batch_records, batch_events, geometry_of. rewrite Er, En, <-list_fmap_compose. done.
Qed.

Lemma attached_objects rings rs xs : Forall2 (attached_at rings) rs xs → ring_object <$> rs = xs.*2.
Proof.
  induction 1 as [|ar x rs xs (_&r&_&Ev) _ IH]; [done|]. rewrite !fmap_cons, IH. unfold ring_object. by rewrite Ev.
Qed.

(** The rings discovery adds. *)
Lemma attached_new room w rings new :
  rings_at room w rings → Forall (λ r, view_bound mx_new w (ar_ring r)) new →
  let xs := (λ r, (ar_name r, ring_object r)) <$> new in
  Forall2 (attached_at rings) new xs ∧ Forall (λ x, is_Some (rings !! x.2)) xs.
Proof.
  intros R H xs. unfold xs. induction H as [|ar new Hb _ [IH1 IH2]]; [done|]. rewrite fmap_cons.
  destruct (rings_at_bound mx_new room w rings (ar_ring ar) R Hb) as (r&Er&Ev).
  split; (constructor; [|done]); [split; [done|]; by exists r|by exists r].
Qed.

(** They carry the prefix, since names are distinct. *)
Lemma prefix_new (P : bytes → Prop) (old new : list AttachedRing) :
  NoDup (ar_name <$> (old ++ new)) →
  (∀ nm, nm ∈ ar_name <$> (old ++ new) → nm ∈ ar_name <$> old ∨ P nm) →
  Forall (λ x, P x.1) ((λ r, (ar_name r, ring_object r)) <$> new).
Proof.
  rewrite fmap_app. intros (_&Hd&_)%NoDup_app Hn. apply Forall_fmap, Forall_forall. intros r Hr. cbn.
  assert (Hin : ar_name r ∈ ar_name <$> new) by by apply list_elem_of_fmap_2.
  destruct (Hn (ar_name r)) as [Ho|]; [apply elem_of_app; by right| |done]. by destruct (Hd _ Ho).
Qed.

(** The rings after a pass. *)
Lemma rings_after_pass room w w1 w' rings rs xs :
  rings_at room w rings → Forall2 (attached_at rings) rs xs → NoDup xs.*2 →
  writes (λ id, id ∈ ring_object <$> rs) w w1 → contents_kept w1 w' →
  Forall2 (ring_as room w') rs (rest_as opts <$> (geometry_of rings <$> xs)) →
  rings_at room w' (pass_rings opts xs rings).
Proof.
  intros R Hat Hnd Hw K Has. rewrite (attached_objects rings rs xs Hat) in Hw.
  assert (Hin : ∀ id, id ∈ xs.*2 → ∃ r, rings !! id = Some r ∧
    ring_in (spec_view id r) (rs_cap r) (rs_stride r) room w' (batch_rest opts (rs_queue r))).
  { intros id (x&->&(i&Ei)%list_elem_of_lookup)%list_elem_of_fmap.
    destruct (Forall2_lookup_r _ _ _ _ _ Hat Ei) as (ar&Ear&_&r&Er&Ev). exists r. split; [done|].
    assert (Ex : (rest_as opts <$> (geometry_of rings <$> xs)) !! i = Some (rest_as opts (geometry_of rings x)))
      by by rewrite !list_lookup_fmap, Ei.
    pose proof (Forall2_lookup_lr _ _ _ _ _ _ Has Ear Ex) as Hr. unfold ring_as, rest_as, geometry_of in Hr.
    rewrite Er, Ev in Hr. exact Hr. }
  apply (rings_at_update (λ id, id ∈ xs.*2) room room w w1 w' rings); try done.
  - intros id Hid. destruct (Hin id Hid) as (r&Er&_). by exists r.
  - intros id. rewrite pass_rings_lookup. destruct (rings !! id) as [r|] eqn:Er; constructor.
    case_bool_decide as Hid; [|by split_and!]. split_and!; try done. intros _.
    destruct (Hin id Hid) as (r'&Er'&Hr). rewrite Er in Er'. injection Er' as <-. exact Hr.
Qed.

Lemma pass_geometry xs rings : same_geometry rings (pass_rings opts xs rings).
Proof.
  intros id r Er. rewrite pass_rings_lookup, Er. eexists. split; [done|]. by case_bool_decide.
Qed.

Lemma simulates_poll room sys y a : 0 ≤ room → represents room y a → simulates room (OpPoll sys) y a.
Proof.
  intros Hroom R. destruct R as [R1 R2 R3 R4 R5 [R6 R6'] R7 R8]. unfold simulates. cbn [System.do_op]. unfold poll_once.
  destruct (discovers_once mx_new sys (sy_center y) (sy_world y) R1 R2 R5) as (res&c1&w1&Ed&D&_).
  pose proof (λ nm, discover_once_names mx_new sys _ _ res c1 w1 nm R1 Ed) as Hnames. rewrite Ed. cbn [mbind option_bind].
  destruct (ds_rings _ _ _ _ _ D) as (new&Ec1&Hnew&_). pose proof (ds_contents _ _ _ _ _ D) as K1.
  pose proof (rings_at_grows room _ w1 (sp_rings a) (kept_grows _ _ K1) R3) as Rx.
  destruct (attached_new room w1 (sp_rings a) new Rx Hnew) as [Hat Hsome].
  set (xs := (λ r, (ar_name r, ring_object r)) <$> new) in *. set (att := sp_attached a ++ xs).
  assert (Hall : Forall2 (attached_at (sp_rings a)) (rings_ c1) att) by (rewrite Ec1; by apply Forall2_app).
  assert (Hpre : Forall (λ x, take (length (prefix opts)) x.1 = prefix opts) xs).
  { apply (prefix_new (λ nm, take (length (prefix opts)) nm = prefix opts) (rings_ (sy_center y)) new).
    - pose proof (cn_names _ _ (ds_center _ _ _ _ _ D)) as Hn. by rewrite Ec1 in Hn.
    - rewrite R6, Ec1 in Hnames. exact Hnames. }
  assert (Hnd : NoDup att.*2).
  { rewrite <-(attached_objects _ _ _ Hall). apply (center_objects mx_new c1 w1), D. }
  assert (Eo : options_ c1 = opts ∧ sink_ c1 = sink) by by rewrite Ec1. destruct Eo as [Eo Ek].
  destruct (drain_once_geometry mx_new sys c1 room (geometry_of (sp_rings a) <$> att) (sy_sink y) w1)
    as (w2&->&Dr&Has); [apply D|apply D|by apply attached_as|done|by rewrite Eo|].
  rewrite Eo, Ek in *. rewrite (attached_records (sp_rings a) _ _ Hall), length_fmap. cbn [mbind option_bind].
  destruct (Forall2_sublist (attached_at (sp_rings a)) (rings_ (survivors mx_new w1 c1)) (rings_ c1) att)
    as (stay&Hst&Hstay); [apply sublist_filter|done|].
  destruct (dr_writes _ _ _ _ Dr) as (w1'&Hw&K2).
  set (evs := pass_events opts att (sp_rings a)). set (n := u32 (Z.of_nat (length evs))).
  assert (Hfin : ∀ b, represents (room - 1)
    (mkSystem w2 (sy_loggers y) (mkLogCenter (options_ c1) (sink_ c1) (rings_ (survivors mx_new w1 c1)) b)
       (fold_left sink (record_of <$> evs) (sy_sink y)))
    (mkSpec (pass_rings opts att (sp_rings a)) (sp_loggers a) stay (sp_events a ++ evs))).
  { intros b. apply (represents_room room); [lia|].
    split; cbn [sy_world sy_loggers sy_center sy_sink sp_rings sp_loggers sp_attached sp_events]; try done.
    - apply Dr.
    - apply (dr_laid_out _ _ _ _ Dr), D.
    - by apply (rings_after_pass room w1 w1' w2 (sp_rings a) (rings_ c1)).
    - apply (loggers_geometry (sp_rings a)); [apply pass_geometry|done].
    - destruct (dr_center _ _ _ _ Dr) as [C1 C2]. by split.
    - apply (attached_geometry (sp_rings a)); [apply pass_geometry|done].
    - by rewrite R8, fmap_app, fold_left_app. }
  assert (Hspec : spec_step opts a (OpPoll sys) (ADrained n)
    (mkSpec (pass_rings opts att (sp_rings a)) (sp_loggers a) stay (sp_events a ++ evs))) by by apply sp_poll.
  destruct (n =? 0).
  - destruct (AdaptiveBackoff.idle _) as [p b]. do 3 eexists. split; [reflexivity|]. split; [exact Hspec|apply Hfin].
  - do 3 eexists. split; [reflexivity|]. split; [exact Hspec|apply Hfin].
Qed.

(** *** Every operation *)

Lemma simulates_op room o y a :
  0 < room ≤ 2 ^ 62 → represents room y a → op_ok o y → simulates room o y a.
Proof.
  intros Hroom R Hok. destruct (manager_op o) eqn:Hm; [by apply simulates_managers|]. destruct o; try done.
  - apply simulates_init; [lia|done|done].
  - apply simulates_log; [lia|done|done].
  - by apply simulates_end.
  - apply simulates_poll; [lia|done].
  - by apply simulates_restart.
Qed.

Lemma start_represents sys : sys_ok sys → mx_state mx_new = MxFree →
  represents (2 ^ 62) (start mx_new opts sink sys s0) spec_start.
Proof.
  intros Hs Hm. destruct (boot_ok mx_new sys Hs Hm) as [H _].
  assert (Hobj : ∀ id s, w_objs (boot mx_new sys) !! id = Some s → ∃ p, sg_body s = RegistryBody p ∧
    segment_type (sg_header s) = SegmentType_value RegistryType).
  { intros id s. rewrite (boot_eq mx_new sys Hs). cbn [w_objs]. intros [_ <-]%lookup_singleton_Some. by eexists. }
  split; try done; cbn [start sy_world sy_center].
  - intros id s E. destruct (Hobj id s E) as (p&Eb&Et). unfold seg_laid_out. by rewrite Eb.
  - split; [intros id r Er; by destruct (lookup_empty_Some (M := gmap nat) id r)..|].
    intros id s E _ Ht. destruct (Hobj id s E) as (p&Eb&Et). by rewrite Et in Ht.
  - apply new_center_ok.
Qed.

(** Runs. *)
Lemma run_represents sys tr y :
  sys_ok sys → mx_state mx_new = MxFree →
  sys_run mx_new opts sink (start mx_new opts sink sys s0) tr y → Z.of_nat (length tr) ≤ 2 ^ 62 →
  ∃ a, spec_run opts tr a ∧ represents (2 ^ 62 - Z.of_nat (length tr)) y a.
Proof.
  intros Hs Hm. induction 1 as [|tr y o r y' _ IH Hok Hdo]; intros Hlen.
  { exists spec_start. split; [constructor|]. by apply start_represents. }
  rewrite length_app in *. cbn [length] in *. destruct IH as (a&Ha&Ra); [lia|].
  destruct (simulates_op (2 ^ 62 - Z.of_nat (length tr)) o y a) as (ans&y1&a'&E&Hst&Ra'); [lia|done|done|].
  rewrite Hdo in E. injection E as <- <-. exists a'. split; [by apply (spec_run_step _ _ a)|].
  by replace (2 ^ 62 - Z.of_nat (length tr + 1)) with (2 ^ 62 - Z.of_nat (length tr) - 1) by lia.
Qed.

(** *** Polling *)

(** [n] polls in a row, the ring attached before each of them. *)
Inductive polls (id : nat) (y0 : Sy) : nat → list (op * answer) → Sy → Prop :=
  | polls_none : polls id y0 0 [] y0
  | polls_more n tr y sys r y' :
      polls id y0 n tr y → id ∈ ring_object <$> rings_ (sy_center y) → do_op (OpPoll sys) y = Some (r, y') →
      polls id y0 (Datatypes.S n) (tr ++ [(OpPoll sys, r)]) y'.

Lemma polls_length id y0 n tr y : polls id y0 n tr y → length tr = n.
Proof. induction 1 as [|n tr y sys r y' _ IH _ _]; [done|]. rewrite length_app, IH. simpl. lia. Qed.

Definition batch : nat := Z.to_nat (lc_drain_batch opts).

(** Each of them takes a batch from the ring. *)
Lemma polls_take room id y0 n tr y a0 tr0 r0 :
  polls id y0 n tr y → Z.of_nat n ≤ room ≤ 2 ^ 62 → represents room y0 a0 → spec_run opts tr0 a0 → sp_rings a0 !! id = Some r0 →
  ∃ a, spec_run opts (tr0 ++ tr) a ∧ represents (room - Z.of_nat n) y a ∧
       sp_rings a !! id = Some (mkRingSpec (rs_cap r0) (rs_stride r0) (rs_sent r0) (rs_refused r0)
         (mkFifo (drop (n * batch) (f_queue (rs_queue r0))) (f_lost (rs_queue r0)))).
Proof.
  intros Hp Hn R0 Hs0 Er0. induction Hp as [|n tr y sys r y' _ IH Hin E].
  { exists a0. rewrite app_nil_r, Z.sub_0_r. split; [done|]. split; [done|]. rewrite Er0. by destruct r0 as [? ? ? ? []]. }
  destruct IH as (a&Hs&R&Er); [lia|].
  destruct (simulates_op (room - Z.of_nat n) (OpPoll sys) y a) as (ans&y1&a'&E1&Hst&R'); [lia|done|done|].
  rewrite E in E1. injection E1 as <- <-. exists a'. split; [rewrite (assoc (++)); by apply (spec_run_step _ _ a)|].
  split; [by replace (room - Z.of_nat (Datatypes.S n)) with (room - Z.of_nat n - 1) by lia|].
  inversion Hst as [| | | | | |sys' new stay att evs Hnd Hnew Hpre Hstay| |]; subst; [|done]. cbn [sp_rings].
  rewrite pass_rings_lookup, Er, bool_decide_true.
  - cbn. unfold ring_rest, batch_rest. cbn. fold batch. rewrite drop_drop.
    by replace (batch + n * batch)%nat with (n * batch + batch)%nat by lia.
  - unfold att. rewrite fmap_app. apply elem_of_app. left. rewrite <-(attached_objects _ _ _ (rp_attached _ _ _ R)). exact Hin.
Qed.

End simulation.
