(* ===== verification/SystemProps.v ===== *)
(** * Properties of the logging system

    Whatever any number of loggers, a log center and other users of shared memory do, in any order
    and with any failing system calls, the system behaves as its specification: no record is lost
    after it has been accepted, none is handed over twice or out of order, and no access leaves a
    mapping. *)

From S2P Require Import Prelude Types Sync RingMem RingCells RingBytes RingProps.
From S2P Require Import Security Lifecycle Registry Manager ManagerInv Janitor ManagerOps ManagerSteps.
From S2P Require Import ManagerProps Contents SegmentRing Logger LogCenter LoggingProps System SystemInv.

#[local] Opaque NSLOTS reg_map.

Section theorems.
Context {Mx : Type} `{!RobustMutex Mx, !RobustMutexLaws Mx} (mx_new : Mx) {S : Type}.

Abbreviation sys_run := (sys_run mx_new).
Abbreviation start := (start mx_new).
Abbreviation do_op := (do_op mx_new).

(** C4: every run of the logging system is a run of its specification with the same answers, up
    to 2^62 operations: after any operations of any processes, in any order and with any system
    calls failing, each ring of the specification is a queue in the bytes of its segment, the
    loggers and the rings of the center are views of these rings, and the state of the sink is what
    the records handed over make of it. *)
Theorem system_refines opts (sink : S → LogRecord → S) s0 sys tr (y : System Mx S) :
  scratch_bytes opts < 2 ^ 32 → sys_ok sys → mx_state mx_new = MxFree →
  sys_run opts sink (start opts sink sys s0) tr y → Z.of_nat (length tr) ≤ 2 ^ 62 →
  ∃ a, spec_run opts tr a ∧ represents mx_new opts sink s0 (2 ^ 62 - Z.of_nat (length tr)) y a.
Proof. intros Hsc. by apply run_represents. Qed.

(** C6: the system never gets stuck and never leaves a mapping: in every state it can reach,
    every operation is defined, whichever system calls fail in it. *)
Theorem system_defined opts (sink : S → LogRecord → S) s0 sys tr (y : System Mx S) o :
  scratch_bytes opts < 2 ^ 32 → sys_ok sys → mx_state mx_new = MxFree →
  sys_run opts sink (start opts sink sys s0) tr y → Z.of_nat (length tr) < 2 ^ 62 → op_ok o y →
  ∃ a y', do_op opts sink o y = Some (a, y').
Proof.
  intros Hsc Hs Hm Hrun Hlen Hok. destruct (run_represents mx_new opts sink s0 Hsc sys tr y Hs Hm Hrun) as (a&_&R); [lia|].
  destruct (simulates_op mx_new opts sink s0 Hsc (2 ^ 62 - Z.of_nat (length tr)) o y a) as (r&y'&_&E&_); [lia|done|done|].
  by exists r, y'.
Qed.

(** C5: no accepted record is lost, duplicated or reordered: after any run, the sink has been
    handed a list of events, each one record; for the ring of every logger, the messages its calls
    had accepted are exactly those handed over from that ring, in order, followed by those still
    queued in shared memory; at most the capacity are queued, and the ring's counter of lost
    records counts the refused calls. *)
Theorem system_delivery opts (sink : S → LogRecord → S) s0 sys tr (y : System Mx S) :
  scratch_bytes opts < 2 ^ 32 → sys_ok sys → mx_state mx_new = MxFree →
  sys_run opts sink (start opts sink sys s0) tr y → Z.of_nat (length tr) ≤ 2 ^ 62 →
  ∃ a, spec_run opts tr a ∧
    sy_sink y = fold_left sink (record_of opts <$> sp_events a) s0 ∧
    Forall2 (λ l id, ∃ r, sp_rings a !! id = Some r ∧
      ring_in (ring_ l) (rs_cap r) (rs_stride r) 0 (sy_world y) (rs_queue r) ∧
      rs_sent r = got id (sp_events a) ++ f_queue (rs_queue r) ∧
      logger_lost_count mx_new l (sy_world y) = Some (u64 (rs_refused r)) ∧
      Z.of_nat (length (f_queue (rs_queue r))) ≤ Z.max 0 (rs_cap r)) (sy_loggers y) (sp_loggers a).
Proof.
  intros Hsc Hs Hm Hrun Hlen. destruct (run_represents mx_new opts sink s0 Hsc sys tr y Hs Hm Hrun Hlen) as (a&Ha&R).
  exists a. split; [done|]. split; [apply R|]. pose proof (spec_run_conserved opts tr a Ha) as [Hc _].
  eapply Forall2_impl; [apply (rp_loggers _ _ _ _ _ _ _ R)|]. intros l id (r&Er&El). exists r. split; [done|].
  pose proof (rx_queue _ _ _ (rp_rings _ _ _ _ _ _ _ R) id r Er) as Hin. destruct (Hc id r Er) as [Hsent Hlost Hb].
  rewrite <-El in Hin.
  split; [by apply (ring_in_room _ _ _ (2 ^ 62 - Z.of_nat (length tr))); [lia|]|]. split; [done|]. split; [|done].
  rewrite <-Hlost. by eapply logger_lost_queue.
Qed.

(** C7: polls make progress: when the center has polled often enough to hand over a full ring, the
    ring being attached before each poll, then everything the calls of its loggers had accepted has
    been handed to the sink, in order and once. *)
Theorem system_catches_up opts (sink : S → LogRecord → S) s0 sys tr (y : System Mx S) l n tr' y' :
  scratch_bytes opts < 2 ^ 32 → sys_ok sys → mx_state mx_new = MxFree →
  sys_run opts sink (start opts sink sys s0) tr y → Z.of_nat (length tr + n) ≤ 2 ^ 62 →
  l ∈ sy_loggers y → polls mx_new opts sink (rv_object (ring_ l)) y n tr' y' →
  ∃ a r, spec_run opts (tr ++ tr') a ∧ sy_sink y' = fold_left sink (record_of opts <$> sp_events a) s0 ∧
    sp_rings a !! rv_object (ring_ l) = Some r ∧
    (rs_cap r ≤ Z.of_nat (n * batch opts) → got (rv_object (ring_ l)) (sp_events a) = rs_sent r).
Proof.
  intros Hsc Hs Hm Hrun Hlen Hl Hp. destruct (run_represents mx_new opts sink s0 Hsc sys tr y Hs Hm Hrun) as (a0&Ha0&R0); [lia|].
  apply list_elem_of_lookup in Hl as [i Hi].
  destruct (Forall2_lookup_l _ _ _ _ _ (rp_loggers _ _ _ _ _ _ _ R0) Hi) as (id&_&r0&Er0&El). rewrite El in Hp |- *. cbn [spec_view log_view rv_object] in *.
  destruct (polls_take mx_new opts sink s0 Hsc (2 ^ 62 - Z.of_nat (length tr)) id y n tr' y' a0 tr r0 Hp) as (a&Ha&R&Er); [lia|done|done|done|].
  eexists a, _. split; [done|]. split; [apply R|]. split; [exact Er|]. cbn [rs_cap rs_sent]. intros Hcap.
  pose proof (spec_run_conserved opts tr a0 Ha0) as [Hc0 _]. pose proof (rc_bound _ _ _ (Hc0 id r0 Er0)) as Hb.
  pose proof (spec_run_conserved opts _ a Ha) as [Hc _]. pose proof (rc_sent _ _ _ (Hc id _ Er)) as Hsent.
  cbn [rs_sent rs_queue f_queue] in Hsent. by rewrite drop_ge, app_nil_r in Hsent by lia.
Qed.

End theorems.

(** ** Witnesses *)

(** Two loggers of one process share a ring; the center polls between their messages. *)
Definition system_ops : list op :=
  [OpInit (demo_sys 42 10) demo_options; OpInit (demo_sys 42 10) demo_options;
   OpLog 0 (mkLogCall (demo_sys 42 11) (λ _, false) Warn (Text (str "disk")) []);
   OpLog 1 (mkLogCall (demo_sys 42 12) (λ _, false) Info (Format None) []);
   OpPoll (demo_sys 43 12);
   OpLog 1 (mkLogCall (demo_sys 42 12) (λ _, false) Info (Text (str "net")) []);
   OpEnd (demo_sys 42 13) 0].

Definition system_start : System mx_status (list LogRecord) := start MxFree demo_center collect (demo_sys 42 10) [].

Definition system_answers : list answer :=
  [AResult (Value tt); AResult (Value tt); AResult (Value tt); AResult (Error InvalidName); ADrained 1;
   AResult (Value tt); ANone].

Lemma system_ops_ok : Forall (λ o, ∀ y : System mx_status (list LogRecord), op_ok o y) system_ops.
Proof.
  assert (Ho : options_typed demo_options ∧ lo_record_max demo_options ≠ 1)
    by (split; [split; vm_compute; split; (discriminate || reflexivity)|discriminate]).
  assert (Hn : ∃ n, (n < MPSC_CAS_RETRY_BUDGET)%nat ∧ (λ _ : nat, false) n = false)
    by (exists 0%nat; split; [apply Nat.lt_0_succ|reflexivity]).
  unfold system_ops. repeat apply Forall_cons_2; [..|by apply Forall_nil_2]; intros y; cbn [op_ok];
    first [exact Ho|exact I|split; [exact Hn|cbn; first [exact I|solve_bytes]]].
Qed.

Lemma system_demo :
  ∃ (tr : list (op * answer)) y, sys_run MxFree demo_center collect system_start tr y ∧ tr.*2 = system_answers ∧ length tr = 7%nat ∧
          length (sy_loggers y) = 1%nat ∧
          sy_sink y = [delivered (logger_name (demo_sys 42 10) demo_options) 4096 (mkMsg 3 0 11000000000 (str "disk"))].
Proof.
  assert (E : (λ q, (q.1.*2, length q.1, length (sy_loggers q.2), sy_sink q.2)) <$> exec MxFree demo_center collect system_ops system_start =
    Some (system_answers, 7%nat, 1%nat,
          [delivered (logger_name (demo_sys 42 10) demo_options) 4096 (mkMsg 3 0 11000000000 (str "disk"))]))
    by (vm_compute; reflexivity).
  destruct (exec MxFree demo_center collect system_ops system_start) as [[tr y]|] eqn:Ex; [|discriminate E].
  cbn [fmap option_fmap option_map] in E. injection E as E1 E2 E3 E4. exists tr, y.
  split; [exact (exec_run MxFree demo_center collect system_ops system_start tr y system_ops_ok Ex)|].
  split; [exact E1|]. split; [exact E2|]. split; [exact E3|exact E4].
Qed.

Lemma system_refines_witness :
  ∃ (tr : list (op * answer)) y a, tr.*2 = system_answers ∧ spec_run demo_center tr a ∧
            represents MxFree demo_center collect [] (2 ^ 62 - 7) y a.
Proof.
  destruct system_demo as (tr&y&Hrun&Ha&Hlen&_).
  destruct (system_refines MxFree demo_center collect [] (demo_sys 42 10) tr y) as (a&Hs&R).
  - reflexivity.
  - apply demo_sys_ok.
  - reflexivity.
  - exact Hrun.
  - rewrite Hlen. vm_compute. discriminate.
  - rewrite Hlen in R. exists tr, y, a. split; [exact Ha|]. split; [exact Hs|exact R].
Defined.

Lemma system_defined_witness :
  ∃ (tr : list (op * answer)) y ans y', tr.*2 = system_answers ∧ do_op MxFree demo_center collect (OpPoll (demo_sys 43 14)) y = Some (ans, y').
Proof.
  destruct system_demo as (tr&y&Hrun&Ha&Hlen&_).
  destruct (system_defined MxFree demo_center collect [] (demo_sys 42 10) tr y (OpPoll (demo_sys 43 14))) as (ans&y'&E).
  - reflexivity.
  - apply demo_sys_ok.
  - reflexivity.
  - exact Hrun.
  - rewrite Hlen. vm_compute. reflexivity.
  - exact I.
  - exists tr, y, ans, y'. split; [exact Ha|exact E].
Defined.

Lemma system_delivery_witness :
  ∃ (tr : list (op * answer)) (y : System mx_status (list LogRecord)) a, tr.*2 = system_answers ∧ spec_run demo_center tr a ∧ length (sy_loggers y) = 1%nat ∧
    [delivered (logger_name (demo_sys 42 10) demo_options) 4096 (mkMsg 3 0 11000000000 (str "disk"))] =
    fold_left collect (record_of demo_center <$> sp_events a) [].
Proof.
  destruct system_demo as (tr&y&Hrun&Ha&Hlen&Hl&Hsink).
  destruct (system_delivery MxFree demo_center collect [] (demo_sys 42 10) tr y) as (a&Hs&Hk&_).
  - reflexivity.
  - apply demo_sys_ok.
  - reflexivity.
  - exact Hrun.
  - rewrite Hlen. vm_compute. discriminate.
  - exists tr, y, a. split; [exact Ha|]. split; [exact Hs|]. split; [exact Hl|]. rewrite <-Hsink. exact Hk.
Defined.

(** One more poll after the run above. *)
Definition system_records : list LogRecord :=
  [delivered (logger_name (demo_sys 42 10) demo_options) 4096 (mkMsg 3 0 11000000000 (str "disk"));
   delivered (logger_name (demo_sys 42 10) demo_options) 4096 (mkMsg 2 0 12000000000 (str "net"))].

Lemma system_demo_poll :
  ∃ (tr : list (op * answer)) y l r y', sys_run MxFree demo_center collect system_start tr y ∧ length tr = 7%nat ∧
    sy_loggers y = [l] ∧ rv_object (ring_ l) = 1%nat ∧
    polls MxFree demo_center collect 1 y 1 [(OpPoll (demo_sys 43 14), r)] y' ∧ sy_sink y' = system_records.
Proof.
  set (poll := do_op MxFree demo_center collect (OpPoll (demo_sys 43 14))).
  assert (E : (λ q, (length q.1, (rv_object ∘ ring_) <$> sy_loggers q.2, ring_object <$> rings_ (sy_center q.2),
                     (λ z, sy_sink z.2) <$> poll q.2)) <$> exec MxFree demo_center collect system_ops system_start =
    Some (7%nat, [1%nat], [1%nat], Some system_records)) by (vm_compute; reflexivity).
  destruct (exec MxFree demo_center collect system_ops system_start) as [[tr y]|] eqn:Ex; [|discriminate E].
  cbn [fmap option_fmap option_map fst snd] in E. injection E as E1 E2 E3 E4.
  apply fmap_Some in E4 as ([r y']&Ep&Esink).
  destruct (sy_loggers y) as [|l [|]] eqn:El; [discriminate E2| |discriminate E2]. injection E2 as E2.
  exists tr, y, l, r, y'. split; [exact (exec_run MxFree demo_center collect system_ops system_start tr y system_ops_ok Ex)|].
  split; [exact E1|]. split; [exact El|]. split; [exact E2|]. split; [|exact (eq_sym Esink)].
  apply (polls_more MxFree demo_center collect 1 y 0 [] y (demo_sys 43 14) r y'); [constructor| |exact Ep].
  rewrite E3. left.
Qed.

Lemma system_catches_up_witness :
  ∃ a r, fold_left collect (record_of demo_center <$> sp_events a) [] = system_records ∧
         sp_rings a !! 1%nat = Some r ∧ (rs_cap r ≤ 256 → got 1 (sp_events a) = rs_sent r).
Proof.
  destruct system_demo_poll as (tr&y&l&p&y'&Hrun&Hlen&El&Hv&Hp&Hsink).
  destruct (system_catches_up MxFree demo_center collect [] (demo_sys 42 10) tr y l 1 [(OpPoll (demo_sys 43 14), p)] y') as (a&r&_&Hs&Hr&Hall).
  - reflexivity.
  - apply demo_sys_ok.
  - reflexivity.
  - exact Hrun.
  - rewrite Hlen. vm_compute. discriminate.
  - rewrite El. left.
  - rewrite Hv. exact Hp.
  - rewrite Hv in Hr, Hall. exists a, r. split; [rewrite <-Hs; exact Hsink|]. split; [exact Hr|exact Hall].
Defined.
