(* ===== verification/Examples.v ===== *)
(** * The example programs

    The programs of [examples/] and [apps/logging/examples/], each the function of the world that
    its [main] computes. Every call of the library has its own [Sys], [env i] for the [i]-th one;
    [None] is an access outside a mapping. Handles, rings, loggers and centers end in the order in
    which C++ destroys the locals that own them. *)

From S2P Require Import Prelude Types Sync RingMem RingCells RingBytes RingProps.
From S2P Require Import Security Lifecycle Registry Manager ManagerInv Janitor ManagerOps ManagerSteps Grants.
From S2P Require Import Contents SegmentRing Logger LogCenter RingConc RingInv RingConcProps Threads.

#[local] Opaque NSLOTS reg_map.

(** The exit code and what the program has written to the two streams. *)
Record Exit := mkExit { ex_code : Z; ex_out : bytes; ex_err : bytes }.

Definition newline : bytes := [10].

Definition failure (what : string) (e : ErrorCode) : Exit :=
  mkExit 1 [] (str what ++ str (to_string e) ++ newline).

(** The C string that starts the bytes; [None] when no zero ends it. *)
Fixpoint c_string (b : bytes) : option bytes :=
  match b with
  | [] => None
  | c :: b' => if c =? 0 then Some [] else (c ::.) <$> c_string b'
  end.

(** ** raw_segment.cpp *)

Module RawSegment.
Section main.
Context {Mx : Type} `{!RobustMutex Mx} (mx_new : Mx).

Abbreviation W := (World Mx).

Definition name (pid : Z) : bytes := str "/shmfx.app.raw_demo_" ++ int_to_string pid.

Definition options (nm : bytes) : CreateOptions :=
  mkCreateOptions nm Raw (SHMFX_HEADER_SIZE + SHMFX_CACHE_LINE_BYTES + 4096) SHMFX_CACHE_LINE_BYTES 384 0.

Definition message : bytes := str "hello from shmfx raw segment".

Definition main (env : nat → Sys) (w : W) : option (Exit * W) :=
  let nm := name (sys_pid (env 0%nat)) in
  let w := (destroy mx_new (env 0%nat) nm w).2 in
  match create mx_new (env 1%nat) (options nm) w with
  | (Error e, w) => Some (failure "create failed: " e, w)
  | (Value created, w) =>
      id ← base_ created;
      w ← put_span mx_new (payload (sg_header (seg mx_new id w))).1 (message ++ [0]) id w;
      match attach mx_new (env 2%nat) nm ReadOnly w with
      | (Error e, w) => Some (failure "attach failed: " e, handle_reset mx_new (env 3%nat) created w)
      | (Value attached, w) =>
          id' ← base_ attached;
          let hdr := sg_header (seg mx_new id' w) in
          span ← seg_span mx_new (payload hdr).1 (size_ attached - (payload hdr).1) id' w;
          text ← c_string span;
          let w := (destroy mx_new (env 3%nat) nm w).2 in
          let w := handle_reset mx_new (env 4%nat) attached w in
          Some (mkExit 0 (text ++ newline) [], handle_reset mx_new (env 4%nat) created w)
      end
  end.
End main.
End RawSegment.

(** ** Programs with threads

    The threads run by a schedule; a program whose schedule stops before the threads have ended has
    not ended. *)

Inductive Run (A : Type) := Unfinished | Done (a : A).
Arguments Unfinished {_}.
Arguments Done {_} _.

#[export] Instance idle_dec pc : Decision (pc = PIdle).
Proof. destruct pc; (by left) || (by right). Defined.

#[export] Instance cons_idle_dec pc : Decision (pc = CIdle).
Proof. destruct pc; (by left) || (by right). Defined.

#[export] Instance no_jobs_dec (js : list Args) : Decision (js = []).
Proof. destruct js; (by left) || (by right). Defined.

#[export] Instance finished_dec {M} total (p : prog M) : Decision (finished total p).
Proof. unfold finished. apply _. Defined.

Definition range (n : nat) : list Z := Z.of_nat <$> seq 0 n.

(** ** ring_mpsc.cpp *)

Module RingMpsc.

Definition name (pid : Z) : bytes := str "/shmfx.app.ring_demo_" ++ int_to_string pid.

Definition record_max : Z := 128.
Definition max_payload : Z := 32.
Definition stride : Z := record_stride_for max_payload.

Definition options (nm : bytes) : CreateOptions :=
  mkCreateOptions nm RecordRing
    (u64 (align_up (u64 (SHMFX_HEADER_SIZE + RecordRingMeta_size)) SHMFX_CACHE_LINE_BYTES +
          payload_size_for record_max stride))
    RecordRingMeta_size 384 LockfreeRing.

Definition producers : nat := 4.
Definition per_producer : nat := 16.
Definition total : nat := producers * per_producer.

(** The call [try_push(static_cast<std::uint16_t>(producer), 0, i, bytes)]. *)
Definition text (producer i : Z) : bytes := str "p" ++ int_to_string producer ++ str ":" ++ int_to_string i.
Definition push (producer i : Z) : Args := mkArgs (u16 producer) 0 i (text producer i).
Definition pushes (producer : Z) : list Args := push producer <$> range per_producer.

Definition scratch : bytes := replicate 64 0.

(** The line the consumer prints. *)
Definition line (x : PoppedRecord * bytes) : bytes :=
  str "type=" ++ int_to_string (p_type x.1) ++ str " payload=" ++ take (Z.to_nat (p_copied_size x.1)) x.2 ++ newline.

Section main.
Context {Mx : Type} `{!RobustMutex Mx} (mx_new : Mx).

Abbreviation W := (World Mx).

Definition main (env : nat → Sys) (schedule : list turn) (w : W) : option (Run (Exit * W)) :=
  let nm := name (sys_pid (env 0%nat)) in
  let w := (destroy mx_new (env 0%nat) nm w).2 in
  match create mx_new (env 1%nat) (options nm) w with
  | (Error e, w) => Some (Done (failure "create failed: " e, w))
  | (Value segment, w) =>
      id ← base_ segment;
      q ← ring_initialize mx_new id record_max max_payload w;
      match q with
      | (Error e, w) => Some (Done (failure "ring init failed: " e, handle_reset mx_new (env 2%nat) segment w))
      | (Value ring, w) =>
          r ← load_ring mx_new ring w;
          let p := run_turns true total schedule (prog_init (pushes <$> range producers) scratch r) in
          if bool_decide (finished total p) then
            w ← store_ring mx_new ring (g_mem (pg_ring p)) w;
            let w := (destroy mx_new (env 2%nat) nm w).2 in
            Some (Done (mkExit 0 (concat (line <$> pg_popped p)) [], handle_reset mx_new (env 3%nat) segment w))
          else Some Unfinished
      end
  end.
End main.
End RingMpsc.

(** ** demo_producer.cpp *)

Module DemoProducer.

Definition options (pid : Z) : LoggerOptions :=
  mkLoggerOptions (str "demo") (str "/shmfx.log.demo_" ++ int_to_string pid) 4096 1024 384 0.

(** What the formats of the two calls render to. *)
Definition first_text (pid : Z) : bytes := str "demo producer pid=" ++ int_to_string pid.
Definition second_text : bytes := str "this record is drained by an in-process LogCenter demo".

Definition center_options : LogCenterOptions := mkLogCenterOptions (str "/shmfx.log.demo_") 256 4096.

(** The sink. *)
Definition print (out : bytes) (r : LogRecord) : bytes :=
  out ++ source r ++ str " level=" ++ int_to_string (LogLevel_value (level r)) ++ str " payload=" ++ lr_payload r ++ newline.

Section main.
Context {Mx : Type} `{!RobustMutex Mx} (mx_new : Mx).

Abbreviation W := (World Mx).

(** [spurious n] are the spurious failures the [n]-th call meets; the format buffer starts zeroed. *)
Definition main (env : nat → Sys) (spurious : nat → nat → bool) (w : W) : option (Exit * W) :=
  let pid := sys_pid (env 0%nat) in
  let nm := lo_segment_name (options pid) in
  let w := (destroy mx_new (env 0%nat) nm w).2 in
  q ← init mx_new (env 1%nat) (options pid) w;
  match q with
  | (Error e, w) => Some (failure "logger init failed: " e, w)
  | (Value logger, w) =>
      let buffer := replicate (Z.to_nat kFormatBufferBytes) 0 in
      first ← info mx_new (env 2%nat) (spurious 0%nat) logger (Some (Some (first_text pid))) buffer w;
      let buffer := (vsnprintf buffer kFormatBufferBytes (Some (first_text pid))).2 in
      second ← warn mx_new (env 3%nat) (spurious 1%nat) logger (Some (Some second_text)) buffer first.2;
      let center := set_sink (Some print) (make_center center_options) in
      polled ← poll_once mx_new (env 4%nat) center [] second.2;
      let '(_, _, center, out, w) := polled in
      let w := (destroy mx_new (env 5%nat) nm w).2 in
      let w := center_end mx_new (env 6%nat) center w in
      Some (mkExit 0 out [], logger_end mx_new (env 6%nat) logger w)
  end.
End main.
End DemoProducer.

(** ** demo_multi_producer.cpp *)

Module DemoMultiProducer.

Definition options (pid : Z) : LoggerOptions :=
  mkLoggerOptions (str "multidemo") (str "/shmfx.log.multidemo_" ++ int_to_string pid) 256 1024 384 0.

Definition thread_count : nat := 4.
Definition per_thread : nat := 8.

(** What [vlog] hands to [try_push] for ["thread=%d i=%d"]; the call reads the clock of [clock tid i]. *)
Definition text (tid i : Z) : bytes := str "thread=" ++ int_to_string tid ++ str " i=" ++ int_to_string i.
Definition push (clock : Z → Z → Sys) (tid i : Z) : Args :=
  mkArgs (LogLevel_value Info) 0 (monotonic_record_time (sys_os (clock tid i))) (text tid i).
Definition pushes (clock : Z → Z → Sys) (tid : Z) : list Args := push clock tid <$> range per_thread.

Definition center_options : LogCenterOptions := mkLogCenterOptions (str "/shmfx.log.multidemo_") 256 4096.

(** The sink: [drained] and what is printed. *)
Definition sink (s : Z * bytes) (r : LogRecord) : Z * bytes := (s.1 + 1, s.2 ++ lr_payload r ++ newline).

Section main.
Context {Mx : Type} `{!RobustMutex Mx} (mx_new : Mx).

Abbreviation W := (World Mx).

(** The polling loop, for at most [fuel] rounds. *)
Fixpoint poll_loop (env : nat → Sys) (fuel i : nat) (center : LogCenter (Z * bytes)) (s : Z * bytes) (w : W)
    : option (Run (LogCenter (Z * bytes) * (Z * bytes) * W)) :=
  if s.1 <? Z.of_nat (thread_count * per_thread) then
    match fuel with
    | O => Some Unfinished
    | S fuel =>
        polled ← poll_once mx_new (env i) center s w;
        let '(_, _, center, s, w) := polled in poll_loop env fuel (S i) center s w
    end
  else Some (Done (center, s, w)).

Definition main (env : nat → Sys) (clock : Z → Z → Sys) (polls : nat → Sys) (schedule : list turn) (fuel : nat) (w : W)
    : option (Run (Exit * W)) :=
  let pid := sys_pid (env 0%nat) in
  let nm := lo_segment_name (options pid) in
  let w := (destroy mx_new (env 0%nat) nm w).2 in
  q ← init mx_new (env 1%nat) (options pid) w;
  match q with
  | (Error e, w) => Some (Done (failure "logger init failed: " e, w))
  | (Value logger, w) =>
      r ← load_ring mx_new (ring_ logger) w;
      let p := run_turns false 0 schedule (prog_init (pushes clock <$> range thread_count) [] r) in
      if bool_decide (finished 0 p) then
        w ← store_ring mx_new (ring_ logger) (g_mem (pg_ring p)) w;
        let center := set_sink (Some sink) (make_center center_options) in
        polled ← poll_loop polls fuel 0 center (0, []) w;
        match polled with
        | Unfinished => Some Unfinished
        | Done (center, (_, out), w) =>
            let w := (destroy mx_new (env 2%nat) nm w).2 in
            let w := center_end mx_new (env 3%nat) center w in
            Some (Done (mkExit 0 out [], logger_end mx_new (env 3%nat) logger w))
        end
      else Some Unfinished
  end.
End main.
End DemoMultiProducer.

(** ** Shared lemmas *)

Lemma run_turns_app {M} `{!RingMem M} retry total ts ts' (p : prog M) :
  run_turns retry total (ts ++ ts') p = run_turns retry total ts' (run_turns retry total ts p).
Proof. apply fold_left_app. Qed.

(** Every run of the threads has its schedule. *)
Lemma steps_run_turns {M} `{!RingMem M} retry total (p p' : prog M) :
  rtc (pstep retry total) p p' → ∃ ts, run_turns retry total ts p = p'.
Proof.
  induction 1 as [p|p p1 p' [i sp p1' E|p1' E] _ [ts <-]]; [by exists []| |].
  - exists (TWorker i sp :: ts). cbn [run_turns fold_left]. unfold take_turn at 2. by rewrite E.
  - exists (TConsumer :: ts). cbn [run_turns fold_left]. unfold take_turn at 2. by rewrite E.
Qed.

Lemma interleaves_fmap {A B} (f : A → B) (ls : list (list A)) (l : list A) :
  interleaves ls l → interleaves (fmap (M := list) (fmap (M := list) f) ls) (fmap (M := list) f l).
Proof.
  intros (tags&<-&Hlt&Hf). exists ((λ c, (c.1, f c.2)) <$> tags). split; [|split].
  - by rewrite <-!list_fmap_compose.
  - apply Forall_fmap. rewrite length_fmap. exact Hlt.
  - intros i all Hi. rewrite list_lookup_fmap in Hi. destruct (ls !! i) as [x|] eqn:Ex; [|done]. injection Hi as <-.
    rewrite <-(Hf i x Ex). clear. induction tags as [|[j a] tags IH]; [done|].
    rewrite fmap_cons, !filter_cons. cbn [fst]. case_decide; [rewrite !fmap_cons; by f_equal|done].
Qed.

Lemma str_bytes s : is_bytes (str s).
Proof.
  induction s as [|a s IH]; cbn [str]; constructor; [|done]. pose proof (Ascii.N_ascii_bounded a). unfold is_byte. lia.
Qed.

Lemma c_string_app s rest : 0 ∉ s → c_string (s ++ [0] ++ rest) = Some s.
Proof.
  induction s as [|c s IH]; intros Hn; [done|]. cbn [app c_string].
  apply not_elem_of_cons in Hn as [Hc Hs]. rewrite (proj2 (Z.eqb_neq c 0)) by done.
  change (s ++ 0 :: rest) with (s ++ [0] ++ rest). by rewrite IH.
Qed.

(** Bytes read back, with those after them. *)
Lemma load_store_bytes_prefix off bs m m' n :
  store_bytes off bs m = Some m' → Z.of_nat (length bs) ≤ n → off + n ≤ Z.of_nat (length m) →
  ∃ rest, load_bytes off n m' = Some (bs ++ rest).
Proof.
  intros Es Hn Hm. pose proof (store_bytes_length _ _ _ _ Es) as Hl. apply store_bytes_Some in Es as (H0&H1&->).
  exists (take (Z.to_nat n - length bs) (drop (Z.to_nat off + length bs) m)). apply load_bytes_Some.
  split_and!; [done|lia|lia|]. rewrite drop_app_length' by (rewrite length_take; lia). by rewrite take_app_ge by lia.
Qed.

Section lemmas.
Context {Mx : Type} `{!RobustMutex Mx, !RobustMutexLaws Mx} (mx_new : Mx).

Abbreviation W := (World Mx).
Implicit Types w : W.

(** What the operations around a handle keep: descriptors, mappings, heartbeats and, up to removal,
    names. *)
Record lighter (w w' : W) : Prop := {
  lt_resources : resources w' = resources w;
  lt_heartbeat : w_heartbeat w' = w_heartbeat w;
  lt_names nm : w_names w' !! nm = w_names w !! nm ∨ w_names w' !! nm = None;
}.

Lemma lighter_trans w1 w2 w3 : lighter w1 w2 → lighter w2 w3 → lighter w1 w3.
Proof.
  intros [A1 A2 A3] [B1 B2 B3]. split; [congruence|congruence|]. intros nm.
  destruct (B3 nm) as [E|E]; [|by right]. destruct (A3 nm) as [E'|E']; rewrite E, ?E'; auto.
Qed.

Lemma lighter_unlink sys nm w : lighter w (shm_unlink sys nm w).2.
Proof.
  unfold shm_unlink. destruct (fail_unlink sys nm); [split; auto|]. destruct (w_names w !! nm); split; auto.
  intros nm'. cbn. destruct (decide (nm' = nm)) as [->|]; [right; apply lookup_delete_eq|left; by apply lookup_delete_ne].
Qed.

Lemma lighter_unregister sys nm w : world_ok mx_new w → lighter w (registry_unregister mx_new sys nm w).2.
Proof.
  intros H. destruct (unregister_same mx_new sys nm w H) as [S _]. split.
  - unfold resources. by rewrite (sb_fds _ _ S), (sb_maps _ _ S).
  - apply S.
  - intros nm'. left. by rewrite (sb_names _ _ S).
Qed.

Lemma lighter_destroy sys nm w : world_ok mx_new w → lighter w (destroy mx_new sys nm w).2.
Proof.
  intros H. unfold destroy. destruct (parse_and_validate_name nm); [|split; auto].
  pose proof (lighter_unlink sys nm w) as L. pose proof (ok_unlink mx_new sys nm w H) as H1.
  destruct (shm_unlink sys nm w) as [[e|] w1]; [done|]. case_bool_decide; [done|].
  eapply lighter_trans; [exact L|]. by apply lighter_unregister.
Qed.

(** The end of a handle: one descriptor and one mapping less, the owner's heartbeat dropped. *)
Lemma handle_reset_frees sys h id w :
  world_ok mx_new w → base_ h = Some id → fd_ h = true →
  lighter (close (munmap (drop_heartbeat h id w))) (handle_reset mx_new sys h w).
Proof.
  intros H Eb Ef. unfold handle_reset. rewrite Eb, Ef. fold (drop_heartbeat h id w).
  pose proof (ok_drop_heartbeat mx_new h id w H) as H1. set (w1 := drop_heartbeat h id w) in *.
  destruct (mode_ h); [split; auto|]. set (w2 := upd_header _ id w1).
  assert (H2 : world_ok mx_new w2) by by apply ok_upd_header.
  destruct (_ && _ && _ && _)%bool; [|split; auto].
  set (w3 := upd_header _ id w2). assert (H3 : world_ok mx_new w3) by by apply ok_upd_header.
  set (nm := segment_name _). assert (L : lighter w1 (registry_unregister mx_new sys nm (shm_unlink sys nm w3).2).2).
  { apply (lighter_trans _ w3); [split; auto|]. eapply lighter_trans; [apply lighter_unlink|].
    by apply lighter_unregister, ok_unlink. }
  destruct L as [L1 L2 L3]. unfold resources in L1. injection L1 as E1 E2. split; [|exact L2|exact L3].
  unfold resources. cbn. by rewrite E1, E2.
Qed.

Lemma handle_reset_open sys h id w :
  world_ok mx_new w → base_ h = Some id → fd_ h = true → owner_ h = false →
  world_ok mx_new (handle_reset mx_new sys h w) ∧
  lighter (close (munmap w)) (handle_reset mx_new sys h w).
Proof.
  intros H Eb Ef Ew. split; [by apply handle_reset_ok|].
  pose proof (handle_reset_frees sys h id w H Eb Ef) as L. unfold drop_heartbeat in L. by rewrite Ew in L.
Qed.

(** After the handle of a created segment has ended, the process holds what it held before. *)
Lemma created_reset sys sys' o w h w1 hdr w2 :
  world_ok mx_new w → created mx_new sys o w h w1 hdr → world_ok mx_new w2 → lighter w1 w2 →
  let w' := handle_reset mx_new sys' h w2 in
  world_ok mx_new w' ∧ resources w' = resources w ∧
  hb_headers (w_heartbeat w') = hb_headers (w_heartbeat w) ∧
  (∀ nm, w_names w' !! nm = w_names w2 !! nm ∨ w_names w' !! nm = None).
Proof.
  intros H C H2 L w'. split; [by apply handle_reset_ok|].
  destruct (handle_reset_frees sys' h (w_next w) w2) as [R1 R2 R3]; [done|by rewrite (cr_handle _ _ _ _ _ _ _ C)..|].
  fold w' in R1, R2, R3. pose proof (cr_resources _ _ _ _ _ _ _ C) as Hr.
  unfold drop_heartbeat in R1, R2, R3. replace (owner_ h) with true in * by by rewrite (cr_handle _ _ _ _ _ _ _ C).
  cbn in R1, R2, R3. split; [|split; [|exact R3]].
  - destruct L as [L1 _ _]. unfold resources in *. cbn in R1. injection L1 as E1 E2. injection Hr as E3 E4.
    rewrite R1. f_equal; lia.
  - rewrite R2, hb_headers_unregister, (lt_heartbeat _ _ L), (cr_heartbeat _ _ _ _ _ _ _ C).
    rewrite filter_app, filter_all.
    + cbn. rewrite decide_False by (intros Hx; by apply Hx). apply app_nil_r.
    + intros p Hp ->. pose proof (wo_heartbeat _ _ H _ Hp). lia.
Qed.

(** The janitor and a mapping of a valid name that is not the registry's. *)
Lemma attach_lighter sys nm mode w :
  world_ok mx_new w → valid_name nm → nm ≠ REGISTRY_NAME →
  world_ok mx_new (gc mx_new sys w) ∧ lighter w (gc mx_new sys w) ∧ evolves w (gc mx_new sys w) ∧
  contents_kept w (gc mx_new sys w) ∧
  map_outcome mx_new sys nm mode (gc mx_new sys w) (attach mx_new sys nm mode w).
Proof.
  intros H Hv Hne. destruct (attach_world mx_new sys nm mode w H Hv) as (H1&Hev&Hm).
  rewrite bool_decide_false in H1, Hev, Hm by done. pose proof (gc_pass mx_new sys w H) as P.
  split; [done|]. split; [split; apply P|]. split; [done|]. split; [|done]. apply gc_contents, (reg_ready_constructed mx_new w), H.
Qed.

(** A mapping that has ended again. *)
Lemma attached_reset sys mode id size w w1 :
  world_ok mx_new w1 → lighter (attached mode id w) w1 →
  let w' := handle_reset mx_new sys (mkShmHandle (Some id) size true mode false) w1 in
  world_ok mx_new w' ∧ lighter w w' ∧ (∀ nm, w_names w' !! nm = w_names w1 !! nm ∨ w_names w' !! nm = None).
Proof.
  intros H1 [L1 L2 L3] w'.
  destruct (handle_reset_open sys (mkShmHandle (Some id) size true mode false) id w1) as [H' L']; try done.
  fold w' in H', L'. split; [done|]. split; [|apply L'].
  assert (Ew : w_names (attached mode id w) = w_names w ∧ w_heartbeat (attached mode id w) = w_heartbeat w ∧
               resources (attached mode id w) = (w_fds w + 1, w_maps w + 1)) by by destruct mode.
  destruct Ew as (E1&E2&E3). eapply lighter_trans; [|exact L']. split.
  - rewrite E3 in L1. unfold resources in *. cbn. injection L1 as -> ->. f_equal; lia.
  - cbn. by rewrite L2.
  - intros nm. cbn. rewrite <-E1. apply L3.
Qed.

Lemma destroy_removes sys nm w :
  world_ok mx_new w → valid_name nm → fail_unlink sys nm = None → w_names (destroy mx_new sys nm w).2 !! nm = None.
Proof.
  intros H Hv Hf. unfold destroy, valid_name in *. destruct (parse_and_validate_name nm); [|done].
  pose proof (ok_unlink mx_new sys nm w H) as H1. unfold shm_unlink in *. rewrite Hf in *.
  destruct (w_names w !! nm) eqn:En; [|done]. assert (Ed : delete nm (w_names w) !! nm = None) by apply lookup_delete_eq.
  case_bool_decide; [done|]. destruct (lt_names _ _ (lighter_unregister sys nm _ H1) nm) as [E|E]; [|done].
  etrans; [exact E|exact Ed].
Qed.

Lemma writes_lighter P w w' : writes P w w' → lighter w w'.
Proof. intros Hw. rewrite (wr_frame _ _ _ Hw). by split; auto. Qed.

Lemma new_ring_abs v cap mp w r :
  2 ≤ cap < 2 ^ 32 → 0 ≤ mp < 2 ^ 32 → new_ring v cap mp w r →
  RECORD_HEADER_SIZE ≤ record_stride_for mp < 2 ^ 32 ∧ ring_abs r (init_cells cap (record_stride_for mp)).
Proof.
  intros Hc Hmp Hn. pose proof (nr_init _ _ _ _ _ Hn) as (me&da&sp&me'&sp'&Hsp&Ei).
  destruct (initialize_Value me da sp cap mp r me' sp') as (?&_&?); try done. lia.
Qed.

(** Threads that have ended leave a ring that fits where it was. *)
Lemma ended_store v cap mp w r jobs scratch retry total p :
  2 ≤ cap < 2 ^ 32 → 0 ≤ mp < 2 ^ 32 → new_ring v cap mp w r → Forall (Forall args_typed) jobs →
  Z.of_nat (length scratch) < 2 ^ 32 → Z.of_nat (job_count jobs) + cap < 2 ^ 63 →
  rtc (pstep retry total) (prog_init jobs scratch r) p →
  Forall (λ pc, pc = PIdle) (g_prods (pg_ring p)) → g_cons (pg_ring p) = CIdle →
  ∃ w', store_ring mx_new v (g_mem (pg_ring p)) w = Some w' ∧ writes (eq (rv_object v)) w w' ∧
        ring_at v w' (g_mem (pg_ring p)).
Proof.
  intros Hc Hmp Hn Hj Hs Hb Hr Hi Hci. destruct (new_ring_abs v cap mp w r Hc Hmp Hn) as [Hstr Habs].
  pose proof (prog_reach_inv cap (record_stride_for mp) r jobs scratch retry total Hc Hstr Habs Hj Hs Hb p Hr) as Hp.
  destruct (ended_queue cap (record_stride_for mp) r jobs scratch retry Hc Hstr Habs Hb p Hp Hi Hci) as (Hq&_&Em&Es).
  apply store_ring_at with r; [apply Hn| |].
  - apply ring_geom_length; [apply Hn|apply Hq|by rewrite Em, (nr_meta _ _ _ _ _ Hn)|by rewrite Es, (nr_meta _ _ _ _ _ Hn)].
  - eapply ring_queue_wide; [exact Hq|]. apply u64_range.
Qed.

(** The end of a center. *)
Lemma center_end_frees {S} sys (c : LogCenter S) w :
  world_ok mx_new w → center_ok c w →
  let w' := center_end mx_new sys c w in
  world_ok mx_new w' ∧ w_heartbeat w' = w_heartbeat w ∧ w_names w' = w_names w ∧ resources w' = balance c w.
Proof.
  intros H [Hr _] w'. destruct (detach_all mx_new sys (rings_ c) w H) as (?&_&_&?&?&?); [|done].
  eapply Forall_impl; [exact Hr|]. intros r [[size E] _ _]. by exists size.
Qed.

(** A process that polls its own logger once, removes the segment and ends. *)
Lemma poll_and_end {S} sysA sysB o w h w1 hdr w3 room q (c : LogCenter S) (s : S) :
  let nm := logger_name sysA o in
  let cap := lo_record_max o in
  let stride := logger_stride o in
  let v := log_view (w_next w) cap stride in
  let lo := options_ c in
  let msgs := take (Z.to_nat (lc_drain_batch lo)) (f_queue q) in
  world_ok mx_new w → world_ok mx_new w1 → create mx_new sysA (make_create_options o nm) w = (Value h, w1) →
  created mx_new sysA (make_create_options o nm) w h w1 hdr → nm ≠ REGISTRY_NAME →
  writes (eq (w_next w)) w1 w3 → ring_segment (w_next w) cap stride w3 → ring_in v cap stride room w3 q → 0 ≤ room →
  sys_ok sysB → sys_keys sysB = sys_keys sysA →
  owner_is_dead (sys_os sysB) hdr (monotonic_ns (sys_os sysB)) = false → rings_ c = [] →
  take (length (prefix lo)) nm = prefix lo →
  (∀ nm', is_Some (entries mx_new w !! nm') → take (length (prefix lo)) nm' ≠ prefix lo) →
  scratch_bytes lo < 2 ^ 32 → 0 ≤ lc_drain_batch lo < 2 ^ 32 →
  ∃ pause c' w4, poll_once mx_new sysB c s w3 =
    Some (Z.of_nat (length msgs), pause, c',
          fold_left (sink_ c) (delivered nm (Z.of_nat (Z.to_nat (scratch_bytes lo))) <$> msgs) s, w4) ∧
    ∀ sysC sysD,
      let w' := logger_end mx_new sysD (mkLogger h v nm) (center_end mx_new sysD c' (destroy mx_new sysC nm w4).2) in
      world_ok mx_new w' ∧ resources w' = resources w ∧
      hb_headers (w_heartbeat w') = hb_headers (w_heartbeat w) ∧
      (fail_unlink sysC nm = None → w_names w' !! nm = None).
Proof.
  intros nm cap stride v lo msgs H H1 Ec C Hne Hw Hseg Hin Hroom HsB Hk Hal Hr Hp Honly Hsc Hb.
  pose proof (created_live mx_new sysA (make_create_options o nm) w h w1 hdr H ltac:(done) Ec C Hne) as L1.
  destruct (writes_live mx_new _ _ _ w1 w3 _ _ Hw L1) as (sg3&L3&Eh3&_). pose proof (writes_ok mx_new _ _ _ Hw H1) as H3.
  destruct (poll_live mx_new sysB c nm cap stride room w3 (w_next w) sg3 q s) as (pause&c'&w4&Ep&H4&_&Hc&Hbal&Hhb&Hn); try done.
  - by rewrite Hk.
  - by rewrite Eh3.
  - intros nm' Hs' Hp'. destruct (decide (nm' = nm)) as [|Hd]; [done|]. exfalso. apply (Honly nm'); [|done].
    revert Hs'. unfold entries at 1. rewrite (writes_registry mx_new _ w1 w3 Hw). fold (entries mx_new w1).
    rewrite (cr_entries _ _ _ _ _ _ _ C). cbn [co_name make_create_options]. rewrite bool_decide_false by done.
    by rewrite lookup_insert_ne.
  - exists pause, c', w4. split; [exact Ep|]. intros sysC sysD w'.
    assert (Hv : valid_name nm).
    { unfold create in Ec. unfold valid_name. cbn [co_name make_create_options] in Ec. by destruct (parse_and_validate_name nm). }
    destruct (destroy_ok mx_new sysC nm w4 H4) as [H5 Hev5]. pose proof (lighter_destroy sysC nm w4 H4) as L5.
    pose proof (destroy_removes sysC nm w4 H4 Hv) as Hgone. set (w5 := (destroy _ _ _ w4).2) in *.
    destruct (center_end_frees sysD c' w5 H5) as (H6&Eh6&En6&Er6); [by apply (center_ok_evolves c' w4)|].
    set (w6 := center_end _ _ c' w5) in *. assert (L6 : lighter w1 w6).
    { apply (lighter_trans _ w3); [by eapply writes_lighter|]. destruct L5 as [R5 Hb5 N5]. split.
      - rewrite Er6, <-Hbal. unfold balance, resources in *. by injection R5 as -> ->.
      - by rewrite Eh6, Hb5.
      - intros nm'. rewrite En6. destruct (N5 nm') as [->|]; [|by right]. apply Hn. }
    destruct (created_reset sysA sysD _ w h w1 hdr w6 H C H6 L6) as (R1&R2&R3&R4). split_and!; try done.
    intros Hf. unfold w'. destruct (R4 nm) as [E|E]; [|exact E]. etrans; [exact E|]. rewrite En6. by apply Hgone.
Qed.
End lemmas.
