(* ===== verification/ExamplesProps.v ===== *)
(** * Properties of the example programs *)

From S2P Require Import Prelude Types Sync RingMem RingCells RingBytes RingProps.
From S2P Require Import Security Lifecycle Registry Manager ManagerInv Janitor ManagerOps ManagerSteps ManagerProps Grants.
From S2P Require Import Contents SegmentRing Logger LogCenter LoggingProps RingConc RingInv RingConcProps Threads ThreadsEnd Examples.

#[local] Opaque NSLOTS reg_map.

Section raw_segment.
Context {Mx : Type} `{!RobustMutex Mx, !RobustMutexLaws Mx} (mx_new : Mx).

Abbreviation W := (World Mx).
Implicit Types w : W.

(** The segment once the message is there. *)
Lemma raw_written sys nm w h w1 hdr :
  created mx_new sys (RawSegment.options nm) w h w1 hdr →
  sg_header (seg mx_new (w_next w) w1) = hdr ∧ payload_offset hdr = 320 ∧
  ∃ b, put_span mx_new 320 (RawSegment.message ++ [0]) (w_next w) w1 = Some (upd_seg (with_body b) (w_next w) w1) ∧
    writes (eq (w_next w)) w1 (upd_seg (with_body b) (w_next w) w1) ∧
    w_objs (upd_seg (with_body b) (w_next w) w1) !! w_next w = Some (mkSegment 4416 hdr mx_new (BytesBody b)) ∧
    ∃ rest, load_bytes 64 4096 b = Some (RawSegment.message ++ [0] ++ rest).
Proof.
  intros C. pose proof (cr_object _ _ _ _ _ _ _ C) as Eo.
  split; [by rewrite (seg_lookup mx_new w1 _ _ Eo)|].
  split; [by destruct (created_fields _ _ _ _ _ _ _ C) as [d ->]|].
  set (sg := mkSegment _ _ _ _) in Eo.
  destruct (put_span_Some mx_new 320 (RawSegment.message ++ [0]) (w_next w) w1 sg _ Eo eq_refl) as (b&Es&Ep);
    [done|rewrite length_replicate; done|].
  pose proof (store_bytes_length _ _ _ _ Es) as Hlb. exists b. split; [exact Ep|].
  split; [by apply (writes_body _ _ sg _ _ Eo eq_refl)|]. split.
  { unfold upd_seg. cbn [set_objs w_objs]. by rewrite lookup_alter_eq, Eo. }
  destruct (load_store_bytes_prefix _ _ _ _ 4096 Es) as [rest El]; [done|rewrite length_replicate; done|].
  exists rest. by rewrite <-(assoc (++)) in El.
Qed.

Lemma raw_name_plain pid : RawSegment.name pid ≠ REGISTRY_NAME.
Proof. intros E. apply (f_equal (λ l, nth 7 l 0)) in E. discriminate E. Qed.

(** From the written segment on: the message comes back, or [attach] fails. *)
Lemma raw_attached (env : nat → Sys) nm w h w1 hdr w2 b rest :
  world_ok mx_new w → created mx_new (env 1%nat) (RawSegment.options nm) w h w1 hdr → world_ok mx_new w2 →
  valid_name nm → nm ≠ REGISTRY_NAME → lighter w1 w2 →
  w_objs w2 !! w_next w = Some (mkSegment 4416 hdr mx_new (BytesBody b)) → w_names w2 !! nm = Some (w_next w) →
  payload_offset hdr = 320 → load_bytes 64 4096 b = Some (RawSegment.message ++ [0] ++ rest) →
  let run :=
    match attach mx_new (env 2%nat) nm ReadOnly w2 with
    | (Error e, w) => Some (failure "attach failed: " e, handle_reset mx_new (env 3%nat) h w)
    | (Value attached, w) =>
        id' ← base_ attached;
        let hdr := sg_header (seg mx_new id' w) in
        span ← seg_span mx_new (payload hdr).1 (size_ attached - (payload hdr).1) id' w;
        text ← c_string span;
        let w := (destroy mx_new (env 3%nat) nm w).2 in
        let w := handle_reset mx_new (env 4%nat) attached w in
        Some (mkExit 0 (text ++ newline) [], handle_reset mx_new (env 4%nat) h w)
    end in
  ∃ ex w', run = Some (ex, w') ∧ world_ok mx_new w' ∧ resources w' = resources w ∧
    hb_headers (w_heartbeat w') = hb_headers (w_heartbeat w) ∧
    ((∃ what e, ex = failure what e) ∨
     ex = mkExit 0 (RawSegment.message ++ newline) [] ∧
     (fail_unlink (env 3%nat) nm = None → w_names w' !! nm = None)) ∧
    (has_value (attach mx_new (env 2%nat) nm ReadOnly w2).1 = true → ex_code ex = 0).
Proof.
  intros H C H2 Hv Hne L Eo En Epo El run.
  destruct (attach_lighter mx_new (env 2%nat) nm ReadOnly w2 H2 Hv Hne) as (H3&L3&He3&K3&Hm).
  unfold run. clear run. set (w3 := gc mx_new (env 2%nat) w2) in *.
  destruct Hm as [(id&s&At&->)|(e&->&_)].
  2: { destruct (created_reset mx_new _ (env 3%nat) _ w h w1 hdr w3 H C H3) as (R1&R2&R3&_);
         [by eapply lighter_trans|]. do 2 eexists. split; [reflexivity|]. split_and!; try done. left. eauto. }
  assert (id = w_next w) as ->.
  { pose proof (at_name _ _ _ _ _ _ At) as Ei. destruct (lt_names _ _ L3 nm) as [E|E]; congruence. }
  pose proof (at_object _ _ _ _ _ _ At) as Eos.
  destruct (ck_body _ _ _ _ b K3 Eo eq_refl) as (s'&Eo'&Eb). rewrite Eos in Eo'. injection Eo' as <-.
  destruct (He3 (w_next w) 4416 hdr) as (h'&Eh'&Hst); [unfold headers; by rewrite lookup_fmap, Eo|].
  unfold headers in Eh'. rewrite lookup_fmap, Eos in Eh'. injection Eh' as Esz Ehd.
  assert (Epo' : payload_offset (sg_header s) = 320).
  { rewrite Ehd, <-Epo. destruct Hst as (Hi&_). unfold immutable_fields in Hi. congruence. }
  cbn [base_ mbind option_bind size_]. set (wa := attached ReadOnly (w_next w) w3).
  assert (Es : seg mx_new (w_next w) wa = s) by exact (seg_lookup mx_new w3 _ s Eos).
  unfold seg_span, payload, body_bytes. rewrite Es, Eb, Esz. cbn [fst]. rewrite Epo'.
  change (320 - SHMFX_HEADER_SIZE) with 64. change (4416 - 320) with 4096. rewrite El. cbn [mbind option_bind].
  rewrite c_string_app by (apply (bool_decide_eq_true_1 _); vm_compute; reflexivity). cbn [mbind option_bind].
  assert (Ha : world_ok mx_new wa) by by apply attached_ok.
  destruct (destroy_ok mx_new (env 3%nat) nm wa Ha) as [H4 _].
  pose proof (lighter_destroy mx_new (env 3%nat) nm wa Ha) as L4.
  pose proof (destroy_removes mx_new (env 3%nat) nm wa Ha Hv) as Hgone. set (w4 := (destroy _ _ _ wa).2) in *.
  destruct (attached_reset mx_new (env 4%nat) ReadOnly (w_next w) 4416 w3 w4 H4 L4) as (H5&L5&N5).
  set (w5 := handle_reset _ _ _ w4) in *.
  destruct (created_reset mx_new _ (env 4%nat) _ w h w1 hdr w5 H C H5) as (R1&R2&R3&R4).
  { eapply lighter_trans; [exact L|]. by eapply lighter_trans. }
  do 2 eexists. split; [reflexivity|]. split_and!; try done. right. split; [done|]. intros Hf3.
  destruct (R4 nm) as [->|]; [|done]. destruct (N5 nm) as [->|]; [|done]. by apply Hgone.
Qed.

(** [raw_segment] on any world and whatever calls fail (the cleanup of a failed creation
    apart): it ends without leaving its mappings, with no descriptor, mapping or heartbeat kept,
    and either reports the call that failed with exit code 1, or prints the message it had written
    through the other mapping and exits with 0, its name removed. When nothing fails, the request
    can be granted and the process counts as alive, it succeeds. *)
Theorem raw_segment_runs (env : nat → Sys) w :
  let nm := RawSegment.name (sys_pid (env 0%nat)) in
  world_ok mx_new w → fail_unlink (env 1%nat) nm = None →
  ∃ ex w', RawSegment.main mx_new env w = Some (ex, w') ∧
    world_ok mx_new w' ∧ resources w' = resources w ∧
    hb_headers (w_heartbeat w') = hb_headers (w_heartbeat w) ∧
    ((∃ what e, ex = failure what e) ∨
     ex = mkExit 0 (RawSegment.message ++ newline) [] ∧
     (fail_unlink (env 3%nat) nm = None → w_names w' !! nm = None)) ∧
    (sys_ok (env 1%nat) → sys_ok (env 2%nat) → sys_keys (env 2%nat) = sys_keys (env 1%nat) →
     grantable mx_new (env 1%nat) (RawSegment.options nm) (destroy mx_new (env 0%nat) nm w).2 →
     owner_is_dead (sys_os (env 2%nat))
       (set_heartbeat (monotonic_ns (sys_os (env 1%nat))) (initial_header (env 1%nat) (RawSegment.options nm) 320))
       (monotonic_ns (sys_os (env 2%nat))) = false →
     ex_code ex = 0).
Proof.
  intros nm H Hf. unfold RawSegment.main. fold nm.
  destruct (destroy_ok mx_new (env 0%nat) nm w H) as [H0 _].
  pose proof (lighter_destroy mx_new (env 0%nat) nm w H) as L0. set (w0 := (destroy _ _ _ _).2) in *.
  pose proof (create_cases mx_new (env 1%nat) (RawSegment.options nm) w0 H0 ltac:(done)) as Hc.
  destruct (create _ _ _ _) as [[h|e] w1] eqn:Ec; destruct Hc as (H1&_&Hc).
  2: { do 2 eexists. split; [reflexivity|]. destruct (Hc Hf) as [U1 U2 U3 U4 U5 U6].
       split_and!; [done|by rewrite U4, (lt_resources _ _ L0)|by rewrite U5, (lt_heartbeat _ _ L0)|left; eauto|].
       intros Hs1 _ _ Hg _. apply create_iff in Hg; try done. by rewrite Ec in Hg. }
  destruct Hc as [hdr C]. destruct (raw_written (env 1%nat) nm w0 h w1 hdr C) as (Eh&Epo&b&Ep&Hw&Eo&rest&El).
  assert (base_ h = Some (w_next w0)) as -> by by rewrite (cr_handle _ _ _ _ _ _ _ C). cbn [base_ mbind option_bind]. unfold payload. cbn [fst].
  rewrite Eh, Epo, Ep. cbn [mbind option_bind]. set (w2 := upd_seg _ _ w1) in *.
  assert (Hv : valid_name nm).
  { unfold create in Ec. unfold valid_name. cbn [co_name RawSegment.options] in Ec. by destruct (parse_and_validate_name nm). }
  destruct (raw_attached env nm w0 h w1 hdr w2 b rest H0 C) as (ex&w'&E&R1&R2&R3&R4&R5); try done.
  - by eapply writes_ok.
  - by split; auto.
  - change (w_names w2) with (w_names w1). rewrite (cr_names _ _ _ _ _ _ _ C). apply lookup_insert_eq.
  - exists ex, w'. split; [exact E|]. split_and!; [done| | |done|].
    + by rewrite R2, (lt_resources _ _ L0).
    + by rewrite R3, (lt_heartbeat _ _ L0).
    + intros Hs1 Hs2 Hk Hg Ha. apply R5.
      pose proof (created_live mx_new (env 1%nat) (RawSegment.options nm) w0 h w1 hdr H0 ltac:(done) Ec C (raw_name_plain _)) as L1.
      destruct (writes_live mx_new _ _ _ w1 w2 _ _ Hw L1) as (sg&L2&Ehd&_).
      destruct (live_attach mx_new (env 2%nat) nm ReadOnly w2 (w_next w0) sg) as [-> _]; try done.
      * by eapply writes_ok.
      * by rewrite Hk.
      * rewrite Ehd. cbn [sg_header]. by destruct (created_fields _ _ _ _ _ _ _ C) as [d ->].
Qed.
End raw_segment.

(** ** ring_mpsc *)

(** The lines of each producer. *)
Definition ring_lines : list (list bytes) :=
  (λ i, (λ j, str "type=" ++ int_to_string i ++ str " payload=p" ++ int_to_string i ++ str ":" ++
              int_to_string j ++ newline) <$> range 16) <$> range 4.

Definition ring_jobs : list (list Args) := RingMpsc.pushes <$> range RingMpsc.producers.

Lemma ring_jobs_typed : Forall (Forall args_typed) ring_jobs.
Proof.
  apply Forall_forall. intros js Hjs. apply Forall_forall. intros a Ha. apply args_typedb_spec.
  assert (Hall : forallb (forallb args_typedb) ring_jobs = true) by (vm_compute; reflexivity).
  rewrite forallb_forall in Hall. specialize (Hall js ltac:(by apply list_elem_of_In)).
  rewrite forallb_forall in Hall. apply Hall. by apply list_elem_of_In.
Qed.

Lemma ring_jobs_count : job_count ring_jobs = RingMpsc.total.
Proof. vm_compute. reflexivity. Qed.

Lemma line_shown x : RingMpsc.line (shown x) = RingMpsc.line x.
Proof. unfold RingMpsc.line, shown. cbn [fst snd]. by rewrite take_take, Nat.min_id. Qed.

Lemma ring_lines_shown (popped : list (PoppedRecord * bytes)) order :
  interleaves ring_jobs order → shown <$> popped = expected RingMpsc.stride 64 <$> order →
  interleaves ring_lines (RingMpsc.line <$> popped).
Proof.
  intros Ho%(interleaves_fmap (λ a, RingMpsc.line (expected RingMpsc.stride 64 a))) E.
  assert (El : fmap (M := list) (fmap (M := list) (λ a, RingMpsc.line (expected RingMpsc.stride 64 a))) ring_jobs = ring_lines)
    by (vm_compute; reflexivity).
  rewrite El in Ho. replace (RingMpsc.line <$> popped) with ((λ a, RingMpsc.line (expected RingMpsc.stride 64 a)) <$> order); [done|].
  trans (RingMpsc.line <$> (expected RingMpsc.stride 64 <$> order)); [by rewrite <-list_fmap_compose|].
  rewrite <-E, <-list_fmap_compose. apply list_fmap_ext. intros i x _. apply line_shown.
Qed.

(** The options are those of a logger with such a ring. *)
Definition ring_options : LoggerOptions := mkLoggerOptions [] [] RingMpsc.record_max RingMpsc.max_payload 384 0.

Lemma ring_options_typed : options_typed ring_options ∧ 2 ≤ lo_record_max ring_options ∧ logger_stride ring_options ≠ 0.
Proof. vm_compute. split_and!; discriminate || reflexivity. Qed.

Section ring_mpsc.
Context {Mx : Type} `{!RobustMutex Mx, !RobustMutexLaws Mx} (mx_new : Mx).

Abbreviation W := (World Mx).
Implicit Types w : W.

(** The threads on the new ring. *)
Definition ring_prog (r : MpscRing) (schedule : list turn) : prog MpscRing :=
  run_turns true RingMpsc.total schedule (prog_init ring_jobs RingMpsc.scratch r).

Lemma ring_prog_ends v w r schedule :
  new_ring v RingMpsc.record_max RingMpsc.max_payload w r →
  (∃ more, finished RingMpsc.total (ring_prog r (schedule ++ more))) ∧
  (finished RingMpsc.total (ring_prog r schedule) →
   (∃ w', store_ring mx_new v (g_mem (pg_ring (ring_prog r schedule))) w = Some w' ∧ writes (eq (rv_object v)) w w') ∧
   interleaves ring_lines (RingMpsc.line <$> pg_popped (ring_prog r schedule))).
Proof.
  intros Hn. assert (Hc : 2 ≤ RingMpsc.record_max < 2 ^ 32) by done. assert (Hm : 0 ≤ RingMpsc.max_payload < 2 ^ 32) by done.
  destruct (new_ring_abs v _ _ w r Hc Hm Hn) as [Hs Habs]. fold RingMpsc.stride in Hs, Habs.
  pose proof ring_jobs_typed as Hj. pose proof ring_jobs_count as Hcount.
  assert (Hb : Z.of_nat (job_count ring_jobs) + RingMpsc.record_max < 2 ^ 63) by by rewrite Hcount.
  assert (Hsc : Z.of_nat (length RingMpsc.scratch) < 2 ^ 32) by done.
  pose proof (run_turns_steps true RingMpsc.total schedule (prog_init ring_jobs RingMpsc.scratch r)) as Hr.
  pose proof (prog_reach_inv _ RingMpsc.stride r ring_jobs RingMpsc.scratch true RingMpsc.total Hc Hs Habs Hj Hsc Hb _ Hr) as Hp.
  split.
  - destruct (can_finish _ RingMpsc.stride r ring_jobs RingMpsc.scratch true RingMpsc.total Hc Hs Habs Hj Hsc Hb _ eq_refl
      (eq_sym Hcount) Hp) as (p'&Hr'&Hf).
    apply steps_run_turns in Hr' as [more Em]. exists more. unfold ring_prog. rewrite run_turns_app, Em. exact Hf.
  - intros Hf. split.
    + destruct Hf as (F1&_&F3&_).
      destruct (ended_store mx_new v _ _ w r ring_jobs RingMpsc.scratch true RingMpsc.total _ Hc Hm Hn Hj Hsc Hb Hr F1 F3)
        as (w'&E&Hw&_). exists w'. split; [exact E|exact Hw].
    + destruct (ended_complete _ RingMpsc.stride r ring_jobs RingMpsc.scratch true RingMpsc.total Hc Hs Habs Hb _ Hp eq_refl
        (eq_sym Hcount) Hf) as [Hsh Ho]. eapply ring_lines_shown; [exact Ho|exact Hsh].
Qed.

(** What [ring_mpsc] may end with. *)
Definition ring_result (nm : bytes) (sys : Sys) w (ex : Exit) (w' : W) : Prop :=
  world_ok mx_new w' ∧ resources w' = resources w ∧ hb_headers (w_heartbeat w') = hb_headers (w_heartbeat w) ∧
  ((∃ what e, ex = failure what e) ∨
   ∃ order, interleaves ring_lines order ∧ ex = mkExit 0 (concat order) [] ∧
            (fail_unlink sys nm = None → w_names w' !! nm = None)).

(** From the created segment on. *)
Lemma ring_created_runs (env : nat → Sys) schedule nm w h w1 hdr :
  world_ok mx_new w → world_ok mx_new w1 → valid_name nm →
  created mx_new (env 1%nat) (RingMpsc.options nm) w h w1 hdr →
  let run schedule :=
    id ← base_ h;
    q ← ring_initialize mx_new id RingMpsc.record_max RingMpsc.max_payload w1;
    match q with
    | (Error e, w) => Some (Done (failure "ring init failed: " e, handle_reset mx_new (env 2%nat) h w))
    | (Value ring, w) =>
        r ← load_ring mx_new ring w;
        let p := ring_prog r schedule in
        if bool_decide (finished RingMpsc.total p) then
          w ← store_ring mx_new ring (g_mem (pg_ring p)) w;
          let w := (destroy mx_new (env 2%nat) nm w).2 in
          Some (Done (mkExit 0 (concat (RingMpsc.line <$> pg_popped p)) [], handle_reset mx_new (env 3%nat) h w))
        else Some Unfinished
    end in
  (∃ res, run schedule = Some res ∧
     ∀ ex w', res = Done (ex, w') → ring_result nm (env 2%nat) w ex w' ∧ ex_code ex = 0) ∧
  ∃ more res, run (schedule ++ more) = Some (Done res).
Proof.
  intros H H1 Hv C run. destruct ring_options_typed as (Ht&Hr&Hst).
  destruct (created_ring_new mx_new (env 1%nat) ring_options nm w h w1 hdr Ht Hr Hst C) as (w2&r&Ei&Hw2&_&Hn).
  change (lo_record_max ring_options) with RingMpsc.record_max in *.
  change (lo_max_payload ring_options) with RingMpsc.max_payload in *. set (v := log_view _ _ _) in *.
  assert (Eb : base_ h = Some (w_next w)) by by rewrite (cr_handle _ _ _ _ _ _ _ C).
  unfold run. rewrite Eb. cbn [mbind option_bind]. rewrite Ei. cbn [mbind option_bind].
  rewrite (load_ring_at mx_new v w2 r) by apply Hn. cbn [mbind option_bind].
  assert (Hdone : ∀ s, finished RingMpsc.total (ring_prog r s) → ∃ ex w',
    (w ← store_ring mx_new v (g_mem (pg_ring (ring_prog r s))) w2;
     Some (Done (mkExit 0 (concat (RingMpsc.line <$> pg_popped (ring_prog r s))) [],
             handle_reset mx_new (env 3%nat) h (destroy mx_new (env 2%nat) nm w).2))) = Some (Done (ex, w')) ∧
    ring_result nm (env 2%nat) w ex w' ∧ ex_code ex = 0).
  { intros s Hf. destruct (proj2 (ring_prog_ends v w2 r s Hn) Hf) as [(w3&E3&Hw3) Ho]. rewrite E3. cbn [mbind option_bind].
    assert (Hw : writes (eq (w_next w)) w1 w3) by (eapply writes_trans; [exact Hw2|exact Hw3]).
    assert (H3 : world_ok mx_new w3) by by eapply writes_ok.
    destruct (destroy_ok mx_new (env 2%nat) nm w3 H3) as [H4 _].
    pose proof (lighter_destroy mx_new (env 2%nat) nm w3 H3) as L4.
    pose proof (destroy_removes mx_new (env 2%nat) nm w3 H3 Hv) as Hgone. set (w4 := (destroy _ _ _ w3).2) in *.
    destruct (created_reset mx_new _ (env 3%nat) _ w h w1 hdr w4 H C H4) as (R1&R2&R3&R4).
    { eapply lighter_trans; [exact (writes_lighter _ _ _ Hw)|exact L4]. }
    do 2 eexists. split; [reflexivity|]. split; [|done]. split; [done|]. split; [done|]. split; [done|]. right.
    eexists. split; [exact Ho|]. split; [done|]. intros Hf2. destruct (R4 nm) as [->|]; [|done]. by apply Hgone. }
  split.
  - case_bool_decide as Hf; [|by eexists]. destruct (Hdone _ Hf) as (ex&w'&->&Hres). eexists. split; [reflexivity|].
    by intros ex' w'' [= <- <-].
  - destruct (proj1 (ring_prog_ends v w2 r schedule Hn)) as [more Hf]. exists more.
    rewrite bool_decide_true by exact Hf. destruct (Hdone _ Hf) as (ex&w'&->&_). eauto.
Qed.

(** C26: [ring_mpsc], however its threads are scheduled and whatever calls fail (the cleanup of a
    failed creation apart): it never leaves its mapping and can always still end; when it has ended
    it keeps no descriptor, mapping or heartbeat, and it has either reported the call that failed, or
    printed the 64 lines, each exactly once and the lines of each producer in their order, with its
    name removed. When nothing fails and the request can be granted it prints them. *)
Theorem ring_mpsc_runs (env : nat → Sys) schedule w :
  let nm := RingMpsc.name (sys_pid (env 0%nat)) in
  world_ok mx_new w → fail_unlink (env 1%nat) nm = None →
  (∃ res, RingMpsc.main mx_new env schedule w = Some res ∧
     ∀ ex w', res = Done (ex, w') → ring_result nm (env 2%nat) w ex w' ∧
       (sys_ok (env 1%nat) →
        grantable mx_new (env 1%nat) (RingMpsc.options nm) (destroy mx_new (env 0%nat) nm w).2 → ex_code ex = 0)) ∧
  ∃ more res, RingMpsc.main mx_new env (schedule ++ more) w = Some (Done res).
Proof.
  intros nm H Hf. unfold RingMpsc.main. fold nm.
  destruct (destroy_ok mx_new (env 0%nat) nm w H) as [H0 _].
  pose proof (lighter_destroy mx_new (env 0%nat) nm w H) as L0. set (w0 := (destroy _ _ _ _).2) in *.
  assert (Hsz : 0 ≤ co_total_size (RingMpsc.options nm) < 2 ^ 64) by apply u64_range.
  pose proof (create_cases mx_new (env 1%nat) (RingMpsc.options nm) w0 H0 (proj1 Hsz)) as Hc.
  destruct (create _ _ _ w0) as [[h|e] w1] eqn:Ec; destruct Hc as (H1&_&Hc).
  2: { split; [|exists []; by eexists]. eexists. split; [reflexivity|]. intros ex w' [= <- <-].
       destruct (Hc Hf) as [U1 U2 U3 U4 U5 U6]. split.
       - split_and!; [done|by rewrite U4, (lt_resources _ _ L0)|by rewrite U5, (lt_heartbeat _ _ L0)|left; eauto].
       - intros Hs1 Hg. apply create_iff in Hg; try done. by rewrite Ec in Hg. }
  destruct Hc as [hdr C]. assert (Hv : valid_name nm).
  { unfold create in Ec. unfold valid_name. cbn [co_name RingMpsc.options] in Ec. by destruct (parse_and_validate_name nm). }
  destruct (ring_created_runs env schedule nm w0 h w1 hdr H0 H1 Hv C) as [(res&E&Hres) Hmore]. split; [|exact Hmore].
  exists res. split; [exact E|]. intros ex w' Ed. destruct (Hres ex w' Ed) as [(R1&R2&R3&R4) Hcode]. split; [|done].
  split_and!; [done|by rewrite R2, (lt_resources _ _ L0)|by rewrite R3, (lt_heartbeat _ _ L0)|exact R4].
Qed.
End ring_mpsc.

(** ** The logging demos *)

Lemma length_int_to_string n : (length (int_to_string n) ≤ 11)%nat.
Proof.
  unfold int_to_string. destruct (n <? 0); cbn [length]; rewrite length_rev;
    [pose proof (length_digits_rev 10 (- n))|pose proof (length_digits_rev 10 n)]; lia.
Qed.

Lemma int_to_string_bytes n : 0 ≤ n → is_bytes (int_to_string n).
Proof.
  intros Hn. eapply Forall_impl; [by apply int_to_string_digits|]. intros c [Hc1 Hc2]. unfold is_byte. lia.
Qed.

(** A text that fits the format buffer and the slot is published whole. *)
Lemma fifo_call_text cap stride sys sp lvl text buffer q :
  Z.of_nat (length text) < 1024 → Z.of_nat (length text) ≤ stride - RECORD_HEADER_SIZE →
  Z.of_nat (length (f_queue q)) < cap →
  fifo_call cap stride (mkLogCall sys sp lvl (Format (Some (Some text))) buffer) q =
  (Value tt, mkFifo (f_queue q ++ [mkMsg (LogLevel_value lvl) 0 (monotonic_record_time (sys_os sys)) text]) (f_lost q)).
Proof.
  intros H1 H2 H3. unfold fifo_call, call_record. cbn [lc_kind lc_sys lc_level].
  destruct (Z.leb_spec (2 ^ 31) (Z.of_nat (length text))); [lia|].
  destruct (Z.leb_spec 1024 (Z.of_nat (length text))); [lia|]. unfold fifo_push, stored_msg.
  rewrite bool_decide_true by done. rewrite bool_decide_false by lia. done.
Qed.

Lemma delivered_whole nm n m :
  Z.of_nat (length (m_data m)) ≤ n →
  delivered nm n m = mkLogRecord nm (decode_level (m_type m)) (m_flags m) (m_user m) (m_data m).
Proof. intros Hl. unfold delivered. by rewrite take_ge by lia. Qed.

Section demo_producer.
Context {Mx : Type} `{!RobustMutex Mx, !RobustMutexLaws Mx} (mx_new : Mx).

Abbreviation W := (World Mx).
Implicit Types w : W.

(** What the demo needs: its request can be granted, nobody else has a ring with its prefix, nothing
    it relies on fails, and its own process counts as alive when it polls. *)
Record can_demo (sysA sysB : Sys) (o : LoggerOptions) (prefix : bytes) w : Prop := {
  cd_sysA : sys_ok sysA;
  cd_sysB : sys_ok sysB;
  cd_keys : sys_keys sysB = sys_keys sysA;
  cd_grant : grantable mx_new sysA (make_create_options o (lo_segment_name o)) w;
  cd_alone nm' : is_Some (entries mx_new w !! nm') → take (length prefix) nm' ≠ prefix;
  cd_alive : owner_is_dead (sys_os sysB)
               (set_heartbeat (monotonic_ns (sys_os sysA))
                  (initial_header sysA (make_create_options o (lo_segment_name o)) 320))
               (monotonic_ns (sys_os sysB)) = false;
}.

Lemma granted_create sysA sysB o prefix w :
  world_ok mx_new w → options_typed o → lo_segment_name o ≠ [] → can_demo sysA sysB o prefix w →
  ∃ h w1 hdr, logger_name sysA o = lo_segment_name o ∧
    create mx_new sysA (make_create_options o (lo_segment_name o)) w = (Value h, w1) ∧ world_ok mx_new w1 ∧
    created mx_new sysA (make_create_options o (lo_segment_name o)) w h w1 hdr ∧
    owner_is_dead (sys_os sysB) hdr (monotonic_ns (sys_os sysB)) = false.
Proof.
  intros H Ht Hn [HsA HsB Hk Hg _ Ha]. pose proof (create_options_nonneg o (lo_segment_name o) Ht) as H0.
  pose proof (create_cases mx_new sysA _ w H H0) as Hc.
  apply create_iff in Hg; [|done|done|split; [done|apply u64_range]|done].
  destruct (create _ _ _ w) as [[h|e] w1]; [|done]. destruct Hc as (H1&_&hdr&C). exists h, w1, hdr.
  split; [unfold logger_name; by rewrite bool_decide_false|]. split; [done|]. split; [done|]. split; [done|].
  by destruct (created_fields _ _ _ _ _ _ _ C) as [d ->].
Qed.

(** The calls of the demo and what they queue. *)
Definition producer_calls (env : nat → Sys) (spurious : nat → nat → bool) (pid : Z) (b0 b1 : bytes) : list log_call :=
  [mkLogCall (env 2%nat) (spurious 0%nat) Info (Format (Some (Some (DemoProducer.first_text pid)))) b0;
   mkLogCall (env 3%nat) (spurious 1%nat) Warn (Format (Some (Some DemoProducer.second_text))) b1].

Definition producer_msgs (env : nat → Sys) (pid : Z) : list Msg :=
  [mkMsg 2 0 (monotonic_record_time (sys_os (env 2%nat))) (DemoProducer.first_text pid);
   mkMsg 3 0 (monotonic_record_time (sys_os (env 3%nat))) DemoProducer.second_text].

Lemma producer_calls_ok env spurious pid b0 b1 :
  0 ≤ pid → (∀ n, ∃ k, (k < MPSC_CAS_RETRY_BUDGET)%nat ∧ spurious n k = false) →
  Forall call_ok (producer_calls env spurious pid b0 b1).
Proof.
  intros Hpid Hsp. apply Forall_cons_2; [|apply Forall_singleton]; (split; [apply Hsp|]).
  - apply Forall_app. split; [apply str_bytes|by apply int_to_string_bytes].
  - apply str_bytes.
Qed.

Lemma first_text_length pid : Z.of_nat (length (DemoProducer.first_text pid)) < 64.
Proof.
  unfold DemoProducer.first_text. rewrite length_app. pose proof (length_int_to_string pid).
  change (length (str "demo producer pid=")) with 18%nat. lia.
Qed.

Lemma producer_calls_queue env spurious pid b0 b1 :
  let o := DemoProducer.options pid in
  fifo_calls (lo_record_max o) (logger_stride o) (producer_calls env spurious pid b0 b1) (mkFifo [] 0) =
  ([Value tt; Value tt], mkFifo (producer_msgs env pid) 0).
Proof.
  intros o. change (logger_stride o) with 1088. pose proof (first_text_length pid) as Hl.
  unfold producer_calls. cbn [fifo_calls]. rewrite (fifo_call_text _ _ _ _ _ (DemoProducer.first_text pid))
    by (unfold RECORD_HEADER_SIZE; lia || done).
  cbn [fst snd f_queue app f_lost]. by rewrite fifo_call_text.
Qed.

(** [demo_producer], when its request can be granted, it is alone with its prefix and nothing
    fails: it prints its two records in order, each with the segment's name and its level, exits with
    0, and keeps no descriptor, mapping, heartbeat or name. *)
Theorem demo_producer_prints (env : nat → Sys) spurious w :
  let pid := sys_pid (env 0%nat) in
  let o := DemoProducer.options pid in
  let nm := lo_segment_name o in
  world_ok mx_new w → 0 ≤ pid →
  can_demo (env 1%nat) (env 4%nat) o (prefix DemoProducer.center_options) (destroy mx_new (env 0%nat) nm w).2 →
  (∀ n, ∃ k, (k < MPSC_CAS_RETRY_BUDGET)%nat ∧ spurious n k = false) →
  ∃ w', DemoProducer.main mx_new env spurious w =
    Some (mkExit 0 (nm ++ str " level=2 payload=" ++ DemoProducer.first_text pid ++ newline ++
                    nm ++ str " level=3 payload=" ++ DemoProducer.second_text ++ newline) [], w') ∧
    world_ok mx_new w' ∧ resources w' = resources w ∧
    hb_headers (w_heartbeat w') = hb_headers (w_heartbeat w) ∧
    (fail_unlink (env 5%nat) nm = None → w_names w' !! nm = None).
Proof.
  intros pid o nm H Hpid Hcan Hsp. unfold DemoProducer.main. fold pid o nm.
  destruct (destroy_ok mx_new (env 0%nat) nm w H) as [H0 _].
  pose proof (lighter_destroy mx_new (env 0%nat) nm w H) as L0. set (w0 := (destroy _ _ _ _).2) in *.
  assert (Ht : options_typed o) by (split; done).
  destruct (granted_create (env 1%nat) (env 4%nat) o _ w0 H0 Ht ltac:(done) Hcan) as (h&w1&hdr&En&Ec&H1&C&Ha).
  rewrite <-En in Ec, C.
  destruct (init_fresh mx_new (env 1%nat) o w0 h w1 10) as (w2&Ei&Hw2&Hseg2&Hin2); try done.
  rewrite Ei. cbn [mbind option_bind]. rewrite En. set (l := mkLogger _ _ _). set (b0 := replicate _ 0).
  set (b1 := (vsnprintf b0 _ _).2). set (calls := producer_calls env spurious pid b0 b1).
  destruct (run_calls_queue mx_new l (lo_record_max o) (logger_stride o) 10 calls w2 (mkFifo [] 0)) as (w3&Er&Hw3&Hin3);
    [done|done|by apply producer_calls_ok|].
  pose proof (producer_calls_queue env spurious pid b0 b1 : fifo_calls (lo_record_max o) (logger_stride o) calls _ = _) as Espec.
  rewrite Espec in Er, Hin3. cbn [fst snd] in Er, Hin3.
  unfold calls, producer_calls in Er. cbn [run_calls] in Er.
  destruct (run_call mx_new l _ w2) as [[r1 wa]|] eqn:E1 in Er; [|done]. cbn [mbind option_bind fst snd] in Er.
  destruct (run_call mx_new l _ wa) as [[r2 wb]|] eqn:E2 in Er; [|done]. cbn [mbind option_bind fst snd] in Er.
  injection Er as _ _ Ew. subst wb. unfold run_call in E1, E2. cbn [lc_kind lc_sys lc_spurious lc_level lc_buffer] in E1, E2.
  unfold info, warn. rewrite E1. cbn [mbind option_bind snd]. rewrite E2. cbn [mbind option_bind snd].
  assert (Hw : writes (eq (w_next w0)) w1 w3) by (eapply writes_trans; [exact Hw2|exact Hw3]).
  destruct (poll_and_end mx_new (env 1%nat) (env 4%nat) o w0 h w1 hdr w3 8 (mkFifo (producer_msgs env pid) 0)
    (set_sink (Some DemoProducer.print) (make_center DemoProducer.center_options)) [] H0 H1 Ec C)
    as (pause&c'&w4&Ep&Hend); try done; try apply Hcan.
  { exact (ring_segment_writes _ _ _ _ w2 w3 Hw3 Hseg2). }
  rewrite Ep. cbn [mbind option_bind]. destruct (Hend (env 5%nat) (env 6%nat)) as (R1&R2&R3&R4). rewrite En in *.
  eexists. split; [|split_and!; [exact R1|by rewrite R2, (lt_resources _ _ L0)|by rewrite R3, (lt_heartbeat _ _ L0)|exact R4]].
  pose proof (first_text_length pid) as Hl. do 3 f_equal. change (take _ (f_queue _)) with (producer_msgs env pid).
  change (Z.of_nat (Z.to_nat _)) with 4096. unfold producer_msgs. rewrite !fmap_cons, !delivered_whole by (cbn [m_data]; lia || done).
  trans (DemoProducer.print (DemoProducer.print [] (mkLogRecord nm Info 0 (monotonic_record_time (sys_os (env 2%nat))) (DemoProducer.first_text pid)))
           (mkLogRecord nm Warn 0 (monotonic_record_time (sys_os (env 3%nat))) DemoProducer.second_text)); [done|].
  unfold DemoProducer.print. cbn [source level lr_payload]. rewrite !app_nil_l, <-!(assoc (++)). done.
Qed.
End demo_producer.

(** ** demo_multi_producer *)

Definition strong (ts : list turn) : Prop :=
  forallb (λ t, match t with TWorker _ sp => negb sp | TConsumer => true end) ts = true.

Definition multi_text (tid i : Z) : bytes := DemoMultiProducer.text tid i ++ newline.

Definition multi_lines : list (list bytes) := (λ tid, multi_text tid <$> range 8) <$> range 4.

Definition multi_jobs (clock : Z → Z → Sys) : list (list Args) := DemoMultiProducer.pushes clock <$> range 4.

Lemma multi_text_facts tid i :
  0 ≤ tid → 0 ≤ i → is_bytes (DemoMultiProducer.text tid i) ∧ (length (DemoMultiProducer.text tid i) ≤ 32)%nat.
Proof.
  intros Ht Hi. unfold DemoMultiProducer.text. split.
  - apply Forall_app. split; [apply str_bytes|]. apply Forall_app. split; [by apply int_to_string_bytes|].
    apply Forall_app. split; [apply str_bytes|by apply int_to_string_bytes].
  - rewrite !length_app. pose proof (length_int_to_string tid). pose proof (length_int_to_string i).
    change (length (str "thread=")) with 7%nat. change (length (str " i=")) with 3%nat. lia.
Qed.

Lemma elem_of_range n x : x ∈ range n → 0 ≤ x < Z.of_nat n.
Proof. unfold range. intros (k&->&Hk)%list_elem_of_fmap. apply elem_of_seq in Hk. lia. Qed.

Lemma multi_jobs_typed clock : Forall (Forall args_typed) (multi_jobs clock).
Proof.
  apply Forall_forall. intros js (tid&->&Ht)%list_elem_of_fmap. apply Forall_forall.
  intros a (i&->&Hi)%list_elem_of_fmap. apply elem_of_range in Ht, Hi.
  destruct (multi_text_facts tid i) as [Hb _]; [lia|lia|]. split; [|exact Hb].
  pose proof (monotonic_record_time_range (sys_os (clock tid i))). unfold push_typed. cbn. lia.
Qed.

Lemma multi_jobs_count clock : job_count (multi_jobs clock) = 32%nat.
Proof. reflexivity. Qed.

Lemma interleaves_length (ls : list (list Args)) l : interleaves ls l → length l = job_count ls.
Proof.
  intros (tags&<-&Hlt&Hf). rewrite length_fmap, (claims_sum (length ls)) by done. unfold job_count.
  rewrite <-(sum_seq_eq length ls (length ls)) by done. apply sum_list_ext. intros i Hi. apply elem_of_seq in Hi.
  destruct (lookup_lt_is_Some_2 ls i) as [all Ha]; [lia|]. rewrite Ha. unfold by_worker. by rewrite (Hf i all Ha).
Qed.

Lemma interleaves_elem {A} (ls : list (list A)) l x : interleaves ls l → x ∈ l → ∃ all, all ∈ ls ∧ x ∈ all.
Proof.
  intros (tags&<-&Hlt&Hf) ([i y]&->&Hin)%list_elem_of_fmap. rewrite Forall_forall in Hlt. specialize (Hlt _ Hin).
  destruct (lookup_lt_is_Some_2 ls i Hlt) as [all Ha]. exists all. split; [by eapply list_elem_of_lookup_2|].
  rewrite <-(Hf i all Ha). apply list_elem_of_fmap. exists (i, y). split; [done|]. by apply list_elem_of_filter.
Qed.

(** What the sink makes of the records of whole jobs. *)
Lemma multi_sink nm stride order s :
  Forall (λ a, Z.of_nat (length (a_payload a)) ≤ Z.min 4096 (stride - RECORD_HEADER_SIZE)) order →
  fold_left DemoMultiProducer.sink (delivered nm 4096 <$> (job_msg stride <$> order)) s =
  (s.1 + Z.of_nat (length order), s.2 ++ concat ((λ a, a_payload a ++ newline) <$> order)).
Proof.
  intros Ho. revert s. induction Ho as [|a order Ha _ IH]; intros [d out].
  - cbn. by rewrite Z.add_0_r, app_nil_r.
  - rewrite !fmap_cons. cbn [fold_left]. rewrite IH. unfold DemoMultiProducer.sink. cbn [fst snd length concat].
    rewrite delivered_whole; unfold job_msg, stored_msg; (rewrite bool_decide_false by lia); cbn [lr_payload m_data]; [|lia].
    f_equal; [lia|]. by rewrite <-!(assoc (++)).
Qed.

Lemma multi_small clock order :
  interleaves (multi_jobs clock) order →
  Forall (λ a, Z.of_nat (length (a_payload a)) ≤ Z.min 4096 (record_stride_for 1024 - RECORD_HEADER_SIZE)) order.
Proof.
  intros Ho. apply Forall_forall. intros a Ha. destruct (interleaves_elem _ _ a Ho Ha) as (js&Hjs&Hin).
  apply list_elem_of_fmap in Hjs as (tid&->&Ht). apply list_elem_of_fmap in Hin as (i&->&Hi). apply elem_of_range in Ht, Hi.
  destruct (multi_text_facts tid i) as [_ Hl]; [lia|lia|]. change (record_stride_for 1024) with 1088.
  unfold RECORD_HEADER_SIZE. cbn [DemoMultiProducer.push a_payload]. lia.
Qed.

Lemma multi_lines_shown clock order :
  interleaves (multi_jobs clock) order → interleaves multi_lines ((λ a, a_payload a ++ newline) <$> order).
Proof.
  intros Ho%(interleaves_fmap (λ a, a_payload a ++ newline)).
  replace multi_lines with (fmap (M := list) (fmap (M := list) (λ a, a_payload a ++ newline)) (multi_jobs clock)); [done|].
  unfold multi_lines, multi_jobs, DemoMultiProducer.pushes. rewrite <-list_fmap_compose. apply list_fmap_ext.
  intros k tid _. unfold compose. by rewrite <-list_fmap_compose.
Qed.

Section multi_demo.
Context {Mx : Type} `{!RobustMutex Mx, !RobustMutexLaws Mx} (mx_new : Mx).

Abbreviation W := (World Mx).
Implicit Types w : W.

(** The threads have ended: the ring holds their 32 records, each thread's in order. *)
Lemma multi_queue clock v w r schedule :
  let mp := 1024 in
  let p := run_turns false 0 schedule (prog_init (multi_jobs clock) [] r) in
  new_ring v 256 mp w r → strong schedule →
  (∃ more, strong more ∧ finished 0 (run_turns false 0 more p)) ∧
  (finished 0 p →
   ∃ w' order, store_ring mx_new v (g_mem (pg_ring p)) w = Some w' ∧ writes (eq (rv_object v)) w w' ∧
     interleaves (multi_jobs clock) order ∧
     ring_in v 256 (record_stride_for mp) 10 w' (mkFifo (job_msg (record_stride_for mp) <$> order) 0)).
Proof.
  intros mp p Hn Hst. assert (Hc : 2 ≤ 256 < 2 ^ 32) by done. assert (Hm : 0 ≤ mp < 2 ^ 32) by done.
  destruct (new_ring_abs v _ _ w r Hc Hm Hn) as [Hs Habs]. set (stride := record_stride_for mp) in *.
  pose proof (multi_jobs_typed clock) as Hj. pose proof (multi_jobs_count clock) as Hcount.
  assert (Hb : Z.of_nat (job_count (multi_jobs clock)) + 256 < 2 ^ 63) by by rewrite Hcount.
  assert (Hsc : Z.of_nat (length ([] : bytes)) < 2 ^ 32) by done.
  pose proof (run_turns_steps false 0 schedule (prog_init (multi_jobs clock) [] r)) as Hr. fold p in Hr.
  split; [by eapply can_end|]. intros (F1&F2&F3&_).
  destruct (lossless_reach 256 stride r (multi_jobs clock) [] false 0 Hc Hs Habs Hj Hsc Hb p) as [Hp _ Hcalls Hfull].
  { rewrite Hcount. apply Nat.leb_le. reflexivity. }
  { by rewrite Hcount. }
  { by apply run_turns_strong. }
  destruct (ended_queue 256 stride r (multi_jobs clock) [] false Hc Hs Habs Hb p Hp F1 F3) as (Hq&Htl&Em&Es).
  destruct (idle_consumer false (multi_jobs clock) [] r p Hr) as [_ Hpop]. rewrite Hpop, Hfull in Hq. cbn [length drop] in Hq.
  destruct (ended_store mx_new v 256 mp w r (multi_jobs clock) [] false 0 p Hc Hm Hn Hj Hsc Hb Hr F1 F3)
    as (w'&E&Hw&Hat).
  exists w', (pg_claims p).*2. split; [exact E|]. split; [exact Hw|].
  assert (Ho : interleaves (multi_jobs clock) (pg_claims p).*2) by (eapply ended_order; eauto).
  split; [exact Ho|]. split; [|done]. exists (g_mem (pg_ring p)). split_and!; [done|exact Hq|done|done|].
  rewrite Htl. apply interleaves_length in Ho. rewrite length_fmap in Ho. rewrite Ho, Hcount. done.
Qed.

(** One round of polling gets all 32 records. *)
Lemma multi_poll (polls : nat → Sys) fuel center s w d pause c' s' w' :
  s.1 < 32 → poll_once mx_new (polls 0%nat) center s w = Some (d, pause, c', s', w') → s'.1 = 32 →
  DemoMultiProducer.poll_loop mx_new polls (S fuel) 0 center s w = Some (Done (c', s', w')).
Proof.
  intros Hs E Hs'. cbn [DemoMultiProducer.poll_loop].
  change (Z.of_nat (DemoMultiProducer.thread_count * DemoMultiProducer.per_thread)) with 32.
  rewrite (proj2 (Z.ltb_lt _ _) Hs), E. cbn [mbind option_bind].
  destruct fuel; cbn [DemoMultiProducer.poll_loop];
    change (Z.of_nat (DemoMultiProducer.thread_count * DemoMultiProducer.per_thread)) with 32;
    by rewrite Hs', Z.ltb_irrefl.
Qed.

(** The rest of the program, after the threads have ended. *)
Lemma multi_finish (env : nat → Sys) clock (polls : nat → Sys) fuel w0 h w1 hdr w2 r ts :
  let o := DemoMultiProducer.options (sys_pid (env 0%nat)) in
  let nm := lo_segment_name o in
  let v := log_view (w_next w0) (lo_record_max o) (logger_stride o) in
  let co := make_create_options o (logger_name (env 1%nat) o) in
  world_ok mx_new w0 → world_ok mx_new w1 →
  can_demo mx_new (env 1%nat) (polls 0%nat) o (prefix DemoMultiProducer.center_options) w0 →
  logger_name (env 1%nat) o = nm → create mx_new (env 1%nat) co w0 = (Value h, w1) → created mx_new (env 1%nat) co w0 h w1 hdr →
  owner_is_dead (sys_os (polls 0%nat)) hdr (monotonic_ns (sys_os (polls 0%nat))) = false →
  writes (eq (w_next w0)) w1 w2 → ring_segment (w_next w0) (lo_record_max o) (logger_stride o) w2 →
  new_ring v (lo_record_max o) (lo_max_payload o) w2 r → strong ts →
  finished 0 (run_turns false 0 ts (prog_init (multi_jobs clock) [] r)) → ∃ ex w',
    (w ← store_ring mx_new v (g_mem (pg_ring (run_turns false 0 ts (prog_init (multi_jobs clock) [] r)))) w2;
     polled ← DemoMultiProducer.poll_loop mx_new polls (S fuel) 0
       (set_sink (Some DemoMultiProducer.sink) (make_center DemoMultiProducer.center_options)) (0, []) w;
     match polled with
     | Unfinished => Some Unfinished
     | Done (center, (_, out), w) =>
         Some (Done (mkExit 0 out [], logger_end mx_new (env 3%nat) (mkLogger h v nm)
           (center_end mx_new (env 3%nat) center (destroy mx_new (env 2%nat) nm w).2)))
     end) = Some (Done (ex, w')) ∧
    (∃ order, interleaves multi_lines order ∧ ex = mkExit 0 (concat order) []) ∧
    world_ok mx_new w' ∧ resources w' = resources w0 ∧ hb_headers (w_heartbeat w') = hb_headers (w_heartbeat w0) ∧
    (fail_unlink (env 2%nat) nm = None → w_names w' !! nm = None).
Proof.
  intros o nm v co H0 H1 Hcan En Ec C Ha Hw2 Hseg2 Hnew Hts Hf.
  destruct (proj2 (multi_queue clock v w2 r ts Hnew Hts) Hf) as (w3&order&E3&Hw3&Ho&Hin3).
  rewrite E3. cbn [mbind option_bind].
  assert (Hw : writes (eq (w_next w0)) w1 w3) by (eapply writes_trans; [exact Hw2|exact Hw3]).
  destruct (poll_and_end mx_new (env 1%nat) (polls 0%nat) o w0 h w1 hdr w3 10
    (mkFifo (job_msg (record_stride_for 1024) <$> order) 0)
    (set_sink (Some DemoMultiProducer.sink) (make_center DemoMultiProducer.center_options)) (0, []) H0 H1 Ec C)
    as (pause&c'&w4&Ep&Hend); try done; try apply Hcan.
  { exact (ring_segment_writes _ _ _ _ w2 w3 Hw3 Hseg2). }
  assert (Hlen : length order = 32%nat) by by rewrite (interleaves_length _ _ Ho), multi_jobs_count.
  change (f_queue (mkFifo ?q 0)) with q in Ep. rewrite take_ge in Ep by (rewrite length_fmap, Hlen; apply Nat.leb_le; reflexivity).
  change (Z.of_nat (Z.to_nat (scratch_bytes _))) with 4096 in Ep.
  change (sink_ _) with DemoMultiProducer.sink in Ep. rewrite multi_sink in Ep by by apply (multi_small clock).
  rewrite Hlen in Ep. rewrite (multi_poll polls fuel _ (0, []) w3 _ pause c' _ w4 ltac:(done) Ep eq_refl). cbn [mbind option_bind].
  destruct (Hend (env 2%nat) (env 3%nat)) as (R1&R2&R3&R4). rewrite En in *. do 2 eexists. split; [reflexivity|].
  split; [eexists; split; [by apply (multi_lines_shown clock)|done]|]. by split_and!.
Qed.

(** C27: [demo_multi_producer], when its request can be granted, it is alone with its prefix, nothing
    it relies on fails and no compare-and-swap fails spuriously: whatever the schedule, its threads
    lose no record; it can always still end; and when it has ended, after one round of polling, it has
    printed the 32 texts, each once and those of each thread in their order, and keeps no
    descriptor, mapping, heartbeat or name. *)
Theorem demo_multi_producer_prints (env : nat → Sys) clock (polls : nat → Sys) schedule fuel w :
  let o := DemoMultiProducer.options (sys_pid (env 0%nat)) in
  let nm := lo_segment_name o in
  world_ok mx_new w →
  can_demo mx_new (env 1%nat) (polls 0%nat) o (prefix DemoMultiProducer.center_options) (destroy mx_new (env 0%nat) nm w).2 →
  strong schedule →
  (∃ res, DemoMultiProducer.main mx_new env clock polls schedule (S fuel) w = Some res ∧
     ∀ ex w', res = Done (ex, w') →
       (∃ order, interleaves multi_lines order ∧ ex = mkExit 0 (concat order) []) ∧
       world_ok mx_new w' ∧ resources w' = resources w ∧ hb_headers (w_heartbeat w') = hb_headers (w_heartbeat w) ∧
       (fail_unlink (env 2%nat) nm = None → w_names w' !! nm = None)) ∧
  ∃ more res, strong more ∧ DemoMultiProducer.main mx_new env clock polls (schedule ++ more) (S fuel) w = Some (Done res).
Proof.
  intros o nm H Hcan Hst. unfold DemoMultiProducer.main. fold o nm.
  destruct (destroy_ok mx_new (env 0%nat) nm w H) as [H0 _].
  pose proof (lighter_destroy mx_new (env 0%nat) nm w H) as L0. set (w0 := (destroy mx_new (env 0%nat) nm w).2) in *.
  assert (Ht : options_typed o) by (split; done).
  destruct (granted_create mx_new (env 1%nat) (polls 0%nat) o _ w0 H0 Ht ltac:(done) Hcan) as (h&w1&hdr&En&Ec&H1&C&Ha).
  rewrite <-En in Ec, C.
  destruct (init_new mx_new (env 1%nat) o w0 h w1) as (w2&r&Ei&Hw2&Hseg2&Hnew); try done.
  rewrite Ei. cbn [mbind option_bind ring_]. set (v := log_view _ _ _) in *. rewrite En.
  rewrite (load_ring_at mx_new v w2 r) by apply Hnew. cbn [mbind option_bind].
  change (DemoMultiProducer.pushes clock <$> range DemoMultiProducer.thread_count) with (multi_jobs clock).
  split.
  - case_bool_decide as Hf; [|by eexists].
    destruct (multi_finish env clock polls fuel w0 h w1 hdr w2 r schedule) as (ex&w'&E&Hord&R1&R2&R3&R4); try done.
    eexists. split; [exact E|]. intros ex' w'' [= <- <-]. split; [done|].
    split_and!; [exact R1|etrans; [exact R2|apply L0]|etrans; [exact R3|by rewrite (lt_heartbeat _ _ L0)]|exact R4].
  - destruct (proj1 (multi_queue clock v w2 r schedule Hnew Hst)) as (more&Hmore&Hf). rewrite <-run_turns_app in Hf.
    assert (Hall : strong (schedule ++ more)) by (unfold strong in *; by rewrite forallb_app, Hst, Hmore).
    destruct (multi_finish env clock polls fuel w0 h w1 hdr w2 r (schedule ++ more)) as (ex&w'&E&_); try done.
    exists more, (ex, w'). split; [done|]. rewrite bool_decide_true by exact Hf. exact E.
Qed.
End multi_demo.

(** The programs as process 42, one second a call. *)
Definition demo_env (i : nat) : Sys := demo_sys 42 (10 + Z.of_nat i).

Lemma demo_destroy nm :
  bool_decide (nm = REGISTRY_NAME) = false → (destroy MxFree (demo_env 0) nm demo_boot).2 = demo_boot.
Proof.
  intros Hn%bool_decide_eq_false_1. unfold destroy, shm_unlink. destruct (parse_and_validate_name nm); [|done].
  rewrite (boot_eq MxFree (demo_sys 42 10)) by apply demo_sys_ok. cbn [w_names]. by rewrite lookup_singleton_ne.
Qed.

Lemma raw_segment_runs_witness :
  ∃ w', RawSegment.main MxFree demo_env demo_boot = Some (mkExit 0 (RawSegment.message ++ newline) [], w') ∧
        w_names w' !! RawSegment.name 42 = None.
Proof.
  destruct (raw_segment_runs MxFree demo_env demo_boot) as (ex&w'&E&_&_&_&Hc&Hok).
  - exact (proj1 demo_boot_ok).
  - reflexivity.
  - exists w'. assert (ex_code ex = 0) as H0.
    { apply Hok; [apply demo_sys_ok..|reflexivity| |vm_compute; reflexivity].
      rewrite demo_destroy by (vm_compute; reflexivity). apply boot_grantable; [apply demo_sys_ok|vm_compute; reflexivity|vm_compute; discriminate|
        vm_compute; split; discriminate|vm_compute; discriminate|vm_compute; reflexivity]. }
    destruct Hc as [ (what&e&->) | [-> Hn] ]; [discriminate H0|]. split; [exact E|]. apply Hn. reflexivity.
Defined.

Lemma ring_mpsc_runs_witness :
  ∃ schedule order w', RingMpsc.main MxFree demo_env schedule demo_boot = Some (Done (mkExit 0 (concat order) [], w')) ∧
    interleaves ring_lines order ∧ w_names w' !! RingMpsc.name 42 = None.
Proof.
  destruct (ring_mpsc_runs MxFree demo_env [] demo_boot) as [_ (schedule&[ex w']&E)];
    [exact (proj1 demo_boot_ok)|reflexivity|]. cbn [app] in E.
  destruct (ring_mpsc_runs MxFree demo_env schedule demo_boot) as [(res&E'&Hres) _];
    [exact (proj1 demo_boot_ok)|reflexivity|].
  rewrite E in E'. injection E' as <-. destruct (Hres ex w' eq_refl) as [(_&_&_&Hex) Hcode].
  assert (ex_code ex = 0) as H0.
  { apply Hcode; [apply demo_sys_ok|]. rewrite demo_destroy by (vm_compute; reflexivity).
    apply boot_grantable; [apply demo_sys_ok|vm_compute; reflexivity|vm_compute; discriminate|
      vm_compute; split; discriminate|vm_compute; discriminate|vm_compute; reflexivity]. }
  destruct Hex as [ (what&e&->) | (order&Ho&->&Hn) ]; [discriminate H0|].
  exists schedule, order, w'. split; [exact E|]. split; [exact Ho|]. apply Hn. reflexivity.
Defined.

Lemma demo_can_demo o prefix i :
  options_typed o → valid_name (lo_segment_name o) → lo_segment_name o ≠ REGISTRY_NAME →
  co_total_size (make_create_options o []) ≤ MAX_SEGMENT_SIZE → lo_flags o = 0 →
  owner_is_dead (sys_os (demo_env i))
    (set_heartbeat (monotonic_ns (sys_os (demo_env 1)))
       (initial_header (demo_env 1) (make_create_options o (lo_segment_name o)) 320))
    (monotonic_ns (sys_os (demo_env i))) = false →
  can_demo MxFree (demo_env 1) (demo_env i) o prefix demo_boot.
Proof.
  intros Ht Hv Hne Hsz Hfl Ha. pose proof (create_options_size o (lo_segment_name o) Ht) as Es.
  pose proof (payload_size_for_nonneg (lo_record_max o) (logger_stride o)).
  split; [apply demo_sys_ok|apply demo_sys_ok|done| | |done].
  - apply boot_grantable; [apply demo_sys_ok|done|done| | |].
    + change (co_total_size (make_create_options o [])) with (co_total_size (make_create_options o (lo_segment_name o))) in Hsz.
      rewrite Es in Hsz |- *. cbn [co_meta_size make_create_options]. lia.
    + rewrite Es. cbn [co_meta_size make_create_options]. change (align_up _ _) with 320.
      unfold SHMFX_HEADER_SIZE, RecordRingMeta_size. lia.
    + unfold hmac_enabled, initial_header. cbn [flags co_flags make_create_options]. by rewrite Hfl.
  - intros nm' Hs. rewrite demo_boot_entries in Hs. by destruct Hs.
Qed.

Lemma demo_producer_prints_witness :
  ∃ w', DemoProducer.main MxFree demo_env (λ _ _, false) demo_boot =
    Some (mkExit 0 (str "/shmfx.log.demo_42 level=2 payload=demo producer pid=42" ++ newline ++
      str "/shmfx.log.demo_42 level=3 payload=this record is drained by an in-process LogCenter demo" ++ newline) [], w').
Proof.
  destruct (demo_producer_prints MxFree demo_env (λ _ _, false) demo_boot) as (w'&E&_).
  - exact (proj1 demo_boot_ok).
  - discriminate.
  - rewrite demo_destroy by (vm_compute; reflexivity).
    apply demo_can_demo; [split; vm_compute; split; (discriminate || reflexivity)|vm_compute; reflexivity|
      vm_compute; discriminate|vm_compute; discriminate|reflexivity|vm_compute; reflexivity].
  - intros n. exists 0%nat. split; [apply Nat.lt_0_succ|reflexivity].
  - exists w'. exact E.
Defined.

Lemma demo_multi_producer_prints_witness :
  ∃ schedule order w', strong schedule ∧ interleaves multi_lines order ∧
    DemoMultiProducer.main MxFree demo_env (λ _ _, demo_sys 42 11) (λ i, demo_env (i + 4)) schedule 1 demo_boot =
    Some (Done (mkExit 0 (concat order) [], w')).
Proof.
  assert (Hcan : can_demo MxFree (demo_env 1) (demo_env 4) (DemoMultiProducer.options 42)
    (prefix DemoMultiProducer.center_options) demo_boot).
  { apply demo_can_demo; [split; vm_compute; split; (discriminate || reflexivity)|vm_compute; reflexivity|
      vm_compute; discriminate|vm_compute; discriminate|reflexivity|vm_compute; reflexivity]. }
  destruct (demo_multi_producer_prints MxFree demo_env (λ _ _, demo_sys 42 11) (λ i, demo_env (i + 4)) [] 0 demo_boot)
    as [_ (schedule&[ex w']&Hs&E)]; [exact (proj1 demo_boot_ok)|rewrite demo_destroy by (vm_compute; reflexivity); exact Hcan|reflexivity|].
  cbn [app] in E.
  destruct (demo_multi_producer_prints MxFree demo_env (λ _ _, demo_sys 42 11) (λ i, demo_env (i + 4)) schedule 0 demo_boot)
    as [(res&E'&Hres) _]; [exact (proj1 demo_boot_ok)|rewrite demo_destroy by (vm_compute; reflexivity); exact Hcan|exact Hs|].
  rewrite E in E'. injection E' as <-. destruct (Hres ex w' eq_refl) as [(order&Ho&->) _].
  exists schedule, order, w'. split; [exact Hs|]. split; [exact Ho|exact E].
Defined.
