(* ===== verification/Benchmark.v ===== *)
(** * The ring benchmark: [benchmark/ring_benchmark.cpp]

    Producers that repeat each push until it succeeds and one consumer, on a ring in private
    memory. What [argv], the allocator and the clock give are arguments; the three lines of
    floating-point figures are what [figures] renders from the elapsed time and the number of
    records. The theorem says that the program always can end, that every record has then been
    consumed once and in the order of its producer, and what the printed loss counter counts. *)

From S2P Require Import Prelude Types Sync RingMem RingCells RingBytes RingProps.
From S2P Require Import RingConc RingInv RingConcProps Threads ThreadsEnd Lifecycle Logger Examples.

(** ** Calls that met a full ring *)

Definition is_full (r : Result unit) : bool := match r with Error RingFull => true | _ => false end.

Definition full_in (calls : list (Args * Result unit)) : nat := length (filter (λ c, is_full c.2 = true) calls).

Definition full_calls {M} (p : prog M) : nat := sum_list_with full_in (pg_calls p).

(** The ones of a worker, the call it is returning from included. *)
Definition full_of (x : PPc * list (Args * Result unit)) : nat :=
  full_in x.2 + match x.1 with PRet r => if is_full r then 1 else 0 | _ => 0 end.

Lemma full_in_snoc cs a r : full_in (cs ++ [(a, r)]) = (full_in cs + if is_full r then 1 else 0)%nat.
Proof. unfold full_in. rewrite filter_app, length_app, filter_cons, filter_nil. cbn [snd]. by destruct (is_full r). Qed.

Section full.
Context {M : Type} `{!RingMem M}.
Implicit Types p : prog M.

Record full_inv p : Prop := {
  fi_length : length (pg_calls p) = length (g_prods (pg_ring p));
  fi_count : g_full (pg_ring p) = Z.of_nat (sum_list_with full_of (zip (g_prods (pg_ring p)) (pg_calls p)));
}.

Lemma full_init jobs scratch (m : M) : full_inv (prog_init jobs scratch m).
Proof.
  split; cbn [prog_init pg_calls pg_ring conc_init g_prods g_full].
  - by rewrite length_fmap, length_replicate.
  - induction jobs as [|js jobs IH]; [done|]. cbn [length replicate fmap list_fmap zip zip_with sum_list_with] in *. exact IH.
Qed.

(** An access of a call fails exactly by the step that counts it. *)
Lemma access_full sp pc (m : M) pc' m' cs :
  prod_step sp pc m = Some (pc', m') → busy pc = true →
  Z.of_nat (full_of (pc', cs)) = Z.of_nat (full_of (pc, cs)) + ghost_full pc.
Proof.
  intros E Hb. unfold full_of. cbn [fst snd].
  destruct pc as [|a|a b pos|a b pos|a b| |a pos st|r]; try done; cbn [prod_step] in E; cbn [ghost_full].
  - destruct (negb _); [injection E as <- _; cbn; lia|]. destruct (ld_tail m); [|done]. injection E as <- _. lia.
  - destruct b as [|b]; [injection E as <- _; lia|]. destruct (ld_seq _ m); [|done]. cbn [mbind option_bind] in E.
    destruct (s64_sub _ _) as [d|]; [|done]. injection E as <- _. destruct (d =? 0); [lia|]. destruct (d <? 0); lia.
  - destruct (cas_tail _ _ _ m) as [[[[] e] m1]|]; [| |done]; cbn [mbind option_bind] in E; injection E as <- _; lia.
  - destruct (ld_tail m); [|done]. injection E as <- _. lia.
  - injection E as <- _. cbn [is_full]. lia.
  - destruct st; (match type of E with (?x ≫= _) = _ => destruct x; [|done] end); injection E as <- _; cbn [is_full]; lia.
Qed.

Lemma worker_full retry i sp p p' : worker_step retry i sp p = Some p' → full_inv p → full_inv p'.
Proof.
  intros E [Hl Hc]. unfold worker_step in E.
  destruct (g_prods (pg_ring p) !! i) as [pc|] eqn:Hi; [|done]. cbn [mbind option_bind] in E.
  destruct (pg_jobs p !! i) as [js|] eqn:Hj; [|done]. cbn [mbind option_bind] in E.
  destruct (lookup_lt_is_Some_2 (pg_calls p) i) as [cs Hcs]; [rewrite Hl; by eapply lookup_lt_Some|].
  pose proof (λ pc' cs', sum_zip_insert full_of _ _ i pc cs pc' cs' Hi Hcs) as Hz.
  pose proof (λ pc', Hz pc' cs) as Hk. rewrite (list_insert_id (pg_calls p) i cs Hcs) in Hk.
  destruct js as [|a js]; [by destruct pc|].
  destruct pc; try (destruct (prod_step _ _ _) as [[pc' m']|] eqn:Eq; [|done]; cbn [mbind option_bind] in E;
    injection E as <-; split; cbn [after_access pg_calls pg_ring g_prods g_full fst snd]; [by rewrite length_insert|];
    specialize (Hk pc'); pose proof (access_full _ _ _ _ _ cs Eq eq_refl); lia).
  - injection E as <-. split; cbn [with_ring with_producer pg_calls pg_ring g_prods g_full]; [by rewrite length_insert|].
    specialize (Hk (PStart a)). unfold full_of at 2 4 in Hk. cbn [fst snd] in Hk. lia.
  - injection E as <-. split; cbn [with_producer pg_calls pg_ring g_prods g_full]; [by rewrite length_alter, length_insert|].
    rewrite (list_alter_insert _ _ _ _ Hcs). specialize (Hz PIdle (cs ++ [(a, r)])). rewrite Hc. f_equal.
    unfold full_of at 2 4 in Hz. cbn [fst snd] in Hz. rewrite full_in_snoc in Hz. lia.
Qed.

Lemma consumer_full total p p' : consumer_step total p = Some p' → full_inv p → full_inv p'.
Proof.
  intros E [Hl Hc]. unfold consumer_step in E. destruct (g_cons (pg_ring p)) as [| | | | | | | |[[rec s]|]];
    try (destruct (cons_step _ _) as [q|]; [|done]; cbn [mbind option_bind] in E); try (injection E as <-; by split).
  destruct (_ <? _)%nat; [|done]. injection E as <-. by split.
Qed.

Lemma reach_full retry total jobs scratch (m : M) p :
  rtc (pstep retry total) (prog_init jobs scratch m) p → full_inv p.
Proof.
  apply (rtc_ind_r full_inv); [apply full_init|]. intros p1 p2 _ [i sp p' E|p' E] H; [by eapply worker_full|by eapply consumer_full].
Qed.

(** Once the workers have returned, the loss counter's ghost is the number of calls that failed. *)
Lemma ended_full retry total jobs scratch (m : M) p :
  rtc (pstep retry total) (prog_init jobs scratch m) p → Forall (λ pc, pc = PIdle) (g_prods (pg_ring p)) →
  g_full (pg_ring p) = Z.of_nat (full_calls p).
Proof.
  intros Hr Hi. destruct (reach_full _ _ _ _ _ _ Hr) as [Hl ->]. f_equal. unfold full_calls. revert Hl.
  generalize (pg_calls p). induction Hi as [|pc pcs -> _ IH]; intros [|cs css]; try done. cbn [length zip zip_with sum_list_with].
  intros [= Hl]. rewrite (IH _ Hl). unfold full_of at 1. cbn [fst snd]. lia.
Qed.
End full.

(** ** The program *)

(** How it ends: by an exception that nobody catches or [std::abort], or by returning from [main]. *)
Inductive outcome := Terminated | Exited (ex : Exit).

Module RingBenchmark.

(** A command-line argument, by [std::stoul] and a conversion to [std::uint32_t]; [None] when it throws. *)
Definition argument (without : Z) (arg : option bytes) : option Z :=
  match arg with None => Some without | Some text => u32 <$> stoull text end.

Definition record_max : Z := 65536.
Definition max_payload : Z := 64.
Definition stride : Z := record_stride_for max_payload.

(** The size [AlignedBuffer] asks the allocator for. *)
Definition buffer_size (requested : Z) : Z := align_up requested CACHE_LINE_SIZE.

Definition payload : bytes := replicate (Z.to_nat max_payload) 66.

(** The call [try_push(static_cast<std::uint16_t>(producer), 0, i, payload)]. *)
Definition push (producer i : Z) : Args := mkArgs (u16 producer) 0 i payload.
Definition pushes (per_producer producer : Z) : list Args := push producer <$> range (Z.to_nat per_producer).
Definition jobs (producers per_producer : Z) : list (list Args) := pushes per_producer <$> range (Z.to_nat producers).

Definition total (producers per_producer : Z) : Z := u64 (producers * per_producer).

Definition scratch : bytes := replicate (Z.to_nat max_payload) 0.

(** An [std::uint64_t] in decimal: at most 20 digits. *)
Definition decimal (n : Z) : bytes := rev (digits_rev 20 n).

Definition report (figures : Z → Z → bytes) (producers per_producer elapsed lost : Z) : bytes :=
  str "producers=" ++ decimal producers ++ newline ++
  str "records=" ++ decimal (total producers per_producer) ++ newline ++
  figures elapsed (total producers per_producer) ++
  str "lost_count=" ++ decimal lost ++ newline.

(** The threads on the ring. *)
Definition run (producers per_producer : Z) (r : MpscRing) (schedule : list turn) : prog MpscRing :=
  run_turns true (Z.to_nat (total producers per_producer)) schedule
    (prog_init (jobs producers per_producer) scratch r).

(** [posix_memalign size] gives the address and the bytes of the buffer, [None] when it fails. *)
Definition main (args : list bytes) (posix_memalign : Z → option (Z * bytes)) (figures : Z → Z → bytes)
    (elapsed : Z) (schedule : list turn) : option (Run outcome) :=
  match argument 4 (args !! 0%nat), argument 100000 (args !! 1%nat) with
  | Some producers, Some per_producer =>
      match posix_memalign (buffer_size (payload_size_for record_max stride)) with
      | None => Some (Done Terminated)
      | Some (data, storage) =>
          q ← initialize (mkRecordRingMeta 0 0 0 0 0) data storage record_max max_payload;
          let '(initialized, meta, storage) := q in
          match initialized with
          | Error _ => Some (Done (Exited (mkExit 1 [] (str "ring initialize failed" ++ newline))))
          | Value _ =>
              match bind meta data storage with
              | Error _ => Some (Done (Exited (mkExit 1 [] (str "ring bind failed" ++ newline))))
              | Value ring =>
                  let p := run producers per_producer ring schedule in
                  if bool_decide (finished (Z.to_nat (total producers per_producer)) p) then
                    let lost := ring_lost_count (g_mem (pg_ring p)) in
                    Some (Done (Exited (mkExit 0 (report figures producers per_producer elapsed lost) [])))
                  else Some Unfinished
              end
          end
      end
  | _, _ => Some (Done Terminated)
  end.

End RingBenchmark.

(** ** Proof *)

Lemma length_range n : length (range n) = n.
Proof. unfold range. by rewrite length_fmap, length_seq. Qed.

Lemma range_bound n z : z ∈ range n → 0 ≤ z < Z.of_nat n.
Proof. unfold range. intros (k&->&Hk)%list_elem_of_fmap. apply elem_of_seq in Hk. lia. Qed.

Section benchmark.
Variables (producers per_producer : Z).
Hypothesis Hp : 0 ≤ producers < 2 ^ 32.
Hypothesis Hq : 0 ≤ per_producer < 2 ^ 32.
Hypothesis Htotal : producers * per_producer + RingBenchmark.record_max < 2 ^ 63.

Abbreviation jobs := (RingBenchmark.jobs producers per_producer).
Abbreviation total := (Z.to_nat (RingBenchmark.total producers per_producer)).

Lemma bench_typed : Forall (Forall args_typed) jobs.
Proof.
  apply Forall_fmap, Forall_forall. intros i Hi. apply Forall_fmap, Forall_forall. intros j Hj.
  apply range_bound in Hj. split; [|apply Forall_replicate; done].
  split_and!; cbn [RingBenchmark.push a_type a_flags a_user]; try apply u16_range; lia.
Qed.

Lemma bench_count : job_count jobs = total.
Proof.
  unfold RingBenchmark.total. rewrite u64_small by (unfold RingBenchmark.record_max in Htotal; nia).
  unfold job_count, RingBenchmark.jobs. rewrite Z2Nat.inj_mul by lia. rewrite <-(length_range (Z.to_nat producers)) at 2.
  generalize (range (Z.to_nat producers)). intros l. induction l as [|i l IH]; [done|].
  rewrite fmap_cons. cbn [sum_list_with length]. rewrite IH. unfold RingBenchmark.pushes. rewrite length_fmap, length_range. lia.
Qed.

Lemma bench_bound : Z.of_nat (job_count jobs) + RingBenchmark.record_max < 2 ^ 63.
Proof.
  rewrite bench_count. unfold RingBenchmark.total. unfold RingBenchmark.record_max in *. rewrite u64_small by nia. lia.
Qed.
End benchmark.

(** The buffer is large enough for the ring, and [initialize] and [bind] succeed on it. *)
Lemma bench_ring data storage :
  data mod 64 = 0 → is_bytes storage →
  Z.of_nat (length storage) = RingBenchmark.buffer_size (payload_size_for RingBenchmark.record_max RingBenchmark.stride) →
  ∃ r meta storage',
    initialize (mkRecordRingMeta 0 0 0 0 0) data storage RingBenchmark.record_max RingBenchmark.max_payload =
      Some (Value r, meta, storage') ∧
    bind meta data storage' = Value r ∧
    RECORD_HEADER_SIZE ≤ RingBenchmark.stride < 2 ^ 32 ∧
    ring_abs r (init_cells RingBenchmark.record_max RingBenchmark.stride).
Proof.
  intros Ha Hb Hl. set (need := payload_size_for _ _) in *. assert (En : need = 8912896 + 128) by (vm_compute; reflexivity).
  unfold RingBenchmark.buffer_size in Hl. change CACHE_LINE_SIZE with 64 in Hl.
  pose proof (align_up_64 need ltac:(lia)) as [_ Hle].
  destruct (initialize_success (mkRecordRingMeta 0 0 0 0 0) data storage RingBenchmark.record_max RingBenchmark.max_payload)
    as (r&p'&E&Habs&_).
  - done.
  - done.
  - done.
  - unfold payload_aligned. change CACHE_LINE_SIZE with 64. by rewrite Ha.
  - vm_compute. discriminate.
  - fold RingBenchmark.stride. fold need. lia.
  - exists r. do 2 eexists. split; [exact E|]. split; [by eapply bind_initialize|]. split; [|exact Habs].
    vm_compute. split; discriminate || reflexivity.
Qed.

(** The benchmark, whatever the arguments, the contents of its buffer, the schedule and the
    spurious failures: it never gets stuck or accesses memory outside its ring, and every schedule
    can be continued to its end. It ends with exit code 0 once each record has been consumed exactly
    once, the records of each producer in order; the loss counter it prints is the number of
    pushes that met a full ring and were repeated, although no record is lost. *)
Theorem ring_benchmark_runs args memalign figures elapsed producers per_producer data storage :
  RingBenchmark.argument 4 (args !! 0%nat) = Some producers →
  RingBenchmark.argument 100000 (args !! 1%nat) = Some per_producer →
  0 ≤ producers < 2 ^ 32 → 0 ≤ per_producer < 2 ^ 32 →
  producers * per_producer + RingBenchmark.record_max < 2 ^ 63 →
  memalign (RingBenchmark.buffer_size (payload_size_for RingBenchmark.record_max RingBenchmark.stride)) =
    Some (data, storage) →
  data mod 64 = 0 → is_bytes storage →
  Z.of_nat (length storage) = RingBenchmark.buffer_size (payload_size_for RingBenchmark.record_max RingBenchmark.stride) →
  let main := RingBenchmark.main args memalign figures elapsed in
  let jobs := RingBenchmark.jobs producers per_producer in
  ∃ r, ∀ schedule,
    (∃ more ex, main (schedule ++ more) = Some (Done (Exited ex))) ∧
    let p := RingBenchmark.run producers per_producer r schedule in
    main schedule = Some Unfinished ∨
    main schedule = Some (Done (Exited (mkExit 0
      (RingBenchmark.report figures producers per_producer elapsed (u64 (Z.of_nat (full_calls p)))) []))) ∧
    ∃ order, interleaves jobs order ∧ shown <$> pg_popped p = expected RingBenchmark.stride 64 <$> order.
Proof.
  intros A1 A2 Hp Hq Ht Hm Ha Hb Hl main jobs. destruct (bench_ring data storage Ha Hb Hl) as (r&meta&storage'&Ei&Ebind&Hs&Habs).
  exists r. pose proof (bench_count producers per_producer Hp Hq Ht) as Hcount.
  pose proof (bench_typed producers per_producer Hq) as Hj. pose proof (bench_bound producers per_producer Hp Hq Ht) as Hbound.
  assert (Hc : 2 ≤ RingBenchmark.record_max < 2 ^ 32) by done.
  assert (Hsc : Z.of_nat (length RingBenchmark.scratch) < 2 ^ 32) by done.
  set (total := Z.to_nat (RingBenchmark.total producers per_producer)) in *.
  assert (Em : ∀ schedule, main schedule =
    if bool_decide (finished total (RingBenchmark.run producers per_producer r schedule)) then
      Some (Done (Exited (mkExit 0 (RingBenchmark.report figures producers per_producer elapsed
        (ring_lost_count (g_mem (pg_ring (RingBenchmark.run producers per_producer r schedule))))) [])))
    else Some Unfinished).
  { intros schedule. unfold main, RingBenchmark.main. rewrite A1, A2, Hm, Ei. cbn [mbind option_bind]. by rewrite Ebind. }
  assert (Hreach : ∀ schedule, rtc (pstep true total) (prog_init jobs RingBenchmark.scratch r)
    (RingBenchmark.run producers per_producer r schedule)) by (intros; apply run_turns_steps).
  assert (Hinv : ∀ schedule, prog_inv RingBenchmark.stride r jobs RingBenchmark.scratch true
    (RingBenchmark.run producers per_producer r schedule)).
  { intros. eapply (prog_reach_inv RingBenchmark.record_max); done || apply Hreach. }
  intros schedule. split.
  - destruct (can_finish RingBenchmark.record_max RingBenchmark.stride r jobs RingBenchmark.scratch true total Hc Hs Habs Hj
      Hsc Hbound _ eq_refl (eq_sym Hcount) (Hinv schedule)) as (p'&Hr'&Hf).
    apply steps_run_turns in Hr' as [more Er]. exists more. eexists. rewrite Em.
    assert (RingBenchmark.run producers per_producer r (schedule ++ more) = p') as ->
      by (unfold RingBenchmark.run; rewrite run_turns_app; exact Er). by rewrite bool_decide_true.
  - cbv zeta. rewrite Em. case_bool_decide as Hf; [right|by left].
    destruct (ended_complete RingBenchmark.record_max RingBenchmark.stride r jobs RingBenchmark.scratch true total Hc Hs Habs
      Hbound _ (Hinv schedule) eq_refl (eq_sym Hcount) Hf) as [Hsh Ho]. split; [|by eexists].
    rewrite <-(ended_full _ _ _ _ _ _ (Hreach schedule) (proj1 Hf)).
    rewrite (conc_lost RingBenchmark.record_max RingBenchmark.stride r (length jobs)); try done; [apply Hinv|].
    by apply (log_bound RingBenchmark.record_max RingBenchmark.stride r jobs RingBenchmark.scratch true Hbound).
Qed.

Lemma ring_benchmark_runs_witness :
  let size := RingBenchmark.buffer_size (payload_size_for RingBenchmark.record_max RingBenchmark.stride) in
  let main := RingBenchmark.main [str "2"; str "3"] (λ n, Some (4096, replicate (Z.to_nat n) 170)) (λ _ _, []) 5 in
  ∃ more ex, main more = Some (Done (Exited ex)).
Proof.
  intros size main.
  destruct (ring_benchmark_runs [str "2"; str "3"] (λ n, Some (4096, replicate (Z.to_nat n) 170)) (λ _ _, []) 5 2 3 4096
    (replicate (Z.to_nat size) 170)) as [r Hr].
  - reflexivity.
  - reflexivity.
  - lia.
  - lia.
  - reflexivity.
  - reflexivity.
  - reflexivity.
  - apply Forall_replicate. done.
  - rewrite length_replicate. apply Z2Nat.id. vm_compute. discriminate.
  - exact (proj1 (Hr [])).
Defined.
